(* ===== verification/_CoqProject ===== *)
-Q . S2P
Prelude.v
HelicsTime.v
Ids.v
Flags.v
ActionMessage.v
MessageCodec.v
CodecFacts.v
MultiMessage.v
Definitions.v
TimeDependencies.v
TimeCoordinator.v
TimeCoordinatorFacts.v
TimeCoordinatorInv.v
Disconnect.v
ForwardingTimeCoordinator.v
HandleManager.v
HandleFacts.v
InputInfo.v
InputFacts.v
Interfaces.v
UnknownHandles.v
InterfaceInfo.v
FederateState.v
FederateFacts.v
FederateOrder.v
FederateTermination.v
FederateExamples.v
Effects.v
MappedVector.v
BrokerBase.v
BrokerLoop.v
BrokerState.v
CoreBroker.v
BrokerFrame.v
BrokerRegistry.v
BrokerInit.v
BrokerDisconnect.v
BrokerStop.v
BrokerTree.v
BrokerLinks.v
BrokerTimeout.v
BrokerExamples.v
CoreState.v
CommonCore.v
CoreApi.v
CoreFrame.v
CoreTiming.v
CoreInit.v
CoreFilters.v
CoreRegistration.v
CoreLifecycle.v
CoreValues.v
CoreExamples.v
NetworkAddress.v
CoreTypes.v
FilterOperations.v
FilterFacts.v
FilterExamples.v
Comms.v
NetworkComms.v
InprocComms.v
InprocDelivery.v
AppMonad.v
AppFederate.v
AppFederateFacts.v
AppMessages.v
AppMessagesFacts.v
AppMessagesCore.v
AppMessagesExamples.v
AppValues.v
AppValuesFacts.v
AppValuesCore.v
CObjects.v
CObjectsFacts.v
CApi.v
CApiFacts.v
CApiErrors.v
CApiHandles.v
CApiApp.v
CApiExamples.v
