(* ===== verification/Prelude.v ===== *)
(** * Verification of the HELICS co-simulation core

    HELICS runs several simulators (federates) as one simulation.  Each federate
    belongs to a core, cores are joined by brokers, and the brokers form a tree with one
    root.  Everything these objects tell each other is an [ActionMessage].  A federate
    asks for a time; it is granted the time when no federate it depends on can still
    send it something earlier.  This library models src/src/helics/core: messages and
    their byte format, the time coordination, the interfaces of a federate and the data
    they hold, the state machine of a federate in its core, the core with its handlers and
    the calls of the federates, and the broker with its message loop; of
    src/src/helics/network the addresses, ports and communication objects below brokers and
    cores, with the transport inside of a process; and of src/src/helics/application_api
    the federate object, message and value federates and the filters of an application, with
    the C interface to federates and messages (src/src/helics/shared_api_library).

    ** Conventions

    The embedding is shallow.  A class of the source is a [Record] with its members, a
    method is a function that takes the object and returns the new one; the names are
    those of the source, with a prefix where two classes share one.  A call that can
    throw or access memory outside of an object returns an [outcome] ([Ok], [Throw],
    [Fault]).  Callbacks that send messages are modelled by the list of what they were
    given, in order.  Integers are in [Z], wrapped where the code stores them in a
    narrower type ([to_sint], [to_uint]).  Code outside of src/ is a class with its
    documented behaviour as a class of laws and an instance that satisfies them:

    - [TimeRep], [TimeLaws]: helics::Time of the utilities submodule (instance
      [NanoTime]);
    - [DualMapped], [MappedVector]: the containers of gmlc (instances [listed], [mvec]);
    - [BlockingQueue], [PriorityQueue]: the message queues of gmlc;
    - [UnitsLib], [Fmt], [BrokerText], [CoreQueries], [SteadyClock], [TimeMs]: units,
      formatting, text of the answers to queries, the clock;
    - [FilterOperators], [LocalAddress]: the operators that an application gives to
      filters ([world_operators] are those of the library), the address that the
      communication layer reports;
    - [NetworkEnvironment], [BuildOptions], [DefaultPort]: the resolver and the network
      interfaces of the host, the transports of a build, the port of a transport;
    - [FilterEnv]: random numbers, regular expressions, floating point, the text of times;
    - [SimpleQueue], [DualInsert]: the queue and the insertion into a container of gmlc;
    - [FederateName], [Application], [ValueApplication]: the name of a federate and the
      functions that an application gives to it, as programs over its calls;
    - [InputValue]: what an input does with the bytes of a value, which is conversion of
      types and units in floating point;
    - [Registry], [FederateCore], [QuietCore], [MessageCore], [Inbox], [ValueCore],
      [Values]: the interfaces to components of the sources, the factories for a transport
      and the core for a federate object, for its messages and for its values;
      [FederateVirtuals]: the virtual methods of a federate, which [message_virtuals] and
      [value_virtuals] implement; [ObjectStore], [Federates]: the objects behind the C
      interface and the library below it; [CTime]: [double] as a time.

    ** Files

    Prelude.v has record update, the [outcome] monad, machine integers, hint databases
    and lemmas on lists.  Effects.v has the monad of brokers and cores with its calculi: [ewp]
    (every normal result), [etotal] (there is one), [framed] (a relation is kept and only
    some messages are sent), [bounded] (the fuel is enough).

    - Data.  HelicsTime.v (helics-time.hpp), Ids.v (global_federate_id.hpp,
      federate_id.hpp), Flags.v (flagOperations.hpp), Definitions.v (helics_enums.h).
    - Messages.  ActionMessage.v and MessageCodec.v (ActionMessage.hpp, .cpp,
      ActionMessageDefintions.hpp); CodecFacts.v and MultiMessage.v show that a message is
      read back on a host of either byte order, that prefixes are rejected, and what a
      multi message carries.
    - Time.  TimeDependencies.v, TimeCoordinator.v, ForwardingTimeCoordinator.v (the files
      of the same names).  TimeDependencies.v refines a finite map;
      TimeCoordinatorFacts.v has the safety of a grant, the order and the grid of
      the granted times; TimeCoordinatorInv.v the invariant of all reachable states;
      Disconnect.v who is told at the end.
    - Interfaces.  HandleManager.v, InputInfo.v, Interfaces.v (publications, endpoints,
      filters), UnknownHandles.v, InterfaceInfo.v, with HandleFacts.v and InputFacts.v:
      tables and indices agree, queues stay sorted, a move to a time makes the right
      value visible.
    - Federates.  FederateState.v (FederateState.hpp, .cpp): [processActionMessage] with
      all its cases, the queue and the delay queues, and the calls of a federate, the
      messages that arrive during a call being an argument.  FederateFacts.v: the life
      cycle and the values taken at a grant; FederateOrder.v: messages of one source are
      processed in order; FederateTermination.v: the processing of a queue returns;
      FederateExamples.v: a run.
    - Brokers.  BrokerBase.v (BrokerBase.hpp, .cpp) over an interface of virtual methods
      [BrokerVirtuals], which CoreBroker.v (with BrokerState.v; CoreBroker.hpp, .cpp,
      TimeoutMonitor.h, .cpp) implements.  BrokerLoop.v: the loop returns and unpacks
      messages in order; BrokerFrame.v and BrokerRegistry.v: the registry of the root;
      BrokerTree.v: registration through a chain of brokers; BrokerInit.v: the grant of
      initialization; BrokerLinks.v: the connection of interfaces by name;
      BrokerDisconnect.v and BrokerStop.v: disconnection and the end; BrokerTimeout.v:
      pings; BrokerExamples.v: a run.
    - Cores.  CoreState.v (the members of CommonCore), CommonCore.v (the handlers of the
      core thread, CommonCore.cpp) and CoreApi.v (the calls of the federates).  CoreFrame.v
      walks through all handlers for any relation between the states before and after;
      CoreTiming.v: time messages wait for messages that are out at a filter;
      CoreInit.v: the core is a barrier for the initialization; CoreLifecycle.v: its
      states; CoreFilters.v: the order of filters; CoreRegistration.v: a federate joins
      through its core and the brokers above; CoreValues.v: a value reaches all
      subscribers; CoreExamples.v: a run.
    - Network.  NetworkAddress.v (NetworkBrokerData.hpp, .cpp) and CoreTypes.v
      (coreTypeOperations.cpp): addresses and names are read back.  Comms.v
      (CommsInterface.hpp, .cpp, CommsBroker_impl.hpp): the status, the lock, the queue and
      the end of a communication object, where threads that interleave are steps on the
      shared variables.  NetworkComms.v (NetworkCommsInterface.hpp, .cpp): all requests for
      ports get different ones.  InprocComms.v (InprocComms.cpp, TestComms.cpp) and
      InprocDelivery.v: the transport inside of a process delivers all messages in order.
    - Filters.  FilterOperations.v (FilterOperations.hpp, .cpp, MessageOperators.hpp, .cpp,
      Filters.cpp), FilterFacts.v, FilterExamples.v: the operators of the library run in
      the core of CommonCore.v, one after the other.
    - Applications.  AppMonad.v has the monad of the application interface, with exceptions
      and its calculus [awp].  AppFederate.v (Federate.hpp, .cpp, AsyncFedCallInfo.hpp) and
      AppFederateFacts.v: the core sees the calls of a federate object in the order it
      provides for, whatever the application does, and the calls in two parts do what the
      calls that wait do.  AppMessages.v (MessageFederate.cpp, MessageFederateManager.hpp,
      .cpp, Endpoints.hpp) and AppMessagesFacts.v: no message is lost or reordered between
      the core and the application, and no pointer is used that points to nothing.
      AppMessagesCore.v: the core of CoreApi.v is a core for them; AppMessagesExamples.v: a
      run on it.  AppValues.v (ValueFederate.cpp, ValueFederateManager.hpp, .cpp, Inputs.hpp,
      .cpp) and AppValuesFacts.v: each input is a register that holds the last value of the
      core, a new time stores the values and calls the functions for them in order, and no
      pointer or reference is used that is not valid.  AppValuesCore.v: the core of CoreApi.v
      is a core for them, and runs on it.
    - C interface.  CObjects.v (api_objects.h, the holders of helicsExport.cpp and
      MessageFederateExport.cpp): the objects behind the handles; CObjectsFacts.v: their
      slots, free lists and back references do what a ledger of live handles says.  CApi.v:
      the functions (FederateExport.cpp, MessageFederateExport.cpp, helicsExport.cpp).
      CApiFacts.v: all sequences of calls give what they give over the ledger, a handle that
      is not alive being the only wrong use; CApiHandles.v: no call touches the message of
      another handle; CApiErrors.v: after an error nothing happens.  CApiApp.v: the
      federates of AppMessages.v are a library for it; CApiExamples.v: a program.

    ** Bounds

    Recursion that is not structural takes a fuel, and a theorem says which is enough.
    [addPeriods] gets the distance to its target in time codes, and a period is at least
    one ([nextPossibleTime_advances]); [fromByteArray_fuel] gets one more than the length
    of the data, and calls itself on the content of a frame, which is shorter;
    [processActionMessage] and [processDelayQueue] need 2, and [queueLoop] the length of
    the queue ([processQueue_returns]); [commandProcessor] needs 2 more than the depth of
    nested messages, which their length bounds ([commandProcessor_returns]);
    [markAsDisconnected] gets the number of brokers and 2 more ([disconnect_fuel],
    [disconnect_subtree]); [organizeLoop] gets the number of filters and 2 more
    ([organizeFilters_spec]); [deliverMessage] takes the depth of the delivery through
    cloning filters, which has no bound when filters send to each other in a circle.
    [skipUsed] gets one more than the number of ports in use ([ports_distinct]);
    [coreTypeFromString] gets one more than the length of the name, which gets shorter;
    [fmt_expand] and [replace_all] get the length of their text and 1 more; these two and
    [addPeriods] return what they have when the fuel is used up.
    Otherwise a fuel used up is [None], never a normal result.  [finalizeLoop] and
    [processingLoop] run for a given number of rounds, as do the waits in Comms.v and
    InprocComms.v: they wait for messages of others.

    ** Not modelled

    The build without asio is modelled: no real time timers.  Logging, the text of
    the answers to queries (json documents), configuration from the command line and
    files, threads and locks (but for those of Comms.v) are left out, as they call
    libraries that are not part of the sources.  The transports over sockets, MPI and
    shared memory, the conversion of values (floating point and a serialization library),
    publications with change detection, local queries, the C functions for values, filters,
    queries, cores and brokers, the applications and the language bindings are not
    modelled. *)

From stdpp Require Export prelude gmap strings sorting list list_numbers.
From Stdlib Require Export ZArith Lia.

Open Scope Z_scope.

(** ** Record update

    C++ methods assign one member at a time.  [r <| f := v |>] is the record [r]
    with the field [f] replaced: the updater of a field is computed from the eta
    expansion of its record type. *)

Class Eta (R : Type) := eta_expand : R → R.
Class Updater {R E : Type} (proj : R → E) := upd : (E → E) → R → R.
Arguments upd {R E} proj {_} _ _ /.

Ltac build_updater :=
  match goal with
  | |- @Updater ?R ?E ?proj =>
      let f := fresh "f" in
      let r := fresh "r" in
      unfold Updater; intros f r;
      let e := eval hnf in (@eta_expand R _ r) in
      let e := eval pattern (proj r) in e in
      match e with
      | ?g _ => let t := eval cbv beta in (g (f (proj r))) in exact t
      end
  end.

#[export] Hint Extern 1 (Updater _) => build_updater : typeclass_instances.

Declare Scope update_scope.
Delimit Scope update_scope with upd.
Notation "r <| f := v |>" := (upd f (λ _, v) r)
  (at level 1, f at level 10, left associativity,
   format "r  <| f  :=  v |>") : update_scope.
Open Scope update_scope.

(** ** Machine integers

    Values are kept in [Z] inside the range of their C++ type; the conversions
    below are the ones of a narrowing cast. *)

Definition uint_range (w z : Z) : Prop := 0 ≤ z < 2 ^ w.
Definition sint_range (w z : Z) : Prop := - 2 ^ (w - 1) ≤ z < 2 ^ (w - 1).

Definition to_uint (w z : Z) : Z := z mod 2 ^ w.
Definition to_sint (w z : Z) : Z := (z + 2 ^ (w - 1)) mod 2 ^ w - 2 ^ (w - 1).

(** ** Outcomes of a call

    A call returns, throws a standard exception with a message, or accesses memory
    outside of the object it was given ([Fault], undefined behaviour in C++). *)

Inductive outcome (A : Type) :=
  | Ok (a : A)
  | Throw (what : string)
  | Fault.
Arguments Ok {A} a.
Arguments Throw {A} what.
Arguments Fault {A}.

#[export] Instance outcome_ret : MRet outcome := @Ok.
#[export] Instance outcome_bind : MBind outcome := λ A B k m,
  match m with Ok a => k a | Throw e => Throw e | Fault => Fault end.

(** ** Search in a random-access range

    [partition_point p l] is the halving loop of [std::lower_bound] and
    [std::upper_bound]: [first] and [count] delimit the range still to search. *)

Fixpoint partition_loop {A} (p : A → bool) (l : list A)
    (fuel first count : nat) : nat :=
  match fuel with
  | O => first
  | S fuel =>
      if bool_decide (count = 0%nat) then first
      else
        let step := Nat.div2 count in
        match l !! (first + step)%nat with
        | Some x =>
            if p x then partition_loop p l fuel (S (first + step)) (count - S step)
            else partition_loop p l fuel first step
        | None => first
        end
  end.

Definition partition_point {A} (p : A → bool) (l : list A) : nat :=
  partition_loop p l (length l) 0 (length l).

(** [std::lower_bound(begin, end, v, comp)]: [comp] orders an element with [v]. *)
Definition lower_bound {A B} (comp : A → B → bool) (l : list A) (v : B) : nat :=
  partition_point (λ x, comp x v) l.

(** [std::upper_bound(begin, end, v, comp)]. *)
Definition upper_bound {A B} (comp : B → A → bool) (l : list A) (v : B) : nat :=
  partition_point (λ x, negb (comp v x)) l.

(** Reference definition: the number of leading elements that satisfy [p]. *)
Fixpoint prefix_len {A} (p : A → bool) (l : list A) : nat :=
  match l with
  | [] => 0
  | x :: l => if p x then S (prefix_len p l) else 0
  end.

(** The precondition of the search: an element that satisfies [p] never follows
    one that does not. *)
Definition partitioned {A} (p : A → bool) (l : list A) : Prop :=
  ∀ i j x y, (i ≤ j)%nat → l !! i = Some x → l !! j = Some y → p y → p x.

(** [std::vector::insert(begin() + i, x)] and [std::vector::erase(begin() + i)]. *)
Definition vec_insert {A} (i : nat) (x : A) (l : list A) : list A :=
  take i l ++ x :: drop i l.
Definition vec_erase {A} (i : nat) (l : list A) : list A :=
  take i l ++ drop (S i) l.

(** Erasing the element found by [std::find], if any. *)
Definition vec_remove (x : Z) (l : list Z) : list Z :=
  match list_find (x =.) l with
  | Some (i, _) => vec_erase i l
  | None => l
  end.

(** [std::set<...>] of ordered values: insertion in a strictly increasing list, and
    the constructor from a range. *)
Fixpoint set_insert (x : Z) (l : list Z) : list Z :=
  match l with
  | [] => [x]
  | y :: l' => if x <? y then x :: l else if y <? x then y :: set_insert x l' else l
  end.
Definition set_of_range (l : list Z) : list Z := foldl (λ s x, set_insert x s) [] l.

(** [isValidIndex(index, container)] of the source. *)
Definition isValidIndex {A} (index : Z) (l : list A) : bool :=
  (0 <=? index) && (index <? Z.of_nat (length l)).

(** Vectors kept in strictly increasing order of a key. *)
Definition key_sorted {A} (key : A → Z) (l : list A) : Prop :=
  StronglySorted (λ a b, key a < key b) l.

(** The entry of a given key of an association list: the abstract reading of such
    a vector. *)
Definition key_lookup {A} (key : A → Z) (k : Z) (l : list A) : option A :=
  snd <$> list_find (λ a, key a = k) l.

(** The same entries as a finite map. *)
Definition key_map {A} (key : A → Z) (l : list A) : gmap Z A :=
  list_to_map ((λ a, (key a, a)) <$> l).

(** ** Tactics *)

(** Case analysis on the boolean tests of a definition, turned into the
    propositions they decide. *)
Ltac bool_cases :=
  repeat match goal with
  | |- context [if ?b then _ else _] => destruct b eqn:?
  | H : context [if ?b then _ else _] |- _ => destruct b eqn:?
  end.

Ltac bool_facts :=
  repeat match goal with
  | H : (_ && _) = true |- _ => apply andb_true_iff in H as [? ?]
  | H : (_ || _) = false |- _ => apply orb_false_iff in H as [? ?]
  | H : (_ && _) = false |- _ => apply andb_false_iff in H
  | H : (_ || _) = true |- _ => apply orb_true_iff in H
  | H : negb _ = true |- _ => apply negb_true_iff in H
  | H : negb _ = false |- _ => apply negb_false_iff in H
  | H : (_ <? _) = true |- _ => apply Z.ltb_lt in H
  | H : (_ <? _) = false |- _ => apply Z.ltb_ge in H
  | H : (_ <=? _) = true |- _ => apply Z.leb_le in H
  | H : (_ <=? _) = false |- _ => apply Z.leb_gt in H
  | H : (_ =? _) = true |- _ => apply Z.eqb_eq in H
  | H : (_ =? _) = false |- _ => apply Z.eqb_neq in H
  | H : bool_decide _ = true |- _ => apply bool_decide_eq_true_1 in H
  | H : bool_decide _ = false |- _ => apply bool_decide_eq_false_1 in H
  end.

(** Solve a goal whose content is a finite boolean case split plus arithmetic. *)
Ltac bool_lia := bool_cases; bool_facts; try lia.

Create HintDb helics.

(** ** Lemmas on machine integers *)

Lemma to_uint_range w z : 0 ≤ w → uint_range w (to_uint w z).
Proof. intros. apply Z.mod_pos_bound, Z.pow_pos_nonneg; lia. Qed.

Lemma to_uint_id w z : uint_range w z → to_uint w z = z.
Proof. intros. by apply Z.mod_small. Qed.

Lemma pow2_split w : 1 ≤ w → 2 ^ w = 2 * 2 ^ (w - 1).
Proof. intros. rewrite <-Z.pow_succ_r by lia. f_equal; lia. Qed.

Lemma to_sint_range w z : 1 ≤ w → sint_range w (to_sint w z).
Proof.
  intros. unfold sint_range, to_sint.
  pose proof (pow2_split w) as Hs.
  assert (0 < 2 ^ w) by (apply Z.pow_pos_nonneg; lia).
  pose proof (Z.mod_pos_bound (z + 2 ^ (w - 1)) (2 ^ w)). lia.
Qed.

Lemma to_sint_id w z : 1 ≤ w → sint_range w z → to_sint w z = z.
Proof.
  unfold sint_range, to_sint. intros Hw Hz.
  pose proof (pow2_split w Hw) as Hs.
  rewrite Z.mod_small; lia.
Qed.

(** Reading back as signed the bits written by a signed store. *)
Lemma to_sint_to_uint w z : 1 ≤ w → to_sint w (to_uint w z) = to_sint w z.
Proof.
  intros. unfold to_sint, to_uint. f_equal.
  rewrite Zplus_mod_idemp_l. done.
Qed.

Lemma uint_range_ones w z : 0 ≤ w → uint_range w z ↔ Z.land z (Z.ones w) = z.
Proof.
  intros. rewrite Z.land_ones by done. split; [by apply to_uint_id|].
  intros <-. by apply to_uint_range.
Qed.

Lemma uint_range_lor w a b :
  0 ≤ w → uint_range w a → uint_range w b → uint_range w (Z.lor a b).
Proof.
  intros Hw. rewrite !uint_range_ones by done. intros Ha Hb.
  by rewrite Z.land_lor_distr_l, Ha, Hb.
Qed.

Lemma uint_range_land_l w a b : 0 ≤ w → uint_range w a → uint_range w (Z.land a b).
Proof.
  intros Hw. rewrite !uint_range_ones by done. intros Ha.
  by rewrite <-Z.land_assoc, (Z.land_comm b), Z.land_assoc, Ha.
Qed.

#[export] Hint Resolve to_uint_range to_sint_range : helics.

(** ** Lemmas on the search *)

Section search.
  Context {A : Type} (p : A → bool).
  Implicit Types l : list A.

Lemma prefix_len_le l : (prefix_len p l ≤ length l)%nat.
Proof. induction l as [|x l IH]; simpl; [lia|]. destruct (p x); lia. Qed.

Lemma prefix_len_take l : Forall (λ x, p x) (take (prefix_len p l) l).
Proof.
  induction l as [|x l IH]; simpl; [constructor|].
  destruct (p x) eqn:E; simpl; [|constructor].
  constructor; [by rewrite E|done].
Qed.

Lemma prefix_len_stop l x : l !! prefix_len p l = Some x → p x = false.
Proof.
  induction l as [|y l IH]; simpl; [done|].
  destruct (p y) eqn:E; simpl; [done|]. intros [= ->]. done.
Qed.

Lemma prefix_len_unique l n :
  (n ≤ length l)%nat →
  (∀ i x, (i < n)%nat → l !! i = Some x → p x) →
  (∀ x, l !! n = Some x → p x = false) →
  prefix_len p l = n.
Proof.
  revert n. induction l as [|y l IH]; intros n Hn Hbefore Hat; simpl in *; [lia|].
  destruct n as [|n].
  - by rewrite (Hat y).
  - rewrite (Is_true_true_1 (p y)) by (apply (Hbefore 0%nat); [lia|done]). f_equal.
    apply IH; [lia| |done].
    intros i x Hi Hx. apply (Hbefore (S i)); [lia|done].
Qed.

Lemma partition_loop_spec l fuel first count :
  partitioned p l →
  (count ≤ fuel)%nat → (first + count ≤ length l)%nat →
  (∀ i x, (i < first)%nat → l !! i = Some x → p x) →
  (∀ i x, (first + count ≤ i)%nat → l !! i = Some x → p x = false) →
  partition_loop p l fuel first count = prefix_len p l.
Proof.
  intros Hpart. revert first count.
  induction fuel as [|fuel IH]; intros first count Hfuel Hlen Hlo Hhi; simpl.
  { symmetry. apply prefix_len_unique; [lia|done|].
    intros x. apply Hhi. lia. }
  case_bool_decide as Hc.
  { symmetry. apply prefix_len_unique; [lia|done|].
    intros x. apply Hhi. lia. }
  pose proof (Nat.lt_div2 count ltac:(lia)) as Hstep.
  set (step := Nat.div2 count) in *.
  destruct (lookup_lt_is_Some_2 l (first + step)) as [x Hx]; [lia|].
  rewrite Hx. destruct (p x) eqn:Px; apply IH; try lia.
  - intros i y Hi Hy. eapply (Hpart i (first + step)%nat); [lia|done..|].
    by rewrite Px.
  - intros i y Hi Hy. apply Hhi with i; [lia|done].
  - done.
  - intros i y Hi Hy. destruct (p y) eqn:Py; [|done].
    assert (p x) as Hpx; [|by rewrite Px in Hpx].
    eapply (Hpart (first + step)%nat i); [lia|done..|]. by rewrite Py.
Qed.

(** The halving search of the standard library finds the partition point. *)
Lemma partition_point_spec l :
  partitioned p l → partition_point p l = prefix_len p l.
Proof.
  intros. apply partition_loop_spec; [done|lia|lia|lia|].
  intros i x Hi Hx. apply lookup_lt_Some in Hx. lia.
Qed.

End search.

(** ** Lemmas on vectors sorted by a key *)

Lemma vec_insert_end {A} (x : A) l n : (length l ≤ n)%nat → vec_insert n x l = l ++ [x].
Proof. intros. unfold vec_insert. by rewrite take_ge, drop_ge. Qed.

Lemma list_filter_all {A} (P : A → Prop) `{∀ x, Decision (P x)} (l : list A) :
  Forall P l → filter P l = l.
Proof.
  induction 1 as [|x l Hx _ IH]; [done|]. rewrite filter_cons, decide_True by done.
  by rewrite IH.
Qed.

Lemma list_filter_none {A} (P : A → Prop) `{∀ x, Decision (P x)} (l : list A) :
  Forall (λ x, ¬ P x) l → filter P l = [].
Proof.
  induction 1 as [|x l Hx _ IH]; [done|]. by rewrite filter_cons, decide_False by done.
Qed.

Lemma Forall_list_filter {A} (P Q : A → Prop) `{∀ x, Decision (Q x)} (l : list A) :
  Forall P l → Forall P (filter Q l).
Proof.
  rewrite !Forall_forall. intros Hl x [_ Hx]%list_elem_of_filter. by apply Hl.
Qed.

Lemma vec_erase_permutation {A} i (x : A) (l : list A) :
  l !! i = Some x → l ≡ₚ x :: vec_erase i l.
Proof.
  intros Hi. rewrite <-(take_drop_middle l i x Hi) at 1. unfold vec_erase.
  by rewrite Permutation_middle.
Qed.

Lemma vec_insert_permutation {A} i (x : A) (l : list A) : vec_insert i x l ≡ₚ x :: l.
Proof. unfold vec_insert. by rewrite <-Permutation_middle, take_drop. Qed.

Lemma vec_remove_permutation x l l' :
  l ≡ₚ x :: l' → vec_remove x l ≡ₚ l'.
Proof.
  intros Hp. unfold vec_remove. destruct (list_find (x =.) l) as [[i y]|] eqn:Hf.
  - apply list_find_Some in Hf as (Hi & <- & _).
    apply (Permutation_cons_inv (a := x)). rewrite <-Hp. symmetry.
    by apply vec_erase_permutation.
  - apply list_find_None in Hf. rewrite Forall_forall in Hf.
    destruct (Hf x); [|done]. rewrite Hp. by left.
Qed.

(** [std::none_of] *)
Lemma none_of_Forall {A} (p : A → bool) l :
  negb (existsb p l) = true ↔ Forall (λ x, p x = false) l.
Proof.
  rewrite negb_true_iff. induction l as [|x l IH]; simpl; [by rewrite Forall_nil|].
  by rewrite Forall_cons, <-IH, orb_false_iff.
Qed.

(** [std::set] *)
Lemma set_insert_elem x y l : y ∈ set_insert x l ↔ y = x ∨ y ∈ l.
Proof.
  induction l as [|z l IH]; simpl; [set_solver|].
  destruct (Z.ltb_spec x z); [set_solver|]. destruct (Z.ltb_spec z x); [set_solver|].
  assert (x = z) as -> by lia. set_solver.
Qed.

Lemma set_insert_sorted x l :
  StronglySorted Z.lt l → StronglySorted Z.lt (set_insert x l).
Proof.
  induction 1 as [|z l Hs IH Hz]; simpl; [repeat constructor|].
  destruct (Z.ltb_spec x z).
  { constructor; [by constructor|]. constructor; [done|].
    eapply Forall_impl; [exact Hz|]. simpl. lia. }
  destruct (Z.ltb_spec z x); [|by constructor].
  constructor; [done|]. rewrite Forall_forall in *.
  intros y [->|Hy]%set_insert_elem; [done|]. by apply Hz.
Qed.

Lemma set_of_range_spec l :
  StronglySorted Z.lt (set_of_range l) ∧ ∀ x, x ∈ set_of_range l ↔ x ∈ l.
Proof.
  unfold set_of_range.
  assert (∀ acc, StronglySorted Z.lt acc →
    StronglySorted Z.lt (foldl (λ s x, set_insert x s) acc l) ∧
    ∀ x, x ∈ foldl (λ s x, set_insert x s) acc l ↔ x ∈ acc ∨ x ∈ l) as Hgen.
  { induction l as [|y l IH]; intros acc Hs; simpl; [set_solver|].
    destruct (IH (set_insert y acc)) as [Hs' Hin]; [by apply set_insert_sorted|].
    split; [done|]. intros x. rewrite Hin, set_insert_elem. set_solver. }
  destruct (Hgen [] (SSorted_nil _)) as [Hs Hin]. split; [done|]. set_solver.
Qed.

Section key_sorted.
  Context {A : Type} (key : A → Z).
  Implicit Types (l : list A) (a x : A) (k : Z).

Lemma key_sorted_lookup_lt l i j x y :
  key_sorted key l → (i < j)%nat → l !! i = Some x → l !! j = Some y →
  key x < key y.
Proof.
  intros Hs. revert i j. induction Hs as [|z l Hs IH Hz]; intros i j Hij Hi Hj; [done|].
  destruct j as [|j]; [lia|]. destruct i as [|i]; simplify_eq/=.
  - rewrite Forall_lookup in Hz. eauto.
  - apply (IH i j); [lia|done..].
Qed.

Lemma key_sorted_partitioned l k :
  key_sorted key l → partitioned (λ x, key x <? k) l.
Proof.
  intros Hs i j x y Hij Hx Hy Hk%Is_true_true. apply Is_true_true.
  destruct (decide (i = j)) as [->|]; [by simplify_eq|].
  pose proof (key_sorted_lookup_lt l i j x y Hs ltac:(lia) Hx Hy).
  bool_facts. apply Z.ltb_lt. lia.
Qed.

(** Position of a key in a sorted vector. *)
Lemma lower_bound_key_sorted l k :
  key_sorted key l →
  lower_bound (λ x k, key x <? k) l k = prefix_len (λ x, key x <? k) l.
Proof. intros. by apply partition_point_spec, key_sorted_partitioned. Qed.

Lemma key_sorted_cons a l :
  key_sorted key (a :: l) ↔ Forall (λ x, key a < key x) l ∧ key_sorted key l.
Proof. apply StronglySorted_cons. Qed.

Lemma key_lookup_cons k a l :
  key_lookup key k (a :: l) = if decide (key a = k) then Some a else key_lookup key k l.
Proof.
  unfold key_lookup. simpl. case_decide; [done|].
  by destruct (list_find _ l) as [[]|].
Qed.

Lemma key_lookup_Some_elem k a l : key_lookup key k l = Some a → a ∈ l ∧ key a = k.
Proof.
  induction l as [|b l IH]; [done|]. rewrite key_lookup_cons.
  case_decide as Hb; [intros [= <-]; split; [left|done]|].
  intros [? ?]%IH. split; [by right|done].
Qed.

Lemma key_map_lookup k l : key_map key l !! k = key_lookup key k l.
Proof.
  induction l as [|a l IH]; [done|]. rewrite key_lookup_cons. unfold key_map in *. cbn.
  case_decide as Hk; [by rewrite Hk, lookup_insert_eq|]. by rewrite lookup_insert_ne.
Qed.

Lemma key_lookup_None k l : Forall (λ a, key a ≠ k) l → key_lookup key k l = None.
Proof.
  induction 1 as [|a l Ha _ IH]; [done|]. rewrite key_lookup_cons. by rewrite decide_False.
Qed.

Lemma key_lookup_absent k a l : key a = k → key_lookup key k l = None → a ∉ l.
Proof.
  intros Hk. induction l as [|b l IH]; [set_solver|]. rewrite key_lookup_cons.
  case_decide; [done|]. intros Hn Hin. apply elem_of_cons in Hin as [->|Hin]; [done|]. by apply IH.
Qed.

(** In a sorted vector the entry found is the one at the lower bound. *)
Lemma key_lookup_sorted k l :
  key_sorted key l →
  key_lookup key k l =
    match l !! prefix_len (λ x, key x <? k) l with
    | Some a => if key a =? k then Some a else None
    | None => None
    end.
Proof.
  induction l as [|a l IH]; intros Hs; [done|].
  apply key_sorted_cons in Hs as [Ha Hs]. rewrite key_lookup_cons. simpl.
  destruct (Z.ltb_spec (key a) k) as [Hlt|Hge]; simpl.
  - rewrite decide_False by lia. auto.
  - destruct (Z.eqb_spec (key a) k) as [->|Hne]; [by rewrite decide_True|].
    rewrite decide_False by done. apply key_lookup_None.
    eapply Forall_impl; [exact Ha|]. simpl. lia.
Qed.

Lemma key_sorted_insert k a l :
  key a = k → key_sorted key l → key_lookup key k l = None →
  key_sorted key (vec_insert (prefix_len (λ x, key x <? k) l) a l).
Proof.
  intros Hk Hs. induction l as [|b l IH]; intros Hnone; simpl.
  { repeat constructor. }
  apply key_sorted_cons in Hs as [Hb Hs]. rewrite key_lookup_cons in Hnone.
  case_decide as Hbk; [done|]. specialize (IH Hs Hnone).
  destruct (Z.ltb_spec (key b) k) as [Hlt|Hge]; simpl.
  - apply key_sorted_cons. split; [|exact IH].
    apply Forall_app; split; [by apply Forall_take|].
    apply Forall_cons; split; [lia|]. simpl. by apply Forall_drop.
  - apply key_sorted_cons. split; [|by apply key_sorted_cons].
    constructor; [lia|]. eapply Forall_impl; [exact Hb|]. simpl. lia.
Qed.

Lemma key_lookup_insert k k' a l :
  key a = k → key_sorted key l → key_lookup key k l = None →
  key_lookup key k' (vec_insert (prefix_len (λ x, key x <? k) l) a l) =
    if decide (k' = k) then Some a else key_lookup key k' l.
Proof.
  intros Hk Hs. induction l as [|b l IH]; intros Hnone; simpl.
  { unfold vec_insert. simpl. rewrite key_lookup_cons.
    repeat case_decide; congruence. }
  apply key_sorted_cons in Hs as [Hb Hs]. rewrite key_lookup_cons in Hnone.
  case_decide as Hbk; [done|]. specialize (IH Hs Hnone).
  destruct (Z.ltb_spec (key b) k) as [Hlt|Hge]; simpl.
  - unfold vec_insert in *; simpl. rewrite !key_lookup_cons, IH.
    repeat case_decide; congruence.
  - unfold vec_insert; simpl. rewrite !key_lookup_cons.
    repeat case_decide; congruence.
Qed.

Lemma key_sorted_erase i l : key_sorted key l → key_sorted key (vec_erase i l).
Proof.
  revert i. induction l as [|b l IH]; intros i Hs.
  { unfold vec_erase. by rewrite take_nil, drop_nil. }
  apply key_sorted_cons in Hs as [Hb Hs].
  destruct i as [|i]; unfold vec_erase in *; simpl; [done|].
  apply key_sorted_cons. split; [|by apply IH].
  apply Forall_app; split; [by apply Forall_take|by apply Forall_drop].
Qed.

Lemma key_lookup_erase k k' a l :
  key_sorted key l → key_lookup key k l = Some a →
  key_lookup key k' (vec_erase (prefix_len (λ x, key x <? k) l) l) =
    if decide (k' = k) then None else key_lookup key k' l.
Proof.
  intros Hs. induction l as [|b l IH]; intros Hsome; [done|]. simpl.
  apply key_sorted_cons in Hs as [Hb Hs]. rewrite key_lookup_cons in Hsome.
  case_decide as Hbk; simplify_eq.
  - rewrite Z.ltb_irrefl. unfold vec_erase; simpl. rewrite key_lookup_cons.
    case_decide; subst.
    + apply key_lookup_None. eapply Forall_impl; [exact Hb|]. simpl. lia.
    + rewrite decide_False by done. done.
  - assert (key b < k) as Hlt.
    { apply key_lookup_Some_elem in Hsome as [Hin <-].
      rewrite Forall_forall in Hb. auto. }
    rewrite (proj2 (Z.ltb_lt _ _) Hlt). specialize (IH Hs Hsome).
    unfold vec_erase in *; simpl. rewrite !key_lookup_cons, IH.
    repeat case_decide; congruence.
Qed.

(** Changing the other members of the entries keeps the order. *)
Lemma key_sorted_fmap (f : A → A) l :
  (∀ a, key (f a) = key a) → key_sorted key l → key_sorted key (f <$> l).
Proof.
  intros Hf. induction 1 as [|a l Hs IH Ha]; [constructor|].
  apply key_sorted_cons. split; [|exact IH].
  apply Forall_fmap. eapply Forall_impl; [exact Ha|]. simpl. intros x. by rewrite !Hf.
Qed.

Lemma key_lookup_fmap (f : A → A) k l :
  (∀ a, key (f a) = key a) → key_lookup key k (f <$> l) = f <$> key_lookup key k l.
Proof.
  intros Hf. induction l as [|a l IH]; [done|].
  rewrite fmap_cons, !key_lookup_cons, IH, Hf. by case_decide.
Qed.

Lemma key_sorted_NoDup l : key_sorted key l → NoDup (key <$> l).
Proof.
  induction 1 as [|a l Hs IH Ha]; simpl; constructor; [|done].
  rewrite list_elem_of_fmap. intros (x & Hx & Hin).
  rewrite Forall_forall in Ha. specialize (Ha x Hin). lia.
Qed.

(** Replacing the entry at an index by one with the same key. *)
Lemma key_sorted_update i a b l :
  l !! i = Some a → key b = key a → key_sorted key l → key_sorted key (<[i := b]> l).
Proof.
  intros Hi Hk Hs. revert i Hi. induction Hs as [|c l Hs IH Hc]; intros i Hi; [done|].
  destruct i as [|i]; simpl in *; apply key_sorted_cons; split.
  - simplify_eq. by rewrite Hk.
  - done.
  - apply Forall_insert; [done|]. rewrite Hk.
    rewrite Forall_forall in Hc. eapply Hc, list_elem_of_lookup_2, Hi.
  - by apply IH.
Qed.

Lemma key_map_update i a b l :
  l !! i = Some a → key b = key a → key_sorted key l →
  key_map key (<[i := b]> l) = <[key a := b]> (key_map key l).
Proof.
  intros Hi Hk Hs. apply map_eq. intros k.
  destruct (decide (k = key a)) as [->|Hne].
  - rewrite lookup_insert_eq, key_map_lookup. revert i Hi.
    induction Hs as [|c l Hs IH Hc]; intros i Hi; [done|].
    destruct i as [|i]; simpl in *; rewrite key_lookup_cons.
    + by rewrite decide_True.
    + rewrite decide_False; [by apply IH|]. rewrite Forall_forall in Hc.
      specialize (Hc a (list_elem_of_lookup_2 _ _ _ Hi)). lia.
  - rewrite lookup_insert_ne, !key_map_lookup by done. revert i Hi.
    clear Hs. induction l as [|c l IH]; intros i Hi; [done|].
    destruct i as [|i]; simpl in *; rewrite !key_lookup_cons.
    + simplify_eq. by rewrite !decide_False by congruence.
    + by rewrite (IH i).
Qed.

Lemma key_map_insert k a l :
  key a = k → key_sorted key l → key_map key l !! k = None →
  key_map key (vec_insert (prefix_len (λ x, key x <? k) l) a l) = <[k := a]> (key_map key l).
Proof.
  intros Hk Hs Hn. rewrite key_map_lookup in Hn. apply map_eq. intros k'.
  rewrite key_map_lookup, key_lookup_insert by done. case_decide as Hd.
  - by rewrite Hd, lookup_insert_eq.
  - by rewrite lookup_insert_ne, key_map_lookup by congruence.
Qed.

Lemma key_map_erase k l :
  key_sorted key l → is_Some (key_map key l !! k) →
  key_map key (vec_erase (prefix_len (λ x, key x <? k) l) l) = delete k (key_map key l).
Proof.
  intros Hs [a Ha]. rewrite key_map_lookup in Ha. apply map_eq. intros k'.
  rewrite key_map_lookup, (key_lookup_erase _ _ a) by done. case_decide as Hd.
  - by rewrite Hd, lookup_delete_eq.
  - by rewrite lookup_delete_ne, key_map_lookup by congruence.
Qed.

Lemma key_map_fmap (f : A → A) l :
  (∀ a, key (f a) = key a) → key_map key (f <$> l) = f <$> key_map key l.
Proof.
  intros Hf. apply map_eq. intros k.
  by rewrite lookup_fmap, !key_map_lookup, key_lookup_fmap.
Qed.

End key_sorted.

#[export] Hint Resolve key_sorted_insert key_sorted_erase key_sorted_fmap
  key_sorted_update : helics.
