(* ===== verification/HelicsTime.v ===== *)
(** * The simulation time (src/src/helics/core/helics-time.hpp)

    [helics::Time] is [TimeRepresentation<count_time<9>>], a class of the
    [utilities] submodule, which is not part of the sources: its operations are
    the fields of the class [TimeRep], and what the core relies on is the class
    [TimeLaws].  A time value is carried by its base time code, the 64-bit count
    that [getBaseTimeCode] and [setBaseTimeCode] exchange (the round trip and the
    order of the codes are what tests/helics/common/TimeTests.cpp exercises).
    [NanoTime] is a concrete instance, used to show that the laws can hold. *)

From S2P Require Import Prelude.

(** A time is handled through its base time code. *)
Abbreviation Time := Z (only parsing).

Class TimeRep := {
  Time_maxVal : Time;
  Time_minVal : Time;
  Time_epsilon : Time;
  Time_zeroVal : Time;
  Time_add : Time → Time → Time;
  Time_sub : Time → Time → Time;
  Time_neg : Time → Time;
  (** [Time(static_cast<double>(n))] for an integer number of seconds [n] *)
  Time_of_int : Z → Time;
  (** the type [double], the quotient of two times, [std::ceil] and the product of
      a [double] and a time *)
  double : Type;
  Time_div : Time → Time → double;
  double_ceil : double → double;
  Time_scale : double → Time → Time;
}.

Declare Scope time_scope.
Delimit Scope time_scope with time.
Infix "+t" := Time_add (at level 50, left associativity) : time_scope.
Infix "-t" := Time_sub (at level 50, left associativity) : time_scope.
Open Scope time_scope.

(** The constants of helics-time.hpp. *)
Definition timeZero `{TimeRep} : Time := Time_zeroVal.
Definition timeEpsilon `{TimeRep} : Time := Time_epsilon.
Definition negEpsilon `{TimeRep} : Time := Time_neg Time_epsilon.

Definition time_range `{TimeRep} (t : Z) : Prop := Time_minVal ≤ t ≤ Time_maxVal.

(** What the core relies on: the order of the constants, and exact addition and
    subtraction as long as the result is a representable time. *)
Class TimeLaws `{TimeRep} : Prop := {
  law_zero : Time_zeroVal = 0;
  law_eps : 0 < Time_epsilon < Time_maxVal;
  law_min : Time_minVal < - Time_epsilon;
  law_neg_eps : Time_neg Time_epsilon = - Time_epsilon;
  law_add : ∀ a b, time_range (a + b) → a +t b = a + b;
  law_sub : ∀ a b, time_range (a - b) → a -t b = a - b;
  law_minus_one : Time_of_int (-1) < 0;
}.

(** The quotient-and-round computation of [TimeCoordinator::generateAllowedTime]
    goes through [double]; it is exact for a pair of times when it yields the
    integer number of periods that the rounding up of the exact quotient gives. *)
Definition exact_blocks `{TimeRep} (t period : Time) : Prop :=
  Time_scale (double_ceil (Time_div t period)) period =
    period * ((t + period - 1) / period).

(** A concrete time: nanosecond counts, quotients kept as fractions. *)
Definition nano_max : Z := 2 ^ 63 - 1.

#[export] Instance NanoTime : TimeRep := {|
  Time_maxVal := nano_max;
  Time_minVal := - nano_max;
  Time_epsilon := 1;
  Time_zeroVal := 0;
  Time_add := Z.add;
  Time_sub := Z.sub;
  Time_neg := Z.opp;
  Time_of_int n := n * 1000000000;
  double := Z * Z;
  Time_div a b := (a, b);
  double_ceil '(n, d) := ((n + d - 1) / d, 1);
  Time_scale '(n, d) t := t * n / d;
|}.

#[export] Instance NanoLaws : TimeLaws.
Proof. split; try reflexivity; simpl; unfold nano_max; lia. Qed.

Lemma nano_exact_blocks (t period : Z) : exact_blocks t period.
Proof. unfold exact_blocks. simpl. by rewrite Z.div_1_r. Qed.

(** ** Consequences of the laws *)

Section laws.
  Context `{TimeLaws}.

Lemma timeZero_eq : timeZero = 0.
Proof. apply law_zero. Qed.

Lemma timeEpsilon_pos : 0 < timeEpsilon.
Proof. apply law_eps. Qed.

Lemma negEpsilon_neg : negEpsilon < 0.
Proof. unfold negEpsilon. rewrite law_neg_eps. pose proof law_eps. lia. Qed.

Lemma maxVal_pos : 0 < Time_maxVal.
Proof. pose proof law_eps. lia. Qed.

Lemma minVal_neg : Time_minVal < 0.
Proof. pose proof law_eps. pose proof law_min. lia. Qed.

End laws.

#[export] Hint Resolve timeEpsilon_pos negEpsilon_neg maxVal_pos minVal_neg : helics.

(** Bring the numeric facts on the constants into the context, for [lia]. *)
Ltac time_facts :=
  pose proof timeZero_eq; pose proof timeEpsilon_pos; pose proof negEpsilon_neg;
  pose proof maxVal_pos; pose proof minVal_neg.

Ltac time_lia := time_facts; bool_facts; lia.
