(* ===== verification/Ids.v ===== *)
(** * Identifiers (src/src/helics/core/global_federate_id.hpp, federate_id.hpp)

    Federates, brokers, interfaces and routes are named by 32-bit integers wrapped
    in classes that only compare and classify them.  [base_type] values are kept in
    [Z]; the classification predicates and the packing of a [global_handle] into a
    64-bit map key are below. *)

From S2P Require Import Prelude.

(** [identififier_base_type] is [int32_t]. *)
Abbreviation global_federate_id := Z (only parsing).
Abbreviation interface_handle := Z (only parsing).
Abbreviation local_federate_id := Z (only parsing).
Abbreviation route_id := Z (only parsing).

Definition global_federate_id_shift : Z := 131072.
Definition global_broker_id_shift : Z := 1879048192.

Definition invalid_global_fed_id : global_federate_id := -2010000000.
Definition parent_broker_id : global_federate_id := 0.
Definition root_broker_id : global_federate_id := 1.
Definition direct_core_id : global_federate_id := -235262.
Definition invalid_fid : local_federate_id := -2000000000.
Definition local_core_id : local_federate_id := -259.
Definition invalid_handle : interface_handle := -1700000000.
Definition direct_send_handle : interface_handle := -1745234.
Definition invalid_route_id : route_id := -1295148000.
Definition parent_route_id : route_id := 0.
Definition control_route : route_id := -1.

(** [global_federate_id::isFederate], [isBroker] and [isValid]. *)
Definition isFederate (gid : global_federate_id) : bool :=
  (global_federate_id_shift <=? gid) && (gid <? global_broker_id_shift).
Definition isBroker (gid : global_federate_id) : bool :=
  global_broker_id_shift <=? gid.
Definition fed_isValid (gid : global_federate_id) : bool :=
  negb (gid =? invalid_global_fed_id).
Definition handle_isValid (hid : interface_handle) : bool :=
  negb (hid =? invalid_handle).

(** [localIndex] of the two id classes. *)
Definition fed_localIndex (gid : global_federate_id) : Z :=
  to_sint 32 (gid - global_federate_id_shift).
Definition broker_localIndex (gid : global_federate_id) : Z :=
  to_sint 32 (gid - global_broker_id_shift).

(** [class global_handle]. *)
Record global_handle := GlobalHandle {
  fed_id : global_federate_id;
  handle : interface_handle;
}.

Definition default_global_handle : global_handle :=
  GlobalHandle invalid_global_fed_id invalid_handle.

#[export] Instance eta_global_handle : Eta global_handle :=
  λ r, GlobalHandle (fed_id r) (handle r).

#[export] Instance global_handle_eq_dec : EqDecision global_handle.
Proof. solve_decision. Defined.

(** [explicit operator uint64_t()]: sign extension, shift, then the low word. *)
Definition handle_key (h : global_handle) : Z :=
  let key := to_uint 64 (Z.shiftl (to_uint 64 (fed_id h)) 32) in
  to_uint 64 (key + Z.land (to_uint 64 (handle h)) 4294967295).

(** [operator==] and [operator<]. *)
Definition handle_eqb (a b : global_handle) : bool :=
  (fed_id a =? fed_id b) && (handle a =? handle b).
Definition handle_ltb (a b : global_handle) : bool :=
  if fed_id a <? fed_id b then true
  else if negb (fed_id a =? fed_id b) then false
  else handle a <? handle b.
Definition global_handle_isValid (h : global_handle) : bool :=
  fed_isValid (fed_id h) && handle_isValid (handle h).

(** Both components in the range of the underlying [int32_t]. *)
Definition handle_range (h : global_handle) : Prop :=
  sint_range 32 (fed_id h) ∧ sint_range 32 (handle h).

(** ** Properties *)

Lemma handle_eqb_eq a b : handle_eqb a b = true ↔ a = b.
Proof.
  unfold handle_eqb. rewrite andb_true_iff, !Z.eqb_eq.
  destruct a as [fa ha], b as [fb hb]; simpl. split; [intros [-> ->]|intros [= -> ->]]; done.
Qed.

Lemma mod_64_32 z : (z mod 2 ^ 64) mod 2 ^ 32 = z mod 2 ^ 32.
Proof. apply Z.mod_mod_divide. by exists (2 ^ 32). Qed.

(** The packed key is the high word followed by the low word. *)
Lemma handle_key_words h :
  handle_key h = to_uint 32 (fed_id h) * 2 ^ 32 + to_uint 32 (handle h).
Proof.
  unfold handle_key, to_uint. change 4294967295 with (Z.ones 32).
  rewrite Z.land_ones, Z.shiftl_mul_pow2, mod_64_32 by lia.
  assert ((fed_id h mod 2 ^ 64 * 2 ^ 32) mod 2 ^ 64 = fed_id h mod 2 ^ 32 * 2 ^ 32) as ->.
  { change (2 ^ 64) with (2 ^ 32 * 2 ^ 32) at 2.
    by rewrite Z.mul_mod_distr_r, mod_64_32 by lia. }
  pose proof (Z.mod_pos_bound (fed_id h) (2 ^ 32)).
  pose proof (Z.mod_pos_bound (handle h) (2 ^ 32)).
  apply Z.mod_small. lia.
Qed.

Lemma to_uint_inj w a b :
  1 ≤ w → sint_range w a → sint_range w b → to_uint w a = to_uint w b → a = b.
Proof.
  intros Hw Ha Hb Heq. rewrite <-(to_sint_id w a), <-(to_sint_id w b) by done.
  by rewrite <-(to_sint_to_uint w a), <-(to_sint_to_uint w b), Heq by done.
Qed.

(** The 64-bit map key identifies a handle: two distinct handles never collide. *)
Lemma handle_key_inj a b :
  handle_range a → handle_range b → handle_key a = handle_key b → a = b.
Proof.
  intros [Hfa Hha] [Hfb Hhb]. rewrite !handle_key_words. intros Heq.
  pose proof (to_uint_range 32 (handle a) ltac:(lia)) as Ra.
  pose proof (to_uint_range 32 (handle b) ltac:(lia)) as Rb.
  unfold uint_range in *.
  assert (to_uint 32 (fed_id a) = to_uint 32 (fed_id b)) as Hf by lia.
  assert (to_uint 32 (handle a) = to_uint 32 (handle b)) as Hh by lia.
  apply to_uint_inj in Hf, Hh; [|done..]. destruct a, b; simpl in *; congruence.
Qed.

(** Federate ids and broker ids are disjoint, and neither contains the invalid id
    or the reserved ids of the parent and root broker. *)
Lemma isFederate_not_isBroker gid : isFederate gid = true → isBroker gid = false.
Proof. unfold isFederate, isBroker. intros. bool_facts. by apply Z.leb_gt. Qed.

#[export] Hint Resolve isFederate_not_isBroker : helics.
