(* ===== verification/Flags.v ===== *)
(** * Message flags (src/src/helics/core/flagOperations.hpp)

    Messages and handles carry a 16-bit [flags] member; the template functions
    [setActionFlag], [checkActionFlag] and [clearActionFlag] work on any object with
    such a member.  The class [FlagContainer] is that template parameter. *)

From S2P Require Import Prelude.

(** [enum operation_flags : uint16_t].  [extra_flag2] and [optional_flag] share
    the value 8. *)
Abbreviation iteration_requested_flag := (0)%Z (only parsing).
Abbreviation destination_target := (1)%Z (only parsing).
Abbreviation required_flag := (2)%Z (only parsing).
Abbreviation core_flag := (3)%Z (only parsing).
Abbreviation error_flag := (4)%Z (only parsing).
Abbreviation indicator_flag := (5)%Z (only parsing).
Abbreviation empty_flag := (6)%Z (only parsing).
Abbreviation extra_flag1 := (7)%Z (only parsing).
Abbreviation optional_flag := (8)%Z (only parsing).
Abbreviation clone_flag := (9)%Z (only parsing).
Abbreviation extra_flag2 := (8)%Z (only parsing).
Abbreviation destination_processing_flag := (11)%Z (only parsing).
Abbreviation disconnected_flag := (12)%Z (only parsing).
Abbreviation extra_flag3 := (13)%Z (only parsing).
Abbreviation extra_flag4 := (14)%Z (only parsing).
Abbreviation nameless_interface_flag := (15)%Z (only parsing).
Abbreviation slow_responding_flag := (14)%Z (only parsing).

(** The overload of [checkActionFlag] on a bare flag word, and [make_flags]. *)
Definition make_flags (flag : Z) : Z := to_uint 16 (Z.shiftl 1 flag).
Definition checkFlag (flags flag : Z) : bool :=
  negb (Z.land flags (make_flags flag) =? 0).

(** An object with a [flags] member. *)
Class FlagContainer (M : Type) := {
  flags_of : M → Z;
  with_flags : M → Z → M;
}.

Class FlagContainerLaws (M : Type) `{FlagContainer M} : Prop := {
  flags_of_with : ∀ m f, flags_of (with_flags m f) = f;
}.

Definition setActionFlag `{FlagContainer M} (m : M) (flag : Z) : M :=
  with_flags m (Z.lor (flags_of m) (to_uint 16 (Z.shiftl 1 flag))).
Definition checkActionFlag `{FlagContainer M} (m : M) (flag : Z) : bool :=
  checkFlag (flags_of m) flag.
Definition clearActionFlag `{FlagContainer M} (m : M) (flag : Z) : M :=
  with_flags m (Z.land (flags_of m) (to_uint 16 (to_uint 32 (Z.lnot (Z.shiftl 1 flag))))).

(** ** Properties *)

Definition flag_index (flag : Z) : Prop := 0 ≤ flag < 16.

Lemma make_flags_pow flag : flag_index flag → make_flags flag = 2 ^ flag.
Proof.
  intros [H0 H1]. unfold make_flags. rewrite Z.shiftl_1_l. apply to_uint_id. split.
  - apply Z.pow_nonneg; lia.
  - apply Z.pow_lt_mono_r; lia.
Qed.

Lemma checkFlag_testbit flags flag :
  flag_index flag → checkFlag flags flag = Z.testbit flags flag.
Proof.
  intros Hf. unfold checkFlag. rewrite make_flags_pow by done. destruct Hf as [H0 H1].
  destruct (Z.testbit flags flag) eqn:E.
  - apply negb_true_iff, Z.eqb_neq. intros Hz.
    assert (Z.testbit (Z.land flags (2 ^ flag)) flag = false) as Hc
      by (rewrite Hz; apply Z.testbit_0_l).
    rewrite Z.land_spec, E, Z.pow2_bits_true in Hc by lia. done.
  - apply negb_false_iff, Z.eqb_eq, Z.bits_inj'. intros n Hn.
    rewrite Z.land_spec, Z.pow2_bits_eqb, Z.testbit_0_l by lia.
    destruct (Z.eqb_spec flag n) as [<-|]; [by rewrite E|]. by rewrite andb_false_r.
Qed.

Lemma clear_mask_testbit flag n :
  flag_index flag → flag_index n →
  Z.testbit (to_uint 16 (to_uint 32 (Z.lnot (Z.shiftl 1 flag)))) n = negb (flag =? n).
Proof.
  intros [Hf Hf'] [Hn Hn']. unfold to_uint.
  rewrite Z.mod_pow2_bits_low, Z.mod_pow2_bits_low by lia.
  rewrite Z.lnot_spec, Z.shiftl_1_l, Z.pow2_bits_eqb by lia. done.
Qed.

Section container.
  Context `{FlagContainerLaws M}.

Lemma check_set_flag (m : M) flag flag' :
  flag_index flag → flag_index flag' →
  checkActionFlag (setActionFlag m flag) flag' =
    (flag =? flag') || checkActionFlag m flag'.
Proof.
  intros Hf Hf'. unfold checkActionFlag, setActionFlag.
  rewrite flags_of_with, !checkFlag_testbit, Z.lor_spec by done.
  change (to_uint 16 (Z.shiftl 1 flag)) with (make_flags flag).
  rewrite make_flags_pow, Z.pow2_bits_eqb by (done || apply Hf). apply orb_comm.
Qed.

Lemma check_clear_flag (m : M) flag flag' :
  flag_index flag → flag_index flag' →
  checkActionFlag (clearActionFlag m flag) flag' =
    negb (flag =? flag') && checkActionFlag m flag'.
Proof.
  intros Hf Hf'. unfold checkActionFlag, clearActionFlag.
  rewrite flags_of_with, !checkFlag_testbit, Z.land_spec by done.
  rewrite clear_mask_testbit by done. apply andb_comm.
Qed.

Lemma set_flag_range (m : M) flag :
  uint_range 16 (flags_of m) → uint_range 16 (flags_of (setActionFlag m flag)).
Proof.
  intros Hr. unfold setActionFlag. rewrite flags_of_with.
  apply uint_range_lor; auto using to_uint_range with lia.
Qed.

Lemma clear_flag_range (m : M) flag :
  uint_range 16 (flags_of m) → uint_range 16 (flags_of (clearActionFlag m flag)).
Proof.
  intros Hr. unfold clearActionFlag. rewrite flags_of_with.
  by apply uint_range_land_l.
Qed.

End container.

#[export] Hint Resolve set_flag_range clear_flag_range : helics.
