(* ===== verification/ActionMessage.v ===== *)
(** * Action messages (src/src/helics/core/ActionMessage.hpp, ActionMessage.cpp,
      ActionMessageDefintions.hpp)

    An [ActionMessage] is the one structure that federates, cores and brokers
    exchange.  This file has the command codes, the record, its constructors and
    string accessors, the classification predicates, the packing of several messages
    into one ([appendMessage]) and the conversion to a user [Message].  The byte
    format is in MessageCodec.v. *)

From S2P Require Import Prelude HelicsTime Ids Flags.

(** [enum class action_t : int32_t], followed by the values with no enumerator, which
    a message read from the network can carry. *)
Inductive action_t :=
  | cmd_priority_disconnect
  | cmd_fed_ack
  | cmd_broker_ack
  | cmd_add_route
  | cmd_route_ack
  | cmd_register_route
  | cmd_reg_fed
  | cmd_priority_ack
  | cmd_query
  | cmd_set_global
  | cmd_broker_query
  | cmd_query_reply
  | cmd_reg_broker
  | cmd_broker_location
  | cmd_broker_setup
  | cmd_ignore
  | cmd_tick
  | cmd_user_disconnect
  | cmd_disconnect
  | cmd_disconnect_name
  | cmd_disconnect_check
  | cmd_disconnect_fed
  | cmd_broadcast_disconnect
  | cmd_disconnect_core
  | cmd_disconnect_broker
  | cmd_disconnect_fed_ack
  | cmd_disconnect_core_ack
  | cmd_disconnect_broker_ack
  | cmd_check_connections
  | cmd_ping
  | cmd_ping_priority
  | cmd_ping_reply
  | cmd_broker_ping
  | cmd_init
  | cmd_init_grant
  | cmd_init_not_ready
  | cmd_exec_request
  | cmd_exec_grant
  | cmd_exec_check
  | cmd_ack
  | cmd_stop
  | cmd_terminate_immediately
  | cmd_time_grant
  | cmd_time_check
  | cmd_request_current_time
  | cmd_time_block
  | cmd_time_unblock
  | cmd_time_barrier_request
  | cmd_time_barrier
  | cmd_time_barrier_clear
  | cmd_pub
  | cmd_bye
  | cmd_log
  | cmd_warning
  | cmd_error
  | cmd_local_error
  | cmd_global_error
  | cmd_error_check
  | cmd_invalid
  | cmd_send_route
  | cmd_search_dependency
  | cmd_add_dependency
  | cmd_remove_dependency
  | cmd_add_dependent
  | cmd_remove_dependent
  | cmd_add_interdependency
  | cmd_remove_interdependency
  | cmd_data_link
  | cmd_filter_link
  | cmd_fed_configure_time
  | cmd_fed_configure_int
  | cmd_fed_configure_flag
  | cmd_core_configure
  | cmd_interface_configure
  | cmd_broker_configure
  | cmd_update_filter_op
  | null_info_command
  | priority_null_info_command
  | cmd_time_request
  | cmd_force_time_grant
  | cmd_send_message
  | cmd_null_message
  | cmd_null_dest_message
  | cmd_send_for_filter
  | cmd_send_for_dest_filter_return
  | cmd_send_for_filter_return
  | cmd_filter_result
  | cmd_dest_filter_result
  | cmd_reg_pub
  | cmd_add_publisher
  | cmd_reg_filter
  | cmd_add_filter
  | cmd_reg_input
  | cmd_add_subscriber
  | cmd_reg_end
  | cmd_add_endpoint
  | cmd_add_named_input
  | cmd_add_named_filter
  | cmd_add_named_publication
  | cmd_add_named_endpoint
  | cmd_remove_named_input
  | cmd_remove_named_filter
  | cmd_remove_named_publication
  | cmd_remove_named_endpoint
  | cmd_remove_subscriber
  | cmd_remove_filter
  | cmd_remove_publication
  | cmd_remove_endpoint
  | cmd_close_interface
  | cmd_multi_message
  | cmd_connection_error
  | cmd_protocol_priority
  | cmd_protocol
  | cmd_protocol_big
  | cmd_resend
  | unnamed_action (code : Z).

(** The macro [CMD_BROKER_PING] does not name the enumerator of the ping. *)
Abbreviation CMD_BROKER_PING := cmd_broker_setup (only parsing).

(** The value of each enumerator. *)
Definition action_code (a : action_t) : Z :=
  match a with
  | cmd_priority_disconnect => -3
  | cmd_fed_ack => -25
  | cmd_broker_ack => -27
  | cmd_add_route => -32
  | cmd_route_ack => -16
  | cmd_register_route => -15
  | cmd_reg_fed => -105
  | cmd_priority_ack => -254
  | cmd_query => -268435493
  | cmd_set_global => -268435511
  | cmd_broker_query => -37
  | cmd_query_reply => -268435494
  | cmd_reg_broker => -268435496
  | cmd_broker_location => 268435399
  | cmd_broker_setup => -1
  | cmd_ignore => 0
  | cmd_tick => 1
  | cmd_user_disconnect => 2
  | cmd_disconnect => 3
  | cmd_disconnect_name => 4
  | cmd_disconnect_check => 5
  | cmd_disconnect_fed => 6
  | cmd_broadcast_disconnect => 7
  | cmd_disconnect_core => 8
  | cmd_disconnect_broker => 9
  | cmd_disconnect_fed_ack => 1006
  | cmd_disconnect_core_ack => 1008
  | cmd_disconnect_broker_ack => 1009
  | cmd_check_connections => 297
  | cmd_ping => 298
  | cmd_ping_priority => -298
  | cmd_ping_reply => 299
  | cmd_broker_ping => 306
  | cmd_init => 10
  | cmd_init_grant => 11
  | cmd_init_not_ready => 12
  | cmd_exec_request => 20
  | cmd_exec_grant => 22
  | cmd_exec_check => 24
  | cmd_ack => 254
  | cmd_stop => 30
  | cmd_terminate_immediately => 31
  | cmd_time_grant => 35
  | cmd_time_check => 36
  | cmd_request_current_time => 38
  | cmd_time_block => 40
  | cmd_time_unblock => 41
  | cmd_time_barrier_request => 42
  | cmd_time_barrier => 43
  | cmd_time_barrier_clear => 44
  | cmd_pub => 52
  | cmd_bye => 2000
  | cmd_log => 55
  | cmd_warning => 9990
  | cmd_error => 10000
  | cmd_local_error => 10003
  | cmd_global_error => 10005
  | cmd_error_check => 10001
  | cmd_invalid => 1010101
  | cmd_send_route => 75
  | cmd_search_dependency => 1464
  | cmd_add_dependency => 140
  | cmd_remove_dependency => 141
  | cmd_add_dependent => 144
  | cmd_remove_dependent => 145
  | cmd_add_interdependency => 148
  | cmd_remove_interdependency => 149
  | cmd_data_link => 268436163
  | cmd_filter_link => 268436165
  | cmd_fed_configure_time => 202
  | cmd_fed_configure_int => 203
  | cmd_fed_configure_flag => 204
  | cmd_core_configure => 207
  | cmd_interface_configure => 209
  | cmd_broker_configure => 211
  | cmd_update_filter_op => 10427
  | null_info_command => 268435455
  | priority_null_info_command => -268435457
  | cmd_time_request => 500
  | cmd_force_time_grant => 525
  | cmd_send_message => 268435476
  | cmd_null_message => 726
  | cmd_null_dest_message => 730
  | cmd_send_for_filter => 268435486
  | cmd_send_for_dest_filter_return => 268435487
  | cmd_send_for_filter_return => 268435491
  | cmd_filter_result => 268435496
  | cmd_dest_filter_result => 268435497
  | cmd_reg_pub => 268435506
  | cmd_add_publisher => 50
  | cmd_reg_filter => 268435516
  | cmd_add_filter => 62
  | cmd_reg_input => 268435526
  | cmd_add_subscriber => 70
  | cmd_reg_end => 268435546
  | cmd_add_endpoint => 90
  | cmd_add_named_input => 104
  | cmd_add_named_filter => 105
  | cmd_add_named_publication => 106
  | cmd_add_named_endpoint => 107
  | cmd_remove_named_input => 124
  | cmd_remove_named_filter => 125
  | cmd_remove_named_publication => 126
  | cmd_remove_named_endpoint => 127
  | cmd_remove_subscriber => 134
  | cmd_remove_filter => 135
  | cmd_remove_publication => 136
  | cmd_remove_endpoint => 137
  | cmd_close_interface => 133
  | cmd_multi_message => 1037
  | cmd_connection_error => 2034
  | cmd_protocol_priority => -60000
  | cmd_protocol => 60000
  | cmd_protocol_big => 268495456
  | cmd_resend => 121212
  | unnamed_action c => c
  end.

Definition named_actions : list action_t :=
  [cmd_priority_disconnect; cmd_fed_ack; cmd_broker_ack;
   cmd_add_route; cmd_route_ack; cmd_register_route;
   cmd_reg_fed; cmd_priority_ack; cmd_query;
   cmd_set_global; cmd_broker_query; cmd_query_reply;
   cmd_reg_broker; cmd_broker_location; cmd_broker_setup;
   cmd_ignore; cmd_tick; cmd_user_disconnect;
   cmd_disconnect; cmd_disconnect_name; cmd_disconnect_check;
   cmd_disconnect_fed; cmd_broadcast_disconnect; cmd_disconnect_core;
   cmd_disconnect_broker; cmd_disconnect_fed_ack; cmd_disconnect_core_ack;
   cmd_disconnect_broker_ack; cmd_check_connections; cmd_ping;
   cmd_ping_priority; cmd_ping_reply; cmd_broker_ping;
   cmd_init; cmd_init_grant; cmd_init_not_ready;
   cmd_exec_request; cmd_exec_grant; cmd_exec_check;
   cmd_ack; cmd_stop; cmd_terminate_immediately;
   cmd_time_grant; cmd_time_check; cmd_request_current_time;
   cmd_time_block; cmd_time_unblock; cmd_time_barrier_request;
   cmd_time_barrier; cmd_time_barrier_clear; cmd_pub;
   cmd_bye; cmd_log; cmd_warning;
   cmd_error; cmd_local_error; cmd_global_error;
   cmd_error_check; cmd_invalid; cmd_send_route;
   cmd_search_dependency; cmd_add_dependency; cmd_remove_dependency;
   cmd_add_dependent; cmd_remove_dependent; cmd_add_interdependency;
   cmd_remove_interdependency; cmd_data_link; cmd_filter_link;
   cmd_fed_configure_time; cmd_fed_configure_int; cmd_fed_configure_flag;
   cmd_core_configure; cmd_interface_configure; cmd_broker_configure;
   cmd_update_filter_op; null_info_command; priority_null_info_command;
   cmd_time_request; cmd_force_time_grant; cmd_send_message;
   cmd_null_message; cmd_null_dest_message; cmd_send_for_filter;
   cmd_send_for_dest_filter_return; cmd_send_for_filter_return; cmd_filter_result;
   cmd_dest_filter_result; cmd_reg_pub; cmd_add_publisher;
   cmd_reg_filter; cmd_add_filter; cmd_reg_input;
   cmd_add_subscriber; cmd_reg_end; cmd_add_endpoint;
   cmd_add_named_input; cmd_add_named_filter; cmd_add_named_publication;
   cmd_add_named_endpoint; cmd_remove_named_input; cmd_remove_named_filter;
   cmd_remove_named_publication; cmd_remove_named_endpoint; cmd_remove_subscriber;
   cmd_remove_filter; cmd_remove_publication; cmd_remove_endpoint;
   cmd_close_interface; cmd_multi_message; cmd_connection_error;
   cmd_protocol_priority; cmd_protocol; cmd_protocol_big;
   cmd_resend].

(** The enumerator of a value ([static_cast<action_t>(code)]). *)
Definition action_of_code (c : Z) : action_t :=
  match list_find (λ a, action_code a = c) named_actions with
  | Some (_, a) => a
  | None => unnamed_action c
  end.

(** An action value is written in the one way [action_of_code] writes it. *)
Definition action_wf (a : action_t) : Prop := action_of_code (action_code a) = a.

Definition action_inj (a : action_t) : Z + Z :=
  match a with unnamed_action c => inr c | _ => inl (action_code a) end.

Definition action_unj (s : Z + Z) : action_t :=
  match s with inl c => action_of_code c | inr c => unnamed_action c end.

#[export] Instance action_cancel : Cancel (=) action_unj action_inj.
Proof. by intros []; vm_compute. Qed.

#[export] Instance action_eq_dec : EqDecision action_t.
Proof.
  refine (λ a b, cast_if (decide (action_inj a = action_inj b))); [|congruence].
  by rewrite <-(cancel action_unj action_inj a), e, cancel by apply _.
Defined.

(** [enum class iteration_request] of core-types.hpp. *)
Inductive iteration_request := no_iterations | force_iteration | iterate_if_needed.

#[export] Instance iteration_request_eq_dec : EqDecision iteration_request.
Proof. solve_decision. Defined.

(** [class ActionMessage]; the reference member [name] is an alias of [payload]. *)
Record ActionMessage := mkActionMessage {
  messageAction : action_t;
  messageID : Z;
  source_id : global_federate_id;
  source_handle : interface_handle;
  dest_id : global_federate_id;
  dest_handle : interface_handle;
  counter : Z;
  flags : Z;
  sequenceID : Z;
  actionTime : Time;
  payload : string;
  Te : Time;
  Tdemin : Time;
  Tso : Time;
  stringData : list string;
}.

#[export] Instance eta_ActionMessage : Eta ActionMessage := λ m,
  mkActionMessage (messageAction m) (messageID m) (source_id m) (source_handle m)
    (dest_id m) (dest_handle m) (counter m) (flags m) (sequenceID m) (actionTime m)
    (payload m) (Te m) (Tdemin m) (Tso m) (stringData m).

#[export] Instance ActionMessage_flags : FlagContainer ActionMessage :=
  {| flags_of := flags; with_flags m f := m <| flags := f |> |}.
#[export] Instance ActionMessage_flags_laws : FlagContainerLaws ActionMessage.
Proof. by split. Qed.

(** [class Message] of core-data.hpp (the members HELICS does not use left out). *)
Record Message := mkMessage {
  msg_time : Time;
  msg_flags : Z;
  msg_messageID : Z;
  msg_data : string;
  msg_dest : string;
  msg_source : string;
  msg_original_source : string;
  msg_original_dest : string;
}.

#[export] Instance eta_Message : Eta Message := λ m,
  mkMessage (msg_time m) (msg_flags m) (msg_messageID m) (msg_data m) (msg_dest m)
    (msg_source m) (msg_original_source m) (msg_original_dest m).

(** [Message::isValid]. *)
Definition Message_isValid (m : Message) : bool :=
  if negb (String.eqb (msg_data m) "") then true
  else if negb (String.eqb (msg_source m) "") then true
  else negb (String.eqb (msg_dest m) "").

(** The string slots named in ActionMessage.hpp. *)
Abbreviation targetStringLoc := (0)%Z (only parsing).
Abbreviation unitStringLoc := (1)%Z (only parsing).
Abbreviation typeStringLoc := (0)%Z (only parsing).
Abbreviation typeOutStringLoc := (1)%Z (only parsing).
Abbreviation sourceStringLoc := (1)%Z (only parsing).
Abbreviation origSourceStringLoc := (2)%Z (only parsing).
Abbreviation origDestStringLoc := (3)%Z (only parsing).

Section operations.
  Context `{TimeRep}.

(** The default constructor (member initialisers) and the two constructors from an
    action. *)
Definition defaultMessage : ActionMessage := {|
  messageAction := cmd_ignore; messageID := 0;
  source_id := parent_broker_id; source_handle := invalid_handle;
  dest_id := parent_broker_id; dest_handle := invalid_handle;
  counter := 0; flags := 0; sequenceID := 0; actionTime := timeZero;
  payload := ""; Te := timeZero; Tdemin := timeZero; Tso := timeZero;
  stringData := [] |}.

Definition newMessage (startingAction : action_t) : ActionMessage :=
  defaultMessage <| messageAction := startingAction |>.

Definition newMessageTo (startingAction : action_t)
    (sourceId destId : global_federate_id) : ActionMessage :=
  defaultMessage <| messageAction := startingAction |> <| source_id := sourceId |>
                 <| dest_id := destId |>.

(** The copy and move constructors: [sequenceID] is not in their initialiser
    lists. *)
Definition copyConstruct (act : ActionMessage) : ActionMessage :=
  {| messageAction := messageAction act; messageID := messageID act;
     source_id := source_id act; source_handle := source_handle act;
     dest_id := dest_id act; dest_handle := dest_handle act;
     counter := counter act; flags := flags act; sequenceID := 0;
     actionTime := actionTime act; payload := payload act; Te := Te act;
     Tdemin := Tdemin act; Tso := Tso act; stringData := stringData act |}.

(** The copy assignment: the target keeps its own [sequenceID]. *)
Definition copyAssign (this act : ActionMessage) : ActionMessage :=
  {| messageAction := messageAction act; messageID := messageID act;
     source_id := source_id act; source_handle := source_handle act;
     dest_id := dest_id act; dest_handle := dest_handle act;
     counter := counter act; flags := flags act; sequenceID := sequenceID this;
     actionTime := actionTime act; payload := payload act; Te := Te act;
     Tdemin := Tdemin act; Tso := Tso act; stringData := stringData act |}.

(** The constructor and the assignment from a user [Message]. *)
Definition messageCommand (message : Message) : ActionMessage :=
  defaultMessage <| messageAction := cmd_send_message |>
    <| messageID := msg_messageID message |> <| actionTime := msg_time message |>
    <| payload := msg_data message |>
    <| stringData := [msg_dest message; msg_source message;
                      msg_original_source message; msg_original_dest message] |>.

Definition assignMessage (this : ActionMessage) (message : Message) : ActionMessage :=
  this <| messageAction := cmd_send_message |>
    <| messageID := msg_messageID message |> <| payload := msg_data message |>
    <| actionTime := msg_time message |>
    <| stringData := [msg_dest message; msg_source message;
                      msg_original_source message; msg_original_dest message] |>.

(** [createMessageFromCommand] (the copying overload). *)
Definition createMessageFromCommand (cmd : ActionMessage) : Message :=
  let msg := {| msg_time := timeZero; msg_flags := 0; msg_messageID := 0;
                msg_data := ""; msg_dest := ""; msg_source := "";
                msg_original_source := ""; msg_original_dest := "" |} in
  let msg :=
    match stringData cmd with
    | [] => msg
    | [d] => msg <| msg_dest := d |>
    | [d; s] => msg <| msg_dest := d |> <| msg_source := s |>
    | [d; s; os] =>
        msg <| msg_dest := d |> <| msg_source := s |> <| msg_original_source := os |>
    | d :: s :: os :: od :: _ =>
        msg <| msg_dest := d |> <| msg_source := s |> <| msg_original_source := os |>
            <| msg_original_dest := od |>
    end in
  msg <| msg_data := payload cmd |> <| msg_time := actionTime cmd |>
      <| msg_messageID := messageID cmd |>.

End operations.

Definition action (m : ActionMessage) : action_t := messageAction m.
Definition setAction (m : ActionMessage) (newAction : action_t) : ActionMessage :=
  m <| messageAction := newAction |>.

Definition setSource (m : ActionMessage) (hand : global_handle) : ActionMessage :=
  m <| source_id := fed_id hand |> <| source_handle := handle hand |>.
Definition setDestination (m : ActionMessage) (hand : global_handle) : ActionMessage :=
  m <| dest_id := fed_id hand |> <| dest_handle := handle hand |>.
Definition getSource (m : ActionMessage) : global_handle :=
  GlobalHandle (source_id m) (source_handle m).
Definition getDest (m : ActionMessage) : global_handle :=
  GlobalHandle (dest_id m) (dest_handle m).
Definition swapSourceDest (m : ActionMessage) : ActionMessage :=
  m <| source_id := dest_id m |> <| dest_id := source_id m |>
    <| source_handle := dest_handle m |> <| dest_handle := source_handle m |>.
Definition setExtraData (m : ActionMessage) (data : Z) : ActionMessage :=
  m <| dest_handle := data |>.
Definition getExtraData (m : ActionMessage) : Z := dest_handle m.
Definition setExtraDestData (m : ActionMessage) (data : Z) : ActionMessage :=
  m <| source_handle := data |>.
Definition getExtraDestData (m : ActionMessage) : Z := source_handle m.

Definition clearStringData (m : ActionMessage) : ActionMessage :=
  m <| stringData := [] |>.
(** The four overloads of [setStringData] (one to four strings). *)
Definition setStringData (m : ActionMessage) (strs : list string) : ActionMessage :=
  m <| stringData := strs |>.
Definition getString (m : ActionMessage) (index : Z) : string :=
  if isValidIndex index (stringData m)
  then default "" (stringData m !! Z.to_nat index) else "".

(** [std::vector<std::string>::resize]. *)
Definition resize_strings (n : nat) (l : list string) : list string :=
  take n l ++ replicate (n - length l) "".

Definition setString (m : ActionMessage) (index : Z) (str : string)
    : outcome ActionMessage :=
  if (256 <=? index) || (index <? 0)
  then Throw "index out of specified range (0-255)"
  else
    let sd := if Z.of_nat (length (stringData m)) <=? index
              then resize_strings (S (Z.to_nat index)) (stringData m)
              else stringData m in
    Ok (m <| stringData := <[Z.to_nat index := str]> sd |>).

(** The classification predicates of ActionMessage.hpp. *)
Definition isProtocolCommand (command : ActionMessage) : bool :=
  match action command with
  | cmd_protocol | cmd_protocol_priority | cmd_protocol_big => true
  | _ => false
  end.
Definition isPriorityCommand (command : ActionMessage) : bool :=
  action_code (action command) <? action_code cmd_ignore.
Definition isTimingCommand (command : ActionMessage) : bool :=
  match action command with
  | cmd_disconnect | cmd_broadcast_disconnect | cmd_disconnect_core
  | cmd_disconnect_broker | cmd_disconnect_fed | cmd_time_grant | cmd_time_request
  | cmd_exec_grant | cmd_exec_request | cmd_priority_disconnect
  | cmd_terminate_immediately | cmd_error | cmd_local_error | cmd_global_error => true
  | _ => false
  end.
Definition isDependencyCommand (command : ActionMessage) : bool :=
  match action command with
  | cmd_add_dependency | cmd_remove_dependency | cmd_add_dependent
  | cmd_remove_dependent | cmd_add_interdependency | cmd_remove_interdependency => true
  | _ => false
  end.
Definition isDisconnectCommand `{TimeRep} (command : ActionMessage) : bool :=
  match action command with
  | cmd_disconnect | cmd_disconnect_check | cmd_disconnect_name | cmd_user_disconnect
  | cmd_disconnect_fed | cmd_disconnect_core | cmd_priority_disconnect
  | cmd_terminate_immediately | cmd_remove_filter | cmd_remove_endpoint
  | cmd_disconnect_fed_ack | cmd_disconnect_core_ack | cmd_disconnect_broker_ack
  | cmd_disconnect_broker | cmd_broadcast_disconnect | cmd_stop => true
  | cmd_time_grant => actionTime command =? Time_maxVal
  | _ => false
  end.
Definition isErrorCommand (command : ActionMessage) : bool :=
  match action command with
  | cmd_error | cmd_local_error | cmd_global_error => true
  | _ => false
  end.
Definition isValidCommand (command : ActionMessage) : bool :=
  match action command with cmd_invalid => false | _ => true end.

(** [setIterationFlags]. *)
Definition setIterationFlags (command : ActionMessage) (iterate : iteration_request)
    : ActionMessage :=
  match iterate with
  | force_iteration =>
      setActionFlag (setActionFlag command iteration_requested_flag) required_flag
  | iterate_if_needed => setActionFlag command iteration_requested_flag
  | no_iterations => command
  end.

(** The table of command names and [actionMessageType]. *)
Definition actionStrings : list (action_t * string) :=
  [(cmd_priority_disconnect, "priority_disconnect");
   (cmd_disconnect, "disconnect");
   (cmd_disconnect_name, "disconnect by name");
   (cmd_user_disconnect, "disconnect from user");
   (cmd_broadcast_disconnect, "broadcast disconnect");
   (cmd_fed_ack, "fed_ack");
   (cmd_broker_ack, "broker_ack");
   (cmd_add_route, "add_route");
   (cmd_route_ack, "route_ack");
   (cmd_register_route, "register_route");
   (cmd_reg_fed, "reg_fed");
   (cmd_priority_ack, "priority_ack");
   (cmd_query, "query");
   (cmd_query_reply, "query_reply");
   (cmd_reg_broker, "reg_broker");
   (cmd_ignore, "ignore");
   (cmd_tick, "tick");
   (cmd_ping, "ping");
   (cmd_ping_reply, "ping reply");
   (cmd_fed_configure_time, "fed_configure_time");
   (cmd_fed_configure_int, "fed_configure_int");
   (cmd_fed_configure_flag, "fed_configure_flag");
   (cmd_init, "init");
   (cmd_init_grant, "init_grant");
   (cmd_init_not_ready, "init_not_ready");
   (cmd_exec_request, "exec_request");
   (cmd_exec_grant, "exec_grant");
   (cmd_exec_check, "exec_check");
   (cmd_disconnect_broker_ack, "disconnect broker acknowledge");
   (cmd_disconnect_core_ack, "disconnect core acknowledge");
   (cmd_disconnect_fed_ack, "disconnect fed acknowledge");
   (cmd_ack, "ack");
   (cmd_stop, "stop");
   (cmd_terminate_immediately, "terminate_immediately");
   (cmd_time_grant, "time_grant");
   (cmd_time_check, "time_check");
   (cmd_time_block, "time_block");
   (cmd_time_unblock, "time_unblock");
   (cmd_pub, "pub");
   (cmd_bye, "bye");
   (cmd_log, "log");
   (cmd_warning, "warning");
   (cmd_error, "error");
   (cmd_send_route, "send_route");
   (cmd_add_dependency, "add_dependency");
   (cmd_remove_dependency, "remove_dependency");
   (cmd_add_dependent, "add_dependent");
   (cmd_remove_dependent, "remove_dependent");
   (cmd_add_interdependency, "add_interdependency");
   (cmd_remove_interdependency, "remove_interdependency");
   (null_info_command, "null_info");
   (priority_null_info_command, "priority_null_info");
   (cmd_time_request, "time_request");
   (cmd_send_message, "send_message");
   (cmd_send_for_filter, "send_for_filter");
   (cmd_filter_result, "result from running a filter");
   (cmd_send_for_filter_return, "send_for_filter_return");
   (cmd_null_message, "null message");
   (cmd_reg_pub, "reg_pub");
   (cmd_add_publisher, "add publisher");
   (cmd_remove_publication, "remove publisher");
   (cmd_reg_filter, "reg_filter");
   (cmd_add_filter, "add_filter");
   (cmd_remove_filter, "remove filter");
   (cmd_filter_link, "link filter");
   (cmd_data_link, "data link");
   (cmd_reg_input, "reg_input");
   (cmd_add_subscriber, "add_subscriber");
   (cmd_remove_subscriber, "remove subscriber");
   (cmd_reg_end, "reg_end");
   (cmd_resend, "reg_resend");
   (cmd_add_endpoint, "add_endpoint");
   (cmd_remove_endpoint, "remove endpoint");
   (cmd_add_named_endpoint, "add_named_endpoint");
   (cmd_add_named_input, "add_named_input");
   (cmd_add_named_publication, "add_named_publication");
   (cmd_add_named_filter, "add_named_filter");
   (cmd_remove_named_endpoint, "remove_named_endpoint");
   (cmd_disconnect_fed, "disconnect_fed");
   (cmd_disconnect_broker, "disconnect_broker");
   (cmd_disconnect_core, "disconnect_core");
   (cmd_remove_named_input, "remove_named_input");
   (cmd_remove_named_publication, "remove_named_publication");
   (cmd_remove_named_filter, "remove_named_filter");
   (cmd_close_interface, "close_interface");
   (cmd_multi_message, "multi message");
   (cmd_broker_configure, "broker_configure");
   (cmd_time_barrier_request, "request time barrier");
   (cmd_time_barrier, "time barrier");
   (cmd_time_barrier_clear, "clear time barrier");
   (cmd_protocol_priority, "protocol_priority");
   (cmd_protocol, "protocol");
   (cmd_protocol_big, "protocol_big")].

Definition unknownStr : string := "unknown".
Definition actionMessageType (a : action_t) : string :=
  match list_find (λ p : action_t * string, p.1 = a) actionStrings with
  | Some (_, (_, s)) => s
  | None => unknownStr
  end.

(** The error codes, their strings and [errorMessageString]. *)
Definition errorStrings : list (Z * string) :=
  [(-2, "connection error"); (-5, "lost connection with server");
   (5, "already in initialization mode"); (6, "duplicate federate name detected");
   (7, "duplicate broker name detected"); (9, "Broker key does not match")].
Definition commandErrorString (errorcode : Z) : string :=
  match list_find (λ p : Z * string, p.1 = errorcode) errorStrings with
  | Some (_, (_, s)) => s
  | None => unknownStr
  end.
Definition errorMessageString (command : ActionMessage) : string :=
  if checkActionFlag command error_flag then
    let estring := getString command 0 in
    if String.eqb estring "" then commandErrorString (messageID command) else estring
  else "".
