(* ===== verification/MessageCodec.v ===== *)
(** * The byte format of messages (src/src/helics/core/ActionMessage.cpp)

    [toByteArray], [fromByteArray], [packetize] and [depacketize], on buffers of
    bytes.  A byte is an integer in [0, 256); a pointer into a buffer is the list of
    bytes that follow it, so a read past the end of the object is a [Fault].  [le] is
    the result of [isLittleEndian()] on the host that runs the function: integers are
    stored in the order of the host and the first byte of a message records it. *)

From S2P Require Import Prelude HelicsTime Ids Flags ActionMessage.

(** ** Bytes *)

Fixpoint bytes_of_string (s : string) : list Z :=
  match s with
  | "" => []
  | String a s => Z.of_N (Ascii.N_of_ascii a) :: bytes_of_string s
  end%string.

Fixpoint string_of_bytes (bs : list Z) : string :=
  match bs with
  | [] => ""
  | b :: bs => String (Ascii.ascii_of_N (Z.to_N b)) (string_of_bytes bs)
  end.

Definition byte (b : Z) : Prop := 0 ≤ b < 256.

Section host.
  (** [isLittleEndian()] *)
  Context (le : bool).

(** The [n] bytes of an integer in memory, and the integer (read as unsigned or
    signed) that [n] bytes hold. *)
Definition store (n z : Z) : list Z :=
  let bs := Z_to_little_endian n 8 z in if le then bs else rev bs.
Definition load_unsigned (bs : list Z) : Z :=
  little_endian_to_Z 8 (if le then bs else rev bs).
Definition load_signed (bs : list Z) : Z :=
  to_sint (8 * Z.of_nat (length bs)) (load_unsigned bs).

(** [swap_bytes<n>] on the object representation of a signed or unsigned integer. *)
Definition swap_signed (n z : Z) : Z := load_signed (rev (store n z)).
Definition swap_unsigned (n z : Z) : Z := load_unsigned (rev (store n z)).

End host.

(** [memcpy(&x, data, n); data += n] *)
Definition mem_read (n : Z) (data : list Z) : outcome (list Z * list Z) :=
  if Z.of_nat (length data) <? n then Fault
  else Ok (take (Z.to_nat n) data, drop (Z.to_nat n) data).

(** [memcpy(mem + pos, bs, size)]. *)
Definition mem_write (mem : list Z) (pos : Z) (bs : list Z) : outcome (list Z) :=
  if Z.of_nat (length mem) <? pos + Z.of_nat (length bs) then Fault
  else Ok (take (Z.to_nat pos) mem ++ bs ++ drop (Z.to_nat pos + length bs) mem).

Definition action_message_base_size : Z := 7 * 4 + 2 * 2 + 8 + 4 + 1.

Abbreviation LEADING_CHAR := (243)%Z (only parsing).
Abbreviation TAIL_CHAR1 := (250)%Z (only parsing).
Abbreviation TAIL_CHAR2 := (252)%Z (only parsing).

Definition string_size (s : string) : Z := Z.of_nat (String.length s).

Definition is_time_request (m : ActionMessage) : bool :=
  bool_decide (messageAction m = cmd_time_request).

(** The string section: the size then the characters of each string, with the
    check on the (unchanging) [ssize] that the loop makes before each one. *)
Fixpoint write_strings (le : bool) (strs : list string) (mem : list Z)
    (pos buffer_size ssize : Z) : outcome (Z * list Z) :=
  match strs with
  | [] => Ok (to_sint 32 pos, mem)
  | str :: strs =>
      let strsize := to_uint 32 (string_size str) in
      if buffer_size <? to_sint 32 ssize then Ok (-1, mem)
      else
        mem ← mem_write mem pos (store le 4 strsize);
        mem ← mem_write mem (pos + 4) (bytes_of_string str);
        write_strings le strs mem (pos + 4 + string_size str) buffer_size ssize
  end.

(** [int ActionMessage::toByteArray(char* data, int buffer_size) const]: the
    returned size and the content of the buffer ([None] is a null pointer). *)
Definition toByteArray (le : bool) (m : ActionMessage) (data : option (list Z))
    (buffer_size : Z) : outcome (Z * list Z) :=
  let ssize := if is_time_request m then 0
               else Z.land (string_size (payload m)) 16777215 in
  match data with
  | None => Ok (-1, [])
  | Some mem =>
      if (buffer_size =? 0)
         || (buffer_size <? to_sint 32 (to_uint 32 (action_message_base_size + ssize)))
      then Ok (-1, mem)
      else
        mem ← mem_write mem 0
          ([if le then 1 else 0; to_uint 8 (Z.shiftr ssize 16);
            Z.land (Z.shiftr ssize 8) 255; Z.land ssize 255]
           ++ store le 4 (action_code (messageAction m))
           ++ store le 4 (messageID m)
           ++ store le 4 (source_id m)
           ++ store le 4 (source_handle m)
           ++ store le 4 (dest_id m)
           ++ store le 4 (dest_handle m)
           ++ store le 2 (counter m)
           ++ store le 2 (flags m)
           ++ store le 4 (sequenceID m)
           ++ store le 8 (actionTime m));
        if is_time_request m then
          mem ← mem_write mem 44
            (store le 8 (Te m) ++ store le 8 (Tdemin m) ++ store le 8 (Tso m) ++ [0]);
          Ok (69, mem)
        else
          mem ← mem_write mem 44
            (take (Z.to_nat ssize) (bytes_of_string (payload m)));
          mem ← mem_write mem (44 + ssize)
            [to_uint 8 (Z.of_nat (length (stringData m)))];
          write_strings le (stringData m) mem (45 + ssize) buffer_size
            (to_uint 32 (ssize + action_message_base_size))
  end.

(** [int ActionMessage::serializedByteCount() const] *)
Definition serializedByteCount (m : ActionMessage) : Z :=
  if is_time_request m then action_message_base_size + 3 * 8
  else
    foldl (λ size str, size + to_sint 32 (4 + string_size str))
      (action_message_base_size + to_sint 32 (string_size (payload m)))
      (stringData m).

(** [std::string ActionMessage::to_string() const]; a negative size makes
    [std::string::resize] throw. *)
Definition to_string (le : bool) (m : ActionMessage) : outcome (list Z) :=
  let sz := serializedByteCount m in
  if sz <? 0 then Throw "length_error"
  else
    r ← toByteArray le m (Some (replicate (Z.to_nat sz) 0)) sz;
    Ok r.2.

(** [void ActionMessage::packetize(std::string& data) const] *)
Definition packetize (le : bool) (m : ActionMessage) : outcome (list Z) :=
  let sz := serializedByteCount m in
  if sz <? 0 then Throw "length_error"
  else
    r ← toByteArray le m (Some (replicate (Z.to_nat sz) 0)) sz;
    let dsz := to_uint 32 (4 + sz) in
    Ok ([LEADING_CHAR; Z.land (Z.shiftr dsz 16) 255; Z.land (Z.shiftr dsz 8) 255;
         Z.land dsz 255] ++ r.2 ++ [TAIL_CHAR1; TAIL_CHAR2]).

Section reading.
  Context `{TimeRep} (le : bool).

(** The message with its action set to [CMD_INVALID], which a failed read leaves. *)
Definition invalid_read (m : ActionMessage) : outcome (Z * ActionMessage) :=
  Ok (0, m <| messageAction := cmd_invalid |>).

(** The loop over the [stringCount] strings; [ii] is the index of the next one. *)
Fixpoint read_strings (count : nat) (ii : nat) (swap : bool) (data : list Z)
    (buffer_size tsize : Z) (m : ActionMessage)
    : outcome (option Z * ActionMessage) :=
  match count with
  | O => Ok (Some tsize, m)
  | S count =>
      '(bs, data) ← mem_read 4 data;
      let ssize := load_unsigned le (if swap then rev bs else bs) in
      let tsize := to_sint 32 (tsize + ssize) in
      if buffer_size <? tsize then Ok (None, m <| messageAction := cmd_invalid |>)
      else
        '(s, data) ← mem_read ssize data;
        read_strings count (S ii) swap data buffer_size tsize
          (m <| stringData := <[ii := string_of_bytes s]> (stringData m) |>)
  end.

(** The byte order corrections at the end of [fromByteArray]. *)
Definition swap_fields (m : ActionMessage) : ActionMessage :=
  let m := m <| messageID := swap_signed le 4 (messageID m) |>
             <| source_id := swap_signed le 4 (source_id m) |>
             <| source_handle := swap_signed le 4 (source_handle m) |>
             <| dest_id := swap_signed le 4 (dest_id m) |>
             <| dest_handle := swap_signed le 4 (dest_handle m) |>
             <| counter := swap_unsigned le 2 (counter m) |>
             <| flags := swap_unsigned le 2 (flags m) |>
             <| actionTime := swap_signed le 8 (actionTime m) |> in
  if is_time_request m then
    m <| Te := swap_signed le 8 (Te m) |> <| Tdemin := swap_signed le 8 (Tdemin m) |>
      <| Tso := swap_signed le 8 (Tso m) |>
  else m.

(** The fixed-size fields, from the action code to the action time. *)
Definition read_header (swap : bool) (data : list Z) (m : ActionMessage)
    : outcome (ActionMessage * list Z) :=
  '(b, data) ← mem_read 4 data;
  let m := m <| messageAction :=
                  action_of_code (load_signed le (if swap then rev b else b)) |> in
  '(b, data) ← mem_read 4 data; let m := m <| messageID := load_signed le b |> in
  '(b, data) ← mem_read 4 data; let m := m <| source_id := load_signed le b |> in
  '(b, data) ← mem_read 4 data; let m := m <| source_handle := load_signed le b |> in
  '(b, data) ← mem_read 4 data; let m := m <| dest_id := load_signed le b |> in
  '(b, data) ← mem_read 4 data; let m := m <| dest_handle := load_signed le b |> in
  '(b, data) ← mem_read 2 data; let m := m <| counter := load_unsigned le b |> in
  '(b, data) ← mem_read 2 data; let m := m <| flags := load_unsigned le b |> in
  '(b, data) ← mem_read 4 data; let m := m <| sequenceID := load_unsigned le b |> in
  '(b, data) ← mem_read 8 data; let m := m <| actionTime := load_signed le b |> in
  Ok (m, data).

(** The three extra times of a time request. *)
Definition read_times (data : list Z) (m : ActionMessage)
    : outcome (ActionMessage * list Z) :=
  '(b, data) ← mem_read 8 data; let m := m <| Te := load_signed le b |> in
  '(b, data) ← mem_read 8 data; let m := m <| Tdemin := load_signed le b |> in
  '(b, data) ← mem_read 8 data; let m := m <| Tso := load_signed le b |> in
  Ok (m, data).

(** [fromByteArray] after the size in the header has been checked: the payload, the
    strings and the byte order corrections. *)
Definition read_body (sz tsize : Z) (swap : bool) (data : list Z) (buffer_size : Z)
    (m : ActionMessage) : outcome (Z * ActionMessage) :=
  '(m, data) ←
    (if 0 <? sz then
       '(p, data) ← mem_read sz data; Ok (m <| payload := string_of_bytes p |>, data)
     else Ok (m, data));
  '(c, data) ← mem_read 1 data;
  let stringCount := load_unsigned le c in
  '(res, m) ←
    (if negb (stringCount =? 0) then
       let m := m <| stringData :=
                       resize_strings (Z.to_nat stringCount) (stringData m) |> in
       let tsize := tsize + 4 * stringCount in
       if buffer_size <? tsize then Ok (None, m <| messageAction := cmd_invalid |>)
       else read_strings (Z.to_nat stringCount) 0 swap data buffer_size tsize m
     else Ok (Some tsize, m <| stringData := [] |>));
  match res with
  | None => Ok (0, m)
  | Some tsize => Ok (tsize, if swap then swap_fields m else m)
  end.

Definition read_message (data : list Z) (buffer_size : Z) (m : ActionMessage)
    : outcome (Z * ActionMessage) :=
  '(h, rest) ← mem_read 4 data;
  match h with
  | [h0; h1; h2; h3] =>
      let sz := 256 * 256 * h1 + 256 * h2 + h3 in
      let tsize := action_message_base_size + sz in
      if buffer_size <? tsize then invalid_read m
      else
        let swap := negb (h0 =? (if le then 1 else 0)) in
        '(m, rest) ← read_header swap rest m;
        if is_time_request m then
          let tsize := tsize + 3 * 8 in
          if buffer_size <? tsize then invalid_read m
          else
            '(m, rest) ← read_times rest m;
            read_body sz tsize swap rest buffer_size m
        else
          let m := m <| Te := timeZero |> <| Tdemin := timeZero |>
                     <| Tso := timeZero |> in
          read_body sz tsize swap rest buffer_size m
  | _ => Fault
  end.

(** [depacketize], given the [fromByteArray] it calls on the enclosed bytes. *)
Definition depacketize_with
    (from : list Z → Z → ActionMessage → outcome (Z * ActionMessage))
    (data : list Z) (buffer_size : Z) (m : ActionMessage)
    : outcome (Z * ActionMessage) :=
  '(b0, _) ← mem_read 1 data;
  if negb (load_unsigned le b0 =? LEADING_CHAR) then Ok (0, m)
  else if buffer_size <? 6 then Ok (0, m)
  else
    '(h, rest) ← mem_read 4 data;
    match h with
    | [_; h1; h2; h3] =>
        let message_size :=
          Z.shiftl (Z.shiftl h1 8 + h2) 8 + h3 in
        if buffer_size <? message_size + 2 then Ok (0, m)
        else
          '(t1, rest1) ← mem_read 1 (drop (Z.to_nat message_size) data);
          if negb (load_unsigned le t1 =? TAIL_CHAR1) then Ok (0, m)
          else
            '(t2, _) ← mem_read 1 rest1;
            if negb (load_unsigned le t2 =? TAIL_CHAR2) then Ok (0, m)
            else
              '(bytesUsed, m) ← from rest (to_sint 32 (to_uint 32 (message_size - 4))) m;
              Ok (if 0 <? bytesUsed then message_size + 2 else 0, m)
    | _ => Fault
    end.

(** [int ActionMessage::fromByteArray(const char* data, int buffer_size)]; the
    recursion through [depacketize] advances [data] by four bytes, so the length of
    [data] bounds it. *)
Fixpoint fromByteArray_fuel (fuel : nat) (data : list Z) (buffer_size : Z)
    (m : ActionMessage) : outcome (Z * ActionMessage) :=
  match fuel with
  | O => Fault
  | S fuel =>
      if buffer_size <? action_message_base_size then invalid_read m
      else
        '(b0, _) ← mem_read 1 data;
        if load_unsigned le b0 =? LEADING_CHAR then
          '(res, m) ← depacketize_with (fromByteArray_fuel fuel) data buffer_size m;
          if 0 <? res then Ok (res, m) else read_message data buffer_size m
        else read_message data buffer_size m
  end.

Definition fromByteArray (data : list Z) (buffer_size : Z) (m : ActionMessage)
    : outcome (Z * ActionMessage) :=
  fromByteArray_fuel (S (length data)) data buffer_size m.

Definition depacketize (data : list Z) (buffer_size : Z) (m : ActionMessage)
    : outcome (Z * ActionMessage) :=
  depacketize_with fromByteArray data buffer_size m.

(** [from_string] / [from_vector]: the message read from a whole buffer. *)
Definition from_string (data : list Z) (m : ActionMessage) : outcome ActionMessage :=
  r ← fromByteArray data (to_sint 32 (Z.of_nat (length data))) m; Ok r.2.

(** [int appendMessage(ActionMessage& m, const ActionMessage& newMessage)] *)
Definition appendMessage (m newMessage : ActionMessage) : outcome (Z * ActionMessage) :=
  if bool_decide (action m = cmd_multi_message) && (counter m <? 255) then
    s ← to_string le newMessage;
    m' ← setString (m <| counter := counter m + 1 |>) (counter m) (string_of_bytes s);
    Ok (counter m', m')
  else Ok (-1, m).

End reading.

(** Sample messages. *)
Definition sample_pub : ActionMessage :=
  (newMessage cmd_pub) <| payload := "abc" |> <| stringData := ["xy"; ""; "z"] |>
    <| actionTime := -5 |> <| sequenceID := 17 |> <| flags := 513 |>
    <| source_id := 131073 |>.
Definition sample_request : ActionMessage :=
  (newMessage cmd_time_request) <| Te := 45 |> <| Tdemin := 77 |> <| Tso := -1 |>.

Example codec_pub :
  (to_string true sample_pub ≫= λ d, from_string true d defaultMessage) = Ok sample_pub.
Proof. vm_compute. reflexivity. Qed.
Example codec_request :
  (to_string false sample_request ≫= λ d, from_string false d defaultMessage)
    = Ok sample_request.
Proof. vm_compute. reflexivity. Qed.
Example codec_packet :
  (packetize true sample_pub ≫= λ d, from_string true d defaultMessage) = Ok sample_pub.
Proof. vm_compute. reflexivity. Qed.
Example codec_cross :
  (to_string false sample_pub ≫= λ d, from_string true d defaultMessage)
    = Ok (sample_pub <| sequenceID := 285212672 |>).
Proof. vm_compute. reflexivity. Qed.

(** ** Bytes and integers *)

Lemma length_bytes_of_string s : length (bytes_of_string s) = String.length s.
Proof. induction s; simpl; congruence. Qed.

Lemma string_of_bytes_of_string s : string_of_bytes (bytes_of_string s) = s.
Proof.
  induction s as [|a s IH]; simpl; [done|].
  by rewrite IH, N2Z.id, Ascii.ascii_N_embedding.
Qed.

Lemma bytes_of_string_byte s : Forall byte (bytes_of_string s).
Proof.
  induction s as [|a s IH]; simpl; constructor; [|done].
  pose proof (Ascii.N_ascii_bounded a). unfold byte. lia.
Qed.

Section store.
  Implicit Types le : bool.

Lemma length_store le n z : 0 ≤ n → length (store le n z) = Z.to_nat n.
Proof.
  intros. unfold store. pose proof (length_Z_to_little_endian n 8 z ltac:(done)).
  destruct le; rewrite ?length_rev; lia.
Qed.

Lemma store_byte le n z : 0 ≤ n → Forall byte (store le n z).
Proof.
  intros. unfold store. pose proof (Z_to_little_endian_bound n 8 z ltac:(done) ltac:(done)).
  destruct le; [done|]. by apply Forall_rev.
Qed.

Lemma rev_store le n z : rev (store le n z) = store (negb le) n z.
Proof. unfold store. destruct le; simpl; [done|]. apply rev_involutive. Qed.

Lemma load_unsigned_store le n z :
  0 ≤ n → load_unsigned le (store le n z) = to_uint (8 * n) z.
Proof.
  intros. unfold load_unsigned, store, to_uint. rewrite Z.mul_comm.
  destruct le; rewrite ?rev_involutive; by apply little_endian_to_Z_to_little_endian.
Qed.

Lemma load_signed_store le n z :
  1 ≤ n → sint_range (8 * n) z → load_signed le (store le n z) = z.
Proof.
  intros. unfold load_signed.
  rewrite length_store, Z2Nat.id, load_unsigned_store by lia.
  rewrite to_sint_to_uint by lia. apply to_sint_id; [lia|done].
Qed.

Lemma load_unsigned_store_id le n z :
  0 ≤ n → uint_range (8 * n) z → load_unsigned le (store le n z) = z.
Proof. intros. rewrite load_unsigned_store by done. by apply to_uint_id. Qed.

Lemma store_to_uint le n z : 0 ≤ n → store le n (to_uint (8 * n) z) = store le n z.
Proof.
  intros. unfold store.
  assert (Z_to_little_endian n 8 (to_uint (8 * n) z) = Z_to_little_endian n 8 z) as ->; [|done].
  rewrite <-(Z_to_little_endian_to_Z n 8 (Z_to_little_endian n 8 z)).
  - unfold to_uint. by rewrite little_endian_to_Z_to_little_endian, Z.mul_comm by lia.
  - symmetry. by apply length_Z_to_little_endian.
  - done.
  - by apply Z_to_little_endian_bound.
Qed.

Lemma store_load_unsigned le bs :
  Forall byte bs → store le (Z.of_nat (length bs)) (load_unsigned le bs) = bs.
Proof.
  intros Hb. unfold store, load_unsigned. destruct le.
  - apply Z_to_little_endian_to_Z; [done|done|exact Hb].
  - rewrite Z_to_little_endian_to_Z; [apply rev_involutive|by rewrite length_rev|done|].
    by apply Forall_rev.
Qed.

Lemma to_uint_to_sint w z : 1 ≤ w → to_uint w (to_sint w z) = to_uint w z.
Proof.
  intros. unfold to_uint, to_sint. rewrite Zminus_mod_idemp_l. f_equal. lia.
Qed.

Lemma store_load_signed le bs :
  bs ≠ [] → Forall byte bs → store le (Z.of_nat (length bs)) (load_signed le bs) = bs.
Proof.
  intros Hne Hb. unfold load_signed.
  assert (1 ≤ Z.of_nat (length bs)) by (destruct bs; simpl; [done|lia]).
  rewrite <-store_to_uint, to_uint_to_sint, store_to_uint by lia.
  by apply store_load_unsigned.
Qed.

(** Bytes written on a host of the other byte order, read and then swapped. *)
Lemma swap_signed_load le n z :
  1 ≤ n → sint_range (8 * n) z →
  swap_signed le n (load_signed le (store (negb le) n z)) = z.
Proof.
  intros Hn Hz. unfold swap_signed.
  replace n with (Z.of_nat (length (store (negb le) n z))) at 1
    by (rewrite length_store; lia).
  rewrite store_load_signed, rev_store, negb_involutive.
  - by apply load_signed_store.
  - intros Heq. pose proof (length_store (negb le) n z ltac:(lia)) as Hl.
    rewrite Heq in Hl. simpl in Hl. lia.
  - apply store_byte. lia.
Qed.

Lemma swap_unsigned_load le n z :
  0 ≤ n → uint_range (8 * n) z →
  swap_unsigned le n (load_unsigned le (store (negb le) n z)) = z.
Proof.
  intros Hn Hz. unfold swap_unsigned.
  replace n with (Z.of_nat (length (store (negb le) n z))) at 1
    by (rewrite length_store; lia).
  rewrite store_load_unsigned, rev_store, negb_involutive.
  - by apply load_unsigned_store_id.
  - by apply store_byte.
Qed.

End store.

(** Reading and writing at a cursor. *)
Lemma mem_read_app n bs rest :
  Z.of_nat (length bs) = n → mem_read n (bs ++ rest) = Ok (bs, rest).
Proof.
  intros <-. unfold mem_read. rewrite length_app.
  rewrite (proj2 (Z.ltb_ge _ _)) by lia. by rewrite Nat2Z.id, take_app_length, drop_app_length.
Qed.

Lemma mem_write_app w k pos bs :
  Z.of_nat (length w) = pos → (length bs ≤ k)%nat →
  mem_write (w ++ replicate k 0) pos bs = Ok ((w ++ bs) ++ replicate (k - length bs) 0).
Proof.
  intros <- Hk. unfold mem_write. rewrite length_app, length_replicate.
  rewrite (proj2 (Z.ltb_ge _ _)) by lia. rewrite Nat2Z.id, take_app_length.
  rewrite drop_app_add, drop_replicate, app_assoc. done.
Qed.
