(* ===== verification/CodecFacts.v ===== *)
(** * Correctness of the byte format (src/src/helics/core/ActionMessage.cpp)

    [encode] is the reference definition of the format: the concatenation of the
    fields.  The buffer-writing code is shown to produce it, the reading code to
    invert it on a host of either byte order, and every proper prefix of an encoding
    to be rejected. *)

From S2P Require Import Prelude HelicsTime Ids Flags ActionMessage MessageCodec.

(** ** The format *)

(** The size that the string section adds. *)
Definition strings_size (strs : list string) : Z :=
  foldr (λ s n, 4 + string_size s + n) 0 strs.

(** Messages whose fields are in the range of their C++ types and whose sizes fit
    the format: 24 bits for the payload, 8 bits for the number of strings. *)
Record message_wf (m : ActionMessage) : Prop := {
  wf_action : action_wf (messageAction m);
  wf_code : sint_range 32 (action_code (messageAction m));
  wf_messageID : sint_range 32 (messageID m);
  wf_source_id : sint_range 32 (source_id m);
  wf_source_handle : sint_range 32 (source_handle m);
  wf_dest_id : sint_range 32 (dest_id m);
  wf_dest_handle : sint_range 32 (dest_handle m);
  wf_counter : uint_range 16 (counter m);
  wf_flags : uint_range 16 (flags m);
  wf_sequenceID : uint_range 32 (sequenceID m);
  wf_actionTime : sint_range 64 (actionTime m);
  wf_Te : sint_range 64 (Te m);
  wf_Tdemin : sint_range 64 (Tdemin m);
  wf_Tso : sint_range 64 (Tso m);
  wf_payload : string_size (payload m) < 2 ^ 24;
  wf_count : Z.of_nat (length (stringData m)) < 256;
  wf_total : 45 + string_size (payload m) + strings_size (stringData m) < 2 ^ 31;
}.

Definition size_bytes (le : bool) (ssize : Z) : list Z :=
  [if le then 1 else 0; to_uint 8 (Z.shiftr ssize 16);
   Z.land (Z.shiftr ssize 8) 255; Z.land ssize 255].

Definition field_bytes (le : bool) (m : ActionMessage) : list Z :=
  store le 4 (action_code (messageAction m)) ++ store le 4 (messageID m)
  ++ store le 4 (source_id m) ++ store le 4 (source_handle m)
  ++ store le 4 (dest_id m) ++ store le 4 (dest_handle m)
  ++ store le 2 (counter m) ++ store le 2 (flags m)
  ++ store le 4 (sequenceID m) ++ store le 8 (actionTime m).

Definition times_bytes (le : bool) (m : ActionMessage) : list Z :=
  store le 8 (Te m) ++ store le 8 (Tdemin m) ++ store le 8 (Tso m).

Fixpoint strings_bytes (le : bool) (strs : list string) : list Z :=
  match strs with
  | [] => []
  | s :: strs => store le 4 (string_size s) ++ bytes_of_string s ++ strings_bytes le strs
  end.

Definition encode (le : bool) (m : ActionMessage) : list Z :=
  if is_time_request m then
    size_bytes le 0 ++ field_bytes le m ++ times_bytes le m ++ [0]
  else
    size_bytes le (string_size (payload m)) ++ field_bytes le m
    ++ bytes_of_string (payload m) ++ [Z.of_nat (length (stringData m))]
    ++ strings_bytes le (stringData m).

(** What a message [m0] becomes when the encoding of [m] is read into it on a host
    [le'] after being written on a host [le]. *)
Definition received `{TimeRep} (le le' : bool) (m0 m : ActionMessage) : ActionMessage :=
  let m := if Bool.eqb le le' then m
           else m <| sequenceID := swap_unsigned le' 4 (sequenceID m) |> in
  if is_time_request m then
    m <| payload := payload m0 |> <| stringData := [] |>
  else
    m <| Te := timeZero |> <| Tdemin := timeZero |> <| Tso := timeZero |>
      <| payload := if String.eqb (payload m) "" then payload m0 else payload m |>.

(** ** Sizes *)

Lemma string_size_nonneg s : 0 ≤ string_size s.
Proof. unfold string_size. lia. Qed.

Lemma strings_size_nonneg strs : 0 ≤ strings_size strs.
Proof.
  induction strs as [|s strs IH]; simpl; [lia|].
  pose proof (string_size_nonneg s). lia.
Qed.

Lemma length_bytes s : Z.of_nat (length (bytes_of_string s)) = string_size s.
Proof. by rewrite length_bytes_of_string. Qed.

Lemma length_field_bytes le m : length (field_bytes le m) = 40%nat.
Proof. unfold field_bytes. by rewrite !length_app, !length_store by lia. Qed.

Lemma length_times_bytes le m : length (times_bytes le m) = 24%nat.
Proof. unfold times_bytes. by rewrite !length_app, !length_store by lia. Qed.

Lemma length_strings_bytes le strs :
  Z.of_nat (length (strings_bytes le strs)) = strings_size strs.
Proof.
  induction strs as [|s strs IH]; simpl; [done|].
  rewrite !length_app, length_store by lia. pose proof (length_bytes s). lia.
Qed.

Lemma length_encode le m :
  Z.of_nat (length (encode le m)) =
    if is_time_request m then 69
    else 45 + string_size (payload m) + strings_size (stringData m).
Proof.
  unfold encode. case_match; rewrite !length_app, length_field_bytes.
  - by rewrite length_times_bytes.
  - pose proof (length_bytes (payload m)).
    pose proof (length_strings_bytes le (stringData m)). simpl. lia.
Qed.

Lemma serializedByteCount_length le m :
  message_wf m → serializedByteCount m = Z.of_nat (length (encode le m)).
Proof.
  intros Hwf. rewrite length_encode. unfold serializedByteCount.
  destruct (is_time_request m) eqn:Htr; [done|].
  pose proof (wf_total _ Hwf) as Ht. pose proof (string_size_nonneg (payload m)).
  pose proof (strings_size_nonneg (stringData m)).
  rewrite to_sint_id by (unfold sint_range; lia).
  change action_message_base_size with 45.
  assert (∀ strs n, 0 ≤ n → n + strings_size strs < 2 ^ 31 →
    foldl (λ size str, size + to_sint 32 (4 + string_size str)) n strs
      = n + strings_size strs) as Hfold; [|by rewrite Hfold; lia].
  clear. induction strs as [|s strs IH]; intros n Hn Hlt; simpl in *; [lia|].
  pose proof (string_size_nonneg s). pose proof (strings_size_nonneg strs).
  rewrite to_sint_id by (unfold sint_range; lia). rewrite IH by lia. lia.
Qed.

Lemma payload_mask m : message_wf m → Z.land (string_size (payload m)) 16777215 = string_size (payload m).
Proof.
  intros Hwf. change 16777215 with (Z.ones 24). rewrite Z.land_ones by lia.
  apply Z.mod_small. split; [apply string_size_nonneg|apply Hwf].
Qed.

(** ** Writing *)

Lemma write_strings_spec le strs w k buffer_size ssize :
  Z.of_nat k = strings_size strs →
  Z.of_nat (length w) + strings_size strs < 2 ^ 31 →
  to_sint 32 ssize ≤ buffer_size →
  write_strings le strs (w ++ replicate k 0) (Z.of_nat (length w)) buffer_size ssize
  = Ok (Z.of_nat (length w) + strings_size strs, w ++ strings_bytes le strs).
Proof.
  revert w k. induction strs as [|s strs IH]; intros w k Hk Hlt Hb; simpl in *.
  { assert (k = 0%nat) as -> by lia. simpl. rewrite to_sint_id by (unfold sint_range; lia).
    by rewrite Z.add_0_r. }
  pose proof (string_size_nonneg s). pose proof (strings_size_nonneg strs).
  pose proof (length_bytes s) as Hs.
  rewrite (proj2 (Z.ltb_ge _ _)) by lia.
  rewrite (to_uint_id 32) by (unfold uint_range; lia).
  rewrite mem_write_app by (rewrite ?length_store; lia). simpl.
  rewrite mem_write_app by (rewrite ?length_app, ?length_store; lia). simpl.
  rewrite <-!app_assoc. rewrite (app_assoc w).
  rewrite (app_assoc (w ++ _) (bytes_of_string s)).
  replace (Z.of_nat (length w) + 4 + string_size s)
    with (Z.of_nat (length ((w ++ store le 4 (string_size s)) ++ bytes_of_string s)))
    by (rewrite !length_app, length_store; lia).
  rewrite IH; [|rewrite ?length_app, ?length_store; lia..|done].
  rewrite !length_app, length_store by lia. do 2 f_equal; [lia|]. by rewrite <-!app_assoc.
Qed.

(** The first 44 bytes. *)
Definition head_bytes (le : bool) (ssize : Z) (m : ActionMessage) : list Z :=
  size_bytes le ssize ++ field_bytes le m.

Lemma length_head_bytes le ssize m : length (head_bytes le ssize m) = 44%nat.
Proof. unfold head_bytes. by rewrite length_app, length_field_bytes. Qed.

(** The buffer-writing code produces the reference format, and the size it
    returns, when it is given a buffer of that size. *)
Lemma toByteArray_encode le m n :
  message_wf m → n = length (encode le m) →
  toByteArray le m (Some (replicate n 0)) (Z.of_nat n) = Ok (Z.of_nat n, encode le m).
Proof.
  intros Hwf Hn'. pose proof (length_encode le m) as Hn. rewrite <-Hn' in Hn.
  pose proof (wf_total _ Hwf) as Htot. pose proof (strings_size_nonneg (stringData m)).
  pose proof (string_size_nonneg (payload m)). pose proof (wf_count _ Hwf).
  pose proof (length_bytes (payload m)) as Hlp.
  unfold toByteArray. change action_message_base_size with 45.
  rewrite payload_mask by done.
  set (ssize := if is_time_request m then 0 else string_size (payload m)).
  assert (0 ≤ ssize ≤ string_size (payload m) ∧ 45 + ssize ≤ Z.of_nat n) as [Hss Hsn].
  { subst ssize. destruct (is_time_request m); lia. }
  rewrite (to_uint_id 32) by (unfold uint_range; lia).
  rewrite to_sint_id by (unfold sint_range; lia).
  rewrite (proj2 (Z.eqb_neq _ _)), (proj2 (Z.ltb_ge _ _)) by lia. simpl (false || false).
  cbn iota.
  fold (size_bytes le ssize) (field_bytes le m).
  change (size_bytes le ssize ++ field_bytes le m) with (head_bytes le ssize m).
  pose proof (length_head_bytes le ssize m) as Hh.
  rewrite <-(app_nil_l (replicate n 0)).
  rewrite mem_write_app by (done || lia). cbn [mbind outcome_bind app].
  unfold encode. subst ssize. destruct (is_time_request m) eqn:Htr.
  - assert (store le 8 (Te m) ++ store le 8 (Tdemin m) ++ store le 8 (Tso m) ++ [0]
      = times_bytes le m ++ [0]) as ->.
    { unfold times_bytes. by rewrite <-!app_assoc. }
    assert (length (times_bytes le m ++ [0]) = 25%nat) as Ht.
    { by rewrite length_app, length_times_bytes. }
    rewrite mem_write_app by lia. cbn [mbind outcome_bind].
    replace (n - _ - _)%nat with 0%nat by lia.
    unfold head_bytes. cbn [replicate]. rewrite app_nil_r, <-!app_assoc.
    do 2 f_equal. lia.
  - rewrite take_ge by lia. rewrite mem_write_app by lia. cbn [mbind outcome_bind].
    rewrite mem_write_app by (rewrite ?length_app; cbn [length]; lia). cbn [mbind outcome_bind].
    rewrite (to_uint_id 8) by (unfold uint_range; lia).
    replace (45 + string_size (payload m)) with
      (Z.of_nat (length ((head_bytes le (string_size (payload m)) m ++
        bytes_of_string (payload m)) ++ [Z.of_nat (length (stringData m))])))
      by (rewrite !length_app; cbn [length]; lia).
    rewrite write_strings_spec.
    + do 2 f_equal.
      * rewrite !length_app. cbn [length]. lia.
      * unfold head_bytes. by rewrite <-!app_assoc.
    + rewrite ?length_app. cbn [length]. lia.
    + rewrite !length_app. cbn [length]. lia.
    + rewrite to_uint_id by (unfold uint_range; lia).
      rewrite to_sint_id by (unfold sint_range; lia). lia.
Qed.

Lemma to_string_encode le m : message_wf m → to_string le m = Ok (encode le m).
Proof.
  intros Hwf. unfold to_string.
  rewrite (serializedByteCount_length le) by done.
  rewrite (proj2 (Z.ltb_ge _ _)) by lia. rewrite Nat2Z.id.
  by rewrite toByteArray_encode by done.
Qed.

(** ** Reading *)

Lemma load_unsigned_byte le b : byte b → load_unsigned le [b] = b.
Proof. intros. unfold load_unsigned. destruct le; simpl; rewrite Z.lor_0_r; done. Qed.

(** The 24-bit size of the header. *)
Lemma size_bytes_value ssize :
  uint_range 24 ssize →
  256 * 256 * to_uint 8 (Z.shiftr ssize 16) + 256 * Z.land (Z.shiftr ssize 8) 255
    + Z.land ssize 255 = ssize.
Proof.
  intros [H0 H1]. change 255 with (Z.ones 8). rewrite !Z.land_ones, !Z.shiftr_div_pow2 by lia.
  unfold to_uint.
  assert (ssize / 2 ^ 16 = ssize / 2 ^ 8 / 2 ^ 8) as -> by (rewrite Z.div_div by lia; done).
  assert (0 ≤ ssize / 2 ^ 8 / 2 ^ 8 < 2 ^ 8).
  { rewrite Z.div_div by lia. split; [apply Z.div_pos; lia|].
    apply Z.div_lt_upper_bound; lia. }
  rewrite (Z.mod_small (ssize / 2 ^ 8 / 2 ^ 8)) by done.
  pose proof (Z.div_mod ssize (2 ^ 8) ltac:(lia)).
  pose proof (Z.div_mod (ssize / 2 ^ 8) (2 ^ 8) ltac:(lia)). lia.
Qed.

(** The number of characters in a list of strings. *)
Definition chars_size (strs : list string) : Z :=
  foldr (λ s n, string_size s + n) 0 strs.

Lemma chars_size_nonneg strs : 0 ≤ chars_size strs.
Proof.
  induction strs as [|s strs IH]; simpl; [lia|].
  pose proof (string_size_nonneg s). lia.
Qed.

Lemma strings_size_chars strs :
  strings_size strs = 4 * Z.of_nat (length strs) + chars_size strs.
Proof. induction strs as [|s strs IH]; simpl; lia. Qed.

Lemma length_resize_strings n l : length (resize_strings n l) = n.
Proof. unfold resize_strings. rewrite length_app, length_take, length_replicate. lia. Qed.

Section reading.
  Context `{TimeRep}.
  Implicit Types (le : bool) (m : ActionMessage).

(** The bytes of an integer, after the correction [fromByteArray] makes when the
    order recorded in the message is not that of the host. *)
Lemma corrected_bytes le le' n z :
  (if xorb le le' then rev (store le n z) else store le n z) = store le' n z.
Proof. destruct le, le'; cbn [xorb]; rewrite ?rev_store; reflexivity. Qed.

Definition loaded_header le le' m0 m : ActionMessage :=
  m0 <| messageAction := messageAction m |>
     <| messageID := load_signed le' (store le 4 (messageID m)) |>
     <| source_id := load_signed le' (store le 4 (source_id m)) |>
     <| source_handle := load_signed le' (store le 4 (source_handle m)) |>
     <| dest_id := load_signed le' (store le 4 (dest_id m)) |>
     <| dest_handle := load_signed le' (store le 4 (dest_handle m)) |>
     <| counter := load_unsigned le' (store le 2 (counter m)) |>
     <| flags := load_unsigned le' (store le 2 (flags m)) |>
     <| sequenceID := load_unsigned le' (store le 4 (sequenceID m)) |>
     <| actionTime := load_signed le' (store le 8 (actionTime m)) |>.

Lemma read_header_spec le le' m m0 rest :
  message_wf m →
  read_header le' (xorb le le') (field_bytes le m ++ rest) m0
  = Ok (loaded_header le le' m0 m, rest).
Proof.
  intros Hwf. unfold read_header, field_bytes. rewrite <-!app_assoc.
  do 10 (rewrite mem_read_app by (by rewrite length_store); cbn [mbind outcome_bind]).
  rewrite corrected_bytes, load_signed_store by (done || apply Hwf).
  rewrite (wf_action _ Hwf). done.
Qed.

Definition loaded_times le le' m0 m : ActionMessage :=
  m0 <| Te := load_signed le' (store le 8 (Te m)) |>
     <| Tdemin := load_signed le' (store le 8 (Tdemin m)) |>
     <| Tso := load_signed le' (store le 8 (Tso m)) |>.

Lemma read_times_spec le le' m m0 rest :
  read_times le' (times_bytes le m ++ rest) m0 = Ok (loaded_times le le' m0 m, rest).
Proof.
  unfold read_times, times_bytes. rewrite <-!app_assoc.
  by do 3 (rewrite mem_read_app by (by rewrite length_store); cbn [mbind outcome_bind]).
Qed.

Lemma read_strings_spec le le' strs pre junk rest buffer_size tsize m0 :
  stringData m0 = pre ++ junk → length junk = length strs →
  0 ≤ tsize → tsize + chars_size strs ≤ buffer_size → buffer_size < 2 ^ 31 →
  read_strings le' (length strs) (length pre) (xorb le le')
    (strings_bytes le strs ++ rest) buffer_size tsize m0
  = Ok (Some (tsize + chars_size strs), m0 <| stringData := pre ++ strs |>).
Proof.
  revert pre junk tsize m0.
  induction strs as [|s strs IH]; intros pre junk tsize m0 Hsd Hj Ht Hb Hmax; simpl in *.
  { destruct junk; [|done]. rewrite Z.add_0_r, <-Hsd. by destruct m0. }
  destruct junk as [|j junk]; [done|].
  pose proof (string_size_nonneg s). pose proof (chars_size_nonneg strs).
  rewrite <-!app_assoc. rewrite mem_read_app by (by rewrite length_store).
  cbn [mbind outcome_bind]. rewrite corrected_bytes.
  rewrite load_unsigned_store_id by (unfold uint_range; lia).
  rewrite to_sint_id by (unfold sint_range; lia).
  rewrite (proj2 (Z.ltb_ge _ _)) by lia.
  rewrite mem_read_app by apply length_bytes. cbn [mbind outcome_bind].
  rewrite string_of_bytes_of_string.
  replace (S (length pre)) with (length (pre ++ [s])) by (rewrite length_app; simpl; lia).
  rewrite (IH (pre ++ [s]) junk).
  - simpl. by rewrite <-app_assoc, Z.add_assoc.
  - simpl. rewrite Hsd, insert_app_r_alt by lia. rewrite Nat.sub_diag. simpl.
    by rewrite <-app_assoc.
  - by injection Hj.
  - lia.
  - lia.
  - done.
Qed.

Lemma string_size_zero s : string_size s = 0 → s = "".
Proof. destruct s; [done|]. unfold string_size. simpl. lia. Qed.

Lemma read_body_spec le le' p strs extra buffer_size m0 :
  uint_range 24 (string_size p) → Z.of_nat (length strs) < 256 →
  buffer_size = 45 + string_size p + strings_size strs → buffer_size < 2 ^ 31 →
  read_body le' (string_size p) (45 + string_size p) (xorb le le')
    (bytes_of_string p ++ [Z.of_nat (length strs)] ++ strings_bytes le strs ++ extra)
    buffer_size m0
  = let m := m0 <| payload := if String.eqb p "" then payload m0 else p |>
                <| stringData := strs |> in
    Ok (buffer_size, if xorb le le' then swap_fields le' m else m).
Proof.
  intros Hp Hc Hb Hmax. rewrite strings_size_chars in Hb. unfold read_body.
  set (m1 := m0 <| payload := if String.eqb p "" then payload m0 else p |>).
  assert ((if 0 <? string_size p then
      '(q, data) ← mem_read (string_size p) (bytes_of_string p ++
         [Z.of_nat (length strs)] ++ strings_bytes le strs ++ extra);
      Ok (m0 <| payload := string_of_bytes q |>, data)
    else Ok (m0, bytes_of_string p ++ [Z.of_nat (length strs)] ++ strings_bytes le strs ++ extra))
    = Ok (m1, [Z.of_nat (length strs)] ++ strings_bytes le strs ++ extra)) as ->.
  { destruct (Z.ltb_spec 0 (string_size p)) as [Hpos|Hz].
    - rewrite mem_read_app by apply length_bytes. cbn [mbind outcome_bind].
      rewrite string_of_bytes_of_string. subst m1.
      destruct p; [unfold string_size in Hpos; simpl in Hpos; lia|]. done.
    - assert (p = "") as -> by (apply string_size_zero; unfold uint_range in Hp; lia).
      subst m1. by destruct m0. }
  cbn [mbind outcome_bind]. rewrite mem_read_app by done. cbn [mbind outcome_bind].
  rewrite load_unsigned_byte by (unfold byte; lia). rewrite Nat2Z.id.
  pose proof (chars_size_nonneg strs). unfold uint_range in Hp.
  destruct strs as [|s strs]; [simpl in *; subst m1; simpl; repeat f_equal; lia|].
  set (strs' := s :: strs) in *.
  assert (0 < Z.of_nat (length strs')) by (simpl; lia).
  rewrite (proj2 (Z.eqb_neq _ _)) by lia. cbn [negb].
  rewrite (proj2 (Z.ltb_ge _ _)) by lia.
  erewrite (read_strings_spec le le' strs' [] (resize_strings (length strs') (stringData m1)));
    [|done|apply length_resize_strings|lia..].
  cbn [mbind outcome_bind]. subst m1. simpl. repeat f_equal. simpl in Hb. lia.
Qed.

(** The header fields in their final form: what loading and, on the other byte
    order, swapping leaves in the message. *)
Lemma native_fields le m m0 :
  message_wf m →
  loaded_header le le m0 m =
    m <| payload := payload m0 |> <| Te := Te m0 |> <| Tdemin := Tdemin m0 |>
      <| Tso := Tso m0 |> <| stringData := stringData m0 |>.
Proof.
  intros Hwf. unfold loaded_header. simpl.
  rewrite !load_signed_store, !load_unsigned_store_id by (lia || apply Hwf). done.
Qed.

Lemma swapped_fields le m m1 :
  message_wf m →
  messageAction m1 = messageAction m →
  messageID m1 = load_signed le (store (negb le) 4 (messageID m)) →
  source_id m1 = load_signed le (store (negb le) 4 (source_id m)) →
  source_handle m1 = load_signed le (store (negb le) 4 (source_handle m)) →
  dest_id m1 = load_signed le (store (negb le) 4 (dest_id m)) →
  dest_handle m1 = load_signed le (store (negb le) 4 (dest_handle m)) →
  counter m1 = load_unsigned le (store (negb le) 2 (counter m)) →
  flags m1 = load_unsigned le (store (negb le) 2 (flags m)) →
  actionTime m1 = load_signed le (store (negb le) 8 (actionTime m)) →
  (if is_time_request m then
     Te m1 = load_signed le (store (negb le) 8 (Te m)) ∧
     Tdemin m1 = load_signed le (store (negb le) 8 (Tdemin m)) ∧
     Tso m1 = load_signed le (store (negb le) 8 (Tso m))
   else Te m1 = timeZero ∧ Tdemin m1 = timeZero ∧ Tso m1 = timeZero) →
  swap_fields le m1 =
    let m := m <| sequenceID := sequenceID m1 |> <| payload := payload m1 |>
               <| stringData := stringData m1 |> in
    if is_time_request m then m
    else m <| Te := timeZero |> <| Tdemin := timeZero |> <| Tso := timeZero |>.
Proof.
  intros Hwf Ha H1 H2 H3 H4 H5 H6 H7 H8 Ht.
  unfold swap_fields, is_time_request in *. destruct m1; simpl in *; subst.
  rewrite !swap_signed_load, !swap_unsigned_load by (lia || apply Hwf).
  case_match; destruct Ht as (-> & -> & ->); [|done].
  by rewrite !swap_signed_load by (lia || apply Hwf).
Qed.

Lemma swap_bit le le' :
  negb ((if le then 1 else 0) =? (if le' then 1 else 0)) = xorb le le'.
Proof. by destruct le, le'. Qed.

Lemma loaded_sequence le z :
  uint_range 32 z →
  load_unsigned le (store (negb le) 4 z) = swap_unsigned le 4 z.
Proof. intros. unfold swap_unsigned. by rewrite rev_store. Qed.

Lemma final_request le le' m m0 :
  message_wf m → is_time_request m = true →
  let m1 := (loaded_times le le' (loaded_header le le' m0 m) m) <| stringData := [] |> in
  (if xorb le le' then swap_fields le' m1 else m1) = received le le' m0 m.
Proof.
  intros Hwf Htr m1. destruct (decide (le = le')) as [<-|Hne].
  - rewrite xorb_nilpotent. unfold received. rewrite Bool.eqb_reflx, Htr.
    subst m1. rewrite native_fields by done. unfold loaded_times. simpl.
    by rewrite !load_signed_store by (lia || apply Hwf).
  - assert (le = negb le') as -> by (by destruct le, le').
    replace (xorb (negb le') le') with true by (by destruct le').
    rewrite (swapped_fields le' m); try (done || (rewrite Htr; done)).
    unfold received. replace (Bool.eqb (negb le') le') with false by (by destruct le').
    unfold is_time_request in *. subst m1. simpl. rewrite Htr.
    by rewrite loaded_sequence by apply Hwf.
Qed.

Lemma final_message le le' m m0 :
  message_wf m → is_time_request m = false →
  let m1 := (loaded_header le le' m0 m) <| Te := timeZero |> <| Tdemin := timeZero |>
              <| Tso := timeZero |>
              <| payload := if String.eqb (payload m) "" then payload m0 else payload m |>
              <| stringData := stringData m |> in
  (if xorb le le' then swap_fields le' m1 else m1) = received le le' m0 m.
Proof.
  intros Hwf Htr m1. destruct (decide (le = le')) as [<-|Hne].
  - rewrite xorb_nilpotent. unfold received. rewrite Bool.eqb_reflx, Htr.
    subst m1. by rewrite native_fields by done.
  - assert (le = negb le') as -> by (by destruct le, le').
    replace (xorb (negb le') le') with true by (by destruct le').
    rewrite (swapped_fields le' m); try (done || (rewrite Htr; done)).
    unfold received. replace (Bool.eqb (negb le') le') with false by (by destruct le').
    unfold is_time_request in *. subst m1. simpl. rewrite Htr.
    by rewrite loaded_sequence by apply Hwf.
Qed.

(** Reading an encoding back, on a host of the same or of the other byte order. *)
Lemma read_message_encode le le' m m0 extra :
  message_wf m →
  read_message le' (encode le m ++ extra) (Z.of_nat (length (encode le m))) m0
  = Ok (Z.of_nat (length (encode le m)), received le le' m0 m).
Proof.
  intros Hwf. pose proof (length_encode le m) as Hl. unfold encode in *.
  assert (uint_range 24 (string_size (payload m))) as Hp.
  { split; [apply string_size_nonneg|apply Hwf]. }
  pose proof (wf_total _ Hwf). pose proof (strings_size_nonneg (stringData m)).
  destruct (is_time_request m) eqn:Htr; rewrite Hl, <-!app_assoc.
  - unfold read_message. rewrite mem_read_app by done. cbn [mbind outcome_bind size_bytes].
    rewrite size_bytes_value by (unfold uint_range; lia). rewrite swap_bit.
    change (action_message_base_size + 0) with 45. simpl (69 <? 45). cbn iota.
    rewrite read_header_spec by done. cbn [mbind outcome_bind].
    assert (is_time_request (loaded_header le le' m0 m) = true) as -> by done.
    simpl (69 <? _). cbn iota. rewrite read_times_spec. cbn [mbind outcome_bind].
    unfold read_body. cbn [mbind outcome_bind Z.ltb Z.compare].
    rewrite mem_read_app by done. cbn [mbind outcome_bind].
    rewrite load_unsigned_byte by (unfold byte; lia).
    cbn [Z.eqb negb mbind outcome_bind]. f_equal. f_equal. by apply final_request.
  - unfold read_message. rewrite mem_read_app by done. cbn [mbind outcome_bind size_bytes].
    rewrite size_bytes_value by done. rewrite swap_bit.
    change action_message_base_size with 45. rewrite (proj2 (Z.ltb_ge _ _)) by lia.
    rewrite read_header_spec by done. cbn [mbind outcome_bind].
    assert (is_time_request (loaded_header le le' m0 m) = false) as -> by done.
    rewrite read_body_spec by (done || apply Hwf). cbv zeta.
    f_equal. f_equal. exact (final_message le le' m m0 Hwf Htr).
Qed.

Lemma encode_cons le m :
  ∃ tl, encode le m = (if le then 1 else 0) :: tl.
Proof. unfold encode, size_bytes. case_match; eexists; reflexivity. Qed.

Lemma encode_length_bounds le m :
  message_wf m → 45 ≤ Z.of_nat (length (encode le m)) < 2 ^ 31.
Proof.
  intros Hwf. rewrite length_encode. pose proof (wf_total _ Hwf).
  pose proof (string_size_nonneg (payload m)).
  pose proof (strings_size_nonneg (stringData m)). case_match; lia.
Qed.

Lemma fromByteArray_fuel_encode le le' m m0 fuel extra :
  message_wf m →
  fromByteArray_fuel le' (S fuel) (encode le m ++ extra)
    (Z.of_nat (length (encode le m))) m0
  = Ok (Z.of_nat (length (encode le m)), received le le' m0 m).
Proof.
  intros Hwf. pose proof (encode_length_bounds le m Hwf).
  cbn [fromByteArray_fuel]. change action_message_base_size with 45.
  rewrite (proj2 (Z.ltb_ge _ _)) by lia.
  destruct (encode_cons le m) as [tl Htl].
  assert (mem_read 1 (encode le m ++ extra) = Ok ([if le then 1 else 0], tl ++ extra)) as ->.
  { rewrite Htl. apply (mem_read_app 1 [_] (tl ++ extra)). done. }
  cbn [mbind outcome_bind].
  assert ((load_unsigned le' [if le then 1 else 0] =? LEADING_CHAR) = false) as ->.
  { rewrite load_unsigned_byte; [by destruct le|]. destruct le; unfold byte; lia. }
  by apply read_message_encode.
Qed.

(** The three bytes of the packet header are a big-endian 24-bit size. *)
Lemma packet_size_value n :
  uint_range 24 n →
  Z.shiftl (Z.shiftl (Z.land (Z.shiftr n 16) 255) 8 + Z.land (Z.shiftr n 8) 255) 8
    + Z.land n 255 = n.
Proof.
  intros Hn. rewrite !Z.shiftl_mul_pow2 by lia.
  pose proof (size_bytes_value n Hn) as Hv. unfold to_uint in Hv.
  change 255 with (Z.ones 8) in *.
  rewrite (Z.land_ones (Z.shiftr n 16)) by lia. lia.
Qed.

Lemma packetize_bytes le m :
  message_wf m →
  packetize le m =
    let n := 4 + Z.of_nat (length (encode le m)) in
    Ok ([LEADING_CHAR; Z.land (Z.shiftr n 16) 255; Z.land (Z.shiftr n 8) 255;
         Z.land n 255] ++ encode le m ++ [TAIL_CHAR1; TAIL_CHAR2]).
Proof.
  intros Hwf. pose proof (encode_length_bounds le m Hwf). unfold packetize.
  rewrite (serializedByteCount_length le) by done.
  rewrite (proj2 (Z.ltb_ge _ _)) by lia. rewrite Nat2Z.id, toByteArray_encode by done.
  cbn [mbind outcome_bind]. by rewrite to_uint_id by (unfold uint_range; lia).
Qed.

Lemma depacketize_encode le le' m m0 fuel :
  message_wf m → 4 + Z.of_nat (length (encode le m)) < 2 ^ 24 →
  let n := 4 + Z.of_nat (length (encode le m)) in
  depacketize_with le' (fromByteArray_fuel le' (S fuel))
    ([LEADING_CHAR; Z.land (Z.shiftr n 16) 255; Z.land (Z.shiftr n 8) 255;
      Z.land n 255] ++ encode le m ++ [TAIL_CHAR1; TAIL_CHAR2]) (n + 2) m0
  = Ok (n + 2, received le le' m0 m).
Proof.
  intros Hwf Hlt n. pose proof (encode_length_bounds le m Hwf).
  unfold depacketize_with.
  set (hd := [LEADING_CHAR; _; _; _]).
  assert (mem_read 1 (hd ++ encode le m ++ [TAIL_CHAR1; TAIL_CHAR2])
    = Ok ([LEADING_CHAR], tail hd ++ encode le m ++ [TAIL_CHAR1; TAIL_CHAR2])) as ->
    by (apply (mem_read_app 1 [LEADING_CHAR]); done).
  rewrite mem_read_app by done. cbn [mbind outcome_bind].
  rewrite load_unsigned_byte by (unfold byte; lia). rewrite Z.eqb_refl.
  cbn [negb]. rewrite (proj2 (Z.ltb_ge _ _)) by lia. subst hd. cbv beta iota.
  rewrite packet_size_value by (unfold uint_range; lia). rewrite Z.ltb_irrefl.
  set (hd := [LEADING_CHAR; _; _; _]).
  assert (drop (Z.to_nat n) (hd ++ encode le m ++ [TAIL_CHAR1; TAIL_CHAR2])
    = [TAIL_CHAR1] ++ [TAIL_CHAR2]) as ->.
  { rewrite app_assoc. rewrite drop_app_length'; [done|].
    rewrite length_app. subst hd. cbn [length]. lia. }
  rewrite mem_read_app by done. cbn [mbind outcome_bind].
  rewrite load_unsigned_byte by (unfold byte; lia). rewrite Z.eqb_refl.
  cbn [negb]. rewrite <-(app_nil_r [TAIL_CHAR2]), mem_read_app by done.
  cbn [mbind outcome_bind].
  rewrite load_unsigned_byte by (unfold byte; lia). rewrite Z.eqb_refl.
  cbn [negb]. rewrite to_uint_id, to_sint_id by (unfold sint_range, uint_range; lia).
  replace (n - 4) with (Z.of_nat (length (encode le m))) by lia.
  rewrite app_nil_r, fromByteArray_fuel_encode by done. cbn [mbind outcome_bind].
  by rewrite (proj2 (Z.ltb_lt _ _)) by lia.
Qed.

End reading.

(** ** Truncated input *)

Lemma take_app_add' {A} (l1 l2 : list A) n :
  (length l1 ≤ n)%nat → take n (l1 ++ l2) = l1 ++ take (n - length l1) l2.
Proof.
  intros. rewrite take_app. by rewrite take_ge by done.
Qed.

Section truncated.
  Context `{TimeRep}.

Lemma read_strings_truncated le le' strs j ii buffer_size tsize m0 :
  (4 * length strs ≤ j)%nat → (j < length (strings_bytes le strs))%nat →
  buffer_size = tsize - 4 * Z.of_nat (length strs) + Z.of_nat j →
  0 ≤ tsize → tsize + chars_size strs < 2 ^ 31 →
  ∃ m', read_strings le' (length strs) ii (xorb le le')
          (take j (strings_bytes le strs)) buffer_size tsize m0 = Ok (None, m')
        ∧ messageAction m' = cmd_invalid.
Proof.
  revert j ii tsize m0.
  induction strs as [|s strs IH]; intros j ii tsize m0 Hj Hlen Hb Ht Hmax;
    simpl strings_bytes in *; simpl length in *; simpl chars_size in *; [lia|].
  pose proof (string_size_nonneg s). pose proof (chars_size_nonneg strs).
  pose proof (length_bytes s) as Hs.
  assert (length (store le 4 (string_size s)) = 4%nat) as H4 by by rewrite length_store.
  rewrite !length_app in Hlen.
  rewrite take_app_add' by lia. cbn [read_strings].
  rewrite mem_read_app by lia. cbn [mbind outcome_bind]. rewrite corrected_bytes.
  rewrite load_unsigned_store_id by (unfold uint_range; lia).
  rewrite to_sint_id by (unfold sint_range; lia).
  destruct (Z.ltb_spec buffer_size (tsize + string_size s)) as [Hrej|Hok].
  { eexists. split; reflexivity. }
  rewrite take_app_add' by lia. rewrite mem_read_app by done. cbn [mbind outcome_bind].
  apply IH; lia.
Qed.

Lemma read_body_truncated le le' p strs j m0 :
  uint_range 24 (string_size p) → Z.of_nat (length strs) < 256 →
  45 + string_size p + strings_size strs < 2 ^ 31 →
  (j < length (strings_bytes le strs))%nat →
  ∃ m', read_body le' (string_size p) (45 + string_size p) (xorb le le')
          (bytes_of_string p ++ [Z.of_nat (length strs)] ++ take j (strings_bytes le strs))
          (45 + string_size p + Z.of_nat j) m0 = Ok (0, m')
        ∧ messageAction m' = cmd_invalid.
Proof.
  intros [Hp0 Hp1] Hc Hmax Hj. unfold read_body.
  assert (∃ m1, (if 0 <? string_size p then
      '(q, data) ← mem_read (string_size p) (bytes_of_string p ++
         [Z.of_nat (length strs)] ++ take j (strings_bytes le strs));
      Ok (m0 <| payload := string_of_bytes q |>, data)
    else Ok (m0, bytes_of_string p ++ [Z.of_nat (length strs)] ++ take j (strings_bytes le strs)))
    = Ok (m1, [Z.of_nat (length strs)] ++ take j (strings_bytes le strs))) as [m1 ->].
  { destruct (Z.ltb_spec 0 (string_size p)) as [Hpos|Hz].
    - rewrite mem_read_app by apply length_bytes. by eexists.
    - rewrite (string_size_zero p) by lia. by eexists. }
  cbn [mbind outcome_bind]. rewrite mem_read_app by done. cbn [mbind outcome_bind].
  rewrite load_unsigned_byte by (unfold byte; lia). rewrite Nat2Z.id.
  destruct strs as [|s strs]; [simpl in Hj; lia|]. set (strs' := s :: strs) in *.
  assert (0 < Z.of_nat (length strs')) by (simpl; lia).
  rewrite (proj2 (Z.eqb_neq _ _)) by lia. cbn [negb].
  destruct (Z.ltb_spec (45 + string_size p + Z.of_nat j)
    (45 + string_size p + 4 * Z.of_nat (length strs'))) as [Hlt|Hge].
  { eexists. split; reflexivity. }
  rewrite strings_size_chars in Hmax.
  destruct (read_strings_truncated le le' strs' j 0
    (45 + string_size p + Z.of_nat j) (45 + string_size p + 4 * Z.of_nat (length strs'))
    (m1 <| stringData := resize_strings (length strs') (stringData m1) |>))
    as (m' & -> & Hm'); [lia|done|lia|lia|lia|by eexists].
Qed.

Lemma read_message_truncated le le' m m0 k :
  message_wf m → (45 ≤ k)%nat → (k < length (encode le m))%nat →
  ∃ m', read_message le' (take k (encode le m)) (Z.of_nat k) m0 = Ok (0, m')
        ∧ messageAction m' = cmd_invalid.
Proof.
  intros Hwf Hk Hlen. pose proof (length_encode le m) as Hl. unfold encode in *.
  assert (uint_range 24 (string_size (payload m))) as Hp.
  { split; [apply string_size_nonneg|apply Hwf]. }
  pose proof (wf_total _ Hwf). pose proof (strings_size_nonneg (stringData m)).
  pose proof (length_field_bytes le m) as Hf. pose proof (length_bytes (payload m)) as Hpl.
  pose proof (length_strings_bytes le (stringData m)) as Hsl.
  pose proof Hp as [Hp0 Hp1].
  destruct (is_time_request m) eqn:Htr.
  all: rewrite take_app_add' by (cbn [length size_bytes]; lia).
  all: unfold read_message; rewrite mem_read_app by done.
  all: cbn [mbind outcome_bind size_bytes length].
  all: rewrite size_bytes_value by (done || (unfold uint_range; lia)); rewrite swap_bit.
  all: change action_message_base_size with 45.
  - rewrite (proj2 (Z.ltb_ge _ _)) by lia.
    rewrite take_app_add' by lia. rewrite read_header_spec by done. cbn [mbind outcome_bind].
    assert (is_time_request (loaded_header le le' m0 m) = true) as -> by done.
    rewrite (proj2 (Z.ltb_lt _ _)) by lia. eexists. split; reflexivity.
  - destruct (Z.ltb_spec (Z.of_nat k) (45 + string_size (payload m))) as [Hlt|Hge].
    { eexists. split; reflexivity. }
    rewrite take_app_add' by lia. rewrite read_header_spec by done. cbn [mbind outcome_bind].
    assert (is_time_request (loaded_header le le' m0 m) = false) as -> by done.
    rewrite take_app_add' by lia. rewrite take_app_add' by (cbn [length]; lia).
    cbn [length].
    set (j := (k - 4 - _ - _ - 1)%nat).
    replace (Z.of_nat k) with (45 + string_size (payload m) + Z.of_nat j) by lia.
    apply read_body_truncated; [done|apply Hwf|done|].
    rewrite !length_app in Hlen. cbn [length size_bytes] in Hlen. lia.
Qed.

End truncated.

(** ** The recursion bound *)

Section fuel.
  Context `{TimeRep}.

Lemma mem_read_length n data bs rest :
  0 ≤ n → mem_read n data = Ok (bs, rest) →
  (length data = Z.to_nat n + length rest)%nat.
Proof.
  unfold mem_read. intros Hn. case_match eqn:E; [done|]. intros [= <- <-].
  rewrite length_drop. bool_facts. lia.
Qed.

Lemma depacketize_with_ext le from from' data buffer_size m :
  (∀ rest sz m, (length rest < length data)%nat → from rest sz m = from' rest sz m) →
  depacketize_with le from data buffer_size m
  = depacketize_with le from' data buffer_size m.
Proof.
  intros Hext. unfold depacketize_with.
  destruct (mem_read 1 data) as [[b0 ?]| |]; [|done..]. cbn [mbind outcome_bind].
  repeat (case_match; [done|]).
  destruct (mem_read 4 data) as [[h rest]| |] eqn:Hr; [|done..]. cbn [mbind outcome_bind].
  apply mem_read_length in Hr; [|lia].
  do 5 (destruct h as [|? h]; try done). case_match; [done|].
  destruct (mem_read 1 _) as [[t1 rest1]| |]; [|done..]. cbn [mbind outcome_bind].
  case_match; [done|].
  destruct (mem_read 1 rest1) as [[t2 ?]| |]; [|done..]. cbn [mbind outcome_bind].
  case_match; [done|]. rewrite Hext by lia. done.
Qed.

(** The fuel of [fromByteArray] is enough: more of it gives the same outcome. *)
Lemma fromByteArray_fuel_enough le fuel data buffer_size m :
  (length data < fuel)%nat →
  fromByteArray_fuel le fuel data buffer_size m = fromByteArray le data buffer_size m.
Proof.
  unfold fromByteArray. remember (S (length data)) as n eqn:Hn.
  assert (length data < n)%nat as Hlt by lia. clear Hn.
  revert fuel data buffer_size m Hlt.
  induction n as [|n IH]; intros fuel data buffer_size m Hlt Hfuel; [lia|].
  destruct fuel as [|fuel]; [lia|]. cbn [fromByteArray_fuel]. case_match; [done|].
  destruct (mem_read 1 data) as [[b0 ?]| |]; [|done..]. cbn [mbind outcome_bind].
  case_match; [|done].
  rewrite (depacketize_with_ext le _ (fromByteArray_fuel le n)); [done|].
  intros rest sz m1 Hrest. apply IH; lia.
Qed.

End fuel.

(** ** Buffers smaller than the message *)

Lemma mem_write_length mem pos bs mem' :
  0 ≤ pos → mem_write mem pos bs = Ok mem' → length mem' = length mem.
Proof.
  unfold mem_write. intros Hp. case_match; [done|]. intros [= <-]. bool_facts.
  rewrite !length_app, length_take, length_drop. lia.
Qed.

Lemma mem_write_not_throw mem pos bs what : mem_write mem pos bs ≠ Throw what.
Proof. unfold mem_write. by case_match. Qed.

(** A write sequence whose continuation faults whatever was written faults. *)
Lemma mem_write_fault {A} mem pos bs (k : list Z → outcome A) :
  0 ≤ pos → (∀ mem', length mem' = length mem → k mem' = Fault) →
  (mem' ← mem_write mem pos bs; k mem') = Fault.
Proof.
  intros Hp Hk. destruct (mem_write mem pos bs) eqn:E; cbn [mbind outcome_bind].
  - eapply Hk, mem_write_length; eauto.
  - by apply mem_write_not_throw in E.
  - done.
Qed.

Lemma write_strings_overrun le strs mem pos buffer_size ssize :
  0 ≤ pos → Z.of_nat (length mem) < pos + strings_size strs →
  pos ≤ Z.of_nat (length mem) →
  to_sint 32 ssize ≤ buffer_size →
  write_strings le strs mem pos buffer_size ssize = Fault.
Proof.
  revert mem pos. induction strs as [|s strs IH]; intros mem pos Hp Hlt Hge Hb; simpl in *; [lia|].
  pose proof (string_size_nonneg s). pose proof (length_bytes s) as Hs.
  rewrite (proj2 (Z.ltb_ge _ _)) by lia.
  apply mem_write_fault; [done|]. intros mem1 Hm1.
  destruct (mem_write mem1 _ _) as [mem2| |] eqn:E; cbn [mbind outcome_bind]; [|by apply mem_write_not_throw in E|done].
  assert (length mem2 = length mem1) as Hm2 by (eapply mem_write_length, E; lia).
  unfold mem_write in E. case_match; [done|]. bool_facts.
  apply IH; lia.
Qed.

(** ** Properties of the byte format *)

Section properties.
  Context `{TimeRep}.


(** A packet ([packetize]: marker, 24-bit length, message, tail) is recognised by
    [fromByteArray] and yields the enclosed message and the size of the packet, for
    every message whose packet length fits in 24 bits. *)
Theorem packet_roundtrip le le' m m0 :
  message_wf m → 4 + Z.of_nat (length (encode le m)) < 2 ^ 24 →
  (data ← packetize le m; fromByteArray le' data (Z.of_nat (length data)) m0)
  = Ok (6 + Z.of_nat (length (encode le m)), received le le' m0 m).
Proof.
  intros Hwf Hlt. rewrite packetize_bytes by done. cbv zeta. cbn [mbind outcome_bind].
  pose proof (encode_length_bounds le m Hwf) as Hb.
  set (n := 4 + Z.of_nat (length (encode le m))) in *.
  set (data := _ ++ _ ++ _).
  assert (Z.of_nat (length data) = n + 2) as Hlen.
  { subst data. rewrite !length_app. cbn [length]. lia. }
  rewrite <-(fromByteArray_fuel_enough _ (S (S (length data)))) by lia.
  pose proof (depacketize_encode le le' m m0 (length data) Hwf Hlt) as Hde.
  cbv zeta in Hde. fold n data in Hde.
  rewrite Hlen. remember (S (length data)) as fuel. cbn [fromByteArray_fuel].
  change action_message_base_size with 45. rewrite (proj2 (Z.ltb_ge _ _)) by lia.
  assert (mem_read 1 data = Ok ([LEADING_CHAR], tail data)) as ->
    by (apply (mem_read_app 1 [LEADING_CHAR]); done).
  cbn [mbind outcome_bind].
  rewrite load_unsigned_byte by (unfold byte; lia). rewrite Z.eqb_refl.
  rewrite Hde. cbn [mbind outcome_bind]. rewrite (proj2 (Z.ltb_lt _ _)) by lia.
  by replace (n + 2) with (6 + Z.of_nat (length (encode le m))) by lia.
Qed.

(** C37. Every proper prefix of an encoded message is rejected: [fromByteArray]
    returns 0 and leaves the message marked [CMD_INVALID], without reading past the
    end of the buffer. *)
Theorem truncated_rejected le le' m m0 k :
  message_wf m → (k < length (encode le m))%nat →
  ∃ m', fromByteArray le' (take k (encode le m)) (Z.of_nat k) m0 = Ok (0, m')
        ∧ isValidCommand m' = false.
Proof.
  intros Hwf Hk. unfold fromByteArray. cbn [fromByteArray_fuel].
  change action_message_base_size with 45.
  destruct (Z.ltb_spec (Z.of_nat k) 45) as [Hlt|Hge]; [by eexists|].
  destruct (encode_cons le m) as [tl Htl].
  assert (mem_read 1 (take k (encode le m)) = Ok ([if le then 1 else 0], take (k - 1) tl)) as ->.
  { rewrite Htl. destruct k as [|k]; [lia|]. simpl. rewrite Nat.sub_0_r.
    by apply (mem_read_app 1 [_]). }
  cbn [mbind outcome_bind].
  assert ((load_unsigned le' [if le then 1 else 0] =? LEADING_CHAR) = false) as ->.
  { rewrite load_unsigned_byte; [by destruct le|]. destruct le; unfold byte; lia. }
  destruct (read_message_truncated le le' m m0 k Hwf) as (m' & -> & Hm'); [lia|done|].
  exists m'. unfold isValidCommand, action. by rewrite Hm'.
Qed.

(** C40. [toByteArray] checks the buffer against the fixed part and the payload only:
    into a buffer of [n] bytes that has room for these but not for the strings (or,
    for a time request, for the three further times) it writes past the end instead
    of returning -1. *)
Theorem toByteArray_overrun le m mem :
  message_wf m →
  action_message_base_size
    + (if is_time_request m then 0 else string_size (payload m)) ≤ Z.of_nat (length mem) →
  Z.of_nat (length mem) < serializedByteCount m →
  toByteArray le m (Some mem) (Z.of_nat (length mem)) = Fault.
Proof.
  intros Hwf Hlo Hhi. rewrite (serializedByteCount_length le), length_encode in Hhi by done.
  pose proof (wf_total _ Hwf) as Htot. pose proof (strings_size_nonneg (stringData m)).
  pose proof (string_size_nonneg (payload m)).
  unfold toByteArray. change action_message_base_size with 45 in *.
  rewrite payload_mask by done.
  set (ssize := if is_time_request m then 0 else string_size (payload m)) in *.
  assert (0 ≤ ssize ≤ string_size (payload m)) as Hss.
  { subst ssize. destruct (is_time_request m); lia. }
  rewrite (to_uint_id 32) by (unfold uint_range; lia).
  rewrite to_sint_id by (unfold sint_range; lia).
  rewrite (proj2 (Z.eqb_neq _ _)), (proj2 (Z.ltb_ge _ _)) by lia.
  cbn [orb]. apply mem_write_fault; [lia|]. intros mem1 Hm1.
  destruct (is_time_request m) eqn:Htr.
  - unfold mem_write. rewrite !length_app, !length_store by lia. cbn [length].
    by rewrite (proj2 (Z.ltb_lt _ _)) by lia.
  - apply mem_write_fault; [lia|]. intros mem2 Hm2.
    apply mem_write_fault; [lia|]. intros mem3 Hm3.
    apply write_strings_overrun; [lia..|].
    rewrite to_uint_id, to_sint_id by (unfold uint_range, sint_range; lia). lia.
Qed.

(** A 49-byte buffer announcing one string of 2^32 - 1 bytes. *)
Definition wrapping_buffer : list Z :=
  size_bytes true 0 ++ field_bytes true (newMessage cmd_pub) ++ [1; 255; 255; 255; 255].

(** The size of each string is an unsigned 32-bit number that [fromByteArray]
    adds to a signed total before comparing with the buffer: a size of 2^31 or more
    makes the total smaller, the check passes, and the string is read from beyond
    the end of the buffer. *)
Lemma fromByteArray_size_wrap m0 :
  fromByteArray true wrapping_buffer (Z.of_nat (length wrapping_buffer)) m0 = Fault.
Proof. vm_compute. reflexivity. Qed.

End properties.

(** ** Witnesses *)

Lemma sample_pub_wf : message_wf sample_pub.
Proof. split; vm_compute; try (split; congruence); repeat constructor; done. Defined.


Lemma packet_roundtrip_witness :
  (data ← packetize true sample_pub;
   fromByteArray true data (Z.of_nat (length data)) defaultMessage)
  = Ok (69, sample_pub).
Proof.
  exact (packet_roundtrip true true sample_pub defaultMessage sample_pub_wf eq_refl).
Defined.

Lemma truncated_rejected_witness :
  ∃ m', fromByteArray true (take 60 (encode true sample_pub)) 60 defaultMessage = Ok (0, m')
        ∧ isValidCommand m' = false.
Proof.
  apply (truncated_rejected true true sample_pub defaultMessage 60 sample_pub_wf).
  vm_compute. lia.
Defined.

Lemma toByteArray_overrun_witness :
  toByteArray true sample_pub (Some (replicate 48 0)) 48 = Fault.
Proof.
  apply (toByteArray_overrun true sample_pub (replicate 48 0) sample_pub_wf);
    vm_compute; congruence.
Defined.
