(* ===== verification/MultiMessage.v ===== *)
(** * Messages packed in a message (appendMessage of ActionMessage.cpp)

    A [cmd_multi_message] carries other messages in its string data, each in the byte
    format.  [appendAll] appends a list of them; the theorems say what is stored and
    what a receiver reads back. *)

From S2P Require Import Prelude HelicsTime Ids Flags ActionMessage MessageCodec CodecFacts.

Lemma bytes_of_string_of_bytes bs :
  Forall byte bs → bytes_of_string (string_of_bytes bs) = bs.
Proof.
  induction 1 as [|b bs Hb _ IH]; simpl; [done|]. unfold byte in Hb.
  rewrite IH, Ascii.N_ascii_embedding by lia. f_equal. lia.
Qed.

Section multi.
  Context `{TimeRep} (le : bool).
  Implicit Types (m multi : ActionMessage) (ms : list ActionMessage).

Lemma strings_bytes_byte strs : Forall byte (strings_bytes le strs).
Proof.
  induction strs as [|s strs IH]; simpl; [constructor|].
  repeat apply Forall_app_2; auto using store_byte, bytes_of_string_byte with lia.
Qed.

Lemma size_bytes_byte z : 0 ≤ z → Forall byte (size_bytes le z).
Proof.
  intros Hz. unfold size_bytes.
  assert (∀ x, 0 ≤ x → byte (Z.land x 255)) as Hland.
  { intros x Hx. change 255 with (Z.ones 8). rewrite Z.land_ones by lia.
    apply Z.mod_pos_bound. lia. }
  assert (0 ≤ Z.shiftr z 8) by (by apply Z.shiftr_nonneg).
  repeat constructor; try (apply Hland; done); try (by destruct le; unfold byte).
  - apply to_uint_range. lia.
  - apply (to_uint_range 8). lia.
Qed.

Lemma field_bytes_byte m : Forall byte (field_bytes le m).
Proof. unfold field_bytes. repeat apply Forall_app_2; apply store_byte; lia. Qed.

Lemma times_bytes_byte m : Forall byte (times_bytes le m).
Proof. unfold times_bytes. repeat apply Forall_app_2; apply store_byte; lia. Qed.

Lemma encode_byte m : message_wf m → Forall byte (encode le m).
Proof.
  intros Hwf. unfold encode. pose proof (wf_count _ Hwf).
  pose proof (string_size_nonneg (payload m)).
  case_match; rewrite !Forall_app; repeat split;
    auto using size_bytes_byte, field_bytes_byte, times_bytes_byte, bytes_of_string_byte,
      strings_bytes_byte with lia.
  all: repeat constructor; lia.
Qed.

Lemma resize_strings_snoc (l : list string) : resize_strings (S (length l)) l = l ++ [""].
Proof.
  unfold resize_strings. rewrite take_ge by lia.
  by replace (S (length l) - length l)%nat with 1%nat by lia.
Qed.

(** A multi message under construction: the counter is the number of its parts. *)
Definition multi_ok multi : Prop :=
  action multi = cmd_multi_message ∧ counter multi = Z.of_nat (length (stringData multi)).

Definition with_part multi m : ActionMessage :=
  multi <| counter := counter multi + 1 |>
        <| stringData := stringData multi ++ [string_of_bytes (encode le m)] |>.

Lemma appendMessage_part multi m :
  multi_ok multi → counter multi < 255 → message_wf m →
  appendMessage le multi m = Ok (counter multi + 1, with_part multi m).
Proof.
  intros [Ha Hc] Hlt Hwf. unfold appendMessage.
  rewrite bool_decide_true, (proj2 (Z.ltb_lt _ _)) by done. cbn [andb].
  rewrite to_string_encode by done. cbn [mbind outcome_bind]. unfold setString.
  rewrite (proj2 (Z.leb_gt _ _)), (proj2 (Z.ltb_ge _ _)) by lia.
  cbn -[resize_strings Z.leb]. rewrite (proj2 (Z.leb_le _ _)) by lia. cbn -[resize_strings].
  rewrite Hc, Nat2Z.id, resize_strings_snoc. unfold with_part. rewrite Hc.
  repeat f_equal.
  rewrite insert_app_r_alt by lia. by rewrite Nat.sub_diag.
Qed.

Lemma appendMessage_full multi m :
  multi_ok multi → counter multi = 255 → appendMessage le multi m = Ok (-1, multi).
Proof.
  intros [Ha Hc] Hfull. unfold appendMessage.
  by rewrite bool_decide_true, (proj2 (Z.ltb_ge _ _)) by (done || lia).
Qed.

Lemma with_part_ok multi m : multi_ok multi → multi_ok (with_part multi m).
Proof.
  intros [Ha Hc]. split; [done|]. cbn. rewrite length_app. cbn. lia.
Qed.

(** Appending a list of messages, ignoring the results as the callers do. *)
Fixpoint appendAll multi ms : outcome ActionMessage :=
  match ms with
  | [] => Ok multi
  | m :: ms => '(_, multi) ← appendMessage le multi m; appendAll multi ms
  end.

Lemma appendAll_spec multi ms :
  multi_ok multi → counter multi ≤ 255 → Forall message_wf ms →
  ∃ multi', appendAll multi ms = Ok multi' ∧ multi_ok multi' ∧
    stringData multi' = stringData multi ++
      ((λ m, string_of_bytes (encode le m)) <$> take (255 - length (stringData multi)) ms).
Proof.
  intros Hok Hle Hwf. revert multi Hok Hle.
  induction Hwf as [|m ms Hm _ IH]; intros multi Hok Hle; cbn [appendAll].
  { exists multi. rewrite take_nil, app_nil_r. done. }
  pose proof Hok as [_ Hc].
  destruct (decide (counter multi = 255)) as [Hfull|Hnot].
  - rewrite appendMessage_full by done. cbn [mbind outcome_bind].
    destruct (IH multi Hok Hle) as (multi' & -> & Hok' & Hd). exists multi'. rewrite Hd.
    replace (255 - _)%nat with 0%nat by lia. done.
  - rewrite appendMessage_part by (done || lia). cbn [mbind outcome_bind].
    destruct (IH (with_part multi m)) as (multi' & -> & Hok' & Hd);
      [by apply with_part_ok|cbn; lia|].
    exists multi'. split; [done|]. split; [done|]. rewrite Hd. cbn -[take].
    rewrite length_app. cbn [length]. rewrite <-app_assoc. f_equal.
    replace (255 - length (stringData multi))%nat
      with (S (255 - (length (stringData multi) + 1))) by lia. done.
Qed.

Lemma from_string_encode le' m m0 :
  message_wf m → from_string le' (encode le m) m0 = Ok (received le le' m0 m).
Proof.
  intros Hwf. pose proof (encode_length_bounds le m Hwf). unfold from_string, fromByteArray.
  rewrite to_sint_id by (unfold sint_range; lia).
  rewrite <-(app_nil_r (encode le m)) at 1 2.
  by rewrite fromByteArray_fuel_encode.
Qed.

(** Up to 255 messages appended to a new multi message are all there: its counter
    is their number, and reading its [i]-th string gives the [i]-th message, on a host
    of either byte order. *)
Theorem multi_message_roundtrip le' ms m0 :
  Forall message_wf ms → (length ms ≤ 255)%nat →
  ∃ multi, appendAll (newMessage cmd_multi_message) ms = Ok multi ∧
    counter multi = Z.of_nat (length ms) ∧
    ∀ i m, ms !! i = Some m →
      from_string le' (bytes_of_string (getString multi (Z.of_nat i))) m0
      = Ok (received le le' m0 m).
Proof.
  intros Hwf Hlen.
  destruct (appendAll_spec (newMessage cmd_multi_message) ms) as (multi & Happ & [_ Hc] & Hd);
    [done|done|done|]. cbn [stringData newMessage app] in Hd.
  rewrite take_ge in Hd by (cbn; lia). cbn in Hd. exists multi.
  split; [done|]. split; [by rewrite Hc, Hd, length_fmap|].
  intros i m Hi. pose proof (Forall_lookup_1 _ _ _ _ Hwf Hi) as Hm.
  assert (getString multi (Z.of_nat i) = string_of_bytes (encode le m)) as ->.
  { unfold getString, isValidIndex. rewrite Hd, length_fmap, Nat2Z.id, list_lookup_fmap, Hi.
    apply lookup_lt_Some in Hi. by rewrite (proj2 (Z.leb_le _ _)), (proj2 (Z.ltb_lt _ _)) by lia. }
  rewrite bytes_of_string_of_bytes by by apply encode_byte.
  by apply from_string_encode.
Qed.

End multi.

(** ** The size of the strings that were read

    A message that was read takes less room than the bytes it was read from, so the
    nesting of multi messages is bounded. *)

Section nesting.
  Context `{TimeRep} (le : bool).
  Implicit Types (m : ActionMessage) (data : list Z).

Lemma mem_read_split n data bs rest :
  mem_read n data = Ok (bs, rest) → (length bs + length rest = length data)%nat.
Proof.
  unfold mem_read. case_match; [done|]. intros [= <- <-].
  rewrite length_take, length_drop. lia.
Qed.

Lemma string_size_of_bytes bs : string_size (string_of_bytes bs) = Z.of_nat (length bs).
Proof.
  unfold string_size. f_equal. induction bs as [|b bs IH]; cbn; [done|]. by rewrite IH.
Qed.

Lemma chars_size_app l l' : chars_size (l ++ l') = chars_size l + chars_size l'.
Proof.
  unfold chars_size in *. induction l as [|x l IH]; cbn [foldr app]; [done|].
  rewrite IH. lia.
Qed.

Lemma read_strings_chars count ii swap data buffer_size tsize m res m' :
  read_strings le count ii swap data buffer_size tsize m = Ok (res, m') →
  length (stringData m) = (ii + count)%nat → messageAction m' ≠ cmd_invalid →
  chars_size (stringData m') ≤ chars_size (take ii (stringData m)) + Z.of_nat (length data).
Proof.
  revert ii data tsize m. induction count as [|count IH]; intros ii data tsize m.
  { cbn. intros [= <- <-] Hl _. rewrite take_ge by lia. lia. }
  cbn [read_strings]. intros E Hl Ha.
  destruct (mem_read 4 data) as [[bs d1]| |] eqn:R1; [|done..]. cbn [mbind outcome_bind] in E.
  case_match; [by injection E as <- <-|].
  destruct (mem_read _ d1) as [[s d2]| |] eqn:R2; [|done..]. cbn [mbind outcome_bind] in E.
  apply IH in E; [|cbn; rewrite length_insert; lia|done]. cbn [stringData upd] in E.
  rewrite (take_S_r _ _ (string_of_bytes s)) in E by (rewrite list_lookup_insert_eq; [done|lia]).
  rewrite take_insert_ge, chars_size_app in E by lia. cbn [chars_size foldr] in E.
  rewrite string_size_of_bytes in E. apply mem_read_split in R1, R2. lia.
Qed.

Lemma read_body_chars sz tsize swap data buffer_size m r m' :
  read_body le sz tsize swap data buffer_size m = Ok (r, m') →
  messageAction m' ≠ cmd_invalid →
  chars_size (stringData m') ≤ Z.of_nat (length data).
Proof.
  unfold read_body. intros E Ha.
  destruct (if 0 <? sz then _ else _) as [[m1 d1]| |] eqn:R1; [|done..].
  cbn [mbind outcome_bind] in E.
  destruct (mem_read 1 d1) as [[c d2]| |] eqn:R2; [|done..]. cbn [mbind outcome_bind] in E.
  assert (length d2 ≤ length data)%nat as Hd.
  { apply mem_read_split in R2. destruct (0 <? sz); [|injection R1 as <- <-; lia].
    destruct (mem_read sz data) as [[p d]| |] eqn:R3; [|done..]. injection R1 as <- <-.
    apply mem_read_split in R3. lia. }
  destruct (if negb _ then _ else _) as [[res m2]| |] eqn:R3; [|done..].
  cbn [mbind outcome_bind] in E.
  assert (messageAction m2 ≠ cmd_invalid ∧ stringData m' = stringData m2) as [Ha2 ->].
  { destruct res; injection E as <- <-; [|done]. destruct swap; [|done].
    revert Ha. unfold swap_fields. cbn zeta. by destruct (is_time_request _). }
  destruct (negb _); [|injection R3 as <- <-; cbn; lia].
  destruct (_ <? _) in R3; [by injection R3 as <- <-|].
  apply read_strings_chars in R3; [|cbn; apply length_resize_strings|done].
  rewrite take_0 in R3. cbn in R3. lia.
Qed.

(** The fields before the payload take bytes away. *)
Ltac reads_shrink E :=
  repeat match type of E with
  | (mbind _ (mem_read ?n ?d)) = _ =>
      let R := fresh "R" in
      destruct (mem_read n d) as [[? ?]| |] eqn:R; [|done..]; cbn [mbind outcome_bind] in E;
      apply mem_read_split in R
  end; injection E as <- <-; lia.
Lemma read_header_shrinks swap data m m' rest :
  read_header le swap data m = Ok (m', rest) → (length rest ≤ length data)%nat.
Proof. unfold read_header. intros E. reads_shrink E. Qed.
Lemma read_times_shrinks data m m' rest :
  read_times le data m = Ok (m', rest) → (length rest ≤ length data)%nat.
Proof. unfold read_times. intros E. reads_shrink E. Qed.

Lemma read_message_chars data buffer_size m r m' :
  read_message le data buffer_size m = Ok (r, m') → messageAction m' ≠ cmd_invalid →
  chars_size (stringData m') + 4 ≤ Z.of_nat (length data).
Proof.
  unfold read_message. intros E Ha.
  destruct (mem_read 4 data) as [[h d1]| |] eqn:R1; [|done..]. cbn [mbind outcome_bind] in E.
  assert (length data = 4 + length d1)%nat as Hd by (by apply mem_read_length in R1).
  do 5 (destruct h as [|? h]; try done). case_match; [by injection E as <- <-|].
  destruct (read_header _ _ _ _) as [[m1 d2]| |] eqn:R2; [|done..].
  cbn [mbind outcome_bind] in E.
  apply read_header_shrinks in R2.
  case_match.
  - case_match; [by injection E as <- <-|].
    destruct (read_times _ _ _) as [[m2 d3]| |] eqn:R3; [|done..].
    cbn [mbind outcome_bind] in E.
    apply read_times_shrinks in R3.
    apply read_body_chars in E; [lia|done].
  - apply read_body_chars in E; [lia|done].
Qed.

Lemma depacketize_chars from data buffer_size m r m' :
  (∀ data buffer_size m r m', from data buffer_size m = Ok (r, m') →
     messageAction m' ≠ cmd_invalid →
     chars_size (stringData m') + 4 ≤ Z.of_nat (length data)) →
  depacketize_with le from data buffer_size m = Ok (r, m') → (0 <? r) = true →
  messageAction m' ≠ cmd_invalid →
  chars_size (stringData m') + 4 ≤ Z.of_nat (length data).
Proof.
  intros Hfrom. unfold depacketize_with. intros E Hr Ha.
  destruct (mem_read 1 data) as [[b0 d]| |]; [|done..]. cbn [mbind outcome_bind] in E.
  destruct (negb _) in E; [by injection E as <- <-|].
  destruct (_ <? _) in E; [by injection E as <- <-|].
  destruct (mem_read 4 data) as [[h rest]| |] eqn:R4; [|done..].
  cbn [mbind outcome_bind] in E. apply mem_read_split in R4.
  do 5 (destruct h as [|? h]; try done).
  destruct (_ <? _) in E; [by injection E as <- <-|].
  destruct (mem_read 1 _) as [[t1 rest1]| |] in E; [|done..]. cbn [mbind outcome_bind] in E.
  destruct (negb _) in E; [by injection E as <- <-|].
  destruct (mem_read 1 rest1) as [[t2 rest2]| |]; [|done..]. cbn [mbind outcome_bind] in E.
  destruct (negb _) in E; [by injection E as <- <-|].
  destruct (from _ _ _) as [[used m1]| |] eqn:R; [|done..]. cbn [mbind outcome_bind] in E.
  injection E as _ <-. apply Hfrom in R; [lia|done].
Qed.

Lemma fromByteArray_chars fuel data buffer_size m r m' :
  fromByteArray_fuel le fuel data buffer_size m = Ok (r, m') →
  messageAction m' ≠ cmd_invalid →
  chars_size (stringData m') + 4 ≤ Z.of_nat (length data).
Proof.
  revert data buffer_size m r m'.
  induction fuel as [|fuel IH]; intros data buffer_size m r m' E Ha; [done|].
  cbn [fromByteArray_fuel] in E. destruct (_ <? _) in E; [by injection E as <- <-|].
  destruct (mem_read 1 data) as [[b0 d]| |]; [|done..]. cbn [mbind outcome_bind] in E.
  destruct (_ =? _) in E; [|by eapply read_message_chars].
  destruct (depacketize_with _ _ _ _ _) as [[res m1]| |] eqn:R; [|done..].
  cbn [mbind outcome_bind] in E.
  destruct (0 <? res) eqn:Hres; [|by eapply read_message_chars].
  injection E as <- <-. by eapply depacketize_chars.
Qed.

Lemma from_string_chars data m m' :
  from_string le data m = Ok m' → messageAction m' ≠ cmd_invalid →
  chars_size (stringData m') < Z.of_nat (length data).
Proof.
  unfold from_string, fromByteArray. intros E Ha.
  destruct (fromByteArray_fuel _ _ _ _ _) as [[r m1]| |] eqn:R; [|done..].
  cbn in E. injection E as ->. apply fromByteArray_chars in R; [lia|done].
Qed.
End nesting.

Lemma multi_message_roundtrip_witness :
  ∃ multi, appendAll true (newMessage cmd_multi_message) [sample_pub; sample_pub] = Ok multi ∧
    counter multi = 2 ∧
    ∀ i m, [sample_pub; sample_pub] !! i = Some m →
      from_string false (bytes_of_string (getString multi (Z.of_nat i))) defaultMessage
      = Ok (received true false defaultMessage m).
Proof.
  apply (multi_message_roundtrip true false [sample_pub; sample_pub] defaultMessage).
  - repeat constructor; apply sample_pub_wf.
  - simpl. lia.
Defined.
