(* ===== verification/Definitions.v ===== *)
(** * Property, flag and option codes (src/src/helics/helics_enums.h)

    The integer codes that the federate interface uses to name properties, flags and
    handle options; src/src/helics/core/helics_definitions.hpp gives the same values
    shorter names.  Also the result enumeration of message processing, and the
    formatting library as a class. *)

From stdpp Require Import strings.
From S2P Require Import Prelude.

(** [helics_federate_flags] *)
Abbreviation helics_flag_observer := (0)%Z (only parsing).
Abbreviation helics_flag_uninterruptible := (1)%Z (only parsing).
Abbreviation helics_flag_interruptible := (2)%Z (only parsing).
Abbreviation helics_flag_source_only := (4)%Z (only parsing).
Abbreviation helics_flag_only_transmit_on_change := (6)%Z (only parsing).
Abbreviation helics_flag_only_update_on_change := (8)%Z (only parsing).
Abbreviation helics_flag_wait_for_current_time_update := (10)%Z (only parsing).
Abbreviation helics_flag_restrictive_time_policy := (11)%Z (only parsing).
Abbreviation helics_flag_rollback := (12)%Z (only parsing).
Abbreviation helics_flag_forward_compute := (14)%Z (only parsing).
Abbreviation helics_flag_realtime := (16)%Z (only parsing).
Abbreviation helics_flag_single_thread_federate := (27)%Z (only parsing).
Abbreviation helics_flag_slow_responding := (29)%Z (only parsing).
Abbreviation helics_flag_delay_init_entry := (45)%Z (only parsing).
Abbreviation helics_flag_enable_init_entry := (47)%Z (only parsing).
Abbreviation helics_flag_ignore_time_mismatch_warnings := (67)%Z (only parsing).
Abbreviation helics_flag_terminate_on_error := (72)%Z (only parsing).

(** [helics_properties] *)
Abbreviation helics_property_time_delta := (137)%Z (only parsing).
Abbreviation helics_property_time_period := (140)%Z (only parsing).
Abbreviation helics_property_time_offset := (141)%Z (only parsing).
Abbreviation helics_property_time_rt_lag := (143)%Z (only parsing).
Abbreviation helics_property_time_rt_lead := (144)%Z (only parsing).
Abbreviation helics_property_time_rt_tolerance := (145)%Z (only parsing).
Abbreviation helics_property_time_input_delay := (148)%Z (only parsing).
Abbreviation helics_property_time_output_delay := (150)%Z (only parsing).
Abbreviation helics_property_int_max_iterations := (259)%Z (only parsing).
Abbreviation helics_property_int_log_level := (271)%Z (only parsing).
Abbreviation helics_property_int_file_log_level := (272)%Z (only parsing).
Abbreviation helics_property_int_console_log_level := (274)%Z (only parsing).

(** [helics_handle_options] *)
Abbreviation helics_handle_option_connection_required := (397)%Z (only parsing).
Abbreviation helics_handle_option_connection_optional := (402)%Z (only parsing).
Abbreviation helics_handle_option_single_connection_only := (407)%Z (only parsing).
Abbreviation helics_handle_option_multiple_connections_allowed := (409)%Z (only parsing).
Abbreviation helics_handle_option_buffer_data := (411)%Z (only parsing).
Abbreviation helics_handle_option_strict_type_checking := (414)%Z (only parsing).
Abbreviation helics_handle_option_ignore_unit_mismatch := (447)%Z (only parsing).
Abbreviation helics_handle_option_only_transmit_on_change := (452)%Z (only parsing).
Abbreviation helics_handle_option_only_update_on_change := (454)%Z (only parsing).
Abbreviation helics_handle_option_ignore_interrupts := (475)%Z (only parsing).
Abbreviation helics_handle_option_multi_input_handling_method := (507)%Z (only parsing).
Abbreviation helics_handle_option_input_priority_location := (510)%Z (only parsing).
Abbreviation helics_handle_option_clear_priority_list := (512)%Z (only parsing).
Abbreviation helics_handle_option_connections := (522)%Z (only parsing).

(** The error codes of the modelled components. *)
Abbreviation helics_ok := (0)%Z (only parsing).
Abbreviation helics_error_connection_failure := (-2)%Z (only parsing).
Abbreviation helics_error_registration_failure := (-1)%Z (only parsing).

(** The log levels of the modelled components. *)
Abbreviation helics_log_level_error := (0)%Z (only parsing).
Abbreviation helics_log_level_warning := (1)%Z (only parsing).

(** [fmt::format]: the arguments are strings and integers. *)
Inductive fmt_arg := FStr (s : string) | FInt (z : Z).
Class Fmt := fmt_format : string → list fmt_arg → string.

(** [enum class message_processing_result] of core-types.hpp *)
Inductive message_processing_result :=
  | continue_processing
  | delay_message
  | next_step
  | mpr_iterating
  | halted
  | mpr_error.

Definition message_processing_code (r : message_processing_result) : Z :=
  match r with
  | continue_processing => -2
  | delay_message => -1
  | next_step => 0
  | mpr_iterating => 2
  | halted => 3
  | mpr_error => 7
  end.

(** [returnableResult] *)
Definition returnableResult (result : message_processing_result) : bool :=
  message_processing_code next_step <=? message_processing_code result.

#[export] Instance message_processing_result_eq_dec : EqDecision message_processing_result.
Proof. solve_decision. Defined.

(** [enum class message_process_result] of TimeCoordinator.hpp *)
Inductive message_process_result := no_effect | processed | delay_processing.

#[export] Instance message_process_result_eq_dec : EqDecision message_process_result.
Proof. solve_decision. Defined.
