(* ===== verification/TimeDependencies.v ===== *)
(** * Dependency tracking (src/src/helics/core/TimeDependencies.hpp, .cpp)

    What a federate or broker knows of the objects whose time it depends on: one
    [DependencyInfo] per object, kept in a vector sorted by federate id and searched
    with [std::lower_bound].  The operations are shown to refine a finite map from
    federate ids to their information. *)

From S2P Require Import Prelude HelicsTime Ids Flags ActionMessage.

(** [DependencyInfo::time_state_t] and the values of its enumerators. *)
Inductive time_state_t :=
  | initialized
  | exec_requested_iterative
  | exec_requested
  | time_granted
  | time_requested_iterative
  | time_requested
  | ts_error.

Definition time_state_code (s : time_state_t) : Z :=
  match s with
  | initialized => 0
  | exec_requested_iterative => 1
  | exec_requested => 2
  | time_granted => 3
  | time_requested_iterative => 4
  | time_requested => 5
  | ts_error => 7
  end.

#[export] Instance time_state_eq_dec : EqDecision time_state_t.
Proof. solve_decision. Defined.

(** [class DependencyInfo] *)
Record DependencyInfo := mkDependencyInfo {
  fedID : global_federate_id;
  minFed : global_federate_id;
  time_state : time_state_t;
  cyclic : bool;
  Tnext : Time;
  dep_Te : Time;
  dep_Tdemin : Time;
  forwardEvent : Time;
}.

#[export] Instance eta_DependencyInfo : Eta DependencyInfo := λ d,
  mkDependencyInfo (fedID d) (minFed d) (time_state d) (cyclic d) (Tnext d) (dep_Te d)
    (dep_Tdemin d) (forwardEvent d).

Section operations.
  Context `{TimeRep}.
  Implicit Types (d : DependencyInfo) (l : list DependencyInfo) (m : ActionMessage).

(** The constructor from a federate id (the default one leaves the id invalid). *)
Definition newDependencyInfo (id : global_federate_id) : DependencyInfo := {|
  fedID := id; minFed := invalid_global_fed_id; time_state := initialized;
  cyclic := false; Tnext := negEpsilon; dep_Te := timeZero; dep_Tdemin := timeZero;
  forwardEvent := Time_maxVal |}.

(** The common end of the event branches: [if (Te < Tdemin) { Tdemin = Te; }]. *)
Definition limitTdemin d : DependencyInfo :=
  if dep_Te d <? dep_Tdemin d then d <| dep_Tdemin := dep_Te d |> else d.

(** The branch of the six disconnect commands and of the two error commands. *)
Definition noFurtherTime (s : time_state_t) d : DependencyInfo :=
  d <| time_state := s |> <| Tnext := Time_maxVal |> <| dep_Te := Time_maxVal |>
    <| dep_Tdemin := Time_maxVal |> <| minFed := invalid_global_fed_id |>.

(** [bool DependencyInfo::ProcessMessage(const ActionMessage& m)] *)
Definition ProcessMessage d m : DependencyInfo * bool :=
  match action m with
  | cmd_exec_request =>
      (d <| time_state := if checkActionFlag m iteration_requested_flag
                          then exec_requested_iterative else exec_requested |>, true)
  | cmd_exec_grant =>
      if negb (checkActionFlag m iteration_requested_flag) then
        (d <| time_state := time_granted |> <| Tnext := timeZero |>
           <| dep_Tdemin := timeZero |> <| dep_Te := timeZero |>, true)
      else (d <| time_state := initialized |>, true)
  | cmd_time_request =>
      let d := d <| time_state := if checkActionFlag m iteration_requested_flag
                                  then time_requested_iterative else time_requested |>
                 <| Tnext := actionTime m |> <| dep_Te := Te m |>
                 <| dep_Tdemin := Tdemin m |> in
      let d := if forwardEvent d <? dep_Te d then d <| dep_Te := forwardEvent d |> else d in
      let d := limitTdemin d in
      (d <| forwardEvent := Time_maxVal |> <| minFed := source_handle m |>, true)
  | cmd_time_grant =>
      (d <| time_state := time_granted |> <| Tnext := actionTime m |>
         <| dep_Te := actionTime m |> <| dep_Tdemin := actionTime m |>
         <| minFed := source_handle m |>, true)
  | cmd_disconnect | cmd_priority_disconnect | cmd_broadcast_disconnect
  | cmd_disconnect_core | cmd_disconnect_broker | cmd_disconnect_fed =>
      (noFurtherTime time_granted d, true)
  | cmd_local_error | cmd_global_error => (noFurtherTime ts_error d, true)
  | cmd_send_message =>
      if bool_decide (time_state d = time_granted) then
        (if actionTime m <? forwardEvent d then d <| forwardEvent := actionTime m |> else d,
         false)
      else if Tnext d <=? actionTime m then
        if actionTime m <? dep_Te d then
          (limitTdemin (d <| dep_Te := Z.max (Tnext d) (actionTime m) |>), true)
        else (d, false)
      else if Tnext d <? dep_Te d then
        (limitTdemin (d <| dep_Te := Tnext d |>), true)
      else (d, false)
  | _ => (d, false)
  end.

(** ** [class TimeDependencies]: the vector [dependencies] *)

Definition dependencyCompare (dep : DependencyInfo) (target : global_federate_id) : bool :=
  fedID dep <? target.

Definition isDependency l (ofed : global_federate_id) : bool :=
  match l !! lower_bound dependencyCompare l ofed with
  | None => false
  | Some res => fedID res =? ofed
  end.

(** The position the non-const [getDependencyInfo] points to, and the information
    the const overload gives. *)
Definition getDependencyIndex l (id : global_federate_id) : option nat :=
  let res := lower_bound dependencyCompare l id in
  match l !! res with
  | None => None
  | Some dep => if negb (fedID dep =? id) then None else Some res
  end.
Definition getDependencyInfo l (id : global_federate_id) : option DependencyInfo :=
  match getDependencyIndex l id with
  | None => None
  | Some res => l !! res
  end.

Definition addDependency l (id : global_federate_id) : list DependencyInfo * bool :=
  if bool_decide (l = []) then ([newDependencyInfo id], true)
  else
    let dep := lower_bound dependencyCompare l id in
    match l !! dep with
    | None => (l ++ [newDependencyInfo id], true)
    | Some d => if fedID d =? id then (l, false)
                else (vec_insert dep (newDependencyInfo id) l, true)
    end.

Definition removeDependency l (id : global_federate_id) : list DependencyInfo :=
  let dep := lower_bound dependencyCompare l id in
  match l !! dep with
  | None => l
  | Some d => if fedID d =? id then vec_erase dep l else l
  end.

(** The object a message informs about: the receiver of a [send_message], the
    source otherwise. *)
Definition dependency_id m : global_federate_id :=
  if negb (bool_decide (action m = cmd_send_message)) then source_id m else dest_id m.

Definition updateTime l m : list DependencyInfo * bool :=
  match getDependencyIndex l (dependency_id m) with
  | None => (l, false)
  | Some i =>
      match l !! i with
      | None => (l, false)
      | Some depInfo =>
          let '(d, res) := ProcessMessage depInfo m in (<[i := d]> l, res)
      end
  end.

Definition checkIfReadyForExecEntry l (iterating : bool) : bool :=
  if iterating then
    negb (existsb (λ dep, bool_decide (time_state dep = initialized)) l)
  else
    negb (existsb (λ dep, time_state_code (time_state dep) <? time_state_code exec_requested) l).

Definition hasActiveTimeDependencies l : bool :=
  existsb (λ dep, isFederate (fedID dep) && (Tnext dep <? Time_maxVal)) l.

Definition resetIteratingExecRequests l : list DependencyInfo :=
  (λ dep, if bool_decide (time_state dep = exec_requested_iterative)
          then dep <| time_state := initialized |> else dep) <$> l.

(** The two loops of [checkIfReadyForTimeGrant]. *)
Fixpoint readyLoop_iterating l (desiredGrantTime : Time) : bool :=
  match l with
  | [] => true
  | dep :: l =>
      if Tnext dep <? desiredGrantTime then false
      else if (Tnext dep =? desiredGrantTime)
              && bool_decide (time_state dep = time_granted) then false
      else readyLoop_iterating l desiredGrantTime
  end.
Fixpoint readyLoop l (desiredGrantTime : Time) : bool :=
  match l with
  | [] => true
  | dep :: l =>
      if Tnext dep <? desiredGrantTime then false
      else if Tnext dep =? desiredGrantTime then
        if bool_decide (time_state dep = time_granted) then false
        else readyLoop l desiredGrantTime
      else readyLoop l desiredGrantTime
  end.
Definition checkIfReadyForTimeGrant l (iterating : bool) (desiredGrantTime : Time) : bool :=
  if iterating then readyLoop_iterating l desiredGrantTime
  else readyLoop l desiredGrantTime.

Definition resetIteratingTimeRequests l (requestTime : Time) : list DependencyInfo :=
  (λ dep, if bool_decide (time_state dep = time_requested_iterative) then
            if Tnext dep =? requestTime then
              dep <| time_state := time_granted |> <| dep_Te := requestTime |>
                  <| dep_Tdemin := requestTime |>
            else dep
          else dep) <$> l.

Definition resetDependentEvents l (grantTime : Time) : list DependencyInfo :=
  (λ dep, dep <| dep_Te := Z.max (Tnext dep) grantTime |>
              <| dep_Tdemin := Z.max (Tnext dep) grantTime |>) <$> l.

(** ** Specification: a finite map from federate ids to their information *)

Definition deps_sorted l : Prop := key_sorted fedID l.
Definition deps_map l : gmap Z DependencyInfo := key_map fedID l.

(** The mutating operations, on the vector and on the map. *)
Inductive dep_op :=
  | OpAdd (id : global_federate_id)
  | OpRemove (id : global_federate_id)
  | OpUpdate (m : ActionMessage)
  | OpResetExec
  | OpResetTime (requestTime : Time)
  | OpResetEvents (grantTime : Time).

Definition dep_run l (op : dep_op) : list DependencyInfo * bool :=
  match op with
  | OpAdd id => addDependency l id
  | OpRemove id => (removeDependency l id, true)
  | OpUpdate m => updateTime l m
  | OpResetExec => (resetIteratingExecRequests l, true)
  | OpResetTime t => (resetIteratingTimeRequests l t, true)
  | OpResetEvents t => (resetDependentEvents l t, true)
  end.

Definition spec_run (M : gmap Z DependencyInfo) (op : dep_op)
    : gmap Z DependencyInfo * bool :=
  match op with
  | OpAdd id =>
      match M !! id with
      | Some _ => (M, false)
      | None => (<[id := newDependencyInfo id]> M, true)
      end
  | OpRemove id => (delete id M, true)
  | OpUpdate m =>
      match M !! dependency_id m with
      | Some d => (<[dependency_id m := (ProcessMessage d m).1]> M, (ProcessMessage d m).2)
      | None => (M, false)
      end
  | OpResetExec =>
      ((λ d, if bool_decide (time_state d = exec_requested_iterative)
             then d <| time_state := initialized |> else d) <$> M, true)
  | OpResetTime t =>
      ((λ d, if bool_decide (time_state d = time_requested_iterative ∧ Tnext d = t)
             then d <| time_state := time_granted |> <| dep_Te := t |> <| dep_Tdemin := t |>
             else d) <$> M, true)
  | OpResetEvents t =>
      ((λ d, d <| dep_Te := Z.max (Tnext d) t |> <| dep_Tdemin := Z.max (Tnext d) t |>) <$> M,
       true)
  end.

(** ** Lemmas *)

Lemma lower_bound_deps l id :
  deps_sorted l →
  lower_bound dependencyCompare l id = prefix_len (λ d, fedID d <? id) l.
Proof. apply lower_bound_key_sorted. Qed.

(** The search result, by what the map holds. *)
Lemma deps_search l id :
  deps_sorted l →
  deps_map l !! id =
    match l !! prefix_len (λ d, fedID d <? id) l with
    | Some d => if fedID d =? id then Some d else None
    | None => None
    end.
Proof. intros. unfold deps_map. by rewrite key_map_lookup, key_lookup_sorted. Qed.

Lemma getDependencyIndex_spec l id :
  deps_sorted l →
  match getDependencyIndex l id with
  | Some i => ∃ d, l !! i = Some d ∧ fedID d = id ∧ deps_map l !! id = Some d
  | None => deps_map l !! id = None
  end.
Proof.
  intros Hs. rewrite deps_search by done. unfold getDependencyIndex.
  rewrite lower_bound_deps by done.
  destruct (l !! prefix_len _ l) as [d|] eqn:E; [|done].
  destruct (Z.eqb_spec (fedID d) id); simpl; eauto.
Qed.

Lemma getDependencyInfo_spec l id :
  deps_sorted l → getDependencyInfo l id = deps_map l !! id.
Proof.
  intros Hs. unfold getDependencyInfo. pose proof (getDependencyIndex_spec l id Hs) as Hi.
  destruct (getDependencyIndex l id) as [i|]; [|done].
  destruct Hi as (d & Hd & _ & ->). done.
Qed.

Lemma isDependency_spec l id :
  deps_sorted l → isDependency l id = bool_decide (is_Some (deps_map l !! id)).
Proof.
  intros Hs. unfold isDependency. rewrite deps_search, lower_bound_deps by done.
  destruct (l !! prefix_len _ l) as [d|]; [|done].
  by destruct (fedID d =? id).
Qed.

(** All three insertions of [addDependency] are an insertion at the lower bound. *)
Lemma addDependency_eq l id :
  deps_sorted l →
  addDependency l id =
    match deps_map l !! id with
    | Some _ => (l, false)
    | None => (vec_insert (prefix_len (λ d, fedID d <? id) l) (newDependencyInfo id) l, true)
    end.
Proof.
  intros Hs. unfold addDependency. rewrite deps_search, lower_bound_deps by done.
  case_bool_decide as Hl; [by subst|].
  destruct (l !! prefix_len _ l) as [d|] eqn:E.
  - by destruct (fedID d =? id).
  - rewrite vec_insert_end; [done|]. by apply lookup_ge_None.
Qed.

Lemma removeDependency_eq l id :
  deps_sorted l →
  removeDependency l id =
    match deps_map l !! id with
    | Some _ => vec_erase (prefix_len (λ d, fedID d <? id) l) l
    | None => l
    end.
Proof.
  intros Hs. unfold removeDependency. rewrite deps_search, lower_bound_deps by done.
  destruct (l !! prefix_len _ l) as [d|]; [|done]. by destruct (fedID d =? id).
Qed.

Lemma ProcessMessage_fedID d m : fedID (ProcessMessage d m).1 = fedID d.
Proof. unfold ProcessMessage, limitTdemin. repeat case_match; done. Qed.

Lemma updateTime_spec l m :
  deps_sorted l →
  deps_sorted (updateTime l m).1 ∧
  (deps_map (updateTime l m).1, (updateTime l m).2) = spec_run (deps_map l) (OpUpdate m).
Proof.
  intros Hs. unfold updateTime, spec_run.
  pose proof (getDependencyIndex_spec l (dependency_id m) Hs) as Hi.
  destruct (getDependencyIndex l _) as [i|]; [|by rewrite Hi].
  destruct Hi as (d & Hd & Hid & ->). rewrite Hd.
  pose proof (ProcessMessage_fedID d m) as Hf.
  destruct (ProcessMessage d m) as [d' b]. simpl in *. split.
  - by eapply key_sorted_update.
  - unfold deps_map. by rewrite (key_map_update _ _ d), Hid by done.
Qed.

Lemma dep_run_refines l op :
  deps_sorted l →
  deps_sorted (dep_run l op).1 ∧
  (deps_map (dep_run l op).1, (dep_run l op).2) = spec_run (deps_map l) op.
Proof.
  intros Hs. destruct op as [id|id|m| |t|t]; cbn [dep_run].
  - rewrite addDependency_eq by done. cbn [spec_run].
    destruct (deps_map l !! id) eqn:E; [done|]. cbn [fst snd].
    split; [|unfold deps_map; by rewrite key_map_insert].
    apply key_sorted_insert; [done..|]. rewrite <-key_map_lookup. exact E.
  - rewrite removeDependency_eq by done. cbn [spec_run fst snd].
    destruct (deps_map l !! id) eqn:E.
    + split; [by apply key_sorted_erase|]. unfold deps_map. by rewrite key_map_erase.
    + by rewrite delete_id.
  - by apply updateTime_spec.
  - split; [apply key_sorted_fmap; [|done]|cbn; unfold deps_map; f_equal; apply key_map_fmap];
      intros d; by case_bool_decide.
  - cbn [fst snd spec_run]. unfold resetIteratingTimeRequests.
    split; [apply key_sorted_fmap; [|done]; intros d; by repeat case_match|].
    unfold deps_map. rewrite key_map_fmap by (intros d; by repeat case_match).
    f_equal. apply map_fmap_ext. intros id d _. case_bool_decide as H1.
    + destruct (Z.eqb_spec (Tnext d) t); [by rewrite bool_decide_true|].
      by rewrite bool_decide_false by tauto.
    + by rewrite bool_decide_false by tauto.
  - split; [by apply key_sorted_fmap|]. cbn. f_equal. by apply key_map_fmap.
Qed.

(** Sequences of operations, with the results they return. *)
Fixpoint dep_trace l (ops : list dep_op) : list DependencyInfo * list bool :=
  match ops with
  | [] => (l, [])
  | op :: ops =>
      let '(l1, r) := dep_run l op in
      let '(l2, rs) := dep_trace l1 ops in (l2, r :: rs)
  end.
Fixpoint spec_trace (M : gmap Z DependencyInfo) (ops : list dep_op)
    : gmap Z DependencyInfo * list bool :=
  match ops with
  | [] => (M, [])
  | op :: ops =>
      let '(M1, r) := spec_run M op in
      let '(M2, rs) := spec_trace M1 ops in (M2, r :: rs)
  end.

Lemma dep_trace_refines l ops :
  deps_sorted l →
  deps_sorted (dep_trace l ops).1 ∧
  (deps_map (dep_trace l ops).1, (dep_trace l ops).2) = spec_trace (deps_map l) ops.
Proof.
  revert l. induction ops as [|op ops IH]; intros l Hs; [done|]. cbn [dep_trace spec_trace].
  destruct (dep_run_refines l op Hs) as [Hs1 Hr].
  destruct (dep_run l op) as [l1 r]. cbn [fst snd] in *. rewrite <-Hr.
  destruct (IH l1 Hs1) as [Hs2 Hr2]. destruct (dep_trace l1 ops) as [l2 rs].
  cbn [fst snd] in *. by rewrite <-Hr2.
Qed.

(** What a message or a reset leaves true of each entry: the earliest event of the
    dependencies of a federate is no later than its own. *)
Definition events_ordered d : Prop := dep_Tdemin d ≤ dep_Te d.

Lemma limitTdemin_ordered d : events_ordered (limitTdemin d).
Proof.
  unfold limitTdemin, events_ordered.
  destruct (Z.ltb_spec (dep_Te d) (dep_Tdemin d)); simpl; lia.
Qed.

Lemma ProcessMessage_ordered d m :
  events_ordered d → events_ordered (ProcessMessage d m).1.
Proof.
  intros Hd. unfold ProcessMessage.
  destruct (action m); try exact Hd; cbv zeta;
    repeat case_match; try exact Hd; try apply limitTdemin_ordered; try apply Z.le_refl.
  all: unfold events_ordered; cbn; apply limitTdemin_ordered.
Qed.

Lemma dep_run_ordered l op :
  Forall events_ordered l → Forall events_ordered (dep_run l op).1.
Proof.
  intros Hl.
  assert (∀ id, events_ordered (newDependencyInfo id)) as Hnew by (intros; apply Z.le_refl).
  destruct op as [id|id|m| |t|t]; cbn [dep_run fst].
  - unfold addDependency, vec_insert.
    repeat case_match; cbn [fst];
      auto 6 using Forall_app_2, Forall_take, Forall_drop, Forall_cons_2, Forall_nil_2.
  - unfold removeDependency, vec_erase.
    repeat case_match; cbn [fst];
      auto 6 using Forall_app_2, Forall_take, Forall_drop, Forall_cons_2, Forall_nil_2.
  - unfold updateTime. destruct (getDependencyIndex l _) as [i|]; [|done].
    destruct (l !! i) as [d|] eqn:E; [|done].
    pose proof (ProcessMessage_ordered d m (Forall_lookup_1 _ _ _ _ Hl E)).
    destruct (ProcessMessage d m). by apply Forall_insert.
  - apply Forall_fmap. eapply Forall_impl; [exact Hl|]. intros d Hd. cbn. by case_match.
  - apply Forall_fmap. eapply Forall_impl; [exact Hl|]. intros d Hd. cbn.
    repeat case_match; try done. apply Z.le_refl.
  - apply Forall_fmap, Forall_true. intros d. apply Z.le_refl.
Qed.

Lemma dep_trace_ordered l ops :
  Forall events_ordered l → Forall events_ordered (dep_trace l ops).1.
Proof.
  revert l. induction ops as [|op ops IH]; intros l Hl; [done|]. cbn [dep_trace].
  apply (dep_run_ordered l op) in Hl. destruct (dep_run l op) as [l1 r].
  specialize (IH l1 Hl). by destruct (dep_trace l1 ops).
Qed.

(** Both loops of [checkIfReadyForTimeGrant] compute the same test. *)
Lemma checkIfReadyForTimeGrant_eq l iterating t :
  checkIfReadyForTimeGrant l iterating t = readyLoop l t.
Proof.
  unfold checkIfReadyForTimeGrant. destruct iterating; [|done].
  induction l as [|d l IH]; [done|]. simpl. rewrite IH. by repeat case_match.
Qed.

Lemma readyLoop_iff l t :
  readyLoop l t = true ↔
  Forall (λ d, t < Tnext d ∨ (t = Tnext d ∧ time_state d ≠ time_granted)) l.
Proof.
  induction l as [|d l IH]; simpl; [by rewrite Forall_nil|]. rewrite Forall_cons, <-IH.
  destruct (Z.ltb_spec (Tnext d) t); [intuition (lia || done)|].
  destruct (Z.eqb_spec (Tnext d) t); [|intuition lia].
  case_bool_decide; intuition (lia || done).
Qed.

(** ** Properties *)

(** C3. Starting from an empty object, after any sequence of additions, removals,
    message updates and resets the vector of dependencies is strictly sorted by
    federate id, and it behaves as a finite map: the content, the results returned
    by the operations, [getDependencyInfo] and [isDependency] are those of the map
    operations. *)
Theorem dependencies_refine_map ops id :
  let '(l, results) := dep_trace [] ops in
  let '(M, results') := spec_trace ∅ ops in
  deps_sorted l ∧ deps_map l = M ∧ results = results' ∧
  getDependencyInfo l id = M !! id ∧
  isDependency l id = bool_decide (is_Some (M !! id)).
Proof.
  destruct (dep_trace_refines [] ops (SSorted_nil _)) as [Hs Hr].
  change (deps_map []) with (∅ : gmap Z DependencyInfo) in Hr.
  destruct (dep_trace [] ops) as [l rs], (spec_trace ∅ ops) as [M rs']. cbn [fst snd] in *.
  simplify_eq. by rewrite getDependencyInfo_spec, isDependency_spec.
Qed.

(** In every state reached by such a sequence each dependency has
    [Tdemin <= Te]: the minimum dependent event time never exceeds the event time. *)
Theorem dependencies_events_ordered ops :
  Forall (λ d, dep_Tdemin d ≤ dep_Te d) (dep_trace [] ops).1.
Proof. apply dep_trace_ordered. constructor. Qed.

(** [checkIfReadyForTimeGrant] holds exactly when every dependency has moved
    past the desired time, or has announced that very time without having been
    granted it; the [iterating] argument makes no difference. *)
Theorem readyForTimeGrant_iff l iterating desiredGrantTime :
  checkIfReadyForTimeGrant l iterating desiredGrantTime = true ↔
  Forall (λ d, desiredGrantTime < Tnext d ∨
               (desiredGrantTime = Tnext d ∧ time_state d ≠ time_granted)) l.
Proof.
  by rewrite checkIfReadyForTimeGrant_eq, readyLoop_iff.
Qed.

(** [checkIfReadyForExecEntry]: without iteration every dependency must have
    requested execution mode (finally) or be past it, with iteration an iterative
    request is enough. *)
Lemma readyForExecEntry_iff l iterating :
  checkIfReadyForExecEntry l iterating = true ↔
  Forall (λ d, time_state d ≠ initialized ∧
               (time_state d = exec_requested_iterative → iterating = true)) l.
Proof.
  unfold checkIfReadyForExecEntry. destruct iterating; rewrite none_of_Forall;
    apply Forall_iff; intros d; rewrite ?bool_decide_eq_false;
    destruct (time_state d); cbn; intuition (auto; congruence).
Qed.

End operations.

