(* ===== verification/TimeCoordinator.v ===== *)
(** * Time coordination of a federate (src/src/helics/core/TimeCoordinator.hpp, .cpp)

    The state of [TimeCoordinator] and its operations.  The callback
    [sendMessageFunction] is always set (the constructors replace a null function by
    one that discards), so an operation returns, beside the new state, the list of the
    messages handed to it, in order. *)

From S2P Require Import Prelude HelicsTime Ids Flags ActionMessage MessageCodec.
From S2P Require Import Definitions TimeDependencies.

(** [class tcoptions] *)
Record tcoptions := mkTcoptions {
  timeDelta : Time;
  inputDelay : Time;
  outputDelay : Time;
  offset : Time;
  period : Time;
  wait_for_current_time_updates : bool;
  uninterruptible : bool;
  restrictive_time_policy : bool;
  maxIterations : Z;
}.

#[export] Instance eta_tcoptions : Eta tcoptions := λ o,
  mkTcoptions (timeDelta o) (inputDelay o) (outputDelay o) (offset o) (period o)
    (wait_for_current_time_updates o) (uninterruptible o) (restrictive_time_policy o)
    (maxIterations o).

(** The members of [class TimeCoordinator]. *)
Record TimeCoordinator := mkTimeCoordinator {
  tc_time_granted : Time;
  tc_time_requested : Time;
  time_next : Time;
  time_minminDe : Time;
  time_minDe : Time;
  time_allow : Time;
  time_exec : Time;
  time_message : Time;
  time_value : Time;
  time_grantBase : Time;
  time_block : Time;
  dependent_federates : list global_federate_id;
  dependency_federates : list global_federate_id;
  dependencies : list DependencyInfo;
  dependents : list global_federate_id;
  timeBlocks : list (Time * Z);
  info : tcoptions;
  tc_source_id : global_federate_id;
  iterating : iteration_request;
  checkingExec : bool;
  executionMode : bool;
  hasInitUpdates : bool;
  iteration : Z;
  disconnected : bool;
}.

#[export] Instance eta_TimeCoordinator : Eta TimeCoordinator := λ s,
  mkTimeCoordinator (tc_time_granted s) (tc_time_requested s) (time_next s)
    (time_minminDe s) (time_minDe s) (time_allow s) (time_exec s) (time_message s)
    (time_value s) (time_grantBase s) (time_block s) (dependent_federates s)
    (dependency_federates s) (dependencies s) (dependents s) (timeBlocks s) (info s)
    (tc_source_id s) (iterating s) (checkingExec s) (executionMode s) (hasInitUpdates s)
    (iteration s) (disconnected s).

(** One assignment [base["key"] = value] of [generateConfig]. *)
Inductive config_value :=
  | cfg_bool (b : bool)
  | cfg_int (z : Z)
  | cfg_time (t : Time).

Section operations.
  Context `{TimeRep}.
  Implicit Types (s : TimeCoordinator) (cmd msg : ActionMessage).

(** Member initialisers. *)
Definition default_tcoptions : tcoptions := {|
  timeDelta := Time_epsilon; inputDelay := timeZero; outputDelay := timeZero;
  offset := timeZero; period := timeZero; wait_for_current_time_updates := false;
  uninterruptible := false; restrictive_time_policy := false; maxIterations := 50 |}.

Definition newTimeCoordinator : TimeCoordinator := {|
  tc_time_granted := Time_minVal; tc_time_requested := Time_maxVal;
  time_next := timeZero; time_minminDe := timeZero; time_minDe := timeZero;
  time_allow := Time_minVal; time_exec := Time_maxVal; time_message := Time_maxVal;
  time_value := Time_maxVal; time_grantBase := Time_minVal; time_block := Time_maxVal;
  dependent_federates := []; dependency_federates := []; dependencies := [];
  dependents := []; timeBlocks := []; info := default_tcoptions; tc_source_id := 0;
  iterating := no_iterations; checkingExec := false; executionMode := false;
  hasInitUpdates := false; iteration := 0; disconnected := false |}.

(** ** The next possible time *)

Definition generateAllowedTime s (testTime : Time) : Time :=
  if timeEpsilon <? period (info s) then
    if testTime =? Time_maxVal then testTime
    else if period (info s) <? testTime -t time_grantBase s then
      let blk := double_ceil (Time_div (testTime -t time_grantBase s) (period (info s))) in
      time_grantBase s +t Time_scale blk (period (info s))
    else time_grantBase s +t period (info s)
  else testTime.

(** [while (retTime < info.timeDelta) { retTime += info.period; }] *)
Fixpoint addPeriods (fuel : nat) (retTime delta per : Time) : Time :=
  match fuel with
  | O => retTime
  | S fuel => if retTime <? delta then addPeriods fuel (retTime +t per) delta per else retTime
  end.

Definition getNextPossibleTime s : Time :=
  if tc_time_granted s =? timeZero then
    if timeDelta (info s) <? offset (info s) then offset (info s)
    else if offset (info s) =? timeZero then
      generateAllowedTime s (Z.max (timeDelta (info s)) (period (info s)))
    else if period (info s) <=? Time_epsilon then timeDelta (info s)
    else
      let retTime := offset (info s) +t period (info s) in
      addPeriods (Z.to_nat (timeDelta (info s) - retTime)) retTime (timeDelta (info s))
        (period (info s))
  else generateAllowedTime s
         (time_grantBase s +t Z.max (timeDelta (info s)) (period (info s))).

(** ** Computation of the time factors *)

(** The value [updateNextExecutionTime] gives to [time_exec], and the operation. *)
Definition nextExecutionTime s : Time :=
  if uninterruptible (info s) then tc_time_requested s
  else
    let exec := Z.min (time_message s) (time_value s) in
    let exec := if exec <? Time_maxVal then exec +t inputDelay (info s) else exec in
    let exec := Z.min (tc_time_requested s) exec in
    let exec :=
      if exec <=? tc_time_granted s then
        if bool_decide (iterating s = no_iterations) then getNextPossibleTime s
        else tc_time_granted s
      else exec in
    if timeZero <? exec -t tc_time_granted s then generateAllowedTime s exec else exec.

Definition updateNextExecutionTime s : TimeCoordinator * bool :=
  let cexec := time_exec s in
  let s := s <| time_exec := nextExecutionTime s |> in
  (s, negb (time_exec s =? cexec)).

Definition updateNextPossibleEventTime s : TimeCoordinator :=
  let next := if bool_decide (iterating s = no_iterations) then getNextPossibleTime s
              else tc_time_granted s in
  if uninterruptible (info s) then s <| time_next := tc_time_requested s |>
  else
    let next :=
      if (time_minminDe s <? Time_maxVal) && negb (restrictive_time_policy (info s)) then
        if next <? time_minminDe s +t inputDelay (info s) then
          generateAllowedTime s (time_minminDe s +t inputDelay (info s))
        else next
      else next in
    s <| time_next := Z.min next (time_exec s) +t outputDelay (info s) |>.

(** The loop of [updateTimeFactors] over the dependencies: [minNext], [minminDe] and
    [minDe]. *)
Definition factorsLoop (deps : list DependencyInfo) (acc : Time * Time * Time)
    : Time * Time * Time :=
  foldl (λ '(minNext, minminDe, minDe) dep,
    (if Tnext dep <? minNext then Tnext dep else minNext,
     if Tnext dep <=? dep_Tdemin dep then
       if dep_Tdemin dep <? minminDe then dep_Tdemin dep else minminDe
     else Time_of_int (-1),
     if dep_Te dep <? minDe then dep_Te dep else minDe)) acc deps.

Definition updateTimeFactors s : TimeCoordinator * bool :=
  let minminDe := Z.min (time_value s) (time_message s) in
  let '(minNext, minminDe, minDe) :=
    factorsLoop (dependencies s) (Time_maxVal, minminDe, minminDe) in
  let s := s <| time_minminDe := Z.min minDe minminDe |> in
  let prev_next := time_next s in
  let s := updateNextPossibleEventTime s in
  let update := negb (prev_next =? time_next s) in
  let minDe := if minDe <? Time_maxVal
               then generateAllowedTime s minDe +t outputDelay (info s) else minDe in
  let update := update || negb (minDe =? time_minDe s) in
  let s := s <| time_minDe := minDe |> in
  let s := s <| time_allow := if minNext <? Time_maxVal then inputDelay (info s) +t minNext
                              else Time_maxVal |> in
  ((updateNextExecutionTime s).1, update).

(** ** Messages to the dependents *)

Definition transmitTimingMessage s msg : list ActionMessage :=
  (λ dep, msg <| dest_id := dep |>) <$> dependents s.

Definition sendTimeRequest s : list ActionMessage :=
  let upd := (newMessage cmd_time_request) <| source_id := tc_source_id s |>
               <| actionTime := time_next s |>
               <| Te := if negb (time_exec s =? Time_maxVal)
                        then time_exec s +t outputDelay (info s) else time_exec s |>
               <| Tdemin := if time_minDe s <? time_next s then time_next s
                            else time_minDe s |> in
  let upd := if negb (bool_decide (iterating s = no_iterations)) then
               (setIterationFlags upd (iterating s)) <| counter := to_uint 16 (iteration s) |>
             else upd in
  transmitTimingMessage s upd.

Definition updateTimeGrant s : TimeCoordinator * list ActionMessage :=
  let s := if negb (bool_decide (iterating s = force_iteration)) then
             s <| tc_time_granted := time_exec s |> <| time_grantBase := time_exec s |>
           else s in
  let treq := (newMessage cmd_time_grant) <| source_id := tc_source_id s |>
                <| actionTime := tc_time_granted s |>
                <| counter := to_uint 16 (iteration s) |> in
  let s := if negb (bool_decide (iterating s = no_iterations)) then
             s <| dependencies := resetIteratingTimeRequests (dependencies s) (time_exec s) |>
           else s in
  (s, transmitTimingMessage s treq).

Definition enteringExecMode s (mode : iteration_request)
    : TimeCoordinator * list ActionMessage :=
  if executionMode s then (s, [])
  else
    let s := s <| iterating := mode |> <| checkingExec := true |> in
    let execreq := (newMessage cmd_exec_request) <| source_id := tc_source_id s |> in
    let execreq := if negb (bool_decide (iterating s = no_iterations))
                   then setIterationFlags execreq (iterating s) else execreq in
    (s, transmitTimingMessage s execreq).

(** ** Requests and updates from the federate *)

Definition timeRequest s (nextTime : Time) (iterate : iteration_request)
    (newValueTime newMessageTime : Time) : TimeCoordinator * list ActionMessage :=
  let s := s <| iterating := iterate |> in
  let '(s, nextTime) :=
    if negb (bool_decide (iterating s = no_iterations)) then
      (s, if (nextTime <? tc_time_granted s) || bool_decide (iterating s = force_iteration)
          then tc_time_granted s else nextTime)
    else
      let s := s <| time_next := getNextPossibleTime s |> in
      let nextTime := if nextTime <? time_next s then time_next s else nextTime in
      (if uninterruptible (info s) then s <| time_next := nextTime |> else s, nextTime) in
  let s := s <| tc_time_requested := nextTime |> in
  let s := s <| time_value := if time_next s <? newValueTime then newValueTime
                              else time_next s |> in
  let s := s <| time_message := if time_next s <? newMessageTime then newMessageTime
                                else time_next s |> in
  let s := s <| time_exec :=
                  Z.min (Z.min (time_value s) (time_message s)) (tc_time_requested s) |> in
  let s := if uninterruptible (info s) then s <| time_exec := tc_time_requested s |> else s in
  let s := s <| dependencies := resetDependentEvents (dependencies s) (tc_time_granted s) |> in
  let s := (updateTimeFactors s).1 in
  (s, if bool_decide (dependents s = []) then [] else sendTimeRequest s).

(** The new time of [updateValueTime] and [updateMessageTime]. *)
Definition limitedUpdateTime s (updateTime : Time) : Time :=
  if negb (bool_decide (iterating s = no_iterations)) then
    if updateTime <=? tc_time_granted s then tc_time_granted s else updateTime
  else
    let nextPossibleTime := getNextPossibleTime s in
    if updateTime <=? nextPossibleTime then nextPossibleTime else updateTime.

Definition updateValueTime s (valueUpdateTime : Time) : TimeCoordinator * list ActionMessage :=
  if negb (executionMode s) then
    (if valueUpdateTime <? timeZero then s <| hasInitUpdates := true |> else s, [])
  else if valueUpdateTime <? time_value s then
    let ptime := time_value s in
    let s := s <| time_value := limitedUpdateTime s valueUpdateTime |> in
    if (time_value s <? ptime) && negb (disconnected s) then
      let '(s, changed) := updateNextExecutionTime s in
      (s, if changed then sendTimeRequest s else [])
    else (s, [])
  else (s, []).

Definition updateMessageTime s (messageUpdateTime : Time)
    : TimeCoordinator * list ActionMessage :=
  if negb (executionMode s) then
    (if messageUpdateTime <? timeZero then s <| hasInitUpdates := true |> else s, [])
  else if messageUpdateTime <? time_message s then
    let ptime := time_message s in
    let s := s <| time_message := limitedUpdateTime s messageUpdateTime |> in
    if (time_message s <? ptime) && negb (disconnected s) then
      let '(s, changed) := updateNextExecutionTime s in
      (s, if changed then sendTimeRequest s else [])
    else (s, [])
  else (s, []).

(** ** Dependencies and dependents *)

Definition tc_isDependency s (ofed : global_federate_id) : bool :=
  isDependency (dependencies s) ofed.

Definition tc_addDependency s (fed : global_federate_id) : TimeCoordinator * bool :=
  let '(deps, added) := addDependency (dependencies s) fed in
  let s := s <| dependencies := deps |> in
  if added then (s <| dependency_federates := dependency_federates s ++ [fed] |>, true)
  else (s, false).

Definition addDependent s (fed : global_federate_id) : TimeCoordinator * bool :=
  if bool_decide (dependents s = []) then
    (s <| dependents := [fed] |> <| dependent_federates := dependent_federates s ++ [fed] |>,
     true)
  else
    let dep := lower_bound Z.ltb (dependents s) fed in
    match dependents s !! dep with
    | None =>
        (s <| dependents := dependents s ++ [fed] |>
           <| dependent_federates := dependent_federates s ++ [fed] |>, true)
    | Some d =>
        if d =? fed then (s, false)
        else (s <| dependents := vec_insert dep fed (dependents s) |>
                <| dependent_federates := dependent_federates s ++ [fed] |>, true)
    end.

Definition tc_removeDependency s (fed : global_federate_id) : TimeCoordinator :=
  s <| dependencies := removeDependency (dependencies s) fed |>
    <| dependency_federates := vec_remove fed (dependency_federates s) |>.

Definition removeDependent s (fed : global_federate_id) : TimeCoordinator :=
  let dep := lower_bound Z.ltb (dependents s) fed in
  match dependents s !! dep with
  | None => s
  | Some d =>
      if d =? fed then
        s <| dependents := vec_erase dep (dependents s) |>
          <| dependent_federates := vec_remove fed (dependent_federates s) |>
      else s
  end.

Definition tc_hasActiveTimeDependencies s : bool := hasActiveTimeDependencies (dependencies s).
Definition tc_getDependencyInfo s (ofed : global_federate_id) : option DependencyInfo :=
  getDependencyInfo (dependencies s) ofed.
Definition getDependencies s : list global_federate_id := dependency_federates s.

Definition processDependencyUpdateMessage s cmd : TimeCoordinator :=
  match action cmd with
  | cmd_add_dependency => (tc_addDependency s (source_id cmd)).1
  | cmd_remove_dependency => tc_removeDependency s (source_id cmd)
  | cmd_add_dependent => (addDependent s (source_id cmd)).1
  | cmd_remove_dependent => removeDependent s (source_id cmd)
  | cmd_add_interdependency =>
      let s := (tc_addDependency s (source_id cmd)).1 in (addDependent s (source_id cmd)).1
  | cmd_remove_interdependency =>
      let s := tc_removeDependency s (source_id cmd) in removeDependent s (source_id cmd)
  | _ => s
  end.

(** ** Incoming time messages *)

(** [std::min_element] of the blocks: the first one with the least time. *)
Definition min_block (b : Time * Z) (bs : list (Time * Z)) : Time * Z :=
  foldl (λ res blk, if blk.1 <? res.1 then blk else res) b bs.

Definition processTimeBlockMessage s cmd : TimeCoordinator * message_process_result :=
  match action cmd with
  | cmd_time_block =>
      let s := s <| timeBlocks := timeBlocks s ++ [(actionTime cmd, messageID cmd)] |> in
      (if actionTime cmd <? time_block s then s <| time_block := actionTime cmd |> else s,
       no_effect)
  | cmd_time_unblock =>
      match timeBlocks s with
      | [] => (s, no_effect)
      | front :: rest =>
          let '(ltime, s) :=
            if front.2 =? messageID cmd then (front.1, s <| timeBlocks := rest |>)
            else
              match list_find (λ block, block.2 = messageID cmd) (timeBlocks s) with
              | Some (i, blk) => (blk.1, s <| timeBlocks := vec_erase i (timeBlocks s) |>)
              | None => (Time_maxVal, s)
              end in
          if ltime <=? time_block s then
            (match timeBlocks s with
             | b :: bs => s <| time_block := (min_block b bs).1 |>
             | [] => s <| time_block := Time_maxVal |>
             end, processed)
          else (s, no_effect)
      end
  | _ => (s, no_effect)
  end.

Definition isDelayableMessage cmd (localId : global_federate_id) : bool :=
  (bool_decide (action cmd = cmd_time_grant) || bool_decide (action cmd = cmd_exec_grant))
  && negb (source_id cmd =? localId).

(** The switch on the state of the sending dependency: whether to delay. *)
Definition delayedBy s (dep : DependencyInfo) : bool :=
  match time_state dep with
  | time_requested => time_exec s <? Tnext dep
  | time_requested_iterative =>
      if time_exec s <? Tnext dep then true
      else negb (bool_decide (iterating s = no_iterations)) && (time_exec s =? Tnext dep)
  | exec_requested_iterative =>
      negb (bool_decide (iterating s = no_iterations)) && checkingExec s
  | _ => false
  end.

(** The last statement of [processTimeMessage]. *)
Definition updateDependencyTime s cmd : TimeCoordinator * message_process_result :=
  let '(deps, res) := updateTime (dependencies s) cmd in
  (s <| dependencies := deps |>, if res then processed else no_effect).

Definition processTimeMessage s cmd
    : TimeCoordinator * list ActionMessage * message_process_result :=
  match action cmd with
  | cmd_time_block | cmd_time_unblock =>
      let '(s, res) := processTimeBlockMessage s cmd in (s, [], res)
  | cmd_force_time_grant =>
      if tc_time_granted s <? actionTime cmd then
        let s := s <| tc_time_granted := actionTime cmd |>
                   <| time_grantBase := actionTime cmd |> in
        let treq := (newMessage cmd_time_grant) <| source_id := tc_source_id s |>
                      <| actionTime := tc_time_granted s |> in
        (s, transmitTimingMessage s treq, processed)
      else (s, [], no_effect)
  | _ =>
      let s :=
        match action cmd with
        | cmd_disconnect | cmd_broadcast_disconnect | cmd_disconnect_core
        | cmd_disconnect_fed | cmd_disconnect_broker | cmd_global_error | cmd_local_error =>
            removeDependent s (source_id cmd)
        | _ => s
        end in
      if isDelayableMessage cmd (tc_source_id s) then
        match getDependencyInfo (dependencies s) (source_id cmd) with
        | None => (s, [], no_effect)
        | Some dep =>
            if delayedBy s dep then (s, [], delay_processing)
            else let '(s, res) := updateDependencyTime s cmd in (s, [], res)
        end
      else let '(s, res) := updateDependencyTime s cmd in (s, [], res)
  end.

(** ** Leaving the simulation *)

(** The set [connections] of [disconnect] and [localError], in its iteration order. *)
Definition connections s : list global_federate_id :=
  foldl (λ conns dep, if Tnext dep <? Time_maxVal then set_insert (fedID dep) conns else conns)
    (set_of_range (dependents s)) (dependencies s).

(** The loop over several connections: messages to others are collected in [multi]. *)
Fixpoint byeLoop (le : bool) s (conns : list global_federate_id) (bye multi : ActionMessage)
    : outcome (TimeCoordinator * list ActionMessage * ActionMessage) :=
  match conns with
  | [] => Ok (s, [], multi)
  | fed :: conns =>
      let bye := bye <| dest_id := fed |> in
      if fed =? tc_source_id s then
        let '(s, out, _) := processTimeMessage s bye in
        '(s', out', multi') ← byeLoop le s conns bye multi;
        Ok (s', out ++ out', multi')
      else
        '(_, multi) ← appendMessage le multi bye;
        byeLoop le s conns bye multi
  end.

(** The common part of [disconnect] and [localError], with their [bye] message; it
    returns early, leaving [disconnected] as it was, when there is no connection. *)
Definition sayBye (le : bool) s (byeAction : action_t)
    : outcome (TimeCoordinator * list ActionMessage) :=
  let s := s <| tc_time_granted := Time_maxVal |> <| time_grantBase := Time_maxVal |> in
  let bye := (newMessage byeAction) <| source_id := tc_source_id s |> in
  match connections s with
  | [] => Ok (s, [])
  | [fed] =>
      let bye := bye <| dest_id := fed |> in
      if dest_id bye =? tc_source_id s then
        let '(s, out, _) := processTimeMessage s bye in Ok (s <| disconnected := true |>, out)
      else Ok (s <| disconnected := true |>, [bye])
  | conns =>
      '(s, out, multi) ← byeLoop le s conns bye (newMessage cmd_multi_message);
      Ok (s <| disconnected := true |>, out ++ [multi])
  end.

Definition disconnect (le : bool) s : outcome (TimeCoordinator * list ActionMessage) :=
  sayBye le s cmd_disconnect.

Definition localError (le : bool) s : outcome (TimeCoordinator * list ActionMessage) :=
  if disconnected s then Ok (s, []) else sayBye le s cmd_local_error.

(** ** Granting time and entry to the execution mode *)

(** [++iteration] on a [std::atomic<int32_t>] *)
Definition incrIteration s : TimeCoordinator :=
  s <| iteration := to_sint 32 (iteration s + 1) |>.

(** The end of [checkTimeGrant], reached when no time was granted. *)
Definition noGrant s (update : bool)
    : TimeCoordinator * list ActionMessage * message_processing_result :=
  (s, if negb (bool_decide (dependents s = [])) && update then sendTimeRequest s else [],
   continue_processing).

Definition grantAs s (res : message_processing_result)
    : TimeCoordinator * list ActionMessage * message_processing_result :=
  let '(s, out) := updateTimeGrant s in (s, out, res).

(** The part of [checkTimeGrant] after the test on [time_block]. *)
Definition grantDecision s (update : bool)
    : TimeCoordinator * list ActionMessage * message_processing_result :=
  if bool_decide (iterating s = no_iterations)
     || ((tc_time_granted s <? time_exec s) && bool_decide (iterating s = iterate_if_needed))
  then
    let s := s <| iteration := 0 |> in
    if time_exec s <? time_allow s then grantAs s next_step
    else if time_allow s =? time_exec s then
      if tc_time_requested s <=? time_exec s then grantAs s next_step
      else if checkIfReadyForTimeGrant (dependencies s) false (time_exec s)
      then grantAs s next_step
      else noGrant s update
    else noGrant s update
  else
    if time_exec s <? time_allow s then grantAs (incrIteration s) mpr_iterating
    else if time_allow s =? time_exec s then
      if checkIfReadyForTimeGrant (dependencies s) true (time_exec s)
      then grantAs (incrIteration s) mpr_iterating
      else noGrant s update
    else noGrant s update.

Definition checkTimeGrant (le : bool) s
    : outcome (TimeCoordinator * list ActionMessage * message_processing_result) :=
  let '(s, update) := updateTimeFactors s in
  if (time_exec s =? Time_maxVal) && (time_allow s =? Time_maxVal) then
    let s := s <| tc_time_granted := Time_maxVal |> <| time_grantBase := Time_maxVal |> in
    '(s, out) ← disconnect le s;
    Ok (s, out, halted)
  else if time_block s <=? time_exec s then Ok (s, [], continue_processing)
  else Ok (grantDecision s update).

Definition execEntryResult s : message_processing_result :=
  match iterating s with
  | no_iterations => next_step
  | iterate_if_needed =>
      if hasInitUpdates s then
        if maxIterations (info s) <=? iteration s then next_step else mpr_iterating
      else next_step
  | force_iteration => mpr_iterating
  end.

Definition checkExecEntry s
    : TimeCoordinator * list ActionMessage * message_processing_result :=
  if time_block s <=? timeZero then (s, [], continue_processing)
  else if negb (checkIfReadyForExecEntry (dependencies s)
                  (negb (bool_decide (iterating s = no_iterations))))
  then (s, [], continue_processing)
  else
    let execgrant := (newMessage cmd_exec_grant) <| source_id := tc_source_id s |> in
    match execEntryResult s with
    | next_step =>
        let s := s <| tc_time_granted := timeZero |> <| time_grantBase := timeZero |>
                   <| executionMode := true |> <| iteration := 0 |> in
        (s, transmitTimingMessage s execgrant, next_step)
    | mpr_iterating =>
        let s := s <| dependencies := resetIteratingExecRequests (dependencies s) |>
                   <| hasInitUpdates := false |> in
        let s := incrIteration s in
        let execgrant :=
          setActionFlag (execgrant <| counter := to_uint 16 (iteration s) |>)
            iteration_requested_flag in
        (s, transmitTimingMessage s execgrant, mpr_iterating)
    | ret => (s, [], ret)
    end.

(** ** Properties and options *)

Definition setProperty s (timeProperty : Z) (propertyVal : Time) : TimeCoordinator :=
  if timeProperty =? helics_property_time_output_delay then
    s <| info := (info s) <| outputDelay := propertyVal |> |>
  else if timeProperty =? helics_property_time_input_delay then
    s <| info := (info s) <| inputDelay := propertyVal |> |>
  else if timeProperty =? helics_property_time_delta then
    s <| info := (info s) <| timeDelta := if propertyVal <=? timeZero then timeEpsilon
                                          else propertyVal |> |>
  else if timeProperty =? helics_property_time_period then
    s <| info := (info s) <| period := propertyVal |> |>
  else if timeProperty =? helics_property_time_offset then
    s <| info := (info s) <| offset := propertyVal |> |>
  else s.

Definition setIntProperty s (intProperty propertyVal : Z) : TimeCoordinator :=
  if intProperty =? helics_property_int_max_iterations then
    s <| info := (info s) <| maxIterations := propertyVal |> |>
  else setProperty s intProperty (Time_of_int propertyVal).

Definition setOptionFlag s (optionFlag : Z) (value : bool) : TimeCoordinator :=
  if optionFlag =? helics_flag_uninterruptible then
    s <| info := (info s) <| uninterruptible := value |> |>
  else if optionFlag =? helics_flag_wait_for_current_time_update then
    s <| info := (info s) <| wait_for_current_time_updates := value |> |>
  else if optionFlag =? helics_flag_restrictive_time_policy then
    s <| info := (info s) <| restrictive_time_policy := value |> |>
  else s.

Definition getTimeProperty s (timeProperty : Z) : Time :=
  if timeProperty =? helics_property_time_output_delay then outputDelay (info s)
  else if timeProperty =? helics_property_time_input_delay then inputDelay (info s)
  else if timeProperty =? helics_property_time_delta then timeDelta (info s)
  else if timeProperty =? helics_property_time_period then period (info s)
  else if timeProperty =? helics_property_time_offset then offset (info s)
  else Time_minVal.

Definition getIntegerProperty s (intProperty : Z) : Z :=
  if intProperty =? helics_property_int_max_iterations then maxIterations (info s) else -972.

Definition getOptionFlag s (optionFlag : Z) : outcome bool :=
  if optionFlag =? helics_flag_uninterruptible then Ok (uninterruptible (info s))
  else if optionFlag =? helics_flag_interruptible then Ok (negb (uninterruptible (info s)))
  else if optionFlag =? helics_flag_wait_for_current_time_update then
    Ok (wait_for_current_time_updates (info s))
  else if optionFlag =? helics_flag_restrictive_time_policy then
    Ok (restrictive_time_policy (info s))
  else Throw "flag not recognized".

Definition processConfigUpdateMessage s cmd : TimeCoordinator :=
  match action cmd with
  | cmd_fed_configure_time => setProperty s (messageID cmd) (actionTime cmd)
  | cmd_fed_configure_int => setIntProperty s (messageID cmd) (counter cmd)
  | cmd_fed_configure_flag =>
      setOptionFlag s (messageID cmd) (checkActionFlag cmd indicator_flag)
  | _ => s
  end.

(** The assignments to [base] that [generateConfig] makes, in order. *)
Definition generateConfig s : list (string * config_value) :=
  [("uninterruptible", cfg_bool (uninterruptible (info s)));
   ("wait_for_current_time_updates", cfg_bool (wait_for_current_time_updates (info s)));
   ("restrictive_time_policy", cfg_bool (restrictive_time_policy (info s)));
   ("max_iterations", cfg_int (maxIterations (info s)))]
  ++ (if timeZero <? period (info s) then [("period", cfg_time (period (info s)))] else [])
  ++ (if negb (offset (info s) =? timeZero) then [("offset", cfg_time (offset (info s)))]
      else [])
  ++ (if Time_epsilon <? timeDelta (info s)
      then [("time_delta", cfg_time (timeDelta (info s)))] else [])
  ++ (if timeZero <? outputDelay (info s)
      then [("output_delay", cfg_time (outputDelay (info s)))] else [])
  ++ (if timeZero <? inputDelay (info s)
      then [("intput_delay", cfg_time (inputDelay (info s)))] else []).

Definition getGrantedTime s : Time := tc_time_granted s.
Definition allowedSendTime s : Time := tc_time_granted s +t outputDelay (info s).
Definition getCurrentIteration s : Z := iteration s.

End operations.
