(* ===== verification/TimeCoordinatorFacts.v ===== *)
(** * Properties of the time coordinator

    Theorems on TimeCoordinator.v: what a grant guarantees with respect to the
    dependencies, that granted times never decrease and lie on the period grid, the
    blocking times, the lists of dependents, and the messages sent on a request and on
    a disconnect. *)

From S2P Require Import Prelude HelicsTime Ids Flags ActionMessage MessageCodec.
From S2P Require Import CodecFacts Definitions TimeDependencies TimeCoordinator.

(** ** The time grid *)

Section grid.
  Context `{TimeLaws}.
  Implicit Types (s : TimeCoordinator).

(** The number of periods from the base to the first grid time not before [t]. *)
Definition blocks (t per : Time) : Z := Z.max 1 ((t + per - 1) / per).

(** The arithmetic on [t] made by [generateAllowedTime] is exact: the difference with
    the base and the rounded time are representable, and so is the quotient. *)
Record grid_exact s (t : Time) : Prop := {
  ge_sub : time_range (t - time_grantBase s);
  ge_blocks : exact_blocks (t - time_grantBase s) (period (info s));
  ge_next : time_range (time_grantBase s + period (info s));
  ge_add : time_range (time_grantBase s
             + period (info s) * blocks (t - time_grantBase s) (period (info s)));
}.

Lemma blocks_ceil t per : 0 < per → per < t → blocks t per = (t + per - 1) / per.
Proof.
  intros Hp Ht. unfold blocks. apply Z.max_r.
  apply Z.div_le_lower_bound; lia.
Qed.

Lemma blocks_one t per : 0 < per → t ≤ per → blocks t per = 1.
Proof.
  intros Hp Ht. unfold blocks. apply Z.max_l.
  assert (t + per - 1 < per * 2) as Hlt by lia.
  pose proof (Z.div_lt_upper_bound _ _ _ Hp Hlt). lia.
Qed.

Lemma blocks_ge t per : 0 < per → t ≤ per * blocks t per.
Proof.
  intros Hp. unfold blocks.
  pose proof (Z.div_mod (t + per - 1) per ltac:(lia)).
  pose proof (Z.mod_pos_bound (t + per - 1) per Hp). nia.
Qed.

Lemma blocks_least t per k : 0 < per → 1 ≤ k → t ≤ per * k → blocks t per ≤ k.
Proof.
  intros Hp Hk Ht. unfold blocks. apply Z.max_lub; [done|].
  assert (t + per - 1 < per * (k + 1)) as Hlt by lia.
  pose proof (Z.div_lt_upper_bound _ _ _ Hp Hlt). lia.
Qed.

Lemma blocks_pos t per : 1 ≤ blocks t per.
Proof. apply Z.le_max_l. Qed.

Lemma generateAllowedTime_grid s t :
  timeEpsilon < period (info s) → t ≠ Time_maxVal → grid_exact s t →
  generateAllowedTime s t =
    time_grantBase s + period (info s) * blocks (t - time_grantBase s) (period (info s)).
Proof.
  intros Hp Ht [Hsub Hblk Hnext Hadd]. unfold generateAllowedTime.
  pose proof timeEpsilon_pos.
  rewrite (proj2 (Z.ltb_lt _ _) Hp), (proj2 (Z.eqb_neq _ _) Ht).
  rewrite (law_sub t) by done.
  destruct (Z.ltb_spec (period (info s)) (t - time_grantBase s)) as [Hlt|Hge].
  - unfold exact_blocks in Hblk. rewrite Hblk. rewrite blocks_ceil in * by lia.
    by apply law_add.
  - rewrite blocks_one, Z.mul_1_r in * by lia. by apply law_add.
Qed.

Lemma generateAllowedTime_off s t :
  period (info s) ≤ timeEpsilon → generateAllowedTime s t = t.
Proof. intros. unfold generateAllowedTime. by rewrite (proj2 (Z.ltb_ge _ _)). Qed.

Lemma generateAllowedTime_max s : generateAllowedTime s Time_maxVal = Time_maxVal.
Proof. unfold generateAllowedTime. rewrite Z.eqb_refl. by case_match. Qed.

Lemma generateAllowedTime_ge s t :
  grid_exact s t → t ≤ generateAllowedTime s t.
Proof.
  intros Hex. destruct (decide (t = Time_maxVal)) as [->|Hne].
  { by rewrite generateAllowedTime_max. }
  destruct (Z.lt_ge_cases timeEpsilon (period (info s))) as [Hp|Hp].
  - rewrite generateAllowedTime_grid by done. pose proof timeEpsilon_pos.
    pose proof (blocks_ge (t - time_grantBase s) (period (info s))). lia.
  - by rewrite generateAllowedTime_off.
Qed.

Lemma blocks_upper t per : 0 < per → per * blocks t per ≤ Z.max per (t + per - 1).
Proof.
  intros Hp. unfold blocks. pose proof (Z.mul_div_le (t + per - 1) per Hp). lia.
Qed.

(** The loop of [getNextPossibleTime] ends within its fuel, at a time not before the
    minimum time step. *)
Lemma addPeriods_ge fuel t delta per :
  0 < per → time_range t → delta + per ≤ Time_maxVal →
  delta - t ≤ Z.of_nat fuel → delta ≤ addPeriods fuel t delta per.
Proof.
  intros Hp. revert t. induction fuel as [|fuel IH]; intros t Ht Hmax Hfuel; simpl; [lia|].
  destruct (Z.ltb_spec t delta); [|lia].
  unfold time_range in Ht. rewrite law_add by (unfold time_range; lia).
  apply IH; [unfold time_range; lia|done|lia].
Qed.

Lemma addPeriods_upper fuel t delta per :
  0 < per → time_range t → delta + per ≤ Time_maxVal →
  addPeriods fuel t delta per ≤ Z.max t (delta + per).
Proof.
  intros Hp. revert t. induction fuel as [|fuel IH]; intros t Ht Hmax; simpl; [lia|].
  destruct (Z.ltb_spec t delta); [|lia].
  unfold time_range in *. rewrite law_add by (unfold time_range; lia).
  etransitivity; [apply IH; lia|lia].
Qed.

Lemma addPeriods_fuel fuel fuel' t delta per :
  0 < per → time_range t → delta + per ≤ Time_maxVal →
  delta - t ≤ Z.of_nat fuel → delta - t ≤ Z.of_nat fuel' →
  addPeriods fuel t delta per = addPeriods fuel' t delta per.
Proof.
  intros Hp. revert fuel' t.
  induction fuel as [|fuel IH]; intros fuel' t Ht Hmax Hfuel Hfuel';
    destruct fuel' as [|fuel']; simpl; try done;
    destruct (Z.ltb_spec t delta); try done; try lia.
  unfold time_range in Ht. rewrite law_add by (unfold time_range; lia).
  apply IH; [unfold time_range; lia|done|lia|lia].
Qed.

End grid.

(** ** Time factors and grants *)

Section grants.
  Context `{TimeRep}.
  Implicit Types (s : TimeCoordinator).

(** The least [Tnext] of the dependencies, [Time::maxVal()] without any. *)
Definition minTnext (deps : list DependencyInfo) : Time :=
  foldl (λ m dep, Z.min m (Tnext dep)) Time_maxVal deps.

Lemma factorsLoop_minNext deps a b c :
  (factorsLoop deps (a, b, c)).1.1 = foldl (λ m dep, Z.min m (Tnext dep)) a deps.
Proof.
  revert a b c. induction deps as [|d deps IH]; intros a b c; [done|].
  unfold factorsLoop in *. simpl. rewrite IH. f_equal.
  destruct (Z.ltb_spec (Tnext d) a); lia.
Qed.

Lemma foldl_min_le deps a :
  foldl (λ m dep, Z.min m (Tnext dep)) a deps ≤ a ∧
  Forall (λ d, foldl (λ m dep, Z.min m (Tnext dep)) a deps ≤ Tnext d) deps.
Proof.
  revert a. induction deps as [|d deps IH]; intros a; simpl; [split; [lia|constructor]|].
  destruct (IH (Z.min a (Tnext d))) as [Hle Hall].
  split; [lia|]. constructor; [lia|done].
Qed.

Lemma foldl_min_attained deps a :
  foldl (λ m dep, Z.min m (Tnext dep)) a deps = a ∨
  Exists (λ d, foldl (λ m dep, Z.min m (Tnext dep)) a deps = Tnext d) deps.
Proof.
  revert a. induction deps as [|d deps IH]; intros a; simpl; [by left|].
  destruct (IH (Z.min a (Tnext d))) as [Heq|Hex]; [|by right; right].
  destruct (Z.min_spec a (Tnext d)) as [[_ Hm]|[_ Hm]]; rewrite Hm in *;
    [left|right; left]; done.
Qed.

(** What [updateTimeFactors] changes, and the values that decide a grant. *)
Lemma updateTimeFactors_form s :
  ∃ mm nx md, (updateTimeFactors s).1 =
    s <| time_minminDe := mm |> <| time_next := nx |> <| time_minDe := md |>
      <| time_allow := if minTnext (dependencies s) <? Time_maxVal
                       then inputDelay (info s) +t minTnext (dependencies s)
                       else Time_maxVal |>
      <| time_exec := nextExecutionTime s |>.
Proof.
  unfold updateTimeFactors, minTnext.
  pose proof (factorsLoop_minNext (dependencies s) Time_maxVal
    (Z.min (time_value s) (time_message s)) (Z.min (time_value s) (time_message s))) as Hmin.
  destruct (factorsLoop _ _) as [[minNext minminDe] minDe]. cbn in Hmin. subst minNext.
  unfold updateNextPossibleEventTime. cbn.
  destruct (uninterruptible (info s)) eqn:Hu; do 3 eexists; cbn;
    unfold nextExecutionTime; cbn; rewrite Hu; reflexivity.
Qed.

(** The message announcing a grant, sent to every dependent. *)
Definition grantMessages s (granted iter : Z) : list ActionMessage :=
  (λ dep, (newMessage cmd_time_grant) <| source_id := tc_source_id s |>
            <| actionTime := granted |> <| counter := to_uint 16 iter |>
            <| dest_id := dep |>) <$> dependents s.

Lemma updateTimeGrant_spec s :
  let g := if bool_decide (iterating s = force_iteration) then tc_time_granted s
           else time_exec s in
  tc_time_granted (updateTimeGrant s).1 = g ∧
  time_exec (updateTimeGrant s).1 = time_exec s ∧
  iteration (updateTimeGrant s).1 = iteration s ∧
  (updateTimeGrant s).2 = grantMessages s g (iteration s).
Proof.
  unfold updateTimeGrant, grantMessages, transmitTimingMessage.
  destruct (bool_decide (iterating s = force_iteration)); cbn;
    destruct (bool_decide (iterating s = no_iterations)); done.
Qed.

Lemma grantAs_inv s r s' out res :
  grantAs s r = (s', out, res) → res = r ∧ (s', out) = updateTimeGrant s.
Proof. unfold grantAs. destruct (updateTimeGrant s). by intros [= -> -> ->]. Qed.

Lemma noGrant_inv s update s' out res :
  noGrant s update = (s', out, res) → res = continue_processing.
Proof. by intros [= _ _ ->]. Qed.

(** When [grantDecision] does not continue, the grant is the one of [updateTimeGrant]
    on a state with the same times, and the execution time is allowed. *)
Lemma grantDecision_granted s update s' out res :
  grantDecision s update = (s', out, res) → res ≠ continue_processing →
  (res = next_step ∨ res = mpr_iterating) ∧
  (time_exec s < time_allow s ∨
   time_allow s = time_exec s ∧
     (tc_time_requested s ≤ time_exec s ∨ readyLoop (dependencies s) (time_exec s) = true)) ∧
  ∃ n, (s', out) = updateTimeGrant (s <| iteration := n |>).
Proof.
  unfold grantDecision. rewrite !checkIfReadyForTimeGrant_eq.
  intros Hg Hres. cbn -[grantAs noGrant readyLoop Z.ltb Z.leb Z.eqb] in Hg.
  repeat match type of Hg with
  | context [if ?b then _ else _] => destruct b eqn:?
  end; try (by apply noGrant_inv in Hg); apply grantAs_inv in Hg as [-> Hg];
    bool_facts; (split; [by auto|]); (split; [first [by left | right; by auto]|]);
    eexists; exact Hg.
Qed.

(** The two ways out of [checkTimeGrant] with a grant: through [grantDecision] on a
    state that differs from the initial one in the computed time factors only. *)
Lemma checkTimeGrant_granted le s s' out res :
  checkTimeGrant le s = Ok (s', out, res) → res = next_step ∨ res = mpr_iterating →
  let s1 := (updateTimeFactors s).1 in
  time_exec s1 < time_block s1 ∧
  (time_exec s1 < time_allow s1 ∨
   time_allow s1 = time_exec s1 ∧
     (tc_time_requested s1 ≤ time_exec s1 ∨
      readyLoop (dependencies s1) (time_exec s1) = true)) ∧
  ∃ n, (s', out) = updateTimeGrant (s1 <| iteration := n |>).
Proof.
  unfold checkTimeGrant. destruct (updateTimeFactors s) as [s1 up]. cbn [fst].
  intros Hc Hres. case_match.
  { destruct (disconnect le _) as [[s2 o2]| |]; cbn [mbind outcome_bind] in Hc;
      simplify_eq. by destruct Hres. }
  case_match; simplify_eq; [by destruct Hres|]. bool_facts.
  apply grantDecision_granted in Hc as (_ & Hallow & Hgrant); [done|].
  by destruct Hres as [->| ->].
Qed.

(** The granted time after [checkTimeGrant]: unchanged, the execution time, or the
    end of time. *)
Lemma grantDecision_time s update :
  tc_time_granted (grantDecision s update).1.1 = tc_time_granted s ∨
  tc_time_granted (grantDecision s update).1.1 = time_exec s.
Proof.
  destruct (grantDecision s update) as [[s' out] res] eqn:Hg. cbn [fst].
  destruct (decide (res = continue_processing)) as [->|Hne].
  - unfold grantDecision in Hg. cbn -[grantAs noGrant] in Hg. left.
    repeat match type of Hg with
    | context [if ?b then _ else _] => destruct b
    end; first [apply grantAs_inv in Hg as [? _]; done | by injection Hg as <- _].
  - apply grantDecision_granted in Hg as (_ & _ & n & Hg); [|done].
    destruct (updateTimeGrant_spec (s <| iteration := n |>)) as [Hs _].
    rewrite <-Hg in Hs. cbn in Hs. rewrite Hs. case_bool_decide; auto.
Qed.

Lemma removeDependent_granted s fed :
  tc_time_granted (removeDependent s fed) = tc_time_granted s ∧
  tc_source_id (removeDependent s fed) = tc_source_id s.
Proof. unfold removeDependent. by repeat case_match. Qed.

Lemma updateDependencyTime_frame s cmd :
  tc_time_granted (updateDependencyTime s cmd).1 = tc_time_granted s ∧
  tc_source_id (updateDependencyTime s cmd).1 = tc_source_id s.
Proof. unfold updateDependencyTime. by destruct (updateTime _ _). Qed.

(** Disconnect and error messages: no message is sent in response. *)
Definition is_bye (a : action_t) : bool :=
  bool_decide (a = cmd_disconnect) || bool_decide (a = cmd_local_error).

Lemma processTimeMessage_bye s cmd :
  is_bye (action cmd) = true →
  processTimeMessage s cmd =
    ((updateDependencyTime (removeDependent s (source_id cmd)) cmd).1, [],
     (updateDependencyTime (removeDependent s (source_id cmd)) cmd).2).
Proof.
  unfold is_bye. intros [Hb|Hb]%orb_true_iff; bool_facts;
    unfold processTimeMessage, isDelayableMessage; rewrite Hb;
    rewrite !bool_decide_false by done; cbn; by destruct (updateDependencyTime _ _).
Qed.

Lemma byeLoop_frame le conns s bye multi s' out multi' :
  is_bye (action bye) = true → byeLoop le s conns bye multi = Ok (s', out, multi') →
  tc_time_granted s' = tc_time_granted s ∧ tc_source_id s' = tc_source_id s ∧ out = [].
Proof.
  revert s bye multi s' out multi'.
  induction conns as [|fed conns IH]; intros s bye multi s' out multi' Hb; simpl.
  { by intros [= <- <- _]. }
  case_match.
  - rewrite processTimeMessage_bye by done.
    set (s1 := (updateDependencyTime _ _).1).
    assert (tc_time_granted s1 = tc_time_granted s ∧ tc_source_id s1 = tc_source_id s)
      as [Hg1 Hs1].
    { destruct (updateDependencyTime_frame (removeDependent s (source_id bye))
        (bye <| dest_id := fed |>)) as [Hg Hs].
      destruct (removeDependent_granted s (source_id bye)) as [Hg' Hs'].
      split; [exact (eq_trans Hg Hg')|exact (eq_trans Hs Hs')]. }
    destruct (byeLoop le s1 conns _ multi) as [[[s2 o2] m2]| |] eqn:Hl;
      cbn [mbind outcome_bind]; [|done..]. intros [= <- <- _].
    apply IH in Hl as (-> & -> & ->); [|done]. by rewrite Hg1, Hs1.
  - destruct (appendMessage le multi _) as [[n m1]| |]; cbn [mbind outcome_bind]; [|done..].
    by apply IH.
Qed.

Lemma sayBye_granted le s a s' out :
  is_bye a = true → sayBye le s a = Ok (s', out) → tc_time_granted s' = Time_maxVal.
Proof.
  intros Ha. unfold sayBye. cbv zeta.
  set (s0 := s <| tc_time_granted := _ |> <| time_grantBase := _ |>).
  set (bye := (newMessage a) <| source_id := _ |>).
  destruct (connections s0) as [|fed [|fed2 conns]].
  - by intros [= <- _].
  - case_match; [|by intros [= <- _]].
    rewrite processTimeMessage_bye by done. intros [= <- _].
    destruct (updateDependencyTime_frame (removeDependent s0 (source_id bye))
      (bye <| dest_id := fed |>)) as [Hg _].
    destruct (removeDependent_granted s0 (source_id bye)) as [Hg' _].
    exact (eq_trans Hg Hg').
  - destruct (byeLoop le s0 _ bye _) as [[[s2 o2] m2]| |] eqn:Hl;
      cbn [mbind outcome_bind]; [|done..]. intros [= <- _].
    by apply byeLoop_frame in Hl as (-> & _ & _).
Qed.

Lemma checkTimeGrant_time le s s' out res :
  checkTimeGrant le s = Ok (s', out, res) →
  tc_time_granted s' = tc_time_granted s ∨
  tc_time_granted s' = nextExecutionTime s ∨ tc_time_granted s' = Time_maxVal.
Proof.
  unfold checkTimeGrant. destruct (updateTimeFactors_form s) as (mm & nx & md & Hform).
  destruct (updateTimeFactors s) as [s1 up]. cbn [fst] in Hform.
  destruct (_ && _).
  - destruct (disconnect le _) as [[s2 o2]| |] eqn:Hd; cbn [mbind outcome_bind]; [|done..].
    intros [= <- _ _]. apply sayBye_granted in Hd; auto.
  - destruct (time_block s1 <=? _); intros [= Hc]; subst.
    + by left.
    + match type of Hc with grantDecision ?x ?u = _ =>
        pose proof (grantDecision_time x u) as Ht; rewrite Hc in Ht end.
      cbn in Ht. tauto.
Qed.

End grants.

Section safety.
  Context `{TimeLaws}.
  Implicit Types (s : TimeCoordinator).

(** The arithmetic of the allowed time is exact for the dependencies of [s]. *)
Definition delays_representable s : Prop :=
  ∀ d, d ∈ dependencies s → Tnext d < Time_maxVal →
    time_range (inputDelay (info s) + Tnext d).

Lemma time_allow_le s d :
  delays_representable s → d ∈ dependencies s → Tnext d < Time_maxVal →
  (if minTnext (dependencies s) <? Time_maxVal
   then inputDelay (info s) +t minTnext (dependencies s) else Time_maxVal)
  ≤ inputDelay (info s) + Tnext d.
Proof.
  intros Hr Hd Hlt. unfold minTnext.
  destruct (foldl_min_le (dependencies s) Time_maxVal) as [_ Hall].
  rewrite Forall_forall in Hall. specialize (Hall d Hd).
  rewrite (proj2 (Z.ltb_lt _ _)) by lia.
  destruct (foldl_min_attained (dependencies s) Time_maxVal) as [Heq|Hex]; [lia|].
  apply Exists_exists in Hex as (d' & Hd' & Heq). rewrite Heq in *.
  rewrite law_add; [lia|]. apply Hr; [done|lia].
Qed.

(** C1. Safety of a grant.  When [checkTimeGrant] grants a time, that time is below
    every blocking time, and no later than the next time of each dependency plus the
    input delay; it equals such a bound only when the federate asked for no more than
    that time, or when every dependency has requested a time not before it.  Unless an
    iteration is forced the federate's granted time becomes the time that was checked,
    and the grant is announced to every dependent. *)
Theorem grant_safety le s s' out res :
  delays_representable s →
  checkTimeGrant le s = Ok (s', out, res) → res = next_step ∨ res = mpr_iterating →
  time_exec s' < time_block s ∧
  (∀ d, d ∈ dependencies s → Tnext d < Time_maxVal →
     time_exec s' ≤ inputDelay (info s) + Tnext d) ∧
  ((∀ d, d ∈ dependencies s → Tnext d < Time_maxVal →
      time_exec s' < inputDelay (info s) + Tnext d) ∨
   tc_time_requested s ≤ time_exec s' ∨
   Forall (λ d, time_exec s' < Tnext d ∨
                (time_exec s' = Tnext d ∧ time_state d ≠ time_granted)) (dependencies s)) ∧
  (iterating s ≠ force_iteration → tc_time_granted s' = time_exec s') ∧
  out = grantMessages s (tc_time_granted s') (iteration s').
Proof.
  intros Hr Hc Hres. destruct (checkTimeGrant_granted le s s' out res Hc Hres)
    as (Hblock & Hallow & n & Hgrant). clear Hc.
  destruct (updateTimeFactors_form s) as (mm & nx & md & Hform).
  rewrite Hform in *. cbn in Hblock, Hallow.
  match type of Hgrant with _ = updateTimeGrant ?x =>
    destruct (updateTimeGrant_spec x) as (Hg & He & Hn & Ho) end.
  rewrite <-Hgrant in Hg, He, Hn, Ho. cbn in Hg, He, Hn, Ho. rewrite He, Hn, Ho, Hg.
  pose proof (λ d, time_allow_le s d Hr) as Hle.
  split; [done|]. split; [intros d Hd Hlt; specialize (Hle d Hd Hlt); lia|].
  split; [|split; [|done]].
  - destruct Hallow as [Hlt|[_ [Hreq|Hready]]]; [left|by auto|].
    + intros d Hd Ht. specialize (Hle d Hd Ht). lia.
    + right; right. by apply readyLoop_iff.
  - intros Hf. by rewrite bool_decide_false.
Qed.

End safety.

(** ** Progress along the grid *)

Section progress.
  Context `{TimeLaws}.
  Implicit Types (s : TimeCoordinator).

(** The federate is in execution mode at a granted time from which the arithmetic on
    times up to [horizon] is exact: no overflow, and exact quotients by the period. *)
Record grid_upto s (horizon : Time) : Prop := {
  gu_base : time_grantBase s = tc_time_granted s;
  gu_granted : 0 ≤ tc_time_granted s;
  gu_delta : 0 < timeDelta (info s);
  gu_offset : Time_minVal ≤ offset (info s) ≤ horizon;
  gu_next : tc_time_granted s + 2 * Z.max (timeDelta (info s)) (period (info s)) ≤ horizon;
  gu_max : horizon + Z.max (timeDelta (info s)) (period (info s)) ≤ Time_maxVal;
  gu_exact : ∀ t, tc_time_granted s < t ≤ horizon →
    exact_blocks (t - tc_time_granted s) (period (info s));
}.

Lemma grid_upto_exact s horizon t :
  grid_upto s horizon → timeEpsilon < period (info s) → tc_time_granted s < t ≤ horizon →
  grid_exact s t.
Proof.
  intros [Hb Hg Hd Ho Hn Hm He] Hp Ht. time_facts.
  pose proof (blocks_upper (t - tc_time_granted s) (period (info s))).
  pose proof (blocks_pos (t - tc_time_granted s) (period (info s))).
  split; rewrite ?Hb; unfold time_range; try (by apply He); nia.
Qed.

(** Rounding a later time up to the grid gives a later time, one period further at
    most, and on the grid. *)
Lemma generateAllowedTime_upto s horizon t :
  grid_upto s horizon → tc_time_granted s < t ≤ horizon →
  t ≤ generateAllowedTime s t ∧
  generateAllowedTime s t ≤ t + Z.max (timeDelta (info s)) (period (info s)) ∧
  (timeEpsilon < period (info s) →
   ∃ k, 1 ≤ k ∧ generateAllowedTime s t = tc_time_granted s + k * period (info s)).
Proof.
  intros Hu Ht. pose proof Hu as [Hb Hg Hd Ho Hn Hm He]. time_facts.
  destruct (Z.lt_ge_cases timeEpsilon (period (info s))) as [Hp|Hp].
  - pose proof (grid_upto_exact s horizon t Hu Hp Ht) as Hex.
    rewrite generateAllowedTime_grid by (done || lia). rewrite Hb.
    pose proof (blocks_ge (t - tc_time_granted s) (period (info s))).
    pose proof (blocks_pos (t - tc_time_granted s) (period (info s))).
    pose proof (blocks_upper (t - tc_time_granted s) (period (info s))).
    split; [lia|]. split; [lia|]. intros _. eexists. split; [done|lia].
  - rewrite generateAllowedTime_off by done. split; [lia|]. split; [lia|]. lia.
Qed.

Lemma getNextPossibleTime_bounds s horizon :
  grid_upto s horizon → tc_time_granted s < getNextPossibleTime s ≤ horizon.
Proof.
  intros Hu. pose proof Hu as [Hb Hg Hd Ho Hn Hm He]. unfold getNextPossibleTime. time_facts.
  pose proof (generateAllowedTime_upto s horizon
    (tc_time_granted s + Z.max (timeDelta (info s)) (period (info s))) Hu) as Hgen.
  destruct (Z.eqb_spec (tc_time_granted s) timeZero) as [Hz|Hz].
  - destruct (Z.ltb_spec (timeDelta (info s)) (offset (info s))); [lia|].
    destruct (Z.eqb_spec (offset (info s)) timeZero) as [Ho0|Ho0].
    { rewrite Hz, timeZero_eq, Z.add_0_l in Hgen. lia. }
    destruct (Z.leb_spec (period (info s)) Time_epsilon) as [Hp|Hp]; [lia|].
    fold timeEpsilon in Hp.
    assert (offset (info s) +t period (info s) = offset (info s) + period (info s)) as Hadd
      by (apply law_add; unfold time_range; lia).
    rewrite Hadd.
    set (fuel := Z.to_nat _).
    pose proof (addPeriods_ge fuel (offset (info s) + period (info s))
      (timeDelta (info s)) (period (info s))) as Hge.
    pose proof (addPeriods_upper fuel (offset (info s) + period (info s))
      (timeDelta (info s)) (period (info s))) as Hup.
    unfold time_range in *. lia.
  - rewrite law_add by (unfold time_range; lia). rewrite Hb. lia.
Qed.

(** The first of the requested time and of the pending events. *)
Definition eventTime s : Time :=
  let e := Z.min (time_message s) (time_value s) in
  Z.min (tc_time_requested s) (if e <? Time_maxVal then e +t inputDelay (info s) else e).

(** How [time_exec] relates to the granted time. *)
Lemma nextExecutionTime_cases s horizon :
  grid_upto s horizon → uninterruptible (info s) = false →
  eventTime s ≤ horizon ∨ eventTime s = Time_maxVal →
  (nextExecutionTime s = tc_time_granted s ∧ iterating s ≠ no_iterations) ∨
  nextExecutionTime s = Time_maxVal ∨
  ∃ e, tc_time_granted s < e ≤ horizon ∧ nextExecutionTime s = generateAllowedTime s e.
Proof.
  intros Hu Hun Hev. pose proof Hu as [Hb Hg Hd Ho Hn Hm He]. time_facts.
  pose proof (getNextPossibleTime_bounds s horizon Hu) as Hnext.
  unfold nextExecutionTime. rewrite Hun. cbv zeta.
  change (Z.min (tc_time_requested s) _) with (eventTime s).
  assert (∀ e, tc_time_granted s ≤ e ≤ Time_maxVal →
    e -t tc_time_granted s = e - tc_time_granted s) as Hsub.
  { intros e Hle. apply law_sub. unfold time_range. lia. }
  destruct (Z.leb_spec (eventTime s) (tc_time_granted s)) as [Hle|Hgt].
  - case_bool_decide as Hi.
    + rewrite Hsub by lia. rewrite (proj2 (Z.ltb_lt _ _)) by lia. eauto.
    + rewrite Hsub by lia. rewrite (proj2 (Z.ltb_ge _ _)) by lia. eauto.
  - rewrite Hsub by lia. rewrite (proj2 (Z.ltb_lt _ _)) by lia.
    destruct Hev as [Hev| ->]; [|rewrite generateAllowedTime_max; by auto].
    right; right. eexists. split; [|done]. lia.
Qed.

(** Granted times never decrease: whatever [checkTimeGrant] returns, the granted
    time after it is not before the one it started from.  (An uninterruptible federate
    is given the time it requested, which [timeRequest] keeps after the granted one.) *)
Theorem grants_monotone le s s' out res horizon :
  grid_upto s horizon →
  (uninterruptible (info s) = true → tc_time_granted s ≤ tc_time_requested s) →
  eventTime s ≤ horizon ∨ eventTime s = Time_maxVal →
  checkTimeGrant le s = Ok (s', out, res) →
  tc_time_granted s ≤ tc_time_granted s'.
Proof.
  intros Hu Hun Hev Hc. pose proof (gu_next _ _ Hu). pose proof (gu_max _ _ Hu).
  pose proof (gu_delta _ _ Hu).
  apply checkTimeGrant_time in Hc as [->|[->| ->]]; [done| |lia].
  destruct (uninterruptible (info s)) eqn:Hi.
  { unfold nextExecutionTime. rewrite Hi. auto. }
  destruct (nextExecutionTime_cases s horizon Hu Hi Hev) as [[-> _]|[->|(e & He & ->)]];
    [lia|lia|].
  destruct (generateAllowedTime_upto s horizon e Hu He) as [Hge _]. lia.
Qed.

(** With a period, a grant is a whole number of periods after the previous one
    (or repeats it in an iteration, or is the end of time): the offset of the
    configuration does not shift the grid. *)
Theorem grant_on_grid le s s' out res horizon :
  grid_upto s horizon → uninterruptible (info s) = false →
  timeEpsilon < period (info s) →
  eventTime s ≤ horizon ∨ eventTime s = Time_maxVal →
  checkTimeGrant le s = Ok (s', out, res) →
  tc_time_granted s' = Time_maxVal ∨
  ∃ k, 0 ≤ k ∧ tc_time_granted s' = tc_time_granted s + k * period (info s).
Proof.
  intros Hu Hi Hp Hev Hc.
  apply checkTimeGrant_time in Hc as [->|[->| ->]]; [right; exists 0; lia| |by left].
  destruct (nextExecutionTime_cases s horizon Hu Hi Hev) as [[-> _]|[->|(e & He & ->)]];
    [right; exists 0; lia|by left|].
  destruct (generateAllowedTime_upto s horizon e Hu He) as (_ & _ & Hk).
  destruct (Hk Hp) as (k & Hk1 & ->). right. exists k. lia.
Qed.

(** [generateAllowedTime] computes the first time of the grid that is at least one
    period after the base and not before the time it is given. *)
Lemma generateAllowedTime_least s t :
  timeEpsilon < period (info s) → t ≠ Time_maxVal → grid_exact s t →
  (∃ k, 1 ≤ k ∧ generateAllowedTime s t = time_grantBase s + k * period (info s)) ∧
  t ≤ generateAllowedTime s t ∧
  (∀ k, 1 ≤ k → t ≤ time_grantBase s + k * period (info s) →
     generateAllowedTime s t ≤ time_grantBase s + k * period (info s)).
Proof.
  intros Hp Ht Hex. pose proof timeEpsilon_pos.
  split; [|split; [by apply generateAllowedTime_ge|]].
  - rewrite generateAllowedTime_grid by done.
    exists (blocks (t - time_grantBase s) (period (info s))). split; [apply blocks_pos|lia].
  - intros k Hk Hle. rewrite generateAllowedTime_grid by done.
    pose proof (blocks_least (t - time_grantBase s) (period (info s)) k). nia.
Qed.

(** The next possible time is after the granted time, for every setting of the
    offset, period and minimum time step, and the loop that computes it from a small
    offset ends: its fuel is enough. *)
Theorem nextPossibleTime_advances s horizon :
  grid_upto s horizon →
  tc_time_granted s < getNextPossibleTime s ≤ horizon ∧
  (timeEpsilon < period (info s) → offset (info s) ≤ timeDelta (info s) →
   ∀ fuel, timeDelta (info s) - (offset (info s) + period (info s)) ≤ Z.of_nat fuel →
     let t := addPeriods fuel (offset (info s) + period (info s)) (timeDelta (info s))
                (period (info s)) in
     timeDelta (info s) ≤ t ∧
     t = addPeriods (Z.to_nat (timeDelta (info s) - (offset (info s) + period (info s))))
           (offset (info s) + period (info s)) (timeDelta (info s)) (period (info s))).
Proof.
  intros Hu. split; [by apply getNextPossibleTime_bounds|].
  intros Hp Ho fuel Hf t. pose proof Hu as [Hb Hg Hd Hof Hn Hm He]. time_facts.
  split; [apply addPeriods_ge|apply addPeriods_fuel]; unfold time_range; lia.
Qed.

End progress.

(** ** Witnesses *)

(** A federate just after its entry into execution mode, with a period of 20, an offset
    of 10, one dependency that requested the time 100 and one dependent, requesting the
    time 10. *)
Definition sample_dep : DependencyInfo :=
  (newDependencyInfo 131073) <| time_state := time_requested |> <| Tnext := 100 |>
    <| dep_Te := 100 |> <| dep_Tdemin := 100 |>.
Definition sample_start : TimeCoordinator :=
  newTimeCoordinator <| tc_source_id := 131072 |> <| tc_time_granted := 0 |>
    <| time_grantBase := 0 |> <| executionMode := true |>
    <| info := default_tcoptions <| period := 20 |> <| offset := 10 |> |>
    <| dependencies := [sample_dep] |> <| dependency_federates := [131073] |>
    <| dependents := [131074] |> <| dependent_federates := [131074] |>.
Definition sample_tc : TimeCoordinator :=
  (timeRequest sample_start 10 no_iterations Time_maxVal Time_maxVal).1.

Lemma sample_grid : grid_upto sample_tc 1000.
Proof.
  split; try (vm_compute; intuition congruence).
  intros t Ht. apply nano_exact_blocks.
Defined.

Lemma sample_delays : delays_representable sample_tc.
Proof.
  intros d Hd _. vm_compute in Hd. apply list_elem_of_singleton in Hd. subst d.
  vm_compute. intuition congruence.
Defined.

(** The federate with offset 10 and period 20 that asks for the time 10 is granted 20. *)
Lemma grant_on_grid_witness :
  ∃ s' out, checkTimeGrant true sample_tc = Ok (s', out, next_step) ∧
    tc_time_granted s' = 20 ∧
    (tc_time_granted s' = Time_maxVal ∨
     ∃ k, 0 ≤ k ∧ tc_time_granted s' = tc_time_granted sample_tc + k * period (info sample_tc)).
Proof.
  do 2 eexists. split; [vm_compute; reflexivity|]. split; [reflexivity|].
  apply (grant_on_grid true sample_tc _ (grantMessages sample_tc 20 0) next_step 1000).
  - apply sample_grid.
  - reflexivity.
  - reflexivity.
  - left. vm_compute. congruence.
  - vm_compute. reflexivity.
Defined.

Lemma grants_monotone_witness :
  ∃ s' out, checkTimeGrant true sample_tc = Ok (s', out, next_step) ∧
    tc_time_granted sample_tc ≤ tc_time_granted s'.
Proof.
  do 2 eexists. split; [vm_compute; reflexivity|].
  apply (grants_monotone true sample_tc _ (grantMessages sample_tc 20 0) next_step 1000).
  - apply sample_grid.
  - vm_compute. discriminate.
  - left. vm_compute. congruence.
  - vm_compute. reflexivity.
Defined.

Lemma grant_safety_witness :
  ∃ s' out, checkTimeGrant true sample_tc = Ok (s', out, next_step) ∧
    time_exec s' < time_block sample_tc ∧
    (∀ d, d ∈ dependencies sample_tc → Tnext d < Time_maxVal →
       time_exec s' ≤ inputDelay (info sample_tc) + Tnext d).
Proof.
  do 2 eexists. split; [vm_compute; reflexivity|].
  destruct (grant_safety true sample_tc
    (match checkTimeGrant true sample_tc with Ok (s', _, _) => s' | _ => sample_tc end)
    (grantMessages sample_tc 20 0) next_step sample_delays)
    as (Hb & Hd & _); [vm_compute; reflexivity|by left|].
  split; [exact Hb|exact Hd].
Defined.

Lemma nextPossibleTime_advances_witness :
  tc_time_granted sample_tc < getNextPossibleTime sample_tc ≤ 1000.
Proof. apply (nextPossibleTime_advances sample_tc 1000 sample_grid). Defined.
