(* ===== verification/TimeCoordinatorInv.v ===== *)
(** * Invariant of the time coordinator

    The public operations of [TimeCoordinator] as a transition system, and the
    invariant of its reachable states: the sorted lists of dependencies and dependents
    agree with the lists kept for other threads, the blocking time is the least of the
    pending blocks, and the minimum time step stays positive. *)

From S2P Require Import Prelude HelicsTime Ids Flags ActionMessage MessageCodec.
From S2P Require Import Definitions TimeDependencies TimeCoordinator TimeCoordinatorFacts.

Section invariant.
  Context `{TimeRep}.
  Implicit Types (s : TimeCoordinator) (cmd : ActionMessage).

(** The least of the pending block times. *)
Definition leastBlock (bs : list (Time * Z)) : Time :=
  foldr (λ b m, Z.min b.1 m) Time_maxVal bs.

Record coordinator_inv s : Prop := {
  inv_deps : deps_sorted (dependencies s);
  inv_events : Forall events_ordered (dependencies s);
  inv_dep_list : dependency_federates s ≡ₚ fedID <$> dependencies s;
  inv_dependents : key_sorted id (dependents s);
  inv_dependent_list : dependent_federates s ≡ₚ dependents s;
  inv_block : time_block s = leastBlock (timeBlocks s);
  inv_block_range : Forall (λ b, b.1 ≤ Time_maxVal) (timeBlocks s);
  inv_delta : 0 < timeDelta (info s);
}.

(** One call of a public operation, whatever it sends or returns; the block times in
    messages are times. *)
Inductive tc_step : TimeCoordinator → TimeCoordinator → Prop :=
  | step_enteringExecMode s mode : tc_step s (enteringExecMode s mode).1
  | step_timeRequest s t it vt mt : tc_step s (timeRequest s t it vt mt).1
  | step_updateValueTime s t : tc_step s (updateValueTime s t).1
  | step_updateMessageTime s t : tc_step s (updateMessageTime s t).1
  | step_dependencyMessage s cmd : tc_step s (processDependencyUpdateMessage s cmd)
  | step_timeMessage s cmd :
      actionTime cmd ≤ Time_maxVal → tc_step s (processTimeMessage s cmd).1.1
  | step_configMessage s cmd : tc_step s (processConfigUpdateMessage s cmd)
  | step_checkExecEntry s : tc_step s (checkExecEntry s).1.1
  | step_checkTimeGrant le s s' out res :
      checkTimeGrant le s = Ok (s', out, res) → tc_step s s'
  | step_disconnect le s s' out : disconnect le s = Ok (s', out) → tc_step s s'
  | step_localError le s s' out : localError le s = Ok (s', out) → tc_step s s'.

(** ** Lemmas *)

(** The invariant reads these members only. *)
Lemma inv_same s s' :
  coordinator_inv s →
  dependencies s' = dependencies s → dependency_federates s' = dependency_federates s →
  dependents s' = dependents s → dependent_federates s' = dependent_federates s →
  time_block s' = time_block s → timeBlocks s' = timeBlocks s → info s' = info s →
  coordinator_inv s'.
Proof. intros [] E1 E2 E3 E4 E5 E6 E7. split; rewrite ?E1, ?E2, ?E3, ?E4, ?E5, ?E6, ?E7; done. Qed.

(** The new state differs in other members only. *)
Ltac inv_keep Hs := eapply inv_same; [exact Hs|reflexivity..].

Lemma fedIDs_fmap (f : DependencyInfo → DependencyInfo) (l : list DependencyInfo) :
  (∀ d, fedID (f d) = fedID d) → fedID <$> (f <$> l) = fedID <$> l.
Proof. intros Hf. rewrite <-list_fmap_compose. apply list_fmap_ext. intros; apply Hf. Qed.

(** An update or a reset of the dependencies keeps their ids. *)
Definition keeps_ids (op : dep_op) : bool :=
  match op with OpAdd _ | OpRemove _ => false | _ => true end.

Lemma dep_run_ids (l : list DependencyInfo) op :
  keeps_ids op = true → fedID <$> (dep_run l op).1 = fedID <$> l.
Proof.
  destruct op as [id|id|m| |t|t]; intros Hk; try done; cbn [dep_run fst].
  - unfold updateTime. destruct (getDependencyIndex l _) as [i|]; [|done].
    destruct (l !! i) as [d|] eqn:Hi; [|done].
    pose proof (ProcessMessage_fedID d m) as Hf.
    destruct (ProcessMessage d m) as [d' b]. cbn in *.
    rewrite list_fmap_insert, Hf. apply list_insert_id. by rewrite list_lookup_fmap, Hi.
  - apply fedIDs_fmap. intros d. by case_match.
  - apply fedIDs_fmap. intros d. by repeat case_match.
  - by apply fedIDs_fmap.
Qed.

Lemma inv_dep_op s op :
  coordinator_inv s → keeps_ids op = true →
  coordinator_inv (s <| dependencies := (dep_run (dependencies s) op).1 |>).
Proof.
  intros [] Hk. split; cbn; try done.
  - by apply dep_run_refines.
  - by apply dep_run_ordered.
  - by rewrite dep_run_ids.
Qed.

Lemma updateTimeFactors_inv s : coordinator_inv s → coordinator_inv (updateTimeFactors s).1.
Proof.
  intros Hs. destruct (updateTimeFactors_form s) as (mm & nx & md & ->).
  by eapply inv_same.
Qed.

Lemma updateDependencyTime_inv s cmd :
  coordinator_inv s → coordinator_inv (updateDependencyTime s cmd).1.
Proof.
  intros Hs. apply (inv_dep_op _ (OpUpdate cmd)) in Hs; [|done].
  unfold updateDependencyTime. cbn in Hs. by destruct (updateTime _ _).
Qed.

(** *** Sorted lists of ids *)

Lemma lower_bound_ids l fed :
  key_sorted id l → lower_bound Z.ltb l fed = prefix_len (λ x, x <? fed) l.
Proof. apply (lower_bound_key_sorted id). Qed.

(** [addDependent] inserts at the lower bound what is not there. *)
Lemma addDependent_eq s fed :
  key_sorted id (dependents s) →
  (addDependent s fed).1 =
    match key_lookup id fed (dependents s) with
    | Some _ => s
    | None => s <| dependents := vec_insert (prefix_len (λ x, x <? fed) (dependents s)) fed
                                   (dependents s) |>
                <| dependent_federates := dependent_federates s ++ [fed] |>
    end.
Proof.
  intros Hs. unfold addDependent. rewrite (key_lookup_sorted id) by done.
  rewrite lower_bound_ids by done. case_bool_decide as Hl.
  { rewrite !Hl. done. }
  change (λ x, id x <? fed) with (λ x, x <? fed).
  destruct (dependents s !! prefix_len _ _) as [d|] eqn:E.
  - unfold id. by destruct (d =? fed).
  - rewrite vec_insert_end; [done|]. by apply lookup_ge_None.
Qed.

Lemma addDependent_inv s fed : coordinator_inv s → coordinator_inv (addDependent s fed).1.
Proof.
  intros Hs. pose proof (inv_dependents s Hs) as Hd. rewrite addDependent_eq by done.
  destruct (key_lookup id fed (dependents s)) eqn:E; [done|].
  destruct Hs. split; cbn; try done.
  - by apply (key_sorted_insert id fed fed).
  - rewrite vec_insert_permutation, inv_dependent_list0. by rewrite Permutation_app_comm.
Qed.

Lemma removeDependent_inv s fed : coordinator_inv s → coordinator_inv (removeDependent s fed).
Proof.
  intros Hs. unfold removeDependent. destruct (dependents s !! _) as [d|] eqn:E; [|done].
  destruct (Z.eqb_spec d fed) as [->|]; [|done].
  destruct Hs. split; cbn; try done.
  - by apply key_sorted_erase.
  - apply vec_remove_permutation. rewrite inv_dependent_list0. by apply vec_erase_permutation.
Qed.

Lemma tc_addDependency_inv s fed :
  coordinator_inv s → coordinator_inv (tc_addDependency s fed).1.
Proof.
  intros Hs. pose proof (inv_deps s Hs) as Hd. pose proof (inv_events s Hs) as He.
  pose proof (inv_dep_list s Hs) as Hl.
  destruct (dep_run_refines (dependencies s) (OpAdd fed) Hd) as [Hd1 _].
  pose proof (dep_run_ordered (dependencies s) (OpAdd fed) He) as He1.
  cbn in Hd1, He1. unfold tc_addDependency.
  rewrite addDependency_eq in * by done.
  destruct (deps_map (dependencies s) !! fed) eqn:E; [by eapply inv_same|].
  cbn in *. destruct Hs. split; cbn; try done.
  rewrite Hl, vec_insert_permutation. cbn. by rewrite Permutation_app_comm.
Qed.

Lemma vec_remove_notin x l : x ∉ l → vec_remove x l = l.
Proof.
  intros Hx. unfold vec_remove. destruct (list_find (x =.) l) as [[i y]|] eqn:Hf; [|done].
  apply list_find_Some in Hf as (Hi & <- & _). by apply list_elem_of_lookup_2 in Hi.
Qed.

Lemma tc_removeDependency_inv s fed :
  coordinator_inv s → coordinator_inv (tc_removeDependency s fed).
Proof.
  intros Hs. pose proof (inv_deps s Hs) as Hd. pose proof (inv_events s Hs) as He.
  pose proof (inv_dep_list s Hs) as Hl.
  destruct (dep_run_refines (dependencies s) (OpRemove fed) Hd) as [Hd1 _].
  pose proof (dep_run_ordered (dependencies s) (OpRemove fed) He) as He1.
  cbn in Hd1, He1. destruct Hs. split; cbn; try done.
  rewrite removeDependency_eq by done. rewrite deps_search by done.
  destruct (dependencies s !! prefix_len _ _) as [d|] eqn:E.
  - destruct (Z.eqb_spec (fedID d) fed) as [Hf|Hf].
    + apply vec_remove_permutation. rewrite Hl.
      rewrite (vec_erase_permutation _ d (dependencies s)) at 1 by done. cbn. by rewrite Hf.
    + rewrite vec_remove_notin; [done|]. rewrite Hl. intros (d' & -> & Hin)%list_elem_of_fmap.
      apply (key_lookup_absent fedID (fedID d')) in Hin; [done|done|].
      rewrite key_lookup_sorted, E by done. by rewrite (proj2 (Z.eqb_neq _ _)).
  - rewrite vec_remove_notin; [done|]. rewrite Hl. intros (d' & -> & Hin)%list_elem_of_fmap.
    apply (key_lookup_absent fedID (fedID d')) in Hin; [done|done|].
    by rewrite key_lookup_sorted, E by done.
Qed.

(** *** Blocking times *)

Lemma leastBlock_app bs bs' :
  leastBlock (bs ++ bs') = Z.min (leastBlock bs) (leastBlock bs') ∨
  Time_maxVal < leastBlock bs'.
Proof.
  induction bs as [|b bs IH]; simpl; [|lia].
  destruct (Z.lt_ge_cases Time_maxVal (leastBlock bs')); [by right|left; lia].
Qed.

Lemma leastBlock_le bs : leastBlock bs ≤ Time_maxVal.
Proof. induction bs as [|b bs IH]; simpl; lia. Qed.

Lemma leastBlock_permutation bs bs' : bs ≡ₚ bs' → leastBlock bs = leastBlock bs'.
Proof. induction 1; simpl; lia. Qed.

Lemma min_block_least b bs :
  Forall (λ b, b.1 ≤ Time_maxVal) (b :: bs) → (min_block b bs).1 = leastBlock (b :: bs).
Proof.
  unfold min_block. revert b. induction bs as [|c bs IH]; intros b Hf; simpl.
  { apply Forall_cons in Hf as [Hb _]. simpl in Hb. lia. }
  apply Forall_cons in Hf as [Hb Hf]. pose proof Hf as [Hc Hf']%Forall_cons.
  destruct (Z.ltb_spec c.1 b.1).
  - rewrite IH by done. simpl. lia.
  - rewrite IH by (by constructor). simpl. lia.
Qed.

(** Recomputing the blocking time after the removal of a block. *)
Lemma unblock_inv s ltime bs :
  coordinator_inv s → Forall (λ b, b.1 ≤ Time_maxVal) bs →
  leastBlock (timeBlocks s) = Z.min ltime (leastBlock bs) →
  coordinator_inv
    (if ltime <=? time_block s then
       match bs with
       | b :: bs' => s <| timeBlocks := bs |> <| time_block := (min_block b bs').1 |>
       | [] => s <| timeBlocks := bs |> <| time_block := Time_maxVal |>
       end
     else s <| timeBlocks := bs |>).
Proof.
  intros Hs Hf Hl. pose proof (inv_block s Hs) as Hb.
  destruct (Z.leb_spec ltime (time_block s)) as [Hle|Hgt].
  - destruct bs as [|b bs]; destruct Hs; split; cbn -[min_block leastBlock]; try done.
    by apply min_block_least.
  - destruct Hs. split; cbn -[leastBlock]; try done. lia.
Qed.

Lemma processTimeBlockMessage_inv s cmd :
  actionTime cmd ≤ Time_maxVal → coordinator_inv s →
  coordinator_inv (processTimeBlockMessage s cmd).1.
Proof.
  intros Ht Hs. pose proof (inv_block s Hs) as Hb. pose proof (inv_block_range s Hs) as Hr.
  unfold processTimeBlockMessage. destruct (action cmd); try exact Hs; cbn [fst].
  - assert (leastBlock (timeBlocks s ++ [(actionTime cmd, messageID cmd)])
      = Z.min (time_block s) (actionTime cmd)) as Hl.
    { rewrite Hb. pose proof (leastBlock_le (timeBlocks s)).
      destruct (leastBlock_app (timeBlocks s) [(actionTime cmd, messageID cmd)]);
        simpl in *; lia. }
    assert (Forall (λ b : Time * Z, b.1 ≤ Time_maxVal)
      (timeBlocks s ++ [(actionTime cmd, messageID cmd)])) as Hf.
    { apply Forall_app_2; [done|]. by constructor. }
    cbv zeta. cbn [time_block upd].
    destruct (Z.ltb_spec (actionTime cmd) (time_block s)); destruct Hs;
      split; cbn -[leastBlock]; try done; rewrite Hl; lia.
  - destruct (timeBlocks s) as [|front rest] eqn:Ebs; [done|].
    destruct (front.2 =? messageID cmd).
    + pose proof (unblock_inv s front.1 rest Hs) as Hu. rewrite Ebs in Hu.
      specialize (Hu ltac:(by apply Forall_cons in Hr as [_ ?]) eq_refl).
      cbn [timeBlocks time_block upd] in *. destruct (front.1 <=? time_block s);
        [destruct rest|]; exact Hu.
    + destruct (list_find _ _) as [[i blk]|] eqn:Hf.
      * apply list_find_Some in Hf as (Hi & _ & _).
        pose proof (vec_erase_permutation i blk _ Hi) as Hp.
        pose proof (unblock_inv s blk.1 (vec_erase i (front :: rest)) Hs) as Hu.
        rewrite Ebs in Hu. rewrite Hp in Hr. apply Forall_cons in Hr as [_ Hr].
        specialize (Hu Hr (leastBlock_permutation _ _ Hp)).
        cbn [timeBlocks time_block upd] in *. destruct (blk.1 <=? time_block s);
          [destruct (vec_erase _ _)|]; exact Hu.
      * pose proof (unblock_inv s Time_maxVal (front :: rest) Hs Hr) as Hu.
        rewrite Ebs in Hu. pose proof (leastBlock_le (front :: rest)).
        specialize (Hu ltac:(lia)). rewrite Ebs.
        destruct (Time_maxVal <=? time_block s); [|done].
        eapply inv_same; [exact Hu|done..].
Qed.

(** *** The operations *)

Lemma processTimeMessage_inv s cmd :
  actionTime cmd ≤ Time_maxVal → coordinator_inv s →
  coordinator_inv (processTimeMessage s cmd).1.1.
Proof.
  intros Ht Hs. pose proof (processTimeBlockMessage_inv s cmd Ht Hs) as Hb.
  assert (∀ s0, coordinator_inv s0 → coordinator_inv
    (if isDelayableMessage cmd (tc_source_id s0) then
       match getDependencyInfo (dependencies s0) (source_id cmd) with
       | None => (s0, [], no_effect)
       | Some dep =>
           if delayedBy s0 dep then (s0, [], delay_processing)
           else let '(s0, res) := updateDependencyTime s0 cmd in (s0, [] : list ActionMessage, res)
       end
     else let '(s0, res) := updateDependencyTime s0 cmd in (s0, [], res)).1.1) as Htail.
  { intros s0 Hs0. pose proof (updateDependencyTime_inv s0 cmd Hs0) as Hu.
    destruct (updateDependencyTime s0 cmd). by repeat case_match. }
  unfold processTimeMessage. destruct (action cmd); try (exact (Htail s Hs)).
  all: try exact (Htail _ (removeDependent_inv s (source_id cmd) Hs)).
  all: try (destruct (processTimeBlockMessage s cmd); exact Hb).
  destruct (tc_time_granted s <? actionTime cmd); [|exact Hs].
  inv_keep Hs.
Qed.

Lemma byeLoop_inv le conns s bye multi s' out multi' :
  actionTime bye ≤ Time_maxVal → coordinator_inv s →
  byeLoop le s conns bye multi = Ok (s', out, multi') → coordinator_inv s'.
Proof.
  intros Ht. revert s bye multi s' out multi' Ht.
  induction conns as [|fed conns IH]; intros s bye multi s' out multi' Ht Hs;
    cbn [byeLoop]; cbv zeta.
  { by intros [= <- _ _]. }
  destruct (fed =? tc_source_id s).
  - match goal with |- context [processTimeMessage s ?b] =>
      pose proof (processTimeMessage_inv s b Ht Hs) as Hp;
      destruct (processTimeMessage s b) as [[s1 o1] r1]
    end.
    destruct (byeLoop le s1 conns _ multi) as [[[s2 o2] m2]| |] eqn:Hl;
      cbn [mbind outcome_bind]; [|done..]. intros [= <- _ _]. eapply IH; [..|exact Hl]; done.
  - destruct (appendMessage le multi _) as [[n m1]| |]; cbn [mbind outcome_bind]; [|done..].
    by apply IH.
Qed.

Lemma sayBye_inv le s a s' out :
  timeZero ≤ Time_maxVal → coordinator_inv s → sayBye le s a = Ok (s', out) →
  coordinator_inv s'.
Proof.
  intros Hz Hs. unfold sayBye. cbv zeta.
  set (s0 := s <| tc_time_granted := _ |> <| time_grantBase := _ |>).
  assert (coordinator_inv s0) as Hs0 by by eapply inv_same.
  set (bye := (newMessage a) <| source_id := _ |>).
  destruct (connections s0) as [|fed [|fed2 conns]].
  - by intros [= <- _].
  - pose proof (processTimeMessage_inv s0 (bye <| dest_id := fed |>) Hz Hs0) as Hp.
    destruct (dest_id _ =? _); [|intros [= <- _]; inv_keep Hs0].
    destruct (processTimeMessage s0 _) as [[s1 o1] r1]. intros [= <- _].
    inv_keep Hp.
  - destruct (byeLoop le s0 _ bye _) as [[[s2 o2] m2]| |] eqn:Hl;
      cbn [mbind outcome_bind]; [|done..]. intros [= <- _].
    apply byeLoop_inv in Hl; [|done..]. inv_keep Hl.
Qed.

Lemma updateTimeGrant_inv s : coordinator_inv s → coordinator_inv (updateTimeGrant s).1.
Proof.
  intros Hs. unfold updateTimeGrant. cbn [fst].
  assert (∀ s0, coordinator_inv s0 → coordinator_inv
    (s0 <| dependencies := resetIteratingTimeRequests (dependencies s0) (time_exec s0) |>))
    as Hreset.
  { intros s0 Hs0. exact (inv_dep_op s0 (OpResetTime (time_exec s0)) Hs0 eq_refl). }
  destruct (negb (bool_decide (iterating s = force_iteration)));
    destruct (negb (bool_decide (_ = no_iterations))); try apply Hreset;
    by try eapply inv_same.
Qed.

Lemma grantDecision_inv s update :
  coordinator_inv s → coordinator_inv (grantDecision s update).1.1.
Proof.
  intros Hs.
  assert (∀ n r, coordinator_inv (grantAs (s <| iteration := n |>) r).1.1) as Hgrant.
  { intros n r. pose proof (updateTimeGrant_inv (s <| iteration := n |>)) as Hu.
    unfold grantAs. destruct (updateTimeGrant _). apply Hu. by eapply inv_same. }
  assert (∀ n, coordinator_inv (noGrant (s <| iteration := n |>) update).1.1) as Hno.
  { intros n. by eapply inv_same. }
  unfold grantDecision, incrIteration. cbv zeta.
  repeat match goal with
  | |- context [if ?b then _ else _] => destruct b
  end; first [apply Hgrant | apply Hno | done].
Qed.

Lemma checkTimeGrant_inv le s s' out res :
  timeZero ≤ Time_maxVal → coordinator_inv s →
  checkTimeGrant le s = Ok (s', out, res) → coordinator_inv s'.
Proof.
  intros Hz Hs. unfold checkTimeGrant. apply updateTimeFactors_inv in Hs.
  destruct (updateTimeFactors s) as [s1 up]. cbn [fst] in Hs.
  destruct (_ && _).
  - destruct (disconnect le _) as [[s2 o2]| |] eqn:Hd; cbn [mbind outcome_bind]; [|done..].
    intros [= <- _ _]. eapply sayBye_inv; [done| |exact Hd]. by eapply inv_same.
  - destruct (_ <=? _); intros [= Hc]; [by subst|].
    apply (grantDecision_inv s1 up) in Hs. by rewrite Hc in Hs.
Qed.

Lemma timeRequest_inv s t it vt mt :
  coordinator_inv s → coordinator_inv (timeRequest s t it vt mt).1.
Proof.
  intros Hs. unfold timeRequest.
  match goal with |- context [let '(_, _) := ?p in _] => destruct p as [s1 t1] eqn:E end.
  assert (coordinator_inv s1) as Hs1.
  { revert E. destruct (negb (bool_decide _)); cbv zeta; [intros [= <- _]; inv_keep Hs|].
    destruct (uninterruptible _); intros [= <- _]; inv_keep Hs. }
  clear E. cbv zeta. cbn [fst]. apply updateTimeFactors_inv.
  match goal with |- coordinator_inv (?x <| dependencies := _ |>) =>
    assert (coordinator_inv x) as Hx; [|exact (inv_dep_op x (OpResetEvents _) Hx eq_refl)] end.
  destruct (uninterruptible _); inv_keep Hs1.
Qed.

Lemma updateNextExecutionTime_inv s :
  coordinator_inv s → coordinator_inv (updateNextExecutionTime s).1.
Proof. intros Hs. inv_keep Hs. Qed.

Lemma updateValueTime_inv s t : coordinator_inv s → coordinator_inv (updateValueTime s t).1.
Proof.
  intros Hs. unfold updateValueTime. destruct (negb _).
  { destruct (t <? timeZero); inv_keep Hs. }
  destruct (t <? _); [|done]. cbv zeta. destruct (_ && _); [|inv_keep Hs].
  match goal with |- context [updateNextExecutionTime ?x] =>
    pose proof (updateNextExecutionTime_inv x) as Hx; destruct (updateNextExecutionTime x) end.
  apply Hx. inv_keep Hs.
Qed.

Lemma updateMessageTime_inv s t :
  coordinator_inv s → coordinator_inv (updateMessageTime s t).1.
Proof.
  intros Hs. unfold updateMessageTime. destruct (negb _).
  { destruct (t <? timeZero); inv_keep Hs. }
  destruct (t <? _); [|done]. cbv zeta. destruct (_ && _); [|inv_keep Hs].
  match goal with |- context [updateNextExecutionTime ?x] =>
    pose proof (updateNextExecutionTime_inv x) as Hx; destruct (updateNextExecutionTime x) end.
  apply Hx. inv_keep Hs.
Qed.

Lemma processDependencyUpdateMessage_inv s cmd :
  coordinator_inv s → coordinator_inv (processDependencyUpdateMessage s cmd).
Proof.
  intros Hs. unfold processDependencyUpdateMessage.
  destruct (action cmd); auto using addDependent_inv, removeDependent_inv,
    tc_addDependency_inv, tc_removeDependency_inv.
Qed.

Lemma checkExecEntry_inv s : coordinator_inv s → coordinator_inv (checkExecEntry s).1.1.
Proof.
  intros Hs. unfold checkExecEntry. destruct (_ <=? _); [done|].
  destruct (negb _); [done|]. cbv zeta.
  destruct (execEntryResult s); try done; [inv_keep Hs|].
  pose proof (inv_dep_op s OpResetExec Hs eq_refl) as Hx. inv_keep Hx.
Qed.

(** Replacing the options, with a positive minimum time step. *)
Lemma inv_info s o :
  0 < timeDelta o → coordinator_inv s → coordinator_inv (s <| info := o |>).
Proof. intros Ho []. by split. Qed.

Lemma enteringExecMode_inv s mode :
  coordinator_inv s → coordinator_inv (enteringExecMode s mode).1.
Proof. intros Hs. unfold enteringExecMode. destruct (executionMode s); [done|]. inv_keep Hs. Qed.

End invariant.

Section reachable.
  Context `{TimeLaws}.

Lemma setProperty_inv s p v : coordinator_inv s → coordinator_inv (setProperty s p v).
Proof.
  intros Hs. pose proof (inv_delta s Hs). unfold setProperty.
  repeat case_match; try done; apply inv_info; cbn -[Z.lt]; try done; time_lia.
Qed.

Lemma processConfigUpdateMessage_inv s cmd :
  coordinator_inv s → coordinator_inv (processConfigUpdateMessage s cmd).
Proof.
  intros Hs. pose proof (inv_delta s Hs). unfold processConfigUpdateMessage.
  destruct (action cmd); try done; [by apply setProperty_inv|..].
  - unfold setIntProperty. case_match; [by apply inv_info|by apply setProperty_inv].
  - unfold setOptionFlag. repeat case_match; try done; by apply inv_info.
Qed.

Lemma newTimeCoordinator_inv fed : coordinator_inv (newTimeCoordinator <| tc_source_id := fed |>).
Proof. split; try done; try constructor. apply law_eps. Qed.

Lemma tc_step_inv s s' : tc_step s s' → coordinator_inv s → coordinator_inv s'.
Proof.
  assert (timeZero ≤ Time_maxVal) as Hz by time_lia.
  destruct 1; auto using enteringExecMode_inv, timeRequest_inv, updateValueTime_inv,
    updateMessageTime_inv, processDependencyUpdateMessage_inv, processTimeMessage_inv,
    processConfigUpdateMessage_inv, checkExecEntry_inv; intros Hs.
  - by eapply checkTimeGrant_inv.
  - by eapply sayBye_inv.
  - unfold localError in *. case_match; [by simplify_eq|]. by eapply sayBye_inv.
Qed.

(** C2. Every state a coordinator can reach through its public operations satisfies
    the invariant: the dependencies and the dependents are strictly sorted by id, each
    dependency has [Tdemin <= Te], the lists of ids kept for other threads have exactly
    the same members, the blocking time is the least of the pending time blocks, and
    the minimum time step is positive. *)
Theorem reachable_invariant fed s :
  rtc tc_step (newTimeCoordinator <| tc_source_id := fed |>) s → coordinator_inv s.
Proof.
  intros Hr. assert (coordinator_inv (newTimeCoordinator <| tc_source_id := fed |>)) as Hi
    by apply newTimeCoordinator_inv.
  induction Hr as [|s1 s2 s3 Hstep _ IH]; [done|]. by apply IH, (tc_step_inv s1).
Qed.

End reachable.

(** ** Witness *)

(** A coordinator with a dependency, a dependent and two time blocks, of which the
    first is removed. *)
Definition sample_messages : list ActionMessage :=
  [(newMessage cmd_time_block) <| actionTime := 5 |> <| messageID := 1 |>;
   (newMessage cmd_time_block) <| actionTime := 9 |> <| messageID := 2 |>;
   (newMessage cmd_time_unblock) <| messageID := 1 |>].
Definition sample_linked : TimeCoordinator :=
  processDependencyUpdateMessage (newTimeCoordinator <| tc_source_id := 131072 |>)
    ((newMessage cmd_add_interdependency) <| source_id := 131075 |>).
Definition sample_reached : TimeCoordinator :=
  foldl (λ s cmd, (processTimeMessage s cmd).1.1) sample_linked sample_messages.

Lemma sample_steps s cmds :
  Forall (λ cmd, actionTime cmd ≤ Time_maxVal) cmds →
  rtc tc_step s (foldl (λ s cmd, (processTimeMessage s cmd).1.1) s cmds).
Proof.
  intros Hf. revert s. induction Hf as [|cmd cmds Hc _ IH]; intros s; [apply rtc_refl|].
  exact (rtc_l _ _ _ _ (step_timeMessage s cmd Hc) (IH _)).
Qed.

Lemma reachable_invariant_witness :
  coordinator_inv sample_reached ∧ time_block sample_reached = 9 ∧
  dependents sample_reached = [131075].
Proof.
  split; [|split; reflexivity]. apply (reachable_invariant 131072).
  refine (rtc_l _ _ sample_linked _ (step_dependencyMessage _ _) _).
  apply sample_steps. repeat constructor; vm_compute; discriminate.
Defined.
