(* ===== verification/Disconnect.v ===== *)
(** * Leaving the simulation (disconnect and localError of TimeCoordinator.cpp)

    Who is told when a federate disconnects or fails, and in which messages. *)

From S2P Require Import Prelude HelicsTime Ids Flags ActionMessage MessageCodec.
From S2P Require Import CodecFacts MultiMessage Definitions TimeDependencies TimeCoordinator TimeCoordinatorFacts.

Section disconnect.
  Context `{TimeRep} (le : bool).
  Implicit Types (s : TimeCoordinator).

(** The federates to tell are the dependents and the dependencies that can still send,
    each of them once. *)
Lemma connections_spec s :
  StronglySorted Z.lt (connections s) ∧
  ∀ fed, fed ∈ connections s ↔
    fed ∈ dependents s ∨
    ∃ d, d ∈ dependencies s ∧ Tnext d < Time_maxVal ∧ fedID d = fed.
Proof.
  unfold connections. destruct (set_of_range_spec (dependents s)) as [Hs Hin].
  revert Hs Hin. generalize (set_of_range (dependents s)). generalize (dependents s).
  induction (dependencies s) as [|d l IH]; intros base acc Hs Hin; simpl; [set_solver|].
  destruct (Z.ltb_spec (Tnext d) Time_maxVal) as [Hlt|Hge].
  - destruct (IH (fedID d :: base) (set_insert (fedID d) acc)) as [Hs' Hin'].
    + by apply set_insert_sorted.
    + intros x. rewrite set_insert_elem, Hin. set_solver.
    + split; [done|]. intros fed. rewrite Hin'. set_solver.
  - destruct (IH base acc Hs Hin) as [Hs' Hin']. split; [done|]. intros fed. rewrite Hin'.
    split; [set_solver|]. intros [?|(d' & [->|?]%elem_of_cons & Hlt & Hd)]; [by left|lia|eauto].
Qed.

(** The message for one federate. *)
Definition byeFor (a : action_t) (source fed : global_federate_id) : ActionMessage :=
  (newMessage a) <| source_id := source |> <| dest_id := fed |>.

Lemma byeLoop_appendAll s conns bye multi multi' :
  is_bye (action bye) = true →
  appendAll le multi ((λ fed, bye <| dest_id := fed |>) <$>
                        filter (λ fed, fed ≠ tc_source_id s) conns) = Ok multi' →
  ∃ s', byeLoop le s conns bye multi = Ok (s', [], multi').
Proof.
  revert s bye multi. induction conns as [|fed conns IH]; intros s bye multi Hb.
  { intros [= ->]. by eexists. }
  rewrite filter_cons. cbn [byeLoop]. cbv zeta.
  destruct (Z.eqb_spec fed (tc_source_id s)) as [Heq|Hne].
  - rewrite decide_False by tauto. intros Happ.
    rewrite processTimeMessage_bye by done.
    set (s1 := (updateDependencyTime _ _).1).
    assert (tc_source_id s1 = tc_source_id s) as Hs1.
    { destruct (updateDependencyTime_frame (removeDependent s (source_id bye))
        (bye <| dest_id := fed |>)) as [_ Hs].
      destruct (removeDependent_granted s (source_id bye)) as [_ Hs'].
      exact (eq_trans Hs Hs'). }
    destruct (IH s1 (bye <| dest_id := fed |>) multi) as [s' Hl];
      [done|by rewrite Hs1|]. rewrite Hl. by eexists.
  - rewrite decide_True by done. rewrite fmap_cons. cbn [appendAll].
    destruct (appendMessage le multi _) as [[n m1]| |]; cbn [mbind outcome_bind]; [|done..].
    intros Happ. by apply (IH s (bye <| dest_id := fed |>) m1).
Qed.

(** The identifiers are 32-bit values. *)
Definition ids_in_range s : Prop :=
  sint_range 32 (tc_source_id s) ∧ Forall (sint_range 32) (connections s) ∧
  sint_range 64 timeZero.

Lemma byeFor_wf a source fed :
  is_bye a = true → sint_range 32 source → sint_range 32 fed → sint_range 64 timeZero →
  message_wf (byeFor a source fed).
Proof.
  intros Ha Hs Hf Hz. apply orb_true_iff in Ha.
  split; cbn; try done; try (unfold uint_range, sint_range in *; cbn; lia);
    destruct Ha; bool_facts; subst; done.
Qed.

Lemma byeMessages_wf a s :
  is_bye a = true → ids_in_range s →
  Forall message_wf (byeFor a (tc_source_id s) <$>
    filter (λ fed, fed ≠ tc_source_id s) (connections s)).
Proof.
  intros Ha (Hs & Hc & Hz). apply Forall_fmap, Forall_forall. intros fed Hin.
  apply list_elem_of_filter in Hin as [_ Hin]. rewrite Forall_forall in Hc.
  by apply byeFor_wf; auto.
Qed.

(** What [sayBye] does, for [disconnect] and [localError]. *)
Definition bye_result (a : action_t) s s' (out : list ActionMessage) : Prop :=
  let others := filter (λ fed, fed ≠ tc_source_id s) (connections s) in
  tc_time_granted s' = Time_maxVal ∧
  match connections s with
  | [] => out = [] ∧ disconnected s' = disconnected s
  | [_] => out = byeFor a (tc_source_id s) <$> others ∧ disconnected s' = true
  | _ => disconnected s' = true ∧
      ∃ multi, out = [multi] ∧ multi_ok multi ∧
        stringData multi = (λ fed, string_of_bytes (encode le (byeFor a (tc_source_id s) fed)))
                             <$> take 255 others
  end.

Lemma sayBye_spec a s :
  is_bye a = true → ids_in_range s →
  ∃ s' out, sayBye le s a = Ok (s', out) ∧ bye_result a s s' out.
Proof.
  intros Ha Hids. pose proof (byeMessages_wf a s Ha Hids) as Hwf.
  assert (∀ s' out, sayBye le s a = Ok (s', out) → tc_time_granted s' = Time_maxVal) as Hg.
  { intros s' out. by apply sayBye_granted. }
  unfold bye_result. revert Hg. unfold sayBye. cbv zeta.
  set (s0 := s <| tc_time_granted := _ |> <| time_grantBase := _ |>).
  change (connections s0) with (connections s).
  change (tc_source_id s0) with (tc_source_id s).
  destruct (connections s) as [|fed [|fed2 conns]] eqn:Hc; intros Hg.
  - do 2 eexists. split; [done|]. split; [by eapply Hg|]. done.
  - rewrite filter_cons, filter_nil. 
    match goal with |- context [dest_id ?m =? _] => change (dest_id m) with fed in * end.
    destruct (Z.eqb_spec fed (tc_source_id s)) as [->|Hne].
    + rewrite decide_False by tauto. rewrite processTimeMessage_bye in * by done.
      do 2 eexists. split; [done|]. split; [by eapply Hg|]. done.
    + rewrite decide_True by done. do 2 eexists. split; [done|].
      split; [by eapply Hg|]. done.
  - set (others := filter _ (fed :: fed2 :: conns)) in *.
    edestruct (λ ok len, appendAll_spec le (newMessage cmd_multi_message) _ ok len Hwf)
      as (multi & Happ & Hok & Hd); [done|done|].
    destruct (byeLoop_appendAll s0 (fed :: fed2 :: conns)
      ((newMessage a) <| source_id := tc_source_id s |>) (newMessage cmd_multi_message) multi)
      as [s' Hl]; [done|exact Happ|].
    rewrite Hl in *. cbn [mbind outcome_bind] in *.
    do 2 eexists. split; [done|]. split; [by eapply Hg|]. split; [done|].
    exists multi. split; [done|]. split; [done|].
    rewrite Hd. cbn -[take]. by rewrite fmap_take, <-list_fmap_compose, <-fmap_take.
Qed.

(** C36. [disconnect] always succeeds and tells every connection, that is every
    dependent and every dependency that can still send, exactly once and in increasing
    order of id: directly when there is one, packed in one multi message when there
    are several, of which only the first 255 fit.  The federate itself is not sent a
    message.  With no connection at all the coordinator is not marked disconnected. *)
Theorem disconnect_notifies s :
  ids_in_range s →
  ∃ s' out, disconnect le s = Ok (s', out) ∧ bye_result cmd_disconnect s s' out ∧
    StronglySorted Z.lt (connections s) ∧
    (∀ fed, fed ∈ connections s ↔
       fed ∈ dependents s ∨
       ∃ d, d ∈ dependencies s ∧ Tnext d < Time_maxVal ∧ fedID d = fed).
Proof.
  intros Hids. destruct (sayBye_spec cmd_disconnect s) as (s' & out & Hs & Hr); [done..|].
  exists s', out. split; [done|]. split; [done|]. apply connections_spec.
Qed.

End disconnect.

(** ** Witness *)

(** A federate with two dependents, one of them itself, and an active dependency. *)
Definition sample_leaving : TimeCoordinator :=
  newTimeCoordinator <| tc_source_id := 131072 |>
    <| dependents := [131072; 131074] |> <| dependent_federates := [131072; 131074] |>
    <| dependencies := [(newDependencyInfo 131073) <| Tnext := 10 |>] |>
    <| dependency_federates := [131073] |>.

Lemma disconnect_notifies_witness :
  connections sample_leaving = [131072; 131073; 131074] ∧
  ∃ s' out, disconnect true sample_leaving = Ok (s', out) ∧
    bye_result true cmd_disconnect sample_leaving s' out.
Proof.
  split; [reflexivity|].
  destruct (disconnect_notifies true sample_leaving) as (s' & out & Hd & Hr & _).
  - split; [|split]; [|repeat constructor|]; vm_compute; intuition congruence.
  - exists s', out. split; [exact Hd|exact Hr].
Defined.
