(* ===== verification/ForwardingTimeCoordinator.v ===== *)
(** * Time coordination of cores and brokers
    (src/src/helics/core/ForwardingTimeCoordinator.hpp, .cpp)

    A core or broker has no time of its own: it forwards to its dependents the minimum
    of what its dependencies announce.  [hasSender] is whether the callback
    [sendMessageFunction] is set; the messages given to it are returned in order. *)

From S2P Require Import Prelude HelicsTime Ids Flags ActionMessage MessageCodec.
From S2P Require Import Definitions TimeDependencies TimeCoordinator.

(** The members of [class ForwardingTimeCoordinator]. *)
Record ForwardingTimeCoordinator := mkForwardingTimeCoordinator {
  ftc_time_next : Time;
  ftc_time_minminDe : Time;
  ftc_time_minDe : Time;
  ftc_time_state : time_state_t;
  lastMinFed : global_federate_id;
  ftc_dependencies : list DependencyInfo;
  ftc_dependents : list global_federate_id;
  hasSender : bool;
  ftc_source_id : global_federate_id;
  ftc_checkingExec : bool;
  ftc_executionMode : bool;
  ftc_iterating : bool;
  ignoreMinFed : bool;
  ftc_restrictive_time_policy : bool;
}.

#[export] Instance eta_ForwardingTimeCoordinator : Eta ForwardingTimeCoordinator := λ s,
  mkForwardingTimeCoordinator (ftc_time_next s) (ftc_time_minminDe s) (ftc_time_minDe s)
    (ftc_time_state s) (lastMinFed s) (ftc_dependencies s) (ftc_dependents s) (hasSender s)
    (ftc_source_id s) (ftc_checkingExec s) (ftc_executionMode s) (ftc_iterating s)
    (ignoreMinFed s) (ftc_restrictive_time_policy s).

(** [class minTimeSet] *)
Record minTimeSet := mkMinTimeSet {
  minNext : Time;
  minminDe : Time;
  minDe : Time;
  mts_minFed : global_federate_id;
  tState : time_state_t;
}.

#[export] Instance eta_minTimeSet : Eta minTimeSet := λ m,
  mkMinTimeSet (minNext m) (minminDe m) (minDe m) (mts_minFed m) (tState m).

Section operations.
  Context `{TimeRep}.
  Implicit Types (s : ForwardingTimeCoordinator) (cmd msg : ActionMessage).

(** Member initialisers. *)
Definition newForwardingTimeCoordinator : ForwardingTimeCoordinator := {|
  ftc_time_next := timeZero; ftc_time_minminDe := timeZero; ftc_time_minDe := timeZero;
  ftc_time_state := time_requested; lastMinFed := invalid_global_fed_id;
  ftc_dependencies := []; ftc_dependents := []; hasSender := false; ftc_source_id := 0;
  ftc_checkingExec := false; ftc_executionMode := false; ftc_iterating := false;
  ignoreMinFed := false; ftc_restrictive_time_policy := false |}.

Definition newMinTimeSet : minTimeSet := {|
  minNext := Time_maxVal; minminDe := Time_maxVal; minDe := Time_maxVal;
  mts_minFed := invalid_global_fed_id; tState := time_requested |}.

(** [static inline bool isBroker(global_federate_id id)] of this file. *)
Definition ftc_isBroker (id : global_federate_id) : bool := (id =? 1) || (1879048192 <=? id).

(** One turn of the loop of [generateMinTimeSet]. *)
Definition minTimeStep (ignore : global_federate_id) (mTime : minTimeSet)
    (dep : DependencyInfo) : minTimeSet :=
  if fedID dep =? ignore then mTime
  else
    let mTime :=
      if Tnext dep <? minNext mTime then
        mTime <| minNext := Tnext dep |> <| tState := time_state dep |>
      else if Tnext dep =? minNext mTime then
        if bool_decide (time_state dep = time_granted)
        then mTime <| tState := time_state dep |> else mTime
      else mTime in
    let mTime :=
      if Tnext dep <=? dep_Tdemin dep then
        if dep_Tdemin dep <? minminDe mTime then
          mTime <| minminDe := dep_Tdemin dep |> <| mts_minFed := fedID dep |>
        else if dep_Tdemin dep =? minminDe mTime then
          mTime <| mts_minFed := invalid_global_fed_id |>
        else mTime
      else mTime <| minminDe := Time_of_int (-1) |> in
    if dep_Te dep <? minDe mTime then mTime <| minDe := dep_Te dep |> else mTime.

Definition generateMinTimeSet (deps : list DependencyInfo) (restricted : bool)
    (ignore : global_federate_id) : minTimeSet :=
  let mTime := foldl (minTimeStep ignore) newMinTimeSet deps in
  let mTime := mTime <| minminDe := Z.min (minDe mTime) (minminDe mTime) |> in
  if negb restricted && (minminDe mTime <? Time_maxVal) then
    if minNext mTime <? minminDe mTime then mTime <| minNext := minminDe mTime |> else mTime
  else mTime.

Definition ftc_getDependencyInfo s (ofed : global_federate_id) : option DependencyInfo :=
  getDependencyInfo (ftc_dependencies s) ofed.
Definition ftc_isDependency s (ofed : global_federate_id) : bool :=
  isDependency (ftc_dependencies s) ofed.
Definition ftc_getDependencies s : list global_federate_id := fedID <$> ftc_dependencies s.
Definition ftc_hasActiveTimeDependencies s : bool :=
  hasActiveTimeDependencies (ftc_dependencies s).

(** The message to a dependent broker with that broker's own times left out;
    [ActionMessage nTime(msg)] is a copy construction. *)
Definition generateTimeRequestIgnoreDependency s msg (iFed : global_federate_id)
    : ActionMessage :=
  let mTime := generateMinTimeSet (ftc_dependencies s) (ftc_restrictive_time_policy s) iFed in
  let nTime := (copyConstruct msg) <| actionTime := minNext mTime |>
                 <| Tdemin := minminDe mTime |> <| Te := minDe mTime |>
                 <| dest_id := iFed |> in
  match tState mTime with
  | time_granted => setAction nTime cmd_time_grant
  | time_requested =>
      clearActionFlag (setAction nTime cmd_time_request) iteration_requested_flag
  | time_requested_iterative =>
      setActionFlag (setAction nTime cmd_time_request) iteration_requested_flag
  | _ => nTime
  end.

(** What [transmitTimingMessage] does for one dependent of a time message. *)
Definition timingMessageTo s msg (dep : global_federate_id) : list ActionMessage :=
  let plain :=
    match ftc_getDependencyInfo s dep with
    | Some di => if actionTime msg <? Tnext di then [] else [msg <| dest_id := dep |>]
    | None => [msg <| dest_id := dep |>]
    end in
  if ftc_isBroker dep && negb (ignoreMinFed s) then
    match ftc_getDependencyInfo s dep with
    | Some di =>
        if (Tnext di =? actionTime msg) || (fedID di =? lastMinFed s)
        then [generateTimeRequestIgnoreDependency s msg dep] else plain
    | None => plain
    end
  else plain.

Definition ftc_transmitTimingMessage s msg : list ActionMessage :=
  if hasSender s then
    if bool_decide (action msg = cmd_time_request) || bool_decide (action msg = cmd_time_grant)
    then mjoin (timingMessageTo s msg <$> ftc_dependents s)
    else (λ dep, msg <| dest_id := dep |>) <$> ftc_dependents s
  else [].

Definition ftc_sendTimeRequest s : list ActionMessage :=
  if negb (hasSender s) then []
  else if bool_decide (ftc_time_state s = time_granted) then
    let upd := (newMessage cmd_time_grant) <| source_id := ftc_source_id s |>
                 <| actionTime := ftc_time_next s |> in
    let upd := if ftc_iterating s then setActionFlag upd iteration_requested_flag else upd in
    ftc_transmitTimingMessage s upd
  else
    let upd := (newMessage cmd_time_request) <| source_id := ftc_source_id s |>
                 <| actionTime := ftc_time_next s |> <| Te := ftc_time_minDe s |>
                 <| Tdemin := ftc_time_minminDe s |> in
    let upd := if ftc_iterating s then setActionFlag upd iteration_requested_flag else upd in
    ftc_transmitTimingMessage s upd.

Definition ftc_updateTimeFactors s : ForwardingTimeCoordinator * list ActionMessage :=
  let mTime := generateMinTimeSet (ftc_dependencies s) (ftc_restrictive_time_policy s)
                 invalid_global_fed_id in
  let update := negb (bool_decide (ftc_time_state s = tState mTime)) in
  let s := s <| ftc_time_state := tState mTime |> in
  let prev_next := ftc_time_next s in
  let s := s <| ftc_time_next := minNext mTime |> in
  let update := update || negb (minDe mTime =? ftc_time_minDe s) in
  let s := s <| ftc_time_minDe := minDe mTime |> in
  let update := update || negb (minminDe mTime =? ftc_time_minminDe s) in
  let s := s <| ftc_time_minminDe := minminDe mTime |> in
  let s := if negb (ftc_restrictive_time_policy s) && (ftc_time_minminDe s <? Time_maxVal) then
             if ftc_time_next s <? ftc_time_minminDe s
             then s <| ftc_time_next := ftc_time_minminDe s |> else s
           else s in
  let update := update || negb (prev_next =? ftc_time_next s) in
  let update := update || (negb (mts_minFed mTime =? lastMinFed s)
                           && ftc_isBroker (mts_minFed mTime)) in
  let s := s <| lastMinFed := mts_minFed mTime |> in
  (s, if update then ftc_sendTimeRequest s else []).

Definition ftc_enteringExecMode s : ForwardingTimeCoordinator * list ActionMessage :=
  if ftc_executionMode s then (s, [])
  else
    let s := s <| ftc_checkingExec := true |> in
    let execreq := (newMessage cmd_exec_request) <| source_id := ftc_source_id s |> in
    (s, ftc_transmitTimingMessage s execreq).

Definition ftc_checkExecEntry s
    : ForwardingTimeCoordinator * list ActionMessage * message_processing_result :=
  if negb (checkIfReadyForExecEntry (ftc_dependencies s) false) then (s, [], continue_processing)
  else
    let s := s <| ftc_executionMode := true |> <| ftc_time_next := timeZero |>
               <| ftc_time_state := time_granted |> <| ftc_time_minDe := timeZero |>
               <| ftc_time_minminDe := timeZero |> in
    let execgrant := (newMessage cmd_exec_grant) <| source_id := ftc_source_id s |> in
    (s, ftc_transmitTimingMessage s execgrant, next_step).

Definition ftc_addDependency s (fed : global_federate_id) : ForwardingTimeCoordinator * bool :=
  let '(deps, added) := addDependency (ftc_dependencies s) fed in
  (s <| ftc_dependencies := deps |>, added).

Definition ftc_addDependent s (fed : global_federate_id) : ForwardingTimeCoordinator * bool :=
  if bool_decide (ftc_dependents s = []) then (s <| ftc_dependents := [fed] |>, true)
  else
    let dep := lower_bound Z.ltb (ftc_dependents s) fed in
    match ftc_dependents s !! dep with
    | None => (s <| ftc_dependents := ftc_dependents s ++ [fed] |>, true)
    | Some d => if d =? fed then (s, false)
                else (s <| ftc_dependents := vec_insert dep fed (ftc_dependents s) |>, true)
    end.

Definition ftc_removeDependency s (fed : global_federate_id) : ForwardingTimeCoordinator :=
  s <| ftc_dependencies := removeDependency (ftc_dependencies s) fed |>.

Definition ftc_removeDependent s (fed : global_federate_id) : ForwardingTimeCoordinator :=
  let dep := lower_bound Z.ltb (ftc_dependents s) fed in
  match ftc_dependents s !! dep with
  | None => s
  | Some d => if d =? fed then s <| ftc_dependents := vec_erase dep (ftc_dependents s) |> else s
  end.

Definition ftc_processTimeMessage s cmd : ForwardingTimeCoordinator * bool :=
  let s :=
    match action cmd with
    | cmd_disconnect | cmd_disconnect_broker | cmd_disconnect_fed | cmd_disconnect_core
    | cmd_broadcast_disconnect => ftc_removeDependent s (source_id cmd)
    | _ => s
    end in
  let '(deps, res) := updateTime (ftc_dependencies s) cmd in
  (s <| ftc_dependencies := deps |>, res).

Definition ftc_processDependencyUpdateMessage s cmd : ForwardingTimeCoordinator :=
  match action cmd with
  | cmd_add_dependency => (ftc_addDependency s (source_id cmd)).1
  | cmd_remove_dependency => ftc_removeDependency s (source_id cmd)
  | cmd_add_dependent => (ftc_addDependent s (source_id cmd)).1
  | cmd_remove_dependent => ftc_removeDependent s (source_id cmd)
  | cmd_add_interdependency =>
      let s := (ftc_addDependency s (source_id cmd)).1 in (ftc_addDependent s (source_id cmd)).1
  | cmd_remove_interdependency =>
      let s := ftc_removeDependency s (source_id cmd) in ftc_removeDependent s (source_id cmd)
  | _ => s
  end.

(** The set [connections] of [disconnect], in its iteration order. *)
Definition ftc_connections s : list global_federate_id :=
  foldl (λ conns dep, if Tnext dep <? Time_maxVal then set_insert (fedID dep) conns else conns)
    (set_of_range (ftc_dependents s)) (ftc_dependencies s).

Fixpoint ftc_byeLoop (le : bool) s (conns : list global_federate_id)
    (bye multi : ActionMessage) : outcome (ForwardingTimeCoordinator * ActionMessage) :=
  match conns with
  | [] => Ok (s, multi)
  | fed :: conns =>
      let bye := bye <| dest_id := fed |> in
      if fed =? ftc_source_id s then
        ftc_byeLoop le (ftc_processTimeMessage s bye).1 conns bye multi
      else
        '(_, multi) ← appendMessage le multi bye;
        ftc_byeLoop le s conns bye multi
  end.

Definition ftc_disconnect (le : bool) s
    : outcome (ForwardingTimeCoordinator * list ActionMessage) :=
  if hasSender s then
    let bye := (newMessage cmd_disconnect) <| source_id := ftc_source_id s |> in
    match ftc_connections s with
    | [] => Ok (s, [])
    | [fed] =>
        let bye := bye <| dest_id := fed |> in
        if dest_id bye =? ftc_source_id s then Ok ((ftc_processTimeMessage s bye).1, [])
        else Ok (s, [bye])
    | conns =>
        '(s, multi) ← ftc_byeLoop le s conns bye (newMessage cmd_multi_message);
        Ok (s, [multi])
    end
  else Ok (s, []).

(** ** Reference definitions *)

(** The dependencies taken into account. *)
Definition considered (ignore : global_federate_id) (deps : list DependencyInfo)
    : list DependencyInfo := filter (λ d, fedID d ≠ ignore) deps.

Definition least (f : DependencyInfo → Time) (deps : list DependencyInfo) : Time :=
  foldr (λ d m, Z.min (f d) m) Time_maxVal deps.

(** Whether the minimum dependent event time of each is usable. *)
Definition trusted (deps : list DependencyInfo) : Prop :=
  Forall (λ d, Tnext d ≤ dep_Tdemin d) deps.

(** ** Lemmas *)

Lemma least_le f deps : least f deps ≤ Time_maxVal.
Proof. induction deps as [|d deps IH]; simpl; lia. Qed.

Lemma least_elem f deps d : d ∈ deps → least f deps ≤ f d.
Proof.
  induction 1 as [d deps|d d' deps _ IH]; simpl; lia.
Qed.

Lemma least_snoc f deps d : least f (deps ++ [d]) = Z.min (least f deps) (f d).
Proof.
  induction deps as [|d' deps IH]; simpl; [lia|]. rewrite IH. lia.
Qed.

(** The state of the loop after the considered dependencies [deps]. *)
Record loop_inv (deps : list DependencyInfo) (mTime : minTimeSet) : Prop := {
  li_next : minNext mTime = least Tnext deps;
  li_de : minDe mTime = least dep_Te deps;
  li_trusted : trusted deps → minminDe mTime = least dep_Tdemin deps;
  li_untrusted : ¬ trusted deps → minminDe mTime ≤ Time_of_int (-1);
  li_state : tState mTime = time_granted ↔
    Exists (λ d, Tnext d = least Tnext deps ∧ time_state d = time_granted) deps;
}.

Lemma least_attained_snoc deps d :
  Exists (λ d', Tnext d' = Z.min (least Tnext deps) (Tnext d) ∧
                time_state d' = time_granted) (deps ++ [d]) ↔
  (least Tnext deps ≤ Tnext d ∧
     Exists (λ d', Tnext d' = least Tnext deps ∧ time_state d' = time_granted) deps) ∨
  (Tnext d ≤ least Tnext deps ∧ time_state d = time_granted).
Proof.
  rewrite Exists_app, Exists_cons, Exists_nil, !Exists_exists. split.
  - intros [(d' & Hin & Hn & Hg)|[[Hn Hg]|[]]].
    + pose proof (least_elem Tnext deps d' Hin). left. split; [lia|].
      exists d'. split; [done|]. split; [lia|done].
    + right. split; [lia|done].
  - intros [[Hle (d' & Hin & Hn & Hg)]|[Hle Hg]].
    + left. exists d'. split; [done|]. split; [lia|done].
    + right. left. split; [lia|done].
Qed.

(** The three independent updates of one turn. *)
Lemma minTimeStep_inv ignore deps mTime d :
  fedID d ≠ ignore → loop_inv deps mTime →
  loop_inv (deps ++ [d]) (minTimeStep ignore mTime d).
Proof.
  intros Hne [Hn Hde Ht Hu Hs]. unfold minTimeStep.
  rewrite (proj2 (Z.eqb_neq _ _)) by done. cbv zeta.
  set (m1 := if Tnext d <? minNext mTime then _ else _).
  assert (minNext m1 = Z.min (least Tnext deps) (Tnext d) ∧ minminDe m1 = minminDe mTime ∧
    minDe m1 = minDe mTime ∧
    (tState m1 = time_granted ↔
      Exists (λ d', Tnext d' = Z.min (least Tnext deps) (Tnext d) ∧
                    time_state d' = time_granted) (deps ++ [d]))) as (Hn1 & Hm1 & Hd1 & Hs1).
  { rewrite least_attained_snoc. unfold m1. rewrite Hn.
    destruct (Z.ltb_spec (Tnext d) (least Tnext deps)); cbn.
    { split; [lia|]. do 2 (split; [done|]). intuition lia. }
    destruct (Z.eqb_spec (Tnext d) (least Tnext deps)).
    - case_bool_decide; cbn; (split; [lia|]); do 2 (split; [done|]); intuition lia.
    - split; [lia|]. do 2 (split; [done|]). intuition lia. }
  clearbody m1. clear Hn Hs.
  set (m2 := if Tnext d <=? dep_Tdemin d then _ else _).
  assert (minNext m2 = minNext m1 ∧ minDe m2 = minDe m1 ∧ tState m2 = tState m1 ∧
    minminDe m2 = if Tnext d <=? dep_Tdemin d then Z.min (minminDe m1) (dep_Tdemin d)
                  else Time_of_int (-1)) as (Hn2 & Hd2 & Hs2 & Hm2).
  { unfold m2. destruct (Tnext d <=? dep_Tdemin d); [|done].
    destruct (Z.ltb_spec (dep_Tdemin d) (minminDe m1)); cbn; [repeat split; lia|].
    destruct (Z.eqb_spec (dep_Tdemin d) (minminDe m1)); cbn; repeat split; lia. }
  clearbody m2. rewrite Hm1 in Hm2.
  split.
  - rewrite least_snoc, <-Hn1, <-Hn2. by destruct (dep_Te d <? minDe m2).
  - rewrite least_snoc, <-Hde, <-Hd1, <-Hd2.
    destruct (Z.ltb_spec (dep_Te d) (minDe m2)); cbn; lia.
  - unfold trusted. rewrite Forall_app, Forall_singleton. intros [Htr Hle].
    rewrite least_snoc, <-(Ht Htr). rewrite (proj2 (Z.leb_le _ _)) in Hm2 by done.
    by destruct (dep_Te d <? minDe m2); cbn; rewrite Hm2.
  - unfold trusted. rewrite Forall_app, Forall_singleton. intros Hnt.
    assert (minminDe m2 ≤ Time_of_int (-1)); [|by destruct (dep_Te d <? minDe m2)].
    destruct (Z.leb_spec (Tnext d) (dep_Tdemin d)) as [Hle|]; [|lia].
    rewrite Hm2. enough (minminDe mTime ≤ Time_of_int (-1)) by lia. apply Hu. tauto.
  - rewrite least_snoc, <-Hs1, <-Hs2. by destruct (dep_Te d <? minDe m2).
Qed.

Lemma minTimeLoop_inv ignore deps :
  loop_inv (considered ignore deps) (foldl (minTimeStep ignore) newMinTimeSet deps).
Proof.
  induction deps as [|d deps IH] using rev_ind.
  { split; try done; cbn; [intros Hn; destruct Hn; constructor|by rewrite Exists_nil]. }
  rewrite foldl_app. cbn [foldl]. unfold considered in *. rewrite filter_app, filter_cons.
  case_decide as Hd.
  - rewrite filter_nil. by apply minTimeStep_inv.
  - rewrite filter_nil, app_nil_r. unfold minTimeStep.
    assert (fedID d = ignore) as -> by (destruct (decide (fedID d = ignore)); tauto).
    by rewrite Z.eqb_refl.
Qed.

(** The members of the result, from those at the end of the loop. *)
Lemma generateMinTimeSet_fields deps restricted ignore :
  let m := foldl (minTimeStep ignore) newMinTimeSet deps in
  let r := generateMinTimeSet deps restricted ignore in
  minDe r = minDe m ∧ minminDe r = Z.min (minDe m) (minminDe m) ∧ tState r = tState m ∧
  minNext r = if restricted || (Time_maxVal <=? Z.min (minDe m) (minminDe m)) then minNext m
              else Z.max (minNext m) (Z.min (minDe m) (minminDe m)).
Proof.
  unfold generateMinTimeSet. cbv zeta. set (m := foldl _ _ _). clearbody m.
  destruct restricted; [done|]. cbn [negb andb orb]. cbn [minDe minminDe minNext tState upd].
  rewrite Z.leb_antisym. destruct (Z.ltb_spec (Z.min (minDe m) (minminDe m)) Time_maxVal);
    cbn [negb]; [|done].
  destruct (Z.ltb_spec (minNext m) (Z.min (minDe m) (minminDe m))); cbn; repeat split; lia.
Qed.

(** The values of [generateMinTimeSet] in terms of the minima. *)
Lemma generateMinTimeSet_eq deps restricted ignore :
  let c := considered ignore deps in
  let r := generateMinTimeSet deps restricted ignore in
  minDe r = least dep_Te c ∧
  (trusted c → minminDe r = Z.min (least dep_Te c) (least dep_Tdemin c)) ∧
  (¬ trusted c → minminDe r ≤ Time_of_int (-1)) ∧
  minNext r = (if restricted || (Time_maxVal <=? minminDe r) then least Tnext c
               else Z.max (least Tnext c) (minminDe r)) ∧
  (tState r = time_granted ↔
     Exists (λ d, Tnext d = least Tnext c ∧ time_state d = time_granted) c).
Proof.
  cbv zeta. destruct (minTimeLoop_inv ignore deps) as [Hn Hde Ht Hu Hs].
  destruct (generateMinTimeSet_fields deps restricted ignore) as (-> & -> & -> & ->).
  set (m := foldl _ _ _) in *. clearbody m. rewrite Hn, Hde.
  split; [done|]. split; [intros Htr; by rewrite Ht|].
  split; [|done]. intros Hnt. specialize (Hu Hnt). lia.
Qed.

Lemma filter_considered ignore deps :
  foldl (minTimeStep ignore) newMinTimeSet (considered ignore deps)
  = foldl (minTimeStep ignore) newMinTimeSet deps.
Proof.
  unfold considered. generalize newMinTimeSet.
  induction deps as [|d deps IH]; intros m; [done|]. rewrite filter_cons.
  case_decide as Hd; cbn [foldl]; [apply IH|]. rewrite IH. f_equal. unfold minTimeStep.
  destruct (Z.eqb_spec (fedID d) ignore); [done|tauto].
Qed.

Lemma generateMinTimeSet_considered deps restricted ignore :
  generateMinTimeSet (considered ignore deps) restricted ignore
  = generateMinTimeSet deps restricted ignore.
Proof. unfold generateMinTimeSet. by rewrite filter_considered. Qed.

(** [updateTimeFactors] as the new factors and the test that they changed. *)
Definition factorsNext s (m : minTimeSet) : Time :=
  if negb (ftc_restrictive_time_policy s) && (minminDe m <? Time_maxVal)
     && (minNext m <? minminDe m) then minminDe m else minNext m.
Definition withFactors s (m : minTimeSet) : ForwardingTimeCoordinator :=
  s <| ftc_time_state := tState m |> <| ftc_time_next := factorsNext s m |>
    <| ftc_time_minDe := minDe m |> <| ftc_time_minminDe := minminDe m |>
    <| lastMinFed := mts_minFed m |>.
Definition factorsChanged s (m : minTimeSet) : bool :=
  negb (bool_decide (ftc_time_state s = tState m)) || negb (minDe m =? ftc_time_minDe s)
  || negb (minminDe m =? ftc_time_minminDe s) || negb (ftc_time_next s =? factorsNext s m)
  || (negb (mts_minFed m =? lastMinFed s) && ftc_isBroker (mts_minFed m)).

Lemma ftc_updateTimeFactors_eq s :
  let m := generateMinTimeSet (ftc_dependencies s) (ftc_restrictive_time_policy s)
             invalid_global_fed_id in
  ftc_updateTimeFactors s =
    (withFactors s m, if factorsChanged s m then ftc_sendTimeRequest (withFactors s m) else []).
Proof.
  cbv zeta. unfold ftc_updateTimeFactors. cbv zeta.
  generalize (generateMinTimeSet (ftc_dependencies s) (ftc_restrictive_time_policy s)
             invalid_global_fed_id) as m. intros m.
  unfold withFactors, factorsChanged, factorsNext.
  destruct s. cbn -[ftc_sendTimeRequest ftc_isBroker Z.ltb Z.eqb].
  destruct ftc_restrictive_time_policy0; [done|]. cbn [negb andb].
  destruct (minminDe m <? Time_maxVal); [|done]. by destruct (minNext m <? minminDe m).
Qed.

Lemma factorsChanged_with s m : factorsChanged (withFactors s m) m = false.
Proof.
  unfold factorsChanged, withFactors, factorsNext. cbn -[ftc_isBroker Z.ltb Z.eqb].
  by rewrite bool_decide_true, !Z.eqb_refl.
Qed.

(** ** Properties *)

(** [generateMinTimeSet] is the minimum over the dependencies other than the
    ignored one: of the event times, and of the dependent event times when all of them
    are usable (an unusable one makes the result negative); the next time is the least
    next time, raised to the least event time unless the policy is restrictive; and the
    state is granted exactly when a dependency at the least next time is granted. *)
Theorem generateMinTimeSet_minimum deps restricted ignore :
  let c := considered ignore deps in
  let r := generateMinTimeSet deps restricted ignore in
  minDe r = least dep_Te c ∧
  (trusted c → minminDe r = Z.min (least dep_Te c) (least dep_Tdemin c)) ∧
  (¬ trusted c → minminDe r ≤ Time_of_int (-1)) ∧
  minNext r = (if restricted || (Time_maxVal <=? minminDe r) then least Tnext c
               else Z.max (least Tnext c) (minminDe r)) ∧
  (tState r = time_granted ↔
     Exists (λ d, Tnext d = least Tnext c ∧ time_state d = time_granted) c).
Proof. apply generateMinTimeSet_eq. Qed.


(** The times told to a dependent broker that is itself a dependency are computed
    without that broker: removing all that is known of it changes nothing. *)
Lemma ignored_broker_no_echo s msg iFed :
  generateTimeRequestIgnoreDependency s msg iFed =
  generateTimeRequestIgnoreDependency
    (s <| ftc_dependencies := considered iFed (ftc_dependencies s) |>) msg iFed.
Proof.
  unfold generateTimeRequestIgnoreDependency.
  rewrite <-(generateMinTimeSet_considered (ftc_dependencies s)). reflexivity.
Qed.

(** Updating is quiet when nothing changed: a second [updateTimeFactors] right
    after a first one leaves the state as it is and sends no message. *)
Lemma ftc_updateTimeFactors_quiet s :
  ftc_updateTimeFactors (ftc_updateTimeFactors s).1 = ((ftc_updateTimeFactors s).1, []).
Proof.
  rewrite (ftc_updateTimeFactors_eq s). cbn [fst].
  set (m := generateMinTimeSet _ _ _). rewrite (ftc_updateTimeFactors_eq (withFactors s m)).
  change (generateMinTimeSet _ _ _) with m. by rewrite factorsChanged_with.
Qed.

End operations.

(** ** Witness *)

Definition sample_deps : list DependencyInfo :=
  [(newDependencyInfo 131073) <| Tnext := 4 |> <| dep_Te := 9 |> <| dep_Tdemin := 6 |>;
   (newDependencyInfo 131074) <| Tnext := 5 |> <| dep_Te := 7 |> <| dep_Tdemin := 5 |>].

