(* ===== verification/HandleManager.v ===== *)
(** * Interface handles (src/src/helics/core/BasicHandleInfo.hpp, HandleManager.hpp, .cpp)

    The table of the publications, inputs, endpoints and filters of a core or broker:
    a sequence of [BasicHandleInfo] with an index by name for each type and an index by
    global handle.  An access to the sequence at an index outside of it is a [Fault]. *)

From stdpp Require Import pretty.
From S2P Require Import Prelude HelicsTime Ids Flags Definitions.

(** [enum class handle_type] *)
Inductive handle_type := ht_unknown | ht_publication | ht_input | ht_endpoint | ht_filter.

#[export] Instance handle_type_eq_dec : EqDecision handle_type.
Proof. solve_decision. Defined.

(** [enum handle_flag_definitions] *)
Definition mapped_flag : Z := extra_flag1.
Definition has_source_filter_flag : Z := extra_flag2.
Definition has_dest_filter_flag : Z := extra_flag3.
Definition has_non_cloning_dest_filter_flag : Z := extra_flag4.

(** [class BasicHandleInfo]; [type_in] and [type_out] are references to [type] and
    [units]. *)
Record BasicHandleInfo := mkBasicHandleInfo {
  hi_handle : global_handle;
  local_fed_id : local_federate_id;
  handleType : handle_type;
  used : bool;
  hi_flags : Z;
  hi_key : string;
  hi_type : string;
  hi_units : string;
  interface_info : string;
}.

#[export] Instance eta_BasicHandleInfo : Eta BasicHandleInfo := λ h,
  mkBasicHandleInfo (hi_handle h) (local_fed_id h) (handleType h) (used h) (hi_flags h)
    (hi_key h) (hi_type h) (hi_units h) (interface_info h).

#[export] Instance BasicHandleInfo_flags : FlagContainer BasicHandleInfo :=
  {| flags_of := hi_flags; with_flags h f := h <| hi_flags := f |> |}.
#[export] Instance BasicHandleInfo_flags_laws : FlagContainerLaws BasicHandleInfo.
Proof. by split. Qed.

(** The default constructor and the constructor from the data. *)
Definition blankHandleInfo : BasicHandleInfo := {|
  hi_handle := default_global_handle; local_fed_id := invalid_fid; handleType := ht_unknown;
  used := false; hi_flags := 0; hi_key := ""; hi_type := ""; hi_units := "";
  interface_info := "" |}.
Definition newHandleInfo (federate_id : global_federate_id) (handle_id : interface_handle)
    (type_of_handle : handle_type) (key_name type_name unit_name : string)
    : BasicHandleInfo :=
  blankHandleInfo <| hi_handle := GlobalHandle federate_id handle_id |>
    <| handleType := type_of_handle |> <| hi_key := key_name |> <| hi_type := type_name |>
    <| hi_units := unit_name |>.

(** [class HandleManager] *)
Record HandleManager := mkHandleManager {
  handles : list BasicHandleInfo;
  publications : gmap string Z;
  endpoints : gmap string Z;
  inputs : gmap string Z;
  filters : gmap string Z;
  unique_ids : gmap Z Z;
}.

#[export] Instance eta_HandleManager : Eta HandleManager := λ hm,
  mkHandleManager (handles hm) (publications hm) (endpoints hm) (inputs hm) (filters hm)
    (unique_ids hm).

Definition newHandleManager : HandleManager := {|
  handles := []; publications := ∅; endpoints := ∅; inputs := ∅; filters := ∅;
  unique_ids := ∅ |}.

(** [std::unordered_map::emplace]: an existing entry is kept. *)
Definition map_emplace {K A} `{Countable K} (k : K) (a : A) (m : gmap K A) : gmap K A :=
  match m !! k with Some _ => m | None => <[k := a]> m end.

Section operations.
  Implicit Types (hm : HandleManager).

(** [handles.size()] as an [int32_t] *)
Definition handles_size hm : Z := to_sint 32 (Z.of_nat (length (handles hm))).

Definition generateName hm (what : handle_type) : string :=
  let size := pretty (N.of_nat (length (handles hm))) in
  match what with
  | ht_endpoint => "_ept_" +:+ size
  | ht_input => "_input_" +:+ size
  | ht_publication => "_pub_" +:+ size
  | ht_filter => "_filter_" +:+ size
  | ht_unknown => "_handle_" +:+ size
  end.

Definition addSearchFields hm (handle : BasicHandleInfo) (index : Z) : HandleManager :=
  let hm :=
    match handleType handle with
    | ht_endpoint => hm <| endpoints := map_emplace (hi_key handle) index (endpoints hm) |>
    | ht_publication =>
        hm <| publications := map_emplace (hi_key handle) index (publications hm) |>
    | ht_filter =>
        if negb (String.eqb (hi_key handle) "")
        then hm <| filters := map_emplace (hi_key handle) index (filters hm) |> else hm
    | ht_input => hm <| inputs := map_emplace (hi_key handle) index (inputs hm) |>
    | ht_unknown => hm
    end in
  hm <| unique_ids := map_emplace (handle_key (hi_handle handle)) index (unique_ids hm) |>.

(** [void addHandle(const BasicHandleInfo& otherHandle)] *)
Definition addHandleCopy hm (otherHandle : BasicHandleInfo) : HandleManager :=
  let index := handles_size hm in
  addSearchFields (hm <| handles := handles hm ++ [otherHandle] |>) otherHandle index.

(** The two overloads that construct the information in place; they return a
    reference to the new element, here its value. *)
Definition addHandle hm (fed : global_federate_id) (what : handle_type)
    (key type units : string) : HandleManager * BasicHandleInfo :=
  let local_id := handles_size hm in
  let actKey := if negb (String.eqb key "") then key else generateName hm what in
  let hi := newHandleInfo fed local_id what actKey type units in
  (addSearchFields (hm <| handles := handles hm ++ [hi] |>) hi local_id, hi).
Definition addHandleLocal hm (fed : global_federate_id) (local_id : interface_handle)
    (what : handle_type) (key type units : string) : HandleManager * BasicHandleInfo :=
  let index := handles_size hm in
  let actKey := if negb (String.eqb key "") then key else generateName hm what in
  let hi := newHandleInfo fed local_id what actKey type units in
  (addSearchFields (hm <| handles := handles hm ++ [hi] |>) hi index, hi).

(** The removal of a name, by the type of the handle. *)
Definition eraseName hm (what : handle_type) (key : string) : HandleManager :=
  match what with
  | ht_endpoint => hm <| endpoints := delete key (endpoints hm) |>
  | ht_publication => hm <| publications := delete key (publications hm) |>
  | ht_filter => hm <| filters := delete key (filters hm) |>
  | ht_input => hm <| inputs := delete key (inputs hm) |>
  | ht_unknown => hm
  end.

(** [handles[index]] *)
Definition handle_at hm (index : Z) : outcome BasicHandleInfo :=
  if index <? 0 then Fault
  else match handles hm !! Z.to_nat index with Some hi => Ok hi | None => Fault end.

Definition removeHandle hm (handle : global_handle) : outcome HandleManager :=
  match unique_ids hm !! handle_key handle with
  | None => Ok hm
  | Some index =>
      hi ← handle_at hm index;
      let hm := hm <| unique_ids := delete (handle_key handle) (unique_ids hm) |> in
      let hm := if negb (String.eqb (hi_key hi) "")
                then eraseName hm (handleType hi) (hi_key hi) else hm in
      Ok (hm <| handles := <[Z.to_nat index := blankHandleInfo]> (handles hm) |>)
  end.

Definition addHandleAtIndex hm (otherHandle : BasicHandleInfo) (index : Z) : HandleManager :=
  if index =? handles_size hm then addHandleCopy hm otherHandle
  else if isValidIndex index (handles hm) then
    addSearchFields (hm <| handles := <[Z.to_nat index := otherHandle]> (handles hm) |>)
      otherHandle index
  else if 0 <? index then
    let sized := handles hm ++ replicate (S (Z.to_nat index) - length (handles hm))
                                 blankHandleInfo in
    addSearchFields (hm <| handles := <[Z.to_nat index := otherHandle]> sized |>)
      otherHandle index
  else hm.

(** [getHandleInfo]: by index or by interface handle. *)
Definition getHandleInfo hm (index : Z) : option BasicHandleInfo :=
  if isValidIndex index (handles hm) then handles hm !! Z.to_nat index else None.

Definition findHandle hm (id : global_handle) : outcome (option BasicHandleInfo) :=
  match unique_ids hm !! handle_key id with
  | Some index => hi ← handle_at hm index; Ok (Some hi)
  | None => Ok None
  end.

(** The four searches by name, and by interface handle. *)
Definition findName hm (names : gmap string Z) (name : string)
    : outcome (option BasicHandleInfo) :=
  match names !! name with
  | Some index => hi ← handle_at hm index; Ok (Some hi)
  | None => Ok None
  end.
Definition getEndpoint hm (name : string) := findName hm (endpoints hm) name.
Definition getPublication hm (name : string) := findName hm (publications hm) name.
Definition getInput hm (name : string) := findName hm (inputs hm) name.
Definition getFilter hm (name : string) := findName hm (filters hm) name.

Definition getTyped hm (what : handle_type) (handle : interface_handle)
    : option BasicHandleInfo :=
  match getHandleInfo hm handle with
  | Some hand => if bool_decide (handleType hand = what) then Some hand else None
  | None => None
  end.
Definition getEndpointByHandle hm (handle : interface_handle) := getTyped hm ht_endpoint handle.
Definition getPublicationByHandle hm (handle : interface_handle) :=
  getTyped hm ht_publication handle.
Definition getFilterByHandle hm (handle : interface_handle) := getTyped hm ht_filter handle.

Definition getLocalFedID hm (handle : interface_handle) : local_federate_id :=
  match getHandleInfo hm handle with Some hi => local_fed_id hi | None => invalid_fid end.

Definition setHandleOption hm (handle : interface_handle) (option val : Z) : HandleManager :=
  match getHandleInfo hm handle with
  | None => hm
  | Some hi =>
      let update hi := hm <| handles := <[Z.to_nat handle := hi]> (handles hm) |> in
      if option =? helics_handle_option_connection_required then
        if negb (val =? 0)
        then update (setActionFlag (clearActionFlag hi optional_flag) required_flag)
        else update (clearActionFlag hi required_flag)
      else if option =? helics_handle_option_connection_optional then
        if negb (val =? 0)
        then update (setActionFlag (clearActionFlag hi required_flag) optional_flag)
        else update (clearActionFlag hi optional_flag)
      else hm
  end.

Definition getHandleOption hm (handle : interface_handle) (option : Z) : Z :=
  match getHandleInfo hm handle with
  | None => 0
  | Some hi =>
      Z.b2z
        (if option =? helics_handle_option_only_update_on_change then
           checkActionFlag hi extra_flag1
         else if option =? helics_handle_option_only_transmit_on_change then
           checkActionFlag hi extra_flag2
         else if option =? helics_handle_option_connection_required then
           checkActionFlag hi required_flag
         else if option =? helics_handle_option_connection_optional then
           checkActionFlag hi optional_flag
         else if option =? helics_handle_option_single_connection_only then
           checkActionFlag hi extra_flag4
         else false)
  end.

End operations.
