(* ===== verification/HandleFacts.v ===== *)
(** * Properties of the handle table (HandleManager.v)

    The indices by name and by global handle agree with the table: an invariant kept by
    additions and removals, from which the searches never access the table out of
    range, find what was added and not what was removed. *)

From stdpp Require Import pretty.
From S2P Require Import Prelude HelicsTime Ids Flags Definitions HandleManager.

Section facts.
  Implicit Types (hm : HandleManager) (hi : BasicHandleInfo).

(** The index by name for a type. *)
Definition names hm (what : handle_type) : gmap string Z :=
  match what with
  | ht_endpoint => endpoints hm
  | ht_publication => publications hm
  | ht_filter => filters hm
  | ht_input => inputs hm
  | ht_unknown => ∅
  end.

(** The table has [hi] at a given index. *)
Definition has_handle hm (index : Z) hi : Prop :=
  0 ≤ index ∧ handles hm !! Z.to_nat index = Some hi.

Record hm_inv hm : Prop := {
  hm_ids : ∀ k i, unique_ids hm !! k = Some i →
    ∃ hi, has_handle hm i hi ∧ handle_key (hi_handle hi) = k;
  hm_names : ∀ what name i, names hm what !! name = Some i →
    name ≠ "" ∧ ∃ hi, has_handle hm i hi ∧ handleType hi = what ∧ hi_key hi = name;
}.

(** ** Lemmas *)

Lemma handle_at_has hm index hi : has_handle hm index hi → handle_at hm index = Ok hi.
Proof.
  intros [Hi Hl]. unfold handle_at. by rewrite (proj2 (Z.ltb_ge _ _) Hi), Hl.
Qed.

Lemma has_handle_snoc hm index hi hi' :
  has_handle hm index hi → has_handle (hm <| handles := handles hm ++ [hi'] |>) index hi.
Proof. intros [Hi Hl]. split; [done|]. cbn. by apply lookup_app_l_Some. Qed.

Lemma map_emplace_lookup `{Countable K} {A} (k k' : K) (a : A) (m : gmap K A) :
  map_emplace k a m !! k' =
    match m !! k' with
    | Some b => Some b
    | None => if decide (k' = k) then Some a else None
    end.
Proof.
  unfold map_emplace. destruct (m !! k) as [b|] eqn:E.
  - destruct (m !! k') eqn:E'; [done|]. case_decide; [congruence|done].
  - destruct (decide (k' = k)) as [->|].
    + by rewrite lookup_insert_eq, E.
    + rewrite lookup_insert_ne by done. by destruct (m !! k').
Qed.

(** What [addSearchFields] does to each index. *)
Lemma addSearchFields_handles hm hi index :
  handles (addSearchFields hm hi index) = handles hm.
Proof. unfold addSearchFields. by repeat case_match. Qed.

Lemma addSearchFields_ids hm hi index :
  unique_ids (addSearchFields hm hi index)
  = map_emplace (handle_key (hi_handle hi)) index (unique_ids hm).
Proof. unfold addSearchFields. by repeat case_match. Qed.

Lemma addSearchFields_names hm hi index what :
  names (addSearchFields hm hi index) what =
    if decide (what = handleType hi ∧ what ≠ ht_unknown ∧ (what = ht_filter → hi_key hi ≠ ""))
    then map_emplace (hi_key hi) index (names hm what) else names hm what.
Proof.
  unfold addSearchFields.
  destruct (handleType hi), what; cbn;
    destruct (String.eqb_spec (hi_key hi) ""); cbn; case_decide; naive_solver.
Qed.

(** The appended handle is at the end of the table. *)
Lemma has_handle_last hm hi index :
  index = Z.of_nat (length (handles hm)) →
  has_handle (hm <| handles := handles hm ++ [hi] |>) index hi.
Proof.
  intros ->. split; [lia|]. cbn. by rewrite Nat2Z.id, list_lookup_middle.
Qed.

Lemma handles_size_eq hm :
  Z.of_nat (length (handles hm)) < 2 ^ 31 →
  handles_size hm = Z.of_nat (length (handles hm)).
Proof. intros. unfold handles_size. rewrite to_sint_id; [done|lia|]. split; lia. Qed.

Lemma append_inv hm hi :
  hm_inv hm → Z.of_nat (length (handles hm)) < 2 ^ 31 → hi_key hi ≠ "" →
  hm_inv (addSearchFields (hm <| handles := handles hm ++ [hi] |>) hi (handles_size hm)).
Proof.
  intros [Hids Hnames] Hlen Hkey. rewrite handles_size_eq by done.
  assert (∀ i hi', has_handle (hm <| handles := handles hm ++ [hi] |>) i hi' →
    has_handle (addSearchFields (hm <| handles := handles hm ++ [hi] |>) hi
      (Z.of_nat (length (handles hm)))) i hi') as Hhas.
  { intros i hi' Hh. unfold has_handle. rewrite addSearchFields_handles. exact Hh. }
  split.
  - intros k i. rewrite addSearchFields_ids, map_emplace_lookup. cbn [unique_ids upd].
    destruct (unique_ids hm !! k) as [b|] eqn:E.
    + intros [= ->]. destruct (Hids k i E) as (hi' & Hh & Hk).
      exists hi'. split; [by apply Hhas, has_handle_snoc|done].
    + case_decide as Hd; [|done]. intros [= <-]. exists hi.
      split; [by apply Hhas, has_handle_last|done].
  - intros what name i. rewrite addSearchFields_names.
    change (names (hm <| handles := _ |>) what) with (names hm what).
    assert (∀ i, names hm what !! name = Some i →
      name ≠ "" ∧ ∃ hi', has_handle (addSearchFields (hm <| handles := handles hm ++ [hi] |>) hi
        (Z.of_nat (length (handles hm)))) i hi' ∧ handleType hi' = what ∧ hi_key hi' = name)
      as Hold.
    { intros i' E. destruct (Hnames _ _ _ E) as (Hn & hi' & Hh & Ht & Hk).
      split; [done|]. exists hi'. split; [by apply Hhas, has_handle_snoc|done]. }
    case_decide as Hd; [|apply Hold]. rewrite map_emplace_lookup.
    destruct (names hm what !! name) as [b|] eqn:E; [apply Hold|].
    case_decide as Hn; [|done]. intros [= <-]. subst name. split; [done|].
    exists hi. split; [by apply Hhas, has_handle_last|]. by destruct Hd as [-> _].
Qed.

Lemma eraseName_names hm what key what' :
  names (eraseName hm what key) what' =
    if decide (what' = what) then delete key (names hm what') else names hm what'.
Proof.
  destruct what, what'; cbn; case_decide; try done.
Qed.

Lemma eraseName_other hm what key :
  handles (eraseName hm what key) = handles hm ∧
  unique_ids (eraseName hm what key) = unique_ids hm.
Proof. by destruct what. Qed.

(** The state after the removal of the handle [hi] found at [index]. *)
Definition removed hm (h : global_handle) (index : Z) hi : HandleManager :=
  (eraseName (hm <| unique_ids := delete (handle_key h) (unique_ids hm) |>)
     (handleType hi) (hi_key hi))
    <| handles := <[Z.to_nat index := blankHandleInfo]> (handles hm) |>.

Lemma eraseName_empty hm what :
  (∀ w, names hm w !! "" = None) → eraseName hm what "" = hm.
Proof.
  intros Hn. destruct hm as [hs ps es ins fs us].
  destruct what; cbn; try done; f_equal; apply delete_id.
  - apply (Hn ht_publication).
  - apply (Hn ht_input).
  - apply (Hn ht_endpoint).
  - apply (Hn ht_filter).
Qed.

Lemma removeHandle_eq hm h index hi :
  hm_inv hm → unique_ids hm !! handle_key h = Some index → has_handle hm index hi →
  removeHandle hm h = Ok (removed hm h index hi).
Proof.
  intros [Hids Hnames] Hi Hh. unfold removeHandle, removed.
  rewrite Hi, (handle_at_has _ _ _ Hh). cbn [mbind outcome_bind]. cbv zeta.
  destruct (String.eqb_spec (hi_key hi) "") as [He|He]; cbn [negb].
  - rewrite He, eraseName_empty; [done|]. intros w. destruct (names _ w !! "") eqn:E; [|done].
    by destruct (Hnames _ _ _ E).
  - by destruct (handleType hi).
Qed.

Lemma removed_ids hm h index hi :
  unique_ids (removed hm h index hi) = delete (handle_key h) (unique_ids hm).
Proof. unfold removed. by destruct (handleType hi). Qed.

Lemma removed_handles hm h index hi :
  handles (removed hm h index hi) = <[Z.to_nat index := blankHandleInfo]> (handles hm).
Proof. done. Qed.

Lemma removed_names hm h index hi what :
  names (removed hm h index hi) what =
    if decide (what = handleType hi) then delete (hi_key hi) (names hm what)
    else names hm what.
Proof.
  unfold removed. transitivity (names (eraseName
    (hm <| unique_ids := delete (handle_key h) (unique_ids hm) |>) (handleType hi) (hi_key hi)) what).
  { by destruct what. }
  rewrite eraseName_names. by destruct what.
Qed.

Lemma removed_has hm h index hi i hi' :
  0 ≤ index → has_handle hm i hi' → i ≠ index → has_handle (removed hm h index hi) i hi'.
Proof.
  intros Hpos [Hi Hl] Hne. split; [done|]. rewrite removed_handles.
  by rewrite list_lookup_insert_ne by lia.
Qed.

Lemma has_handle_unique hm i hi hi' : has_handle hm i hi → has_handle hm i hi' → hi = hi'.
Proof. intros [_ H1] [_ H2]. congruence. Qed.

Lemma removed_inv hm h index hi :
  hm_inv hm → unique_ids hm !! handle_key h = Some index → has_handle hm index hi →
  hm_inv (removed hm h index hi).
Proof.
  intros [Hids Hnames] Hi Hh. pose proof Hh as [Hpos _].
  destruct (Hids _ _ Hi) as (hi0 & Hh0 & Hk0).
  pose proof (has_handle_unique _ _ _ _ Hh Hh0) as <-. split.
  - intros k i. rewrite removed_ids. intros [Hne Hk]%lookup_delete_Some.
    destruct (Hids k i Hk) as (hi' & Hh' & Hk'). exists hi'. split; [|done].
    apply removed_has; [done..|]. intros ->.
    pose proof (has_handle_unique _ _ _ _ Hh Hh') as <-. congruence.
  - intros what name i. rewrite removed_names. case_decide as Hw.
    + intros [Hne Hn]%lookup_delete_Some.
      destruct (Hnames _ _ _ Hn) as (Hn0 & hi' & Hh' & Ht & Hk).
      split; [done|]. exists hi'. split; [|done]. apply removed_has; [done..|]. intros ->.
      pose proof (has_handle_unique _ _ _ _ Hh Hh') as <-. congruence.
    + intros Hn. destruct (Hnames _ _ _ Hn) as (Hn0 & hi' & Hh' & Ht & Hk).
      split; [done|]. exists hi'. split; [|done]. apply removed_has; [done..|]. intros ->.
      pose proof (has_handle_unique _ _ _ _ Hh Hh') as <-. congruence.
Qed.

Lemma findHandle_spec hm h :
  hm_inv hm →
  match unique_ids hm !! handle_key h with
  | Some i => ∃ hi, findHandle hm h = Ok (Some hi) ∧ has_handle hm i hi ∧
                    handle_key (hi_handle hi) = handle_key h
  | None => findHandle hm h = Ok None
  end.
Proof.
  intros [Hids _]. unfold findHandle. destruct (unique_ids hm !! _) as [i|] eqn:E; [|done].
  destruct (Hids _ _ E) as (hi & Hh & Hk). exists hi.
  by rewrite (handle_at_has _ _ _ Hh).
Qed.

Lemma newKey_nonempty hm what key :
  (if negb (String.eqb key "") then key else generateName hm what) ≠ "".
Proof. destruct (String.eqb_spec key ""); [by destruct what|done]. Qed.

(** ** Properties *)

(** A handle registered under an unused id is found: [addHandle] keeps the
    invariant, [findHandle] then returns the new information, and every other handle is
    found as before. *)
Lemma handle_add_find hm fed what key type units :
  let id := GlobalHandle fed (handles_size hm) in
  hm_inv hm → Z.of_nat (length (handles hm)) < 2 ^ 31 → handle_range id →
  unique_ids hm !! handle_key id = None →
  let '(hm', hi) := addHandle hm fed what key type units in
  hm_inv hm' ∧ hi_handle hi = id ∧ findHandle hm' id = Ok (Some hi) ∧
  ∀ id', handle_range id' → id' ≠ id → findHandle hm' id' = findHandle hm id'.
Proof.
  intros id Hinv Hlen Hr Hfresh. unfold addHandle. cbv zeta.
  set (hi := newHandleInfo _ _ _ _ _ _).
  pose proof (append_inv hm hi Hinv Hlen (newKey_nonempty hm what key)) as Hinv'.
  split; [exact Hinv'|]. split; [done|]. split.
  - unfold findHandle. rewrite addSearchFields_ids, map_emplace_lookup.
    change (unique_ids (hm <| handles := _ |>)) with (unique_ids hm). rewrite Hfresh.
    rewrite decide_True by done. rewrite (handle_at_has _ _ hi); [done|].
    unfold has_handle. rewrite addSearchFields_handles.
    apply has_handle_last. by apply handles_size_eq.
  - intros id' Hr' Hne. unfold findHandle. rewrite addSearchFields_ids, map_emplace_lookup.
    change (unique_ids (hm <| handles := _ |>)) with (unique_ids hm).
    destruct (unique_ids hm !! handle_key id') as [i|] eqn:E.
    + destruct (hm_ids _ Hinv _ _ E) as (hi' & Hh & _).
      rewrite (handle_at_has _ _ _ Hh), (handle_at_has _ _ hi'); [done|].
      unfold has_handle. rewrite addSearchFields_handles. by apply has_handle_snoc.
    + rewrite decide_False; [done|]. intros Hk. by apply Hne, handle_key_inj.
Qed.

(** [removeHandle] never accesses the table out of range, keeps the invariant, and
    afterwards the handle is not found while every other handle is found as before. *)
Lemma handle_remove_find hm h :
  hm_inv hm → handle_range h →
  ∃ hm', removeHandle hm h = Ok hm' ∧ hm_inv hm' ∧ findHandle hm' h = Ok None ∧
    ∀ h', handle_range h' → h' ≠ h → findHandle hm' h' = findHandle hm h'.
Proof.
  intros Hinv Hr. pose proof (findHandle_spec hm h Hinv) as Hf.
  destruct (unique_ids hm !! handle_key h) as [i|] eqn:E.
  - destruct Hf as (hi & _ & Hh & Hk). exists (removed hm h i hi).
    pose proof (removed_inv hm h i hi Hinv E Hh) as Hinv'.
    split; [by apply removeHandle_eq|]. split; [done|]. unfold findHandle. rewrite removed_ids.
    split; [by rewrite lookup_delete_eq|]. intros h' Hr' Hne.
    rewrite lookup_delete_ne by (intros ?; by apply Hne, handle_key_inj).
    destruct (unique_ids hm !! handle_key h') as [i'|] eqn:E'; [|done].
    destruct (hm_ids _ Hinv _ _ E') as (hi' & Hh' & Hk').
    rewrite (handle_at_has _ _ _ Hh'), (handle_at_has _ _ hi'); [done|].
    apply removed_has; [apply Hh|done|]. intros ->.
    pose proof (has_handle_unique _ _ _ _ Hh Hh') as <-.
    apply Hne, handle_key_inj; [done..|congruence].
  - exists hm. split; [by unfold removeHandle; rewrite E|done].
Qed.

(** A named handle is found by its name: after [addHandle] under a name not yet
    used for that type, the search by name of that type returns the new information. *)
Lemma handle_add_name hm fed what key type units :
  Z.of_nat (length (handles hm)) < 2 ^ 31 →
  key ≠ "" → what ≠ ht_unknown → names hm what !! key = None →
  let '(hm', hi) := addHandle hm fed what key type units in
  hi_key hi = key ∧ handleType hi = what ∧
  findName hm' (names hm' what) key = Ok (Some hi).
Proof.
  intros Hlen Hkey Hwhat Hfresh. unfold addHandle. cbv zeta.
  rewrite (proj2 (String.eqb_neq _ _) Hkey). cbn [negb].
  set (hi := newHandleInfo _ _ _ _ _ _). split; [done|]. split; [done|].
  unfold findName. rewrite addSearchFields_names.
  change (names (hm <| handles := _ |>) what) with (names hm what).
  rewrite decide_True by done. rewrite map_emplace_lookup. cbn [hi_key newHandleInfo upd].
  change (hi_key hi) with key. rewrite Hfresh, decide_True by done.
  rewrite (handle_at_has _ _ hi); [done|]. unfold has_handle.
  rewrite addSearchFields_handles. apply has_handle_last. by apply handles_size_eq.
Qed.

(** Sequences of additions and removals. *)
Inductive hm_op :=
  | HmAdd (fed : global_federate_id) (what : handle_type) (key type units : string)
  | HmAddLocal (fed : global_federate_id) (local_id : interface_handle) (what : handle_type)
      (key type units : string)
  | HmRemove (h : global_handle).

Definition hm_run hm (op : hm_op) : outcome HandleManager :=
  match op with
  | HmAdd fed what key type units => Ok (addHandle hm fed what key type units).1
  | HmAddLocal fed local_id what key type units =>
      Ok (addHandleLocal hm fed local_id what key type units).1
  | HmRemove h => removeHandle hm h
  end.

Fixpoint hm_trace hm (ops : list hm_op) : outcome HandleManager :=
  match ops with
  | [] => Ok hm
  | op :: ops => hm ← hm_run hm op; hm_trace hm ops
  end.

Lemma hm_run_inv hm op :
  hm_inv hm → Z.of_nat (length (handles hm)) < 2 ^ 31 →
  ∃ hm', hm_run hm op = Ok hm' ∧ hm_inv hm' ∧
    (length (handles hm') ≤ S (length (handles hm)))%nat.
Proof.
  intros Hinv Hlen. destruct op as [fed what key type units|fed loc what key type units|h].
  - eexists. split; [done|]. split; [by apply append_inv, newKey_nonempty|].
    unfold addHandle. cbv zeta. cbn [fst].
    rewrite addSearchFields_handles. cbn. rewrite length_app. cbn. lia.
  - eexists. split; [done|]. split; [by apply append_inv, newKey_nonempty|].
    unfold addHandleLocal. cbv zeta. cbn [fst].
    rewrite addSearchFields_handles. cbn. rewrite length_app. cbn. lia.
  - cbn. pose proof (findHandle_spec hm h Hinv) as Hf.
    destruct (unique_ids hm !! handle_key h) as [i|] eqn:E.
    + destruct Hf as (hi & _ & Hh & Hk). exists (removed hm h i hi).
      split; [by apply removeHandle_eq|]. split; [by apply removed_inv|].
      rewrite removed_handles, length_insert. lia.
    + exists hm. unfold removeHandle. rewrite E. split; [done|]. split; [done|lia].
Qed.

Lemma hm_trace_inv hm ops :
  hm_inv hm → Z.of_nat (length (handles hm) + length ops) < 2 ^ 31 →
  ∃ hm', hm_trace hm ops = Ok hm' ∧ hm_inv hm'.
Proof.
  revert hm. induction ops as [|op ops IH]; intros hm Hinv Hlen; cbn [hm_trace length] in *.
  { by exists hm. }
  destruct (hm_run_inv hm op Hinv ltac:(lia)) as (hm1 & -> & Hinv1 & Hlen1).
  cbn [mbind outcome_bind]. apply IH; [done|lia].
Qed.

(** No sequence of additions and removals makes the manager access its table out
    of range, and in every state so reached the indices by name and by id point to
    handles of that name, type and id. *)
Theorem handle_ops_safe ops h :
  Z.of_nat (length ops) < 2 ^ 31 →
  ∃ hm, hm_trace newHandleManager ops = Ok hm ∧ hm_inv hm ∧
    ∃ found, findHandle hm h = Ok found ∧
      (∀ hi, found = Some hi → handle_key (hi_handle hi) = handle_key h).
Proof.
  intros Hlen. destruct (hm_trace_inv newHandleManager ops) as (hm & Ht & Hinv).
  { split; [done|]. by intros []. }
  { done. }
  exists hm. split; [done|]. split; [done|]. pose proof (findHandle_spec hm h Hinv) as Hf.
  destruct (unique_ids hm !! _).
  - destruct Hf as (hi & -> & _ & Hk). eexists. split; [done|]. by intros ? [= <-].
  - eexists. by split.
Qed.

(** [addHandleAtIndex] on an occupied index replaces the entry of the table but
    leaves the id of the old handle in the index: a search for the old id then returns
    the new handle. *)
Lemma addHandleAtIndex_stale hm h i hi :
  unique_ids hm !! handle_key h = Some i → 0 ≤ i < Z.of_nat (length (handles hm)) →
  i ≠ handles_size hm →
  findHandle (addHandleAtIndex hm hi i) h = Ok (Some hi).
Proof.
  intros Hi Hr Hne. unfold addHandleAtIndex. rewrite (proj2 (Z.eqb_neq _ _)) by done.
  unfold isValidIndex. rewrite (proj2 (Z.leb_le _ _)), (proj2 (Z.ltb_lt _ _)) by lia.
  cbn [andb]. unfold findHandle. rewrite addSearchFields_ids, map_emplace_lookup.
  change (unique_ids (hm <| handles := _ |>)) with (unique_ids hm). rewrite Hi.
  rewrite (handle_at_has _ _ hi); [done|]. unfold has_handle. split; [lia|].
  rewrite addSearchFields_handles. apply list_lookup_insert_eq. lia.
Qed.

(** *** Options *)

Lemma getHandleInfo_Some hm h hi :
  getHandleInfo hm h = Some hi → isValidIndex h (handles hm) = true.
Proof. unfold getHandleInfo. by case_match. Qed.

Lemma getHandleInfo_update hm h hi hi' :
  getHandleInfo hm h = Some hi →
  getHandleInfo (hm <| handles := <[Z.to_nat h := hi']> (handles hm) |>) h = Some hi'.
Proof.
  intros Hg. pose proof (getHandleInfo_Some _ _ _ Hg) as Hv. unfold getHandleInfo, isValidIndex in *.
  cbn [handles upd]. rewrite length_insert, Hv. bool_facts.
  apply list_lookup_insert_eq. lia.
Qed.

(** The effect of [setHandleOption] on the handle. *)
Definition with_option hi (option val : Z) : BasicHandleInfo :=
  if option =? helics_handle_option_connection_required then
    if negb (val =? 0) then setActionFlag (clearActionFlag hi optional_flag) required_flag
    else clearActionFlag hi required_flag
  else if option =? helics_handle_option_connection_optional then
    if negb (val =? 0) then setActionFlag (clearActionFlag hi required_flag) optional_flag
    else clearActionFlag hi optional_flag
  else hi.

Lemma setHandleOption_info hm h hi option val :
  getHandleInfo hm h = Some hi →
  getHandleInfo (setHandleOption hm h option val) h = Some (with_option hi option val).
Proof.
  intros Hg. unfold setHandleOption, with_option. rewrite Hg. cbv zeta.
  repeat case_match; first [exact Hg | by eapply getHandleInfo_update].
Qed.

(** "Required" and "optional" exclude each other: setting one of the two connection
    options of a handle makes it read as set and the other as not set. *)
Lemma connection_options_exclusive hm h hi :
  getHandleInfo hm h = Some hi →
  let required := helics_handle_option_connection_required in
  let optional := helics_handle_option_connection_optional in
  getHandleOption (setHandleOption hm h required 1) h required = 1 ∧
  getHandleOption (setHandleOption hm h required 1) h optional = 0 ∧
  getHandleOption (setHandleOption hm h optional 1) h optional = 1 ∧
  getHandleOption (setHandleOption hm h optional 1) h required = 0.
Proof.
  intros Hg. cbv zeta. unfold getHandleOption.
  rewrite !(setHandleOption_info _ _ _ _ _ Hg). unfold with_option.
  cbn -[checkActionFlag setActionFlag clearActionFlag].
  by rewrite !check_set_flag, !check_clear_flag by done.
Qed.

(** The flag [extra_flag2] has the value of [optional_flag]: making the connections
    of a handle optional makes the unrelated option "only transmit on change" read as
    set. *)
Lemma optional_reads_as_transmit_on_change hm h hi :
  getHandleInfo hm h = Some hi →
  getHandleOption (setHandleOption hm h helics_handle_option_connection_optional 1) h
    helics_handle_option_only_transmit_on_change = 1.
Proof.
  intros Hg. unfold getHandleOption. rewrite (setHandleOption_info _ _ _ _ _ Hg).
  unfold with_option. cbn -[checkActionFlag setActionFlag clearActionFlag].
  by rewrite check_set_flag by done.
Qed.

End facts.

(** ** Witnesses *)

Definition sample_hm : HandleManager :=
  (addHandle newHandleManager 131072 ht_publication "pub1" "double" "V").1.
Definition sample_id : global_handle := GlobalHandle 131072 0.

Lemma sample_hm_inv : hm_inv sample_hm.
Proof.
  apply append_inv; [|done|done]. split; [done|]. by intros [].
Defined.

Lemma handle_ops_safe_witness :
  ∃ hm, hm_trace newHandleManager
          [HmAdd 131072 ht_publication "pub1" "double" "V"; HmRemove sample_id] = Ok hm ∧
    hm_inv hm ∧ ∃ found, findHandle hm sample_id = Ok found ∧
      (∀ hi, found = Some hi → handle_key (hi_handle hi) = handle_key sample_id).
Proof.
  apply (handle_ops_safe [HmAdd 131072 ht_publication "pub1" "double" "V"; HmRemove sample_id]
           sample_id).
  reflexivity.
Defined.

