(* ===== verification/InputInfo.v ===== *)
(** * Inputs and their data queues (src/src/helics/core/InputInfo.hpp, .cpp)

    An input keeps, for each of its sources, a queue of the values received and not yet
    used, and the value currently visible.  The parallel vectors are lists of the same
    length (the invariant of InputFacts.v), so that every index the code uses is in
    range.  A data block is its bytes; a null pointer is [None]. *)

From S2P Require Import Prelude HelicsTime Ids.

(** [struct dataRecord]; [addData] is always given a block. *)
Record dataRecord := mkDataRecord {
  rec_time : Time;
  rec_iteration : Z;
  rec_data : string;
}.

(** [struct sourceInformation] *)
Record sourceInformation := mkSourceInformation {
  si_key : string;
  si_type : string;
  si_units : string;
}.

(** [class InputInfo] *)
Record InputInfo := mkInputInfo {
  ii_id : global_handle;
  ii_key : string;
  ii_type : string;
  ii_units : string;
  ii_required : bool;
  ii_optional : bool;
  has_target : bool;
  only_update_on_change : bool;
  not_interruptible : bool;
  strict_type_matching : bool;
  ignore_unit_mismatch : bool;
  required_connnections : Z;
  current_data_time : list (Time * Z);
  current_data : list (option string);
  input_sources : list global_handle;
  deactivated : list Time;
  source_info : list sourceInformation;
  priority_sources : list Z;
  data_queues : list (list dataRecord);
  inputUnits : string;
  inputType : string;
}.

#[export] Instance eta_InputInfo : Eta InputInfo := λ i,
  mkInputInfo (ii_id i) (ii_key i) (ii_type i) (ii_units i) (ii_required i) (ii_optional i)
    (has_target i) (only_update_on_change i) (not_interruptible i) (strict_type_matching i)
    (ignore_unit_mismatch i) (required_connnections i) (current_data_time i)
    (current_data i) (input_sources i) (deactivated i) (source_info i)
    (priority_sources i) (data_queues i) (inputUnits i) (inputType i).

Definition newInputInfo (handle : global_handle) (key type units : string) : InputInfo := {|
  ii_id := handle; ii_key := key; ii_type := type; ii_units := units;
  ii_required := false; ii_optional := false; has_target := false;
  only_update_on_change := false; not_interruptible := false;
  strict_type_matching := false; ignore_unit_mismatch := false;
  required_connnections := 0; current_data_time := []; current_data := [];
  input_sources := []; deactivated := []; source_info := []; priority_sources := [];
  data_queues := []; inputUnits := ""; inputType := "" |}.

(** [priorityCheck]: whether [index1] has a higher priority than [index2]; the list is
    searched from its end. *)
Fixpoint priorityLoop (index1 index2 : Z) (reversed : list Z) : bool :=
  match reversed with
  | [] => false
  | priority :: rest =>
      if priority =? index1 then true
      else if priority =? index2 then false
      else priorityLoop index1 index2 rest
  end.
Definition priorityCheck (index1 index2 : Z) (priorities : list Z) : bool :=
  priorityLoop index1 index2 (rev priorities).

(** [recordComparison]: by time, then by iteration. *)
Definition recordComparison (rec1 rec2 : dataRecord) : bool :=
  if rec_time rec1 <? rec_time rec2 then true
  else if rec_time rec1 =? rec_time rec2 then rec_iteration rec1 <? rec_iteration rec2
  else false.

Section operations.
  Context `{TimeRep}.
  Implicit Types (i : InputInfo) (q : list dataRecord).

Definition getAllData i : list (option string) := current_data i.

(** [getData(int index)] *)
Definition getDataAt i (index : Z) : option string :=
  if isValidIndex index (current_data i) then default None (current_data i !! Z.to_nat index)
  else None.

(** The loop of the second [getData]: [mxind] after the times from index [ind] on. *)
Fixpoint latestLoop (priorities : list Z) (times : list (Time * Z)) (ind mxind : Z)
    (mxTime : Time) : Z :=
  match times with
  | [] => mxind
  | cd :: times =>
      if mxTime <? cd.1 then latestLoop priorities times (ind + 1) ind cd.1
      else if cd.1 =? mxTime then
        latestLoop priorities times (ind + 1)
          (if priorityCheck ind mxind priorities then ind else mxind) mxTime
      else latestLoop priorities times (ind + 1) mxind mxTime
  end.
Definition latestIndex i : Z :=
  latestLoop (priority_sources i) (current_data_time i) 0 (-1) Time_minVal.
(** [getData(uint32_t* inputIndex)]: the data and the value stored in [inputIndex]. *)
Definition getData i : option string * Z :=
  let mxind := latestIndex i in
  if 0 <=? mxind then (default None (current_data i !! Z.to_nat mxind), mxind)
  else (None, 0).

(** The insertion of a value in a queue. *)
Definition enqueue q (newRecord : dataRecord) : list dataRecord :=
  match last q with
  | None => q ++ [newRecord]
  | Some back =>
      if rec_time back <? rec_time newRecord then q ++ [newRecord]
      else vec_insert (upper_bound recordComparison q newRecord) newRecord q
  end.

(** The loop of [addData] over the sources. *)
Fixpoint findSource (sources : list global_handle) (source : global_handle) : option nat :=
  match sources with
  | [] => None
  | h :: sources => if handle_eqb h source then Some 0%nat else S <$> findSource sources source
  end.

Definition addData i (source : global_handle) (valueTime : Time) (iteration : Z)
    (data : string) : InputInfo :=
  match findSource (input_sources i) source with
  | None => i
  | Some index =>
      match deactivated i !! index with
      | Some limit =>
          if limit <? valueTime then i
          else i <| data_queues :=
                      alter (λ q, enqueue q (mkDataRecord valueTime iteration data)) index
                        (data_queues i) |>
      | None => i
      end
  end.

(** [std::vector::resize(n, x)] *)
Definition vec_resize {A} (n : nat) (x : A) (l : list A) : list A :=
  take n l ++ replicate (n - length l) x.

Definition addSource i (newSource : global_handle) (sourceName stype sunits : string)
    : InputInfo :=
  let sources := input_sources i ++ [newSource] in
  i <| inputUnits := "" |> <| inputType := "" |> <| input_sources := sources |>
    <| source_info := source_info i ++ [mkSourceInformation sourceName stype sunits] |>
    <| data_queues := vec_resize (length sources) [] (data_queues i) |>
    <| current_data := vec_resize (length sources) None (current_data i) |>
    <| current_data_time := vec_resize (length sources) (Time_minVal, 0)
                              (current_data_time i) |>
    <| deactivated := deactivated i ++ [Time_maxVal] |>
    <| has_target := true |>.

(** [while (!queue.empty() && queue.back().time > minTime) queue.pop_back();] *)
Definition popAfter (minTime : Time) q : list dataRecord :=
  rev (drop (prefix_len (λ r, minTime <? rec_time r) (rev q)) (rev q)).

(** The common body of the two [removeSource]: [sel] says which sources match. *)
Definition removeSelected i (sel : nat → bool) (minTime : Time) : InputInfo :=
  i <| inputUnits := "" |> <| inputType := "" |>
    <| data_queues := imap (λ ii q, if sel ii then popAfter minTime q else q) (data_queues i) |>
    <| deactivated := imap (λ ii t, if sel ii then if minTime <? t then minTime else t else t)
                        (deactivated i) |>.
Definition removeSource i (sourceToRemove : global_handle) (minTime : Time) : InputInfo :=
  removeSelected i
    (λ ii, match input_sources i !! ii with
           | Some h => handle_eqb h sourceToRemove | None => false end) minTime.
Definition removeSourceByName i (sourceName : string) (minTime : Time) : InputInfo :=
  removeSelected i
    (λ ii, match source_info i !! ii with
           | Some s => String.eqb (si_key s) sourceName | None => false end) minTime.

Definition clearFutureData i : InputInfo :=
  i <| data_queues := (λ _, []) <$> data_queues i |>.

(** [getInjectionType] and [getInjectionUnits]: the returned string, which is also
    stored in the mutable member. *)
Fixpoint quoteAll (strs : list string) : string :=
  match strs with
  | [] => ""
  | str :: strs =>
      String (Ascii.ascii_of_N 34) "" +:+ str +:+ String (Ascii.ascii_of_N 34) "" +:+
      match strs with [] => "]" | _ => "," +:+ quoteAll strs end
  end.
Definition injection (cached : string) (strs : list string) : string :=
  if String.eqb cached "" then
    match strs with
    | [] => cached
    | front :: _ =>
        if forallb (String.eqb front) strs then front else "[" +:+ quoteAll strs
    end
  else cached.
Definition getInjectionType i : InputInfo * string :=
  let t := injection (inputType i) (si_type <$> source_info i) in
  (i <| inputType := t |>, t).
Definition getInjectionUnits i : InputInfo * string :=
  let u := injection (inputUnits i) (si_units <$> source_info i) in
  (i <| inputUnits := u |>, u).

(** ** Moving the visible values forward *)

Definition updateData i (update : dataRecord) (index : nat) : InputInfo * bool :=
  let store :=
    i <| current_data := <[index := Some (rec_data update)]> (current_data i) |>
      <| current_data_time := <[index := (rec_time update, rec_iteration update)]>
                                (current_data_time i) |> in
  match default None (current_data i !! index) with
  | Some data =>
      if negb (only_update_on_change i) then (store, true)
      else if negb (String.eqb data (rec_data update)) then (store, true)
      else
        match current_data_time i !! index with
        | Some (t, _) =>
            if t =? rec_time update then
              (i <| current_data_time := <[index := (t, rec_iteration update)]>
                                           (current_data_time i) |>, false)
            else (i, false)
        | None => (i, false)
        end
  | None => (store, true)
  end.

(** The advance of [currentValue] while a test holds: the last record passed (starting
    from [last]) and the rest of the queue. *)
Fixpoint advanceWhile (test : dataRecord → bool) (last : dataRecord) q
    : dataRecord * list dataRecord :=
  match q with
  | [] => (last, [])
  | r :: q' => if test r then advanceWhile test r q' else (last, q)
  end.

(** What one turn of the three update loops takes from a queue: the record to use, if
    any, and the queue that remains. *)
Definition takeUpTo (newTime : Time) q : option (dataRecord * list dataRecord) :=
  match q with
  | [] => None
  | first :: rest =>
      if newTime <? rec_time first then None
      else Some (advanceWhile (λ r, rec_time r <? newTime) first rest)
  end.
Definition takeInclusive (newTime : Time) q : option (dataRecord * list dataRecord) :=
  match q with
  | [] => None
  | first :: rest =>
      if newTime <? rec_time first then None
      else Some (advanceWhile (λ r, rec_time r <=? newTime) first rest)
  end.
Definition takeNextIteration (newTime : Time) q : option (dataRecord * list dataRecord) :=
  match takeUpTo newTime q with
  | Some (last, current :: rest) =>
      if rec_time current =? newTime then
        let cindex := rec_iteration last in
        Some (advanceWhile (λ r, (rec_time r =? newTime) && (rec_iteration r =? cindex)) last
                (current :: rest))
      else Some (last, current :: rest)
  | res => res
  end.

(** The loop over the queues, from the one at [index] on. *)
Fixpoint updateLoop (take : list dataRecord → option (dataRecord * list dataRecord))
    i (index : nat) (queues : list (list dataRecord)) (updated : bool) : InputInfo * bool :=
  match queues with
  | [] => (i, updated)
  | q :: queues =>
      match take q with
      | None => updateLoop take i (S index) queues updated
      | Some (last, rest) =>
          let '(i, res) := updateData i last index in
          let i := i <| data_queues := <[index := rest]> (data_queues i) |> in
          updateLoop take i (S index) queues (res || updated)
      end
  end.
Definition updateTimeUpTo i (newTime : Time) : InputInfo * bool :=
  updateLoop (takeUpTo newTime) i 0 (data_queues i) false.
Definition updateTimeNextIteration i (newTime : Time) : InputInfo * bool :=
  updateLoop (takeNextIteration newTime) i 0 (data_queues i) false.
Definition updateTimeInclusive i (newTime : Time) : InputInfo * bool :=
  updateLoop (takeInclusive newTime) i 0 (data_queues i) false.

Definition nextValueTime i : Time :=
  if not_interruptible i then Time_maxVal
  else
    foldl (λ nvtime q,
      match q with
      | [] => nvtime
      | front :: _ => if rec_time front <? nvtime then rec_time front else nvtime
      end) Time_maxVal (data_queues i).

End operations.

(** ** Type and unit matching *)

Definition convertible_set : list string :=
  ["double_vector"; "complex_vector"; "vector"; "double"; "float"; "bool"; "char"; "uchar";
   "int32"; "int64"; "uint32"; "uint64"; "int16"; "string"; "complex"; "complex_f";
   "named_point"].

Definition checkTypeMatch (type1 type2 : string) (strict_match : bool) : bool :=
  if String.eqb type1 "" || String.eqb type1 type2 || String.eqb type1 "def"
     || String.eqb type1 "any" || String.eqb type1 "raw" then true
  else if strict_match then false
  else if String.eqb type2 "" || String.eqb type2 "def" || String.eqb type2 "any" then true
  else if bool_decide (type1 ∈ convertible_set) then bool_decide (type2 ∈ convertible_set)
  else String.eqb type2 "raw".

(** The units library, which is not part of the sources: parsing, validity, and whether
    the quick and the full conversion give a number. *)
Class UnitsLib := {
  precise_unit : Type;
  unit_from_string : string → precise_unit;
  unit_is_valid : precise_unit → bool;
  quick_convert_isnan : precise_unit → precise_unit → bool;
  convert_isnan : precise_unit → precise_unit → bool;
}.

Definition checkUnitMatch `{UnitsLib} (unit1 unit2 : string) (strict_match : bool) : bool :=
  if String.eqb unit1 "" || String.eqb unit1 unit2 || String.eqb unit1 "def"
     || String.eqb unit1 "any" then true
  else if String.eqb unit2 "" || String.eqb unit2 "def" || String.eqb unit2 "any" then true
  else
    let u1 := unit_from_string unit1 in
    let u2 := unit_from_string unit2 in
    if negb (unit_is_valid u1) || negb (unit_is_valid u2) then false
    else if strict_match then negb (quick_convert_isnan u1 u2)
    else negb (convert_isnan u1 u2).
