(* ===== verification/InputFacts.v ===== *)
(** * Properties of inputs (InputInfo.v)

    The queues stay sorted by time and iteration and the parallel vectors keep the same
    length; a move to a time leaves exactly the later values in the queues and makes the
    last earlier one visible. *)

From S2P Require Import Prelude HelicsTime Ids InputInfo.

(** The order of a queue. *)
Definition rec_le (r1 r2 : dataRecord) : Prop :=
  rec_time r1 < rec_time r2 ∨
  (rec_time r1 = rec_time r2 ∧ rec_iteration r1 ≤ rec_iteration r2).
Definition queue_sorted (q : list dataRecord) : Prop := StronglySorted rec_le q.

Lemma recordComparison_false r x : recordComparison r x = false ↔ rec_le x r.
Proof.
  unfold recordComparison, rec_le.
  destruct (Z.ltb_spec (rec_time r) (rec_time x)); [split; [done|lia]|].
  destruct (Z.eqb_spec (rec_time r) (rec_time x)).
  - rewrite Z.ltb_ge. lia.
  - split; [lia|done].
Qed.

Lemma rec_le_trans x y z : rec_le x y → rec_le y z → rec_le x z.
Proof. unfold rec_le. lia. Qed.

Lemma queue_sorted_app q1 q2 :
  queue_sorted (q1 ++ q2) ↔
  queue_sorted q1 ∧ queue_sorted q2 ∧ Forall (λ x, Forall (rec_le x) q2) q1.
Proof.
  unfold queue_sorted. induction q1 as [|x q1 IH]; simpl.
  - split; [intros; repeat split; [constructor|done|constructor]|tauto].
  - rewrite !StronglySorted_cons, IH, Forall_app, Forall_cons. tauto.
Qed.

Lemma queue_sorted_lookup q i j x y :
  queue_sorted q → (i ≤ j)%nat → q !! i = Some x → q !! j = Some y → x = y ∨ rec_le x y.
Proof.
  intros Hs. revert i j. induction Hs as [|z q Hs IH Hz]; intros i j Hij Hi Hj; [done|].
  destruct i as [|i], j as [|j]; simpl in *; simplify_eq.
  - by left.
  - right. rewrite Forall_forall in Hz. eapply Hz, list_elem_of_lookup_2, Hj.
  - lia.
  - eapply IH; [|done..]. lia.
Qed.

Lemma upper_bound_queue q r :
  queue_sorted q →
  upper_bound recordComparison q r = prefix_len (λ x, negb (recordComparison r x)) q.
Proof.
  intros Hs. apply partition_point_spec. intros i j x y Hij Hx Hy Hp%Is_true_true.
  apply Is_true_true. rewrite negb_true_iff, recordComparison_false in *.
  destruct (queue_sorted_lookup q i j x y Hs Hij Hx Hy) as [->|Hle]; [done|].
  eapply rec_le_trans; eauto.
Qed.

(** The new record goes after those not later than it, before the others. *)
Lemma enqueue_split q r :
  queue_sorted q →
  ∃ q1 q2, q = q1 ++ q2 ∧ enqueue q r = q1 ++ r :: q2 ∧
    Forall (λ x, rec_le x r) q1 ∧ Forall (rec_le r) q2.
Proof.
  intros Hs. unfold enqueue. destruct (last q) as [back|] eqn:Hl.
  2:{ exists q, []. rewrite app_nil_r. apply last_None in Hl as ->. by repeat constructor. }
  destruct (Z.ltb_spec (rec_time back) (rec_time r)) as [Hlt|Hge].
  - exists q, []. rewrite app_nil_r. split; [done|]. split; [done|]. split; [|constructor].
    apply Forall_lookup. intros i x Hi. rewrite last_lookup in Hl.
    pose proof (lookup_lt_Some _ _ _ Hi).
    destruct (queue_sorted_lookup q i (pred (length q)) x back Hs ltac:(lia) Hi Hl) as [->|Hle].
    + left. lia.
    + unfold rec_le in *. lia.
  - rewrite upper_bound_queue by done. set (n := prefix_len _ q).
    exists (take n q), (drop n q). rewrite take_drop. split; [done|]. split; [done|]. split.
    + eapply Forall_impl; [apply prefix_len_take|]. intros x Hx%Is_true_true. simpl in Hx.
      by rewrite negb_true_iff, recordComparison_false in Hx.
    + apply Forall_lookup. intros i x Hi. rewrite lookup_drop in Hi.
      destruct (q !! n) as [y|] eqn:Hy.
      2:{ apply lookup_ge_None in Hy. apply lookup_lt_Some in Hi. lia. }
      pose proof (prefix_len_stop _ q y Hy) as Hstop. cbv beta in Hstop.
      rewrite negb_false_iff in Hstop.
      assert (rec_le r y) as Hry.
      { unfold recordComparison in Hstop. unfold rec_le. bool_lia. }
      destruct (queue_sorted_lookup q n (n + i) y x Hs ltac:(lia) Hy Hi) as [->|Hle]; [done|].
      by eapply rec_le_trans.
Qed.

Lemma enqueue_sorted q r : queue_sorted q → queue_sorted (enqueue q r).
Proof.
  intros Hs. destruct (enqueue_split q r Hs) as (q1 & q2 & -> & -> & H1 & H2).
  apply queue_sorted_app in Hs as (Hs1 & Hs2 & Hall). apply queue_sorted_app.
  split; [done|]. split; [by constructor|].
  rewrite Forall_forall in *. intros x Hx. constructor; [by apply H1|]. by apply Hall.
Qed.

(** ** Splitting a queue at a time *)

Definition upto (t : Time) (q : list dataRecord) : list dataRecord :=
  filter (λ r, rec_time r ≤ t) q.
Definition after (t : Time) (q : list dataRecord) : list dataRecord :=
  filter (λ r, t < rec_time r) q.

Lemma after_none t q : Forall (λ r, rec_time r ≤ t) q → after t q = [].
Proof.
  induction 1 as [|x q Hx _ IH]; [done|]. unfold after in *. rewrite filter_cons.
  by rewrite decide_False by lia.
Qed.
Lemma after_all t q : Forall (λ r, t < rec_time r) q → after t q = q ∧ upto t q = [].
Proof.
  induction 1 as [|x q Hx _ [IH1 IH2]]; [done|]. unfold after, upto in *. rewrite !filter_cons.
  rewrite decide_True, decide_False by lia. by rewrite IH1.
Qed.

Lemma queue_sorted_later r q t :
  queue_sorted (r :: q) → t < rec_time r → Forall (λ x, t < rec_time x) (r :: q).
Proof.
  intros [Hr Hs]%StronglySorted_cons Ht. constructor; [done|].
  eapply Forall_impl; [exact Hr|]. unfold rec_le. simpl. lia.
Qed.

(** The advance over the records up to a time. *)
Lemma advance_inclusive t first q :
  queue_sorted q →
  advanceWhile (λ r, rec_time r <=? t) first q = (default first (last (upto t q)), after t q).
Proof.
  intros Hs. revert first. induction q as [|r q IH]; intros first; [done|].
  pose proof Hs as [Hr Hs']%StronglySorted_cons. cbn [advanceWhile].
  destruct (Z.leb_spec (rec_time r) t) as [Hle|Hgt].
  - rewrite IH by done. unfold after, upto. rewrite !filter_cons.
    rewrite decide_True, decide_False by lia. rewrite last_cons.
    by destruct (last (filter _ q)).
  - destruct (after_all t (r :: q)) as [-> ->]; [by apply queue_sorted_later|]. done.
Qed.

Lemma takeInclusive_spec t q :
  queue_sorted q →
  takeInclusive t q =
    match last (upto t q) with
    | Some r => Some (r, after t q)
    | None => None
    end.
Proof.
  intros Hs. destruct q as [|r q]; [done|]. unfold takeInclusive.
  destruct (Z.ltb_spec t (rec_time r)) as [Hlt|Hge].
  - destruct (after_all t (r :: q)) as [_ ->]; [by apply queue_sorted_later|]. done.
  - pose proof Hs as [Hr Hs']%StronglySorted_cons. rewrite advance_inclusive by done.
    unfold upto, after. rewrite !filter_cons, decide_True, decide_False by lia.
    rewrite last_cons. by destruct (last (filter _ q)).
Qed.

Lemma filter_sorted (P : dataRecord → Prop) `{∀ x, Decision (P x)} q :
  queue_sorted q → queue_sorted (filter P q).
Proof.
  induction 1 as [|x q Hs IH Hx]; [constructor|]. rewrite filter_cons. case_decide; [|done].
  constructor; [done|]. rewrite Forall_forall in *. intros y [_ Hy]%list_elem_of_filter. auto.
Qed.

(** Removing from the end what is after a time is removing what is after it. *)
Lemma popAfter_spec t q : queue_sorted q → popAfter t q = upto t q.
Proof.
  unfold popAfter. intros Hs.
  induction q as [|r q IH] using rev_ind; [done|].
  apply queue_sorted_app in Hs as (Hs & _ & Hall). unfold upto in *.
  rewrite rev_app_distr, filter_app, filter_cons, filter_nil. cbn [rev app prefix_len].
  destruct (Z.ltb_spec t (rec_time r)) as [Hlt|Hge].
  - cbn [drop]. rewrite IH by done. by rewrite decide_False, app_nil_r by lia.
  - cbn [drop rev]. rewrite rev_involutive, decide_True by done. f_equal. symmetry.
    apply list_filter_all. eapply Forall_impl; [exact Hall|]. intros x Hx. cbn in Hx.
    rewrite Forall_singleton in Hx. unfold rec_le in Hx. simpl. lia.
Qed.

Section input.
  Context `{TimeRep}.
  Implicit Types (i : InputInfo) (q : list dataRecord).

(** The vectors are parallel and the queues sorted. *)
Record input_wf i : Prop := {
  wf_queues : length (data_queues i) = length (input_sources i);
  wf_data : length (current_data i) = length (input_sources i);
  wf_times : length (current_data_time i) = length (input_sources i);
  wf_deactivated : length (deactivated i) = length (input_sources i);
  wf_info : length (source_info i) = length (input_sources i);
  wf_sorted : Forall queue_sorted (data_queues i);
}.

(** What the federate sees of the source at an index. *)
Definition visible i (k : nat) : option (option string) * option (Time * Z) :=
  (current_data i !! k, current_data_time i !! k).

Lemma updateData_frame i r k :
  data_queues (updateData i r k).1 = data_queues i ∧
  input_sources (updateData i r k).1 = input_sources i ∧
  only_update_on_change (updateData i r k).1 = only_update_on_change i.
Proof. unfold updateData. by repeat case_match. Qed.

Lemma updateData_other i r k k' : k ≠ k' → visible (updateData i r k).1 k' = visible i k'.
Proof.
  intros Hne. unfold updateData, visible.
  repeat case_match; cbn; by rewrite ?list_lookup_insert_ne.
Qed.

(** What is seen of a source after an update depends on that source only. *)
Lemma updateData_local i i' r k :
  visible i k = visible i' k → only_update_on_change i = only_update_on_change i' →
  length (current_data i) = length (current_data i') →
  length (current_data_time i) = length (current_data_time i') →
  visible (updateData i r k).1 k = visible (updateData i' r k).1 k.
Proof.
  unfold visible. intros [= Hd Ht] Hu Hld Hlt. unfold updateData. rewrite <-Hd, <-Ht, <-Hu.
  assert (∀ {A} (x : A) (l l' : list A), length l = length l' →
    <[k:=x]> l !! k = <[k:=x]> l' !! k) as Hins.
  { intros A x l l' Hl. destruct (decide (k < length l)%nat).
    - rewrite !list_lookup_insert_eq by lia. done.
    - rewrite !list_insert_ge by lia. rewrite !lookup_ge_None_2 by lia. done. }
  repeat case_match; cbn; rewrite ?(Hins _ _ (current_data i) (current_data i')) by done;
    rewrite ?(Hins _ _ (current_data_time i) (current_data_time i')) by done;
    congruence.
Qed.

Lemma updateData_lengths i r k :
  length (current_data (updateData i r k).1) = length (current_data i) ∧
  length (current_data_time (updateData i r k).1) = length (current_data_time i).
Proof. unfold updateData. repeat case_match; cbn; by rewrite ?length_insert. Qed.

(** The queue after one turn of an update loop. *)
Definition rest_of (take : list dataRecord → option (dataRecord * list dataRecord)) q
    : list dataRecord :=
  match take q with Some (_, rest) => rest | None => q end.

(** The members an update never changes. *)
Definition same_config i i' : Prop :=
  input_sources i' = input_sources i ∧ deactivated i' = deactivated i ∧
  source_info i' = source_info i ∧ not_interruptible i' = not_interruptible i ∧
  only_update_on_change i' = only_update_on_change i ∧
  length (current_data i') = length (current_data i) ∧
  length (current_data_time i') = length (current_data_time i).

Lemma updateData_config i r k : same_config i (updateData i r k).1.
Proof.
  unfold same_config. pose proof (updateData_lengths i r k). unfold updateData in *.
  by repeat case_match.
Qed.

Lemma same_config_trans i1 i2 i3 : same_config i1 i2 → same_config i2 i3 → same_config i1 i3.
Proof. unfold same_config. intuition congruence. Qed.

(** Each queue is handled on its own. *)
Lemma updateLoop_spec take i index queues updated pre :
  data_queues i = pre ++ queues → length pre = index →
  let i' := (updateLoop take i index queues updated).1 in
  same_config i i' ∧
  data_queues i' = pre ++ (rest_of take <$> queues) ∧
  (∀ k, (k < index)%nat → visible i' k = visible i k) ∧
  (∀ k q, queues !! k = Some q →
     visible i' (index + k) =
       match take q with
       | Some (r, _) => visible (updateData i r (index + k)).1 (index + k)
       | None => visible i (index + k)
       end).
Proof.
  revert i index updated pre.
  induction queues as [|q queues IH]; intros i index updated pre Hq Hpre;
    cbn [updateLoop]; cbv zeta.
  { split; [done|]. split; [done|]. split; [done|]. intros k q Hk. done. }
  destruct (take q) as [[r rest]|] eqn:Htake.
  - destruct (updateData i r index) as [i1 res] eqn:Hu.
    pose proof (updateData_frame i r index) as (Fq & Fs & Fu). rewrite Hu in Fq, Fs, Fu.
    pose proof (updateData_config i r index) as Hc. rewrite Hu in Hc. cbn [fst] in *.
    set (i2 := i1 <| data_queues := <[index:=rest]> (data_queues i1) |>).
    destruct (IH i2 (S index) (res || updated) (pre ++ [rest])) as (Hc2 & Hq2 & Hlow & Hk2).
    { cbn. rewrite Fq, Hq, <-app_assoc. subst index.
      by rewrite insert_app_r_alt, Nat.sub_diag by lia. }
    { rewrite length_app. cbn. lia. }
    assert (same_config i i2) as Hci2 by exact Hc.
    split; [by eapply same_config_trans|].
    split; [rewrite Hq2, <-app_assoc; cbn; unfold rest_of at 2; by rewrite Htake|].
    assert (∀ k, k ≠ index → visible i2 k = visible i k) as Hother.
    { intros k Hne. change (visible i2 k) with (visible i1 k).
      pose proof (updateData_other i r index k (not_eq_sym Hne)) as Ho. by rewrite Hu in Ho. }
    split.
    { intros k Hk. rewrite Hlow by lia. apply Hother. lia. }
    intros k q' Hk. destruct k as [|k]; cbn in Hk.
    + simplify_eq. rewrite Nat.add_0_r, Htake, Hu. by rewrite Hlow by lia.
    + replace (index + S k)%nat with (S index + k)%nat by lia. rewrite (Hk2 k q' Hk).
      destruct (take q') as [[r' rest']|]; [|apply Hother; lia].
      destruct Hci2 as (_ & _ & _ & _ & Hon & Hld & Hlt).
      apply updateData_local; [apply Hother; lia|done..].
  - destruct (IH i (S index) updated (pre ++ [q])) as (Hc2 & Hq2 & Hlow & Hk2).
    { by rewrite Hq, <-app_assoc. }
    { rewrite length_app. cbn. lia. }
    split; [done|].
    split; [rewrite Hq2, <-app_assoc; cbn; unfold rest_of at 2; by rewrite Htake|].
    split; [intros k Hk; apply Hlow; lia|].
    intros k q' Hk. destruct k as [|k]; cbn in Hk.
    + simplify_eq. rewrite Nat.add_0_r, Htake. apply Hlow. lia.
    + replace (index + S k)%nat with (S index + k)%nat by lia. by apply Hk2.
Qed.

Lemma updateLoop_all take i :
  let i' := (updateLoop take i 0 (data_queues i) false).1 in
  same_config i i' ∧ data_queues i' = rest_of take <$> data_queues i ∧
  (∀ k q, data_queues i !! k = Some q →
     visible i' k =
       match take q with
       | Some (r, _) => visible (updateData i r k).1 k
       | None => visible i k
       end).
Proof.
  destruct (updateLoop_spec take i 0 (data_queues i) false [] eq_refl eq_refl)
    as (Hc & Hq & _ & Hk).
  split; [done|]. split; [done|]. exact Hk.
Qed.

Lemma updateData_data i r k :
  (k < length (current_data i))%nat →
  current_data (updateData i r k).1 !! k = Some (Some (rec_data r)).
Proof.
  intros Hk. unfold updateData.
  destruct (current_data i !! k) as [[data|]|] eqn:E; cbn.
  2,3: by rewrite list_lookup_insert_eq.
  destruct (negb (only_update_on_change i)); cbn; [by rewrite list_lookup_insert_eq|].
  destruct (String.eqb_spec data (rec_data r)) as [->|]; cbn;
    [|by rewrite list_lookup_insert_eq].
  by repeat case_match.
Qed.

Lemma advanceWhile_suffix test r q : ∃ pre, q = pre ++ (advanceWhile test r q).2.
Proof.
  revert r. induction q as [|x q IH]; intros r; cbn [advanceWhile]; [by exists []|].
  destruct (test x); [|by exists []]. destruct (IH x) as [pre Hpre].
  exists (x :: pre). cbn. by rewrite <-Hpre.
Qed.

(** Every update loop leaves a suffix of each queue. *)
Definition takes_prefix (take : list dataRecord → option (dataRecord * list dataRecord))
    : Prop := ∀ q r rest, take q = Some (r, rest) → ∃ pre, q = pre ++ rest.

Lemma advanceWhile_rest test r q r' rest :
  Some (advanceWhile test r q) = Some (r', rest) → ∃ pre, q = pre ++ rest.
Proof.
  intros He. destruct (advanceWhile_suffix test r q) as [pre Hpre]. exists pre.
  by destruct (advanceWhile test r q); simplify_eq.
Qed.

Lemma advanceWhile_prefix test r q r' rest first :
  Some (advanceWhile test r q) = Some (r', rest) → ∃ pre, first :: q = pre ++ rest.
Proof. intros [pre ->]%advanceWhile_rest. by exists (first :: pre). Qed.

Lemma takeUpTo_prefix t : takes_prefix (takeUpTo t).
Proof.
  intros [|first q] r rest; cbn; [done|]. case_match; [done|]. apply advanceWhile_prefix.
Qed.
Lemma takeInclusive_prefix t : takes_prefix (takeInclusive t).
Proof.
  intros [|first q] r rest; cbn; [done|]. case_match; [done|]. apply advanceWhile_prefix.
Qed.
Lemma takeNextIteration_prefix t : takes_prefix (takeNextIteration t).
Proof.
  intros q r rest. unfold takeNextIteration.
  destruct (takeUpTo t q) as [[l [|c cs]]|] eqn:E; [by intros [= <- <-]; eapply takeUpTo_prefix| |done].
  destruct (takeUpTo_prefix t q _ _ E) as [pre Hpre].
  destruct (rec_time c =? t); [|by intros [= <- <-]; eauto].
  cbv zeta. intros [pre' Hpre']%advanceWhile_rest. exists (pre ++ pre').
  by rewrite Hpre, Hpre', app_assoc.
Qed.

Lemma rest_of_sorted take q : takes_prefix take → queue_sorted q → queue_sorted (rest_of take q).
Proof.
  intros Hp Hs. unfold rest_of. destruct (take q) as [[r rest]|] eqn:E; [|done].
  destruct (Hp _ _ _ E) as [pre ->]. by apply queue_sorted_app in Hs as (_ & ? & _).
Qed.

(** Every queue is sorted, whatever the other members. *)
Definition queues_sorted i : Prop := Forall queue_sorted (data_queues i).

Lemma updateLoop_sorted take i :
  takes_prefix take → queues_sorted i →
  queues_sorted (updateLoop take i 0 (data_queues i) false).1.
Proof.
  intros Hp Hs. destruct (updateLoop_all take i) as (_ & Eq & _).
  unfold queues_sorted. rewrite Eq. apply Forall_fmap. eapply Forall_impl; [exact Hs|].
  intros q Hsq. by apply rest_of_sorted.
Qed.

Lemma updateLoop_wf take i :
  takes_prefix take → input_wf i →
  input_wf (updateLoop take i 0 (data_queues i) false).1.
Proof.
  intros Hp [Hq Hd Ht Hde Hi Hs]. pose proof (updateLoop_sorted take i Hp Hs) as Hs'.
  destruct (updateLoop_all take i) as ((Cs & Cd & Ci & _ & _ & Ld & Lt) & Eq & _).
  unfold queues_sorted in Hs'.
  split; [..|exact Hs']; by rewrite ?Eq, ?length_fmap, ?Cs, ?Cd, ?Ci, ?Ld, ?Lt.
Qed.

(** ** Operations and reachable inputs *)

Inductive in_op :=
  | InAddSource (h : global_handle) (name type units : string)
  | InAddData (h : global_handle) (t : Time) (iteration : Z) (data : string)
  | InRemoveSource (h : global_handle) (minTime : Time)
  | InRemoveByName (name : string) (minTime : Time)
  | InClear
  | InUpTo (t : Time)
  | InNextIteration (t : Time)
  | InInclusive (t : Time).

Definition in_run i (op : in_op) : InputInfo :=
  match op with
  | InAddSource h name type units => addSource i h name type units
  | InAddData h t iteration data => addData i h t iteration data
  | InRemoveSource h t => removeSource i h t
  | InRemoveByName name t => removeSourceByName i name t
  | InClear => clearFutureData i
  | InUpTo t => (updateTimeUpTo i t).1
  | InNextIteration t => (updateTimeNextIteration i t).1
  | InInclusive t => (updateTimeInclusive i t).1
  end.

Lemma vec_resize_snoc {A} (x : A) l n : length l = n → vec_resize (n + 1) x l = l ++ [x].
Proof.
  intros <-. unfold vec_resize. rewrite take_ge by lia.
  by replace (length l + 1 - length l)%nat with 1%nat by lia.
Qed.

Lemma addSource_sorted i h name type units :
  queues_sorted i → queues_sorted (addSource i h name type units).
Proof.
  intros Hs. unfold queues_sorted, vec_resize. cbn. apply Forall_app. split.
  - by apply Forall_take.
  - apply Forall_replicate. constructor.
Qed.

Lemma addData_sorted i h t iteration data :
  queues_sorted i → queues_sorted (addData i h t iteration data).
Proof.
  intros Hs. unfold addData. destruct (findSource _ _) as [k|]; [|done].
  destruct (deactivated i !! k); [|done]. destruct (_ <? _); [done|].
  unfold queues_sorted. cbn. apply Forall_alter; [done|]. intros q _ Hsq.
  by apply enqueue_sorted.
Qed.

Lemma removeSelected_sorted i sel t :
  queues_sorted i → queues_sorted (removeSelected i sel t).
Proof.
  intros Hs. unfold queues_sorted. cbn.
  apply Forall_lookup. intros k q. rewrite list_lookup_imap.
  destruct (data_queues i !! k) as [q0|] eqn:E; cbn; [|done]. intros [= <-].
  pose proof (Forall_lookup_1 _ _ _ _ Hs E) as Hsq. destruct (sel k); [|done].
  rewrite popAfter_spec by done. by apply filter_sorted.
Qed.

Lemma clearFutureData_sorted i : queues_sorted (clearFutureData i).
Proof. apply Forall_fmap, Forall_true. intros. constructor. Qed.

Lemma addSource_wf i h name type units : input_wf i → input_wf (addSource i h name type units).
Proof.
  intros [Hq Hd Ht Hde Hi Hs]. split; [..|by apply addSource_sorted]; unfold addSource;
    rewrite length_app; cbn [length]; rewrite !vec_resize_snoc by done;
    cbn; rewrite ?length_app; cbn; lia.
Qed.

Lemma addData_wf i h t iteration data : input_wf i → input_wf (addData i h t iteration data).
Proof.
  intros [Hq Hd Ht Hde Hi Hs]. split; [..|by apply addData_sorted]; unfold addData;
    (destruct (findSource _ _) as [k|]; [|done]); (destruct (deactivated i !! k); [|done]);
    (destruct (_ <? _); [done|]); cbn; by rewrite ?length_alter.
Qed.

Lemma removeSelected_wf i sel t : input_wf i → input_wf (removeSelected i sel t).
Proof.
  intros [Hq Hd Ht Hde Hi Hs]. split; [..|by apply removeSelected_sorted]; cbn;
    by rewrite ?length_imap.
Qed.

Lemma in_run_wf i op : input_wf i → input_wf (in_run i op).
Proof.
  intros Hwf. destruct op; cbn [in_run];
    auto using addSource_wf, addData_wf, removeSelected_wf, updateLoop_wf, takeUpTo_prefix,
      takeInclusive_prefix, takeNextIteration_prefix.
  - by apply removeSelected_wf.
  - by apply removeSelected_wf.
  - destruct Hwf as [Hq Hd Ht Hde Hi Hs]. split; [..|apply clearFutureData_sorted]; cbn;
      by rewrite ?length_fmap.
  - apply updateLoop_wf; [apply takeUpTo_prefix|done].
  - apply updateLoop_wf; [apply takeNextIteration_prefix|done].
  - apply updateLoop_wf; [apply takeInclusive_prefix|done].
Qed.

Lemma foldl_front_gt t queues acc :
  t < acc → Forall (Forall (λ r, t < rec_time r)) queues →
  t < foldl (λ nvtime q,
      match q with
      | [] => nvtime
      | front :: _ => if rec_time front <? nvtime then rec_time front else nvtime
      end) acc queues.
Proof.
  intros Hacc Hq. revert acc Hacc.
  induction Hq as [|q queues Hq _ IH]; intros acc Hacc; cbn [foldl]; [done|].
  apply IH. destruct q as [|r q]; [done|]. apply Forall_cons in Hq as [Hr _].
  by case_match.
Qed.

Lemma findSource_spec sources h k :
  findSource sources h = Some k → ∃ h', sources !! k = Some h' ∧ handle_eqb h' h = true.
Proof.
  revert k. induction sources as [|x sources IH]; intros k; cbn [findSource]; [done|].
  destruct (handle_eqb x h) eqn:E; [by intros [= <-]; exists x|].
  destruct (findSource sources h) as [k'|]; cbn; [|done]. intros [= <-]. by apply IH.
Qed.

(** What the update loops leave in a queue. *)
Lemma last_upto_none t q : last (upto t q) = None → Forall (λ r, t < rec_time r) q.
Proof.
  intros El%last_None. apply Forall_forall. intros x Hx.
  destruct (Z.lt_ge_cases t (rec_time x)); [done|].
  assert (x ∈ upto t q) as Hin by by apply list_elem_of_filter.
  rewrite El in Hin. by apply elem_of_nil in Hin.
Qed.

Lemma inclusive_rest t q :
  queue_sorted q → Forall (λ r, t < rec_time r) (rest_of (takeInclusive t) q).
Proof.
  intros Hsq. unfold rest_of. rewrite takeInclusive_spec by done.
  destruct (last (upto t q)) as [r|] eqn:El; [|by apply last_upto_none].
  apply Forall_forall. by intros x [Hx _]%list_elem_of_filter.
Qed.

Lemma upTo_rest t q :
  queue_sorted q → Forall (λ r, t ≤ rec_time r) (rest_of (takeUpTo t) q).
Proof.
  intros Hsq. unfold rest_of, takeUpTo. destruct q as [|x q]; [constructor|].
  apply StronglySorted_cons in Hsq as [Hx Hsq]. destruct (Z.ltb_spec t (rec_time x)).
  - constructor; [lia|]. eapply Forall_impl; [exact Hx|]. unfold rec_le. intros y. lia.
  - clear Hx. revert x H0. induction Hsq as [|y q Hsq IH Hy]; intros x Hx; cbn; [constructor|].
    destruct (Z.ltb_spec (rec_time y) t); [apply IH; lia|]. constructor; [done|].
    eapply Forall_impl; [exact Hy|]. unfold rec_le. intros z. lia.
Qed.

(** ** Properties *)


(** [updateTimeInclusive] to a time leaves in each queue exactly the values after
    that time, makes the last value not after it the visible data of the source
    (nothing changes when there is none), and the next value time is then later. *)
Theorem updateTimeInclusive_spec i t :
  input_wf i →
  let i' := (updateTimeInclusive i t).1 in
  (∀ k q, data_queues i !! k = Some q →
     data_queues i' !! k = Some (after t q) ∧
     match last (upto t q) with
     | Some r => current_data i' !! k = Some (Some (rec_data r))
     | None => visible i' k = visible i k
     end) ∧
  (t < Time_maxVal → t < nextValueTime i').
Proof.
  intros Hwf. destruct Hwf as [Hq Hd Ht Hde Hi Hs]. cbv zeta.
  destruct (updateLoop_all (takeInclusive t) i) as (_ & Eq & Ev).
  fold (updateTimeInclusive i t) in Eq, Ev.
  set (i' := (updateTimeInclusive i t).1) in *. split.
  - intros k q Hk. pose proof (Forall_lookup_1 _ _ _ _ Hs Hk) as Hsq.
    specialize (Ev k q Hk). rewrite Eq, list_lookup_fmap, Hk. cbn. unfold rest_of.
    rewrite takeInclusive_spec in * by done. destruct (last (upto t q)) as [r|] eqn:El.
    + split; [done|]. apply lookup_lt_Some in Hk. injection Ev as -> _.
      apply updateData_data. lia.
    + split; [|done]. f_equal. symmetry. by apply list_filter_all, last_upto_none.
  - intros Hmax. unfold nextValueTime. destruct (not_interruptible i'); [done|].
    apply foldl_front_gt; [done|]. rewrite Eq. apply Forall_fmap.
    eapply Forall_impl; [exact Hs|]. intros q Hsq. by apply inclusive_rest.
Qed.

(** After [removeSource] at a time, the queues of that source hold nothing later
    than it, and values that arrive later for that time are ignored. *)
Theorem removed_source_silent i h minTime t iteration data :
  input_wf i → minTime < t →
  addData (removeSource i h minTime) h t iteration data = removeSource i h minTime ∧
  (∀ k q h', input_sources i !! k = Some h' → handle_eqb h' h = true →
     data_queues i !! k = Some q →
     data_queues (removeSource i h minTime) !! k = Some (upto minTime q)).
Proof.
  intros [Hq Hd Ht Hde Hi Hs] Hlt. split.
  - unfold addData. change (input_sources (removeSource i h minTime)) with (input_sources i).
    destruct (findSource (input_sources i) h) as [k|] eqn:E; [|done].
    apply findSource_spec in E as (h' & Hk & He). cbn. rewrite list_lookup_imap.
    destruct (deactivated i !! k) as [lim|]; cbn; [|done]. rewrite Hk, He.
    destruct (Z.ltb_spec minTime lim); rewrite (proj2 (Z.ltb_lt _ _)) by lia; done.
  - intros k q h' Hk He Hkq. cbn. rewrite list_lookup_imap, Hkq. cbn. rewrite Hk, He.
    f_equal. apply popAfter_spec. by eapply Forall_lookup_1.
Qed.

(** [updateTimeUpTo], which is documented not to include data at the given time,
    does make a value of exactly that time visible when it is the first of its queue. *)
Lemma updateTimeUpTo_takes_current i k r q :
  input_wf i → data_queues i !! k = Some (r :: q) →
  let i' := (updateTimeUpTo i (rec_time r)).1 in
  current_data i' !! k = Some (Some (rec_data r)) ∧ data_queues i' !! k = Some q.
Proof.
  intros [Hq Hd Ht Hde Hi Hs] Hk. cbv zeta.
  pose proof (Forall_lookup_1 _ _ _ _ Hs Hk) as [Hr Hsq]%StronglySorted_cons.
  destruct (updateLoop_all (takeUpTo (rec_time r)) i) as (_ & Eq & Ev).
  fold (updateTimeUpTo i (rec_time r)) in Eq, Ev. specialize (Ev k _ Hk).
  assert (takeUpTo (rec_time r) (r :: q) = Some (r, q)) as Et.
  { cbn. rewrite Z.ltb_irrefl. destruct q as [|x q]; [done|]. cbn.
    apply Forall_cons in Hr as [Hx _]. unfold rec_le in Hx.
    by rewrite (proj2 (Z.ltb_ge _ _)) by lia. }
  rewrite Et in Ev. split.
  - injection Ev as -> _. apply updateData_data. apply lookup_lt_Some in Hk. lia.
  - rewrite Eq, list_lookup_fmap, Hk. cbn. unfold rest_of. by rewrite Et.
Qed.

(** [updateTimeNextIteration] compares the iteration of the values at the new time
    with that of the last value before it: when they differ, none of the values at the
    new time becomes visible, although it is documented to go through the first
    iteration there. *)
Lemma updateTimeNextIteration_skips i k r r' q t :
  input_wf i → data_queues i !! k = Some (r :: r' :: q) →
  rec_time r < t → rec_time r' = t → rec_iteration r' ≠ rec_iteration r →
  let i' := (updateTimeNextIteration i t).1 in
  current_data i' !! k = Some (Some (rec_data r)) ∧ data_queues i' !! k = Some (r' :: q).
Proof.
  intros [Hq Hd Ht Hde Hi Hs] Hk Hlt Heq Hne. cbv zeta.
  destruct (updateLoop_all (takeNextIteration t) i) as (_ & Eq & Ev).
  fold (updateTimeNextIteration i t) in Eq, Ev. specialize (Ev k _ Hk).
  assert (takeNextIteration t (r :: r' :: q) = Some (r, r' :: q)) as Et.
  { unfold takeNextIteration. cbn [takeUpTo]. rewrite (proj2 (Z.ltb_ge _ _)) by lia.
    cbn [advanceWhile]. rewrite Heq, Z.ltb_irrefl. cbv iota beta.
    rewrite Heq, Z.eqb_refl. cbv zeta. cbn [advanceWhile].
    by rewrite ?Heq, ?Z.eqb_refl, (proj2 (Z.eqb_neq _ _)). }
  rewrite Et in Ev. split.
  - injection Ev as -> _. apply updateData_data. apply lookup_lt_Some in Hk. lia.
  - rewrite Eq, list_lookup_fmap, Hk. cbn. unfold rest_of. by rewrite Et.
Qed.

End input.

Lemma after_sorted t q : queue_sorted q → queue_sorted (after t q).
Proof. apply filter_sorted. Qed.

(** ** Instances *)

(** An input with one source and the given queue. *)
Definition sample_input (q : list dataRecord) : InputInfo :=
  foldl (λ i r, addData i (GlobalHandle 7 3) (rec_time r) (rec_iteration r) (rec_data r))
    (addSource (newInputInfo (GlobalHandle 9 1) "in"%string ""%string ""%string) (GlobalHandle 7 3)
       ""%string ""%string ""%string) q.
Lemma sample_input_wf q : input_wf (sample_input q).
Proof.
  unfold sample_input. generalize (addSource_wf
    (newInputInfo (GlobalHandle 9 1) "in"%string ""%string ""%string) (GlobalHandle 7 3)
    ""%string ""%string ""%string ltac:(by split)).
  generalize (addSource (newInputInfo (GlobalHandle 9 1) "in"%string ""%string ""%string)
    (GlobalHandle 7 3) ""%string ""%string ""%string).
  induction q as [|r q IH]; intros i Hi; [done|]. by apply IH, addData_wf.
Qed.

Definition sample_queue : list dataRecord :=
  [mkDataRecord 5 0 "a"; mkDataRecord 8 1 "b"; mkDataRecord 8 1 "c"; mkDataRecord 20 0 "d"].

Lemma updateTimeInclusive_spec_witness :
  input_wf (sample_input sample_queue) ∧
  data_queues (updateTimeInclusive (sample_input sample_queue) 8).1 =
    [[mkDataRecord 20 0 "d"]] ∧
  current_data (updateTimeInclusive (sample_input sample_queue) 8).1 !! 0%nat =
    Some (Some "c"%string) ∧
  8 < nextValueTime (updateTimeInclusive (sample_input sample_queue) 8).1.
Proof.
  split; [apply sample_input_wf|]. split; [reflexivity|].
  destruct (updateTimeInclusive_spec (sample_input sample_queue) 8 (sample_input_wf _))
    as [Hq Ht].
  split; [exact (proj2 (Hq 0%nat sample_queue eq_refl))|]. by apply Ht.
Defined.

Lemma removed_source_silent_witness :
  let i := removeSource (sample_input sample_queue) (GlobalHandle 7 3) 10 in
  addData i (GlobalHandle 7 3) 12 0 "late" = i ∧
  data_queues i !! 0%nat = Some (take 3 sample_queue).
Proof.
  destruct (removed_source_silent (sample_input sample_queue) (GlobalHandle 7 3) 10 12 0
    "late" (sample_input_wf _) ltac:(lia)) as [Ha Hq].
  split; [exact Ha|].
  exact (Hq 0%nat sample_queue (GlobalHandle 7 3) eq_refl eq_refl eq_refl).
Defined.

