(* ===== verification/Interfaces.v ===== *)
(** * Publications, endpoints and filters of a federate

    Translation of PublicationInfo.hpp/.cpp, EndpointInfo.hpp/.cpp, FilterInfo.hpp/.cpp
    and FilterCoordinator.hpp/.cpp of src/src/helics/core.  The filters a coordinator
    points to are shared with other coordinators: they live in a store indexed by
    pointers.  The properties are the order in which an endpoint delivers its messages
    and the effect of closing a filter. *)

From stdpp Require Import strings.
From S2P Require Import Prelude HelicsTime Ids Flags ActionMessage.

(** ** Publications *)

(** [class PublicationInfo] *)
Record PublicationInfo := mkPublicationInfo {
  pub_id : global_handle;
  subscribers : list global_handle;
  pub_key : string;
  pub_type : string;
  pub_units : string;
  pub_data : string;
  has_update : bool;
  pub_only_update_on_change : bool;
  pub_required : bool;
  buffer_data : bool;
  required_connections : Z;
}.

#[export] Instance eta_PublicationInfo : Eta PublicationInfo := λ p,
  mkPublicationInfo (pub_id p) (subscribers p) (pub_key p) (pub_type p) (pub_units p)
    (pub_data p) (has_update p) (pub_only_update_on_change p) (pub_required p)
    (buffer_data p) (required_connections p).

Definition newPublicationInfo (pid : global_handle) (pkey ptype punits : string)
    : PublicationInfo := {|
  pub_id := pid; subscribers := []; pub_key := pkey; pub_type := ptype;
  pub_units := punits; pub_data := ""; has_update := false;
  pub_only_update_on_change := false; pub_required := false; buffer_data := false;
  required_connections := 0;
|}.

Definition CheckSetValue (p : PublicationInfo) (dataToCheck : string)
    : PublicationInfo * bool :=
  if negb (String.length dataToCheck =? String.length (pub_data p))%nat
     || negb (String.eqb (pub_data p) dataToCheck)
  then (p <| pub_data := dataToCheck |>, true)
  else (p, false).

(** [std::remove] followed by [erase] of the tail. *)
Definition remove_handle (h : global_handle) (l : list global_handle) : list global_handle :=
  base.filter (λ x, handle_eqb x h = false) l.

Definition removeSubscriber (p : PublicationInfo) (subscriberToRemove : global_handle)
    : PublicationInfo :=
  p <| subscribers := remove_handle subscriberToRemove (subscribers p) |>.

(** ** Endpoints *)

(** [class EndpointInfo]; the messages are owned by the queue. *)
Record EndpointInfo := mkEndpointInfo {
  ept_id : global_handle;
  ept_key : string;
  ept_type : string;
  message_queue : list Message;
  hasFilter : bool;
}.

#[export] Instance eta_EndpointInfo : Eta EndpointInfo := λ e,
  mkEndpointInfo (ept_id e) (ept_key e) (ept_type e) (message_queue e) (hasFilter e).

Definition newEndpointInfo (handle : global_handle) (key_ type_ : string) : EndpointInfo :=
  {| ept_id := handle; ept_key := key_; ept_type := type_; message_queue := [];
     hasFilter := false |}.

(** [std::stable_sort]: the sorted sequence in which elements that the comparison does
    not separate keep their order. *)
Fixpoint sort_insert {A} (less : A → A → bool) (x : A) (l : list A) : list A :=
  match l with
  | [] => [x]
  | y :: l' => if less y x then y :: sort_insert less x l' else x :: l
  end.
Definition stable_sort {A} (less : A → A → bool) (l : list A) : list A :=
  foldr (sort_insert less) [] l.

(** [msgSorter]: by time, then by original source. *)
Definition msgSorter (m1 m2 : Message) : bool :=
  if negb (msg_time m1 =? msg_time m2) then msg_time m1 <? msg_time m2
  else String.ltb (msg_original_source m1) (msg_original_source m2).

Section endpoint.
  Context `{TimeRep}.
  Implicit Types (e : EndpointInfo).

Definition getMessage e (maxTime : Time) : EndpointInfo * option Message :=
  match message_queue e with
  | [] => (e, None)
  | front :: rest =>
      if msg_time front <=? maxTime then (e <| message_queue := rest |>, Some front)
      else (e, None)
  end.

Definition firstMessageTime e : Time :=
  match message_queue e with
  | [] => Time_maxVal
  | front :: _ => msg_time front
  end.

Definition addMessage e (message : Message) : EndpointInfo :=
  e <| message_queue := stable_sort msgSorter (message_queue e ++ [message]) |>.

Definition clearQueue e : EndpointInfo := e <| message_queue := [] |>.

Fixpoint countUpTo (maxTime : Time) (q : list Message) (cnt : Z) : Z :=
  match q with
  | [] => cnt
  | msg :: q' => if msg_time msg <=? maxTime then countUpTo maxTime q' (cnt + 1) else cnt
  end.
(** The count is an [int32_t], a queue holds fewer messages than its maximum. *)
Definition queueSize e (maxTime : Time) : Z := countUpTo maxTime (message_queue e) 0.

End endpoint.

(** ** Filters *)

(** [class FilterInfo]; the operator of a filter is user code, known by its number. *)
Record FilterInfo := mkFilterInfo {
  filt_core_id : Z;
  filt_handle : interface_handle;
  filt_key : string;
  filt_inputType : string;
  filt_outputType : string;
  dest_filter : bool;
  cloning : bool;
  filt_flags : Z;
  filterOp : option nat;
  sourceTargets : list global_handle;
  destTargets : list global_handle;
}.

#[export] Instance eta_FilterInfo : Eta FilterInfo := λ f,
  mkFilterInfo (filt_core_id f) (filt_handle f) (filt_key f) (filt_inputType f)
    (filt_outputType f) (dest_filter f) (cloning f) (filt_flags f) (filterOp f)
    (sourceTargets f) (destTargets f).

#[export] Instance FilterInfo_flags : FlagContainer FilterInfo := {|
  flags_of := filt_flags;
  with_flags f v := f <| filt_flags := v |>;
|}.
#[export] Instance FilterInfo_flags_laws : FlagContainerLaws FilterInfo.
Proof. by split. Qed.

Definition newFilterInfo (core_id_ : Z) (handle_ : interface_handle)
    (key_ type_in_ type_out_ : string) (destFilter_ : bool) : FilterInfo := {|
  filt_core_id := core_id_; filt_handle := handle_; filt_key := key_;
  filt_inputType := type_in_; filt_outputType := type_out_; dest_filter := destFilter_;
  cloning := false; filt_flags := 0; filterOp := None; sourceTargets := []; destTargets := [];
|}.

Definition removeTarget (f : FilterInfo) (targetToRemove : global_handle) : FilterInfo :=
  f <| sourceTargets := remove_handle targetToRemove (sourceTargets f) |>
    <| destTargets := remove_handle targetToRemove (destTargets f) |>.

(** [class FilterCoordinator]: pointers are keys of the store of filters. *)
Record FilterCoordinator := mkFilterCoordinator {
  sourceFilters : list positive;
  destFilter : option positive;
  allSourceFilters : list positive;
  cloningDestFilters : list positive;
  hasSourceFilters : bool;
  hasDestFilters : bool;
  ongoingSourceTransactions : Z;
  ongoingDestTransactions : Z;
}.
#[export] Instance eta_FilterCoordinator : Eta FilterCoordinator := λ c,
  mkFilterCoordinator (sourceFilters c) (destFilter c) (allSourceFilters c)
    (cloningDestFilters c) (hasSourceFilters c) (hasDestFilters c)
    (ongoingSourceTransactions c) (ongoingDestTransactions c).

Abbreviation filter_store := (gmap positive FilterInfo).

(** Close the filter behind one pointer if it is [filt]. *)
Definition is_filter (filt : global_handle) (f : FilterInfo) : bool :=
  (filt_core_id f =? fed_id filt) && (filt_handle f =? handle filt).
Definition closed (filt : global_handle) (f : FilterInfo) : FilterInfo :=
  if is_filter filt f then setActionFlag f disconnected_flag else f.
Definition closeIf (filt : global_handle) (store : filter_store) (p : positive)
    : filter_store := alter (closed filt) p store.

Definition closeFilter (c : FilterCoordinator) (store : filter_store) (filt : global_handle)
    : filter_store :=
  let store1 := match destFilter c with Some p => closeIf filt store p | None => store end in
  let store2 := foldl (closeIf filt) store1 (allSourceFilters c) in
  foldl (closeIf filt) store2 (cloningDestFilters c).

(** ** The order of the messages *)

Definition msg_le (m1 m2 : Message) : Prop := msgSorter m2 m1 = false.
#[export] Instance msg_le_dec m1 m2 : Decision (msg_le m1 m2).
Proof. unfold msg_le. apply _. Defined.

Lemma string_ltb_leb s1 s2 : String.ltb s1 s2 = negb (String.leb s2 s1).
Proof.
  unfold String.ltb, String.leb. rewrite (String.compare_antisym s2 s1).
  by destruct (String.compare s1 s2).
Qed.

Lemma msg_le_iff m1 m2 :
  msg_le m1 m2 ↔
  msg_time m1 < msg_time m2 ∨
  msg_time m1 = msg_time m2 ∧ String.le (msg_original_source m1) (msg_original_source m2).
Proof.
  unfold msg_le, msgSorter, String.le. rewrite string_ltb_leb.
  destruct (Z.eqb_spec (msg_time m2) (msg_time m1)) as [E|E]; cbn [negb].
  - rewrite negb_false_iff. intuition (try lia).
    + right. split; [lia|]. by apply Is_true_true.
    + by apply Is_true_true.
  - rewrite Z.ltb_ge. lia.
Qed.

#[export] Instance msg_le_trans : Transitive msg_le.
Proof.
  intros x y z. rewrite !msg_le_iff. intuition (try lia).
  right. split; [lia|]. by etrans.
Qed.

Lemma msg_le_total m1 m2 : msg_le m1 m2 ∨ msg_le m2 m1.
Proof.
  rewrite !msg_le_iff.
  destruct (total String.le (msg_original_source m1) (msg_original_source m2));
    destruct (Z.lt_total (msg_time m1) (msg_time m2)) as [|[|]]; auto.
Qed.

Definition msgs_sorted (q : list Message) : Prop := StronglySorted msg_le q.

(** Where a new message goes: after all that are not later. *)
Definition after_all_le (m : Message) (q : list Message) : list Message :=
  base.filter (λ x, msg_le x m) q ++ m :: base.filter (λ x, ¬ msg_le x m) q.

Lemma sort_insert_first x l :
  Forall (msg_le x) l → sort_insert msgSorter x l = x :: l.
Proof. destruct 1 as [|y l Hy]; [done|]. cbn. unfold msg_le in Hy. by rewrite Hy. Qed.

Lemma add_sorted q m :
  msgs_sorted q → stable_sort msgSorter (q ++ [m]) = after_all_le m q.
Proof.
  unfold stable_sort. rewrite foldr_app. cbn [foldr sort_insert].
  unfold after_all_le. induction 1 as [|x q Hs IH Hx]; [done|].
  cbn [foldr]. rewrite IH, !filter_cons. destruct (decide (msg_le x m)) as [Hle|Hlt].
  - rewrite decide_False by auto. apply sort_insert_first.
    apply Forall_app. split; [by apply Forall_list_filter|].
    by constructor; [|apply Forall_list_filter].
  - rewrite decide_True by done.
    assert (Forall (λ y, ¬ msg_le y m) q) as Hq.
    { eapply Forall_impl; [exact Hx|]. intros y Hy Hym. apply Hlt. by etrans. }
    rewrite (list_filter_none _ q), (list_filter_all _ q) by done.
    cbn [app sort_insert]. unfold msg_le in Hlt. apply not_false_is_true in Hlt.
    rewrite Hlt. by rewrite sort_insert_first.
Qed.

Lemma after_all_le_sorted m q : msgs_sorted q → msgs_sorted (after_all_le m q).
Proof.
  unfold after_all_le. induction 1 as [|x q Hs IH Hx]; [by repeat constructor|].
  rewrite !filter_cons. destruct (decide (msg_le x m)) as [Hle|Hlt].
  - rewrite decide_False by auto. cbn [app]. constructor; [done|].
    apply Forall_app. split; [by apply Forall_list_filter|].
    by constructor; [|apply Forall_list_filter].
  - rewrite decide_True by done.
    assert (Forall (λ y, ¬ msg_le y m) q) as Hq.
    { eapply Forall_impl; [exact Hx|]. intros y Hy Hym. apply Hlt. by etrans. }
    rewrite (list_filter_none _ q), (list_filter_all _ q) by done. cbn [app].
    destruct (msg_le_total m x) as [Hmx|]; [|done].
    repeat constructor; [done|done|done|]. eapply Forall_impl; [exact Hx|].
    intros y. by apply msg_le_trans.
Qed.

Lemma msg_le_time m1 m2 : msg_le m1 m2 → msg_time m1 ≤ msg_time m2.
Proof. rewrite msg_le_iff. lia. Qed.

Lemma countUpTo_sorted t q cnt :
  msgs_sorted q →
  countUpTo t q cnt = cnt + Z.of_nat (length (base.filter (λ x, msg_time x ≤ t) q)).
Proof.
  intros Hs. revert cnt. induction Hs as [|x q Hs IH Hx]; intros cnt; cbn [countUpTo]; [cbn; lia|].
  rewrite filter_cons. destruct (Z.leb_spec (msg_time x) t).
  - rewrite decide_True, IH by done. cbn [length]. lia.
  - rewrite decide_False by lia. rewrite list_filter_none; [cbn; lia|].
    eapply Forall_impl; [exact Hx|]. intros y Hy%msg_le_time. lia.
Qed.

(** The operations on an endpoint. *)
Inductive ept_op :=
  | OpAddMessage (m : Message)
  | OpGetMessage (maxTime : Z)
  | OpClearQueue.

Section delivery.
  Context `{TimeRep}.

Definition ept_run (e : EndpointInfo) (op : ept_op) : EndpointInfo :=
  match op with
  | OpAddMessage m => addMessage e m
  | OpGetMessage maxTime => (getMessage e maxTime).1
  | OpClearQueue => clearQueue e
  end.

Lemma ept_run_sorted e op :
  msgs_sorted (message_queue e) → msgs_sorted (message_queue (ept_run e op)).
Proof.
  intros Hs. destruct op as [m|t|]; cbn [ept_run].
  - unfold addMessage. cbn [message_queue upd]. rewrite add_sorted by done.
    by apply after_all_le_sorted.
  - unfold getMessage. destruct (message_queue e) as [|x q] eqn:E; cbn; [by rewrite E|].
    destruct (_ <=? _); cbn; [|by rewrite E]. by apply StronglySorted_cons in Hs as [_ ?].
  - constructor.
Qed.

(** C39. After any sequence of operations an endpoint delivers in order: its queue is
    sorted by time and then original source, a new message goes after every message that
    is not later (so that messages of the same time and source stay in order of
    arrival), [queueSize] is the number of messages up to the time, and [getMessage]
    returns the first of them, or nothing only when there is none. *)
Theorem endpoint_delivery id key type ops :
  let e := foldl ept_run (newEndpointInfo id key type) ops in
  msgs_sorted (message_queue e) ∧
  (∀ m, message_queue (addMessage e m) = after_all_le m (message_queue e)) ∧
  (∀ t, queueSize e t =
        Z.of_nat (length (base.filter (λ x, msg_time x ≤ t) (message_queue e)))) ∧
  (∀ t, match getMessage e t with
        | (e', Some m) => message_queue e = m :: message_queue e' ∧ msg_time m ≤ t ∧
                          Forall (msg_le m) (message_queue e')
        | (e', None) => e' = e ∧ Forall (λ x, t < msg_time x) (message_queue e)
        end).
Proof.
  cbv zeta. assert (msgs_sorted (message_queue (newEndpointInfo id key type))) as Hs
    by constructor.
  revert Hs. generalize (newEndpointInfo id key type).
  induction ops as [|op ops IH]; intros e Hs; cbn [foldl]; [|by apply IH, ept_run_sorted].
  split; [done|]. split; [intros m; by apply add_sorted|].
  split; [intros t; by apply countUpTo_sorted|]. intros t. unfold getMessage.
  destruct (message_queue e) as [|x q] eqn:E; [done|].
  apply StronglySorted_cons in Hs as [Hx Hs].
  destruct (Z.leb_spec (msg_time x) t); cbn; [done|]. split; [done|].
  constructor; [done|]. eapply Forall_impl; [exact Hx|]. intros y Hy%msg_le_time. lia.
Qed.

End delivery.

(** ** Closing a filter *)

Lemma closed_idem filt f : closed filt (closed filt f) = closed filt f.
Proof.
  unfold closed. destruct (is_filter filt f) eqn:E; [|by rewrite E].
  change (is_filter filt (setActionFlag f disconnected_flag)) with (is_filter filt f).
  rewrite E. unfold setActionFlag. cbn. by rewrite <-Z.lor_assoc, Z.lor_diag.
Qed.

Lemma closeIf_all filt store l p :
  foldl (closeIf filt) store l !! p =
  (if bool_decide (p ∈ l) then closed filt else id) <$> store !! p.
Proof.
  revert store. induction l as [|x l IH]; intros store; cbn [foldl].
  { rewrite bool_decide_false by (by intros ?%elem_of_nil). by rewrite option_fmap_id. }
  rewrite IH. unfold closeIf. destruct (decide (x = p)) as [->|Hne].
  - rewrite lookup_alter_eq, (bool_decide_true (p ∈ p :: l)) by set_solver.
    rewrite <-option_fmap_compose. destruct (store !! p) as [f|]; [|done]. cbn. f_equal.
    case_bool_decide; [by rewrite closed_idem|done].
  - rewrite lookup_alter_ne by done.
    by rewrite (bool_decide_ext (p ∈ x :: l) (p ∈ l)) by set_solver.
Qed.

(** Closing marks exactly the filters of the given handle that the coordinator points
    to, and leaves every other filter of the store as it is. *)
Lemma closeFilter_spec c store filt p :
  closeFilter c store filt !! p =
  (if bool_decide (p ∈ option_list (destFilter c) ++ allSourceFilters c ++ cloningDestFilters c)
   then closed filt else id) <$> store !! p.
Proof.
  unfold closeFilter. rewrite <-closeIf_all, !foldl_app. by destruct (destFilter c).
Qed.
