(* ===== verification/UnknownHandles.v ===== *)
(** * Interfaces that are not yet known (src/src/helics/core/UnknownHandleManager.hpp/.cpp)

    A core and a broker remember the targets that name an interface nobody has
    registered yet.  Each kind has a multimap from names; the order of equal keys in a
    [std::unordered_multimap], and the order of an iteration, are unspecified, so the
    properties speak of the reported targets up to permutation. *)

From stdpp Require Import strings.
From Stdlib Require Import Ascii.
From S2P Require Import Prelude Ids Flags.

(** A multimap as the list of its entries. *)
Abbreviation multimap V := (list (string * V)) (only parsing).

Definition mm_emplace {V} (key : string) (v : V) (m : multimap V) : multimap V :=
  (key, v) :: m.
Definition mm_erase {V} (key : string) (m : multimap V) : multimap V :=
  base.filter (λ e, e.1 ≠ key) m.
(** The two overloads of [getTargets]. *)
Definition getTargets {V} (m : multimap V) (target : string) : list V :=
  (base.filter (λ e, e.1 = target) m).*2.
Definition mm_empty {V} (m : multimap V) : bool :=
  match m with [] => true | _ => false end.

(** [targetInfo]: a handle and the flags of the request. *)
Abbreviation targetInfo := (global_handle * Z)%type.

(** [class UnknownHandleManager] *)
Record UnknownHandleManager := mkUnknownHandleManager {
  unknown_publications : multimap targetInfo;
  unknown_endpoints : multimap targetInfo;
  unknown_inputs : multimap targetInfo;
  unknown_filters : multimap targetInfo;
  unknown_links : multimap string;
  unknown_src_filters : multimap string;
  unknown_dest_filters : multimap string;
}.

#[export] Instance eta_UnknownHandleManager : Eta UnknownHandleManager := λ u,
  mkUnknownHandleManager (unknown_publications u) (unknown_endpoints u) (unknown_inputs u)
    (unknown_filters u) (unknown_links u) (unknown_src_filters u) (unknown_dest_filters u).

Definition newUnknownHandleManager : UnknownHandleManager :=
  mkUnknownHandleManager [] [] [] [] [] [] [].

Section operations.
  Implicit Types (u : UnknownHandleManager) (key : string).

Definition addUnknownPublication u key (target : global_handle) (flags : Z) :=
  u <| unknown_publications := mm_emplace key (target, flags) (unknown_publications u) |>.
Definition addUnknownInput u key (target : global_handle) (flags : Z) :=
  u <| unknown_inputs := mm_emplace key (target, flags) (unknown_inputs u) |>.
Definition addUnknownEndpoint u key (target : global_handle) (flags : Z) :=
  u <| unknown_endpoints := mm_emplace key (target, flags) (unknown_endpoints u) |>.
Definition addUnknownFilter u key (target : global_handle) (flags : Z) :=
  u <| unknown_filters := mm_emplace key (target, flags) (unknown_filters u) |>.
Definition addDataLink u (source target : string) :=
  u <| unknown_links := mm_emplace source target (unknown_links u) |>.
Definition addSourceFilterLink u (filter endpoint : string) :=
  u <| unknown_src_filters := mm_emplace filter endpoint (unknown_src_filters u) |>.
Definition addDestinationFilterLink u (filter endpoint : string) :=
  u <| unknown_dest_filters := mm_emplace filter endpoint (unknown_dest_filters u) |>.

Definition checkForInputs u key := getTargets (unknown_inputs u) key.
Definition checkForPublications u key := getTargets (unknown_publications u) key.
Definition checkForLinks u key := getTargets (unknown_links u) key.
Definition checkForEndpoints u key := getTargets (unknown_endpoints u) key.
Definition checkForFilters u key := getTargets (unknown_filters u) key.
Definition checkForFilterSourceTargets u key := getTargets (unknown_src_filters u) key.
Definition checkForFilterDestTargets u key := getTargets (unknown_dest_filters u) key.

Definition hasUnknowns u : bool :=
  negb (mm_empty (unknown_publications u) && mm_empty (unknown_endpoints u)
        && mm_empty (unknown_inputs u) && mm_empty (unknown_filters u)
        && mm_empty (unknown_links u) && mm_empty (unknown_dest_filters u)
        && mm_empty (unknown_src_filters u)).

(** The test on the flags of an entry. *)
Definition has_flag (flag : Z) (e : string * targetInfo) : bool :=
  negb (Z.land e.2.2 (make_flags flag) =? 0).

(** [for (auto& u : m) { if (flag set) continue; return true; }] *)
Definition hasNonOptionalUnknowns u : bool :=
  if negb (mm_empty (unknown_links u) && mm_empty (unknown_dest_filters u)
           && mm_empty (unknown_src_filters u))
  then true
  else
    existsb (λ e, negb (has_flag optional_flag e)) (unknown_publications u)
    || existsb (λ e, negb (has_flag optional_flag e)) (unknown_endpoints u)
    || existsb (λ e, negb (has_flag optional_flag e)) (unknown_inputs u)
    || existsb (λ e, negb (has_flag optional_flag e)) (unknown_filters u).

Definition hasRequiredUnknowns u : bool :=
  existsb (has_flag required_flag) (unknown_publications u)
  || existsb (has_flag required_flag) (unknown_endpoints u)
  || existsb (has_flag required_flag) (unknown_inputs u)
  || existsb (has_flag required_flag) (unknown_filters u).

(** The calls of the callback for the entries of one multimap that pass a test. *)
Definition reportIf (test : string * targetInfo → bool) (type : ascii)
    (m : multimap targetInfo) : list (string * ascii * global_handle) :=
  (λ e, (e.1, type, e.2.1)) <$> base.filter (λ e, test e = true) m.

(** The callback calls of [processNonOptionalUnknowns] and [processRequiredUnknowns]. *)
Definition processNonOptionalUnknowns u : list (string * ascii * global_handle) :=
  let test e := negb (has_flag optional_flag e) in
  reportIf test "p" (unknown_publications u) ++ reportIf test "e" (unknown_endpoints u) ++
  reportIf test "i" (unknown_inputs u) ++ reportIf test "f" (unknown_filters u).
Definition processRequiredUnknowns u : list (string * ascii * global_handle) :=
  let test := has_flag required_flag in
  reportIf test "p" (unknown_publications u) ++ reportIf test "e" (unknown_endpoints u) ++
  reportIf test "i" (unknown_inputs u) ++ reportIf test "f" (unknown_filters u).

Definition clearInput u key :=
  u <| unknown_inputs := mm_erase key (unknown_inputs u) |>.
Definition clearPublication u key :=
  u <| unknown_publications := mm_erase key (unknown_publications u) |>
    <| unknown_links := mm_erase key (unknown_links u) |>.
Definition clearEndpoint u key :=
  u <| unknown_endpoints := mm_erase key (unknown_endpoints u) |>.
Definition clearFilter u key :=
  u <| unknown_filters := mm_erase key (unknown_filters u) |>
    <| unknown_src_filters := mm_erase key (unknown_src_filters u) |>
    <| unknown_dest_filters := mm_erase key (unknown_dest_filters u) |>.

(** The erasure of the entries of one federate. *)
Definition eraseFederate (id : global_federate_id) (m : multimap targetInfo)
    : multimap targetInfo :=
  base.filter (λ e, fed_id e.2.1 ≠ id) m.
Definition clearFederateUnknowns u (id : global_federate_id) :=
  u <| unknown_publications := eraseFederate id (unknown_publications u) |>
    <| unknown_endpoints := eraseFederate id (unknown_endpoints u) |>
    <| unknown_filters := eraseFederate id (unknown_filters u) |>
    <| unknown_inputs := eraseFederate id (unknown_inputs u) |>.

End operations.

(** ** What is reported *)

(** The kinds of interface, and the operations. *)
Inductive kind := KPublication | KEndpoint | KInput | KFilter.

Inductive uh_op :=
  | OpUnknown (k : kind) (key : string) (target : global_handle) (flags : Z)
  | OpDataLink (source target : string)
  | OpSourceFilterLink (filter endpoint : string)
  | OpDestinationFilterLink (filter endpoint : string)
  | OpFound (k : kind) (key : string)
  | OpFederateGone (id : global_federate_id).

Definition uh_run (u : UnknownHandleManager) (op : uh_op) : UnknownHandleManager :=
  match op with
  | OpUnknown KPublication key t f => addUnknownPublication u key t f
  | OpUnknown KEndpoint key t f => addUnknownEndpoint u key t f
  | OpUnknown KInput key t f => addUnknownInput u key t f
  | OpUnknown KFilter key t f => addUnknownFilter u key t f
  | OpDataLink s t => addDataLink u s t
  | OpSourceFilterLink f e => addSourceFilterLink u f e
  | OpDestinationFilterLink f e => addDestinationFilterLink u f e
  | OpFound KPublication key => clearPublication u key
  | OpFound KEndpoint key => clearEndpoint u key
  | OpFound KInput key => clearInput u key
  | OpFound KFilter key => clearFilter u key
  | OpFederateGone id => clearFederateUnknowns u id
  end.

Definition unknowns (k : kind) (u : UnknownHandleManager) : multimap targetInfo :=
  match k with
  | KPublication => unknown_publications u
  | KEndpoint => unknown_endpoints u
  | KInput => unknown_inputs u
  | KFilter => unknown_filters u
  end.
Definition checkFor (k : kind) (u : UnknownHandleManager) : string → list targetInfo :=
  match k with
  | KPublication => checkForPublications u
  | KEndpoint => checkForEndpoints u
  | KInput => checkForInputs u
  | KFilter => checkForFilters u
  end.
Definition kind_char (k : kind) : ascii :=
  match k with KPublication => "p" | KEndpoint => "e" | KInput => "i" | KFilter => "f" end.

#[export] Instance kind_eq_dec : EqDecision kind.
Proof. solve_decision. Defined.

(** The specification, for one kind and one name: the targets waiting for it. *)
Definition waiting_step (k : kind) (key : string) (w : list targetInfo) (op : uh_op)
    : list targetInfo :=
  match op with
  | OpUnknown k' key' t f => if decide (k' = k ∧ key' = key) then w ++ [(t, f)] else w
  | OpFound k' key' => if decide (k' = k ∧ key' = key) then [] else w
  | OpFederateGone id => base.filter (λ t, fed_id t.1 ≠ id) w
  | _ => w
  end.
Definition waiting (k : kind) (key : string) (ops : list uh_op) : list targetInfo :=
  foldl (waiting_step k key) [] ops.

Lemma getTargets_emplace {V} key key' (v : V) m :
  getTargets (mm_emplace key' v m) key =
  if decide (key' = key) then v :: getTargets m key else getTargets m key.
Proof.
  unfold getTargets, mm_emplace. rewrite filter_cons. cbn [fst]. by destruct (decide _).
Qed.

Lemma getTargets_erase {V} key key' (m : multimap V) :
  getTargets (mm_erase key' m) key = if decide (key' = key) then [] else getTargets m key.
Proof.
  unfold getTargets, mm_erase. rewrite list_filter_filter. destruct (decide _) as [->|Hne].
  - rewrite list_filter_none; [done|]. apply Forall_forall. naive_solver.
  - f_equal. apply list_filter_iff. naive_solver.
Qed.

Lemma getTargets_eraseFederate key id m :
  getTargets (eraseFederate id m) key =
  base.filter (λ t, fed_id t.1 ≠ id) (getTargets m key).
Proof.
  unfold getTargets, eraseFederate. induction m as [|[k t] m IH]; [done|].
  rewrite !filter_cons. cbn [fst snd].
  destruct (decide (fed_id t.1 ≠ id)) as [Hi|Hi], (decide (k = key)) as [Hk|Hk];
    rewrite ?filter_cons; cbn [fst snd fmap list_fmap];
    rewrite ?(decide_True _ _ Hk), ?(decide_False _ _ Hk); cbn [fst snd fmap list_fmap];
    rewrite ?filter_cons, ?(decide_True _ _ Hi), ?(decide_False _ _ Hi);
    cbn [fst snd fmap list_fmap]; by rewrite <-?IH.
Qed.

Lemma checkFor_unknowns k u key : checkFor k u key = getTargets (unknowns k u) key.
Proof. by destruct k. Qed.

Lemma uh_run_unknowns k u op :
  unknowns k (uh_run u op) =
  match op with
  | OpUnknown k' key t f => if decide (k' = k) then mm_emplace key (t, f) (unknowns k u)
                            else unknowns k u
  | OpFound k' key => if decide (k' = k) then mm_erase key (unknowns k u) else unknowns k u
  | OpFederateGone id => eraseFederate id (unknowns k u)
  | _ => unknowns k u
  end.
Proof. by destruct op as [[] ? ? ?| | | |[] ?|], k. Qed.

Lemma checkFor_step k key u op w :
  checkFor k u key ≡ₚ w → checkFor k (uh_run u op) key ≡ₚ waiting_step k key w op.
Proof.
  rewrite !checkFor_unknowns, uh_run_unknowns. intros Hw.
  destruct op as [k' key' t f| | | |k' key'|id]; cbn [waiting_step]; try done.
  - destruct (decide (k' = k)) as [->|]; [|by rewrite decide_False by naive_solver].
    rewrite getTargets_emplace. destruct (decide (key' = key)) as [->|].
    + rewrite decide_True by done. rewrite Hw. by rewrite Permutation_cons_append.
    + by rewrite decide_False by naive_solver.
  - destruct (decide (k' = k)) as [->|]; [|by rewrite decide_False by naive_solver].
    rewrite getTargets_erase. destruct (decide (key' = key)) as [->|].
    + by rewrite decide_True.
    + by rewrite decide_False by naive_solver.
  - rewrite getTargets_eraseFederate. by rewrite Hw.
Qed.

Lemma checkFor_waiting ops k key :
  checkFor k (foldl uh_run newUnknownHandleManager ops) key ≡ₚ waiting k key ops.
Proof.
  unfold waiting. assert (checkFor k newUnknownHandleManager key ≡ₚ []) as Hw by by destruct k.
  revert Hw. generalize newUnknownHandleManager, (@nil targetInfo).
  induction ops as [|op ops IH]; intros u w Hw; [done|]. by apply IH, checkFor_step.
Qed.

Lemma reportIf_elem test type m key c h :
  (key, c, h) ∈ reportIf test type m ↔
  c = type ∧ ∃ flags, (h, flags) ∈ getTargets m key ∧ test (key, (h, flags)) = true.
Proof.
  unfold reportIf, getTargets. rewrite list_elem_of_fmap. split.
  - intros ([k [h' f]] & [= -> -> ->] & [Ht Hin]%list_elem_of_filter).
    split; [done|]. exists f. split; [|done]. apply list_elem_of_fmap.
    exists (k, (h', f)). split; [done|]. by apply list_elem_of_filter.
  - intros (-> & f & Hin & Ht). apply list_elem_of_fmap in Hin as ([k [h' f']] & [= -> ->] & Hin).
    apply list_elem_of_filter in Hin as [Hk Hin]. cbn in Hk. subst k.
    exists (key, (h', f')). split; [done|]. by apply list_elem_of_filter.
Qed.

Lemma reportIf_nil test type m : existsb test m = false ↔ reportIf test type m = [].
Proof.
  unfold reportIf. induction m as [|e m IH]; [done|]. cbn [existsb]. rewrite filter_cons.
  destruct (test e); cbn; [done|]. exact IH.
Qed.

Lemma report_all_elem test key c h u :
  (key, c, h) ∈ reportIf test "p" (unknown_publications u) ++
    reportIf test "e" (unknown_endpoints u) ++ reportIf test "i" (unknown_inputs u) ++
    reportIf test "f" (unknown_filters u) ↔
  ∃ k flags, c = kind_char k ∧ (h, flags) ∈ checkFor k u key ∧
    test (key, (h, flags)) = true.
Proof.
  rewrite !elem_of_app, !reportIf_elem. split.
  - intros [(-> & f & ? & ?)|[(-> & f & ? & ?)|[(-> & f & ? & ?)|(-> & f & ? & ?)]]].
    + by exists KPublication, f.
    + by exists KEndpoint, f.
    + by exists KInput, f.
    + by exists KFilter, f.
  - intros ([] & f & -> & ? & ?); eauto 10.
Qed.

Lemma report_all_nil test u :
  existsb test (unknown_publications u) || existsb test (unknown_endpoints u)
  || existsb test (unknown_inputs u) || existsb test (unknown_filters u) = false ↔
  reportIf test "p" (unknown_publications u) ++ reportIf test "e" (unknown_endpoints u) ++
    reportIf test "i" (unknown_inputs u) ++ reportIf test "f" (unknown_filters u) = [].
Proof.
  rewrite !orb_false_iff, !app_nil, <-!(reportIf_nil test). tauto.
Qed.

(** After any sequence of operations, the targets reported for an interface are those
    added for its name since it was last found, without those of federates that have
    gone.  The callbacks for required interfaces are made for exactly the waiting targets
    with the required flag, those for non optional interfaces for exactly the waiting
    targets without the optional flag; there are required unknowns exactly when a
    callback is made, and non optional ones exactly when a callback is made or a link
    waits. *)
Theorem unknown_reports ops :
  let u := foldl uh_run newUnknownHandleManager ops in
  (∀ k key, checkFor k u key ≡ₚ waiting k key ops) ∧
  (∀ key c h, (key, c, h) ∈ processRequiredUnknowns u ↔
     ∃ k flags, c = kind_char k ∧ (h, flags) ∈ waiting k key ops ∧
       checkFlag flags required_flag = true) ∧
  (∀ key c h, (key, c, h) ∈ processNonOptionalUnknowns u ↔
     ∃ k flags, c = kind_char k ∧ (h, flags) ∈ waiting k key ops ∧
       checkFlag flags optional_flag = false) ∧
  (hasRequiredUnknowns u = false ↔ processRequiredUnknowns u = []) ∧
  (hasNonOptionalUnknowns u = false ↔
     processNonOptionalUnknowns u = [] ∧ unknown_links u = [] ∧
     unknown_dest_filters u = [] ∧ unknown_src_filters u = []).
Proof.
  cbv zeta. pose proof (checkFor_waiting ops) as Hw. revert Hw.
  generalize (foldl uh_run newUnknownHandleManager ops). intros u Hw.
  split; [done|]. split; [|split; [|split; [apply report_all_nil|]]].
  - intros key c h. setoid_rewrite <-Hw. apply report_all_elem.
  - intros key c h. setoid_rewrite <-Hw. setoid_rewrite <-negb_true_iff.
    apply report_all_elem.
  - unfold hasNonOptionalUnknowns, processNonOptionalUnknowns. rewrite <-report_all_nil.
    destruct (unknown_links u), (unknown_dest_filters u), (unknown_src_filters u); cbn;
      intuition discriminate.
Qed.
