(* ===== verification/InterfaceInfo.v ===== *)
(** * The interfaces of a federate (src/src/helics/core/InterfaceInfo.hpp, .cpp)

    Creation, search, options and the check of the connections of the publications,
    inputs and endpoints of a federate.  The container [DualMappedPointerVector] is not
    part of the sources: the class [DualMapped] has its operations, an indexed sequence
    of objects with a search by name and one by handle.  The text formatting library is
    the class [Fmt].  The properties are the round trip of the options. *)

From S2P Require Import Prelude HelicsTime Ids Flags ActionMessage Definitions.
From S2P Require Import InputInfo Interfaces.

(** ** The container *)

(** [dm_insert] is [insert(key, handle, object)]; the objects are iterated in the order of
    [dm_elements] and found through an index; [dm_assign] is the effect of assignments
    through the pointers to them. *)
Class DualMapped (C : Type → Type) := {
  dm_empty : ∀ {V}, C V;
  dm_insert : ∀ {V}, string → Z → V → C V → C V;
  dm_elements : ∀ {V}, C V → list V;
  dm_index1 : ∀ {V}, C V → string → option nat;
  dm_index2 : ∀ {V}, C V → Z → option nat;
  dm_assign : ∀ {V}, C V → list V → C V;
}.

Class DualMappedLaws (C : Type → Type) `{DualMapped C} : Prop := {
  dm_index2_lt : ∀ {V} (c : C V) h i,
    dm_index2 c h = Some i → (i < length (dm_elements c))%nat;
  dm_assign_elements : ∀ {V} (c : C V) l,
    length l = length (dm_elements c) → dm_elements (dm_assign c l) = l;
  dm_assign_index1 : ∀ {V} (c : C V) l k,
    length l = length (dm_elements c) → dm_index1 (dm_assign c l) k = dm_index1 c k;
  dm_assign_index2 : ∀ {V} (c : C V) l h,
    length l = length (dm_elements c) → dm_index2 (dm_assign c l) h = dm_index2 c h;
}.

Section container.
  Context `{DualMapped C} {V : Type}.
  Implicit Types c : C V.

(** [find(name)], [find(handle)], and an assignment through the result of the latter or
    of [back()]. *)
Definition dm_find1 c (key : string) : option V := dm_index1 c key ≫= λ i, dm_elements c !! i.
Definition dm_find2 c (h : Z) : option V := dm_index2 c h ≫= λ i, dm_elements c !! i.
Definition dm_alter2 (f : V → V) (h : Z) c : C V :=
  match dm_index2 c h with
  | Some i => dm_assign c (alter f i (dm_elements c))
  | None => c
  end.
Definition dm_alter_back (f : V → V) c : C V :=
  dm_assign c (alter f (length (dm_elements c) - 1)%nat (dm_elements c)).

Lemma dm_find2_alter2 `{!DualMappedLaws C} (f : V → V) h c :
  dm_find2 (dm_alter2 f h c) h = f <$> dm_find2 c h.
Proof.
  unfold dm_find2, dm_alter2. destruct (dm_index2 c h) as [i|] eqn:E; [|by rewrite E].
  rewrite dm_assign_index2, E by apply length_alter. cbn.
  rewrite dm_assign_elements by apply length_alter. by rewrite list_lookup_alter_eq.
Qed.

Lemma dm_find2_Some `{!DualMappedLaws C} h c i :
  dm_index2 c h = Some i → ∃ v, dm_find2 c h = Some v ∧ dm_elements c !! i = Some v.
Proof.
  intros E. destruct (lookup_lt_is_Some_2 (dm_elements c) i) as [v Hv];
    [by eapply dm_index2_lt|].
  exists v. unfold dm_find2. by rewrite E.
Qed.

Lemma dm_elements_alter2 `{!DualMappedLaws C} (P : V → Prop) (f : V → V) h c :
  (∀ v, P v → P (f v)) → Forall P (dm_elements c) → Forall P (dm_elements (dm_alter2 f h c)).
Proof.
  intros Hf Hc. unfold dm_alter2. destruct (dm_index2 c h) as [i|]; [|done].
  rewrite dm_assign_elements by apply length_alter. apply Forall_alter; auto.
Qed.
End container.

(** ** The interfaces *)

Section interfaces.
  Context `{TimeRep} `{DualMapped C} `{UnitsLib} `{Fmt}.

(** [class InterfaceInfo]; the locks of the guarded containers are not modelled. *)
Record InterfaceInfo := mkInterfaceInfo {
  if_global_id : global_federate_id;
  if_only_update_on_change : bool;
  publications : C PublicationInfo;
  endpoints : C EndpointInfo;
  inputs : C InputInfo;
}.

#[export] Instance eta_InterfaceInfo : Eta InterfaceInfo := λ i,
  mkInterfaceInfo (if_global_id i) (if_only_update_on_change i) (publications i)
    (endpoints i) (inputs i).

Definition newInterfaceInfo : InterfaceInfo :=
  mkInterfaceInfo invalid_global_fed_id false dm_empty dm_empty dm_empty.

  Implicit Types (s : InterfaceInfo) (id : interface_handle).

Definition createPublication s id (key type units : string) : InterfaceInfo :=
  s <| publications := dm_insert key id
         (newPublicationInfo (GlobalHandle (if_global_id s) id) key type units)
         (publications s) |>.
Definition createInput s id (key type units : string) : InterfaceInfo :=
  s <| inputs := dm_alter_back (λ i, i <| only_update_on_change := if_only_update_on_change s |>)
         (dm_insert key id
            (newInputInfo (GlobalHandle (if_global_id s) id) key type units) (inputs s)) |>.
Definition createEndpoint s id (endpointName type : string) : InterfaceInfo :=
  s <| endpoints := dm_insert endpointName id
         (newEndpointInfo (GlobalHandle (if_global_id s) id) endpointName type)
         (endpoints s) |>.

Definition setGlobalId s (newglobalId : global_federate_id) : InterfaceInfo :=
  s <| if_global_id := newglobalId |>.
Definition setChangeUpdateFlag s (updateFlag : bool) : InterfaceInfo :=
  if negb (Bool.eqb updateFlag (if_only_update_on_change s)) then
    s <| if_only_update_on_change := updateFlag |>
      <| inputs := dm_assign (inputs s)
           ((λ i, i <| only_update_on_change := updateFlag |>) <$> dm_elements (inputs s)) |>
  else s.
Definition getChangeUpdateFlag s : bool := if_only_update_on_change s.

(** [getPublication], [getInput] and [getEndpoint] by name and by handle. *)
Definition if_getPublicationByName s (pubName : string) := dm_find1 (publications s) pubName.
Definition if_getPublication s id := dm_find2 (publications s) id.
Definition if_getInputByName s (inputName : string) := dm_find1 (inputs s) inputName.
Definition if_getInput s id := dm_find2 (inputs s) id.
Definition if_getEndpointByName s (eptName : string) := dm_find1 (endpoints s) eptName.
Definition if_getEndpoint s id := dm_find2 (endpoints s) id.

(** What [setInputProperty] does to the input; [None] is an option it does not know. *)
Definition inputOption (opt value : Z) (ipt : InputInfo) : option InputInfo :=
  let bvalue := negb (value =? 0) in
  if opt =? helics_handle_option_ignore_interrupts then
    Some (ipt <| not_interruptible := bvalue |>)
  else if opt =? helics_handle_option_only_update_on_change then
    Some (ipt <| only_update_on_change := bvalue |>)
  else if opt =? helics_handle_option_connection_required then
    Some (ipt <| ii_required := bvalue |>)
  else if opt =? helics_handle_option_connection_optional then
    Some (ipt <| ii_required := negb bvalue |>)
  else if opt =? helics_handle_option_single_connection_only then
    Some (ipt <| required_connnections := if bvalue then 1 else 0 |>)
  else if opt =? helics_handle_option_multiple_connections_allowed then
    Some (ipt <| required_connnections := if bvalue then 0 else 1 |>)
  else if opt =? helics_handle_option_strict_type_checking then
    Some (ipt <| strict_type_matching := bvalue |>)
  else if opt =? helics_handle_option_ignore_unit_mismatch then
    Some (ipt <| ignore_unit_mismatch := bvalue |>)
  else if opt =? helics_handle_option_connections then
    Some (ipt <| required_connnections := value |>)
  else if opt =? helics_handle_option_input_priority_location then
    Some (ipt <| priority_sources := priority_sources ipt ++ [value] |>)
  else if opt =? helics_handle_option_clear_priority_list then
    Some (ipt <| priority_sources := [] |>)
  else None.

Definition setInputProperty s id (opt value : Z) : InterfaceInfo * bool :=
  match if_getInput s id with
  | None => (s, false)
  | Some ipt =>
      match inputOption opt value ipt with
      | Some ipt' => (s <| inputs := dm_alter2 (λ _, ipt') id (inputs s) |>, true)
      | None => (s, false)
      end
  end.

(** What [setPublicationProperty] does to the publication. *)
Definition publicationOption (opt value : Z) (pub : PublicationInfo)
    : option PublicationInfo :=
  let bvalue := negb (value =? 0) in
  if opt =? helics_handle_option_only_transmit_on_change then
    Some (pub <| pub_only_update_on_change := bvalue |>)
  else if opt =? helics_handle_option_connection_required then
    Some (pub <| pub_required := bvalue |>)
  else if opt =? helics_handle_option_connection_optional then
    Some (pub <| pub_required := negb bvalue |>)
  else if opt =? helics_handle_option_single_connection_only then
    Some (pub <| required_connections := if bvalue then 1 else 0 |>)
  else if opt =? helics_handle_option_multiple_connections_allowed then
    Some (pub <| required_connections := if negb bvalue then 0 else 1 |>)
  else if opt =? helics_handle_option_buffer_data then
    Some (pub <| buffer_data := bvalue |>)
  else if opt =? helics_handle_option_connections then
    Some (pub <| required_connections := value |>)
  else None.

Definition setPublicationProperty s id (opt value : Z) : InterfaceInfo * bool :=
  match if_getPublication s id with
  | None => (s, false)
  | Some pub =>
      match publicationOption opt value pub with
      | Some pub' => (s <| publications := dm_alter2 (λ _, pub') id (publications s) |>, true)
      | None => (s, false)
      end
  end.

Definition setEndpointProperty s id (opt value : Z) : InterfaceInfo * bool := (s, false).

Definition getInputProperty s id (opt : Z) : Z :=
  match if_getInput s id with
  | None => 0
  | Some ipt =>
      if opt =? helics_handle_option_connections then
        to_sint 32 (Z.of_nat (length (input_sources ipt)))
      else if opt =? helics_handle_option_input_priority_location then
        default (-1) (last (priority_sources ipt))
      else
        let flagval :=
          if opt =? helics_handle_option_ignore_interrupts then not_interruptible ipt
          else if opt =? helics_handle_option_only_update_on_change then
            only_update_on_change ipt
          else if opt =? helics_handle_option_connection_required then ii_required ipt
          else if opt =? helics_handle_option_connection_optional then negb (ii_required ipt)
          else if opt =? helics_handle_option_single_connection_only then
            required_connnections ipt =? 1
          else if opt =? helics_handle_option_multiple_connections_allowed then
            negb (required_connnections ipt =? 1)
          else if opt =? helics_handle_option_strict_type_checking then
            strict_type_matching ipt
          else if opt =? helics_handle_option_clear_priority_list then
            match priority_sources ipt with [] => true | _ => false end
          else false in
        if flagval then 1 else 0
  end.

Definition getPublicationProperty s id (opt : Z) : Z :=
  match if_getPublication s id with
  | None => 0
  | Some pub =>
      if opt =? helics_handle_option_connections then
        to_sint 32 (Z.of_nat (length (subscribers pub)))
      else
        let flagval :=
          if opt =? helics_handle_option_only_transmit_on_change then
            pub_only_update_on_change pub
          else if opt =? helics_handle_option_connection_required then pub_required pub
          else if opt =? helics_handle_option_connection_optional then negb (pub_required pub)
          else if opt =? helics_handle_option_single_connection_only then
            required_connections pub =? 1
          else if opt =? helics_handle_option_multiple_connections_allowed then
            negb (required_connections pub =? 1)
          else if opt =? helics_handle_option_buffer_data then buffer_data pub
          else false in
        if flagval then 1 else 0
  end.

Definition getEndpointProperty s id (opt : Z) : Z := 0.

(** ** The check of the connections *)

Definition dquote : string := String (Ascii.ascii_of_nat 34) EmptyString.

(** The issues of one source of an input. *)
Definition sourceIssues (ipt : InputInfo) (source : sourceInformation) : list (Z * string) :=
  (if negb (checkTypeMatch (ii_type ipt) (si_type source) (strict_type_matching ipt)) then
     [(helics_error_connection_failure,
       fmt_format
         ("Input " +:+ dquote +:+ "{}" +:+ dquote +:+
          " source has mismatched types: {} is not compatible with {}")
         [FStr (ii_key ipt); FStr (ii_type ipt); FStr (si_type source)])]
   else []) ++
  (if negb (ignore_unit_mismatch ipt)
      && negb (checkUnitMatch (ii_units ipt) (si_units source) false) then
     [(helics_error_connection_failure,
       fmt_format
         ("Input " +:+ dquote +:+ "{}" +:+ dquote +:+
          " source has incompatible unit: {} is not convertible to {}")
         [FStr (ii_key ipt); FStr (si_units source); FStr (ii_units ipt)])]
   else []).

(** The issues of an input; the comparison of the number of sources is on [size_t]. *)
Definition inputIssues (ipt : InputInfo) : list (Z * string) :=
  let sources := Z.of_nat (length (input_sources ipt)) in
  (if ii_required ipt && negb (has_target ipt) then
     [(helics_error_connection_failure,
       fmt_format "Input {} is required but has no connection" [FStr (ii_key ipt)])]
   else []) ++
  (if (0 <? required_connnections ipt) && negb (sources =? required_connnections ipt) then
     [(helics_error_connection_failure,
       if required_connnections ipt =? 1 then
         fmt_format "Input {} is single source only but has more than one connection"
           [FStr (ii_key ipt)]
       else
         fmt_format "Input {} requires {} connections but{} {} were made"
           [FStr (ii_key ipt); FInt (required_connnections ipt);
            FStr (if sources <? required_connnections ipt then " only" else "");
            FInt sources])]
   else []) ++
  concat (sourceIssues ipt <$> source_info ipt).

Definition publicationIssues (pub : PublicationInfo) : list (Z * string) :=
  let targets := Z.of_nat (length (subscribers pub)) in
  (if pub_required pub && (targets =? 0) then
     [(helics_error_connection_failure,
       fmt_format "Publication {} is required but has no subscribers" [FStr (pub_key pub)])]
   else []) ++
  (if (0 <? required_connections pub) && negb (targets =? required_connections pub) then
     [(helics_error_connection_failure,
       if required_connections pub =? 1 then
         fmt_format "Publication {} is single source only but has more than one connection"
           [FStr (pub_key pub)]
       else
         fmt_format "Publication {} requires {} connections but only {} are made"
           [FStr (pub_key pub); FInt (required_connections pub); FInt targets])]
   else []).

Definition checkInterfacesForIssues s : list (Z * string) :=
  concat (inputIssues <$> dm_elements (inputs s)) ++
  concat (publicationIssues <$> dm_elements (publications s)).

(** ** Properties *)

(** The options of an input and of a publication that are switches. *)
Definition input_switches : list Z :=
  [helics_handle_option_ignore_interrupts; helics_handle_option_only_update_on_change;
   helics_handle_option_connection_required; helics_handle_option_connection_optional;
   helics_handle_option_single_connection_only;
   helics_handle_option_multiple_connections_allowed;
   helics_handle_option_strict_type_checking].
Definition publication_switches : list Z :=
  [helics_handle_option_only_transmit_on_change; helics_handle_option_connection_required;
   helics_handle_option_connection_optional; helics_handle_option_single_connection_only;
   helics_handle_option_buffer_data].

(** Reading an option right after setting it. *)
Definition input_readback s id (opt value : Z) : Z :=
  getInputProperty (setInputProperty s id opt value).1 id opt.
Definition publication_readback s id (opt value : Z) : Z :=
  getPublicationProperty (setPublicationProperty s id opt value).1 id opt.

Lemma getInput_set `{!DualMappedLaws C} s id opt value ipt ipt' :
  if_getInput s id = Some ipt → inputOption opt value ipt = Some ipt' →
  if_getInput (setInputProperty s id opt value).1 id = Some ipt'.
Proof.
  intros Hi Ho. unfold setInputProperty. rewrite Hi, Ho. unfold if_getInput in *. cbn.
  by rewrite dm_find2_alter2, Hi.
Qed.

Lemma getPublication_set `{!DualMappedLaws C} s id opt value pub pub' :
  if_getPublication s id = Some pub → publicationOption opt value pub = Some pub' →
  if_getPublication (setPublicationProperty s id opt value).1 id = Some pub'.
Proof.
  intros Hi Ho. unfold setPublicationProperty. rewrite Hi, Ho.
  unfold if_getPublication in *. cbn. by rewrite dm_find2_alter2, Hi.
Qed.

(** The switches of an input and of a publication read back as they were set, except
    "multiple connections allowed" of a publication, which reads back inverted: allowing
    several connections requires exactly one. *)
Lemma interface_options `{!DualMappedLaws C} s id value :
  let switch := if value =? 0 then 0 else 1 in
  (is_Some (if_getInput s id) →
   Forall (λ opt, input_readback s id opt value = switch) input_switches) ∧
  (is_Some (if_getPublication s id) →
   Forall (λ opt, publication_readback s id opt value = switch) publication_switches ∧
   publication_readback s id helics_handle_option_multiple_connections_allowed value =
     1 - switch).
Proof.
  cbv zeta. split.
  - intros [ipt Hi]. repeat constructor; unfold input_readback, getInputProperty;
      erewrite getInput_set by (exact Hi || reflexivity); cbn; by destruct (value =? 0).
  - intros [pub Hp]. split; [repeat constructor|];
      unfold publication_readback, getPublicationProperty;
      erewrite getPublication_set by (exact Hp || reflexivity); cbn;
      by destruct (value =? 0).
Qed.

(** A connected interface: what initialization asks of it. *)
Definition input_connected (ipt : InputInfo) : Prop :=
  (ii_required ipt = true → has_target ipt = true) ∧
  (0 < required_connnections ipt →
   Z.of_nat (length (input_sources ipt)) = required_connnections ipt) ∧
  Forall (λ source,
    checkTypeMatch (ii_type ipt) (si_type source) (strict_type_matching ipt) = true ∧
    (ignore_unit_mismatch ipt = false →
     checkUnitMatch (ii_units ipt) (si_units source) false = true)) (source_info ipt).
Definition publication_connected (pub : PublicationInfo) : Prop :=
  (pub_required pub = true → subscribers pub ≠ []) ∧
  (0 < required_connections pub →
   Z.of_nat (length (subscribers pub)) = required_connections pub).

Lemma concat_nil {A} (ls : list (list A)) : concat ls = [] ↔ Forall (λ l, l = []) ls.
Proof.
  induction ls as [|l ls IH]; cbn; [done|]. by rewrite app_nil, Forall_cons, IH.
Qed.

Lemma if_nil {A} (b : bool) (x : A) : (if b then [x] else []) = [] ↔ b = false.
Proof. by destruct b. Qed.

Lemma sourceIssues_nil ipt source :
  sourceIssues ipt source = [] ↔
  checkTypeMatch (ii_type ipt) (si_type source) (strict_type_matching ipt) = true ∧
  (ignore_unit_mismatch ipt = false →
   checkUnitMatch (ii_units ipt) (si_units source) false = true).
Proof.
  unfold sourceIssues. rewrite app_nil, !if_nil.
  destruct (checkTypeMatch _ _ _), (ignore_unit_mismatch ipt), (checkUnitMatch _ _ _);
    cbn; intuition discriminate.
Qed.

Lemma inputIssues_nil ipt : inputIssues ipt = [] ↔ input_connected ipt.
Proof.
  unfold inputIssues, input_connected.
  rewrite !app_nil, !if_nil, concat_nil, Forall_fmap, !andb_false_iff, !negb_false_iff.
  rewrite Z.ltb_ge, Z.eqb_eq. unfold compose. setoid_rewrite sourceIssues_nil.
  destruct (ii_required ipt); intuition (try discriminate; try lia).
Qed.

Lemma publicationIssues_nil pub : publicationIssues pub = [] ↔ publication_connected pub.
Proof.
  unfold publicationIssues, publication_connected.
  rewrite app_nil, !if_nil, !andb_false_iff, negb_false_iff, Z.ltb_ge, !Z.eqb_eq.
  rewrite Z.eqb_neq. destruct (pub_required pub), (subscribers pub) as [|h l]; cbn;
    intuition (try discriminate; try lia).
Qed.

(** The check made when initialization is granted finds no issue exactly when every
    required interface is connected, every requested number of connections is met, and
    the types and units of every source of an input match. *)
Theorem no_issues_iff s :
  checkInterfacesForIssues s = [] ↔
  Forall input_connected (dm_elements (inputs s)) ∧
  Forall publication_connected (dm_elements (publications s)).
Proof.
  unfold checkInterfacesForIssues. rewrite app_nil, !concat_nil, !Forall_fmap.
  unfold compose. setoid_rewrite inputIssues_nil. by setoid_rewrite publicationIssues_nil.
Qed.

End interfaces.

Arguments InterfaceInfo : clear implicits.

(** ** Instances *)

(** A container: the entries with their name and handle, in the order of insertion; a
    name or a handle already present is not inserted again. *)
Definition listed (V : Type) : Type := list (string * Z * V).

#[export] Instance listed_mapped : DualMapped listed := {|
  dm_empty V := [];
  dm_insert V key h v c :=
    if existsb (λ e, String.eqb e.1.1 key || (e.1.2 =? h)) c then c else c ++ [(key, h, v)];
  dm_elements V c := c.*2;
  dm_index1 V c key := fst <$> list_find (λ e, e.1.1 = key) c;
  dm_index2 V c h := fst <$> list_find (λ e, e.1.2 = h) c;
  dm_assign V c l := zip_with (λ e v, (e.1, v)) c l;
|}.

Lemma list_find_assign {A B} (P : A → Prop) `{∀ x, Decision (P x)} (c : list (A * B)) l :
  length l = length c →
  fst <$> list_find (λ e : A * B, P e.1) (zip_with (λ (e : A * B) v, (e.1, v)) c l) =
  fst <$> list_find (λ e : A * B, P e.1) c.
Proof.
  revert l. induction c as [|[a b] c IH]; intros [|v l] Hl; simplify_eq/=; [done|].
  cbn. destruct (decide (P a)); [done|].
  specialize (IH l Hl). destruct (list_find _ (zip_with _ _ _)) as [[]|],
    (list_find _ c) as [[]|]; cbn in *; congruence.
Qed.

#[export] Instance listed_laws : DualMappedLaws listed.
Proof.
  split; intros V c.
  - intros h i. cbn. destruct (list_find _ c) as [[j e]|] eqn:E; [|done]. intros [= <-].
    apply list_find_Some in E as [E _]. rewrite length_fmap. by eapply lookup_lt_Some.
  - intros l. cbn. rewrite length_fmap. revert l.
    induction c as [|e c IH]; intros [|v l] Hl; simplify_eq/=; [done|]. cbn. f_equal. by apply IH.
  - intros l k. cbn. rewrite length_fmap.
    exact (list_find_assign (λ e : string * Z, e.1 = k) c l).
  - intros l k. cbn. rewrite length_fmap.
    exact (list_find_assign (λ e : string * Z, e.2 = k) c l).
Qed.

Definition sample_interfaces : InterfaceInfo listed :=
  createPublication (createInput newInterfaceInfo 1 "in" "double" "") 2 "out" "double" "".

