(* ===== verification/FederateState.v ===== *)
(** * The state of a federate in its core (src/src/helics/core/FederateState.hpp, .cpp)

    A federate in the core is a state machine driven by a queue of messages.  A call of
    the federate (initialization, execution, a time request) processes the queue until a
    message makes it return; messages of a federate that is ahead are put in a delay
    queue for that federate and processed later, in order.

    The model is the build without asio (HELICS_DISABLE_ASIO): the real time timers are
    not there.  The logger callback is not modelled.  The message queue
    [gmlc::containers::BlockingQueue] is the class [BlockingQueue]; the answer to a query
    is an argument.  Messages for the core ([parent_->addActionMessage]) are the output
    of an operation. *)

From stdpp Require Import strings pretty.
From Stdlib Require Import Ascii.
From S2P Require Import Prelude HelicsTime Ids Flags ActionMessage MessageCodec.
From S2P Require Import Definitions TimeDependencies TimeCoordinator HandleManager.
From S2P Require Import InputInfo Interfaces InterfaceInfo.

(** [enum federate_state], in the order of its enumerators. *)
Inductive federate_state :=
  | HELICS_CREATED
  | HELICS_INITIALIZING
  | HELICS_EXECUTING
  | HELICS_TERMINATING
  | HELICS_ERROR
  | HELICS_FINISHED
  | HELICS_UNKNOWN.

#[export] Instance federate_state_eq_dec : EqDecision federate_state.
Proof. solve_decision. Defined.

Definition federate_state_code (st : federate_state) : Z :=
  match st with
  | HELICS_CREATED => 0
  | HELICS_INITIALIZING => 1
  | HELICS_EXECUTING => 2
  | HELICS_TERMINATING => 3
  | HELICS_ERROR => 4
  | HELICS_FINISHED => 5
  | HELICS_UNKNOWN => 6
  end.

(** The queue of messages: first in, first out. *)
Class BlockingQueue (Q : Type) := {
  q_new : Q;
  q_push : ActionMessage → Q → Q;
  q_pop : Q → option (ActionMessage * Q);
}.
Class BlockingQueueLaws (Q : Type) `{BlockingQueue Q} := {
  q_list : Q → list ActionMessage;
  q_list_new : q_list q_new = [];
  q_list_push : ∀ m q, q_list (q_push m q) = q_list q ++ [m];
  q_list_pop : ∀ q, match q_pop q with
                    | Some (m, q') => q_list q = m :: q_list q'
                    | None => q_list q = []
                    end;
}.

(** [class CoreFederateInfo] *)
Record CoreFederateInfo := mkCoreFederateInfo {
  timeProps : list (Z * Time);
  intProps : list (Z * Z);
  flagProps : list (Z * bool);
}.

(** [static_cast<handle_type>(counter)] and [static_cast<char>(counter)] *)
Definition handle_type_of_code (counter : Z) : handle_type :=
  match Ascii.ascii_of_N (Z.to_N (to_uint 8 counter)) with
  | "p"%char => ht_publication
  | "i"%char => ht_input
  | "e"%char => ht_endpoint
  | "f"%char => ht_filter
  | _ => ht_unknown
  end.

Section federate.
  Context `{TimeRep} `{DualMapped C} `{UnitsLib} `{Fmt} `{BlockingQueue Q}.

(** [class FederateState].  [fs_parent] tells whether [parent_] is set; the delay queues
    are in increasing order of the federate id, the order of a [std::map]. *)
Record FederateState := mkFederateState {
  fs_name : string;
  timeCoord : TimeCoordinator;
  fs_local_id : local_federate_id;
  fs_global_id : global_federate_id;
  fs_state : federate_state;
  only_transmit_on_change : bool;
  realtime : bool;
  observer : bool;
  source_only : bool;
  ignore_time_mismatch_warnings : bool;
  strict_input_type_checking : bool;
  fs_ignore_unit_mismatch : bool;
  slow_responding : bool;
  interfaceInformation : InterfaceInfo C;
  init_transmitted : bool;
  fs_errorCode : Z;
  fs_parent : bool;
  fs_errorString : string;
  rt_lag : Time;
  rt_lead : Time;
  init_requested : bool;
  fs_iterating : bool;
  timeGranted_mode : bool;
  terminate_on_error : bool;
  logLevel : Z;
  fs_queue : Q;
  interfaceFlags : Z;
  delayQueues : list (global_federate_id * list ActionMessage);
  fs_events : list interface_handle;
  delayedFederates : list global_federate_id;
  fs_time_granted : Time;
  allowed_send_time : Time;
}.

#[export] Instance eta_FederateState : Eta FederateState := λ s,
  mkFederateState (fs_name s) (timeCoord s) (fs_local_id s) (fs_global_id s) (fs_state s)
    (only_transmit_on_change s) (realtime s) (observer s) (source_only s)
    (ignore_time_mismatch_warnings s) (strict_input_type_checking s)
    (fs_ignore_unit_mismatch s) (slow_responding s) (interfaceInformation s)
    (init_transmitted s) (fs_errorCode s) (fs_parent s) (fs_errorString s) (rt_lag s)
    (rt_lead s) (init_requested s) (fs_iterating s) (timeGranted_mode s) (terminate_on_error s) (logLevel s) (fs_queue s)
    (interfaceFlags s) (delayQueues s) (fs_events s) (delayedFederates s)
    (fs_time_granted s) (allowed_send_time s).

Definition startupTime : Time := Time_minVal.
Definition initialTime : Time := Time_of_int (-1000000).

(** The members after the initialisers of the class. *)
Definition initialFederateState (fedName : string) : FederateState := {|
  fs_name := fedName; timeCoord := newTimeCoordinator; fs_local_id := invalid_fid;
  fs_global_id := invalid_global_fed_id; fs_state := HELICS_CREATED;
  only_transmit_on_change := false; realtime := false; observer := false;
  source_only := false; ignore_time_mismatch_warnings := false;
  strict_input_type_checking := false; fs_ignore_unit_mismatch := false;
  slow_responding := false; interfaceInformation := newInterfaceInfo;
  init_transmitted := false; fs_errorCode := 0;
  fs_parent := false; fs_errorString := ""; rt_lag := timeZero; rt_lead := timeZero;
  init_requested := false; fs_iterating := false; timeGranted_mode := false; terminate_on_error := false;
  logLevel := 1; fs_queue := q_new; interfaceFlags := 0; delayQueues := [];
  fs_events := []; delayedFederates := []; fs_time_granted := startupTime;
  allowed_send_time := startupTime;
|}.

  Implicit Types (s : FederateState) (cmd : ActionMessage).

(** ** States *)

Definition setState s (newState : federate_state) : FederateState :=
  if bool_decide (fs_state s = newState) then s
  else
    match newState with
    | HELICS_ERROR | HELICS_FINISHED | HELICS_CREATED | HELICS_TERMINATING =>
        s <| fs_state := newState |>
    | HELICS_INITIALIZING =>
        if bool_decide (fs_state s = HELICS_CREATED) then s <| fs_state := newState |> else s
    | HELICS_EXECUTING =>
        if bool_decide (fs_state s = HELICS_INITIALIZING) then s <| fs_state := newState |>
        else s
    | HELICS_UNKNOWN => s
    end.

Definition fs_reset s : FederateState :=
  s <| fs_global_id := invalid_global_fed_id |>
    <| interfaceInformation := setGlobalId (interfaceInformation s) invalid_global_fed_id |>
    <| fs_local_id := invalid_fid |> <| fs_state := HELICS_CREATED |>
    <| fs_queue := q_new |> <| delayQueues := [] |>.
Definition reInit s : FederateState :=
  s <| fs_state := HELICS_INITIALIZING |> <| fs_queue := q_new |> <| delayQueues := [] |>.

Definition fs_getCurrentIteration s : Z := getCurrentIteration (timeCoord s).

(** ** Properties and options *)

Definition fs_setProperty s (timeProperty : Z) (propertyVal : Time) : FederateState :=
  if timeProperty =? helics_property_time_rt_lag then s <| rt_lag := propertyVal |>
  else if timeProperty =? helics_property_time_rt_lead then s <| rt_lead := propertyVal |>
  else if timeProperty =? helics_property_time_rt_tolerance then
    s <| rt_lag := propertyVal |> <| rt_lead := propertyVal |>
  else s <| timeCoord := setProperty (timeCoord s) timeProperty propertyVal |>.

Definition fs_setIntProperty s (intProperty propertyVal : Z) : FederateState :=
  if (intProperty =? helics_property_int_log_level)
     || (intProperty =? helics_property_int_file_log_level)
     || (intProperty =? helics_property_int_console_log_level)
  then s <| logLevel := propertyVal |>
  else if intProperty =? helics_property_time_rt_lag then
    s <| rt_lag := Time_of_int propertyVal |>
  else if intProperty =? helics_property_time_rt_lead then
    s <| rt_lead := Time_of_int propertyVal |>
  else if intProperty =? helics_property_time_rt_tolerance then
    s <| rt_lag := Time_of_int propertyVal |> <| rt_lead := Time_of_int propertyVal |>
  else s <| timeCoord := setIntProperty (timeCoord s) intProperty propertyVal |>.

(** [interfaceFlags |= f] and [interfaceFlags &= ~f] *)
Definition setInterfaceFlag s (flag : Z) (value : bool) : FederateState :=
  s <| interfaceFlags :=
         if value then Z.lor (interfaceFlags s) (make_flags flag)
         else Z.land (interfaceFlags s) (to_uint 16 (Z.lnot (make_flags flag))) |>.

Definition fs_setOptionFlag s (optionFlag : Z) (value : bool) : FederateState :=
  if (optionFlag =? helics_flag_only_transmit_on_change)
     || (optionFlag =? helics_handle_option_only_transmit_on_change)
  then s <| only_transmit_on_change := value |>
  else if (optionFlag =? helics_flag_only_update_on_change)
          || (optionFlag =? helics_handle_option_only_update_on_change)
  then s <| interfaceInformation := setChangeUpdateFlag (interfaceInformation s) value |>
  else if optionFlag =? helics_handle_option_strict_type_checking then
    s <| strict_input_type_checking := value |>
  else if optionFlag =? helics_handle_option_ignore_unit_mismatch then
    s <| fs_ignore_unit_mismatch := value |>
  else if optionFlag =? helics_flag_slow_responding then s <| slow_responding := value |>
  else if optionFlag =? helics_flag_terminate_on_error then
    s <| terminate_on_error := value |>
  else if optionFlag =? helics_flag_realtime then
    if value then
      if federate_state_code (fs_state s) <? federate_state_code HELICS_EXECUTING
      then s <| realtime := true |> else s
    else s <| realtime := false |>
  else if optionFlag =? helics_flag_source_only then
    if bool_decide (fs_state s = HELICS_CREATED) then
      let s := s <| source_only := value |> in
      if value then s <| observer := false |> else s
    else s
  else if optionFlag =? helics_flag_observer then
    if bool_decide (fs_state s = HELICS_CREATED) then
      let s := s <| observer := value |> in
      if value then s <| source_only := false |> else s
    else s
  else if optionFlag =? helics_flag_ignore_time_mismatch_warnings then
    s <| ignore_time_mismatch_warnings := value |>
  else if optionFlag =? helics_handle_option_buffer_data then s
  else if optionFlag =? helics_handle_option_connection_required then
    setInterfaceFlag s required_flag value
  else if optionFlag =? helics_handle_option_connection_optional then
    setInterfaceFlag s optional_flag value
  else s <| timeCoord := setOptionFlag (timeCoord s) optionFlag value |>.

Definition fs_getTimeProperty s (timeProperty : Z) : Time :=
  if (timeProperty =? helics_property_time_rt_lag)
     || (timeProperty =? helics_property_time_rt_tolerance) then rt_lag s
  else if timeProperty =? helics_property_time_rt_lead then rt_lead s
  else getTimeProperty (timeCoord s) timeProperty.

Definition fs_getOptionFlag s (optionFlag : Z) : outcome bool :=
  if (optionFlag =? helics_flag_only_transmit_on_change)
     || (optionFlag =? helics_handle_option_only_transmit_on_change)
  then Ok (only_transmit_on_change s)
  else if (optionFlag =? helics_flag_only_update_on_change)
          || (optionFlag =? helics_handle_option_only_update_on_change)
  then Ok (getChangeUpdateFlag (interfaceInformation s))
  else if optionFlag =? helics_flag_realtime then Ok (realtime s)
  else if optionFlag =? helics_flag_observer then Ok (observer s)
  else if optionFlag =? helics_flag_source_only then Ok (source_only s)
  else if optionFlag =? helics_flag_slow_responding then Ok (slow_responding s)
  else if optionFlag =? helics_flag_terminate_on_error then Ok (terminate_on_error s)
  else if optionFlag =? helics_handle_option_connection_required then
    Ok (checkFlag (interfaceFlags s) required_flag)
  else if optionFlag =? helics_handle_option_connection_optional then
    Ok (checkFlag (interfaceFlags s) optional_flag)
  else if optionFlag =? helics_handle_option_strict_type_checking then
    Ok (strict_input_type_checking s)
  else if optionFlag =? helics_handle_option_ignore_unit_mismatch then
    Ok (fs_ignore_unit_mismatch s)
  else if optionFlag =? helics_flag_ignore_time_mismatch_warnings then
    Ok (ignore_time_mismatch_warnings s)
  else getOptionFlag (timeCoord s) optionFlag.

Definition fs_getIntegerProperty s (intProperty : Z) : Z :=
  if (intProperty =? helics_property_int_log_level)
     || (intProperty =? helics_property_int_file_log_level)
     || (intProperty =? helics_property_int_console_log_level)
  then logLevel s
  else getIntegerProperty (timeCoord s) intProperty.

Definition newFederateState (fedName : string) (fedInfo : CoreFederateInfo) : FederateState :=
  let s := initialFederateState fedName in
  let s := foldl (λ s p, fs_setProperty s p.1 p.2) s (timeProps fedInfo) in
  let s := foldl (λ s p, fs_setIntProperty s p.1 p.2) s (intProps fedInfo) in
  foldl (λ s p, fs_setOptionFlag s p.1 p.2) s (flagProps fedInfo).

(** ** Endpoints, inputs and publications *)

Definition fs_getQueueSize s (id : interface_handle) : Z :=
  match if_getEndpoint (interfaceInformation s) id with
  | Some ept => queueSize ept (fs_time_granted s)
  | None => 0
  end.
Definition fs_getTotalQueueSize s : Z :=
  foldl (λ cnt ept, to_uint 64 (cnt + queueSize ept (fs_time_granted s))) 0
    (dm_elements (endpoints (interfaceInformation s))).

(** Update the interfaces. *)
Definition on_endpoints (f : C EndpointInfo → C EndpointInfo) s : FederateState :=
  s <| interfaceInformation :=
         (interfaceInformation s) <| endpoints := f (endpoints (interfaceInformation s)) |> |>.
Definition on_inputs (f : C InputInfo → C InputInfo) s : FederateState :=
  s <| interfaceInformation :=
         (interfaceInformation s) <| inputs := f (inputs (interfaceInformation s)) |> |>.
Definition on_publications (f : C PublicationInfo → C PublicationInfo) s : FederateState :=
  s <| interfaceInformation :=
         (interfaceInformation s)
           <| publications := f (publications (interfaceInformation s)) |> |>.

Definition fs_receive s (id : interface_handle) : FederateState * option Message :=
  match if_getEndpoint (interfaceInformation s) id with
  | Some ept =>
      let '(ept', msg) := getMessage ept (fs_time_granted s) in
      (on_endpoints (dm_alter2 (λ _, ept') id) s, msg)
  | None => (s, None)
  end.

(** The search of [receiveAny]: the position of the first endpoint with the earliest
    message, and its time. *)
Fixpoint earliestEndpoint (ind : nat) (l : list EndpointInfo) (best : option nat)
    (earliest_time : Time) : option nat * Time :=
  match l with
  | [] => (best, earliest_time)
  | ept :: l =>
      let t := firstMessageTime ept in
      if t <? earliest_time then earliestEndpoint (S ind) l (Some ind) t
      else earliestEndpoint (S ind) l best earliest_time
  end.

(** The result and the value given to the reference argument [id], [None] when it is not
    assigned. *)
Definition fs_receiveAny s : FederateState * option Message * option interface_handle :=
  let ends := endpoints (interfaceInformation s) in
  match earliestEndpoint 0 (dm_elements ends) None Time_maxVal with
  | (None, _) => (s, None, None)
  | (Some i, earliest_time) =>
      if earliest_time <=? fs_time_granted s then
        match dm_elements ends !! i with
        | Some ept =>
            let '(ept', msg) := getMessage ept (fs_time_granted s) in
            (on_endpoints (λ c, dm_assign c (<[i := ept']> (dm_elements c))) s, msg,
             Some (handle (ept_id ept)))
        | None => (s, None, None)
        end
      else (s, None, Some invalid_handle)
  end.

(** [getValue] and [getAllValues] dereference the input they find. *)
Definition fs_getValue s (id : interface_handle) : outcome (option string * Z) :=
  match if_getInput (interfaceInformation s) id with
  | Some ipt => Ok (getData ipt)
  | None => Fault
  end.
Definition fs_getAllValues s (id : interface_handle) : outcome (list (option string)) :=
  match if_getInput (interfaceInformation s) id with
  | Some ipt => Ok (getAllData ipt)
  | None => Fault
  end.

Definition checkAndSetValue s (pub_id : interface_handle) (data : string)
    : outcome (FederateState * bool) :=
  if negb (only_transmit_on_change s) then Ok (s, true)
  else
    match if_getPublication (interfaceInformation s) pub_id with
    | Some pub =>
        let '(pub', res) := CheckSetValue pub data in
        Ok (on_publications (dm_alter2 (λ _, pub') pub_id) s, res)
    | None => Fault
    end.

Definition getSubscribers s (id : interface_handle) : list global_handle :=
  match if_getPublication (interfaceInformation s) id with
  | Some pub => subscribers pub
  | None => []
  end.

Definition createInterface s (htype : handle_type) (id : interface_handle)
    (key type units : string) : FederateState :=
  let set_if (b : bool) (f : InterfaceInfo C → InterfaceInfo C * bool) ii :=
    if b then (f ii).1 else ii in
  match htype with
  | ht_publication =>
      let ii := createPublication (interfaceInformation s) id key type units in
      let ii := set_if (checkFlag (interfaceFlags s) required_flag)
                  (λ ii, setPublicationProperty ii id
                           helics_handle_option_connection_required 1) ii in
      let ii := set_if (checkFlag (interfaceFlags s) optional_flag)
                  (λ ii, setPublicationProperty ii id
                           helics_handle_option_connection_optional 1) ii in
      s <| interfaceInformation := ii |>
  | ht_input =>
      let ii := createInput (interfaceInformation s) id key type units in
      let ii := set_if (strict_input_type_checking s)
                  (λ ii, setInputProperty ii id helics_handle_option_strict_type_checking 1)
                  ii in
      let ii := set_if (fs_ignore_unit_mismatch s)
                  (λ ii, setInputProperty ii id helics_handle_option_ignore_unit_mismatch 1)
                  ii in
      let ii := set_if (checkFlag (interfaceFlags s) required_flag)
                  (λ ii, setInputProperty ii id helics_handle_option_connection_required 1)
                  ii in
      let ii := set_if (checkFlag (interfaceFlags s) optional_flag)
                  (λ ii, setInputProperty ii id helics_handle_option_connection_optional 1)
                  ii in
      s <| interfaceInformation := ii |>
  | ht_endpoint =>
      s <| interfaceInformation := createEndpoint (interfaceInformation s) id key type |>
  | _ => s
  end.

Definition setInterfaceProperty s cmd : FederateState :=
  if negb (bool_decide (action cmd = cmd_interface_configure)) then s
  else
    let value := if checkActionFlag cmd indicator_flag then getExtraDestData cmd else 0 in
    let ii := interfaceInformation s in
    match ascii_of_N (Z.to_N (to_uint 8 (counter cmd))) with
    | "i"%char =>
        s <| interfaceInformation :=
               (setInputProperty ii (dest_handle cmd) (messageID cmd) value).1 |>
    | "p"%char =>
        s <| interfaceInformation :=
               (setPublicationProperty ii (dest_handle cmd) (messageID cmd) value).1 |>
    | "e"%char =>
        s <| interfaceInformation :=
               (setEndpointProperty ii (dest_handle cmd) (messageID cmd) value).1 |>
    | _ => s
    end.

Definition fs_getHandleOption s (id : interface_handle) (iType : ascii) (opt : Z) : Z :=
  match iType with
  | "i"%char => getInputProperty (interfaceInformation s) id opt
  | "p"%char => getPublicationProperty (interfaceInformation s) id opt
  | "e"%char => getEndpointProperty (interfaceInformation s) id opt
  | _ => 0
  end.

(** [checkInterfaces]: the code of the first issue, which is also stored. *)
Definition checkInterfaces s : FederateState * Z :=
  match checkInterfacesForIssues (interfaceInformation s) with
  | [] => (s, 0)
  | (code, text) :: _ =>
      (s <| fs_errorCode := code |> <| fs_errorString := text |>, code)
  end.

Definition fs_nextValueTime s : Time :=
  foldl (λ first ipt,
    let nvt := nextValueTime ipt in
    if fs_time_granted s <=? nvt then if nvt <? first then nvt else first else first)
    Time_maxVal (dm_elements (inputs (interfaceInformation s))).
Definition nextMessageTime s : Time :=
  foldl (λ first ept,
    let messageTime := firstMessageTime ept in
    if fs_time_granted s <=? messageTime
    then if messageTime <? first then messageTime else first else first)
    Time_maxVal (dm_elements (endpoints (interfaceInformation s))).

(** The three [fillEventVector] functions: update every input and collect the handles of
    those whose value changed. *)
Definition fillEventVector (update : InputInfo → InputInfo * bool) s : FederateState :=
  let updated := update <$> dm_elements (inputs (interfaceInformation s)) in
  (on_inputs (λ c, dm_assign c updated.*1) s)
    <| fs_events := (λ r, handle (ii_id r.1)) <$>
                      base.filter (λ r : InputInfo * bool, r.2 = true) updated |>.
Definition fillEventVectorUpTo s (currentTime : Time) : FederateState :=
  fillEventVector (λ ipt, updateTimeUpTo ipt currentTime) s.
Definition fillEventVectorInclusive s (currentTime : Time) : FederateState :=
  fillEventVector (λ ipt, updateTimeInclusive ipt currentTime) s.
Definition fillEventVectorNextIteration s (currentTime : Time) : FederateState :=
  fillEventVector (λ ipt, updateTimeNextIteration ipt currentTime) s.

(** ** Delayed federates *)

Definition addFederateToDelay s (id : global_federate_id) : FederateState :=
  let delayed := delayedFederates s in
  match last delayed with
  | None => s <| delayedFederates := delayed ++ [id] |>
  | Some back =>
      if back <? id then s <| delayedFederates := delayed ++ [id] |>
      else
        let res := lower_bound Z.ltb delayed id in
        match delayed !! res with
        | None => s <| delayedFederates := delayed ++ [id] |>
        | Some x => if negb (x =? id)
                    then s <| delayedFederates := vec_insert res id delayed |> else s
        end
  end.

Definition messageShouldBeDelayed s cmd : bool :=
  let delayed := delayedFederates s in
  match delayed with
  | [] => false
  | [front] => source_id cmd =? front
  | [front; back] => (source_id cmd =? front) || (source_id cmd =? back)
  | _ =>
      match delayed !! lower_bound Z.ltb delayed (source_id cmd) with
      | Some x => x =? source_id cmd
      | None => false
      end
  end.

(** ** Effects

    An operation changes the state and may send messages to the core; it may throw, and
    the mutual recursion below is given a bound, [None] when it is not enough. *)

Definition fsM (A : Type) : Type :=
  FederateState → option (outcome (FederateState * list ActionMessage * A)).

#[export] Instance fsM_ret : MRet fsM := λ A a s, Some (Ok (s, [], a)).
#[export] Instance fsM_bind : MBind fsM := λ A B f m s,
  match m s with
  | Some (Ok (s', out, a)) =>
      match f a s' with
      | Some (Ok (s'', out', b)) => Some (Ok (s'', out ++ out', b))
      | res => res
      end
  | Some (Throw what) => Some (Throw what)
  | Some Fault => Some Fault
  | None => None
  end.

Definition fs_get : fsM FederateState := λ s, Some (Ok (s, [], s)).
Definition fs_modify (f : FederateState → FederateState) : fsM unit :=
  λ s, Some (Ok (f s, [], tt)).
Definition fs_unbounded {A} : fsM A := λ s, None.

(** [routeMessage]: to the core, or to the own queue when there is none. *)
Definition routeMessage (msg : ActionMessage) : fsM unit := λ s,
  if fs_parent s then Some (Ok (s, [msg], tt))
  else Some (Ok (s <| fs_queue := q_push msg (fs_queue s) |>, [], tt)).
Fixpoint routeAll (msgs : list ActionMessage) : fsM unit :=
  match msgs with
  | [] => mret tt
  | msg :: msgs => _ ← routeMessage msg; routeAll msgs
  end.

(** A call of the time coordinator, whose messages go through [routeMessage]. *)
Definition coord {A} (f : TimeCoordinator → outcome (TimeCoordinator * list ActionMessage * A))
    : fsM A :=
  s ← fs_get;
  match f (timeCoord s) with
  | Ok (tc, msgs, a) =>
      _ ← fs_modify (λ s, s <| timeCoord := tc |>);
      _ ← routeAll msgs;
      mret a
  | Throw what => λ _, Some (Throw what)
  | Fault => λ _, Some Fault
  end.

Definition addAction s (act : ActionMessage) : FederateState :=
  if negb (bool_decide (action act = cmd_ignore))
  then s <| fs_queue := q_push act (fs_queue s) |> else s.

Definition setProperties s cmd : FederateState :=
  if bool_decide (fs_state s = HELICS_CREATED) then
    match action cmd with
    | cmd_fed_configure_flag =>
        fs_setOptionFlag s (messageID cmd) (checkActionFlag cmd indicator_flag)
    | cmd_fed_configure_time => fs_setProperty s (messageID cmd) (actionTime cmd)
    | cmd_fed_configure_int => fs_setIntProperty s (messageID cmd) (getExtraData cmd)
    | cmd_interface_configure => setInterfaceProperty s cmd
    | _ => s
    end
  else
    match action cmd with
    | cmd_fed_configure_flag | cmd_fed_configure_time | cmd_fed_configure_int
    | cmd_interface_configure => addAction s cmd
    | _ => s
    end.

(** One message to each of some interfaces. *)
Fixpoint routeToEach (rem : ActionMessage) (dests : list global_handle) : fsM unit :=
  match dests with
  | [] => mret tt
  | d :: dests => _ ← routeMessage (setDestination rem d); routeToEach rem dests
  end.

Definition closeInterface (id : interface_handle) (type : handle_type) : fsM unit :=
  s ← fs_get;
  let ii := interfaceInformation s in
  match type with
  | ht_publication =>
      match if_getPublication ii id with
      | Some pub =>
          let rem := (setSource (newMessage cmd_remove_publication) (pub_id pub))
                       <| actionTime := fs_time_granted s |> in
          _ ← routeToEach rem (subscribers pub);
          fs_modify (on_publications (dm_alter2 (λ pub, pub <| subscribers := [] |>) id))
      | None => mret tt
      end
  | ht_endpoint =>
      match if_getEndpoint ii id with
      | Some _ => fs_modify (on_endpoints (dm_alter2 clearQueue id))
      | None => mret tt
      end
  | ht_input =>
      match if_getInput ii id with
      | Some ipt =>
          let rem := (setSource (newMessage cmd_remove_subscriber) (ii_id ipt))
                       <| actionTime := fs_time_granted s |> in
          _ ← routeToEach rem (input_sources ipt);
          fs_modify (on_inputs (dm_alter2 (λ ipt,
            clearFutureData (ipt <| input_sources := [] |>)) id))
      | None => mret tt
      end
  | _ => mret tt
  end.

(** ** The processing of one message *)

(** The case CMD_EXEC_CHECK. *)
Definition execCheck : fsM message_processing_result :=
  s ← fs_get;
  if negb (bool_decide (fs_state s = HELICS_INITIALIZING)) || timeGranted_mode s
  then mret continue_processing
  else
    grant ← coord (λ tc, Ok (checkExecEntry tc));
    match grant with
    | continue_processing => mret continue_processing
    | next_step =>
        _ ← fs_modify (λ s, (setState s HELICS_EXECUTING) <| timeGranted_mode := true |>);
        mret grant
    | _ =>
        _ ← fs_modify (λ s, s <| timeGranted_mode := true |>);
        mret grant
    end.

(** [time_granted] and [allowed_send_time] are taken from the coordinator. *)
Definition takeGrant s : FederateState :=
  s <| fs_time_granted := getGrantedTime (timeCoord s) |>
    <| allowed_send_time := allowedSendTime (timeCoord s) |>.

  (** [le]: the byte order of the host, which the messages packed by the coordinator
      depend on; [answer]: [processQueryActual]. *)
  Context (le : bool) (answer : FederateState → string → string).

(** The case CMD_TIME_CHECK; the same statements end the cases of the disconnections and
    of the errors of other federates. *)
Definition timeCheck : fsM message_processing_result :=
  s ← fs_get;
  if negb (bool_decide (fs_state s = HELICS_EXECUTING)) || timeGranted_mode s
  then mret continue_processing
  else
    ret ← coord (checkTimeGrant le);
    if returnableResult ret then
      _ ← fs_modify (λ s, (takeGrant s) <| timeGranted_mode := true |>);
      mret ret
    else mret continue_processing.

(** The switch on the result of [processTimeMessage]; [next] is what follows it. *)
Definition timeMessage cmd (next : fsM message_processing_result)
    : fsM message_processing_result :=
  res ← coord (λ tc, Ok (processTimeMessage tc cmd));
  match res with
  | delay_processing =>
      _ ← fs_modify (λ s, addFederateToDelay s (source_id cmd));
      mret delay_message
  | no_effect => mret continue_processing
  | processed => next
  end.

(** The iteration request in the flags of a request. *)
Definition requestedIteration cmd : iteration_request :=
  if checkActionFlag cmd iteration_requested_flag then
    if checkActionFlag cmd required_flag then force_iteration else iterate_if_needed
  else no_iterations.

(** A call of the coordinator that has no result besides its messages. *)
Definition coord_ (f : TimeCoordinator → TimeCoordinator * list ActionMessage) : fsM unit :=
  coord (λ tc, Ok (f tc, tt)).
Definition coordDisconnect : fsM unit :=
  coord (λ tc, '(tc, msgs) ← disconnect le tc; Ok (tc, msgs, tt)).
Definition coordLocalError : fsM unit :=
  coord (λ tc, '(tc, msgs) ← localError le tc; Ok (tc, msgs, tt)).

(** The loop of the case CMD_PUB over the sources of the input; the payload is moved to
    the first source that matches. *)
Fixpoint deliverValue cmd (data : string) (sources : list global_handle) : fsM unit :=
  match sources with
  | [] => mret tt
  | src :: sources =>
      if (source_id cmd =? fed_id src) && (source_handle cmd =? handle src) then
        _ ← fs_modify (on_inputs (dm_alter2 (λ ipt,
              addData ipt src (actionTime cmd) (counter cmd) data) (dest_handle cmd)));
        s ← fs_get;
        _ ← match if_getInput (interfaceInformation s) (dest_handle cmd) with
            | Some ipt => if not_interruptible ipt then mret tt
                          else coord_ (λ tc, updateValueTime tc (actionTime cmd))
            | None => mret tt
            end;
        deliverValue cmd "" sources
      else deliverValue cmd data sources
  end.

(** The text stored for an error. *)
Definition errorText cmd : string :=
  if String.eqb (payload cmd) "" then
    let text := commandErrorString (messageID cmd) in
    if String.eqb text "unknown" then text +:+ " code:" +:+ pretty (messageID cmd) else text
  else payload cmd.

(** The cases of the errors. *)
Definition processError cmd : fsM message_processing_result :=
  s ← fs_get;
  if bool_decide (action cmd = cmd_global_error) || (source_id cmd =? fs_global_id s)
     || (source_id cmd =? parent_broker_id) || (source_id cmd =? root_broker_id)
     || negb (dest_id cmd =? fs_global_id s)
  then
    if negb (bool_decide (fs_state s = HELICS_FINISHED))
       && negb (bool_decide (fs_state s = HELICS_TERMINATING))
    then
      _ ← (if negb (bool_decide (action cmd = cmd_global_error)) then coordLocalError
           else mret tt);
      _ ← fs_modify (λ s, (setState s HELICS_ERROR)
             <| fs_errorString := errorText cmd |> <| fs_errorCode := messageID cmd |>);
      mret mpr_error
    else mret continue_processing
  else timeMessage cmd timeCheck.

(** The cases CMD_DISCONNECT_FED and CMD_DISCONNECT, with the command as they leave it. *)
Definition processDisconnect cmd : fsM (message_processing_result * ActionMessage) :=
  s ← fs_get;
  if source_id cmd =? fs_global_id s then
    if negb (bool_decide (fs_state s = HELICS_FINISHED))
       && negb (bool_decide (fs_state s = HELICS_TERMINATING))
    then
      _ ← coordDisconnect;
      let cmd := cmd <| dest_id := parent_broker_id |> in
      _ ← fs_modify (λ s, setState s HELICS_TERMINATING);
      _ ← routeMessage cmd;
      mret (continue_processing, cmd)
    else mret (continue_processing, cmd)
  else
    ret ← timeMessage cmd timeCheck;
    mret (ret, cmd).

(** The case CMD_INIT_GRANT. *)
Definition processInitGrant : fsM message_processing_result :=
  s ← fs_get;
  if bool_decide (fs_state s = HELICS_CREATED) then
    let s := (setState s HELICS_INITIALIZING) <| timeGranted_mode := true |> in
    let '(s, pcode) := checkInterfaces s in
    if negb (pcode =? helics_ok) then
      _ ← fs_modify (λ _, setState s HELICS_ERROR);
      mret mpr_error
    else
      _ ← fs_modify (λ _, s);
      mret next_step
  else mret continue_processing.

(** The case CMD_FED_ACK. *)
Definition processFedAck cmd : fsM message_processing_result :=
  s ← fs_get;
  if negb (bool_decide (fs_state s = HELICS_CREATED)) then mret continue_processing
  else if String.eqb (payload cmd) (fs_name s) then
    if checkActionFlag cmd error_flag then
      _ ← fs_modify (λ s, (setState s HELICS_ERROR)
             <| fs_errorString := commandErrorString (messageID cmd) |>);
      mret mpr_error
    else
      _ ← fs_modify (λ s, s <| fs_global_id := dest_id cmd |>
             <| interfaceInformation := setGlobalId (interfaceInformation s) (dest_id cmd) |>
             <| timeCoord := (timeCoord s) <| tc_source_id := dest_id cmd |> |>);
      mret next_step
  else mret continue_processing.

(** The time of the removal of a source. *)
Definition removalTime s cmd : Time :=
  if negb (actionTime cmd =? timeZero) then actionTime cmd else fs_time_granted s.

(** The cases that only touch the interfaces, the coordinator's dependencies and the
    options; every one of them ends with [continue_processing]. *)
Definition processInterfaceMessage cmd : fsM unit :=
  s ← fs_get;
  let ii := interfaceInformation s in
  match action cmd with
  | cmd_close_interface =>
      if source_id cmd =? fs_global_id s
      then closeInterface (source_handle cmd) (handle_type_of_code (counter cmd))
      else mret tt
  | cmd_send_message =>
      match if_getEndpoint ii (dest_handle cmd) with
      | Some _ =>
          _ ← coord_ (λ tc, updateMessageTime tc (actionTime cmd));
          fs_modify (on_endpoints (dm_alter2 (λ ept,
            addMessage ept (createMessageFromCommand cmd)) (dest_handle cmd)))
      | None => mret tt
      end
  | cmd_pub =>
      match if_getInput ii (dest_handle cmd) with
      | Some ipt => deliverValue cmd (payload cmd) (input_sources ipt)
      | None => mret tt
      end
  | cmd_add_publisher =>
      match if_getInput ii (dest_handle cmd) with
      | Some _ =>
          fs_modify (λ s,
            (on_inputs (dm_alter2 (λ ipt,
               addSource ipt (getSource cmd) (payload cmd) (getString cmd typeStringLoc)
                 (getString cmd unitStringLoc)) (dest_handle cmd)) s)
              <| timeCoord := (tc_addDependency (timeCoord s) (source_id cmd)).1 |>)
      | None => mret tt
      end
  | cmd_add_subscriber =>
      match if_getPublication ii (dest_handle cmd) with
      | Some _ =>
          fs_modify (λ s,
            (on_publications (dm_alter2 (λ pub,
               pub <| subscribers := subscribers pub ++ [getSource cmd] |>)
               (dest_handle cmd)) s)
              <| timeCoord := (addDependent (timeCoord s) (source_id cmd)).1 |>)
      | None => mret tt
      end
  | cmd_add_dependency | cmd_remove_dependency | cmd_add_dependent | cmd_remove_dependent
  | cmd_add_interdependency | cmd_remove_interdependency =>
      if dest_id cmd =? fs_global_id s
      then fs_modify (λ s,
             s <| timeCoord := processDependencyUpdateMessage (timeCoord s) cmd |>)
      else mret tt
  | cmd_remove_named_publication =>
      fs_modify (on_inputs (dm_alter2 (λ ipt,
        removeSourceByName ipt (payload cmd) (removalTime s cmd)) (source_handle cmd)))
  | cmd_remove_publication =>
      fs_modify (on_inputs (dm_alter2 (λ ipt,
        removeSource ipt (getSource cmd) (removalTime s cmd)) (dest_handle cmd)))
  | cmd_remove_subscriber =>
      fs_modify (on_publications (dm_alter2 (λ pub,
        removeSubscriber pub (getSource cmd)) (dest_handle cmd)))
  | cmd_fed_configure_time => fs_modify (λ s, fs_setProperty s (messageID cmd) (actionTime cmd))
  | cmd_fed_configure_int =>
      fs_modify (λ s, fs_setIntProperty s (messageID cmd) (getExtraData cmd))
  | cmd_fed_configure_flag =>
      fs_modify (λ s, fs_setOptionFlag s (messageID cmd) (checkActionFlag cmd indicator_flag))
  | cmd_interface_configure => fs_modify (λ s, setInterfaceProperty s cmd)
  | cmd_query =>
      routeMessage ((newMessage cmd_query_reply) <| dest_id := source_id cmd |>
        <| source_id := dest_id cmd |> <| messageID := messageID cmd |>
        <| counter := counter cmd |> <| payload := answer s (payload cmd) |>)
  | _ => mret tt
  end.

(** *** The delay queues, for a given processing of one message *)

Definition delayQueue s (k : global_federate_id) : list ActionMessage :=
  match list_find (λ e, e.1 = k) (delayQueues s) with
  | Some (_, (_, q)) => q
  | None => []
  end.
Definition set_delayQueue s (k : global_federate_id) (q : list ActionMessage)
    : FederateState :=
  s <| delayQueues := (λ e, if e.1 =? k then (k, q) else e) <$> delayQueues s |>.

(** The loop over one delay queue, at most [n] messages after the first. *)
Fixpoint drainQueue (process : ActionMessage → fsM (message_processing_result * ActionMessage))
    (k : global_federate_id) (n : nat) : fsM message_processing_result :=
  s ← fs_get;
  match delayQueue s k with
  | [] => mret continue_processing
  | cmd :: _ =>
      if messageShouldBeDelayed s cmd then mret delay_message
      else
        '(ret, cmd') ← process cmd;
        match ret with
        | delay_message =>
            _ ← fs_modify (λ s, set_delayQueue s k (cmd' :: tail (delayQueue s k)));
            mret delay_message
        | continue_processing =>
            _ ← fs_modify (λ s, set_delayQueue s k (tail (delayQueue s k)));
            match n with
            | O => fs_unbounded
            | S n => drainQueue process k n
            end
        | _ =>
            _ ← fs_modify (λ s, set_delayQueue s k (tail (delayQueue s k)));
            mret ret
        end
  end.

(** The loop over the map of delay queues. *)
Fixpoint drainAll (process : ActionMessage → fsM (message_processing_result * ActionMessage))
    (keys : list global_federate_id) (ret_code : message_processing_result)
    : fsM message_processing_result :=
  match keys with
  | [] => mret ret_code
  | k :: keys =>
      s ← fs_get;
      ret ← drainQueue process k (length (delayQueue s k));
      if returnableResult ret then mret ret else drainAll process keys ret
  end.

Definition processDelayQueueWith
    (process : ActionMessage → fsM (message_processing_result * ActionMessage))
    : fsM message_processing_result :=
  _ ← fs_modify (λ s, s <| delayedFederates := [] |>);
  s ← fs_get;
  drainAll process (delayQueues s).*1 continue_processing.

(** [processActionMessage]: the result and the command as the call leaves it.  A request
    of the federate itself processes the delay queues, hence this function again. *)
Fixpoint processActionMessage (fuel : nat) cmd
    : fsM (message_processing_result * ActionMessage) :=
  match fuel with
  | O => fs_unbounded
  | S fuel =>
      let request (start : FederateState → fsM unit) (check : fsM message_processing_result)
          (checkAction : action_t) :=
        s ← fs_get;
        _ ← start s;
        _ ← fs_modify (λ s, s <| timeGranted_mode := false |>);
        ret ← processDelayQueueWith (processActionMessage fuel);
        if returnableResult ret then mret (ret, cmd)
        else
          ret ← check;
          mret (ret, setAction cmd checkAction) in
      let own s := (source_id cmd =? fs_global_id s) && (dest_id cmd =? parent_broker_id) in
      let result (m : fsM message_processing_result) := ret ← m; mret (ret, cmd) in
      s ← fs_get;
      match action cmd with
      | cmd_time_block | cmd_time_unblock =>
          res ← coord (λ tc, Ok (processTimeMessage tc cmd));
          s ← fs_get;
          match res with
          | processed =>
              if timeGranted_mode s then mret (continue_processing, cmd)
              else if bool_decide (fs_state s = HELICS_INITIALIZING) then
                ret ← execCheck; mret (ret, setAction cmd cmd_exec_check)
              else if bool_decide (fs_state s = HELICS_EXECUTING) then
                ret ← timeCheck; mret (ret, setAction cmd cmd_time_check)
              else mret (continue_processing, cmd)
          | _ => mret (continue_processing, cmd)
          end
      | cmd_init_grant => result processInitGrant
      | cmd_exec_request =>
          if own s then
            request (λ _, coord_ (λ tc, enteringExecMode tc (requestedIteration cmd)))
              execCheck cmd_exec_check
          else result (timeMessage cmd execCheck)
      | cmd_exec_grant => result (timeMessage cmd execCheck)
      | cmd_exec_check => result execCheck
      | cmd_terminate_immediately =>
          _ ← fs_modify (λ s, setState s HELICS_FINISHED);
          mret (halted, cmd)
      | cmd_stop =>
          _ ← fs_modify (λ s, setState s HELICS_FINISHED);
          _ ← coordDisconnect;
          mret (halted, cmd)
      | cmd_disconnect_fed_ack =>
          if (dest_id cmd =? fs_global_id s) && (source_id cmd =? parent_broker_id) then
            _ ← (if negb (bool_decide (fs_state s = HELICS_FINISHED))
                    && negb (bool_decide (fs_state s = HELICS_TERMINATING))
                 then coordDisconnect else mret tt);
            _ ← fs_modify (λ s, setState s HELICS_FINISHED);
            mret (halted, cmd)
          else mret (continue_processing, cmd)
      | cmd_disconnect_fed | cmd_disconnect => processDisconnect cmd
      | cmd_broadcast_disconnect | cmd_disconnect_broker | cmd_disconnect_core =>
          result (timeMessage cmd timeCheck)
      | cmd_time_request =>
          if own s then
            request (λ s, coord_ (λ tc, timeRequest tc (actionTime cmd)
                       (requestedIteration cmd) (fs_nextValueTime s) (nextMessageTime s)))
              timeCheck cmd_time_check
          else result (timeMessage cmd timeCheck)
      | cmd_time_grant => result (timeMessage cmd timeCheck)
      | cmd_time_check => result timeCheck
      | cmd_force_time_grant =>
          if actionTime cmd <? fs_time_granted s then mret (continue_processing, cmd)
          else
            _ ← coord (λ tc, Ok (processTimeMessage tc cmd));
            _ ← fs_modify (λ s, (takeGrant s) <| timeGranted_mode := true |>);
            mret (next_step, cmd)
      | cmd_warning => mret (continue_processing, cmd <| payload := errorText cmd |>)
      | cmd_error | cmd_local_error | cmd_global_error => result (processError cmd)
      | cmd_fed_ack => result (processFedAck cmd)
      | _ =>
          _ ← processInterfaceMessage cmd;
          mret (continue_processing, cmd)
      end
  end.

Definition processDelayQueue (fuel : nat) : fsM message_processing_result :=
  processDelayQueueWith (processActionMessage fuel).

(** ** The processing of the queue *)

(** [delayQueues[k].push_back(cmd)] *)
Fixpoint map_push (k : global_federate_id) cmd
    (m : list (global_federate_id * list ActionMessage))
    : list (global_federate_id * list ActionMessage) :=
  match m with
  | [] => [(k, [cmd])]
  | (k', q) :: m' =>
      if k <? k' then (k, [cmd]) :: m
      else if k =? k' then (k', q ++ [cmd]) :: m'
      else (k', q) :: map_push k cmd m'
  end.
Definition pushDelay s (k : global_federate_id) cmd : FederateState :=
  s <| delayQueues := map_push k cmd (delayQueues s) |>.

(** The loop of [processQueue], for at most [n] messages: the result with the flag
    [error_cmd], or [None] when the queue is empty and the loop waits. *)
Fixpoint queueLoop
    (process : ActionMessage → fsM (message_processing_result * ActionMessage)) (n : nat)
    (ret_code : message_processing_result) (error_cmd : bool)
    : fsM (option (message_processing_result * bool)) :=
  if returnableResult ret_code then mret (Some (ret_code, error_cmd))
  else
    s ← fs_get;
    match q_pop (fs_queue s), n with
    | None, _ => mret None
    | Some _, O => fs_unbounded
    | Some (cmd, queue), S n =>
        _ ← fs_modify (λ s, s <| fs_queue := queue |>);
        if messageShouldBeDelayed s cmd then
          _ ← fs_modify (λ s, pushDelay s (source_id cmd) cmd);
          queueLoop process n ret_code error_cmd
        else
          '(ret, cmd) ← process cmd;
          _ ← (if bool_decide (ret = delay_message)
               then fs_modify (λ s, pushDelay s (source_id cmd) cmd) else mret tt);
          queueLoop process n ret
            (error_cmd
             || bool_decide (ret = mpr_error) && bool_decide (action cmd = cmd_global_error))
    end.

(** What follows the loop. *)
Definition finishQueue (initError : bool) (ret_code : message_processing_result)
    (error_cmd : bool) : fsM message_processing_result :=
  s ← fs_get;
  _ ← (if bool_decide (ret_code = mpr_error) && bool_decide (fs_state s = HELICS_ERROR)
          && negb initError && negb error_cmd && fs_parent s
       then
         _ ← (if terminate_on_error s then mret tt else coordLocalError);
         routeMessage
           ((newMessage (if terminate_on_error s then cmd_global_error else cmd_local_error))
              <| source_id := fs_global_id s |> <| dest_id := parent_broker_id |>
              <| messageID := fs_errorCode s |> <| payload := fs_errorString s |>)
       else mret tt);
  mret (if initError then mpr_error else ret_code).

(** [processQueue]; [None] when it waits for another message. *)
Definition processQueueWith
    (process : ActionMessage → fsM (message_processing_result * ActionMessage)) (fuel n : nat)
    : fsM (option message_processing_result) :=
  s ← fs_get;
  if bool_decide (fs_state s = HELICS_FINISHED) then mret (Some halted)
  else
    let initError := bool_decide (fs_state s = HELICS_ERROR) in
    ret_code ← processDelayQueue fuel;
    res ← queueLoop process n ret_code false;
    match res with
    | None => mret None
    | Some (ret_code, error_cmd) =>
        ret ← finishQueue initError ret_code error_cmd;
        mret (Some ret)
    end.

Definition processQueue (fuel n : nat) : fsM (option message_processing_result) :=
  processQueueWith (processActionMessage fuel) fuel n.

(** ** The calls of the federate

    [iteration_result] has the values of the results that make [processQueue] return, and
    the casts keep the value.  Each call takes the lock of the federate; [later] are the
    messages that arrive during the call, after the one the call itself adds. *)

Definition arrive (later : list ActionMessage) s : FederateState := foldl addAction s later.

Definition waitSetup (fuel n : nat) (later : list ActionMessage)
    : fsM (option message_processing_result) :=
  _ ← fs_modify (arrive later);
  processQueue fuel n.

Definition enterInitializingMode (fuel n : nat) (later : list ActionMessage)
    : fsM (option message_processing_result) :=
  _ ← fs_modify (arrive later);
  ret ← processQueue fuel n;
  _ ← (if bool_decide (ret = Some next_step) then
         fs_modify (λ s, s <| fs_time_granted := initialTime |>
                           <| allowed_send_time := initialTime |>)
       else mret tt);
  mret ret.

Definition enterExecutingMode (fuel n : nat) (iterate : iteration_request)
    (later : list ActionMessage) : fsM (option message_processing_result) :=
  _ ← fs_modify (λ s,
    arrive later (addAction s
      (setIterationFlags ((newMessage cmd_exec_request) <| source_id := fs_global_id s |>)
         iterate)));
  res ← processQueue fuel n;
  match res with
  | None => mret None
  | Some ret =>
      _ ← (if bool_decide (ret = next_step) then
             fs_modify (λ s, s <| fs_time_granted := timeZero |>
                               <| allowed_send_time := allowedSendTime (timeCoord s) |>)
           else mret tt);
      _ ← fs_modify (λ s,
        match iterate with
        | force_iteration => fillEventVectorNextIteration s (fs_time_granted s)
        | iterate_if_needed =>
            if bool_decide (ret = next_step) then fillEventVectorUpTo s (fs_time_granted s)
            else fillEventVectorNextIteration s (fs_time_granted s)
        | no_iterations => fillEventVectorUpTo s (fs_time_granted s)
        end);
      mret (Some ret)
  end.

(** [requestTime]: the granted time and the result. *)
Definition requestTime (fuel n : nat) (nextTime : Time) (iterate : iteration_request)
    (later : list ActionMessage) : fsM (option (Time * message_processing_result)) :=
  _ ← fs_modify (λ s,
    arrive later (addAction (s <| fs_events := [] |>)
      (setIterationFlags ((newMessage cmd_time_request) <| source_id := fs_global_id s |>
                            <| actionTime := nextTime |>) iterate)));
  res ← processQueue fuel n;
  match res with
  | None => mret None
  | Some ret =>
      _ ← fs_modify (λ s, (takeGrant s) <| fs_iterating := bool_decide (ret = mpr_iterating) |>);
      s ← fs_get;
      let granted := fs_time_granted s in
      _ ← fs_modify (λ s,
        match iterate with
        | force_iteration => fillEventVectorNextIteration s granted
        | iterate_if_needed =>
            if granted <? nextTime then fillEventVectorNextIteration s granted
            else fillEventVectorUpTo s granted
        | no_iterations =>
            if granted <? nextTime then fillEventVectorInclusive s granted
            else fillEventVectorUpTo s granted
        end);
      mret (Some (granted, ret))
  end.

Definition genericUnspecifiedQueueProcess (fuel n : nat) (later : list ActionMessage)
    : fsM (option message_processing_result) :=
  _ ← fs_modify (arrive later);
  res ← processQueue fuel n;
  match res with
  | None => mret None
  | Some ret => _ ← fs_modify takeGrant; mret (Some ret)
  end.

(** [finalize], at most [k] turns of its loop; [later] are the messages that arrive during
    each turn.  [false] when it waits. *)
Fixpoint finalizeLoop (k fuel n : nat) (later : list (list ActionMessage)) : fsM bool :=
  match k with
  | O => fs_unbounded
  | S k =>
      res ← genericUnspecifiedQueueProcess fuel n (default [] (head later));
      match res with
      | None => mret false
      | Some halted => mret true
      | Some mpr_error => mret true
      | Some _ => finalizeLoop k fuel n (tail later)
      end
  end.
Definition finalize (k fuel n : nat) (later : list (list ActionMessage)) : fsM bool :=
  s ← fs_get;
  if bool_decide (fs_state s = HELICS_FINISHED) || bool_decide (fs_state s = HELICS_ERROR)
  then mret true
  else finalizeLoop k fuel n later.

(** The other branch of the calls: another thread holds the lock when the call starts,
    and the state is looked at once it has been released.  In the created state the first
    two call themselves while holding the lock they then wait for: [None]. *)
Definition waitSetup_contended s : option message_processing_result :=
  match fs_state s with
  | HELICS_CREATED => None
  | HELICS_ERROR => Some mpr_error
  | HELICS_FINISHED => Some halted
  | _ => Some next_step
  end.
Definition enterInitializingMode_contended s : option message_processing_result :=
  match fs_state s with
  | HELICS_ERROR => Some mpr_error
  | HELICS_FINISHED => Some halted
  | HELICS_CREATED => None
  | _ => Some next_step
  end.
Definition enterExecutingMode_contended s : message_processing_result :=
  match fs_state s with
  | HELICS_ERROR => mpr_error
  | HELICS_FINISHED => halted
  | HELICS_EXECUTING => next_step
  | _ => mpr_iterating
  end.
Definition requestTime_contended s : Time * message_processing_result :=
  (fs_time_granted s,
   match fs_state s with
   | HELICS_FINISHED => halted
   | HELICS_ERROR => mpr_error
   | _ => if fs_iterating s then mpr_iterating else next_step
   end).

End federate.

Arguments FederateState : clear implicits.
