(* ===== verification/FederateFacts.v ===== *)
(** * Properties of the federate state machine

    The life cycle of a federate never goes back, and a granted time leaves no value
    behind.  The proofs go through a weakest-precondition calculus for the operations of
    FederateState.v. *)

From S2P Require Import Prelude HelicsTime Ids Flags ActionMessage MessageCodec.
From S2P Require Import Definitions TimeDependencies TimeCoordinator HandleManager.
From S2P Require Import InputInfo InputFacts Interfaces InterfaceInfo FederateState.

(** ** Weakest preconditions *)

Section wp.
  Context `{TimeRep} `{DualMapped C} `{UnitsLib} `{Fmt} `{BlockingQueue Q}.
  Abbreviation FS := (FederateState C Q).
  Implicit Types (s : FS) (cmd : ActionMessage).

(** Every normal result satisfies the postcondition. *)
Definition wp {A} (m : fsM A) s (P : FS → A → Prop) : Prop :=
  ∀ s' out a, m s = Some (Ok (s', out, a)) → P s' a.

Lemma wp_mono {A} (m : fsM A) s (P P' : FS → A → Prop) :
  wp m s P → (∀ s' a, P s' a → P' s' a) → wp m s P'.
Proof. intros Hm HP s' out a E. eauto. Qed.

Lemma wp_and {A} (m : fsM A) s (P P' : FS → A → Prop) :
  wp m s P → wp m s P' → wp m s (λ s' a, P s' a ∧ P' s' a).
Proof. intros Hm Hm' s' out a E. split; eauto. Qed.

Lemma wp_elim {A} (P : FS → A → Prop) (m : fsM A) s s' out a :
  wp m s P → m s = Some (Ok (s', out, a)) → P s' a.
Proof. intros Hm. apply Hm. Qed.

Lemma wp_ret {A} (a : A) s (P : FS → A → Prop) : P s a → wp (mret a) s P.
Proof. intros HP s' out a' E. by injection E as <- _ <-. Qed.

Lemma wp_bind {A B} (m : fsM A) (f : A → fsM B) s P :
  wp m s (λ s' a, wp (f a) s' P) → wp (m ≫= f) s P.
Proof.
  intros Hm s' out b E. unfold mbind, fsM_bind in E.
  destruct (m s) as [[[[s1 out1] a]| |]|] eqn:E1; try done.
  specialize (Hm s1 out1 a E1).
  destruct (f a s1) as [[[[s2 out2] b']| |]|] eqn:E2; try done.
  injection E as <- _ <-. by eapply Hm.
Qed.

Lemma wp_get s (P : FS → FS → Prop) : P s s → wp fs_get s P.
Proof. intros HP s' out a E. by injection E as <- _ <-. Qed.

Lemma wp_modify f s (P : FS → unit → Prop) : P (f s) tt → wp (fs_modify f) s P.
Proof. intros HP s' out a E. by injection E as <- _ <-. Qed.

Lemma wp_unbounded {A} s (P : FS → A → Prop) : wp fs_unbounded s P.
Proof. by intros s' out a E. Qed.

Lemma set_queue_id s : s <| fs_queue := fs_queue s |> = s.
Proof. by destruct s. Qed.

Lemma wp_route msg s (P : FS → unit → Prop) :
  (∀ q, P (s <| fs_queue := q |>) tt) → wp (routeMessage msg) s P.
Proof.
  intros HP s' out a E. unfold routeMessage in E.
  destruct (fs_parent s); injection E as <- _ <-; [|apply HP].
  rewrite <-(set_queue_id s). apply HP.
Qed.

Lemma set_queue_twice s q q' :
  (s <| fs_queue := q |>) <| fs_queue := q' |> = s <| fs_queue := q' |>.
Proof. done. Qed.

Lemma wp_routeAll msgs s (P : FS → unit → Prop) :
  (∀ q, P (s <| fs_queue := q |>) tt) → wp (routeAll msgs) s P.
Proof.
  revert s. induction msgs as [|msg msgs IH]; intros s HP; cbn [routeAll].
  - apply wp_ret. rewrite <-(set_queue_id s). apply HP.
  - apply wp_bind, wp_route. intros q. apply IH. intros q'. apply HP.
Qed.

Lemma wp_routeToEach rem dests s (P : FS → unit → Prop) :
  (∀ q, P (s <| fs_queue := q |>) tt) → wp (routeToEach rem dests) s P.
Proof.
  revert s. induction dests as [|d dests IH]; intros s HP; cbn [routeToEach].
  - apply wp_ret. rewrite <-(set_queue_id s). apply HP.
  - apply wp_bind, wp_route. intros q. apply IH. intros q'. apply HP.
Qed.

Lemma wp_coord {A} (f : TimeCoordinator → outcome (TimeCoordinator * list ActionMessage * A))
    s (P : FS → A → Prop) :
  (∀ tc msgs a q, f (timeCoord s) = Ok (tc, msgs, a) →
     P ((s <| timeCoord := tc |>) <| fs_queue := q |>) a) →
  wp (coord f) s P.
Proof.
  intros HP. unfold coord. apply wp_bind, wp_get.
  destruct (f (timeCoord s)) as [[[tc msgs] a]| |] eqn:E; [|by intros s' out a E'..].
  apply wp_bind, wp_modify, wp_bind, wp_routeAll. intros q. apply wp_ret. eauto.
Qed.

End wp.

(** One step of symbolic execution. *)
Ltac wp_step :=
  match goal with
  | |- wp (mret _) _ _ => apply wp_ret
  | |- wp (_ ≫= _) _ _ => apply wp_bind
  | |- wp fs_get _ _ => apply wp_get
  | |- wp (fs_modify _) _ _ => apply wp_modify
  | |- wp fs_unbounded _ _ => apply wp_unbounded
  | |- wp (routeMessage _) _ _ => apply wp_route; intros ?q
  | |- wp (routeAll _) _ _ => apply wp_routeAll; intros ?q
  | |- wp (routeToEach _ _) _ _ => apply wp_routeToEach; intros ?q
  | |- wp (coord _) _ _ => apply wp_coord; intros ?tc ?msgs ?a ?q ?Ecoord
  | |- wp (if ?b then _ else _) _ _ => destruct b eqn:?
  | |- wp (match ?x with _ => _ end) _ _ => destruct x eqn:?
  end.

(** ** Relations kept by the processing of messages *)

(** The order of the life cycle. *)
Definition state_rank (st : federate_state) : Z :=
  match st with
  | HELICS_CREATED | HELICS_UNKNOWN => 0
  | HELICS_INITIALIZING => 1
  | HELICS_EXECUTING => 2
  | HELICS_ERROR => 3
  | HELICS_TERMINATING => 4
  | HELICS_FINISHED => 5
  end.

Section relations.
  Context `{TimeRep} `{DualMapped C} `{UnitsLib} `{Fmt} `{BlockingQueue Q}.
  Context (le : bool) (answer : FederateState C Q → string → string).
  Abbreviation FS := (FederateState C Q).
  Abbreviation M := (fsM (C := C) (Q := Q)).
  Implicit Types (s : FS) (cmd : ActionMessage).

(** A step along the life cycle that leaves the inputs alone. *)
Definition onward s s' : Prop :=
  state_rank (fs_state s) ≤ state_rank (fs_state s') ∧
  inputs (interfaceInformation s') = inputs (interfaceInformation s).

  Context (R : FS → FS → Prop) `{!PreOrder R} (HR : ∀ s s', onward s s' → R s s').

Lemma R_same s s' :
  fs_state s' = fs_state s → inputs (interfaceInformation s') = inputs (interfaceInformation s) →
  R s s'.
Proof. intros Hs Hi. apply HR. split; [by rewrite Hs|done]. Qed.

Lemma wp_trans {A} (m : M A) s s1 :
  R s s1 → wp m s1 (λ s' _, R s1 s') → wp m s1 (λ s' _, R s s').
Proof. intros Hs Hm. eapply wp_mono; [exact Hm|]. intros s' a Hs'. by etrans. Qed.

Section drain.
  Context (process : ActionMessage → M (message_processing_result * ActionMessage)).
  Context (Hprocess : ∀ cmd s, wp (process cmd) s (λ s' _, R s s')).

Lemma drainQueue_R k n s : wp (drainQueue process k n) s (λ s' _, R s s').
Proof.
  revert s. induction n as [|n IH]; intros s; cbn [drainQueue];
    repeat wp_step; try done;
    (eapply wp_mono; [apply Hprocess|]); intros s' [ret cmd'] Hs'; repeat wp_step;
    try (etrans; [exact Hs'|by apply R_same]).
  apply wp_trans; [|apply IH]. etrans; [exact Hs'|by apply R_same].
Qed.

Lemma drainAll_R keys ret s : wp (drainAll process keys ret) s (λ s' _, R s s').
Proof.
  revert ret s. induction keys as [|k keys IH]; intros ret s; cbn [drainAll];
    repeat wp_step; [done|]. eapply wp_mono; [apply drainQueue_R|].
  intros s' ret' Hs'. repeat wp_step; [done|]. by apply wp_trans.
Qed.

Lemma processDelayQueueWith_R s : wp (processDelayQueueWith process) s (λ s' _, R s s').
Proof.
  unfold processDelayQueueWith. repeat wp_step.
  apply wp_trans; [by apply R_same|apply drainAll_R].
Qed.

Lemma queueLoop_R n ret error_cmd s :
  wp (queueLoop process n ret error_cmd) s (λ s' _, R s s').
Proof.
  revert ret error_cmd s. induction n as [|n IH]; intros ret error_cmd s; cbn [queueLoop];
    repeat wp_step; try done.
  - apply wp_trans; [by apply R_same|apply IH].
  - match goal with |- wp _ ?s1 _ => set (s1' := s1) end.
    eapply wp_mono; [apply Hprocess|]. intros s2 [ret' cmd'] Hs2.
    assert (R s s2) by (transitivity s1'; [by apply R_same|exact Hs2]).
    repeat wp_step; (apply wp_trans; [|apply IH]); [|done].
    etrans; [done|by apply R_same].
Qed.
End drain.

Lemma setState_onward s st :
  state_rank (fs_state s) ≤ state_rank st ∨ st = HELICS_EXECUTING ∨ st = HELICS_INITIALIZING →
  onward s (setState s st).
Proof.
  intros Hst. unfold setState. case_bool_decide as E; [by split|].
  destruct st; try (case_bool_decide as E'); try (by split);
    split; try done; cbn [fs_state upd] in *; rewrite ?E'; cbn in *;
    destruct Hst as [|[|]]; done || lia.
Qed.

(** [setState] between updates of members other than the state and the inputs. *)
Lemma R_setState s1 st s s' :
  fs_state s1 = fs_state s → inputs (interfaceInformation s1) = inputs (interfaceInformation s) →
  state_rank (fs_state s) ≤ state_rank st ∨ st = HELICS_EXECUTING ∨ st = HELICS_INITIALIZING →
  fs_state s' = fs_state (setState s1 st) →
  inputs (interfaceInformation s') = inputs (interfaceInformation (setState s1 st)) →
  R s s'.
Proof.
  intros Hs1 Hi1 Hst Hs Hi. apply HR. rewrite <-Hs1 in Hst.
  destruct (setState_onward s1 st Hst) as [Hr Hin].
  split; rewrite ?Hs, ?Hi, <-?Hs1; congruence.
Qed.

(** Leaves of the execution: the state and the inputs are the ones at the start. *)
Ltac R_leaf := repeat wp_step; try (by apply R_same).

Lemma execCheck_R s : wp execCheck s (λ s' _, R s s').
Proof.
  unfold execCheck. R_leaf. eapply R_setState; [| |right; by left|reflexivity..]; done.
Qed.

Lemma timeCheck_R s : wp (timeCheck le) s (λ s' _, R s s').
Proof. unfold timeCheck. R_leaf. Qed.

Lemma addFederateToDelay_same s id :
  fs_state (addFederateToDelay s id) = fs_state s ∧
  interfaceInformation (addFederateToDelay s id) = interfaceInformation s.
Proof.
  unfold addFederateToDelay. destruct (last _); [|done]. destruct (_ <? _); [done|].
  destruct (_ !! _); [|done]. by destruct (negb _).
Qed.

Lemma timeMessage_R cmd next s :
  (∀ s, wp next s (λ s' _, R s s')) → wp (timeMessage cmd next) s (λ s' _, R s s').
Proof.
  intros Hnext. unfold timeMessage. R_leaf.
  - apply wp_trans; [by apply R_same|apply Hnext].
  - match goal with |- R _ (addFederateToDelay ?s1 ?id) =>
      destruct (addFederateToDelay_same s1 id) as [E1 E2] end.
    apply R_same; [by rewrite E1|by rewrite E2].
Qed.

Lemma not_over s :
  negb (bool_decide (fs_state s = HELICS_FINISHED))
  && negb (bool_decide (fs_state s = HELICS_TERMINATING)) = true →
  state_rank (fs_state s) ≤ 3.
Proof.
  intros [Hf Ht]%andb_true_iff. apply negb_true_iff, bool_decide_eq_false in Hf, Ht.
  by destruct (fs_state s).
Qed.

Lemma processError_R cmd s : wp (processError le cmd) s (λ s' _, R s s').
Proof.
  unfold processError, coordLocalError. R_leaf.
  - eapply R_setState; [| | |reflexivity..]; [done..|]. left. by apply not_over.
  - eapply R_setState; [| | |reflexivity..]; [done..|]. left. by apply not_over.
  - by apply timeMessage_R, timeCheck_R.
Qed.

Lemma processDisconnect_R cmd s : wp (processDisconnect le cmd) s (λ s' _, R s s').
Proof.
  unfold processDisconnect, coordDisconnect. R_leaf.
  - eapply R_setState; [| | |reflexivity..]; [done..|]. left.
    match goal with E : negb _ && negb _ = true |- _ => apply not_over in E end. cbn. lia.
  - eapply wp_mono; [by apply timeMessage_R, timeCheck_R|]. intros s' ret Hs'. by wp_step.
Qed.

Lemma checkInterfaces_same s :
  fs_state (checkInterfaces s).1 = fs_state s ∧
  interfaceInformation (checkInterfaces s).1 = interfaceInformation s.
Proof. unfold checkInterfaces. by destruct (checkInterfacesForIssues _) as [|[]]. Qed.

Lemma processInitGrant_R s : wp processInitGrant s (λ s' _, R s s').
Proof.
  unfold processInitGrant. apply wp_bind, wp_get. case_bool_decide as E; [|R_leaf].
  set (s1 := (setState s HELICS_INITIALIZING) <| timeGranted_mode := true |>).
  destruct (checkInterfaces_same s1) as [E1 E2].
  assert (R s (checkInterfaces s1).1) as Hs1.
  { apply (R_setState s HELICS_INITIALIZING); [done..|right; by right|by rewrite E1|by rewrite E2]. }
  cbv zeta. destruct (checkInterfaces s1) as [s2 pcode]. cbn [fst] in *.
  R_leaf; [|exact Hs1]. etrans; [exact Hs1|].
  eapply R_setState; [| | |reflexivity..]; [done..|]. left. rewrite E1.
  unfold s1. change (fs_state _) with (fs_state (setState s HELICS_INITIALIZING)).
  unfold setState. rewrite E, bool_decide_false, bool_decide_true by done. cbn. lia.
Qed.

Lemma processFedAck_R cmd s : wp (processFedAck cmd) s (λ s' _, R s s').
Proof.
  unfold processFedAck. R_leaf. eapply R_setState; [| | |reflexivity..]; [done..|]. left.
  match goal with E : negb (bool_decide _) = false |- _ =>
    apply negb_false_iff, bool_decide_eq_true in E as -> end. cbn. lia.
Qed.


  Context (Hiface : ∀ cmd s, wp (processInterfaceMessage answer cmd) s (λ s' _, R s s')).

(** The result of a case with the command unchanged. *)
Lemma wp_result {A B} (m : M A) (f : A → B) s :
  wp m s (λ s' _, R s s') → wp (ret ← m; mret (f ret)) s (λ s' _, R s s').
Proof.
  intros Hm. apply wp_bind. eapply wp_mono; [exact Hm|]. intros s' a Hs'. by wp_step.
Qed.

Lemma R_finished s1 s s' :
  fs_state s1 = fs_state s → inputs (interfaceInformation s1) = inputs (interfaceInformation s) →
  fs_state s' = fs_state (setState s1 HELICS_FINISHED) →
  inputs (interfaceInformation s') = inputs (interfaceInformation (setState s1 HELICS_FINISHED)) →
  R s s'.
Proof. intros Hs Hi. apply R_setState; [done..|]. left. destruct (fs_state s); cbn; lia. Qed.

Lemma then_ret_R {A B} (m : M A) (f : A → B) s s1 :
  (∀ s, wp m s (λ s' _, R s s')) → R s s1 →
  wp m s1 (λ s2 a, wp (mret (f a)) s2 (λ s' _, R s s')).
Proof.
  intros Hm Hs. eapply wp_mono; [apply wp_trans; [exact Hs|apply Hm]|].
  intros s2 a Hs2. by wp_step.
Qed.

(** A request of the federate, once the coordinator has been told. *)
Lemma request_R fuel check cmd cmd' s s1 :
  (∀ cmd s, wp (processActionMessage le answer fuel cmd) s (λ s' _, R s s')) →
  (∀ s, wp check s (λ s' _, R s s')) → R s s1 →
  wp (processDelayQueueWith (processActionMessage le answer fuel)) s1 (λ s2 ret,
    wp (if returnableResult ret then mret (ret, cmd)
        else ret ← check; mret (ret, cmd')) s2 (λ s' _, R s s')).
Proof.
  intros IH Hcheck Hs.
  eapply wp_mono; [apply wp_trans, processDelayQueueWith_R; [exact Hs|exact IH]|].
  intros s2 ret Hs2. wp_step; [by wp_step|]. apply wp_trans; [done|]. by apply wp_result.
Qed.

Lemma processActionMessage_R fuel cmd s :
  wp (processActionMessage le answer fuel cmd) s (λ s' _, R s s').
Proof.
  revert cmd s. induction fuel as [|fuel IH]; intros cmd s; [apply wp_unbounded|].
  cbn [processActionMessage]. apply wp_bind, wp_get. unfold coordDisconnect, coord_.
  destruct (action cmd);
    first
      [ apply wp_result;
        first [ apply execCheck_R | apply timeCheck_R | apply processInitGrant_R
              | apply processError_R | apply processFedAck_R
              | apply timeMessage_R; intros; first [apply execCheck_R|apply timeCheck_R] ]
      | apply processDisconnect_R
      | apply wp_bind; eapply wp_mono; [apply Hiface|]; intros; by wp_step
      | idtac ].
  all: repeat wp_step; try (by apply R_same);
    try (by eapply R_finished; [| |reflexivity..]).
  all: first
    [ apply request_R; [exact IH|first [exact execCheck_R|exact timeCheck_R]|by apply R_same]
    | apply then_ret_R; [|by apply R_same];
      first [ exact execCheck_R | exact timeCheck_R
            | intros; apply timeMessage_R; first [exact execCheck_R|exact timeCheck_R] ] ].
Qed.

Lemma finishQueue_R initError ret error_cmd s :
  wp (finishQueue le initError ret error_cmd) s (λ s' _, R s s').
Proof. unfold finishQueue, coordLocalError. R_leaf. Qed.

Lemma processQueue_R fuel n s : wp (processQueue le answer fuel n) s (λ s' _, R s s').
Proof.
  unfold processQueue, processQueueWith, processDelayQueue. repeat wp_step; [done|].
  eapply wp_mono; [apply processDelayQueueWith_R, processActionMessage_R|].
  intros s1 ret Hs1. wp_step.
  eapply wp_mono; [apply wp_trans; [exact Hs1|apply queueLoop_R, processActionMessage_R]|].
  intros s2 [[ret' error_cmd]|] Hs2; [|by wp_step].
  apply wp_trans; [done|]. apply wp_bind. apply then_ret_R; [|done].
  intros. apply finishQueue_R.
Qed.

End relations.

(** ** The life cycle *)

Section lifecycle.
  Context `{TimeRep} `{DualMapped C} `{UnitsLib} `{Fmt} `{BlockingQueue Q}.
  Context (le : bool) (answer : FederateState C Q → string → string).
  Abbreviation FS := (FederateState C Q).
  Implicit Types (s : FS) (cmd : ActionMessage).

Definition ranked s s' : Prop := state_rank (fs_state s) ≤ state_rank (fs_state s').

#[local] Instance ranked_preorder : PreOrder ranked.
Proof. split; unfold ranked; [intros ?; lia|intros ???; lia]. Qed.

Lemma ranked_same s s' : fs_state s' = fs_state s → ranked s s'.
Proof. unfold ranked. by intros ->. Qed.

Lemma setters_state s :
  (∀ p v, fs_state (fs_setProperty s p v) = fs_state s) ∧
  (∀ p v, fs_state (fs_setIntProperty s p v) = fs_state s) ∧
  (∀ f v, fs_state (fs_setOptionFlag s f v) = fs_state s) ∧
  (∀ cmd, fs_state (setInterfaceProperty s cmd) = fs_state s).
Proof.
  split; [|split; [|split]].
  - intros p v. unfold fs_setProperty. by repeat case_match.
  - intros p v. unfold fs_setIntProperty. by repeat case_match.
  - intros f v. unfold fs_setOptionFlag. by repeat case_match.
  - intros cmd. unfold setInterfaceProperty. by repeat case_match.
Qed.

Lemma closeInterface_state id type s :
  wp (closeInterface id type) s (λ s' _, fs_state s' = fs_state s).
Proof. unfold closeInterface. by repeat wp_step. Qed.

Lemma deliverValue_state cmd data sources s :
  wp (deliverValue cmd data sources) s (λ s' _, fs_state s' = fs_state s).
Proof.
  revert data s. induction sources as [|src sources IH]; intros data s; cbn [deliverValue];
    unfold coord_; [by wp_step|]. wp_step; [|apply IH].
  repeat wp_step; (eapply wp_mono; [apply IH|]); by intros s' _ ->.
Qed.

Lemma processInterfaceMessage_state cmd s :
  wp (processInterfaceMessage answer cmd) s (λ s' _, fs_state s' = fs_state s).
Proof.
  destruct (setters_state s) as (H1' & H2' & H3' & H4').
  unfold processInterfaceMessage, coord_. apply wp_bind, wp_get. cbv zeta.
  destruct (action cmd); repeat wp_step; try done;
    first [apply closeInterface_state|apply deliverValue_state|eauto].
Qed.

Lemma execCheck_ranked s : wp execCheck s (λ s' _, ranked s s').
Proof. apply execCheck_R. by intros s1 s2 [? _]. Qed.

Lemma timeCheck_ranked s : wp (timeCheck le) s (λ s' _, ranked s s').
Proof. apply timeCheck_R. by intros s1 s2 [? _]. Qed.

Lemma processActionMessage_ranked fuel cmd s :
  wp (processActionMessage le answer fuel cmd) s (λ s' _, ranked s s').
Proof.
  apply processActionMessage_R; [apply _|by intros s1 s2 [? _]|].
  intros cmd' s1. eapply wp_mono; [apply processInterfaceMessage_state|].
  intros s2 a. apply ranked_same.
Qed.

Lemma processQueue_ranked fuel n s :
  wp (processQueue le answer fuel n) s (λ s' _, ranked s s').
Proof.
  apply processQueue_R; [apply _|by intros s1 s2 [? _]|].
  intros cmd s1. eapply wp_mono; [apply processInterfaceMessage_state|].
  intros s2 a. apply ranked_same.
Qed.

Lemma arrive_state later s : fs_state (arrive later s) = fs_state s.
Proof.
  revert s. induction later as [|m later IH]; intros s; [done|]. cbn [arrive foldl].
  etrans; [apply IH|]. unfold addAction. by case_match.
Qed.

Lemma addAction_state s m : fs_state (addAction s m) = fs_state s.
Proof. unfold addAction. by case_match. Qed.

(** A call processes the queue after adding to it, and then leaves the state. *)
Lemma processQueue_after fuel n s s1 :
  fs_state s1 = fs_state s → wp (processQueue le answer fuel n) s1 (λ s' _, ranked s s').
Proof.
  intros Hs1. eapply wp_mono; [apply processQueue_ranked|].
  intros s' a. unfold ranked. by rewrite Hs1.
Qed.

(** The steps of a federate: the calls, for any messages that arrive during them, and the
    operations made between calls. *)
Inductive fed_step s : FS → Prop :=
  | step_waitSetup fuel n later s' out res :
      waitSetup le answer fuel n later s = Some (Ok (s', out, res)) → fed_step s s'
  | step_enterInitializingMode fuel n later s' out res :
      enterInitializingMode le answer fuel n later s = Some (Ok (s', out, res)) →
      fed_step s s'
  | step_enterExecutingMode fuel n iterate later s' out res :
      enterExecutingMode le answer fuel n iterate later s = Some (Ok (s', out, res)) →
      fed_step s s'
  | step_requestTime fuel n nextTime iterate later s' out res :
      requestTime le answer fuel n nextTime iterate later s = Some (Ok (s', out, res)) →
      fed_step s s'
  | step_generic fuel n later s' out res :
      genericUnspecifiedQueueProcess le answer fuel n later s = Some (Ok (s', out, res)) →
      fed_step s s'
  | step_finalize k fuel n later s' out res :
      finalize le answer k fuel n later s = Some (Ok (s', out, res)) → fed_step s s'
  | step_addAction m : fed_step s (addAction s m)
  | step_setProperties cmd : fed_step s (setProperties s cmd)
  | step_createInterface htype id key type units :
      fed_step s (createInterface s htype id key type units)
  | step_receive id : fed_step s (fs_receive s id).1
  | step_receiveAny : fed_step s (fs_receiveAny s).1.1
  | step_checkAndSetValue id data s' res :
      checkAndSetValue s id data = Ok (s', res) → fed_step s s'.

Lemma finalizeLoop_ranked k fuel n later s :
  wp (finalizeLoop le answer k fuel n later) s (λ s' _, ranked s s').
Proof.
  revert later s. induction k as [|k IH]; intros later s; [apply wp_unbounded|].
  cbn [finalizeLoop]. unfold genericUnspecifiedQueueProcess. do 3 wp_step.
  wp_step. eapply wp_mono; [apply processQueue_after, arrive_state|].
  intros s1 [ret|] Hs1; [|by repeat wp_step]. repeat wp_step; try done.
  all: eapply wp_mono; [apply IH|]; intros s2 a Hs2; by etrans.
Qed.

Lemma ranked_to s s1 s2 : ranked s s1 → fs_state s2 = fs_state s1 → ranked s s2.
Proof. unfold ranked. by intros ? ->. Qed.

(** What a call does once [processQueue] has returned. *)
Ltac call_leaf s :=
  repeat wp_step;
  (eapply wp_mono; [apply (processQueue_after _ _ s);
                    rewrite ?arrive_state, ?addAction_state; reflexivity|]);
  intros s1 res' Hs1; cbv beta in Hs1; repeat wp_step;
  (eapply ranked_to; [exact Hs1|]); try reflexivity; repeat case_match; reflexivity.

Lemma fed_step_ranked s s' : fed_step s s' → ranked s s'.
Proof.
  destruct 1 as [? ? ? ? ? ? E|? ? ? ? ? ? E|? ? ? ? ? ? ? E|? ? ? ? ? ? ? ? E|? ? ? ? ? ? E
    |? ? ? ? ? ? ? E|m|cmd|htype ? ? ? ?|id| |? ? ? ? E].
  1-6: revert E; apply (wp_elim (λ s' _, ranked s s')).
  - unfold waitSetup. repeat wp_step. apply processQueue_after, arrive_state.
  - unfold enterInitializingMode. call_leaf s.
  - unfold enterExecutingMode. call_leaf s.
  - unfold requestTime. call_leaf s.
  - unfold genericUnspecifiedQueueProcess. call_leaf s.
  - unfold finalize. repeat wp_step; [done|]. apply finalizeLoop_ranked.
  - apply ranked_same, addAction_state.
  - apply ranked_same. unfold setProperties. destruct (setters_state s) as (? & ? & ? & ?).
    repeat case_match; rewrite ?addAction_state; auto.
  - apply ranked_same. unfold createInterface. by destruct htype.
  - apply ranked_same. unfold fs_receive. by repeat case_match.
  - apply ranked_same. unfold fs_receiveAny. by repeat case_match.
  - apply ranked_same. unfold checkAndSetValue in E. repeat case_match; by simplify_eq.
Qed.


End lifecycle.

(** ** Values *)

Section values.
  Context `{TimeRep} `{DualMapped C} `{!DualMappedLaws C} `{UnitsLib} `{Fmt}.
  Context `{BlockingQueue Q}.
  Context (le : bool) (answer : FederateState C Q → string → string).
  Abbreviation FS := (FederateState C Q).
  Implicit Types (s : FS) (cmd : ActionMessage) (ii : InterfaceInfo C).

(** The queues of every input are sorted. *)
Definition if_sorted ii : Prop := Forall queues_sorted (dm_elements (inputs ii)).
Definition inputs_sorted s : Prop := if_sorted (interfaceInformation s).

Definition keeps_sorted s s' : Prop := inputs_sorted s → inputs_sorted s'.

#[local] Instance keeps_sorted_preorder : PreOrder keeps_sorted.
Proof. split; unfold keeps_sorted; [by intros ?|by intros ???; auto]. Qed.

Lemma keeps_same s s' :
  inputs (interfaceInformation s') = inputs (interfaceInformation s) → keeps_sorted s s'.
Proof. unfold keeps_sorted, inputs_sorted, if_sorted. by intros ->. Qed.

Lemma keeps_alter f h s :
  (∀ i, queues_sorted i → queues_sorted (f i)) →
  keeps_sorted s (on_inputs (dm_alter2 f h) s).
Proof.
  intros Hf Hs. unfold inputs_sorted, if_sorted. cbn. by apply dm_elements_alter2.
Qed.

Lemma inputOption_queues opt value i i' :
  inputOption opt value i = Some i' → data_queues i' = data_queues i.
Proof. unfold inputOption. intros E. repeat case_match; by simplify_eq. Qed.

Lemma setInputProperty_sorted ii id opt value :
  if_sorted ii → if_sorted (setInputProperty ii id opt value).1.
Proof.
  intros Hs. unfold setInputProperty, if_getInput, dm_find2.
  destruct (dm_index2 (inputs ii) id) as [k|] eqn:Ek; cbn; [|done].
  destruct (dm_elements (inputs ii) !! k) as [i|] eqn:Ei; [|done].
  destruct (inputOption opt value i) as [i'|] eqn:Eo; [|done].
  unfold if_sorted. cbn. apply dm_elements_alter2; [|done]. intros _ _.
  unfold queues_sorted. erewrite inputOption_queues by done.
  by eapply (Forall_lookup_1 queues_sorted).
Qed.

Lemma setInterfaceProperty_keeps s cmd : keeps_sorted s (setInterfaceProperty s cmd).
Proof.
  unfold setInterfaceProperty. destruct (negb _); [done|]. cbv zeta.
  repeat case_match; try done.
  all: first [ intros Hs; by apply setInputProperty_sorted
             | apply keeps_same; cbn; unfold setPublicationProperty; by repeat case_match ].
Qed.

Lemma setters_keep s :
  (∀ p v, keeps_sorted s (fs_setProperty s p v)) ∧
  (∀ p v, keeps_sorted s (fs_setIntProperty s p v)) ∧
  (∀ f v, keeps_sorted s (fs_setOptionFlag s f v)).
Proof.
  split; [|split].
  - intros p v. apply keeps_same. unfold fs_setProperty. by repeat case_match.
  - intros p v. apply keeps_same. unfold fs_setIntProperty. by repeat case_match.
  - intros f v. unfold fs_setOptionFlag.
    destruct (_ || _); [by apply keeps_same|]. destruct (_ || _).
    + intros Hs. unfold inputs_sorted, if_sorted, setChangeUpdateFlag in *. cbn.
      destruct (negb _); cbn; [|done]. rewrite dm_assign_elements by apply length_fmap.
      apply Forall_fmap. by eapply Forall_impl.
    + apply keeps_same. by repeat case_match.
Qed.

Lemma closeInterface_keeps id type s :
  wp (closeInterface id type) s (λ s' _, keeps_sorted s s').
Proof.
  unfold closeInterface. repeat wp_step; try (by apply keeps_same).
  etrans; [|apply keeps_alter; intros; apply clearFutureData_sorted]. by apply keeps_same.
Qed.

Lemma deliverValue_keeps cmd data sources s :
  wp (deliverValue cmd data sources) s (λ s' _, keeps_sorted s s').
Proof.
  revert data s. induction sources as [|src sources IH]; intros data s; cbn [deliverValue];
    unfold coord_; [by wp_step|]. wp_step; [|apply IH].
  do 2 wp_step.
  match goal with |- wp _ ?s1 _ => assert (keeps_sorted s s1) as Hs1 end.
  { apply keeps_alter. intros. by apply addData_sorted. }
  repeat wp_step; (eapply wp_mono; [apply IH|]); intros s2 ? Hs2; cbv beta in Hs2;
    (etrans; [exact Hs1|]); try exact Hs2.
Qed.

Lemma processInterfaceMessage_keeps cmd s :
  wp (processInterfaceMessage answer cmd) s (λ s' _, keeps_sorted s s').
Proof.
  destruct (setters_keep s) as (Hp & Hip & Hf).
  unfold processInterfaceMessage, coord_. apply wp_bind, wp_get. cbv zeta.
  destruct (action cmd); repeat wp_step;
    match goal with
    | |- wp (closeInterface _ _) _ _ => apply closeInterface_keeps
    | |- wp (deliverValue _ _ _) _ _ => apply deliverValue_keeps
    | |- keeps_sorted _ (setInterfaceProperty _ _) => apply setInterfaceProperty_keeps
    | |- keeps_sorted _ (fs_setProperty _ _ _) => apply Hp
    | |- keeps_sorted _ (fs_setIntProperty _ _ _) => apply Hip
    | |- keeps_sorted _ (fs_setOptionFlag _ _ _) => apply Hf
    | |- keeps_sorted _ (on_inputs _ _) => apply keeps_alter; intros; by apply removeSelected_sorted
    | |- _ => idtac
    end.
  all: try (apply keeps_same; reflexivity).
  etrans; [apply keeps_alter; intros; by apply addSource_sorted|by apply keeps_same].
Qed.

Lemma processQueue_keeps fuel n s :
  wp (processQueue le answer fuel n) s (λ s' _, keeps_sorted s s').
Proof.
  apply processQueue_R; [apply _|intros s1 s2 [_ ?]; by apply keeps_same|].
  apply processInterfaceMessage_keeps.
Qed.

Lemma arrive_inputs later s :
  inputs (interfaceInformation (arrive later s)) = inputs (interfaceInformation s).
Proof.
  revert s. induction later as [|m later IH]; intros s; [done|]. cbn [arrive foldl].
  etrans; [apply IH|]. unfold addAction. by case_match.
Qed.

(** Every value still queued passes the test. *)
Definition queued_values (P : dataRecord → Prop) s : Prop :=
  Forall (λ i, Forall (Forall P) (data_queues i)) (dm_elements (inputs (interfaceInformation s))).

Lemma fillEventVector_queued take (P : dataRecord → Prop) s :
  inputs_sorted s → (∀ q, queue_sorted q → Forall P (rest_of take q)) →
  queued_values P
    (fillEventVector (λ i, updateLoop take i 0 (data_queues i) false) s).
Proof.
  intros Hs Hq. unfold queued_values. cbn.
  rewrite dm_assign_elements by (by rewrite !length_fmap).
  rewrite !Forall_fmap. eapply Forall_impl; [exact Hs|]. intros i Hi. unfold compose.
  destruct (updateLoop_all take i) as (_ & -> & _). apply Forall_fmap.
  eapply Forall_impl; [exact Hi|]. exact Hq.
Qed.

Lemma fillEventVector_sorted take s :
  inputs_sorted s → takes_prefix take →
  inputs_sorted (fillEventVector (λ i, updateLoop take i 0 (data_queues i) false) s).
Proof.
  intros Hs Hp. unfold inputs_sorted, if_sorted. cbn.
  rewrite dm_assign_elements by (by rewrite !length_fmap).
  rewrite !Forall_fmap. eapply Forall_impl; [exact Hs|]. intros i Hi.
  by apply updateLoop_sorted.
Qed.

(** C22. A granted time leaves no value behind.  When a time request without iteration
    returns, the time returned is the one granted by the coordinator; if it is before
    the requested time every value still queued is later than it, and otherwise no value
    still queued is earlier. *)
Theorem request_takes_values fuel n nextTime later s s' out granted res :
  inputs_sorted s →
  requestTime le answer fuel n nextTime no_iterations later s =
    Some (Ok (s', out, Some (granted, res))) →
  granted = getGrantedTime (timeCoord s') ∧ fs_time_granted s' = granted ∧
  inputs_sorted s' ∧
  (if granted <? nextTime then queued_values (λ r, granted < rec_time r) s'
   else queued_values (λ r, granted ≤ rec_time r) s').
Proof.
  intros Hs. set (P := λ (s' : FS) (r : option (Time * message_processing_result)),
    ∀ granted res, r = Some (granted, res) →
      granted = getGrantedTime (timeCoord s') ∧ fs_time_granted s' = granted ∧
      inputs_sorted s' ∧
      (if granted <? nextTime then queued_values (λ r, granted < rec_time r) s'
       else queued_values (λ r, granted ≤ rec_time r) s')).
  enough (wp (requestTime le answer fuel n nextTime no_iterations later) s P) as Hwp
    by (intros E; exact (Hwp _ _ _ E _ _ eq_refl)).
  unfold requestTime. do 3 wp_step.
  eapply wp_mono; [apply processQueue_keeps|]. intros s1 [ret|] Hs1; [|by wp_step].
  assert (inputs_sorted s1) as Hs1'.
  { apply Hs1. unfold inputs_sorted, if_sorted. rewrite arrive_inputs.
    unfold addAction. by case_match. }
  clear Hs1. repeat wp_step. intros granted' res' [= <- <-].
  destruct (_ <? nextTime); (split; [reflexivity|]); (split; [reflexivity|]); split.
  - apply (fillEventVector_sorted (takeInclusive _)); [exact Hs1'|apply takeInclusive_prefix].
  - apply (fillEventVector_queued (takeInclusive _)); [exact Hs1'|].
    intros q. apply inclusive_rest.
  - apply (fillEventVector_sorted (takeUpTo _)); [exact Hs1'|apply takeUpTo_prefix].
  - apply (fillEventVector_queued (takeUpTo _)); [exact Hs1'|]. intros q. apply upTo_rest.
Qed.

End values.
