(* ===== verification/FederateOrder.v ===== *)
(** * The order in which a federate processes its messages

    Messages of a federate that is ahead wait in a delay queue.  Whenever a message is
    taken from the main queue no earlier message of the same source is waiting, so that
    messages of one source are processed in the order of their arrival. *)

From S2P Require Import Prelude HelicsTime Ids Flags ActionMessage MessageCodec.
From S2P Require Import Definitions TimeDependencies TimeCoordinator HandleManager.
From S2P Require Import InputInfo Interfaces InterfaceInfo FederateState FederateFacts.

Section order.
  Context `{TimeRep} `{DualMapped C} `{UnitsLib} `{Fmt} `{BlockingQueue Q}.
  Context (le : bool) (answer : FederateState C Q → string → string).
  Abbreviation FS := (FederateState C Q).
  Abbreviation M := (fsM (C := C) (Q := Q)).
  Implicit Types (s : FS) (cmd : ActionMessage).

(** ** Delay queues and delayed federates *)

Lemma delayQueue_lookup s k :
  delayQueue s k = default [] (snd <$> key_lookup fst k (delayQueues s)).
Proof.
  unfold delayQueue, key_lookup. by destruct (list_find _ _) as [[? []]|].
Qed.

(** The map has sorted keys, and a message waits in the queue of its source. *)
Record delay_inv s : Prop := {
  inv_keys : key_sorted fst (delayQueues s);
  inv_delayed : key_sorted id (delayedFederates s);
  inv_source : ∀ k m, m ∈ delayQueue s k → source_id m = k;
}.

(** A federate with waiting messages is delayed. *)
Definition covers s (k : global_federate_id) : Prop :=
  delayQueue s k ≠ [] → k ∈ delayedFederates s.
Definition covered s : Prop := ∀ k, covers s k.

Lemma key_lookup_id k (l : list Z) : is_Some (key_lookup id k l) ↔ k ∈ l.
Proof.
  unfold key_lookup. rewrite fmap_is_Some. split.
  - intros [[i x] (Hx & <- & _)%list_find_Some]. by eapply list_elem_of_lookup_2.
  - intros Hk. by apply (list_find_elem_of _ _ k).
Qed.

(** The binary search in the sorted list of delayed federates. *)
Lemma delayed_search k (l : list Z) :
  key_sorted id l →
  match l !! lower_bound Z.ltb l k with Some x => x =? k | None => false end =
  bool_decide (k ∈ l).
Proof.
  intros Hs. change (lower_bound Z.ltb l k) with (lower_bound (λ x k, id x <? k) l k).
  rewrite lower_bound_key_sorted by done.
  rewrite <-(bool_decide_ext _ _ (key_lookup_id k l)), (key_lookup_sorted id k l Hs).
  destruct (l !! _) as [x|]; [|by rewrite bool_decide_false by apply is_Some_None].
  change (id x =? k) with (x =? k). destruct (x =? k); [by rewrite bool_decide_true by by eexists|].
  by rewrite bool_decide_false by apply is_Some_None.
Qed.

Lemma messageShouldBeDelayed_spec s cmd :
  key_sorted id (delayedFederates s) →
  messageShouldBeDelayed s cmd = bool_decide (source_id cmd ∈ delayedFederates s).
Proof.
  intros Hs%(delayed_search (source_id cmd)). unfold messageShouldBeDelayed.
  destruct (delayedFederates s) as [|a [|b [|c l]]]; try done.
  - apply eq_true_iff_eq. rewrite Z.eqb_eq, bool_decide_eq_true. set_solver.
  - apply eq_true_iff_eq. rewrite orb_true_iff, !Z.eqb_eq, bool_decide_eq_true. set_solver.
Qed.

Lemma prefix_len_all {A} (p : A → bool) l :
  Forall (λ x, p x = true) l → prefix_len p l = length l.
Proof. induction 1 as [|x l Hx _ IH]; cbn; [done|]. by rewrite Hx, IH. Qed.

Lemma sorted_below_last k (l : list Z) back :
  key_sorted id l → last l = Some back → back < k → Forall (λ x, (id x <? k) = true) l.
Proof.
  intros Hs Hl Hb. rewrite last_lookup in Hl. apply Forall_lookup. intros i x Hx.
  apply Z.ltb_lt. destruct (decide (i = pred (length l))) as [->|Hne]; [by simplify_eq|].
  apply lookup_lt_Some in Hx as Hi.
  pose proof (key_sorted_lookup_lt id l i (pred (length l)) x back Hs ltac:(lia) Hx Hl).
  unfold id in *. lia.
Qed.

Lemma addFederateToDelay_eq s k :
  key_sorted id (delayedFederates s) →
  delayedFederates (addFederateToDelay s k) =
    match key_lookup id k (delayedFederates s) with
    | Some _ => delayedFederates s
    | None => vec_insert (prefix_len (λ x, id x <? k) (delayedFederates s)) k (delayedFederates s)
    end.
Proof.
  intros Hs. rewrite (key_lookup_sorted id) by done. unfold addFederateToDelay.
  set (l := delayedFederates s) in *.
  change (lower_bound Z.ltb l k) with (lower_bound (λ x k, id x <? k) l k).
  rewrite lower_bound_key_sorted by done.
  destruct (last l) as [back|] eqn:El; [|by apply last_None in El as ->].
  destruct (Z.ltb_spec back k) as [Hb|Hb].
  - pose proof (sorted_below_last k l back Hs El Hb) as Hall.
    rewrite prefix_len_all by done. rewrite lookup_ge_None_2 by done. cbn.
    by rewrite vec_insert_end.
  - destruct (l !! _) as [x|] eqn:Ex.
    + change (id x =? k) with (x =? k). by destruct (x =? k).
    + rewrite vec_insert_end; [done|]. by apply lookup_ge_None.
Qed.

Lemma addFederateToDelay_spec s k :
  key_sorted id (delayedFederates s) →
  key_sorted id (delayedFederates (addFederateToDelay s k)) ∧
  (∀ x, x ∈ delayedFederates (addFederateToDelay s k) ↔ x = k ∨ x ∈ delayedFederates s).
Proof.
  intros Hs. rewrite addFederateToDelay_eq by done.
  destruct (key_lookup id k (delayedFederates s)) eqn:E.
  - split; [done|]. assert (k ∈ delayedFederates s) by (apply key_lookup_id; by eexists).
    set_solver.
  - split; [by apply key_sorted_insert|]. intros x. rewrite vec_insert_permutation. set_solver.
Qed.

(** ** Changes of the delay queues *)

Definition with_queue (k : global_federate_id) (q : list ActionMessage)
    (e : global_federate_id * list ActionMessage) :=
  if e.1 =? k then (k, q) else e.

Lemma with_queue_key k q e : (with_queue k q e).1 = e.1.
Proof. unfold with_queue. destruct (Z.eqb_spec e.1 k); by cbn. Qed.

Lemma delayQueue_set s k q k' :
  delayQueue (set_delayQueue s k q) k' =
  if decide (k' = k)
  then (if bool_decide (is_Some (key_lookup fst k (delayQueues s))) then q else [])
  else delayQueue s k'.
Proof.
  rewrite !delayQueue_lookup.
  change (delayQueues (set_delayQueue s k q)) with (with_queue k q <$> delayQueues s).
  rewrite (key_lookup_fmap fst (with_queue k q)) by apply with_queue_key.
  destruct (key_lookup fst k' (delayQueues s)) as [[k1 q1]|] eqn:E; cbn.
  - apply key_lookup_Some_elem in E as Hk. cbn in Hk. destruct Hk as [_ ->].
    unfold with_queue. cbn. destruct (Z.eqb_spec k' k) as [->|]; cbn.
    + by rewrite decide_True, E, bool_decide_true by (done || by eexists).
    + by rewrite decide_False.
  - destruct (decide (k' = k)) as [->|]; [|done].
    by rewrite E, bool_decide_false by apply is_Some_None.
Qed.

Lemma set_delayQueue_inv s k q :
  delay_inv s → (∀ m, m ∈ q → source_id m = k) → delay_inv (set_delayQueue s k q).
Proof.
  intros [Hk Hd Hs] Hq. split; [|done|].
  - cbn. apply (key_sorted_fmap fst (with_queue k q)); [apply with_queue_key|done].
  - intros k' m. rewrite delayQueue_set. destruct (decide (k' = k)) as [->|]; [|apply Hs].
    case_bool_decide; [apply Hq|by intros ?%elem_of_nil].
Qed.

Lemma map_push_lookup k cmd m k' :
  key_sorted fst m →
  key_lookup fst k' (map_push k cmd m) =
  if decide (k' = k) then Some (k, default [] (snd <$> key_lookup fst k m) ++ [cmd])
  else key_lookup fst k' m.
Proof.
  induction m as [|[k1 q1] m IH]; intros Hs; cbn [map_push].
  { rewrite key_lookup_cons. cbn. repeat case_decide; by subst. }
  apply key_sorted_cons in Hs as [Hlt Hs]. cbn in Hlt.
  destruct (Z.ltb_spec k k1); [|destruct (Z.eqb_spec k k1) as [->|]];
    rewrite !key_lookup_cons; cbn.
  - rewrite (decide_False (P := k1 = k)) by lia. rewrite (key_lookup_None fst k m).
    + repeat case_decide; by subst.
    + eapply Forall_impl; [exact Hlt|]. cbn. intros. lia.
  - repeat case_decide; by subst.
  - rewrite IH by done. rewrite (decide_False (P := k1 = k)) by lia.
    repeat case_decide; by subst.
Qed.

Lemma map_push_elem k cmd m e : e ∈ map_push k cmd m → e.1 = k ∨ e.1 ∈ m.*1.
Proof.
  induction m as [|[k2 q2] m IH]; cbn [map_push].
  - intros ->%list_elem_of_singleton. by left.
  - rewrite fmap_cons, elem_of_cons. cbn [fst].
    destruct (k <? k2); [|destruct (Z.eqb_spec k k2) as [->|]]; rewrite !elem_of_cons.
    + intros [->|[->|He]]; [by left|by right; left|]. right. right. by apply list_elem_of_fmap_2.
    + intros [->|He]; [by left|]. right. right. by apply list_elem_of_fmap_2.
    + intros [->|[?|?]%IH]; auto.
Qed.

Lemma map_push_sorted k cmd m : key_sorted fst m → key_sorted fst (map_push k cmd m).
Proof.
  induction m as [|[k1 q1] m IH]; intros Hs; cbn [map_push]; [repeat constructor|].
  pose proof Hs as [Hlt Hs']%key_sorted_cons. cbn in Hlt.
  destruct (Z.ltb_spec k k1); [|destruct (Z.eqb_spec k k1)].
  - apply key_sorted_cons. split; [|done]. constructor; [done|].
    eapply Forall_impl; [exact Hlt|]. cbn. lia.
  - by apply key_sorted_cons.
  - apply key_sorted_cons. split; [|by apply IH]. cbn.
    apply Forall_forall. intros e He. rewrite Forall_forall in Hlt.
    destruct (map_push_elem k cmd m e He) as [->|Hk]; [lia|].
    apply list_elem_of_fmap in Hk as (e' & -> & He'). by apply Hlt.
Qed.

Lemma delayQueue_push s k cmd k' :
  delay_inv s →
  delayQueue (pushDelay s k cmd) k' =
  if decide (k' = k) then delayQueue s k ++ [cmd] else delayQueue s k'.
Proof.
  intros [Hk _ _]. rewrite !delayQueue_lookup.
  change (delayQueues (pushDelay s k cmd)) with (map_push k cmd (delayQueues s)).
  rewrite map_push_lookup by done.
  by destruct (decide (k' = k)).
Qed.

Lemma pushDelay_inv s cmd : delay_inv s → delay_inv (pushDelay s (source_id cmd) cmd).
Proof.
  intros Hi. split; [by apply map_push_sorted, Hi|apply Hi|].
  intros k m. rewrite delayQueue_push by done.
  destruct (decide (k = source_id cmd)) as [->|]; [|apply Hi].
  rewrite elem_of_app, list_elem_of_singleton. intros [Hm| ->]; [by eapply inv_source|done].
Qed.

(** ** What the processing of one message does to the delays *)

Definition same_delays s s' : Prop :=
  delayQueues s' = delayQueues s ∧ delayedFederates s' = delayedFederates s.

Lemma execEntryResult_cases tc :
  execEntryResult tc = next_step ∨ execEntryResult tc = mpr_iterating.
Proof. unfold execEntryResult. repeat case_match; auto. Qed.

Lemma checkExecEntry_not_delay tc : (checkExecEntry tc).2 ≠ delay_message.
Proof.
  unfold checkExecEntry. destruct (_ <=? _); [done|]. destruct (negb _); [done|].
  by destruct (execEntryResult_cases tc) as [-> | ->].
Qed.

Lemma execCheck_quiet s :
  wp execCheck s (λ s' ret, same_delays s s' ∧ ret ≠ delay_message).
Proof.
  unfold execCheck. repeat wp_step; try done.
  - apply (f_equal (λ o, match o with Ok r => r.2 | _ => continue_processing end)) in Ecoord.
    by apply checkExecEntry_not_delay in Ecoord.
  - unfold setState. repeat case_match; done.
Qed.

Lemma timeCheck_quiet s :
  wp (timeCheck le) s (λ s' ret, same_delays s s' ∧ ret ≠ delay_message).
Proof. unfold timeCheck. repeat wp_step; try done. split; [done|]. by intros ->. Qed.

Lemma setState_delays s st : same_delays s (setState s st).
Proof. unfold setState. repeat case_match; done. Qed.

Lemma processInitGrant_quiet s :
  wp processInitGrant s (λ s' ret, same_delays s s' ∧ ret ≠ delay_message).
Proof.
  unfold processInitGrant. apply wp_bind, wp_get. case_bool_decide; [|by wp_step]. cbv zeta.
  set (s1 := (setState s HELICS_INITIALIZING) <| timeGranted_mode := true |>).
  assert (same_delays s s1) as [Hq Hd] by apply (setState_delays s HELICS_INITIALIZING).
  destruct (checkInterfaces s1) as [s2 pcode] eqn:E.
  assert (same_delays s s2) as [Hq2 Hd2].
  { unfold checkInterfaces in E. repeat case_match; simplify_eq; by split. }
  repeat wp_step; (split; [|done]); [|done].
  destruct (setState_delays s2 HELICS_ERROR) as [Hq3 Hd3]. split; congruence.
Qed.

Lemma processFedAck_quiet cmd s :
  wp (processFedAck cmd) s (λ s' ret, same_delays s s' ∧ ret ≠ delay_message).
Proof.
  unfold processFedAck. repeat wp_step; try done. split; [|done].
  apply (setState_delays s HELICS_ERROR).
Qed.

(** A message that is not a request of the federate: only a delay changes something. *)
Definition delays_as cmd s s' (ret : message_processing_result) : Prop :=
  delayQueues s' = delayQueues s ∧
  (ret ≠ delay_message ∧ delayedFederates s' = delayedFederates s ∨
   ret = delay_message ∧
   delayedFederates s' = delayedFederates (addFederateToDelay s (source_id cmd))).

Lemma quiet_as cmd s s' ret : same_delays s s' ∧ ret ≠ delay_message → delays_as cmd s s' ret.
Proof. intros [[Hq Hd] Hr]. split; auto. Qed.

Lemma addFederateToDelay_queues s k : delayQueues (addFederateToDelay s k) = delayQueues s.
Proof. unfold addFederateToDelay. repeat case_match; done. Qed.

Lemma addFederateToDelay_ext s s' k :
  delayedFederates s' = delayedFederates s →
  delayedFederates (addFederateToDelay s' k) = delayedFederates (addFederateToDelay s k).
Proof.
  intros E. unfold addFederateToDelay. rewrite E.
  destruct (last _); [|done]. destruct (_ <? _); [done|]. destruct (_ !! _); [|done].
  by destruct (negb _).
Qed.

Lemma timeMessage_as cmd next s :
  (∀ s, wp next s (λ s' ret, same_delays s s' ∧ ret ≠ delay_message)) →
  wp (timeMessage cmd next) s (λ s' ret, delays_as cmd s s' ret).
Proof.
  intros Hnext. unfold timeMessage. repeat wp_step.
  - split; auto.
  - eapply wp_mono; [apply Hnext|]. intros s' ret [[Hq Hd] Hr]. split; [done|]. auto.
  - split; [by rewrite addFederateToDelay_queues|]. right. split; [done|].
    by apply addFederateToDelay_ext.
Qed.

Lemma processError_as cmd s :
  wp (processError le cmd) s (λ s' ret, delays_as cmd s s' ret).
Proof.
  unfold processError, coordLocalError. repeat wp_step; try (apply quiet_as; split; done).
  - apply quiet_as. split; [|done].
    match goal with |- context [setState ?s1 _] =>
      destruct (setState_delays s1 HELICS_ERROR) as [Hq Hd] end. by split; cbn; rewrite ?Hq, ?Hd.
  - apply quiet_as. split; [|done].
    destruct (setState_delays s HELICS_ERROR) as [Hq Hd]. by split; cbn; rewrite ?Hq, ?Hd.
  - apply timeMessage_as, timeCheck_quiet.
Qed.

Lemma processDisconnect_as cmd s :
  wp (processDisconnect le cmd) s (λ s' r,
    delays_as cmd s s' r.1 ∧ source_id r.2 = source_id cmd).
Proof.
  unfold processDisconnect, coordDisconnect. repeat wp_step;
    try (split; [apply quiet_as; split; done|done]).
  - split; [|done]. apply quiet_as. split; [|done].
    match goal with |- context [setState ?s1 _] =>
      destruct (setState_delays s1 HELICS_TERMINATING) as [Hq Hd] end.
    by split; cbn; rewrite ?Hq, ?Hd.
  - eapply wp_mono; [apply timeMessage_as, timeCheck_quiet|]. intros s' ret Hs'. by wp_step.
Qed.

Lemma setters_delays s :
  (∀ p v, same_delays s (fs_setProperty s p v)) ∧
  (∀ p v, same_delays s (fs_setIntProperty s p v)) ∧
  (∀ f v, same_delays s (fs_setOptionFlag s f v)) ∧
  (∀ cmd, same_delays s (setInterfaceProperty s cmd)).
Proof.
  split; [|split; [|split]].
  - intros p v. unfold fs_setProperty. by repeat case_match.
  - intros p v. unfold fs_setIntProperty. by repeat case_match.
  - intros f v. unfold fs_setOptionFlag. by repeat case_match.
  - intros cmd. unfold setInterfaceProperty. by repeat case_match.
Qed.

Lemma deliverValue_delays cmd data sources s :
  wp (deliverValue cmd data sources) s (λ s' _, same_delays s s').
Proof.
  revert data s. induction sources as [|src sources IH]; intros data s; cbn [deliverValue];
    unfold coord_; [by wp_step|]. wp_step; [|apply IH].
  repeat wp_step; (eapply wp_mono; [apply IH|]); intros s' ? [Hq Hd]; by split.
Qed.

Lemma processInterfaceMessage_delays cmd s :
  wp (processInterfaceMessage answer cmd) s (λ s' _, same_delays s s').
Proof.
  destruct (setters_delays s) as (Hp & Hip & Hf & Hi).
  unfold processInterfaceMessage, coord_, closeInterface. apply wp_bind, wp_get. cbv zeta.
  destruct (action cmd); repeat wp_step; try done;
    first [apply deliverValue_delays|eauto; fail].
Qed.

(** ** Coverage *)

Definition spread s s' : Prop := ∀ k, covers s k → covers s' k.

#[local] Instance spread_preorder : PreOrder spread.
Proof. split; unfold spread; [by intros ??|intros s1 s2 s3 ? ? k ?; auto]. Qed.

Lemma spread_delays s s' :
  delayQueues s' = delayQueues s → (∀ k, k ∈ delayedFederates s → k ∈ delayedFederates s') →
  spread s s'.
Proof.
  intros Hq Hd k Hc Hk. apply Hd, Hc. unfold delayQueue in *. by rewrite <-Hq.
Qed.

Lemma inv_delays s s' :
  delayQueues s' = delayQueues s → key_sorted id (delayedFederates s') →
  delay_inv s → delay_inv s'.
Proof.
  intros Hq Hd [Hk _ Hs]. split; [by rewrite Hq|done|]. intros k m Hm. apply Hs.
  unfold delayQueue in *. by rewrite <-Hq.
Qed.

Lemma inv_queue s q : delay_inv s → delay_inv (s <| fs_queue := q |>).
Proof. intros [Hk Hd Hs]. by split. Qed.

(** What a message leaves, whether or not it is a request of the federate. *)
Definition handled cmd s s' (r : message_processing_result * ActionMessage) : Prop :=
  delay_inv s' ∧ source_id r.2 = source_id cmd ∧
  (r.1 = delay_message → source_id cmd ∈ delayedFederates s') ∧
  (returnableResult r.1 = false → spread s s').

Lemma delays_handled cmd s s' ret cmd' :
  delay_inv s → delays_as cmd s s' ret → source_id cmd' = source_id cmd →
  handled cmd s s' (ret, cmd').
Proof.
  intros Hi [Hq Hd] Hs. pose proof (inv_delayed s Hi) as Hsorted.
  destruct (addFederateToDelay_spec s (source_id cmd) Hsorted) as [Hs' Hin].
  destruct Hd as [[Hr Hd]|[Hr Hd]].
  - split; [eapply inv_delays; [done|by rewrite Hd|done]|]. split; [done|].
    split; [done|]. intros _. apply spread_delays; [done|]. by rewrite Hd.
  - split; [eapply inv_delays; [done|by rewrite Hd|done]|]. split; [done|].
    rewrite Hd. split; [intros _; apply Hin; by left|]. intros _.
    apply spread_delays; [done|]. intros k Hk. rewrite Hd. apply Hin. by right.
Qed.

(** Taking a message off a queue, or putting it back, keeps the others covered. *)
Lemma tail_source s k m : delay_inv s → m ∈ tail (delayQueue s k) → source_id m = k.
Proof.
  intros Hi Hm. apply (inv_source s Hi k). destruct (delayQueue s k); [done|]. by right.
Qed.

Lemma pop_spread s k : spread s (set_delayQueue s k (tail (delayQueue s k))).
Proof.
  intros k' Hc. unfold covers in *. rewrite delayQueue_set.
  destruct (decide (k' = k)) as [->|]; [|done]. case_bool_decide; [|done].
  destruct (delayQueue s k); [done|]. intros _. by apply Hc.
Qed.

Lemma keep_spread s k q : k ∈ delayedFederates s → spread s (set_delayQueue s k q).
Proof.
  intros Hk k' Hc. unfold covers in *. rewrite delayQueue_set.
  by destruct (decide (k' = k)) as [->|].
Qed.

Section drain.
  Context (process : ActionMessage → M (message_processing_result * ActionMessage)).
  Context (Hprocess : ∀ cmd s, delay_inv s → wp (process cmd) s (handled cmd s)).

Lemma drainQueue_handled k n s :
  delay_inv s →
  wp (drainQueue process k n) s (λ s' ret,
    delay_inv s' ∧ (returnableResult ret = false → covers s' k ∧ spread s s')).
Proof.
  revert s. induction n as [|n IH]; intros s Hi; cbn [drainQueue];
    apply wp_bind, wp_get; (destruct (delayQueue s k) as [|cmd rest] eqn:Eq;
      [wp_step; split; [done|]; intros _; split; [by unfold covers; rewrite Eq|done]|]).
  all: assert (source_id cmd = k) as Hk by (apply (inv_source s Hi k); rewrite Eq; by left).
  all: rewrite messageShouldBeDelayed_spec, Hk by apply Hi; case_bool_decide as Hd;
    [wp_step; split; [done|]; intros _; split; [by intros _|done]|].
  all: apply wp_bind; (eapply wp_mono; [by apply Hprocess|]);
    intros s1 [ret cmd'] (Hi1 & Hsrc & Hdel & Hsp); cbn [fst snd] in *.
  all: destruct ret; repeat wp_step.
  all: try (split; [apply set_delayQueue_inv; [done|]; intros; by eapply tail_source|done]).
  all: try (specialize (Hdel eq_refl); rewrite Hk in Hdel;
    split; [apply set_delayQueue_inv; [done|]; intros m [->|Hm]%elem_of_cons;
            [congruence|by eapply tail_source]|];
    intros _; split; [by intros _|]; etrans; [by apply Hsp|by apply keep_spread]).
  eapply wp_mono; [apply IH; apply set_delayQueue_inv; [done|]; intros; by eapply tail_source|].
  intros s2 ret (Hi2 & Hsp2). split; [done|]. intros [Hc Hs2]%Hsp2. split; [done|].
  etrans; [by apply Hsp|]. etrans; [apply pop_spread|exact Hs2].
Qed.

Lemma drainAll_handled keys ret s :
  delay_inv s →
  wp (drainAll process keys ret) s (λ s' ret',
    delay_inv s' ∧
    (returnableResult ret' = false → (∀ k, k ∈ keys → covers s' k) ∧ spread s s')).
Proof.
  revert ret s. induction keys as [|k keys IH]; intros ret s Hi; cbn [drainAll].
  { wp_step. split; [done|]. intros _. split; [by intros k ?%elem_of_nil|done]. }
  do 3 wp_step. eapply wp_mono; [by apply drainQueue_handled|].
  intros s1 ret1 (Hi1 & Hs1). destruct (returnableResult ret1) eqn:Er.
  { wp_step. split; [done|]. by rewrite Er. }
  destruct (Hs1 eq_refl) as [Hc Hsp]. eapply wp_mono; [by apply IH|].
  intros s2 ret2 (Hi2 & Hs2). split; [done|]. intros [Hcs Hsp2]%Hs2.
  split; [|by etrans]. intros k' [->|Hk]%elem_of_cons; auto.
Qed.

Lemma processDelayQueueWith_handled s :
  delay_inv s →
  wp (processDelayQueueWith process) s (λ s' ret,
    delay_inv s' ∧ (returnableResult ret = false → covered s')).
Proof.
  intros Hi. unfold processDelayQueueWith. do 4 wp_step.
  set (s1 := s <| delayedFederates := [] |>).
  assert (delay_inv s1) as Hi1 by (eapply inv_delays; [|constructor|exact Hi]; done).
  eapply wp_mono; [by apply drainAll_handled|]. intros s2 ret (Hi2 & Hs2).
  split; [done|]. intros [Hc Hsp]%Hs2 k.
  destruct (decide (k ∈ (delayQueues s1).*1)) as [Hk|Hk]; [by apply Hc|].
  apply Hsp. intros Hne. destruct Hne. unfold delayQueue.
  destruct (list_find _ _) as [[i [k' q]]|] eqn:E; [|done].
  apply list_find_Some in E as (E & <- & _). destruct Hk.
  apply list_elem_of_fmap. exists (k', q). split; [done|]. by eapply list_elem_of_lookup_2.
Qed.
End drain.

(** A request that the federate makes of its own coordinator. *)
Definition is_request cmd s : bool :=
  (bool_decide (action cmd = cmd_exec_request) || bool_decide (action cmd = cmd_time_request))
  && ((source_id cmd =? fs_global_id s) && (dest_id cmd =? parent_broker_id)).

(** A case that ends with the command unchanged, or changed in its action only. *)
Lemma result_as (m : M message_processing_result) cmd (f : message_processing_result → ActionMessage) s s1 :
  same_delays s s1 →
  wp m s1 (λ s' ret, delays_as cmd s1 s' ret) → (∀ ret, source_id (f ret) = source_id cmd) →
  wp m s1 (λ s2 ret, wp (mret (ret, f ret)) s2
    (λ s' r, delays_as cmd s s' r.1 ∧ source_id r.2 = source_id cmd)).
Proof.
  intros [Hq Hd] Hm Hf. eapply wp_mono; [exact Hm|]. intros s2 ret [Hq2 Hd2]. wp_step.
  split; [|apply Hf]. split; [cbn; congruence|].
  destruct Hd2 as [[? ?]|[? Hadd]]; [left; split; cbn; congruence|]. right. split; [done|].
  rewrite Hadd. by apply addFederateToDelay_ext.
Qed.

Lemma processActionMessage_as fuel cmd s :
  is_request cmd s = false →
  wp (processActionMessage le answer fuel cmd) s (λ s' r,
    delays_as cmd s s' r.1 ∧ source_id r.2 = source_id cmd).
Proof.
  destruct fuel as [|fuel]; [intros; apply wp_unbounded|].
  intros Hreq. cbn [processActionMessage]. apply wp_bind, wp_get.
  unfold coordDisconnect, coord_. unfold is_request in Hreq.
  destruct (action cmd);
    first
      [ apply wp_bind; eapply wp_mono; [apply processInterfaceMessage_delays|];
        intros; wp_step; split; [by apply quiet_as|done]
      | repeat wp_step ].
  all: try (split; [apply quiet_as; split; [|done]|done];
            first [done | apply setState_delays]; fail).
  all: try (first [apply (result_as _ cmd (λ _, cmd))
                  |apply (result_as _ cmd (λ _, setAction cmd cmd_exec_check))
                  |apply (result_as _ cmd (λ _, setAction cmd cmd_time_check))];
    [done| |done];
    first [ apply timeMessage_as; first [exact execCheck_quiet|exact timeCheck_quiet]
          | apply processError_as
          | eapply wp_mono; [first [apply execCheck_quiet|apply timeCheck_quiet
               |apply processInitGrant_quiet|apply processFedAck_quiet]|];
            intros ? ?; apply quiet_as ]; fail).
  all: try (exfalso; rewrite Heqb in Hreq; done).
  all: try apply processDisconnect_as.
  split; [|done]. apply quiet_as. split; [|done].
  match goal with |- same_delays _ (setState ?s1 ?st) =>
    destruct (setState_delays s1 st) as [Hq Hd] end. by split.
Qed.

Lemma request_handled fuel check cmd cmd' s s1 :
  (∀ cmd s, delay_inv s → wp (processActionMessage le answer fuel cmd) s (handled cmd s)) →
  (∀ s, wp check s (λ s' ret, same_delays s s' ∧ ret ≠ delay_message)) →
  delay_inv s → same_delays s s1 → source_id cmd' = source_id cmd →
  wp (processDelayQueueWith (processActionMessage le answer fuel)) s1 (λ s2 ret,
    wp (if returnableResult ret then mret (ret, cmd)
        else ret ← check; mret (ret, cmd')) s2 (handled cmd s)).
Proof.
  intros IH Hcheck Hi [Hq Hd] Hsrc.
  assert (delay_inv s1) as Hi1 by (eapply inv_delays; [done|rewrite Hd; apply Hi|done]).
  eapply wp_mono; [by apply processDelayQueueWith_handled|]. intros s2 ret [Hi2 Hc].
  destruct (returnableResult ret) eqn:Er.
  - wp_step. split; [done|]. split; [done|]. cbn. rewrite Er. split; [|done]. by intros ->.
  - specialize (Hc eq_refl). wp_step. eapply wp_mono; [apply Hcheck|].
    intros s3 ret3 [[Hq3 Hd3] Hr3]. wp_step.
    assert (spread s2 s3) as Hsp by (apply spread_delays; [done|by rewrite Hd3]).
    split; [eapply inv_delays; [done|rewrite Hd3; apply Hi2|done]|]. split; [done|].
    split; [done|]. intros _ k _. by apply Hsp.
Qed.

Lemma processActionMessage_handled fuel cmd s :
  delay_inv s → wp (processActionMessage le answer fuel cmd) s (handled cmd s).
Proof.
  revert cmd s. induction fuel as [|fuel IH]; intros cmd s Hi; [apply wp_unbounded|].
  destruct (is_request cmd s) eqn:Hreq.
  - unfold is_request in Hreq. cbn [processActionMessage]. apply wp_bind, wp_get.
    apply andb_true_iff in Hreq as [Ha Hown].
    apply orb_true_iff in Ha as [->%bool_decide_eq_true| ->%bool_decide_eq_true];
      rewrite Hown; unfold coord_; repeat wp_step;
      (apply request_handled; [exact IH| |done..]);
      first [exact execCheck_quiet|exact timeCheck_quiet].
  - eapply wp_mono; [by apply processActionMessage_as|]. intros s' [ret cmd'] [Hs' Hsrc].
    by apply delays_handled.
Qed.

(** ** The order of processing *)

(** [process], with the assertion that no message of the same source is waiting. *)
Definition assertOrder (process : ActionMessage → M (message_processing_result * ActionMessage))
    cmd : M (message_processing_result * ActionMessage) :=
  s ← fs_get;
  match delayQueue s (source_id cmd) with
  | [] => process cmd
  | _ => λ _, Some Fault
  end.

Lemma bind_cong {A B} (m m' : M A) (f g : A → M B) s :
  m s = m' s → (∀ s' out a, m' s = Some (Ok (s', out, a)) → f a s' = g a s') →
  (m ≫= f) s = (m' ≫= g) s.
Proof.
  intros Hm Hfg. unfold mbind, fsM_bind. rewrite Hm.
  destruct (m' s) as [[[[s' out] a]| |]|]; try done. by rewrite (Hfg s' out a).
Qed.

Lemma bind_ext {A B} (m : M A) (f g : A → M B) s :
  (∀ s' out a, m s = Some (Ok (s', out, a)) → f a s' = g a s') → (m ≫= f) s = (m ≫= g) s.
Proof. by apply bind_cong. Qed.

Lemma fsM_bind_get {A} (f : FS → M A) s : (fs_get ≫= f) s = f s s.
Proof.
  unfold mbind, fsM_bind, fs_get. destruct (f s s) as [[[[s' out] a]| |]|]; done.
Qed.

Lemma assertOrder_free process cmd s :
  delayQueue s (source_id cmd) = [] → assertOrder process cmd s = process cmd s.
Proof. intros E. unfold assertOrder. by rewrite fsM_bind_get, E. Qed.

Lemma covered_free s cmd :
  delay_inv s → covered s → messageShouldBeDelayed s cmd = false →
  delayQueue s (source_id cmd) = [].
Proof.
  intros Hi Hc. rewrite messageShouldBeDelayed_spec by apply Hi.
  intros Hn%bool_decide_eq_false. destruct (delayQueue s (source_id cmd)) eqn:E; [done|].
  destruct Hn. apply Hc. by rewrite E.
Qed.

Lemma push_covered s cmd :
  delay_inv s → covered s → source_id cmd ∈ delayedFederates s →
  covered (pushDelay s (source_id cmd) cmd).
Proof.
  intros Hi Hc Hin k. unfold covers. rewrite delayQueue_push by done.
  destruct (decide (k = source_id cmd)) as [->|]; [done|apply Hc].
Qed.

Section loop.
  Context (process : ActionMessage → M (message_processing_result * ActionMessage)).
  Context (Hprocess : ∀ cmd s, delay_inv s → wp (process cmd) s (handled cmd s)).

(** One message handled in a covered state leaves a covered state, or a result. *)
Lemma handled_covered cmd s s' ret cmd' :
  covered s → handled cmd s s' (ret, cmd') → returnableResult ret = false →
  delay_inv s' ∧ covered s' ∧ (ret = delay_message → source_id cmd' ∈ delayedFederates s').
Proof.
  intros Hc (Hi & Hsrc & Hdel & Hsp) Hr. cbn in *. split; [done|].
  split; [intros k; by apply Hsp|]. by rewrite Hsrc.
Qed.

Lemma queueLoop_inv n ret error_cmd s :
  delay_inv s → (returnableResult ret = false → covered s) →
  wp (queueLoop process n ret error_cmd) s (λ s' _, delay_inv s').
Proof.
  revert ret error_cmd s. induction n as [|n IH]; intros ret error_cmd s Hi Hc; cbn [queueLoop].
  all: wp_step; [by wp_step|]; specialize (Hc eq_refl).
  all: apply wp_bind, wp_get; destruct (q_pop (fs_queue s)) as [[cmd q]|]; [|by wp_step].
  { apply wp_unbounded. }
  do 2 wp_step. set (s1 := s <| fs_queue := q |>).
  assert (delay_inv s1) as Hi1 by by apply inv_queue.
  assert (covered s1) as Hc1 by exact Hc.
  destruct (messageShouldBeDelayed s cmd) eqn:Ed.
  - do 2 wp_step. apply IH; [by apply pushDelay_inv|]. intros _. apply push_covered; [done..|].
    rewrite messageShouldBeDelayed_spec in Ed by apply Hi. by apply bool_decide_eq_true in Ed.
  - wp_step. eapply wp_mono; [by apply Hprocess|]. intros s2 [ret2 cmd2] Hs2.
    pose proof (handled_covered cmd s1 s2 ret2 cmd2 Hc1 Hs2) as Hh.
    destruct Hs2 as (Hi2 & _). wp_step. case_bool_decide as Hr; wp_step; apply IH.
    + by apply pushDelay_inv.
    + intros Hret. destruct (Hh Hret) as (_ & ? & Hin). apply push_covered; auto.
    + done.
    + intros Hret. by destruct (Hh Hret) as (_ & ? & _).
Qed.

(** With the assertion the loop does the same. *)
Lemma queueLoop_order n ret error_cmd s :
  delay_inv s → (returnableResult ret = false → covered s) →
  queueLoop (assertOrder process) n ret error_cmd s = queueLoop process n ret error_cmd s.
Proof.
  revert ret error_cmd s. induction n as [|n IH]; intros ret error_cmd s Hi Hc; cbn [queueLoop].
  all: destruct (returnableResult ret); [done|]; specialize (Hc eq_refl).
  all: apply bind_ext; intros s0 out0 s0' E0; injection E0 as <- _ <-.
  all: destruct (q_pop (fs_queue s)) as [[cmd q]|]; [|done].
  { done. }
  apply bind_ext. intros s1 out1 [] E1. injection E1 as E1 _. rewrite <-E1. clear s1 E1.
  set (s1 := s <| fs_queue := q |>).
  assert (delay_inv s1) as Hi1 by by apply inv_queue.
  assert (covered s1) as Hc1 by exact Hc.
  destruct (messageShouldBeDelayed s cmd) eqn:Ed.
  - apply bind_ext. intros s2 out2 [] E2. injection E2 as E2 _. rewrite <-E2.
    apply IH; [by apply pushDelay_inv|]. intros _. apply push_covered; [done..|].
    rewrite messageShouldBeDelayed_spec in Ed by apply Hi. by apply bool_decide_eq_true in Ed.
  - pose proof (covered_free s1 cmd Hi1 Hc1 Ed) as Hfree.
    apply bind_cong; [by apply assertOrder_free|]. intros s2 out2 [ret2 cmd2] E2.
    pose proof (Hprocess cmd s1 Hi1 s2 out2 _ E2) as Hs2.
    pose proof (handled_covered cmd s1 s2 ret2 cmd2 Hc1 Hs2) as Hh. destruct Hs2 as (Hi2 & _).
    apply bind_ext. intros s3 out3 [] E3. case_bool_decide as Hr; injection E3 as E3 _;
      rewrite <-E3; apply IH.
    + by apply pushDelay_inv.
    + intros Hret. destruct (Hh Hret) as (_ & ? & Hin). apply push_covered; auto.
    + done.
    + intros Hret. by destruct (Hh Hret) as (_ & ? & _).
Qed.
End loop.

Lemma finishQueue_delays initError ret error_cmd s :
  wp (finishQueue le initError ret error_cmd) s (λ s' _, same_delays s s').
Proof. unfold finishQueue, coordLocalError. repeat wp_step; done. Qed.

Lemma delay_inv_same s s' : same_delays s s' → delay_inv s → delay_inv s'.
Proof.
  intros [Hq Hd] Hi. eapply inv_delays; [done|rewrite Hd; apply Hi|done].
Qed.

Lemma processQueue_inv fuel n s :
  delay_inv s → wp (processQueue le answer fuel n) s (λ s' _, delay_inv s').
Proof.
  intros Hi. unfold processQueue, processQueueWith, processDelayQueue.
  apply wp_bind, wp_get. wp_step; [by wp_step|]. cbv zeta. wp_step.
  eapply wp_mono; [apply processDelayQueueWith_handled, Hi; apply processActionMessage_handled|].
  intros s1 ret [Hi1 Hc1]. wp_step.
  eapply wp_mono; [apply queueLoop_inv; [apply processActionMessage_handled|done|done]|].
  intros s2 [[ret2 error_cmd]|] Hi2; [|by wp_step]. wp_step.
  eapply wp_mono; [apply finishQueue_delays|]. intros s3 ret3 Hs3. wp_step.
  by eapply delay_inv_same; [exact Hs3|].
Qed.

Lemma addAction_delays s m : same_delays s (addAction s m).
Proof. unfold addAction. by case_match. Qed.

Lemma arrive_delays later s : same_delays s (arrive later s).
Proof.
  revert s. induction later as [|m later IH]; intros s; [done|]. cbn [arrive foldl].
  destruct (addAction_delays s m) as [Hq Hd], (IH (addAction s m)) as [Hq' Hd'].
  split; etrans; eassumption.
Qed.

Lemma same_trans s1 s2 s3 : same_delays s1 s2 → same_delays s2 s3 → same_delays s1 s3.
Proof. intros [Hq Hd] [Hq' Hd']. split; congruence. Qed.

(** A call: the queue is processed from a state with the same delays, and the rest of the
    call leaves them alone. *)
Lemma call_inv {A} fuel n s s1 (rest : option message_processing_result → M A) :
  delay_inv s → same_delays s s1 →
  (∀ res s2, wp (rest res) s2 (λ s' _, same_delays s2 s')) →
  wp (processQueue le answer fuel n) s1 (λ s2 res, wp (rest res) s2 (λ s' _, delay_inv s')).
Proof.
  intros Hi Hs Hrest. eapply wp_mono; [by apply processQueue_inv; eapply delay_inv_same|].
  intros s2 res Hi2. eapply wp_mono; [apply Hrest|]. intros s3 a Hs3.
  by eapply delay_inv_same; [exact Hs3|].
Qed.

Lemma generic_inv fuel n later s :
  delay_inv s →
  wp (genericUnspecifiedQueueProcess le answer fuel n later) s (λ s' _, delay_inv s').
Proof.
  intros Hi. unfold genericUnspecifiedQueueProcess. do 3 wp_step.
  apply (call_inv _ _ s); [done|apply arrive_delays|]. intros res s2. by repeat wp_step.
Qed.

Lemma finalizeLoop_inv k fuel n later s :
  delay_inv s → wp (finalizeLoop le answer k fuel n later) s (λ s' _, delay_inv s').
Proof.
  revert later s. induction k as [|k IH]; intros later s Hi; [apply wp_unbounded|].
  cbn [finalizeLoop]. wp_step. eapply wp_mono; [by apply generic_inv|].
  intros s1 res Hi1. cbv beta in Hi1.
  destruct res as [[]|]; first [by apply IH|by wp_step].
Qed.

Lemma fed_step_inv s s' : fed_step le answer s s' → delay_inv s → delay_inv s'.
Proof.
  intros Hstep Hi. destruct Hstep as [? ? ? ? ? ? E|? ? ? ? ? ? E|? ? ? ? ? ? ? E
    |? ? ? ? ? ? ? ? E|? ? ? ? ? ? E|? ? ? ? ? ? ? E|m|cmd|htype ? ? ? ?|id| |? ? ? ? E].
  1-6: revert E; apply (wp_elim (λ s' _, delay_inv s')).
  - unfold waitSetup. do 2 wp_step.
    apply processQueue_inv. by eapply delay_inv_same; [apply arrive_delays|].
  - unfold enterInitializingMode. do 3 wp_step.
    apply (call_inv _ _ s); [done|apply arrive_delays|]. intros r s2. by repeat wp_step.
  - unfold enterExecutingMode. do 3 wp_step. apply (call_inv _ _ s); [done| |].
    { eapply same_trans; [apply addAction_delays|apply arrive_delays]. }
    intros r s2. repeat wp_step; by repeat case_match.
  - unfold requestTime. do 3 wp_step. apply (call_inv _ _ s); [done| |].
    { eapply same_trans; [|apply arrive_delays]. by eapply same_trans; [|apply addAction_delays]. }
    intros r s2. repeat wp_step; by repeat case_match.
  - by apply generic_inv.
  - unfold finalize. apply wp_bind, wp_get. wp_step; [by wp_step|]. by apply finalizeLoop_inv.
  - by eapply delay_inv_same; [apply addAction_delays|].
  - eapply delay_inv_same; [|exact Hi]. destruct (setters_delays s) as (? & ? & ? & ?).
    unfold setProperties. repeat case_match; auto using addAction_delays; done.
  - eapply delay_inv_same; [|exact Hi]. unfold createInterface. by destruct htype.
  - eapply delay_inv_same; [|exact Hi]. unfold fs_receive. by repeat case_match.
  - eapply delay_inv_same; [|exact Hi]. unfold fs_receiveAny. by repeat case_match.
  - eapply delay_inv_same; [|exact Hi]. unfold checkAndSetValue in E.
    repeat case_match; by simplify_eq.
Qed.

Lemma new_inv fedName fedInfo parent :
  delay_inv ((newFederateState fedName fedInfo) <| fs_parent := parent |>).
Proof.
  apply (delay_inv_same (initialFederateState fedName)).
  2:{ split; [constructor..|]. intros k m. unfold delayQueue. by intros ?%elem_of_nil. }
  apply (same_trans _ (newFederateState fedName fedInfo)); [|done].
  unfold newFederateState. cbv zeta.
  assert (∀ A (f : FS → A → FS) l s, (∀ s x, same_delays s (f s x)) → same_delays s (foldl f s l))
    as Hfold.
  { intros A f l s Hf. revert s. induction l as [|x l IH]; intros s; [done|]. cbn [foldl].
    by eapply same_trans. }
  eapply same_trans; [|apply Hfold; intros; apply setters_delays].
  eapply same_trans; [|apply Hfold; intros; apply setters_delays].
  apply Hfold. intros. apply setters_delays.
Qed.


End order.
