(* ===== verification/FederateTermination.v ===== *)
(** * The processing of the queue returns

    The mutual recursion of [processActionMessage] and [processDelayQueue] ends, because a
    federate never delays its own messages and hence finds no request of its own in a
    delay queue.  The proofs use a total-correctness variant of the calculus of
    FederateFacts.v. *)

From S2P Require Import Prelude HelicsTime Ids Flags ActionMessage MessageCodec.
From S2P Require Import Definitions TimeDependencies TimeCoordinator TimeCoordinatorFacts.
From S2P Require Import HandleManager InputInfo InputFacts Interfaces InterfaceInfo.
From S2P Require Import FederateState FederateFacts FederateOrder.

(** ** The id of the coordinator *)

Section source.
  Context `{TimeRep}.
  Implicit Types (s : TimeCoordinator) (cmd : ActionMessage).

Lemma updateNextPossibleEventTime_source s :
  tc_source_id (updateNextPossibleEventTime s) = tc_source_id s.
Proof. unfold updateNextPossibleEventTime. by destruct (uninterruptible (info s)). Qed.

Lemma updateTimeFactors_source s : tc_source_id (updateTimeFactors s).1 = tc_source_id s.
Proof.
  unfold updateTimeFactors. destruct (factorsLoop _ _) as [[minNext minminDe] minDe].
  exact (updateNextPossibleEventTime_source (s <| time_minminDe := Z.min minDe minminDe |>)).
Qed.

Lemma timeRequest_source s t it vt mt :
  tc_source_id (timeRequest s t it vt mt).1 = tc_source_id s.
Proof.
  unfold timeRequest. cbv zeta. case_match eqn:E. cbn [fst].
  rewrite updateTimeFactors_source. repeat case_match; by simplify_eq.
Qed.

Lemma enteringExecMode_source s mode :
  tc_source_id (enteringExecMode s mode).1 = tc_source_id s.
Proof. unfold enteringExecMode. by repeat case_match. Qed.

Lemma checkExecEntry_source s : tc_source_id (checkExecEntry s).1.1 = tc_source_id s.
Proof. unfold checkExecEntry. by repeat case_match. Qed.

Lemma updateValueTime_source s t : tc_source_id (updateValueTime s t).1 = tc_source_id s.
Proof. unfold updateValueTime, updateNextExecutionTime. by repeat case_match. Qed.

Lemma updateMessageTime_source s t : tc_source_id (updateMessageTime s t).1 = tc_source_id s.
Proof. unfold updateMessageTime, updateNextExecutionTime. by repeat case_match. Qed.

Lemma addDependent_source s fed : tc_source_id (addDependent s fed).1 = tc_source_id s.
Proof. unfold addDependent. by repeat case_match. Qed.

Lemma tc_addDependency_source s fed :
  tc_source_id (tc_addDependency s fed).1 = tc_source_id s.
Proof. unfold tc_addDependency. by repeat case_match. Qed.

Lemma processDependencyUpdateMessage_source s cmd :
  tc_source_id (processDependencyUpdateMessage s cmd) = tc_source_id s.
Proof.
  unfold processDependencyUpdateMessage, tc_removeDependency, removeDependent.
  repeat case_match; rewrite ?addDependent_source, ?tc_addDependency_source; done.
Qed.

Lemma processTimeMessage_source s cmd :
  tc_source_id (processTimeMessage s cmd).1.1 = tc_source_id s.
Proof.
  assert (∀ s1 : TimeCoordinator, tc_source_id s1 = tc_source_id s →
    tc_source_id (if isDelayableMessage cmd (tc_source_id s1) then
        match getDependencyInfo (dependencies s1) (source_id cmd) with
        | None => (s1, [], no_effect)
        | Some dep =>
            if delayedBy s1 dep then (s1, [], delay_processing)
            else let '(s, res) := updateDependencyTime s1 cmd in (s, [], res)
        end
      else let '(s, res) := updateDependencyTime s1 cmd in (s, @nil ActionMessage, res)).1.1
    = tc_source_id s) as Hupd.
  { intros s1 Hs1. pose proof (proj2 (updateDependencyTime_frame s1 cmd)) as Hu.
    destruct (updateDependencyTime s1 cmd). cbn [fst] in Hu.
    repeat case_match; cbn [fst]; congruence. }
  pose proof (proj2 (removeDependent_granted s (source_id cmd))) as Hrem.
  unfold processTimeMessage. destruct (action cmd); try (by apply Hupd);
    unfold processTimeBlockMessage; by repeat case_match; simplify_eq.
Qed.

Lemma sayBye_source le s a s' out :
  is_bye a = true → sayBye le s a = Ok (s', out) → tc_source_id s' = tc_source_id s.
Proof.
  intros Ha. unfold sayBye. cbv zeta.
  set (s0 := s <| tc_time_granted := _ |> <| time_grantBase := _ |>).
  set (bye := (newMessage a) <| source_id := _ |>).
  destruct (connections s0) as [|fed [|fed2 conns]]; [by intros [= <- _]| |].
  - case_match; [|by intros [= <- _]].
    pose proof (processTimeMessage_source s0 (bye <| dest_id := fed |>)) as Hp.
    destruct (processTimeMessage s0 _) as [[s1 out1] res]. intros [= <- _]. exact Hp.
  - destruct (byeLoop le s0 _ bye _) as [[[s1 out1] multi]| |] eqn:E;
      cbn [mbind outcome_bind]; [|done..]. intros [= <- _].
    by apply byeLoop_frame in E as (_ & E & _).
Qed.

Lemma disconnect_source le s s' out :
  disconnect le s = Ok (s', out) → tc_source_id s' = tc_source_id s.
Proof. by apply sayBye_source. Qed.

Lemma localError_source le s s' out :
  localError le s = Ok (s', out) → tc_source_id s' = tc_source_id s.
Proof. unfold localError. case_match; [by intros [= <- _]|]. by apply sayBye_source. Qed.

Lemma grantAs_source s res : tc_source_id (grantAs s res).1.1 = tc_source_id s.
Proof. unfold grantAs, updateTimeGrant. by repeat case_match; simplify_eq. Qed.

Lemma checkTimeGrant_source le s s' out res :
  checkTimeGrant le s = Ok (s', out, res) → tc_source_id s' = tc_source_id s.
Proof.
  unfold checkTimeGrant. pose proof (updateTimeFactors_source s) as Hf.
  destruct (updateTimeFactors s) as [s1 update]. cbn [fst] in Hf. rewrite <-Hf.
  case_match; [|case_match; [by intros [= <- _ _]|]].
  - destruct (disconnect le _) as [[s2 out2]| |] eqn:E; cbn [mbind outcome_bind]; [|done..].
    intros [= <- _ _]. by apply disconnect_source in E.
  - assert (tc_source_id (grantDecision s1 update).1.1 = tc_source_id s1) as Hg.
    { unfold grantDecision. repeat case_match; first [done|by etrans; [apply grantAs_source|]]. }
    intros [= E]. by rewrite E in Hg.
Qed.

(** A message of the federate itself is never delayed. *)
Lemma processTimeMessage_delay s cmd :
  (processTimeMessage s cmd).2 = delay_processing → source_id cmd ≠ tc_source_id s.
Proof.
  intros Hd Heq. pose proof (proj2 (removeDependent_granted s (source_id cmd))) as Hrem.
  assert (isDelayableMessage cmd (tc_source_id s) = false) as He.
  { unfold isDelayableMessage. by rewrite (proj2 (Z.eqb_eq _ _) Heq), andb_false_r. }
  unfold processTimeMessage in Hd. destruct (action cmd);
    rewrite ?Hrem, ?He in Hd; unfold updateDependencyTime, processTimeBlockMessage in Hd;
    repeat case_match; by simplify_eq.
Qed.
End source.

(** ** Total correctness *)

Section total.
  Context `{TimeRep} `{DualMapped C} `{UnitsLib} `{Fmt} `{BlockingQueue Q}.
  Abbreviation FS := (FederateState C Q).
  Abbreviation M := (fsM (C := C) (Q := Q)).
  Implicit Types (s : FS) (cmd : ActionMessage).

(** The bound is enough, and every normal result satisfies the postcondition. *)
Definition total {A} (m : M A) s (P : FS → A → Prop) : Prop :=
  match m s with
  | None => False
  | Some (Ok (s', _, a)) => P s' a
  | Some _ => True
  end.

Lemma total_and {A} (m : M A) s (P P' : FS → A → Prop) :
  total m s P → wp m s P' → total m s (λ s' a, P s' a ∧ P' s' a).
Proof.
  unfold total, wp. destruct (m s) as [[[[s' out] a]| |]|]; try done. intros HP HP'.
  split; [done|]. by apply (HP' s' out).
Qed.

Lemma total_mono {A} (m : M A) s (P P' : FS → A → Prop) :
  total m s P → (∀ s' a, P s' a → P' s' a) → total m s P'.
Proof. unfold total. destruct (m s) as [[[[s' out] a]| |]|]; auto. Qed.

Lemma total_bind {A B} (m : M A) (f : A → M B) s P :
  total m s (λ s' a, total (f a) s' P) → total (m ≫= f) s P.
Proof.
  unfold total, mbind, fsM_bind. destruct (m s) as [[[[s1 out1] a]| |]|]; try done.
  by destruct (f a s1) as [[[[s2 out2] b]| |]|].
Qed.

Lemma total_ret {A} (a : A) s (P : FS → A → Prop) : P s a → total (mret a) s P.
Proof. done. Qed.

Lemma total_get s (P : FS → FS → Prop) : P s s → total fs_get s P.
Proof. done. Qed.

Lemma total_modify f s (P : FS → unit → Prop) : P (f s) tt → total (fs_modify f) s P.
Proof. done. Qed.

Lemma total_route msg s (P : FS → unit → Prop) :
  fs_parent s = true → P s tt → total (routeMessage msg) s P.
Proof. unfold total, routeMessage. by intros ->. Qed.

Lemma total_routeAll msgs s (P : FS → unit → Prop) :
  fs_parent s = true → P s tt → total (routeAll msgs) s P.
Proof.
  intros Hp HP. induction msgs as [|msg msgs IH]; [done|]. cbn [routeAll].
  by apply total_bind, total_route.
Qed.

Lemma total_routeToEach rem dests s (P : FS → unit → Prop) :
  fs_parent s = true → P s tt → total (routeToEach rem dests) s P.
Proof.
  intros Hp HP. induction dests as [|d dests IH]; [done|]. cbn [routeToEach].
  by apply total_bind, total_route.
Qed.

Lemma total_coord {A} (f : TimeCoordinator → outcome (TimeCoordinator * list ActionMessage * A))
    s (P : FS → A → Prop) :
  fs_parent s = true →
  (∀ tc msgs a, f (timeCoord s) = Ok (tc, msgs, a) → P (s <| timeCoord := tc |>) a) →
  total (coord f) s P.
Proof.
  intros Hp HP. unfold coord. apply total_bind, total_get.
  destruct (f (timeCoord s)) as [[[tc msgs] a]| |] eqn:E; [|done..].
  apply total_bind, total_modify, total_bind, total_routeAll; [done|]. apply total_ret. eauto.
Qed.

(** What the processing of a message keeps, in a federate with a core. *)
Definition frame s : bool * Q * global_federate_id * global_federate_id :=
  (fs_parent s, fs_queue s, fs_global_id s, tc_source_id (timeCoord s)).

Lemma frame_coord s tc :
  tc_source_id tc = tc_source_id (timeCoord s) → frame (s <| timeCoord := tc |>) = frame s.
Proof. unfold frame. cbn. by intros ->. Qed.

Lemma frame_ext s s' :
  fs_parent s' = fs_parent s → fs_queue s' = fs_queue s → fs_global_id s' = fs_global_id s →
  tc_source_id (timeCoord s') = tc_source_id (timeCoord s) → frame s' = frame s.
Proof. unfold frame. congruence. Qed.

Lemma frame_parent s s' : frame s' = frame s → fs_parent s = true → fs_parent s' = true.
Proof. unfold frame. by intros [= -> _ _ _]. Qed.

Lemma setState_frame s st : frame (setState s st) = frame s.
Proof. unfold setState. by repeat case_match. Qed.

Lemma total_wp {A} (m : M A) s P : total m s P → wp m s P.
Proof. unfold total. intros Hm s' out a E. by rewrite E in Hm. Qed.

Lemma total_returns {A} (m : M A) s P : total m s P → m s ≠ None.
Proof. unfold total. by destruct (m s) as [[[[s' out] a]| |]|]. Qed.
End total.

#[global] Opaque total.

Ltac total_step :=
  match goal with
  | |- total (mret _) _ _ => apply total_ret
  | |- total (_ ≫= _) _ _ => apply total_bind
  | |- total fs_get _ _ => apply total_get
  | |- total (fs_modify _) _ _ => apply total_modify
  | |- total (routeMessage _) _ _ => apply total_route; [done|]
  | |- total (routeToEach _ _) _ _ => apply total_routeToEach; [done|]
  | |- total (coord _) _ _ => apply total_coord; [done|]; intros ?tc ?msgs ?a ?Ecoord
  | |- total (if ?b then _ else _) _ _ => destruct b eqn:?
  | |- total (match ?x with _ => _ end) _ _ => destruct x eqn:?
  end.

Section frames.
  Context `{TimeRep} `{DualMapped C} `{UnitsLib} `{Fmt} `{BlockingQueue Q}.
  Context (le : bool) (answer : FederateState C Q → string → string).
  Abbreviation FS := (FederateState C Q).
  Abbreviation M := (fsM (C := C) (Q := Q)).
  Implicit Types (s : FS) (cmd : ActionMessage).

(** A coordinator operation with a result that is not an outcome. *)
Lemma coord_pure {A} (r : TimeCoordinator * list ActionMessage * A) tc msgs a source :
  tc_source_id r.1.1 = source → Ok r = Ok (tc, msgs, a) → tc_source_id tc = source.
Proof. by intros <- [= ->]. Qed.

Lemma execCheck_frame s :
  fs_parent s = true → total execCheck s (λ s' _, frame s' = frame s).
Proof.
  intros Hp. unfold execCheck. repeat total_step; try done.
  all: apply (coord_pure _ _ _ _ (tc_source_id (timeCoord s))) in Ecoord;
    [|apply checkExecEntry_source].
  all: first [by apply frame_coord|etrans; [exact (setState_frame _ HELICS_EXECUTING)|]];
    by apply frame_coord.
Qed.

Lemma timeCheck_frame s :
  fs_parent s = true → total (timeCheck le) s (λ s' _, frame s' = frame s).
Proof.
  intros Hp. unfold timeCheck. repeat total_step; try done;
    apply checkTimeGrant_source in Ecoord; by apply frame_coord.
Qed.

Lemma coordDisconnect_frame s (P : FS → unit → Prop) :
  fs_parent s = true →
  (∀ tc, tc_source_id tc = tc_source_id (timeCoord s) → P (s <| timeCoord := tc |>) tt) →
  total (coordDisconnect le) s P.
Proof.
  intros Hp HP. unfold coordDisconnect. total_step. destruct a.
  destruct (disconnect le _) as [[tc' out]| |] eqn:E; try done.
  apply disconnect_source in E. injection Ecoord as <- _. by apply HP.
Qed.

Lemma coordLocalError_frame s (P : FS → unit → Prop) :
  fs_parent s = true →
  (∀ tc, tc_source_id tc = tc_source_id (timeCoord s) → P (s <| timeCoord := tc |>) tt) →
  total (coordLocalError le) s P.
Proof.
  intros Hp HP. unfold coordLocalError. total_step. destruct a.
  destruct (localError le _) as [[tc' out]| |] eqn:E; try done.
  apply localError_source in E. injection Ecoord as <- _. by apply HP.
Qed.

Lemma coord_pure_frame f s (P : FS → unit → Prop) :
  fs_parent s = true → tc_source_id (f (timeCoord s)).1 = tc_source_id (timeCoord s) →
  (∀ tc, tc_source_id tc = tc_source_id (timeCoord s) → P (s <| timeCoord := tc |>) tt) →
  total (coord_ f) s P.
Proof.
  intros Hp Hf HP. unfold coord_. total_step. destruct a. apply HP.
  destruct (f (timeCoord s)). by injection Ecoord as <- _.
Qed.

(** A delayed message is not one of the federate. *)
Definition delays_others cmd s (ret : message_processing_result) : Prop :=
  ret = delay_message → source_id cmd ≠ tc_source_id (timeCoord s).

Lemma addFederateToDelay_frame s k : frame (addFederateToDelay s k) = frame s.
Proof. unfold addFederateToDelay. by repeat case_match. Qed.

Lemma timeMessage_frame cmd next s :
  (∀ s, fs_parent s = true → total next s (λ s' _, frame s' = frame s)) →
  (∀ s, wp next s (λ s' ret, same_delays s s' ∧ ret ≠ delay_message)) →
  fs_parent s = true →
  total (timeMessage cmd next) s (λ s' ret, frame s' = frame s ∧ delays_others cmd s ret).
Proof.
  intros Hnext Hquiet Hp. unfold timeMessage. total_step. total_step.
  pose proof (processTimeMessage_delay (timeCoord s) cmd) as Hd.
  pose proof (processTimeMessage_source (timeCoord s) cmd) as Htc.
  injection Ecoord as E. rewrite E in Hd, Htc. cbn [fst snd] in Hd, Htc. clear E.
  destruct a.
  - total_step. split; [by apply frame_coord|done].
  - eapply total_mono; [apply total_and; [by apply Hnext|apply Hquiet]|].
    intros s' ret [Hs' [_ Hr]]. split; [|by intros ?; destruct Hr]. etrans; [exact Hs'|by apply frame_coord].
  - repeat total_step. split; [|by intros _; apply Hd].
    etrans; [apply addFederateToDelay_frame|by apply frame_coord].
Qed.

Lemma timeMessage_check_frame cmd s :
  fs_parent s = true →
  total (timeMessage cmd (timeCheck le)) s
    (λ s' ret, frame s' = frame s ∧ delays_others cmd s ret).
Proof. by apply timeMessage_frame; [apply timeCheck_frame|apply timeCheck_quiet]. Qed.

Lemma timeMessage_exec_frame cmd s :
  fs_parent s = true →
  total (timeMessage cmd execCheck) s
    (λ s' ret, frame s' = frame s ∧ delays_others cmd s ret).
Proof. by apply timeMessage_frame; [apply execCheck_frame|apply execCheck_quiet]. Qed.

(** Updates after a change of the state. *)
Lemma frame_setState s s1 s' st :
  frame s1 = frame s → frame s' = frame (setState s1 st) → frame s' = frame s.
Proof. intros Hs1 ->. by rewrite setState_frame. Qed.

Lemma processError_frame cmd s :
  fs_parent s = true →
  total (processError le cmd) s (λ s' ret, frame s' = frame s ∧ delays_others cmd s ret).
Proof.
  intros Hp. unfold processError. do 2 total_step.
  case_match; [|by apply timeMessage_check_frame].
  case_match; [|by total_step]. total_step. case_match.
  - apply coordLocalError_frame; [done|]. intros tc Htc. repeat total_step. split; [|done].
    by eapply (frame_setState _ _ _ HELICS_ERROR); [apply frame_coord|].
  - repeat total_step. split; [|done].
    by eapply (frame_setState _ s _ HELICS_ERROR).
Qed.

Lemma processDisconnect_frame cmd s :
  fs_parent s = true →
  total (processDisconnect le cmd) s
    (λ s' r, frame s' = frame s ∧ delays_others cmd s r.1).
Proof.
  intros Hp. unfold processDisconnect. do 2 total_step. case_match.
  - case_match; [|by total_step]. total_step. apply coordDisconnect_frame; [done|].
    intros tc Htc. total_step. total_step. total_step. apply total_route.
    { eapply frame_parent; [apply setState_frame|done]. }
    total_step. split; [|done]. etrans; [apply setState_frame|by apply frame_coord].
  - total_step. eapply total_mono; [by apply timeMessage_check_frame|].
    intros s' ret Hs'. by total_step.
Qed.

Lemma processInitGrant_frame s :
  total processInitGrant s (λ s' _, frame s' = frame s).
Proof.
  unfold processInitGrant. do 2 total_step. case_bool_decide; [|by total_step]. cbv zeta.
  set (s1 := (setState s HELICS_INITIALIZING) <| timeGranted_mode := true |>).
  assert (frame s1 = frame s) as Hs1 by apply (setState_frame s HELICS_INITIALIZING).
  destruct (checkInterfaces s1) as [s2 pcode] eqn:E.
  assert (frame s2 = frame s) as Hs2.
  { rewrite <-Hs1. clearbody s1. unfold checkInterfaces in E. repeat case_match; by simplify_eq. }
  case_match; repeat total_step; [|done]. by rewrite setState_frame.
Qed.

Lemma processFedAck_frame cmd s :
  fs_state s ≠ HELICS_CREATED → total (processFedAck cmd) s (λ s' _, frame s' = frame s).
Proof.
  intros Hs. unfold processFedAck. do 2 total_step. by rewrite bool_decide_false.
Qed.

Lemma deliverValue_frame cmd data sources s :
  fs_parent s = true → total (deliverValue cmd data sources) s (λ s' _, frame s' = frame s).
Proof.
  revert data s. induction sources as [|src sources IH]; intros data s Hp; cbn [deliverValue];
    [by total_step|]. case_match; [|by apply IH].
  do 5 total_step. repeat case_match.
  2: apply coord_pure_frame; [done|apply updateValueTime_source|]; intros tc Htc.
  all: repeat total_step; (eapply total_mono; [by apply IH|]); intros s' ? Hs';
    (etrans; [exact Hs'|]); first [done|by etrans; [by apply frame_coord|]].
Qed.

Lemma closeInterface_frame id type s :
  fs_parent s = true → total (closeInterface id type) s (λ s' _, frame s' = frame s).
Proof. intros Hp. unfold closeInterface. by repeat total_step. Qed.

Lemma setters_frame s :
  (∀ p v, frame (fs_setProperty s p v) = frame s) ∧
  (∀ p v, frame (fs_setIntProperty s p v) = frame s) ∧
  (∀ f v, frame (fs_setOptionFlag s f v) = frame s) ∧
  (∀ cmd, frame (setInterfaceProperty s cmd) = frame s).
Proof.
  assert (∀ p v, tc_source_id (setProperty (timeCoord s) p v) = tc_source_id (timeCoord s))
    as Hset by (intros; unfold setProperty; by repeat case_match).
  split; [|split; [|split]].
  - intros p v. unfold fs_setProperty. repeat case_match; first [done|by apply frame_coord].
  - intros p v. unfold fs_setIntProperty, setIntProperty.
    repeat case_match; first [done|by apply frame_coord].
  - intros f v. unfold fs_setOptionFlag, setOptionFlag. by repeat case_match.
  - intros cmd. unfold setInterfaceProperty. by repeat case_match.
Qed.

Lemma processInterfaceMessage_frame cmd s :
  fs_parent s = true →
  total (processInterfaceMessage answer cmd) s (λ s' _, frame s' = frame s).
Proof.
  intros Hp. destruct (setters_frame s) as (? & ? & ? & ?).
  unfold processInterfaceMessage. do 2 total_step. cbv zeta.
  destruct (action cmd); try (by repeat total_step);
    try (by repeat total_step; auto; apply frame_coord, processDependencyUpdateMessage_source).
  all: case_match; [|by total_step].
  all: first
    [ by apply closeInterface_frame | by apply deliverValue_frame
    | total_step; first [ by apply frame_ext; [done..|apply tc_addDependency_source]
                        | by apply frame_ext; [done..|apply addDependent_source]
                        | apply coord_pure_frame; [done|apply updateMessageTime_source|];
                          intros tc Htc; total_step; by apply frame_ext ] ].
Qed.

End frames.

(** ** Termination *)

Section returns.
  Context `{TimeRep} `{DualMapped C} `{UnitsLib} `{Fmt} `{BlockingQueue Q}.
  Context (le : bool) (answer : FederateState C Q → string → string).
  Abbreviation FS := (FederateState C Q).
  Abbreviation M := (fsM (C := C) (Q := Q)).
  Implicit Types (s : FS) (cmd : ActionMessage).

(** A federate that belongs to a core and has its id, with no message of its own waiting. *)
Record calm s : Prop := {
  calm_parent : fs_parent s = true;
  calm_state : 0 < state_rank (fs_state s);
  calm_id : tc_source_id (timeCoord s) = fs_global_id s;
  calm_inv : delay_inv s;
  calm_queue : delayQueue s (fs_global_id s) = [];
  calm_free : fs_global_id s ∉ delayedFederates s;
}.

Lemma calm_created s : calm s → fs_state s ≠ HELICS_CREATED.
Proof. intros [_ Hr _ _ _ _] E. by rewrite E in Hr. Qed.

(** A message that leaves the queues of the delayed messages alone. *)
Lemma calm_delays cmd s s' ret :
  calm s → frame s' = frame s → state_rank (fs_state s) ≤ state_rank (fs_state s') →
  delays_as cmd s s' ret → delays_others cmd s ret → calm s'.
Proof.
  intros [Hp Hr Hid Hi Hq Hf] [= Hp' _ Hg' Hid'] Hr' Has Ho.
  assert (handled cmd s s' (ret, cmd)) as [Hi' _] by by apply delays_handled.
  destruct Has as [Hqs Hd]. split; [congruence|lia|congruence|done| |]; rewrite Hg'.
  - unfold delayQueue in *. by rewrite Hqs.
  - destruct Hd as [[_ ->]|[Hret ->]]; [done|].
    destruct (addFederateToDelay_spec answer s (source_id cmd) (inv_delayed s Hi)) as [_ Hin].
    rewrite Hin. intros [Heq|]; [|done]. by apply (Ho Hret); rewrite Hid.
Qed.

(** The end of a case: a step that may delay, or a check that may not. *)
Lemma result_frame (m : M message_processing_result) cmd s :
  total m s (λ s' ret, frame s' = frame s ∧ delays_others cmd s ret) →
  total (ret ← m; mret (ret, cmd)) s (λ s' r, frame s' = frame s ∧ delays_others cmd s r.1).
Proof. intros Hm. total_step. eapply total_mono; [exact Hm|]. intros s' ret Hs'. by total_step. Qed.

Lemma check_frame (m : M message_processing_result) cmd cmd' s s1 :
  total m s1 (λ s' _, frame s' = frame s1) →
  wp m s1 (λ s' ret, same_delays s1 s' ∧ ret ≠ delay_message) → frame s1 = frame s →
  total (ret ← m; mret (ret, cmd')) s1
    (λ s' r, frame s' = frame s ∧ delays_others cmd s r.1).
Proof.
  intros Hm Hq Hs. total_step. eapply total_mono; [apply total_and; [exact Hm|exact Hq]|].
  intros s' ret [Hs' [_ Hret]]. total_step. split; [congruence|]. by intros ?; destruct Hret.
Qed.

(** A message other than a request of the federate: one unit of fuel is enough. *)
Lemma processActionMessage_frame fuel cmd s :
  is_request cmd s = false → fs_parent s = true → fs_state s ≠ HELICS_CREATED →
  total (processActionMessage le answer (S fuel) cmd) s
    (λ s' r, frame s' = frame s ∧ delays_others cmd s r.1).
Proof.
  intros Hreq Hp Hc. cbn [processActionMessage]. do 2 total_step. cbv zeta.
  unfold is_request in Hreq.
  assert (∀ cmd tc msgs a, Ok (processTimeMessage (timeCoord s) cmd) = Ok (tc, msgs, a) →
    frame (s <| timeCoord := tc |>) = frame s) as Htc.
  { intros cmd' tc msgs a E. apply frame_coord. eapply coord_pure, E.
    apply processTimeMessage_source. }
  destruct (action cmd);
    first
      [ apply total_bind; eapply total_mono; [by apply processInterfaceMessage_frame|];
        intros s' ? Hs'; by total_step
      | by apply processDisconnect_frame
      | apply result_frame; first
          [ by apply timeMessage_check_frame | by apply timeMessage_exec_frame
          | by apply processError_frame ]
      | eapply check_frame; [| |done]; first
          [ by apply execCheck_frame | apply execCheck_quiet | by apply timeCheck_frame
          | apply timeCheck_quiet | apply processInitGrant_frame | apply processInitGrant_quiet
          | by apply processFedAck_frame | apply processFedAck_quiet ]
      | (* cmd_time_block and cmd_time_unblock *)
        do 4 total_step; apply Htc in Ecoord; destruct a; try (by total_step);
        repeat (case_match; try (by total_step)); (eapply check_frame; [| |exact Ecoord]); first
          [ by apply execCheck_frame | apply execCheck_quiet | by apply timeCheck_frame
          | apply timeCheck_quiet ]
      | idtac ].
  - (* cmd_disconnect_fed_ack *)
    case_match; [|by total_step]. total_step. case_match; [apply coordDisconnect_frame; [done|]|];
      intros; repeat total_step; (split; [|done]); rewrite setState_frame;
      [by apply frame_coord|done].
  - (* cmd_exec_request *)
    rewrite (Hreq : (source_id cmd =? fs_global_id s) && (dest_id cmd =? parent_broker_id) = false).
    apply result_frame. by apply timeMessage_exec_frame.
  - (* cmd_stop *)
    do 2 total_step. total_step. apply coordDisconnect_frame.
    { eapply frame_parent; [apply setState_frame|done]. }
    intros tc Htc'. total_step. split; [|done].
    etrans; [by apply frame_coord|apply setState_frame].
  - repeat total_step. split; [apply setState_frame|done].
  - by total_step.
  - (* cmd_time_request *)
    rewrite (Hreq : (source_id cmd =? fs_global_id s) && (dest_id cmd =? parent_broker_id) = false).
    apply result_frame. by apply timeMessage_check_frame.
  - (* cmd_force_time_grant *)
    case_match; [by total_step|]. repeat total_step. apply Htc in Ecoord. by split.
Qed.

(** The same, with what it does to the delays. *)
Lemma processActionMessage_calm fuel cmd s :
  calm s → is_request cmd s = false →
  total (processActionMessage le answer (S fuel) cmd) s (λ s' r,
    frame s' = frame s ∧ calm s' ∧ delayQueues s' = delayQueues s ∧
    source_id r.2 = source_id cmd ∧ delays_others cmd s r.1).
Proof.
  intros Hs Hreq. pose proof (calm_parent s Hs) as Hp. pose proof (calm_created s Hs) as Hc.
  eapply total_mono.
  { apply total_and; [by apply processActionMessage_frame|].
    apply wp_and; [by apply processActionMessage_as|apply processActionMessage_ranked]. }
  intros s' [ret cmd'] ([Hf Ho] & [Has Hsrc] & Hr). cbn [fst snd] in *.
  split; [done|]. split; [by eapply calm_delays|]. destruct Has as [Hq _]. done.
Qed.

(** A message that waits is not a request of the federate. *)
Lemma waiting_not_request s k cmd rest :
  calm s → delayQueue s k = cmd :: rest → k ≠ fs_global_id s ∧ is_request cmd s = false.
Proof.
  intros Hs E. assert (k ≠ fs_global_id s) as Hk.
  { intros ->. by rewrite (calm_queue s Hs) in E. }
  split; [done|]. assert (source_id cmd = k) as Hsrc.
  { apply (inv_source s (calm_inv s Hs) k). rewrite E. by left. }
  unfold is_request. by rewrite Hsrc, (proj2 (Z.eqb_neq _ _) Hk), andb_false_r.
Qed.

Lemma calm_set s k q :
  calm s → k ≠ fs_global_id s → (∀ m, m ∈ q → source_id m = k) → calm (set_delayQueue s k q).
Proof.
  intros [Hp Hr Hid Hi Hq Hf] Hk Hm. split; [done..| | |done]; [by apply set_delayQueue_inv|].
  change (fs_global_id (set_delayQueue s k q)) with (fs_global_id s).
  by rewrite delayQueue_set, decide_False by auto.
Qed.

Lemma drainQueue_returns fuel k n s :
  calm s → (length (delayQueue s k) ≤ n)%nat →
  total (drainQueue (processActionMessage le answer (S fuel)) k n) s
    (λ s' _, frame s' = frame s ∧ calm s').
Proof.
  revert s. induction n as [|n IH]; intros s Hs Hn; cbn [drainQueue]; do 2 total_step;
    destruct (delayQueue s k) as [|cmd rest] eqn:E; try (by total_step); [cbn in Hn; lia|].
  destruct (waiting_not_request s k cmd rest Hs E) as [Hk Hreq].
  case_match; [by total_step|]. total_step.
  eapply total_mono; [by apply processActionMessage_calm|].
  intros s1 [ret cmd'] (Hf & Hs1 & Hqs & Hsrc & _). cbn [fst snd] in *.
  assert (delayQueue s1 k = cmd :: rest) as E1 by (unfold delayQueue in *; by rewrite Hqs).
  assert (∀ m, m ∈ cmd :: rest → source_id m = k) as Hm.
  { rewrite <-E. apply (inv_source s (calm_inv s Hs)). }
  assert (k ≠ fs_global_id s1) as Hk1 by (injection Hf as _ _ Hg _; by rewrite Hg).
  assert (calm (set_delayQueue s1 k rest)) as Htail.
  { apply calm_set; [done..|]. intros m ?. apply Hm. by right. }
  destruct ret; do 2 total_step; rewrite E1; cbn [tail]; try (by total_step).
  - eapply total_mono.
    { apply IH; [done|]. rewrite delayQueue_set, decide_True by done.
      cbn in Hn. case_bool_decide; cbn; lia. }
    intros s2 a [Hf2 Hs2]. split; [|done]. by etrans; [exact Hf2|].
  - total_step. split; [done|]. apply calm_set; [done..|].
    intros m [->|Hm']%elem_of_cons; [rewrite Hsrc|]; apply Hm; [by left|by right].
Qed.

Lemma drainAll_returns fuel keys ret s :
  calm s →
  total (drainAll (processActionMessage le answer (S fuel)) keys ret) s
    (λ s' _, frame s' = frame s ∧ calm s').
Proof.
  revert ret s. induction keys as [|k keys IH]; intros ret s Hs; cbn [drainAll];
    [by total_step|]. do 3 total_step. eapply total_mono; [by apply drainQueue_returns|].
  intros s1 ret1 [Hf1 Hs1]. case_match; [by total_step|].
  eapply total_mono; [by apply IH|]. intros s2 ret2 [Hf2 Hs2]. split; [congruence|done].
Qed.

Lemma processDelayQueue_returns fuel s :
  calm s →
  total (processDelayQueueWith (processActionMessage le answer (S fuel))) s
    (λ s' _, frame s' = frame s ∧ calm s').
Proof.
  intros Hs. unfold processDelayQueueWith. do 4 total_step.
  set (s1 := s <| delayedFederates := [] |>).
  assert (calm s1) as Hs1.
  { destruct Hs as [Hp Hr Hid [Hk Hd Hsrc] Hq Hf].
    split; [done..| |done|by intros ?%elem_of_nil]. by split; [|constructor|]. }
  by apply (drainAll_returns fuel _ continue_processing s1).
Qed.

(** Any message: two units of fuel are enough. *)
Definition accepted cmd s s' (r : message_processing_result * ActionMessage) : Prop :=
  frame s' = frame s ∧ calm s' ∧ source_id r.2 = source_id cmd ∧
  (r.1 = delay_message → source_id cmd ≠ fs_global_id s).

Lemma request_returns fuel (check : M message_processing_result) cmd cmd' s s1 :
  (∀ s, fs_parent s = true → total check s (λ s' _, frame s' = frame s)) →
  (∀ s, wp check s (λ s' ret, same_delays s s' ∧ ret ≠ delay_message)) →
  (∀ s, wp check s (λ s' _, ranked s s')) →
  calm s1 → frame s1 = frame s → source_id cmd' = source_id cmd →
  total (ret ← processDelayQueueWith (processActionMessage le answer (S fuel));
         if returnableResult ret then mret (ret, cmd)
         else ret ← check; mret (ret, cmd')) s1 (accepted cmd s).
Proof.
  intros Hframe Hquiet Hrank Hs1 Hf1 Hsrc. total_step.
  eapply total_mono; [by apply processDelayQueue_returns|]. intros s2 ret [Hf2 Hs2].
  assert (frame s2 = frame s) as Hf by congruence. case_match eqn:Er.
  { total_step. split; [done|]. split; [done|]. split; [done|]. cbn. by intros ->. }
  total_step. eapply total_mono.
  { apply total_and; [apply Hframe, Hs2|apply wp_and; [apply Hquiet|apply Hrank]]. }
  intros s3 ret3 (Hf3 & [Hd3 Hr3] & Hrk). total_step.
  split; [congruence|]. split; [|split; [done|]]; [|done].
  by eapply (calm_delays cmd s2); [done|done|done|apply quiet_as|intros ?; destruct Hr3].
Qed.

Lemma calm_coord s tc :
  calm s → tc_source_id tc = tc_source_id (timeCoord s) →
  calm ((s <| timeCoord := tc |>) <| timeGranted_mode := false |>).
Proof. intros [Hp Hr Hid [] Hq Hf] Htc. split; try done. cbn. congruence. Qed.

Lemma processActionMessage_returns fuel cmd s :
  calm s → total (processActionMessage le answer (S (S fuel)) cmd) s (accepted cmd s).
Proof.
  intros Hs. destruct (is_request cmd s) eqn:Hreq.
  - apply andb_true_iff in Hreq as [Ha Hown]. remember (S fuel) as n eqn:En.
    cbn [processActionMessage]. subst n. do 2 total_step. cbv zeta.
    pose proof (calm_parent s Hs) as Hp.
    apply orb_true_iff in Ha as [->%bool_decide_eq_true| ->%bool_decide_eq_true]; rewrite Hown;
      do 3 total_step;
      (apply coord_pure_frame; [done|first [apply enteringExecMode_source|apply timeRequest_source]|]);
      intros tc Htc; do 2 total_step;
      (apply request_returns; [| | |by apply calm_coord|by apply frame_ext|done]).
    all: first [ exact execCheck_frame | exact execCheck_quiet | exact (timeCheck_frame le)
               | exact (timeCheck_quiet le) | exact execCheck_ranked | exact (timeCheck_ranked le) ].
  - eapply total_mono; [by apply processActionMessage_calm|].
    intros s' r (Hf & Hs' & _ & Hsrc & Ho). split; [done|]. split; [done|]. split; [done|].
    intros Hret. rewrite <-(calm_id s Hs). by apply Ho.
Qed.

Lemma calm_push s cmd :
  calm s → source_id cmd ≠ fs_global_id s → calm (pushDelay s (source_id cmd) cmd).
Proof.
  intros [Hp Hr Hid Hi Hq Hf] Hsrc. split; [done..| | |done]; [by apply pushDelay_inv|].
  change (fs_global_id (pushDelay s (source_id cmd) cmd)) with (fs_global_id s).
  by rewrite delayQueue_push, decide_False by auto.
Qed.

Lemma calm_pop s q : calm s → calm (s <| fs_queue := q |>).
Proof. intros [Hp Hr Hid [] Hq Hf]. by split. Qed.

Context `{!BlockingQueueLaws Q}.

Lemma queueLoop_returns fuel n ret error_cmd s :
  calm s → (length (q_list (fs_queue s)) ≤ n)%nat →
  total (queueLoop (processActionMessage le answer (S (S fuel))) n ret error_cmd) s
    (λ s' _, calm s').
Proof.
  revert ret error_cmd s. induction n as [|n IH]; intros ret error_cmd s Hs Hn; cbn [queueLoop];
    (case_match; [by total_step|]); do 2 total_step; pose proof (q_list_pop (fs_queue s)) as Hpop;
    destruct (q_pop (fs_queue s)) as [[cmd q]|]; try (by total_step);
    rewrite Hpop in Hn; cbn in Hn; [lia|]. apply le_S_n in Hn.
  do 2 total_step. pose proof (calm_pop s q Hs) as Hs1.
  set (s1 := s <| fs_queue := q |>) in *. case_match eqn:Ed.
  - do 2 total_step. apply IH; [|exact Hn]. apply calm_push; [done|].
    rewrite (messageShouldBeDelayed_spec answer) in Ed by exact (inv_delayed s (calm_inv s Hs)).
    apply bool_decide_eq_true in Ed. intros E. apply (calm_free s Hs).
    by change (fs_global_id s) with (fs_global_id s1); rewrite <-E.
  - total_step. eapply total_mono; [by apply processActionMessage_returns|].
    intros s2 [ret2 cmd2] (Hf2 & Hs2 & Hsrc & Hdel). cbn [fst snd] in *.
    injection Hf2 as _ Hq2 Hg2 _.
    assert ((length (q_list (fs_queue s2)) ≤ n)%nat) as Hn2 by (rewrite Hq2; exact Hn).
    total_step. case_bool_decide; total_step; [|by apply IH].
    apply IH; [|exact Hn2]. apply calm_push; [done|]. rewrite Hsrc, Hg2. by apply Hdel.
Qed.

Lemma finishQueue_calm initError ret error_cmd s :
  calm s → total (finishQueue le initError ret error_cmd) s (λ s' _, calm s').
Proof.
  intros Hs. pose proof (calm_parent s Hs) as Hp. unfold finishQueue. do 3 total_step.
  case_match; [|by repeat total_step]. total_step.
  case_match; [by repeat total_step|]. apply coordLocalError_frame; [done|]. intros tc Htc.
  repeat total_step. destruct Hs as [_ Hr Hid [] Hq Hf]. split; try done. cbn. congruence.
Qed.

(** C23. The processing of the queue of a federate ends.  In a federate that belongs to a
    core, has its id and has no message of its own waiting, [processQueue] processes the
    messages of its queue one by one until one makes it return or the queue is empty, and
    the recursion through the delay queues goes one level deep: a bound of two for the
    recursion and of the length of the queue for the loop are enough.  A normal result is
    a federate of the same kind. *)
Theorem processQueue_returns fuel n s :
  calm s → (length (q_list (fs_queue s)) ≤ n)%nat →
  processQueue le answer (S (S fuel)) n s ≠ None ∧
  (∀ s' out res, processQueue le answer (S (S fuel)) n s = Some (Ok (s', out, res)) → calm s').
Proof.
  intros Hs Hn.
  assert (total (processQueue le answer (S (S fuel)) n) s (λ s' _, calm s')) as Ht.
  { unfold processQueue, processQueueWith, processDelayQueue. do 2 total_step.
    case_match; [by total_step|]. total_step.
    eapply total_mono; [by apply processDelayQueue_returns|]. intros s1 ret [Hf1 Hs1].
    injection Hf1 as _ Hq1 _ _. total_step.
    eapply total_mono; [apply queueLoop_returns; [done|by rewrite Hq1]|].
    intros s2 [[ret2 error_cmd]|] Hs2; [|by total_step]. total_step.
    eapply total_mono; [by apply finishQueue_calm|]. intros s3 ret3 Hs3. by total_step. }
  split; [by eapply total_returns|by apply total_wp].
Qed.

End returns.
