(* ===== verification/FederateExamples.v ===== *)
(** * A federate from its creation to a granted time

    The parameters of the model of a federate instantiated by concrete ones (the listed
    containers, a list as the queue), a run of a federate with one input, and the
    properties of FederateFacts.v, FederateOrder.v and FederateTermination.v at the states
    of the run. *)

From stdpp Require Import strings.
From S2P Require Import Prelude HelicsTime Ids Flags ActionMessage MessageCodec.
From S2P Require Import Definitions TimeDependencies TimeCoordinator HandleManager.
From S2P Require Import InputInfo InputFacts Interfaces InterfaceInfo FederateState.
From S2P Require Import FederateFacts FederateOrder FederateTermination.

(** ** Instances *)

#[export] Instance list_queue : BlockingQueue (list ActionMessage) := {|
  q_new := [];
  q_push m q := q ++ [m];
  q_pop q := match q with [] => None | m :: q => Some (m, q) end;
|}.
#[export] Instance list_queue_laws : BlockingQueueLaws (list ActionMessage).
Proof. exists (λ q : list ActionMessage, q); [done|done|by intros []]. Defined.

(** Every unit is only convertible to itself. *)
#[export] Instance plain_units : UnitsLib := {|
  precise_unit := string;
  unit_from_string := id;
  unit_is_valid u := negb (String.eqb u "");
  quick_convert_isnan u1 u2 := negb (String.eqb u1 u2);
  convert_isnan u1 u2 := negb (String.eqb u1 u2);
|}.
#[export] Instance plain_fmt : Fmt := λ text _, text.

(** ** A run *)

Abbreviation sample_state := (FederateState listed (list ActionMessage)).

Definition no_answer (s : sample_state) (query : string) : string := "#invalid".

(** The state a call leaves. *)
Definition after {A} (m : fsM (C := listed) (Q := list ActionMessage) A) (s : sample_state)
    : sample_state :=
  match m s with
  | Some (Ok (s', _, _)) => s'
  | _ => s
  end.

Definition sample_fed : global_federate_id := 131072.

Definition fed_created : sample_state :=
  (newFederateState "fed" (mkCoreFederateInfo [] [] [])) <| fs_parent := true |>.
Definition setup_messages : list ActionMessage :=
  [(newMessage cmd_fed_ack) <| payload := "fed" |> <| dest_id := sample_fed |>].
Definition fed_acknowledged : sample_state :=
  after (waitSetup false no_answer 2 1 setup_messages) fed_created.
Definition fed_registered : sample_state :=
  createInterface fed_acknowledged ht_input 1 "in" "double" "".
Definition init_messages : list ActionMessage :=
  [(newMessage cmd_add_publisher) <| source_id := 131073 |> <| source_handle := 2 |>
     <| dest_id := sample_fed |> <| dest_handle := 1 |> <| payload := "out" |>;
   (newMessage cmd_init_grant) <| dest_id := sample_fed |>].
Definition fed_initializing : sample_state :=
  after (enterInitializingMode false no_answer 2 2 init_messages) fed_registered.
Definition other_exec : ActionMessage :=
  (newMessage cmd_exec_request) <| source_id := 131073 |> <| dest_id := sample_fed |>.
Definition fed_executing : sample_state :=
  after (enterExecutingMode false no_answer 2 2 no_iterations [other_exec]) fed_initializing.

(** A value for time 2 s, and the grant of 20 s to the federate that sent it. *)
Definition other_value : ActionMessage :=
  (newMessage cmd_pub) <| source_id := 131073 |> <| source_handle := 2 |>
    <| dest_id := sample_fed |> <| dest_handle := 1 |> <| payload := "data" |>
    <| actionTime := 2000000000 |>.
Definition other_grant : ActionMessage :=
  (newMessage cmd_time_grant) <| source_id := 131073 |> <| dest_id := sample_fed |>
    <| actionTime := 20000000000 |>.

Lemma after_ok {A} (m : fsM (C := listed) (Q := list ActionMessage) A) s :
  match m s with Some (Ok _) => true | _ => false end = true →
  ∃ out a, m s = Some (Ok (after m s, out, a)).
Proof. unfold after. destruct (m s) as [[[[s' out] a]| |]|]; try done. eauto. Qed.

Lemma setup_step : fed_step false no_answer fed_created fed_acknowledged.
Proof.
  destruct (after_ok (waitSetup false no_answer 2 1 setup_messages) fed_created)
    as (out & a & E); [vm_compute; reflexivity|].
  exact (step_waitSetup _ _ _ _ _ _ _ _ _ E).
Qed.

Lemma init_step : fed_step false no_answer fed_registered fed_initializing.
Proof.
  destruct (after_ok (enterInitializingMode false no_answer 2 2 init_messages) fed_registered)
    as (out & a & E); [vm_compute; reflexivity|].
  exact (step_enterInitializingMode _ _ _ _ _ _ _ _ _ E).
Qed.

Lemma exec_step : fed_step false no_answer fed_initializing fed_executing.
Proof.
  destruct (after_ok (enterExecutingMode false no_answer 2 2 no_iterations [other_exec])
    fed_initializing) as (out & a & E); [vm_compute; reflexivity|].
  exact (step_enterExecutingMode _ _ _ _ _ _ _ _ _ _ E).
Qed.

Lemma sample_run : rtc (fed_step false no_answer) fed_created fed_executing.
Proof.
  apply (rtc_l _ _ fed_acknowledged); [apply setup_step|].
  apply (rtc_l _ _ fed_registered); [apply step_createInterface|].
  apply (rtc_l _ _ fed_initializing); [apply init_step|]. apply rtc_once, exec_step.
Qed.

(** ** Witnesses *)


Lemma sample_sorted : inputs_sorted fed_executing.
Proof. vm_compute. repeat constructor. Qed.

Definition fed_granted : sample_state :=
  after (requestTime false no_answer 2 3 10000000000 no_iterations [other_value; other_grant])
    fed_executing.

Lemma request_takes_values_witness :
  ∃ out,
    requestTime false no_answer 2 3 10000000000 no_iterations [other_value; other_grant]
      fed_executing = Some (Ok (fed_granted, out, Some (2000000000, next_step))) ∧
    fs_time_granted fed_granted = 2000000000 ∧
    queued_values (λ r, 2000000000 < rec_time r) fed_granted.
Proof.
  assert (∃ out, requestTime false no_answer 2 3 10000000000 no_iterations
    [other_value; other_grant] fed_executing =
    Some (Ok (fed_granted, out, Some (2000000000, next_step)))) as [out E].
  { eexists. vm_compute. reflexivity. }
  exists out. split; [exact E|].
  destruct (request_takes_values _ _ _ _ _ _ _ _ _ _ _ sample_sorted E) as (_ & Ht & _ & Hq).
  split; [exact Ht|exact Hq].
Defined.


Lemma sample_calm : calm (addAction fed_executing other_value).
Proof.
  split; [vm_compute; reflexivity..| | |]; [|vm_compute; reflexivity|].
  - split; [vm_compute; constructor..|]. intros k m.
    assert (delayQueues (addAction fed_executing other_value) = []) as E
      by (vm_compute; reflexivity).
    unfold delayQueue. rewrite E. by intros ?%elem_of_nil.
  - assert (delayedFederates (addAction fed_executing other_value) = []) as ->
      by (vm_compute; reflexivity). by intros ?%elem_of_nil.
Qed.

Lemma processQueue_returns_witness :
  (length (q_list (fs_queue (addAction fed_executing other_value))) = 1)%nat ∧
  processQueue false no_answer 2 1 (addAction fed_executing other_value) ≠ None.
Proof.
  split; [vm_compute; reflexivity|].
  apply (processQueue_returns false no_answer 0 1 _ sample_calm).
  vm_compute. constructor.
Defined.
