(* ===== verification/Effects.v ===== *)
(** * Operations with a state, an output, failures and a fuel

    The handlers of a broker and of a core change their object, hand messages and calls to
    the layers around it, can throw, and call each other.  An operation is a function of
    the state; its result is the new state, the outputs in the order they were produced
    and a value.  [None] is a recursion that has used up its fuel.

    Two calculi are given: [ewp] speaks of every normal result, [etotal] also says that
    there is one. *)

From S2P Require Import Prelude.

Definition effM (S E A : Type) : Type := S → option (outcome (S * list E * A)).

Section monad.
  Context {S E : Type}.
  Implicit Types (s : S) (e : E).

#[export] Instance effM_ret : MRet (effM S E) := λ A a s, Some (Ok (s, [], a)).
#[export] Instance effM_bind : MBind (effM S E) := λ A B f m s,
  match m s with
  | None => None
  | Some (Throw what) => Some (Throw what)
  | Some Fault => Some Fault
  | Some (Ok (s1, out1, a)) =>
      match f a s1 with
      | Some (Ok (s2, out2, b)) => Some (Ok (s2, out1 ++ out2, b))
      | r => r
      end
  end.

Definition eff_get : effM S E S := λ s, Some (Ok (s, [], s)).
Definition eff_modify (f : S → S) : effM S E unit := λ s, Some (Ok (f s, [], tt)).
Definition eff_emit (e : E) : effM S E unit := λ s, Some (Ok (s, [e], tt)).
Definition eff_lift {A} (o : outcome A) : effM S E A := λ s,
  match o with
  | Ok a => Some (Ok (s, [], a))
  | Throw what => Some (Throw what)
  | Fault => Some Fault
  end.
Definition eff_unbounded {A} : effM S E A := λ s, None.

Definition eff_when (b : bool) (m : effM S E unit) : effM S E unit :=
  if b then m else mret tt.

(** A range-based loop. *)
Fixpoint eff_each {A} (f : A → effM S E unit) (l : list A) : effM S E unit :=
  match l with
  | [] => mret tt
  | a :: l => _ ← f a; eff_each f l
  end.

Lemma eff_get_bind {A} (f : S → effM S E A) s : (eff_get ≫= f) s = f s s.
Proof.
  unfold mbind, effM_bind, eff_get. by destruct (f s s) as [[[[s' out] a]| |]|].
Qed.

Lemma eff_modify_bind {A} (f : S → S) (g : unit → effM S E A) s :
  (eff_modify f ≫= g) s = g tt (f s).
Proof.
  unfold mbind, effM_bind, eff_modify. by destruct (g tt (f s)) as [[[[s' out] a]| |]|].
Qed.
Lemma eff_ret_bind {A B} (a : A) (g : A → effM S E B) s : (mret a ≫= g) s = g a s.
Proof.
  unfold mbind, effM_bind, mret, effM_ret. by destruct (g a s) as [[[[s' out] b]| |]|].
Qed.

Lemma eff_emit_ok {A} e (g : unit → effM S E A) s s' out a :
  g tt s = Some (Ok (s', out, a)) → (eff_emit e ≫= g) s = Some (Ok (s', e :: out, a)).
Proof. intros R. unfold mbind, effM_bind, eff_emit. by rewrite R. Qed.

Lemma eff_bind_none {A B} (m : effM S E A) (g : A → effM S E B) s :
  m s = None → (m ≫= g) s = None.
Proof. intros R. unfold mbind, effM_bind. by rewrite R. Qed.
Lemma eff_bind_ok {A B} (m : effM S E A) (g : A → effM S E B) s s' a :
  m s = Some (Ok (s', [], a)) → (m ≫= g) s = g a s'.
Proof.
  intros R. unfold mbind, effM_bind. rewrite R. by destruct (g a s') as [[[[s2 out] b]| |]|].
Qed.

Lemma eff_bind_ext {A B} (m m' : effM S E A) (g g' : A → effM S E B) s :
  m s = m' s → (∀ a s', g a s' = g' a s') → (m ≫= g) s = (m' ≫= g') s.
Proof.
  intros Em Eg. unfold mbind, effM_bind. rewrite Em.
  destruct (m' s) as [[[[s1 out] a]| |]|]; [|done..]. by rewrite Eg.
Qed.
Lemma eff_bind_assoc {A B D} (m : effM S E A) (g : A → effM S E B) (h : B → effM S E D) s :
  ((m ≫= g) ≫= h) s = (m ≫= λ a, g a ≫= h) s.
Proof.
  unfold mbind, effM_bind. destruct (m s) as [[[[s1 out1] a]| |]|]; [|done..].
  destruct (g a s1) as [[[[s2 out2] b]| |]|]; [|done..].
  destruct (h b s2) as [[[[s3 out3] d]| |]|]; [|done..]. by rewrite app_assoc.
Qed.

Lemma eff_ret_again {A B D} (m : effM S E A) (g : A → effM S E B) (d : D) s :
  (a ← m; _ ← g a; mret d) s = (_ ← (a ← m; _ ← g a; mret d); mret d) s.
Proof.
  rewrite eff_bind_assoc. apply eff_bind_ext; [done|]. intros a s1.
  rewrite eff_bind_assoc. apply eff_bind_ext; [done|]. intros b s2.
  by rewrite eff_ret_bind.
Qed.

(** ** Every normal result *)

Definition ewp {A} (m : effM S E A) s (P : S → list E → A → Prop) : Prop :=
  ∀ s' out a, m s = Some (Ok (s', out, a)) → P s' out a.

Lemma ewp_mono {A} (m : effM S E A) s (P P' : S → list E → A → Prop) :
  ewp m s P → (∀ s' out a, P s' out a → P' s' out a) → ewp m s P'.
Proof. intros Hm HP s' out a R. eauto. Qed.

Lemma ewp_and {A} (m : effM S E A) s (P P' : S → list E → A → Prop) :
  ewp m s P → ewp m s P' → ewp m s (λ s' out a, P s' out a ∧ P' s' out a).
Proof. intros Hm Hm' s' out a R. split; eauto. Qed.

Lemma ewp_ret {A} (a : A) s (P : S → list E → A → Prop) : P s [] a → ewp (mret a) s P.
Proof. intros HP s' out a' R. by injection R as <- <- <-. Qed.

Lemma ewp_bind {A B} (m : effM S E A) (f : A → effM S E B) s P :
  ewp m s (λ s1 out1 a, ewp (f a) s1 (λ s2 out2 b, P s2 (out1 ++ out2) b)) →
  ewp (m ≫= f) s P.
Proof.
  intros Hm s' out b R. unfold mbind, effM_bind in R.
  destruct (m s) as [[[[s1 out1] a]| |]|] eqn:E1; try done.
  specialize (Hm s1 out1 a E1).
  destruct (f a s1) as [[[[s2 out2] b']| |]|] eqn:E2; try done.
  injection R as <- <- <-. by apply Hm.
Qed.

Lemma ewp_get s (P : S → list E → S → Prop) : P s [] s → ewp eff_get s P.
Proof. intros HP s' out a R. by injection R as <- <- <-. Qed.

Lemma ewp_modify f s (P : S → list E → unit → Prop) :
  P (f s) [] tt → ewp (eff_modify f) s P.
Proof. intros HP s' out a R. by injection R as <- <- <-. Qed.

Lemma ewp_emit e s (P : S → list E → unit → Prop) : P s [e] tt → ewp (eff_emit e) s P.
Proof. intros HP s' out a R. by injection R as <- <- <-. Qed.

Lemma ewp_lift {A} (o : outcome A) s (P : S → list E → A → Prop) :
  (∀ a, o = Ok a → P s [] a) → ewp (eff_lift o) s P.
Proof.
  intros HP s' out a R. unfold eff_lift in R. destruct o as [a'| |]; try done.
  injection R as <- <- <-. by apply HP.
Qed.

Lemma ewp_unbounded {A} s (P : S → list E → A → Prop) : ewp eff_unbounded s P.
Proof. by intros s' out a R. Qed.

Lemma ewp_when b m s (P : S → list E → unit → Prop) :
  (b = true → ewp m s P) → (b = false → P s [] tt) → ewp (eff_when b m) s P.
Proof. intros H1 H2. unfold eff_when. destruct b; [auto|by apply ewp_ret, H2]. Qed.

(** A relation between the states that each round of a loop respects, and a property of
    each output. *)
Definition framed (R : S → S → Prop) (Q : E → Prop) {A} (m : effM S E A) : Prop :=
  ∀ s, ewp m s (λ s' out _, R s s' ∧ Forall Q out).

(** The same with a property of the result. *)
Definition framed_res (R : S → S → Prop) (Q : E → Prop) {A} (X : A → Prop) (m : effM S E A)
    : Prop :=
  ∀ s, ewp m s (λ s' out a, R s s' ∧ Forall Q out ∧ X a).

Section framed.
  Context (R : S → S → Prop) `{!PreOrder R} (Q : E → Prop).

Lemma framed_ret {A} (a : A) : framed R Q (mret a).
Proof. intros s. apply ewp_ret. done. Qed.

Lemma framed_bind {A B} (m : effM S E A) (f : A → effM S E B) :
  framed R Q m → (∀ a, framed R Q (f a)) → framed R Q (m ≫= f).
Proof.
  intros Hm Hf s. apply ewp_bind. eapply ewp_mono; [apply Hm|]. intros s1 out1 a [H1 Q1].
  eapply ewp_mono; [apply Hf|]. intros s2 out2 b [H2 Q2].
  split; [by etrans|by apply Forall_app].
Qed.

Lemma framed_bind_res {A B} (X : A → Prop) (m : effM S E A) (f : A → effM S E B) :
  framed_res R Q X m → (∀ a, X a → framed R Q (f a)) → framed R Q (m ≫= f).
Proof.
  intros Hm Hf s. apply ewp_bind. eapply ewp_mono; [apply Hm|].
  intros s1 out1 a (H1 & Q1 & Ha).
  eapply ewp_mono; [by apply Hf|]. intros s2 out2 b [H2 Q2].
  split; [by etrans|by apply Forall_app].
Qed.

Lemma framed_get : framed R Q eff_get.
Proof. intros s. by apply ewp_get. Qed.

Lemma framed_modify f : (∀ s, R s (f s)) → framed R Q (eff_modify f).
Proof. intros Hf s. by apply ewp_modify. Qed.

Lemma framed_emit e : Q e → framed R Q (eff_emit e).
Proof. intros He s. apply ewp_emit. split; [done|by constructor]. Qed.

Lemma framed_lift {A} (o : outcome A) : framed R Q (eff_lift o).
Proof. intros s. by apply ewp_lift. Qed.

Lemma framed_lift_res {A} (o : outcome A) (X : A → Prop) :
  (∀ a, o = Ok a → X a) → framed_res R Q X (eff_lift o).
Proof. intros Ho s. apply ewp_lift. intros a E'. split; [done|]. split; [done|auto]. Qed.

Lemma framed_when b m : (b = true → framed R Q m) → framed R Q (eff_when b m).
Proof. intros Hm s. apply ewp_when; [intros Hb; by apply Hm|done]. Qed.

Lemma framed_each {A} (f : A → effM S E unit) l :
  (∀ a, a ∈ l → framed R Q (f a)) → framed R Q (eff_each f l).
Proof.
  induction l as [|a l IH]; intros Hf; cbn [eff_each]; [apply framed_ret|].
  apply framed_bind; [apply Hf; constructor|]. intros _. apply IH. intros b Hb.
  apply Hf. by constructor.
Qed.
End framed.

(** ** There is a normal result, and it is this one *)

Definition etotal {A} (m : effM S E A) s (P : S → list E → A → Prop) : Prop :=
  ∃ s' out a, m s = Some (Ok (s', out, a)) ∧ P s' out a.

Lemma etotal_mono {A} (m : effM S E A) s (P P' : S → list E → A → Prop) :
  etotal m s P → (∀ s' out a, P s' out a → P' s' out a) → etotal m s P'.
Proof. intros (s' & out & a & R & HP) HPP. exists s', out, a. auto. Qed.

Lemma etotal_ewp {A} (m : effM S E A) s (P P' : S → list E → A → Prop) :
  etotal m s P → ewp m s P' → etotal m s (λ s' out a, P s' out a ∧ P' s' out a).
Proof. intros (s' & out & a & R & HP) HP'. exists s', out, a. auto. Qed.

(** An operation has one result. *)
Lemma etotal_partial {A} (m : effM S E A) s (P : S → list E → A → Prop) :
  etotal m s P → ewp m s P.
Proof.
  intros (s1 & out1 & a1 & R1 & HP) s' out a R2. rewrite R1 in R2.
  by injection R2 as <- <- <-.
Qed.

Lemma etotal_weaken {A} (m : effM S E A) s (P : S → list E → A → Prop) (P' : S → Prop) :
  etotal m s P → (∀ s' out a, P s' out a → P' s') → ewp m s (λ s' _ _, P' s').
Proof.
  intros Hm HP. eapply ewp_mono; [by apply etotal_partial|]. eauto.
Qed.

Lemma etotal_ret {A} (a : A) s (P : S → list E → A → Prop) : P s [] a → etotal (mret a) s P.
Proof. intros HP. by exists s, [], a. Qed.

Lemma etotal_bind {A B} (m : effM S E A) (f : A → effM S E B) s P :
  etotal m s (λ s1 out1 a, etotal (f a) s1 (λ s2 out2 b, P s2 (out1 ++ out2) b)) →
  etotal (m ≫= f) s P.
Proof.
  intros (s1 & out1 & a & R1 & (s2 & out2 & b & R2 & HP)).
  exists s2, (out1 ++ out2), b. split; [|done].
  unfold mbind, effM_bind. by rewrite R1, R2.
Qed.

Lemma etotal_get s (P : S → list E → S → Prop) : P s [] s → etotal eff_get s P.
Proof. intros HP. by exists s, [], s. Qed.

Lemma etotal_modify f s (P : S → list E → unit → Prop) :
  P (f s) [] tt → etotal (eff_modify f) s P.
Proof. intros HP. by exists (f s), [], tt. Qed.

Lemma etotal_emit e s (P : S → list E → unit → Prop) :
  P s [e] tt → etotal (eff_emit e) s P.
Proof. intros HP. by exists s, [e], tt. Qed.

Lemma etotal_lift {A} (o : outcome A) a s (P : S → list E → A → Prop) :
  o = Ok a → P s [] a → etotal (eff_lift o) s P.
Proof. intros -> HP. by exists s, [], a. Qed.

(** Operations that return in every state. *)
Definition always {A} (m : effM S E A) : Prop := ∀ s, etotal m s (λ _ _ _, True).

Lemma always_ret {A} (a : A) : always (mret a).
Proof. intros s. by apply etotal_ret. Qed.
Lemma always_bind {A B} (m : effM S E A) (f : A → effM S E B) :
  always m → (∀ a, always (f a)) → always (m ≫= f).
Proof.
  intros Hm Hf s. apply etotal_bind. eapply etotal_mono; [apply Hm|]. intros s1 out1 a _.
  eapply etotal_mono; [apply Hf|done].
Qed.
Lemma always_get : always eff_get.
Proof. intros s. by apply etotal_get. Qed.
Lemma always_modify f : always (eff_modify f).
Proof. intros s. by apply etotal_modify. Qed.
Lemma always_emit e : always (eff_emit e).
Proof. intros s. by apply etotal_emit. Qed.
Lemma always_when b m : always m → always (eff_when b m).
Proof. intros Hm. unfold eff_when. destruct b; [done|apply always_ret]. Qed.
Lemma always_each {A} (f : A → effM S E unit) l :
  (∀ a, always (f a)) → always (eff_each f l).
Proof.
  intros Hf. induction l as [|a l IH]; cbn [eff_each]; [apply always_ret|].
  by apply always_bind.
Qed.
Lemma always_partial {A} (m : effM S E A) s (P : S → list E → A → Prop) :
  always m → ewp m s P → etotal m s P.
Proof. intros Hm HP. destruct (Hm s) as (s' & out & a & R & _). exists s', out, a. auto. Qed.

(** An operation whose recursion ends. *)
Definition bounded {A} (m : effM S E A) : Prop := ∀ s, m s ≠ None.

Lemma bounded_ret {A} (a : A) : bounded (mret a).
Proof. done. Qed.
Lemma bounded_bind {A B} (m : effM S E A) (f : A → effM S E B) :
  bounded m → (∀ a, bounded (f a)) → bounded (m ≫= f).
Proof.
  intros Hm Hf s. unfold mbind, effM_bind.
  destruct (m s) as [[[[s1 out] a]| |]|] eqn:R; [|done..|by destruct (Hm s)].
  pose proof (Hf a s1) as Hs. by destruct (f a s1) as [[[[s2 out2] b]| |]|].
Qed.
Lemma bounded_lift_bind {A B} (o : outcome A) (f : A → effM S E B) :
  (∀ a, o = Ok a → bounded (f a)) → bounded (eff_lift o ≫= f).
Proof.
  intros Hf s. unfold mbind, effM_bind, eff_lift. destruct o as [a| |]; [|done..].
  pose proof (Hf a eq_refl s) as Hs. by destruct (f a s) as [[[[s2 out2] b]| |]|].
Qed.
Lemma bounded_get : bounded eff_get.
Proof. done. Qed.
Lemma bounded_when b m : bounded m → bounded (eff_when b m).
Proof. by destruct b. Qed.

Lemma etotal_when b m s (P : S → list E → unit → Prop) :
  (b = true → etotal m s P) → (b = false → P s [] tt) → etotal (eff_when b m) s P.
Proof. intros H1 H2. unfold eff_when. destruct b; [auto|by apply etotal_ret, H2]. Qed.
End monad.

(** One step through a straight-line operation. *)
Ltac ewp_step :=
  match goal with
  | |- ewp (mret _) _ _ => apply ewp_ret
  | |- ewp (mbind _ _) _ _ => apply ewp_bind
  | |- ewp eff_get _ _ => apply ewp_get
  | |- ewp (eff_modify _) _ _ => apply ewp_modify
  | |- ewp (eff_emit _) _ _ => apply ewp_emit
  | |- ewp (eff_lift _) _ _ => apply ewp_lift
  | |- ewp (eff_when _ _) _ _ => apply ewp_when
  | |- ewp eff_unbounded _ _ => apply ewp_unbounded
  end.
Ltac etotal_step :=
  match goal with
  | |- etotal (mret _) _ _ => apply etotal_ret
  | |- etotal (mbind _ _) _ _ => apply etotal_bind
  | |- etotal eff_get _ _ => apply etotal_get
  | |- etotal (eff_modify _) _ _ => apply etotal_modify
  | |- etotal (eff_emit _) _ _ => apply etotal_emit
  | |- etotal (eff_when _ _) _ _ => apply etotal_when
  end.
(** One step through an operation that always returns. *)
Ltac always_step :=
  lazymatch goal with
  | |- always (mret _) => apply always_ret
  | |- always (mbind _ _) => apply always_bind; [|intros ?]
  | |- always eff_get => apply always_get
  | |- always (eff_modify _) => apply always_modify
  | |- always (eff_emit _) => apply always_emit
  | |- always (eff_when _ _) => apply always_when
  | |- always (eff_each _ _) => apply always_each; intros ?
  | |- always (if ?b then _ else _) => destruct b
  | |- always (match ?x with _ => _ end) => destruct x
  | |- always (let _ := _ in _) => cbv zeta
  end.
