(* ===== verification/MappedVector.v ===== *)
(** * The container of federates and brokers (gmlc::containers::DualMappedVector)

    A broker keeps the federates and brokers it knows in a vector that is searched by name
    and by identifier; an element is entered under its name and the identifier is added
    when it is known.  The container is a library outside the sources: a class gives its
    operations and [MappedVectorLaws] what its documentation promises.  An iterator is the
    index of an element. *)

From stdpp Require Import strings.
From S2P Require Import Prelude.

Class MappedVector (C : Type → Type) := {
  mv_new : ∀ {V}, C V;
  mv_elements : ∀ {V}, C V → list V;
  mv_index1 : ∀ {V}, C V → string → option nat;
  mv_index2 : ∀ {V}, C V → Z → option nat;
  (** the elements changed in place *)
  mv_assign : ∀ {V}, C V → list V → C V;
  (** [insert(name, no_search, element)]; the result tells whether it was entered *)
  mv_insert1 : ∀ {V}, string → V → C V → C V * bool;
  (** [insert(name, id, element)] *)
  mv_insert2 : ∀ {V}, string → Z → V → C V → C V * bool;
  (** [addSearchTermForIndex(id, index)] *)
  mv_addTerm : ∀ {V}, Z → nat → C V → C V;
}.

Class MappedVectorLaws (C : Type → Type) `{MappedVector C} := {
  mv_new_elements : ∀ V, mv_elements (@mv_new C _ V) = [];
  mv_new_index1 : ∀ V k, mv_index1 (@mv_new C _ V) k = None;
  mv_new_index2 : ∀ V k, mv_index2 (@mv_new C _ V) k = None;
  mv_index1_lt : ∀ V (c : C V) k i, mv_index1 c k = Some i → (i < length (mv_elements c))%nat;
  mv_index2_lt : ∀ V (c : C V) k i, mv_index2 c k = Some i → (i < length (mv_elements c))%nat;
  mv_assign_elements : ∀ V (c : C V) l,
    length l = length (mv_elements c) → mv_elements (mv_assign c l) = l;
  mv_assign_index1 : ∀ V (c : C V) l k,
    length l = length (mv_elements c) → mv_index1 (mv_assign c l) k = mv_index1 c k;
  mv_assign_index2 : ∀ V (c : C V) l k,
    length l = length (mv_elements c) → mv_index2 (mv_assign c l) k = mv_index2 c k;
  mv_insert1_dup : ∀ V (c : C V) k v i,
    mv_index1 c k = Some i → mv_insert1 k v c = (c, false);
  mv_insert1_ok : ∀ V (c : C V) k v, mv_index1 c k = None → (mv_insert1 k v c).2 = true;
  mv_insert1_elements : ∀ V (c : C V) k v, mv_index1 c k = None →
    mv_elements (mv_insert1 k v c).1 = mv_elements c ++ [v];
  mv_insert1_index1 : ∀ V (c : C V) k v k', mv_index1 c k = None →
    mv_index1 (mv_insert1 k v c).1 k' =
      if decide (k' = k) then Some (length (mv_elements c)) else mv_index1 c k';
  mv_insert1_index2 : ∀ V (c : C V) k v id, mv_index1 c k = None →
    mv_index2 (mv_insert1 k v c).1 id = mv_index2 c id;
  mv_insert2_elements : ∀ V (c : C V) k id v, mv_index1 c k = None → mv_index2 c id = None →
    mv_elements (mv_insert2 k id v c).1 = mv_elements c ++ [v];
  mv_insert2_index1 : ∀ V (c : C V) k id v k', mv_index1 c k = None → mv_index2 c id = None →
    mv_index1 (mv_insert2 k id v c).1 k' =
      if decide (k' = k) then Some (length (mv_elements c)) else mv_index1 c k';
  mv_insert2_index2 : ∀ V (c : C V) k id v id', mv_index1 c k = None → mv_index2 c id = None →
    mv_index2 (mv_insert2 k id v c).1 id' =
      if decide (id' = id) then Some (length (mv_elements c)) else mv_index2 c id';
  mv_addTerm_elements : ∀ V (c : C V) id i, mv_elements (mv_addTerm id i c) = mv_elements c;
  mv_addTerm_index1 : ∀ V (c : C V) id i k, mv_index1 (mv_addTerm id i c) k = mv_index1 c k;
  mv_addTerm_index2 : ∀ V (c : C V) id i id', (i < length (mv_elements c))%nat →
    mv_index2 c id = None →
    mv_index2 (mv_addTerm id i c) id' = if decide (id' = id) then Some i else mv_index2 c id';
}.

Section operations.
  Context `{MappedVector C} {V : Type}.
  Implicit Types (c : C V) (v : V).

(** [size()] *)
Definition mv_size c : nat := length (mv_elements c).
(** [find(name)] and [find(id)], with the element that the iterator points to. *)
Definition mv_find1 c (name : string) : option (nat * V) :=
  i ← mv_index1 c name; v ← mv_elements c !! i; Some (i, v).
Definition mv_find2 c (id : Z) : option (nat * V) :=
  i ← mv_index2 c id; v ← mv_elements c !! i; Some (i, v).
(** An assignment to the members of one element, of the last one and of all. *)
Definition mv_alter (f : V → V) (i : nat) c : C V :=
  mv_assign c (alter f i (mv_elements c)).
Definition mv_alter_back (f : V → V) c : C V := mv_alter f (pred (mv_size c)) c.
Definition mv_apply (f : V → V) c : C V := mv_assign c (f <$> mv_elements c).
(** [addSearchTerm(id, name)] *)
Definition mv_addTermByName (id : Z) (name : string) c : C V :=
  match mv_index1 c name with Some i => mv_addTerm id i c | None => c end.

Context `{!MappedVectorLaws C}.

Lemma mv_alter_elements f i c : mv_elements (mv_alter f i c) = alter f i (mv_elements c).
Proof. apply mv_assign_elements, length_alter. Qed.
Lemma mv_apply_elements f c : mv_elements (mv_apply f c) = f <$> mv_elements c.
Proof. apply mv_assign_elements, length_fmap. Qed.
Lemma mv_alter_index1 f i c k : mv_index1 (mv_alter f i c) k = mv_index1 c k.
Proof. apply mv_assign_index1, length_alter. Qed.
Lemma mv_alter_index2 f i c k : mv_index2 (mv_alter f i c) k = mv_index2 c k.
Proof. apply mv_assign_index2, length_alter. Qed.
Lemma mv_apply_index1 f c k : mv_index1 (mv_apply f c) k = mv_index1 c k.
Proof. apply mv_assign_index1, length_fmap. Qed.
Lemma mv_apply_index2 f c k : mv_index2 (mv_apply f c) k = mv_index2 c k.
Proof. apply mv_assign_index2, length_fmap. Qed.

Lemma mv_alter_size f i c : mv_size (mv_alter f i c) = mv_size c.
Proof. unfold mv_size. by rewrite mv_alter_elements, length_alter. Qed.
Lemma mv_apply_size f c : mv_size (mv_apply f c) = mv_size c.
Proof. unfold mv_size. by rewrite mv_apply_elements, length_fmap. Qed.

Lemma mv_find1_Some c name i v :
  mv_find1 c name = Some (i, v) ↔ mv_index1 c name = Some i ∧ mv_elements c !! i = Some v.
Proof.
  unfold mv_find1. destruct (mv_index1 c name) as [j|]; cbn; [|naive_solver].
  destruct (mv_elements c !! j) eqn:E; cbn; naive_solver.
Qed.
Lemma mv_find2_Some c id i v :
  mv_find2 c id = Some (i, v) ↔ mv_index2 c id = Some i ∧ mv_elements c !! i = Some v.
Proof.
  unfold mv_find2. destruct (mv_index2 c id) as [j|]; cbn; [|naive_solver].
  destruct (mv_elements c !! j) eqn:E; cbn; naive_solver.
Qed.
Lemma mv_find1_None c name : mv_find1 c name = None ↔ mv_index1 c name = None.
Proof.
  unfold mv_find1. destruct (mv_index1 c name) as [j|] eqn:E; cbn; [|done].
  split; [|done]. apply mv_index1_lt in E. apply lookup_lt_is_Some in E as [v ->]. done.
Qed.
Lemma mv_find2_None c id : mv_find2 c id = None ↔ mv_index2 c id = None.
Proof.
  unfold mv_find2. destruct (mv_index2 c id) as [j|] eqn:E; cbn; [|done].
  split; [|done]. apply mv_index2_lt in E. apply lookup_lt_is_Some in E as [v ->]. done.
Qed.
End operations.

Global Arguments mv_size : simpl never.

(** A reference implementation: each element with the names and identifiers that lead to
    it. *)
Abbreviation entry V := (V * list string * list Z)%type (only parsing).
Definition mvec (V : Type) : Type := list (entry V).

Section mvec.
  Context {V : Type}.
  Implicit Types (c : list (entry V)) (v : V).

Definition first_with {A} (p : A → bool) (l : list A) : option nat :=
  fst <$> list_find (λ a, p a = true) l.

Definition mvec_index1 c (k : string) : option nat :=
  first_with (λ e, bool_decide (k ∈ e.1.2)) c.
Definition mvec_index2 c (id : Z) : option nat :=
  first_with (λ e, bool_decide (id ∈ e.2)) c.
Definition mvec_elements c : list V := (λ e, e.1.1) <$> c.
Definition mvec_assign c (l : list V) : list (entry V) :=
  zip_with (λ v e, (v, e.1.2, e.2)) l c.
Definition mvec_insert1 (k : string) v c : list (entry V) * bool :=
  match mvec_index1 c k with
  | Some _ => (c, false)
  | None => (c ++ [(v, [k], [])], true)
  end.
Definition mvec_insert2 (k : string) (id : Z) v c : list (entry V) * bool :=
  (c ++ [(v, [k], [id])], true).
Definition mvec_addTerm (id : Z) (i : nat) c : list (entry V) :=
  match mvec_index2 c id with
  | Some _ => c
  | None => alter (λ e, (e.1, id :: e.2)) i c
  end.
End mvec.

#[export] Instance mvec_vector : MappedVector mvec := {|
  mv_new V := []; mv_elements V := mvec_elements; mv_index1 V := mvec_index1;
  mv_index2 V := mvec_index2; mv_assign V := mvec_assign; mv_insert1 V := mvec_insert1;
  mv_insert2 V := mvec_insert2; mv_addTerm V := mvec_addTerm |}.

Lemma first_with_lt {A} (p : A → bool) l i : first_with p l = Some i → (i < length l)%nat.
Proof.
  unfold first_with. intros E. apply fmap_Some in E as ([j a] & E & ->).
  apply list_find_Some in E as [E _]. by eapply lookup_lt_Some.
Qed.

Lemma first_with_app {A} (p : A → bool) l a :
  first_with p (l ++ [a]) =
    match first_with p l with
    | Some i => Some i
    | None => if p a then Some (length l) else None
    end.
Proof.
  unfold first_with. induction l as [|b l IH]; cbn.
  - by destruct (p a).
  - destruct (decide (p b = true)); [done|]. revert IH.
    destruct (list_find _ (l ++ [a])) as [[i x]|], (list_find _ l) as [[j y]|], (p a);
      cbn; congruence.
Qed.

Lemma first_with_app_false {A} (p : A → bool) l a :
  p a = false → first_with p (l ++ [a]) = first_with p l.
Proof. intros E. rewrite first_with_app, E. by destruct (first_with p l). Qed.

Lemma first_with_ext {A B} (p : A → bool) (p' : B → bool) l l' :
  p <$> l = p' <$> l' → first_with p l = first_with p' l'.
Proof.
  unfold first_with. revert l'. induction l as [|a l IH]; intros [|b l'] E; try done.
  cbn in E. injection E as Ea E. cbn. rewrite Ea.
  destruct (decide (p' b = true)); [done|]. specialize (IH _ E). revert IH.
  destruct (list_find _ l) as [[i x]|], (list_find _ l') as [[j y]|]; cbn; congruence.
Qed.

Lemma first_with_None {A} (p : A → bool) l :
  first_with p l = None → ∀ a, a ∈ l → p a = false.
Proof.
  unfold first_with. rewrite fmap_None, list_find_None. intros E a Ha.
  rewrite Forall_forall in E. specialize (E a Ha). by destruct (p a).
Qed.

Lemma first_with_alter {A} (p : A → bool) (f : A → A) l i :
  first_with p l = None → (i < length l)%nat → (∀ a, p (f a) = true) →
  first_with p (alter f i l) = Some i.
Proof.
  intros E Hi Hf. apply lookup_lt_is_Some in Hi as [a Ha]. unfold first_with.
  apply fmap_Some. exists (i, f a). split; [|done]. apply list_find_Some.
  split; [by rewrite list_lookup_alter_eq, Ha|]. split; [done|]. intros j b Hb Hj.
  rewrite list_lookup_alter_ne in Hb by lia.
  rewrite (first_with_None _ _ E b) by by eapply list_elem_of_lookup_2. done.
Qed.

Lemma fmap_zip_with_assign {V B} (g : list string * list Z → B) (c : list (entry V)) (l : list V) :
  length l = length c →
  (λ e, g (e.1.2, e.2)) <$> mvec_assign c l = (λ e, g (e.1.2, e.2)) <$> c.
Proof.
  unfold mvec_assign. revert l. induction c as [|e c IH]; intros [|v l] E; try done.
  cbn. f_equal. apply IH. by injection E.
Qed.

#[export] Instance mvec_laws : MappedVectorLaws mvec.
Proof.
  split; intros V; cbn [mv_new mv_elements mv_index1 mv_index2 mv_assign mv_insert1 mv_insert2
    mv_addTerm mvec_vector]; unfold mvec; try done.
  - intros c k i E. apply first_with_lt in E. unfold mvec_elements. by rewrite length_fmap.
  - intros c k i E. apply first_with_lt in E. unfold mvec_elements. by rewrite length_fmap.
  - intros c l E. unfold mvec_elements in *. rewrite length_fmap in E. unfold mvec_assign.
    revert l E. induction c as [|e c IH]; intros [|v l] E; try done.
    cbn. f_equal. apply IH. by injection E.
  - intros c l k E. apply first_with_ext. unfold mvec_elements in E. rewrite length_fmap in E.
    exact (fmap_zip_with_assign (λ e : list string * list Z, bool_decide (k ∈ e.1)) c l E).
  - intros c l k E. apply first_with_ext. unfold mvec_elements in E. rewrite length_fmap in E.
    exact (fmap_zip_with_assign (λ e : list string * list Z, bool_decide (k ∈ e.2)) c l E).
  - intros c k v i E. unfold mvec_insert1. by rewrite E.
  - intros c k v E. unfold mvec_insert1. by rewrite E.
  - intros c k v E. unfold mvec_insert1, mvec_elements. rewrite E. cbn [fst].
    by rewrite fmap_app.
  - intros c k v k' E. unfold mvec_insert1. rewrite E. unfold mvec_index1 in *; cbn [fst snd].
    unfold mvec_elements. rewrite length_fmap. destruct (decide (k' = k)) as [->|N].
    + rewrite first_with_app, E. cbn [fst snd]. by rewrite bool_decide_true by set_solver.
    + apply first_with_app_false, bool_decide_eq_false_2. set_solver.
  - intros c k v id E. unfold mvec_insert1. rewrite E. unfold mvec_index2 in *; cbn [fst snd].
    by apply first_with_app_false.
  - intros c k id v E E2. unfold mvec_insert2, mvec_elements. cbn [fst].
    by rewrite fmap_app.
  - intros c k id v k' E E2. unfold mvec_insert2, mvec_index1 in *; cbn [fst snd].
    unfold mvec_elements. rewrite length_fmap. destruct (decide (k' = k)) as [->|N].
    + rewrite first_with_app, E. cbn [fst snd]. by rewrite bool_decide_true by set_solver.
    + apply first_with_app_false, bool_decide_eq_false_2. set_solver.
  - intros c k id v k' E E2. unfold mvec_insert2, mvec_index2 in *; cbn [fst snd].
    unfold mvec_elements. rewrite length_fmap. destruct (decide (k' = id)) as [->|N].
    + rewrite first_with_app, E2. cbn [fst snd]. by rewrite bool_decide_true by set_solver.
    + apply first_with_app_false, bool_decide_eq_false_2. set_solver.
  - intros c id i. unfold mvec_addTerm. destruct (mvec_index2 c id); [done|].
    unfold mvec_elements. apply list_eq. intros j. rewrite !list_lookup_fmap.
    destruct (decide (i = j)) as [->|]; [|by rewrite list_lookup_alter_ne].
    rewrite list_lookup_alter_eq. by destruct (c !! j).
  - intros c id i k. unfold mvec_addTerm. destruct (mvec_index2 c id); [done|].
    apply first_with_ext, list_eq. intros j. rewrite !list_lookup_fmap.
    destruct (decide (i = j)) as [->|]; [|by rewrite list_lookup_alter_ne].
    rewrite list_lookup_alter_eq. by destruct (c !! j).
  - intros c id i id' Hi E. unfold mvec_elements in Hi. rewrite length_fmap in Hi.
    unfold mvec_addTerm. rewrite E. destruct (decide (id' = id)) as [->|N].
    + apply first_with_alter; [done|done|]. intros e. apply bool_decide_eq_true. cbn.
      set_solver.
    + apply first_with_ext, list_eq. intros j. rewrite !list_lookup_fmap.
      destruct (decide (i = j)) as [->|]; [|by rewrite list_lookup_alter_ne].
      rewrite list_lookup_alter_eq. destruct (c !! j); [|done]. cbn. f_equal.
      apply bool_decide_ext. set_solver.
Qed.
