(* ===== verification/BrokerBase.v ===== *)
(** * The base of brokers and cores (src/src/helics/core/BrokerBase.hpp, BrokerBase.cpp)

    A broker and a core are objects that process the messages of a priority queue in one
    thread.  [BrokerBase] has the members that the processing uses; the virtual methods
    that a broker or a core overrides are the class [BrokerVirtuals], and a record that
    contains a [BrokerBase] is an instance of [HasBase].

    What an operation hands to the layers around it is its output: messages for a route
    of the communication layer, changes of the routes, messages for its own queue and
    answers to queries.  The clock [std::chrono::steady_clock] is the class
    [SteadyClock]: [steady_now n] is what its [n]-th reading returns, in nanoseconds.
    The model is the build without asio, and logging is not modelled. *)

From stdpp Require Import strings.
From S2P Require Import Prelude HelicsTime Ids Flags ActionMessage MessageCodec.
From S2P Require Import Definitions TimeDependencies TimeCoordinator.
From S2P Require Import ForwardingTimeCoordinator Effects.

(** [enum class broker_state_t] *)
Inductive broker_state_t :=
  | bs_created
  | bs_configuring
  | bs_configured
  | bs_connecting
  | bs_connected
  | bs_initializing
  | bs_operating
  | bs_terminating
  | bs_terminated
  | bs_errored.

#[export] Instance broker_state_t_eq_dec : EqDecision broker_state_t.
Proof. solve_decision. Defined.

Definition broker_state_code (st : broker_state_t) : Z :=
  match st with
  | bs_created => -6
  | bs_configuring => -5
  | bs_configured => -4
  | bs_connecting => -3
  | bs_connected => -2
  | bs_initializing => -1
  | bs_operating => 0
  | bs_terminating => 1
  | bs_terminated => 3
  | bs_errored => 7
  end.

(** The comparison of two states. *)
Definition broker_state_lt (a b : broker_state_t) : bool :=
  broker_state_code a <? broker_state_code b.

Definition brokerStateName (state : broker_state_t) : string :=
  match state with
  | bs_created => "created"
  | bs_configuring => "configuring"
  | bs_configured => "configured"
  | bs_connecting => "connecting"
  | bs_connected => "connected"
  | bs_initializing => "initializing"
  | bs_operating => "operating"
  | bs_terminating => "terminating"
  | bs_terminated => "terminated"
  | bs_errored => "error"
  end.

Class SteadyClock := steady_now : nat → Z.
(** [Time::to_ms] *)
Class TimeMs := Time_to_ms : Time → Z.

(** [class BrokerBase]; [clock_reads] counts the readings of the clock. *)
Record BrokerBase := mkBrokerBase {
  global_id : global_federate_id;
  global_broker_id_local : global_federate_id;
  higher_broker_id : global_federate_id;
  maxLogLevel : Z;
  consoleLogLevel : Z;
  fileLogLevel : Z;
  minFederateCount : Z;
  minBrokerCount : Z;
  maxIterationCount : Z;
  bb_timeout : Time;
  errorDelay : Time;
  identifier : string;
  brokerKey : string;
  haltOperations : bool;
  terminate_on_error : bool;
  mainLoopIsRunning : bool;
  messageCounter : Z;
  timeCoord : ForwardingTimeCoordinator;
  brokerState : broker_state_t;
  hasTimeDependency : bool;
  enteredExecutionMode : bool;
  hasFilters : bool;
  forwardTick : bool;
  no_ping : bool;
  errorTimeStart : Z;
  lastErrorCode : Z;
  lastErrorString : string;
  clock_reads : nat;
}.

#[export] Instance eta_BrokerBase : Eta BrokerBase := λ b,
  mkBrokerBase (global_id b) (global_broker_id_local b) (higher_broker_id b) (maxLogLevel b)
    (consoleLogLevel b) (fileLogLevel b) (minFederateCount b) (minBrokerCount b)
    (maxIterationCount b) (bb_timeout b) (errorDelay b) (identifier b) (brokerKey b) (haltOperations b) (terminate_on_error b)
    (mainLoopIsRunning b) (messageCounter b) (timeCoord b) (brokerState b)
    (hasTimeDependency b) (enteredExecutionMode b) (hasFilters b) (forwardTick b)
    (no_ping b) (errorTimeStart b) (lastErrorCode b) (lastErrorString b) (clock_reads b).

(** What an operation hands to the layers around it. *)
Inductive broker_out :=
  | Transmit (rid : route_id) (cmd : ActionMessage)
  | AddRoute (rid : route_id) (interfaceId : Z) (routeInfo : string)
  | RemoveRoute (rid : route_id)
  | Queue (cmd : ActionMessage)
  | QueryValue (queryId : Z) (answer : string)
  | QueriesFulfilled (answer : string)
  | LocalQuery (cmd : ActionMessage)
  | QueryComponent (cmd : ActionMessage)
  | LoggerUpdate (cmd : ActionMessage)
  | CommsDisconnect
  | Unregister
  | DisconnectionTriggered.

Class HasBase (S : Type) := {
  base : S → BrokerBase;
  set_base : BrokerBase → S → S;
}.
Class HasBaseLaws (S : Type) `{HasBase S} := {
  base_set_base : ∀ b (s : S), base (set_base b s) = b;
  set_base_base : ∀ s : S, set_base (base s) s = s;
  set_base_set_base : ∀ b b' (s : S), set_base b (set_base b' s) = set_base b s;
}.

(** The virtual methods that a broker or a core overrides. *)
Class BrokerVirtuals (S : Type) := {
  v_processCommand : ActionMessage → effM S broker_out unit;
  v_processPriorityCommand : ActionMessage → effM S broker_out unit;
  v_processDisconnect : bool → effM S broker_out unit;
}.

(** [gmlc::containers::BlockingPriorityQueue]: two queues, the priority one first. *)
Class PriorityQueue (A Q : Type) := {
  pq_new : Q;
  pq_push : A → Q → Q;
  pq_pushPriority : A → Q → Q;
  pq_pop : Q → option (A * Q);
}.
Class PriorityQueueLaws (A Q : Type) `{PriorityQueue A Q} := {
  pq_high : Q → list A;
  pq_low : Q → list A;
  pq_new_lists : pq_high pq_new = [] ∧ pq_low pq_new = [];
  pq_push_lists : ∀ m q,
    pq_high (pq_push m q) = pq_high q ∧ pq_low (pq_push m q) = pq_low q ++ [m];
  pq_pushPriority_lists : ∀ m q,
    pq_high (pq_pushPriority m q) = pq_high q ++ [m] ∧ pq_low (pq_pushPriority m q) = pq_low q;
  pq_pop_lists : ∀ q,
    match pq_pop q with
    | Some (m, q') =>
        (pq_high q = m :: pq_high q' ∧ pq_low q' = pq_low q) ∨
        (pq_high q = [] ∧ pq_high q' = [] ∧ pq_low q = m :: pq_low q')
    | None => pq_high q = [] ∧ pq_low q = []
    end;
}.

Section base.
  Context `{TimeRep} `{SteadyClock} `{TimeMs} {S : Type} `{HasBase S}.
  Abbreviation M := (effM S broker_out).
  Implicit Types (s : S) (b : BrokerBase) (cmd : ActionMessage).

(** The member initialisers, with [timeCoord] as [configureBase] makes it. *)
Definition newBrokerBase (name : string) : BrokerBase := {|
  global_id := parent_broker_id; global_broker_id_local := invalid_global_fed_id;
  higher_broker_id := 0; maxLogLevel := 1; consoleLogLevel := 1; fileLogLevel := 1;
  minFederateCount := 1; minBrokerCount := 0; maxIterationCount := 10000;
  bb_timeout := Time_of_int 30;
  errorDelay := Time_of_int 10; identifier := name;
  brokerKey := ""; haltOperations := false; terminate_on_error := false;
  mainLoopIsRunning := false; messageCounter := 0;
  timeCoord := newForwardingTimeCoordinator <| hasSender := true |>;
  brokerState := bs_created; hasTimeDependency := false; enteredExecutionMode := false;
  hasFilters := false; forwardTick := false; no_ping := false; errorTimeStart := 0;
  lastErrorCode := 0; lastErrorString := ""; clock_reads := 0 |}.

(** ** Primitive operations *)

Definition get_base : M BrokerBase := s ← eff_get; mret (base s).
Definition upd_base (f : BrokerBase → BrokerBase) : M unit :=
  eff_modify (λ s, set_base (f (base s)) s).

Definition localId : M global_federate_id :=
  b ← get_base; mret (global_broker_id_local b).
Definition setBrokerState (st : broker_state_t) : M unit :=
  upd_base (λ b, b <| brokerState := st |>).

Definition transmit (rid : route_id) cmd : M unit := eff_emit (Transmit rid cmd).
Definition addRoute (rid : route_id) (interfaceId : Z) (routeInfo : string) : M unit :=
  eff_emit (AddRoute rid interfaceId routeInfo).
Definition removeRoute (rid : route_id) : M unit := eff_emit (RemoveRoute rid).
(** [addActionMessage]: the queue takes it, see [queueMessage] below. *)
Definition addActionMessage cmd : M unit := eff_emit (Queue cmd).

(** [std::chrono::steady_clock::now()] *)
Definition readClock : M Z :=
  b ← get_base;
  _ ← upd_base (λ b, b <| clock_reads := Datatypes.S (clock_reads b) |>);
  mret (steady_now (clock_reads b)).

(** A call of the time coordinator; its messages go through [addActionMessage]. *)
Definition coord {A}
    (f : ForwardingTimeCoordinator →
         outcome (ForwardingTimeCoordinator * list ActionMessage * A)) : M A :=
  b ← get_base;
  '(tc, msgs, a) ← eff_lift (f (timeCoord b));
  _ ← upd_base (λ b, b <| timeCoord := tc |>);
  _ ← eff_each addActionMessage msgs;
  mret a.
Definition coord_ (f : ForwardingTimeCoordinator → ForwardingTimeCoordinator * list ActionMessage)
    : M unit := coord (λ tc, Ok (f tc, tt)).
Definition coord_quiet {A} (f : ForwardingTimeCoordinator → ForwardingTimeCoordinator * A)
    : M A := coord (λ tc, let '(tc, a) := f tc in Ok (tc, [], a)).
Definition coord_pure (f : ForwardingTimeCoordinator → ForwardingTimeCoordinator) : M unit :=
  coord (λ tc, Ok (f tc, [], tt)).
(** [timeCoord->disconnect()] *)
Definition coord_disconnect (le : bool) : M unit :=
  coord (λ tc, '(tc, msgs) ← ftc_disconnect le tc; Ok (tc, msgs, tt)).

(** [enteredExecutionMode] after [checkExecEntry]. *)
Definition checkExecEntry : M unit :=
  res ← coord (λ tc, Ok (ftc_checkExecEntry tc));
  eff_when (bool_decide (res = next_step))
    (upd_base (λ b, b <| enteredExecutionMode := true |>)).
Definition processTimeMessage cmd : M bool :=
  coord_quiet (λ tc, ftc_processTimeMessage tc cmd).

(** ** Operations *)

Definition setErrorState (eCode : Z) (estring : string) : M unit :=
  _ ← upd_base (λ b, b <| lastErrorString := estring |> <| lastErrorCode := eCode |>);
  b ← get_base;
  if negb (bool_decide (brokerState b = bs_errored)) then
    _ ← upd_base (λ b, b <| brokerState := bs_errored |>);
    if errorDelay b <=? timeZero then
      addActionMessage (newMessageTo cmd_user_disconnect (global_id b) (global_id b))
    else
      now ← readClock;
      upd_base (λ b, b <| errorTimeStart := now |>)
  else mret tt.

Definition setLogLevels (consoleLevel fileLevel : Z) : M unit :=
  upd_base (λ b, b <| consoleLogLevel := consoleLevel |> <| fileLogLevel := fileLevel |>
                   <| maxLogLevel := Z.max consoleLevel fileLevel |>).
Definition setLogLevel (level : Z) : M unit := setLogLevels level level.

(** ** The processing of the queue *)

Context `{BrokerVirtuals S} (le : bool).

(** The parts of a multi message, one after the other; the result is the message and the
    action that the loop has to deal with.  [process] is [commandProcessor] itself. *)
Fixpoint processParts (process : ActionMessage → M (ActionMessage * action_t))
    (parts : list string) cmd : M (ActionMessage * action_t) :=
  match parts with
  | [] => mret (cmd, cmd_ignore)
  | part :: parts =>
      NMess ← eff_lift (from_string le (bytes_of_string part) defaultMessage);
      '(NMess, V) ← process NMess;
      if negb (bool_decide (V = cmd_ignore)) && negb (bool_decide (V = cmd_tick))
      then mret (copyAssign cmd NMess, V)
      else processParts process parts cmd
  end.

(** The strings that [for (int ii = 0; ii < command.counter; ++ii)] reads. *)
Definition partStrings cmd : list string :=
  getString cmd <$> (Z.of_nat <$> seq 0 (Z.to_nat (counter cmd))).

(** [commandProcessor], with a bound on the nesting of multi messages. *)
Fixpoint commandProcessor (fuel : nat) cmd : M (ActionMessage * action_t) :=
  match fuel with
  | O => eff_unbounded
  | Datatypes.S fuel =>
      match action cmd with
      | cmd_ignore => mret (cmd, cmd_ignore)
      | cmd_terminate_immediately | cmd_stop | cmd_tick | cmd_ping | cmd_error_check =>
          mret (cmd, action cmd)
      | cmd_multi_message => processParts (commandProcessor fuel) (partStrings cmd) cmd
      | _ =>
          b ← get_base;
          _ ← eff_when (negb (haltOperations b))
                (if isPriorityCommand cmd then v_processPriorityCommand cmd
                 else v_processCommand cmd);
          mret (cmd, cmd_ignore)
      end
  end.

(** [messagesSinceLastTick] is a variable of the loop. *)
Inductive loop_result := LoopContinue (messagesSinceLastTick : Z) | LoopReturn.

(** The switch on the action that [commandProcessor] returned. *)
Definition loopAction (ticks : Z) cmd (ret : action_t) : M loop_result :=
  match ret with
  | cmd_ignore => mret (LoopContinue (ticks + 1))
  | cmd_tick =>
      b ← get_base;
      if bool_decide (brokerState b = bs_errored) then
        ctime ← readClock;
        _ ← (if Time_to_ms (errorDelay b) * 1000000 <=? ctime - errorTimeStart b
             then addActionMessage (setAction cmd cmd_user_disconnect)
             else addActionMessage (setAction cmd cmd_error_check));
        mret (LoopContinue ticks)
      else
        _ ← eff_when ((ticks =? 0) || forwardTick b) (v_processCommand cmd);
        mret (LoopContinue 0)
  | cmd_error_check =>
      b ← get_base;
      _ ← eff_when (bool_decide (brokerState b = bs_errored))
            (ctime ← readClock;
             if Time_to_ms (errorDelay b) * 1000000 <? ctime - errorTimeStart b
             then addActionMessage (setAction cmd cmd_user_disconnect)
             else addActionMessage cmd);
      mret (LoopContinue ticks)
  | cmd_ping =>
      let ticks := if negb (source_id cmd =? parent_broker_id) then ticks + 1 else ticks in
      _ ← v_processCommand cmd;
      mret (LoopContinue ticks)
  | cmd_terminate_immediately =>
      _ ← upd_base (λ b, b <| mainLoopIsRunning := false |>);
      mret LoopReturn
  | cmd_stop =>
      b ← get_base;
      _ ← eff_when (negb (haltOperations b))
            (_ ← v_processCommand cmd;
             _ ← upd_base (λ b, b <| mainLoopIsRunning := false |>);
             v_processDisconnect false);
      mret LoopReturn
  | _ => mret (LoopContinue ticks)
  end.

(** One round of the loop of [queueProcessingLoop], for the command that was popped. *)
Definition loopRound (fuel : nat) (ticks : Z) cmd : M loop_result :=
  _ ← upd_base (λ b, b <| messageCounter := messageCounter b + 1 |>);
  if bool_decide (action cmd = cmd_ignore) then mret (LoopContinue ticks)
  else
    '(cmd, ret) ← commandProcessor fuel cmd;
    loopAction ticks cmd ret.

Context `{PriorityQueue ActionMessage Q}.

(** [BrokerBase::addActionMessage] on the queue. *)
Definition queueMessage cmd (q : Q) : Q :=
  if isPriorityCommand cmd then pq_pushPriority cmd q else pq_push cmd q.
Definition queueOutputs (outs : list broker_out) (q : Q) : Q :=
  foldl (λ q out, match out with Queue cmd => queueMessage cmd q | _ => q end) q outs.

(** The loop: [n] rounds at most.  The result is the object, the rest of the queue, what
    was put out, and whether the loop has returned; an empty queue blocks the thread. *)
Inductive loop_status := Running (messagesSinceLastTick : Z) | Blocked | Returned.
Fixpoint processingLoop (fuel n : nat) (ticks : Z) s (q : Q)
    : option (outcome (S * Q * list broker_out * loop_status)) :=
  match n with
  | O => Some (Ok (s, q, [], Running ticks))
  | Datatypes.S n =>
      match pq_pop q with
      | None => Some (Ok (s, q, [], Blocked))
      | Some (cmd, q) =>
          match loopRound fuel ticks cmd s with
          | Some (Ok (s, outs, LoopContinue ticks)) =>
              match processingLoop fuel n ticks s (queueOutputs outs q) with
              | Some (Ok (s, q, outs', st)) => Some (Ok (s, q, outs ++ outs', st))
              | r => r
              end
          | Some (Ok (s, outs, LoopReturn)) => Some (Ok (s, pq_new, outs, Returned))
          | Some (Throw what) => Some (Throw what)
          | Some Fault => Some Fault
          | None => None
          end
      end
  end.

(** [queueProcessingLoop] from its start. *)
Definition queueProcessingLoop (fuel n : nat) s (q : Q)
    : option (outcome (S * Q * list broker_out * loop_status)) :=
  if haltOperations (base s)
  then Some (Ok (set_base ((base s) <| mainLoopIsRunning := false |>) s, q, [], Returned))
  else
    let s := set_base ((base s) <| global_broker_id_local := global_id (base s) |>) s in
    processingLoop fuel n 0 s q.
End base.
