(* ===== verification/BrokerLoop.v ===== *)
(** * The processing of messages (BrokerBase.cpp)

    [commandProcessor] calls itself on the parts of a multi message.  The recursion ends,
    because a part takes less room than the message it is in; and a message packed out of
    others is processed like the others, one after the other. *)

From stdpp Require Import strings.
From S2P Require Import Prelude HelicsTime Ids Flags ActionMessage MessageCodec CodecFacts.
From S2P Require Import MultiMessage Definitions TimeDependencies TimeCoordinator.
From S2P Require Import ForwardingTimeCoordinator Effects BrokerBase.

Section loop.
  Context `{TimeRep} `{SteadyClock} `{TimeMs} {S : Type} `{HasBase S} `{BrokerVirtuals S}.
  Context (le : bool).
  Abbreviation M := (effM S broker_out).
  Implicit Types (s : S) (cmd m : ActionMessage).

(** ** The recursion ends *)

(** The room of the strings of a message. *)
Definition nest_size cmd : nat := Z.to_nat (chars_size (stringData cmd)).

Lemma partStrings_size cmd part :
  part ∈ partStrings cmd → (String.length part ≤ nest_size cmd)%nat.
Proof.
  unfold partStrings, nest_size. intros (i & -> & _)%list_elem_of_fmap.
  unfold getString. case_match; [|cbn; lia].
  assert (∀ (l : list string) n,
    (String.length (default "" (l !! n)) ≤ Z.to_nat (chars_size l))%nat) as Hl.
  { induction l as [|x l IH]; intros n; [apply Nat.le_0_l|].
    pose proof (chars_size_nonneg l).
    change (chars_size (x :: l)) with (string_size x + chars_size l).
    rewrite Z2Nat.inj_add by (unfold string_size; lia). unfold string_size.
    rewrite Nat2Z.id. destruct n as [|n].
    - change (String.length x ≤ String.length x + Z.to_nat (chars_size l))%nat. lia.
    - etrans; [apply (IH n)|]. lia. }
  specialize (Hl (stringData cmd) (Z.to_nat i)). by destruct (stringData cmd !! Z.to_nat i).
Qed.

Lemma bounded_parts (process : ActionMessage → M (ActionMessage * action_t)) n parts cmd :
  (∀ m, (action m = cmd_multi_message → (nest_size m < n)%nat) → bounded (process m)) →
  (∀ part, part ∈ parts → (String.length part ≤ n)%nat) →
  bounded (processParts le process parts cmd).
Proof.
  intros Hp. induction parts as [|part parts IH]; intros Hn; cbn [processParts].
  { apply bounded_ret. }
  apply bounded_lift_bind. intros NMess E. apply bounded_bind.
  - apply Hp. intros Ha. apply from_string_chars in E; [|by intros; unfold action in *; congruence].
    rewrite length_bytes in E. unfold nest_size, string_size in *.
    pose proof (chars_size_nonneg (stringData NMess)).
    specialize (Hn part (list_elem_of_here _ _)). lia.
  - intros [NMess' V]. case_match; [apply bounded_ret|]. apply IH.
    intros part' Hin. apply Hn. by right.
Qed.

Lemma commandProcessor_bounded fuel cmd :
  (∀ m, bounded (v_processCommand m)) → (∀ m, bounded (v_processPriorityCommand m)) →
  (0 < fuel)%nat → (action cmd = cmd_multi_message → (1 + nest_size cmd < fuel)%nat) →
  bounded (commandProcessor le fuel cmd).
Proof.
  intros Hc Hp. revert cmd. induction fuel as [|fuel IH]; intros cmd Hpos Hf; [lia|].
  cbn [commandProcessor].
  assert (bounded (b ← get_base;
    _ ← eff_when (negb (haltOperations b))
          (if isPriorityCommand cmd then v_processPriorityCommand cmd else v_processCommand cmd);
    mret (cmd, cmd_ignore) : M _)) as Hd.
  { apply bounded_bind; [by apply bounded_bind|]. intros b.
    apply bounded_bind; [|intros; apply bounded_ret]. apply bounded_when.
    by destruct (isPriorityCommand cmd). }
  destruct (action cmd) eqn:Ha; try exact Hd; try apply bounded_ret.
  specialize (Hf eq_refl). apply (bounded_parts _ (nest_size cmd)); [|apply partStrings_size].
  intros m Hm. apply IH; [lia|]. intros Hma. specialize (Hm Hma). lia.
Qed.

(** The processing of a message returns when the handlers of the broker or core do:
    messages nested in messages are nested at most as deep as the message has
    characters. *)
Theorem commandProcessor_returns cmd s :
  (∀ m, bounded (v_processCommand m)) → (∀ m, bounded (v_processPriorityCommand m)) →
  commandProcessor le (2 + nest_size cmd) cmd s ≠ None.
Proof. intros Hc Hp. apply commandProcessor_bounded; [done..|lia|lia]. Qed.

(** ** A packed message is its parts *)

(** A message that is not left to the loop and not packed. *)
Definition plain m : bool :=
  match action m with
  | cmd_terminate_immediately | cmd_stop | cmd_tick | cmd_ping | cmd_error_check
  | cmd_multi_message => false
  | _ => true
  end.

(** The message is processed, and nothing is left to the loop. *)
Lemma plain_processor fuel m s :
  plain m = true →
  commandProcessor le (1 + fuel) m s = (_ ← commandProcessor le 1 m; mret (m, cmd_ignore)) s.
Proof.
  unfold plain. cbn [commandProcessor Nat.add]. intros Hm.
  destruct (action m); first [done|apply eff_ret_again].
Qed.

Lemma processParts_plain fuel ms cmd parts s :
  Forall (λ m, plain m = true) ms →
  Forall2 (λ part m, from_string le (bytes_of_string part) defaultMessage = Ok m) parts ms →
  processParts le (commandProcessor le (1 + fuel)) parts cmd s =
    (_ ← eff_each (λ m, _ ← commandProcessor le 1 m; mret tt) ms; mret (cmd, cmd_ignore)) s.
Proof.
  intros Hms Hp. revert s. induction Hp as [|part m parts ms E _ IH]; intros s; [done|].
  apply Forall_cons in Hms as [Hm Hms]. cbn [processParts eff_each]. rewrite E.
  rewrite (eff_bind_ok _ _ s s m) by done.
  rewrite (eff_bind_ext _ _ _ _ s (plain_processor fuel m s Hm) (λ _ _, eq_refl)).
  rewrite !eff_bind_assoc. apply eff_bind_ext; [done|]. intros a s1.
  rewrite !eff_ret_bind. rewrite bool_decide_true by done. apply IH, Hms.
Qed.

Lemma received_action le' m0 m : action (received le' le m0 m) = action m.
Proof.
  unfold action, received. by destruct (Bool.eqb le' le), (is_time_request _).
Qed.
Lemma partStrings_all multi :
  counter multi = Z.of_nat (length (stringData multi)) → partStrings multi = stringData multi.
Proof.
  intros Hc. unfold partStrings. rewrite Hc, Nat2Z.id, <-list_fmap_compose.
  apply list_eq. intros i. rewrite list_lookup_fmap.
  destruct (decide (i < length (stringData multi))%nat) as [Hi|Hi].
  - rewrite lookup_seq_lt by done. cbn. unfold getString, isValidIndex.
    rewrite (proj2 (Z.leb_le _ _)), (proj2 (Z.ltb_lt _ _)), Nat2Z.id by lia.
    by apply lookup_lt_is_Some in Hi as [x ->].
  - rewrite lookup_seq_ge, lookup_ge_None_2 by lia. done.
Qed.

End loop.
