(* ===== verification/BrokerState.v ===== *)
(** * The state of a broker (src/src/helics/core/CoreBroker.hpp, TimeoutMonitor.h)

    A broker routes messages between the cores and brokers that have registered with it
    and the broker above it; the broker at the root of the tree gives every federate and
    broker its identifier.  This file has the data of a broker, the constructor and the
    operations that read it: the choice of a route and the state of the connections. *)

From stdpp Require Import strings.
From S2P Require Import Prelude HelicsTime Ids Flags ActionMessage MessageCodec.
From S2P Require Import Definitions TimeDependencies TimeCoordinator.
From S2P Require Import ForwardingTimeCoordinator HandleManager UnknownHandles.
From S2P Require Import Effects MappedVector BrokerBase.

(** [enum class connection_state : std::uint8_t] *)
Inductive connection_state :=
  | cs_connected
  | cs_init_requested
  | cs_operating
  | cs_error
  | cs_request_disconnect
  | cs_disconnected.

#[export] Instance connection_state_eq_dec : EqDecision connection_state.
Proof. solve_decision. Defined.

Definition connection_state_code (st : connection_state) : Z :=
  match st with
  | cs_connected => 0
  | cs_init_requested => 1
  | cs_operating => 2
  | cs_error => 40
  | cs_request_disconnect => 48
  | cs_disconnected => 50
  end.
Definition cs_lt (a b : connection_state) : bool :=
  connection_state_code a <? connection_state_code b.

(** [state_string] *)
Definition state_string (state : connection_state) : string :=
  match state with
  | cs_operating => "operating"
  | cs_init_requested => "init_requested"
  | cs_connected => "connected"
  | cs_request_disconnect => "disconnected"
  | cs_disconnected => "disconnected"
  | cs_error => "error"
  end.

(** [class BasicFedInfo] *)
Record BasicFedInfo := mkBasicFedInfo {
  fi_name : string;
  fi_global_id : global_federate_id;
  fi_route : route_id;
  fi_parent : global_federate_id;
  fi_state : connection_state;
}.
#[export] Instance eta_BasicFedInfo : Eta BasicFedInfo := λ f,
  mkBasicFedInfo (fi_name f) (fi_global_id f) (fi_route f) (fi_parent f) (fi_state f).
Definition newFedInfo (fedname : string) : BasicFedInfo :=
  mkBasicFedInfo fedname invalid_global_fed_id invalid_route_id invalid_global_fed_id
    cs_connected.

(** [class BasicBrokerInfo] *)
Record BasicBrokerInfo := mkBasicBrokerInfo {
  bi_name : string;
  bi_global_id : global_federate_id;
  bi_route : route_id;
  bi_parent : global_federate_id;
  bi_state : connection_state;
  bi_core : bool;
  bi_nonLocal : bool;
  bi_route_key : bool;
  bi_sent_disconnect_ack : bool;
  bi_disable_ping : bool;
}.
#[export] Instance eta_BasicBrokerInfo : Eta BasicBrokerInfo := λ b,
  mkBasicBrokerInfo (bi_name b) (bi_global_id b) (bi_route b) (bi_parent b) (bi_state b)
    (bi_core b) (bi_nonLocal b) (bi_route_key b) (bi_sent_disconnect_ack b)
    (bi_disable_ping b).
Definition newBrokerInfo (brokerName : string) : BasicBrokerInfo :=
  mkBasicBrokerInfo brokerName invalid_global_fed_id invalid_route_id invalid_global_fed_id
    cs_connected false false false false false.

(** [struct linkConnection] and [class TimeoutMonitor]; times of the clock are in
    nanoseconds, the timeout in milliseconds. *)
Record linkConnection := mkLinkConnection {
  waitingForPingReply : bool;
  activeConnection : bool;
  disablePing : bool;
  connection : global_federate_id;
  lastPing : Z;
}.
#[export] Instance eta_linkConnection : Eta linkConnection := λ l,
  mkLinkConnection (waitingForPingReply l) (activeConnection l) (disablePing l)
    (connection l) (lastPing l).
Definition newLinkConnection : linkConnection := mkLinkConnection false false false 0 0.

Record TimeoutMonitor := mkTimeoutMonitor {
  tm_timeout : Z;
  waitingForConnection : bool;
  startWaiting : Z;
  parentConnection : linkConnection;
  connections : list linkConnection;
}.
#[export] Instance eta_TimeoutMonitor : Eta TimeoutMonitor := λ t,
  mkTimeoutMonitor (tm_timeout t) (waitingForConnection t) (startWaiting t)
    (parentConnection t) (connections t).
Definition newTimeoutMonitor : TimeoutMonitor :=
  mkTimeoutMonitor 100000000 false 0 newLinkConnection [].

(** [setTimeout], [setParentId], [disableParentPing] and [reset]. *)
Definition tm_setTimeout (ms : Z) (t : TimeoutMonitor) : TimeoutMonitor :=
  t <| tm_timeout := ms |>.
Definition tm_setParentId (parent_id : global_federate_id) (t : TimeoutMonitor)
    : TimeoutMonitor :=
  t <| parentConnection := (parentConnection t) <| connection := parent_id |> |>.
Definition tm_disableParentPing (value : bool) (t : TimeoutMonitor) : TimeoutMonitor :=
  t <| parentConnection := (parentConnection t) <| disablePing := value |>
                             <| waitingForPingReply := false |> |>.
Definition tm_reset (t : TimeoutMonitor) : TimeoutMonitor :=
  t <| parentConnection := (parentConnection t) <| waitingForPingReply := false |> |>
    <| waitingForConnection := false |>
    <| connections := (λ c, c <| waitingForPingReply := false |>) <$> connections t |>.

(** [now - since > timeout] *)
Definition tm_expired (t : TimeoutMonitor) (now since : Z) : bool :=
  tm_timeout t * 1000000 <? now - since.

Definition universalKey : string := "**".
Abbreviation duplicate_broker_name_error_code := (7)%Z (only parsing).
Abbreviation mismatch_broker_key_error_code := (9)%Z (only parsing).
Abbreviation UPDATE_LOGGING_CALLBACK := (592)%Z (only parsing).
Abbreviation REQUEST_TICK_FORWARDING := (607)%Z (only parsing).
Abbreviation general_query := (0)%Z (only parsing).

Section broker.
  Context `{TimeRep} `{MappedVector C}.

(** [class CoreBroker].  [delayTransmitQueue] is a first in, first out queue; the
    containers of the query subsystem are not modelled. *)
Record CoreBroker := mkCoreBroker {
  cb_base : BrokerBase;
  isRoot : bool;
  isRootc : bool;
  connectionEstablished : bool;
  routeCount : Z;
  federates_ : C BasicFedInfo;
  brokers_ : C BasicBrokerInfo;
  cb_handles : HandleManager;
  unknownHandles : UnknownHandleManager;
  delayedDependencies : list (string * global_federate_id);
  global_id_translation : gmap global_federate_id local_federate_id;
  routing_table : gmap global_federate_id route_id;
  knownExternalEndpoints : gmap string route_id;
  global_values : gmap string string;
  earlyMessages : list ActionMessage;
  delayTransmitQueue : list ActionMessage;
  timeoutMon : TimeoutMonitor;
}.

#[export] Instance eta_CoreBroker : Eta CoreBroker := λ s,
  mkCoreBroker (cb_base s) (isRoot s) (isRootc s) (connectionEstablished s) (routeCount s)
    (federates_ s) (brokers_ s) (cb_handles s) (unknownHandles s) (delayedDependencies s)
    (global_id_translation s) (routing_table s) (knownExternalEndpoints s)
    (global_values s) (earlyMessages s) (delayTransmitQueue s) (timeoutMon s).

#[export] Instance CoreBroker_base : HasBase CoreBroker :=
  {| base := cb_base; set_base b s := s <| cb_base := b |> |}.
#[export] Instance CoreBroker_base_laws : HasBaseLaws CoreBroker.
Proof. split; [done|by intros []|done]. Qed.

(** The constructor [CoreBroker(setAsRootBroker)]. *)
Definition newCoreBroker (setAsRootBroker : bool) (name : string) : CoreBroker := {|
  cb_base := newBrokerBase name; isRoot := setAsRootBroker; isRootc := setAsRootBroker;
  connectionEstablished := false; routeCount := 1; federates_ := mv_new;
  brokers_ := mv_new; cb_handles := newHandleManager;
  unknownHandles := newUnknownHandleManager; delayedDependencies := [];
  global_id_translation := ∅; routing_table := ∅; knownExternalEndpoints := ∅;
  global_values := ∅; earlyMessages := []; delayTransmitQueue := [];
  timeoutMon := newTimeoutMonitor |}.

Implicit Types (s : CoreBroker) (cmd mess : ActionMessage).

(** ** Routes *)

Definition getRoute s (fedid : global_federate_id) : route_id :=
  if (fedid =? parent_broker_id) || (fedid =? higher_broker_id (cb_base s))
  then parent_route_id
  else match routing_table s !! fedid with Some route => route | None => parent_route_id end.

(** [getBrokerById]: the index of the broker. *)
Definition getBrokerById s (brokerid : global_federate_id) : option nat :=
  if isRootc s then
    let brkNum := broker_localIndex brokerid in
    if isValidIndex brkNum (mv_elements (brokers_ s)) then Some (Z.to_nat brkNum) else None
  else mv_index2 (brokers_ s) brokerid.

(** The two overloads of [verifyBrokerKey]. *)
Definition verifyKey s (key : string) : bool :=
  String.eqb key (brokerKey (cb_base s)) || String.eqb (brokerKey (cb_base s)) universalKey.
Definition verifyBrokerKey s mess : bool :=
  if 1 <? Z.of_nat (length (stringData mess)) then verifyKey s (getString mess 1)
  else String.eqb (brokerKey (cb_base s)) "".

(** The message is returned with its destination. *)
Definition fillMessageRouteInformation s mess : outcome (route_id * ActionMessage) :=
  let endpointName := getString mess targetStringLoc in
  eptInfo ← getEndpoint (cb_handles s) endpointName;
  match eptInfo with
  | Some ept => Ok (getRoute s (fed_id (hi_handle ept)), setDestination mess (hi_handle ept))
  | None =>
      match knownExternalEndpoints s !! endpointName with
      | Some route => Ok (route, mess)
      | None => Ok (parent_route_id, mess)
      end
  end.

(** ** The state of the connections *)

Definition isOpenToNewFederates s : bool :=
  let cstate := brokerState (cb_base s) in
  negb (bool_decide (cstate = bs_created)) && broker_state_lt cstate bs_operating
  && negb (haltOperations (cb_base s)).

Definition isConnected s : bool :=
  bool_decide (brokerState (cb_base s) = bs_operating)
  || bool_decide (brokerState (cb_base s) = bs_connected).

(** The loop of [getAllConnectionState]: the count and the least state. *)
Definition connectionStep (acc : Z * connection_state) (brk : BasicBrokerInfo)
    : Z * connection_state :=
  if bi_nonLocal brk then acc
  else (acc.1 + 1, if cs_lt (bi_state brk) acc.2 then bi_state brk else acc.2).
Definition getAllConnectionState s : connection_state :=
  let '(cnt, res) := foldl connectionStep (0, cs_disconnected) (mv_elements (brokers_ s)) in
  if 0 <? cnt then res else cs_connected.

Definition allInitReady s : bool :=
  if to_sint 32 (Z.of_nat (mv_size (federates_ s))) <? minFederateCount (cb_base s)
  then false
  else if to_sint 32 (Z.of_nat (mv_size (brokers_ s))) <? minBrokerCount (cb_base s)
  then false
  else negb (cs_lt (getAllConnectionState s) cs_init_requested).

(** ** Queries about one federate or broker *)

Definition queryState (st : connection_state) (query : string) : string :=
  if String.eqb query "exists" then "true"
  else if String.eqb query "isconnected" then
    if negb (cs_lt st cs_connected) && negb (cs_lt cs_operating st) then "true" else "false"
  else if String.eqb query "state" then state_string st
  else if String.eqb query "isinit" then
    if negb (cs_lt st cs_operating) then "true" else ""
  else "".
Definition checkFedQuery (fed : BasicFedInfo) (query : string) : string :=
  queryState (fi_state fed) query.
Definition checkBrokerQuery (brk : BasicBrokerInfo) (query : string) : string :=
  queryState (bi_state brk) query.
End broker.

Global Arguments CoreBroker : clear implicits.
