(* ===== verification/CoreBroker.v ===== *)
(** * The message handlers of a broker (src/src/helics/core/CoreBroker.cpp)

    One definition per handler, in the order in which they call each other; the two
    entry points are [processPriorityCommand] and [processCommand].  A pointer or an
    iterator into [_federates] or [_brokers] is the index of the element.

    The answers to queries about the broker itself (a JSON document) are not modelled:
    the message that asks is put out as [LocalQuery].  [BrokerText] has the library
    functions that the other queries use. *)

From stdpp Require Import strings.
From Stdlib Require Import Ascii.
From S2P Require Import Prelude HelicsTime Ids Flags ActionMessage MessageCodec.
From S2P Require Import Definitions TimeDependencies TimeCoordinator.
From S2P Require Import ForwardingTimeCoordinator HandleManager UnknownHandles.
From S2P Require Import Effects MappedVector BrokerBase BrokerState.

(** [gmlc::utilities::str2vector<int>(text, -23, ";:")], and the texts of a map of
    values as a list of names and as a JSON object. *)
Class BrokerText := {
  str2vector : string → list Z;
  values_list : gmap string string → string;
  values_json : gmap string string → string;
}.

Section broker.
  Context `{TimeRep} `{SteadyClock} `{TimeMs} `{Fmt} `{MappedVector C} `{BrokerText}.
  Context (le : bool).
  Abbreviation CB := (CoreBroker C).
  Abbreviation M := (effM CB broker_out).
  Implicit Types (s : CB) (cmd command m mess : ActionMessage).

(** ** Elementary operations *)

Definition isRootBroker : M bool := s ← eff_get; mret (isRootc s).
Definition upd_federates (f : C BasicFedInfo → C BasicFedInfo) : M unit :=
  eff_modify (λ s, s <| federates_ := f (federates_ s) |>).
Definition upd_brokers (f : C BasicBrokerInfo → C BasicBrokerInfo) : M unit :=
  eff_modify (λ s, s <| brokers_ := f (brokers_ s) |>).
Definition upd_unknown (f : UnknownHandleManager → UnknownHandleManager) : M unit :=
  eff_modify (λ s, s <| unknownHandles := f (unknownHandles s) |>).
(** [routing_table.emplace(id, route)] *)
Definition emplaceRoute (id : global_federate_id) (route : route_id) : M unit :=
  eff_modify (λ s, s <| routing_table := map_emplace id route (routing_table s) |>).
(** [route_id{routeCount++}] *)
Definition newRoute : M route_id :=
  s ← eff_get;
  _ ← eff_modify (λ s, s <| routeCount := routeCount s + 1 |>);
  mret (routeCount s).
(** [_brokers[ii]] through a pointer *)
Definition brokerAt (ii : nat) : M BasicBrokerInfo :=
  s ← eff_get;
  match mv_elements (brokers_ s) !! ii with
  | Some brk => mret brk
  | None => eff_lift Fault
  end.
Definition alter_broker (f : BasicBrokerInfo → BasicBrokerInfo) (ii : nat) : M unit :=
  upd_brokers (mv_alter f ii).
Definition setBrokerConnection (st : connection_state) (ii : nat) : M unit :=
  alter_broker (λ brk, brk <| bi_state := st |>) ii.

(** [transmitToParent] *)
Definition transmitToParent cmd : M unit :=
  s ← eff_get;
  if isRoot s then addActionMessage cmd
  else if negb (fed_isValid (global_id (cb_base s))) then
    eff_modify (λ s, s <| delayTransmitQueue := delayTransmitQueue s ++ [copyConstruct cmd] |>)
  else transmit parent_route_id cmd.

(** The overloads of [routeMessage] with and without a destination. *)
Definition routeMessage cmd : M unit :=
  s ← eff_get;
  if (dest_id cmd =? parent_broker_id) || (dest_id cmd =? higher_broker_id (cb_base s))
  then transmit parent_route_id cmd
  else transmit (getRoute s (dest_id cmd)) cmd.
Definition routeMessageTo cmd (dest : global_federate_id) : M unit :=
  if dest =? invalid_global_fed_id then mret tt
  else routeMessage (cmd <| dest_id := dest |>).

(** [broadcast]: the message keeps the destination of the last copy. *)
Fixpoint broadcastLoop (brks : list BasicBrokerInfo) cmd : M ActionMessage :=
  match brks with
  | [] => mret cmd
  | broker :: brks =>
      if negb (bi_nonLocal broker) && cs_lt (bi_state broker) cs_disconnected then
        let cmd := cmd <| dest_id := bi_global_id broker |> in
        _ ← transmit (bi_route broker) cmd;
        broadcastLoop brks cmd
      else broadcastLoop brks cmd
  end.
Definition broadcast cmd : M ActionMessage :=
  s ← eff_get; broadcastLoop (mv_elements (brokers_ s)) cmd.
Definition broadcast_ cmd : M unit := _ ← broadcast cmd; mret tt.

Definition transmitDelayedMessages : M unit :=
  s ← eff_get;
  _ ← eff_each (λ msg, transmit parent_route_id
                         (msg <| source_id := global_broker_id_local (cb_base s) |>))
        (delayTransmitQueue s);
  eff_modify (λ s, s <| delayTransmitQueue := [] |>).

(** ** Disconnection *)

Definition labelAsDisconnected (brkid : global_federate_id) : M unit :=
  _ ← upd_brokers (mv_apply (λ brk, if bi_parent brk =? brkid
                                     then brk <| bi_state := cs_disconnected |> else brk));
  upd_federates (mv_apply (λ fed, if fi_parent fed =? brkid
                                  then fed <| fi_state := cs_disconnected |> else fed)).

(** The lambda of [sendDisconnect] for one broker. *)
Definition sayGoodbye (ii : nat) : M unit :=
  brk ← brokerAt ii;
  b ← get_base;
  if cs_lt (bi_state brk) cs_disconnected then
    _ ← eff_when (bi_parent brk =? global_broker_id_local b)
          (_ ← routeMessageTo ((newMessage cmd_disconnect)
                                 <| source_id := global_broker_id_local b |>)
                 (bi_global_id brk);
           setBrokerConnection cs_disconnected ii);
    eff_when (hasTimeDependency b)
      (_ ← coord_pure (λ tc, ftc_removeDependency tc (bi_global_id brk));
       coord_pure (λ tc, ftc_removeDependent tc (bi_global_id brk)))
  else mret tt.
Definition sendDisconnect : M unit :=
  s ← eff_get;
  _ ← eff_each sayGoodbye (seq 0 (mv_size (brokers_ s)));
  eff_when (hasTimeDependency (cb_base s)) (coord_disconnect le).

Definition sendErrorToImmediateBrokers (error_code : Z) : M unit :=
  broadcast_ ((newMessage cmd_error) <| messageID := error_code |>).

(** One round of the loop over the brokers of [markAsDisconnected]; [rec] is the recursive
    call and the result is [isCore]. *)
Definition markOne (rec : global_federate_id → M unit) (brkid : global_federate_id)
    (ii : nat) (isCore : bool) : M bool :=
  brk ← brokerAt ii;
  isCore ←
    (if (bi_global_id brk =? brkid) && negb (bool_decide (bi_state brk = cs_error)) then
       _ ← setBrokerConnection cs_disconnected ii; mret (bi_core brk)
     else mret isCore);
  _ ← eff_when ((bi_parent brk =? brkid) && negb (bool_decide (bi_state brk = cs_error)))
        (_ ← setBrokerConnection cs_disconnected ii; rec (bi_global_id brk));
  mret isCore.
Fixpoint markLoop (rec : global_federate_id → M unit) (brkid : global_federate_id)
    (iis : list nat) (isCore : bool) : M bool :=
  match iis with
  | [] => mret isCore
  | ii :: iis =>
      isCore ← markOne rec brkid ii isCore;
      markLoop rec brkid iis isCore
  end.
Definition markFederates (brkid : global_federate_id) : M unit :=
  upd_federates (mv_apply (λ fed,
    if (fi_parent fed =? brkid) && negb (bool_decide (fi_state fed = cs_error))
    then fed <| fi_state := cs_disconnected |> else fed)).
(** The recursion follows the parents; [fuel] bounds its depth. *)
Fixpoint markAsDisconnected (fuel : nat) (brkid : global_federate_id) : M unit :=
  match fuel with
  | O => eff_unbounded
  | S fuel =>
      s ← eff_get;
      isCore ← markLoop (markAsDisconnected fuel) brkid (seq 0 (mv_size (brokers_ s))) false;
      eff_when isCore (markFederates brkid)
  end.
(** A chain of brokers without repetition is at most as long as their number. *)
Definition disconnect_fuel s : nat := S (S (mv_size (brokers_ s))).

Definition disconnectBroker (ii : nat) : M unit :=
  s ← eff_get;
  brk ← brokerAt ii;
  _ ← markAsDisconnected (disconnect_fuel s) (bi_global_id brk);
  b ← get_base;
  if broker_state_lt (brokerState b) bs_operating && isRootc s then
    _ ← broadcast_ ((newMessage cmd_broadcast_disconnect) <| source_id := bi_global_id brk |>);
    _ ← upd_unknown (λ u, clearFederateUnknowns u (bi_global_id brk));
    if negb (bi_core brk) then
      s ← eff_get;
      eff_each (λ subbrk,
          eff_when ((bi_parent subbrk =? bi_global_id brk) && bi_core subbrk)
            (upd_unknown (λ u, clearFederateUnknowns u (bi_global_id subbrk))))
        (mv_elements (brokers_ s))
    else mret tt
  else mret tt.

(** [processDisconnect(bool skipUnregister)] *)
Definition processDisconnectAll (skipUnregister : bool) : M unit :=
  b ← get_base;
  if bool_decide (brokerState b = bs_terminating) || bool_decide (brokerState b = bs_terminated)
  then mret tt
  else
    _ ← eff_when (broker_state_lt bs_configured (brokerState b))
          (_ ← setBrokerState bs_terminating; eff_emit CommsDisconnect);
    _ ← setBrokerState bs_terminated;
    _ ← eff_when (negb skipUnregister) (eff_emit Unregister);
    eff_emit DisconnectionTriggered.

(** The acknowledgment of a disconnection. *)
Definition disconnectAck (local : global_federate_id) (brk : BasicBrokerInfo) : ActionMessage :=
  newMessageTo (if bi_core brk then cmd_disconnect_core_ack else cmd_disconnect_broker_ack)
    local (bi_global_id brk).
Definition disconnectAction (brk : BasicBrokerInfo) : action_t :=
  if bi_core brk then cmd_disconnect_core else cmd_disconnect_broker.

(** The disconnection of this broker itself in the time coordination. *)
Definition disconnectTime command : M unit :=
  b ← get_base;
  eff_when (hasTimeDependency b)
    (if negb (enteredExecutionMode b) then
       _ ← processTimeMessage command; checkExecEntry
     else
       res ← processTimeMessage command;
       eff_when res (coord_ ftc_updateTimeFactors)).

(** The acknowledgment and the removal of the route of a local broker. *)
Definition acknowledgeDisconnect command (ii : nat) : M unit :=
  brk ← brokerAt ii;
  local ← localId;
  _ ← eff_when (negb (checkActionFlag command error_flag))
        (transmit (bi_route brk) (disconnectAck local brk));
  alter_broker (λ brk, brk <| bi_sent_disconnect_ack := true |>) ii.

(** The end of the branch for a disconnect from below. *)
Definition disconnectAfter command (brk : option nat) : M unit :=
  s ← eff_get;
  let b := cb_base s in
  info ← match brk with
         | Some ii => brk ← brokerAt ii; mret (Some (ii, brk))
         | None => mret None
         end;
  if negb (cs_lt (getAllConnectionState s) cs_disconnected) then
    _ ← coord_disconnect le;
    if negb (isRootc s) then
      transmit parent_route_id
        ((newMessage cmd_disconnect) <| source_id := global_broker_id_local b |>)
    else
      _ ← match info with
          | Some (ii, brk) =>
              eff_when (negb (bi_nonLocal brk))
                (_ ← acknowledgeDisconnect command ii; removeRoute (bi_route brk))
          | None => mret tt
          end;
      addActionMessage (newMessage cmd_stop)
  else
    let forward := negb (isRootc s) && broker_state_lt (brokerState b) bs_operating in
    match info with
    | Some (ii, brk) =>
        let up := transmit parent_route_id (setAction command (disconnectAction brk)) in
        if negb (bi_nonLocal brk) then
          _ ← acknowledgeDisconnect command ii;
          _ ← eff_when forward up;
          removeRoute (bi_route brk)
        else eff_when forward up
    | None => mret tt
    end.

(** [processDisconnect(ActionMessage& command)] *)
Definition processDisconnect command : M unit :=
  s ← eff_get;
  let b := cb_base s in
  let brk := getBrokerById s (source_id command) in
  match action command with
  | cmd_disconnect | cmd_priority_disconnect =>
      if dest_id command =? global_broker_id_local b then disconnectTime command
      else if dest_id command =? parent_broker_id then
        if negb (isRootc s) && (source_id command =? higher_broker_id b) then
          _ ← sendDisconnect;
          addActionMessage (newMessage cmd_stop)
        else
          _ ← match brk with Some ii => disconnectBroker ii | None => mret tt end;
          disconnectAfter command brk
      else transmit (getRoute s (dest_id command)) command
  | cmd_disconnect_core | cmd_disconnect_broker =>
      match brk with
      | Some ii =>
          _ ← disconnectBroker ii;
          eff_when (negb (isRootc s)) (transmit parent_route_id command)
      | None => mret tt
      end
  | _ => mret tt
  end.
(** ** Errors *)

(** [processError], given what it does with an error that was made global. *)
Definition processErrorWith (again : ActionMessage → M unit) command : M unit :=
  s ← eff_get;
  let local := global_broker_id_local (cb_base s) in
  if source_id command =? local then
    _ ← setBrokerState bs_errored;
    command ← broadcast command;
    eff_when (negb (isRootc s))
      (transmit parent_route_id (setAction command cmd_local_error))
  else
    command ←
      (if (source_id command =? parent_broker_id) || (source_id command =? root_broker_id)
       then _ ← setBrokerState bs_errored; broadcast command
       else mret command);
    _ ← match getBrokerById s (source_id command) with
        | Some ii => setBrokerConnection cs_error ii
        | None =>
            match mv_index2 (federates_ s) (source_id command) with
            | Some jj => upd_federates (mv_alter (λ fed, fed <| fi_state := cs_error |>) jj)
            | None => mret tt
            end
        end;
    let here := isRootc s || (dest_id command =? local)
                || (dest_id command =? parent_broker_id) in
    match action command with
    | cmd_local_error | cmd_error =>
        if terminate_on_error (cb_base s) then again (setAction command cmd_global_error)
        else
          _ ← eff_when (negb here) (transmit parent_route_id command);
          eff_when (hasTimeDependency (cb_base s)) (_ ← processTimeMessage command; mret tt)
    | cmd_global_error =>
        _ ← setErrorState (messageID command) (payload command);
        if negb here then transmit parent_route_id command
        else broadcast_ (command <| source_id := local |>)
    | _ => mret tt
    end.
(** The second call is made with a global error, which makes no third one. *)
Definition processError command : M unit :=
  processErrorWith (processErrorWith (λ _, eff_unbounded)) command.

Definition propagateError cmd : M unit :=
  s ← eff_get;
  if bool_decide (action cmd = cmd_local_error) && terminate_on_error (cb_base s) then
    let cmd := setAction cmd cmd_global_error in
    _ ← setErrorState (messageID cmd) (payload cmd);
    cmd ← broadcast cmd;
    transmitToParent cmd
  else routeMessage cmd.

(** ** Interfaces *)

(** [addLocalInfo] on a handle that has just been added. *)
Definition addLocalInfo s (handleInfo : BasicHandleInfo) m : BasicHandleInfo :=
  let handleInfo :=
    match global_id_translation s !! source_id m with
    | Some lid => handleInfo <| local_fed_id := lid |>
    | None => handleInfo
    end in
  handleInfo <| hi_flags := flags m |>.
(** [handles.addHandle] followed by [addLocalInfo]. *)
Definition addInterface (what : handle_type) (key type units : string) m : M BasicHandleInfo :=
  s ← eff_get;
  let '(hm, hi) := addHandleLocal (cb_handles s) (source_id m) (source_handle m) what key
                     type units in
  let hi := addLocalInfo s hi m in
  _ ← eff_modify (λ s, s <| cb_handles :=
        hm <| handles := <[pred (length (handles hm)) := hi]> (handles hm) |> |>);
  mret hi.

(** [_federates.find(id)->state < connection_state::error], a fault for an unknown id. *)
Definition federateInOrder (id : global_federate_id) : M bool :=
  s ← eff_get;
  match mv_find2 (federates_ s) id with
  | Some (_, fed) => mret (cs_lt (fi_state fed) cs_error)
  | None => eff_lift Fault
  end.

(** [setStringData(type_in, type_out)] when one of the two is set. *)
Definition withFilterTypes (filt : BasicHandleInfo) m : ActionMessage :=
  if negb (String.eqb (hi_type filt) "") || negb (String.eqb (hi_units filt) "")
  then setStringData m [hi_type filt; hi_units filt] else m.
Definition withCloneFlag (filt : BasicHandleInfo) m : ActionMessage :=
  if checkActionFlag filt clone_flag then setActionFlag m clone_flag else m.
Definition clearName m : ActionMessage := m <| payload := "" |>.

(** The answer to a request for an interface of a federate in error. *)
Definition refuseInterface (reply : action_t) (hi : BasicHandleInfo) command : M unit :=
  let command := setActionFlag (setAction command reply) error_flag in
  let command := setSource (swapSourceDest command) (hi_handle hi) in
  routeMessage (clearStringData command).

(** The four cases of [checkForNamedInterface] for an interface that is known. *)
Definition connectPublication (pub : BasicHandleInfo) command : M unit :=
  ok ← federateInOrder (fed_id (hi_handle pub));
  if ok : bool then
    let command := clearName (setDestination (setAction command cmd_add_subscriber)
                                (hi_handle pub)) in
    _ ← routeMessage command;
    let command := swapSourceDest (setAction command cmd_add_publisher) in
    let command := command <| payload := hi_key pub |> in
    routeMessage (setStringData command [hi_type pub; hi_units pub])
  else refuseInterface cmd_add_publisher pub command.
Definition connectInput (inp : BasicHandleInfo) command : M unit :=
  ok ← federateInOrder (fed_id (hi_handle inp));
  if ok : bool then
    let command := setDestination (setAction command cmd_add_publisher) (hi_handle inp) in
    s ← eff_get;
    pub ← eff_lift (findHandle (cb_handles s) (getSource command));
    let command := match pub with
                   | Some pub => setStringData command [hi_type pub; hi_units pub]
                   | None => command
                   end in
    let command := clearName command in
    _ ← routeMessage command;
    let command := swapSourceDest (setAction command cmd_add_subscriber) in
    routeMessage ((clearStringData command) <| payload := hi_key inp |>)
  else refuseInterface cmd_add_subscriber inp command.
Definition connectFilter (filt : BasicHandleInfo) command : M unit :=
  let command := clearName (setDestination (setAction command cmd_add_endpoint)
                              (hi_handle filt)) in
  _ ← routeMessage command;
  let command := swapSourceDest (setAction command cmd_add_filter) in
  routeMessage (withCloneFlag filt (withFilterTypes filt command)).
Definition connectEndpoint (ept : BasicHandleInfo) command : M unit :=
  ok ← federateInOrder (fed_id (hi_handle ept));
  if ok : bool then
    let command := clearName (setDestination (setAction command cmd_add_filter)
                                (hi_handle ept)) in
    s ← eff_get;
    filt ← eff_lift (findHandle (cb_handles s) (getSource command));
    let command := match filt with
                   | Some filt => withCloneFlag filt (withFilterTypes filt command)
                   | None => command
                   end in
    _ ← routeMessage command;
    routeMessage (clearStringData (swapSourceDest (setAction command cmd_add_endpoint)))
  else refuseInterface cmd_add_endpoint ept command.

(** An interface without a name that asks for one that is not known. *)
Definition addAnonymous (what : handle_type) command : M unit :=
  if negb (bool_decide (stringData command = [])) then
    s ← eff_get;
    hand ← eff_lift (findHandle (cb_handles s) (getSource command));
    match hand with
    | Some _ => mret tt
    | None =>
        _ ← addInterface what "" (getString command typeStringLoc) (getString command 1)
              command;
        mret tt
    end
  else mret tt.

(** The part for an interface that was not found. *)
Definition unknownInterface command : M unit :=
  s ← eff_get;
  if isRootc s then
    match action command with
    | cmd_add_named_publication =>
        upd_unknown (λ u, addUnknownPublication u (payload command) (getSource command)
                            (flags command))
    | cmd_add_named_input =>
        _ ← upd_unknown (λ u, addUnknownInput u (payload command) (getSource command)
                                (flags command));
        addAnonymous ht_publication command
    | cmd_add_named_endpoint =>
        _ ← upd_unknown (λ u, addUnknownEndpoint u (payload command) (getSource command)
                                (flags command));
        addAnonymous ht_filter command
    | cmd_add_named_filter =>
        upd_unknown (λ u, addUnknownFilter u (payload command) (getSource command)
                            (flags command))
    | _ => mret tt
    end
  else routeMessage command.

Definition checkForNamedInterface command : M unit :=
  s ← eff_get;
  let hm := cb_handles s in
  let found (search : outcome (option BasicHandleInfo))
      (connect : BasicHandleInfo → ActionMessage → M unit) :=
    hi ← eff_lift search;
    match hi with
    | Some hi => connect hi command
    | None => unknownInterface command
    end in
  match action command with
  | cmd_add_named_publication => found (getPublication hm (payload command)) connectPublication
  | cmd_add_named_input => found (getInput hm (payload command)) connectInput
  | cmd_add_named_filter => found (getFilter hm (payload command)) connectFilter
  | cmd_add_named_endpoint => found (getEndpoint hm (payload command)) connectEndpoint
  | _ => unknownInterface command
  end.

(** Two messages, the second back to the source. *)
Definition removeBoth (first second : action_t) (hi : BasicHandleInfo) command : M unit :=
  let command := clearName (setDestination (setAction command first) (hi_handle hi)) in
  _ ← routeMessage command;
  routeMessage (swapSourceDest (setAction command second)).
Definition removeNamedTarget command : M unit :=
  s ← eff_get;
  let hm := cb_handles s in
  let found (search : outcome (option BasicHandleInfo)) (first second : action_t) :=
    hi ← eff_lift search;
    match hi with
    | Some hi => removeBoth first second hi command
    | None => eff_when (negb (isRootc s)) (routeMessage command)
    end in
  match action command with
  | cmd_remove_named_publication =>
      found (getPublication hm (payload command)) cmd_remove_subscriber cmd_remove_publication
  | cmd_remove_named_input =>
      found (getInput hm (payload command)) cmd_remove_publication cmd_remove_subscriber
  | cmd_remove_named_filter =>
      found (getFilter hm (payload command)) cmd_remove_endpoint cmd_remove_filter
  | cmd_remove_named_endpoint =>
      found (getEndpoint hm (payload command)) cmd_remove_filter cmd_add_endpoint
  | _ => eff_when (negb (isRootc s)) (routeMessage command)
  end.

(** The notifications about a new interface that others have asked for.  [transmitRouted]
    is [transmit(getRoute(m.dest_id), m)]. *)
Definition transmitRouted m : M unit :=
  s ← eff_get; transmit (getRoute s (dest_id m)) m.

Definition notifyInputTarget (handleInfo : BasicHandleInfo) (target : targetInfo) : M unit :=
  let m := setSource (setDestination (newMessage cmd_add_subscriber) target.1)
             (hi_handle handleInfo) in
  let m := m <| payload := hi_type handleInfo |> <| flags := hi_flags handleInfo |> in
  _ ← transmitRouted m;
  let m := setDestination (setSource (setAction m cmd_add_publisher) target.1)
             (hi_handle handleInfo) in
  let m := m <| flags := target.2 |> in
  s ← eff_get;
  pub ← eff_lift (findHandle (cb_handles s) target.1);
  transmitRouted (match pub with
                  | Some pub => setStringData m [hi_type pub; hi_units pub]
                  | None => m
                  end).
Definition FindandNotifyInputTargets (handleInfo : BasicHandleInfo) : M unit :=
  s ← eff_get;
  let Handles := checkForInputs (unknownHandles s) (hi_key handleInfo) in
  _ ← eff_each (notifyInputTarget handleInfo) Handles;
  eff_when (negb (bool_decide (Handles = [])))
    (upd_unknown (λ u, clearInput u (hi_key handleInfo))).

Definition notifySubscriber (handleInfo : BasicHandleInfo) (sub : targetInfo) : M unit :=
  let m := setDestination (setSource (newMessage cmd_add_subscriber) sub.1)
             (hi_handle handleInfo) in
  let m := m <| flags := sub.2 |> in
  _ ← transmitRouted m;
  let m := setSource (setDestination (setAction m cmd_add_publisher) sub.1)
             (hi_handle handleInfo) in
  let m := m <| payload := hi_type handleInfo |> <| flags := hi_flags handleInfo |> in
  transmitRouted (setStringData m [hi_type handleInfo; hi_units handleInfo]).
Definition FindandNotifyPublicationTargets (handleInfo : BasicHandleInfo) : M unit :=
  s ← eff_get;
  let subHandles := checkForPublications (unknownHandles s) (hi_key handleInfo) in
  _ ← eff_each (notifySubscriber handleInfo) subHandles;
  s ← eff_get;
  let Pubtargets := checkForLinks (unknownHandles s) (hi_key handleInfo) in
  _ ← eff_each (λ sub, checkForNamedInterface
                         (setSource ((newMessage cmd_add_named_input) <| payload := sub |>)
                            (hi_handle handleInfo))) Pubtargets;
  eff_when (negb (bool_decide (subHandles = []) && bool_decide (Pubtargets = [])))
    (upd_unknown (λ u, clearPublication u (hi_key handleInfo))).

Definition notifyEndpointTarget (handleInfo : BasicHandleInfo) (target : targetInfo) : M unit :=
  let m := setDestination (setSource (newMessage cmd_add_endpoint) (hi_handle handleInfo))
             target.1 in
  let m := m <| flags := target.2 |> in
  _ ← transmitRouted m;
  transmitRouted (swapSourceDest (setAction m cmd_add_filter)).
Definition FindandNotifyEndpointTargets (handleInfo : BasicHandleInfo) : M unit :=
  s ← eff_get;
  let Handles := checkForEndpoints (unknownHandles s) (hi_key handleInfo) in
  _ ← eff_each (notifyEndpointTarget handleInfo) Handles;
  eff_when (negb (bool_decide (Handles = [])))
    (upd_unknown (λ u, clearEndpoint u (hi_key handleInfo))).

Definition notifyFilterTarget (handleInfo : BasicHandleInfo) (target : targetInfo) : M unit :=
  let m := (setSource (newMessage cmd_add_filter) (hi_handle handleInfo))
             <| flags := target.2 |> in
  let m := setDestination (withCloneFlag handleInfo m) target.1 in
  let m := withFilterTypes handleInfo m in
  _ ← transmitRouted m;
  transmitRouted (clearStringData (swapSourceDest (setAction m cmd_add_endpoint))).
(** The request for an endpoint that a link of the filter names. *)
Definition filterLinkRequest (handleInfo : BasicHandleInfo) (target : string) (dest : bool)
    : ActionMessage :=
  let m := (setSource ((newMessage cmd_add_named_endpoint) <| payload := target |>)
              (hi_handle handleInfo)) <| flags := hi_flags handleInfo |> in
  withCloneFlag handleInfo (if dest then setActionFlag m destination_target else m).
Definition FindandNotifyFilterTargets (handleInfo : BasicHandleInfo) : M unit :=
  s ← eff_get;
  let Handles := checkForFilters (unknownHandles s) (hi_key handleInfo) in
  _ ← eff_each (notifyFilterTarget handleInfo) Handles;
  s ← eff_get;
  let FiltDestTargets := checkForFilterDestTargets (unknownHandles s) (hi_key handleInfo) in
  _ ← eff_each (λ target, checkForNamedInterface (filterLinkRequest handleInfo target true))
        FiltDestTargets;
  s ← eff_get;
  let FiltSourceTargets :=
    checkForFilterSourceTargets (unknownHandles s) (hi_key handleInfo) in
  _ ← eff_each (λ target, checkForNamedInterface (filterLinkRequest handleInfo target false))
        FiltSourceTargets;
  eff_when (negb (bool_decide (Handles = []) && bool_decide (FiltDestTargets = [])
                  && bool_decide (FiltSourceTargets = [])))
    (upd_unknown (λ u, clearFilter u (hi_key handleInfo))).

(** The error for a name that is in use. *)
Definition duplicateName (what : string) m : M unit :=
  local ← localId;
  let eret := (newMessageTo cmd_local_error local (source_id m))
                <| dest_handle := source_handle m |>
                <| messageID := helics_error_registration_failure |>
                <| payload := (what +:+ payload m +:+ ")")%string |> in
  propagateError eret.

Definition addPublication m : M unit :=
  s ← eff_get;
  dup ← eff_lift (getPublication (cb_handles s) (payload m));
  match dup with
  | Some _ => duplicateName "Duplicate publication names (" m
  | None =>
      pub ← addInterface ht_publication (payload m) (getString m 0) (getString m 1) m;
      if negb (isRootc s) then transmit parent_route_id m
      else FindandNotifyPublicationTargets pub
  end.
Definition addInput m : M unit :=
  s ← eff_get;
  dup ← eff_lift (getInput (cb_handles s) (payload m));
  match dup with
  | Some _ => duplicateName "Duplicate input names (" m
  | None =>
      inp ← addInterface ht_input (payload m) (getString m 0) (getString m 1) m;
      if negb (isRootc s) then transmit parent_route_id m
      else FindandNotifyInputTargets inp
  end.
Definition addEndpoint m : M unit :=
  s ← eff_get;
  dup ← eff_lift (getEndpoint (cb_handles s) (payload m));
  match dup with
  | Some _ => duplicateName "Duplicate endpoint names (" m
  | None =>
      ept ← addInterface ht_endpoint (payload m) (getString m typeStringLoc)
              (getString m unitStringLoc) m;
      if negb (isRootc s) then
        _ ← transmit parent_route_id m;
        b ← get_base;
        let higher := higher_broker_id b in
        if negb (hasTimeDependency b) then
          added ← coord_quiet (λ tc, ftc_addDependency tc higher);
          eff_when added
            (_ ← upd_base (λ b, b <| hasTimeDependency := true |>);
             _ ← transmit parent_route_id
                   (newMessageTo cmd_add_interdependency (global_broker_id_local b) higher);
             _ ← coord_quiet (λ tc, ftc_addDependent tc higher);
             mret tt)
        else mret tt
      else FindandNotifyEndpointTargets ept
  end.
Definition addFilter m : M unit :=
  s ← eff_get;
  dup ← eff_lift (getFilter (cb_handles s) (payload m));
  match dup with
  | Some _ => duplicateName "Duplicate filter names (" m
  | None =>
      filt ← addInterface ht_filter (payload m) (getString m typeStringLoc)
               (getString m typeOutStringLoc) m;
      if negb (isRootc s) then
        _ ← transmit parent_route_id m;
        b ← get_base;
        let higher := higher_broker_id b in
        if negb (hasFilters b) then
          _ ← upd_base (λ b, b <| hasFilters := true |>);
          added ← coord_quiet (λ tc, ftc_addDependent tc higher);
          eff_when added
            (_ ← upd_base (λ b, b <| hasTimeDependency := true |>);
             transmit parent_route_id
               (newMessageTo cmd_add_dependency (global_broker_id_local b) higher))
        else mret tt
      else FindandNotifyFilterTargets filt
  end.

(** ** Entering initialization *)

(** One entry of [delayedDependencies]. *)
Definition delayedDependency (newdep : string * global_federate_id) : M unit :=
  s ← eff_get;
  match mv_find1 (federates_ s) newdep.1 with
  | Some (_, depfed) =>
      _ ← routeMessage (newMessageTo cmd_add_dependency newdep.2 (fi_global_id depfed));
      routeMessage (newMessageTo cmd_add_dependent (fi_global_id depfed) newdep.2)
  | None =>
      routeMessage ((newMessageTo cmd_log parent_broker_id newdep.2)
        <| messageID := helics_log_level_warning |>
        <| payload := ("unable to locate " +:+ newdep.1 +:+ " to establish dependency")%string |>)
  end.

(** The root leaves a time dependency chain in which it has one neighbour on each side. *)
Definition leaveChainRoot : M unit :=
  b ← get_base;
  let tc := timeCoord b in
  let local := global_broker_id_local b in
  match ftc_dependents tc, ftc_getDependencies tc with
  | [depid], [front] =>
      if negb (front =? depid) then
        let adddep := (newMessage cmd_add_dependent) <| source_id := depid |> in
        let rmdep := (newMessage cmd_remove_dependent) <| source_id := local |> in
        _ ← routeMessageTo adddep front;
        _ ← routeMessageTo rmdep front;
        let adddep := (setAction adddep cmd_add_dependency) <| source_id := front |> in
        let rmdep := setAction rmdep cmd_remove_dependency in
        _ ← routeMessageTo adddep depid;
        _ ← routeMessageTo rmdep depid;
        _ ← coord_pure (λ tc, ftc_removeDependency tc front);
        coord_pure (λ tc, ftc_removeDependent tc depid)
      else
        let rmdep := (newMessage cmd_remove_interdependency) <| source_id := local |> in
        _ ← routeMessageTo rmdep depid;
        _ ← coord_pure (λ tc, ftc_removeDependency tc depid);
        coord_pure (λ tc, ftc_removeDependent tc depid)
  | _, _ => mret tt
  end.

(** A broker with one dependent below it connects it with the broker above. *)
Definition leaveChain : M unit :=
  b ← get_base;
  let tc := timeCoord b in
  let higher := higher_broker_id b in
  if 2 <? Z.of_nat (length (ftc_dependents tc)) then mret tt
  else
    match base.filter (λ dep, dep ≠ higher) (ftc_dependents tc) with
    | [fedid] =>
        _ ← coord_pure (λ tc, ftc_removeDependency tc higher);
        _ ← coord_pure (λ tc, ftc_removeDependency tc fedid);
        _ ← coord_pure (λ tc, ftc_removeDependent tc higher);
        _ ← coord_pure (λ tc, ftc_removeDependent tc fedid);
        let rmdep := (newMessage cmd_remove_interdependency)
                       <| source_id := global_broker_id_local b |> in
        _ ← routeMessageTo rmdep higher;
        _ ← routeMessageTo rmdep fedid;
        let adddep := newMessage cmd_add_interdependency in
        _ ← routeMessageTo (adddep <| source_id := fedid |>) higher;
        routeMessageTo (adddep <| source_id := higher |>) fedid
    | _ => mret tt
    end.

Definition checkDependencies : M unit :=
  s ← eff_get;
  if isRootc s then
    _ ← eff_each delayedDependency (delayedDependencies s);
    leaveChainRoot
  else leaveChain.

(** The texts of the reports about missing targets. *)
Definition requiredText (type : ascii) : string :=
  match type with
  | "p"%char => "Unable to connect to required publication target {}"
  | "i"%char => "Unable to connect to required input target {}"
  | "f"%char => "Unable to connect to required filter target {}"
  | "e"%char => "Unable to connect to required endpoint target {}"
  | _ => "Unable to connect to required unknown target {}"
  end.
Definition missingText (type : ascii) : string :=
  match type with
  | "p"%char => "Unable to connect to publication target {}"
  | "i"%char => "Unable to connect to input target {}"
  | "f"%char => "Unable to connect to filter target {}"
  | "e"%char => "Unable to connect to endpoint target {}"
  | _ => "Unable to connect to undefined target {}"
  end.
Definition reportMissing (text : ascii → string) miss
    (report : string * ascii * global_handle) : M unit :=
  let '(target, type, handle) := report in
  routeMessage (setDestination (miss <| payload := fmt_format (text type) [FStr target] |>)
                  handle).

(** The grant of initialization. *)
Definition grantInitialization : M unit :=
  local ← localId;
  _ ← setBrokerState bs_operating;
  _ ← broadcast_ ((newMessage cmd_init_grant) <| source_id := local |>);
  _ ← coord_ ftc_enteringExecMode;
  checkExecEntry.
Definition executeInitializationOperations : M unit :=
  _ ← checkDependencies;
  s ← eff_get;
  local ← localId;
  let u := unknownHandles s in
  let failing := hasUnknowns u && hasNonOptionalUnknowns u in
  if failing && hasRequiredUnknowns u then
    let eMiss := (newMessage cmd_error) <| source_id := local |>
                   <| messageID := helics_error_connection_failure |> in
    _ ← eff_each (reportMissing requiredText eMiss) (processRequiredUnknowns u);
    _ ← broadcast_ (eMiss <| payload := "Missing required connections" |>
                      <| dest_handle := invalid_handle |>);
    _ ← sendDisconnect;
    addActionMessage (newMessage cmd_stop)
  else
    _ ← eff_when failing
          (eff_each (reportMissing missingText
                       ((newMessage cmd_warning) <| source_id := local |>
                          <| messageID := helics_error_connection_failure |>))
             (processNonOptionalUnknowns u));
    grantInitialization.

(** ** Registration *)

(** The answer to a federate that is refused. *)
Definition refuseFederate (code : Z) command : M unit :=
  s ← eff_get;
  transmit (getRoute s (source_id command))
    ((setActionFlag (newMessage cmd_fed_ack) error_flag)
       <| source_id := global_broker_id_local (cb_base s) |> <| messageID := code |>
       <| payload := payload command |>).

(** A broker that was ready for initialization tells that it is not any more. *)
Definition noLongerReady : M unit :=
  s ← eff_get;
  eff_when (allInitReady s)
    (transmit parent_route_id
       ((newMessage cmd_init_not_ready) <| source_id := global_broker_id_local (cb_base s) |>)).

(** The message to the broker above, when the own identifier is known. *)
Definition delayTransmit command : M unit :=
  eff_modify (λ s, s <| delayTransmitQueue := delayTransmitQueue s ++ [copyConstruct command] |>).

Definition lastFederate : M BasicFedInfo :=
  s ← eff_get;
  match last (mv_elements (federates_ s)) with
  | Some fed => mret fed
  | None => eff_lift Fault
  end.
Definition lastBroker : M BasicBrokerInfo :=
  s ← eff_get;
  match last (mv_elements (brokers_ s)) with
  | Some brk => mret brk
  | None => eff_lift Fault
  end.

(** The identifier that the root gives to the federate it has just entered. *)
Definition assignFederateId command : M unit :=
  s ← eff_get;
  let gid := to_sint 32 (Z.of_nat (mv_size (federates_ s))) - 1 + global_federate_id_shift in
  _ ← upd_federates (mv_alter_back (λ fed, fed <| fi_global_id := gid |>));
  _ ← upd_federates (mv_addTerm gid
        (Z.to_nat (to_uint 64 (to_uint 64 gid - global_federate_id_shift))));
  fed ← lastFederate;
  _ ← emplaceRoute gid (fi_route fed);
  transmit (fi_route fed)
    ((newMessage cmd_fed_ack) <| source_id := global_broker_id_local (cb_base s) |>
       <| dest_id := gid |> <| payload := payload command |>).

(** The case [CMD_REG_FED]. *)
Definition registerFederate command : M unit :=
  s ← eff_get;
  if negb (connectionEstablished s) then
    eff_modify (λ s, s <| earlyMessages := earlyMessages s ++ [copyConstruct command] |>)
  else if bool_decide (brokerState (cb_base s) = bs_operating) then refuseFederate 5 command
  else
    _ ← noLongerReady;
    match mv_index1 (federates_ s) (payload command) with
    | Some _ => refuseFederate 6 command
    | None =>
        _ ← upd_federates (λ c, (mv_insert1 (payload command) (newFedInfo (payload command)) c).1);
        _ ← upd_federates (mv_alter_back (λ fed,
              fed <| fi_route := getRoute s (source_id command) |>
                  <| fi_parent := source_id command |>));
        if negb (isRootc s) then
          if fed_isValid (global_broker_id_local (cb_base s)) then
            transmit parent_route_id
              (command <| source_id := global_broker_id_local (cb_base s) |>)
          else delayTransmit command
        else assignFederateId command
    end.

(** The route for the answer to a broker that is refused: a new one for a broker that is
    not known yet, removed afterwards. *)
Definition refuseBroker (answer : ActionMessage) command : M unit :=
  s ← eff_get;
  if negb (fed_isValid (source_id command)) || (source_id command =? parent_broker_id) then
    newroute ← newRoute;
    _ ← addRoute newroute (getExtraData command) (getString command targetStringLoc);
    _ ← transmit newroute answer;
    removeRoute newroute
  else transmit (getRoute s (source_id command)) answer.
Definition refusal s (code : Z) command : ActionMessage :=
  (setActionFlag (newMessage cmd_broker_ack) error_flag)
    <| source_id := global_broker_id_local (cb_base s) |> <| messageID := code |>
    <| payload := payload command |>.

Definition brokerReply s (brkid : global_federate_id) command : ActionMessage :=
  let reply := (newMessageTo cmd_broker_ack (global_broker_id_local (cb_base s)) brkid)
                 <| payload := payload command |> in
  if no_ping (cb_base s) then setActionFlag reply slow_responding_flag else reply.

(** A registration that is sent again because the answer was lost. *)
Definition registerAgain (ii : nat) command : M unit :=
  s ← eff_get;
  route ← newRoute;
  _ ← alter_broker (λ brk, brk <| bi_route := route |>) ii;
  _ ← addRoute route (getExtraData command) (getString command targetStringLoc);
  brk ← brokerAt ii;
  _ ← eff_modify (λ s, s <| routing_table := <[bi_global_id brk := route]> (routing_table s) |>);
  transmit route (brokerReply s (bi_global_id brk) command).

(** The identifier that the root gives to the broker it has just entered. *)
Definition assignBrokerId command : M unit :=
  s ← eff_get;
  let gid := to_sint 32 (Z.of_nat (mv_size (brokers_ s))) - 1 + global_broker_id_shift in
  _ ← upd_brokers (mv_alter_back (λ brk, brk <| bi_global_id := gid |>));
  _ ← upd_brokers (mv_addTerm gid (pred (mv_size (brokers_ s))));
  _ ← eff_when (checkActionFlag command slow_responding_flag)
        (upd_brokers (mv_alter_back (λ brk, brk <| bi_disable_ping := true |>)));
  brk ← lastBroker;
  _ ← emplaceRoute gid (bi_route brk);
  transmit (bi_route brk) (brokerReply s gid command).

(** The entry of a broker whose name is new. *)
Definition enterBroker command : M unit :=
  s ← eff_get;
  let local := global_broker_id_local (cb_base s) in
  _ ← (if negb (fed_isValid (source_id command)) || (source_id command =? parent_broker_id) then
         route ← newRoute;
         _ ← upd_brokers (mv_alter_back (λ brk, brk <| bi_route := route |>));
         _ ← addRoute route (getExtraData command) (getString command targetStringLoc);
         upd_brokers (mv_alter_back (λ brk, brk <| bi_parent := local |>
                        <| bi_nonLocal := false |> <| bi_route_key := true |>))
       else
         upd_brokers (mv_alter_back (λ brk, brk <| bi_route := getRoute s (source_id command) |>
                        <| bi_parent := source_id command |> <| bi_nonLocal := true |>)));
  _ ← upd_brokers (mv_alter_back (λ brk, brk <| bi_core := checkActionFlag command core_flag |>));
  if negb (isRootc s) then
    if fed_isValid local && negb (local =? parent_broker_id) then
      transmit parent_route_id (command <| source_id := local |>)
    else delayTransmit command
  else assignBrokerId command.

(** The case [CMD_REG_BROKER]. *)
Definition registerBroker command : M unit :=
  s ← eff_get;
  if negb (connectionEstablished s) then
    eff_modify (λ s, s <| earlyMessages := earlyMessages s ++ [copyConstruct command] |>)
  else
    match (if 0 <? counter command then mv_index1 (brokers_ s) (payload command) else None) with
    | Some ii => registerAgain ii command
    | None =>
        if bool_decide (brokerState (cb_base s) = bs_operating) then
          refuseBroker (refusal s 5 command) command
        else
          _ ← noLongerReady;
          if negb (verifyBrokerKey s command) then
            badKey ← eff_lift (setString (refusal s mismatch_broker_key_error_code command) 0
                                 "broker key does not match");
            refuseBroker badKey command
          else
            let '(brks, inserted) :=
              mv_insert1 (payload command) (newBrokerInfo (payload command)) (brokers_ s) in
            _ ← upd_brokers (λ _, brks);
            if negb inserted then
              refuseBroker (refusal s duplicate_broker_name_error_code command) command
            else enterBroker command
    end.

(** The case [CMD_FED_ACK]; the second branch dereferences the end of the container. *)
Definition federateAck command : M unit :=
  s ← eff_get;
  match mv_find1 (federates_ s) (payload command) with
  | Some (jj, fed) =>
      _ ← upd_federates (mv_alter (λ fed, fed <| fi_global_id := dest_id command |>) jj);
      _ ← upd_federates (mv_addTermByName (dest_id command) (fi_name fed));
      _ ← transmit (fi_route fed) command;
      emplaceRoute (dest_id command) (fi_route fed)
  | None => eff_lift Fault
  end.

(** The case [CMD_BROKER_ACK], for this broker and for one below it. *)
Definition ownAck command : M unit :=
  if checkActionFlag command error_flag then mret tt
  else
    _ ← upd_base (λ b, b <| global_broker_id_local := dest_id command |>
                         <| global_id := dest_id command |>
                         <| higher_broker_id := source_id command |>);
    _ ← coord_pure (λ tc, tc <| ftc_source_id := dest_id command |>);
    _ ← transmitDelayedMessages;
    _ ← upd_brokers (mv_apply (λ brk,
          if negb (bi_nonLocal brk) then brk <| bi_parent := dest_id command |> else brk));
    eff_modify (λ s, s <| timeoutMon :=
      let t := tm_setParentId (source_id command) (timeoutMon s) in
      let t := if checkActionFlag command slow_responding_flag
               then tm_disableParentPing true t else t in
      tm_reset t |>).
Definition brokerAck command : M unit :=
  s ← eff_get;
  if String.eqb (payload command) (identifier (cb_base s)) then ownAck command
  else
    match mv_find1 (brokers_ s) (payload command) with
    | Some (ii, broker) =>
        if bi_global_id broker =? dest_id command then mret tt
        else
          _ ← alter_broker (λ brk, brk <| bi_global_id := dest_id command |>) ii;
          _ ← upd_brokers (mv_addTermByName (dest_id command) (bi_name broker));
          _ ← emplaceRoute (dest_id command) (bi_route broker);
          transmit (bi_route broker)
            (command <| source_id := global_broker_id_local (cb_base s) |>)
    | None => eff_lift Fault
    end.

(** ** Queries *)

(** An answer: to a query of this broker, or through the route of who asked. *)
Definition answerQuery m (answer : string) : M unit :=
  s ← eff_get;
  let local := global_broker_id_local (cb_base s) in
  let queryResp := (newMessageTo cmd_query_reply local (source_id m))
                     <| messageID := messageID m |> <| payload := answer |> in
  if source_id m =? local then eff_emit (QueryValue (messageID m) answer)
  else transmit (getRoute s (source_id m)) queryResp.

(** [getNameList]: the text is a list of pairs of a federate and a handle. *)
Fixpoint nameList (hm : HandleManager) (val : list Z) : outcome string :=
  match val with
  | fed :: hand :: val =>
      info ← findHandle hm (GlobalHandle fed hand);
      rest ← nameList hm val;
      Ok (match info with
          | Some info => (hi_key info +:+ ";" +:+ rest)%string
          | None => rest
          end)
  | _ => Ok ""
  end.
(** [back()], a fault on an empty text, and [pop_back()]. *)
Definition text_back (text : string) : outcome ascii :=
  match String.get (pred (String.length text)) text with Some c => Ok c | None => Fault end.
Definition text_pop (text : string) : string :=
  String.substring 0 (pred (String.length text)) text.
Definition getNameList s (gidString : string) : outcome string :=
  c ← text_back gidString;
  let g := if Ascii.eqb c "]" then text_pop gidString else gidString in
  g ← match g with
      | EmptyString => Fault
      | String c' g' => Ok (if Ascii.eqb c' "[" then g' else g)
      end;
  names ← nameList (cb_handles s) (str2vector g);
  let g := ("[" +:+ names)%string in
  c ← text_back g;
  let g := if Ascii.eqb c ";" then text_pop g else g in
  Ok (g +:+ "]")%string.

Definition queryValues s (name : string) : string :=
  match global_values s !! name with
  | Some value => value
  | None =>
      if String.eqb name "list" then values_list (global_values s)
      else if String.eqb name "all" then values_json (global_values s)
      else "#invalid"
  end.

(** A query about another federate or broker. *)
Definition queryOther m (target : string) : M unit :=
  s ← eff_get;
  let '(route, m, response) :=
    match mv_find1 (federates_ s) target with
    | Some (_, fed) => (fi_route fed, m <| dest_id := fi_parent fed |>,
                        checkFedQuery fed (payload m))
    | None =>
        match mv_find1 (brokers_ s) target with
        | Some (_, broker) => (bi_route broker, m <| dest_id := bi_global_id broker |>,
                               checkBrokerQuery broker (payload m))
        | None => (parent_route_id, m,
                   if isRootc s && String.eqb (payload m) "exists" then "false" else "")
        end
    end in
  if ((route =? parent_route_id) && isRootc s) || negb (String.eqb response "")
  then answerQuery m (if String.eqb response "" then "#invalid" else response)
  else transmit route m.

Definition processQuery m : M unit :=
  s ← eff_get;
  let target := getString m targetStringLoc in
  if String.eqb target (identifier (cb_base s)) || String.eqb target "broker"
     || (isRootc s && (String.eqb target "root" || String.eqb target "federation"))
  then eff_emit (LocalQuery m)
  else if isRootc s && String.eqb target "gid_to_name" then
    names ← eff_lift (getNameList s (payload m));
    answerQuery m names
  else if isRootc s && String.eqb target "global" then answerQuery m (queryValues s (payload m))
  else queryOther m target.

Definition processQueryResponse m : M unit :=
  if counter m =? general_query then eff_emit (QueryValue (messageID m) (payload m))
  else eff_emit (QueryComponent m).

(** ** Timeouts (TimeoutMonitor.cpp) *)

Definition upd_monitor (f : TimeoutMonitor → TimeoutMonitor) : M unit :=
  eff_modify (λ s, s <| timeoutMon := f (timeoutMon s) |>).

(** The index of the connection of a broker, which is added when it is not there. *)
Definition connectionIndex (brkr : BasicBrokerInfo) : M nat :=
  s ← eff_get;
  let conns := connections (timeoutMon s) in
  match list_find (λ c, connection c = bi_global_id brkr) conns with
  | Some (cindex, _) => mret cindex
  | None =>
      _ ← upd_monitor (λ t, t <| connections := connections t ++
            [newLinkConnection <| connection := bi_global_id brkr |>
                               <| disablePing := bi_disable_ping brkr |>] |>);
      mret (length conns)
  end.
Definition alter_connection (f : linkConnection → linkConnection) (ii : nat) : M unit :=
  upd_monitor (λ t, t <| connections := alter f ii (connections t) |>).

(** The ping of one broker; the result tells whether a ping was sent. *)
Definition pingBroker (now : Z) (brkr : BasicBrokerInfo) : M bool :=
  cindex ← connectionIndex brkr;
  s ← eff_get;
  if cs_lt (bi_state brkr) cs_error then
    match connections (timeoutMon s) !! cindex with
    | None => eff_lift Fault
    | Some conn =>
        if disablePing conn then mret false
        else
          _ ← alter_connection (λ c, c <| activeConnection := true |>
                <| waitingForPingReply := true |> <| lastPing := now |>) cindex;
          _ ← transmit (bi_route brkr)
                (newMessageTo (if bi_core brkr then cmd_ping else CMD_BROKER_PING)
                   (global_broker_id_local (cb_base s)) (bi_global_id brkr));
          mret true
    end
  else
    _ ← alter_connection (λ c, c <| activeConnection := false |>) cindex;
    mret false.
Fixpoint pingBrokers (now : Z) (brks : list BasicBrokerInfo) (activePing : bool) : M bool :=
  match brks with
  | [] => mret activePing
  | brkr :: brks =>
      sent ← pingBroker now brkr;
      pingBrokers now brks (activePing || sent)
  end.
Definition pingSub : M unit :=
  now ← readClock;
  s ← eff_get;
  activePing ← pingBrokers now (mv_elements (brokers_ s)) false;
  b ← get_base;
  eff_when activePing
    (addActionMessage (setActionFlag
       ((newMessageTo cmd_broker_configure (global_id b) (global_id b))
          <| messageID := REQUEST_TICK_FORWARDING |>) indicator_flag)).

(** The check of the connection to the broker above, when a reply is awaited. *)
Definition tickParent (now : Z) : M unit :=
  s ← eff_get;
  let b := cb_base s in
  if tm_expired (timeoutMon s) now (lastPing (parentConnection (timeoutMon s))) then
    _ ← sendErrorToImmediateBrokers (-5);
    _ ← processDisconnectAll false;
    _ ← setBrokerState bs_errored;
    addActionMessage (newMessage cmd_stop)
  else
    transmit parent_route_id
      (newMessageTo cmd_ping_priority (global_broker_id_local b) (higher_broker_id b)).

(** The check of one connection below. *)
Definition tickConnection (now : Z) (conn : linkConnection) : M unit :=
  eff_when (waitingForPingReply conn)
    (s ← eff_get;
     let local := global_broker_id_local (cb_base s) in
     if tm_expired (timeoutMon s) now (lastPing conn) then
       addActionMessage (newMessageTo cmd_connection_error (connection conn) local)
     else addActionMessage (newMessageTo cmd_ping local (connection conn))).

(** The wait for a first connection. *)
Definition tickWaiting (now : Z) : M unit :=
  s ← eff_get;
  if waitingForConnection (timeoutMon s) then
    eff_when (tm_expired (timeoutMon s) now (startWaiting (timeoutMon s)))
      (addActionMessage ((newMessage cmd_check_connections)
                           <| source_id := global_broker_id_local (cb_base s) |>))
  else upd_monitor (λ t, t <| waitingForConnection := true |> <| startWaiting := now |>).

Definition tick : M unit :=
  s ← eff_get;
  let waitingParent := waitingForPingReply (parentConnection (timeoutMon s)) in
  now ← readClock;
  _ ← eff_when (negb (isRoot s) && waitingParent) (tickParent now);
  _ ← eff_each (tickConnection now) (connections (timeoutMon s));
  let waiting := waitingParent || existsb waitingForPingReply (connections (timeoutMon s)) in
  if negb waiting then
    s ← eff_get;
    let b := cb_base s in
    if negb (isRoot s) then
      if isConnected s && fed_isValid (global_broker_id_local b)
         && negb (global_broker_id_local b =? parent_broker_id) then
        eff_when (fed_isValid (higher_broker_id b))
          (_ ← transmit parent_route_id
                 (newMessageTo cmd_ping_priority (global_broker_id_local b)
                    (higher_broker_id b));
           upd_monitor (λ t, t <| parentConnection := (parentConnection t)
             <| lastPing := now |> <| waitingForPingReply := true |> |>))
      else tickWaiting now
    else pingSub
  else mret tt.

(** [pingReply] *)
Definition replied (cmd : ActionMessage) (conn : linkConnection) : linkConnection :=
  if source_id cmd =? connection conn then conn <| waitingForPingReply := false |> else conn.
(** The value of [waswaiting] after the loop. *)
Definition wasWaiting (cmd : ActionMessage) (conns : list linkConnection) : bool :=
  foldl (λ was conn, if source_id cmd =? connection conn then waitingForPingReply conn else was)
    false conns.
Definition pingReply cmd : M unit :=
  s ← eff_get;
  let t := timeoutMon s in
  if source_id cmd =? connection (parentConnection t) then
    upd_monitor (λ t, t <| parentConnection := (parentConnection t)
                             <| waitingForPingReply := false |> |>
                        <| waitingForConnection := false |>)
  else
    let conns := replied cmd <$> connections t in
    _ ← upd_monitor (λ t, t <| connections := conns |>);
    eff_when (negb (existsb waitingForPingReply conns) && wasWaiting cmd (connections t))
      (addActionMessage ((newMessageTo cmd_broker_configure (dest_id cmd) (dest_id cmd))
                           <| messageID := REQUEST_TICK_FORWARDING |>)).

(** ** The entry points *)

(** The answer to a ping of this broker. *)
Definition pingAnswer command : M unit :=
  local ← localId;
  routeMessage (newMessageTo cmd_ping_reply local (source_id command)).

Definition processBrokerConfigureCommands cmd : M unit :=
  if (messageID cmd =? helics_flag_enable_init_entry)
     || (messageID cmd =? helics_property_int_log_level) then setLogLevel (getExtraData cmd)
  else if messageID cmd =? UPDATE_LOGGING_CALLBACK then eff_emit (LoggerUpdate cmd)
  else if messageID cmd =? REQUEST_TICK_FORWARDING then
    upd_base (λ b, b <| forwardTick := checkActionFlag cmd indicator_flag |>)
  else mret tt.

(** The case [CMD_CONNECTION_ERROR] for this broker.  The loop stops at the broker that
    is reported if that is disconnected already. *)
Definition connectionError command : M unit :=
  s ← eff_get;
  let gone brk := bool_decide (bi_state brk = cs_disconnected) in
  let brks := mv_elements (brokers_ s) in
  if existsb (λ brk, gone brk && (bi_global_id brk =? source_id command)) brks then mret tt
  else if existsb gone brks then
    processDisconnect
      (setActionFlag ((setAction command cmd_disconnect) <| dest_id := parent_broker_id |>)
         error_flag)
  else if isRootc s then
    let lcom := fmt_format "lost comms with {}" [FInt (source_id command)] in
    _ ← broadcast_ ((newMessage cmd_error) <| payload := lcom |>
                      <| messageID := helics_error_connection_failure |>);
    _ ← setBrokerState bs_errored;
    addActionMessage (newMessage cmd_user_disconnect)
  else transmit parent_route_id (command <| dest_id := parent_broker_id |>).

(** The cases [CMD_INIT] and [CMD_INIT_NOT_READY]. *)
Definition processInit command : M unit :=
  s ← eff_get;
  _ ← match getBrokerById s (source_id command) with
      | Some ii => setBrokerConnection cs_init_requested ii
      | None => mret tt
      end;
  s ← eff_get;
  if allInitReady s then
    if isRootc s then executeInitializationOperations
    else
      _ ← checkDependencies;
      transmit parent_route_id
        (command <| source_id := global_broker_id_local (cb_base s) |>)
  else mret tt.
Definition processInitNotReady command : M unit :=
  s ← eff_get;
  _ ← eff_when (allInitReady s) (transmit parent_route_id command);
  match getBrokerById s (source_id command) with
  | Some ii => setBrokerConnection cs_connected ii
  | None => mret tt
  end.

(** The case [CMD_INIT_GRANT]. *)
Definition processInitGrant command : M unit :=
  _ ← setBrokerState bs_operating;
  s ← eff_get;
  _ ← eff_each (λ brk, transmit (bi_route brk) command) (mv_elements (brokers_ s));
  _ ← coord_ ftc_enteringExecMode;
  checkExecEntry.

(** The case [CMD_SEARCH_DEPENDENCY]. *)
Definition searchDependency command : M unit :=
  s ← eff_get;
  let notFound :=
    if isRootc s then
      eff_modify (λ s, s <| delayedDependencies := delayedDependencies s ++
                              [(payload command, source_id command)] |>)
    else routeMessage command in
  match mv_find1 (federates_ s) (payload command) with
  | Some (_, fed) =>
      if fed_isValid (fi_global_id fed) then
        _ ← routeMessage (newMessageTo cmd_add_dependency (fi_global_id fed)
                            (source_id command));
        routeMessage (newMessageTo cmd_add_dependent (source_id command) (fi_global_id fed))
      else notFound
  | None => notFound
  end.

(** The cases [CMD_DATA_LINK] and [CMD_FILTER_LINK]. *)
Definition dataLink command : M unit :=
  s ← eff_get;
  let target := getString command targetStringLoc in
  pub ← eff_lift (getPublication (cb_handles s) (payload command));
  match pub with
  | Some pub =>
      checkForNamedInterface
        (setSource ((setAction command cmd_add_named_input) <| payload := target |>)
           (hi_handle pub))
  | None =>
      input ← eff_lift (getInput (cb_handles s) target);
      match input with
      | None =>
          if isRootc s then upd_unknown (λ u, addDataLink u (payload command) target)
          else routeMessage command
      | Some input =>
          checkForNamedInterface
            (setSource (setAction command cmd_add_named_publication) (hi_handle input))
      end
  end.
Definition filterLink command : M unit :=
  s ← eff_get;
  let target := getString command targetStringLoc in
  filt ← eff_lift (getFilter (cb_handles s) (payload command));
  match filt with
  | Some filt =>
      checkForNamedInterface
        (withCloneFlag filt
           (setSource ((setAction command cmd_add_named_endpoint) <| payload := target |>)
              (hi_handle filt)))
  | None =>
      ept ← eff_lift (getEndpoint (cb_handles s) target);
      match ept with
      | None =>
          if isRootc s then
            upd_unknown (λ u, if checkActionFlag command destination_target
                              then addDestinationFilterLink u (payload command) target
                              else addSourceFilterLink u (payload command) target)
          else routeMessage command
      | Some ept =>
          checkForNamedInterface
            (setSource (setAction command cmd_add_named_filter) (hi_handle ept))
      end
  end.

(** The case [CMD_DISCONNECT_BROKER_ACK]: the end of the brokers below. *)
Definition finalAck (ii : nat) : M unit :=
  brk ← brokerAt ii;
  local ← localId;
  eff_when (negb (bi_sent_disconnect_ack brk))
    (_ ← transmit (bi_route brk) (disconnectAck local brk);
     _ ← alter_broker (λ brk, brk <| bi_sent_disconnect_ack := true |>) ii;
     removeRoute (bi_route brk)).

(** The case [CMD_DISCONNECT_FED]. *)
Definition disconnectFederate command : M unit :=
  s ← eff_get;
  _ ← match mv_index2 (federates_ s) (source_id command) with
      | Some jj => upd_federates (mv_alter (λ fed, fed <| fi_state := cs_disconnected |>) jj)
      | None => mret tt
      end;
  if negb (isRootc s) then transmit parent_route_id command
  else
    eff_when (broker_state_lt (brokerState (cb_base s)) bs_operating)
      (_ ← broadcast_ (setAction command cmd_broadcast_disconnect);
       upd_unknown (λ u, clearFederateUnknowns u (source_id command))).

(** The cases of the execution and time messages. *)
Definition toDependents command : M unit :=
  b ← get_base; eff_each (routeMessageTo command) (ftc_dependents (timeCoord b)).
Definition processExec command : M unit :=
  b ← get_base;
  let local := global_broker_id_local b in
  if dest_id command =? local then
    _ ← processTimeMessage command;
    eff_when (negb (enteredExecutionMode b)) checkExecEntry
  else if source_id command =? local then toDependents command
  else transmitRouted command.
Definition processTime command : M unit :=
  b ← get_base;
  let local := global_broker_id_local b in
  if (source_id command =? local) && (dest_id command =? parent_broker_id)
  then toDependents command
  else if dest_id command =? local then
    res ← processTimeMessage command;
    eff_when res (coord_ ftc_updateTimeFactors)
  else routeMessage command.

(** An interface registration that is not for this broker is routed on. *)
Definition registerInterface (register : ActionMessage → M unit) command : M unit :=
  s ← eff_get;
  if negb (isRootc s) && negb (dest_id command =? parent_broker_id)
  then routeMessage command else register command.

Definition processCommand command : M unit :=
  s ← eff_get;
  let b := cb_base s in
  let here := dest_id command =? global_broker_id_local b in
  match action command with
  | cmd_ignore | cmd_protocol => mret tt
  | cmd_tick => eff_when (bool_decide (brokerState b = bs_operating)) tick
  | cmd_ping => if here then pingAnswer command else routeMessage command
  | CMD_BROKER_PING =>
      if here then _ ← pingAnswer command; pingSub else routeMessage command
  | cmd_ping_reply => if here then pingReply command else routeMessage command
  | cmd_check_connections => _ ← sendDisconnect; addActionMessage (newMessage cmd_stop)
  | cmd_connection_error => if here then connectionError command else routeMessage command
  | cmd_init => processInit command
  | cmd_init_not_ready => processInitNotReady command
  | cmd_init_grant => processInitGrant command
  | cmd_search_dependency => searchDependency command
  | cmd_data_link => dataLink command
  | cmd_filter_link => filterLink command
  | cmd_disconnect_name =>
      processDisconnect
        (if dest_id command =? parent_broker_id then
           match mv_find1 (brokers_ s) (payload command) with
           | Some (_, brk) => command <| source_id := bi_global_id brk |>
           | None => command
           end
         else command)
  | cmd_disconnect | cmd_disconnect_core | cmd_disconnect_broker => processDisconnect command
  | cmd_disconnect_broker_ack =>
      eff_when (here && (source_id command =? higher_broker_id b))
        (_ ← eff_each finalAck (seq 0 (mv_size (brokers_ s)));
         addActionMessage (newMessage cmd_stop))
  | cmd_user_disconnect => _ ← sendDisconnect; addActionMessage (newMessage cmd_stop)
  | cmd_disconnect_fed => disconnectFederate command
  | cmd_stop =>
      _ ← eff_when (cs_lt (getAllConnectionState s) cs_disconnected)
            (_ ← coord_disconnect le;
             eff_when (negb (isRootc s))
               (transmit parent_route_id
                  ((newMessage cmd_disconnect) <| source_id := global_broker_id_local b |>)));
      eff_emit (QueriesFulfilled "#disconnected")
  | cmd_broadcast_disconnect => _ ← processTimeMessage command; broadcast_ command
  | cmd_exec_request | cmd_exec_grant => processExec command
  | cmd_time_request | cmd_time_grant => processTime command
  | cmd_send_message | cmd_send_for_filter | cmd_send_for_filter_return
  | cmd_filter_result | cmd_null_message =>
      if dest_id command =? parent_broker_id then
        '(route, command) ← eff_lift (fillMessageRouteInformation s command);
        transmit route command
      else transmitRouted command
  | cmd_pub => transmitRouted command
  | cmd_log => eff_when (negb (isRootc s)) (transmit parent_route_id command)
  | cmd_error | cmd_local_error | cmd_global_error => processError command
  | cmd_reg_pub => registerInterface addPublication command
  | cmd_reg_input => registerInterface addInput command
  | cmd_reg_end => registerInterface addEndpoint command
  | cmd_reg_filter => registerInterface addFilter command
  | cmd_close_interface =>
      registerInterface (λ command,
        hm ← eff_lift (removeHandle (cb_handles s) (getSource command));
        eff_modify (λ s, s <| cb_handles := hm |>)) command
  | cmd_add_dependency | cmd_remove_dependency | cmd_add_dependent | cmd_remove_dependent
  | cmd_add_interdependency | cmd_remove_interdependency =>
      if negb here then routeMessage command
      else
        _ ← coord_pure (λ tc, ftc_processDependencyUpdateMessage tc command);
        upd_base (λ b, b <| hasTimeDependency := true |>)
  | cmd_add_named_endpoint | cmd_add_named_publication | cmd_add_named_input
  | cmd_add_named_filter => checkForNamedInterface command
  | cmd_remove_named_endpoint | cmd_remove_named_publication | cmd_remove_named_input
  | cmd_remove_named_filter => removeNamedTarget command
  | cmd_broker_configure => processBrokerConfigureCommands command
  | _ => eff_when (negb here) (routeMessage command)
  end.

(** The case [CMD_PRIORITY_DISCONNECT]. *)
Definition priorityDisconnect command : M unit :=
  s ← eff_get;
  _ ← match getBrokerById s (source_id command) with
      | Some ii => setBrokerConnection cs_disconnected ii
      | None => mret tt
      end;
  s ← eff_get;
  eff_when (negb (cs_lt (getAllConnectionState s) cs_disconnected))
    (_ ← eff_when (negb (isRootc s))
           (transmit parent_route_id
              ((newMessage cmd_priority_disconnect)
                 <| source_id := global_broker_id_local (cb_base s) |>));
     addActionMessage (newMessage cmd_stop)).

(** The cases of [processPriorityCommand] other than [CMD_BROKER_SETUP]. *)
Definition processPriorityCase command : M unit :=
  s ← eff_get;
  let b := cb_base s in
  let here := dest_id command =? global_broker_id_local b in
  match action command with
  | cmd_ping_priority => if here then pingAnswer command else routeMessage command
  | cmd_reg_fed => registerFederate command
  | cmd_reg_broker => registerBroker command
  | cmd_fed_ack => federateAck command
  | cmd_broker_ack => brokerAck command
  | cmd_priority_disconnect => priorityDisconnect command
  | cmd_broker_query =>
      if negb (connectionEstablished s) then
        eff_modify (λ s, s <| earlyMessages := earlyMessages s ++ [copyConstruct command] |>)
      else if here || (isRootc s && (dest_id command =? parent_broker_id))
      then eff_emit (LocalQuery command)
      else routeMessage command
  | cmd_query => processQuery command
  | cmd_query_reply => if here then processQueryResponse command else transmitRouted command
  | cmd_set_global =>
      if isRootc s then
        eff_modify (λ s, s <| global_values :=
                       <[payload command := getString command 0]> (global_values s) |>)
      else if fed_isValid (global_broker_id_local b)
              && negb (global_broker_id_local b =? parent_broker_id)
      then transmit parent_route_id command
      else delayTransmit command
  | _ => mret tt
  end.

(** A message that came before the connection.  A setup among them would change the
    vector that the loop runs over. *)
Definition processEarly m : M unit :=
  if bool_decide (action m = cmd_broker_setup) then eff_lift Fault
  else if isPriorityCommand m then processPriorityCase m else processCommand m.
Definition brokerSetup : M unit :=
  _ ← eff_modify (λ s,
        let b := cb_base s in
        s <| cb_base := b <| global_broker_id_local := global_id b |>
               <| timeCoord := (timeCoord b) <| ftc_source_id := global_id b |> |> |>
          <| isRootc := isRoot s |> <| connectionEstablished := true |>);
  s ← eff_get;
  _ ← eff_each processEarly (earlyMessages s);
  eff_modify (λ s, s <| earlyMessages := [] |>).
Definition processPriorityCommand command : M unit :=
  match action command with
  | cmd_broker_setup => brokerSetup
  | _ => processPriorityCase command
  end.

#[export] Instance CoreBroker_virtuals : BrokerVirtuals CB := {|
  v_processCommand := processCommand;
  v_processPriorityCommand := processPriorityCommand;
  v_processDisconnect := processDisconnectAll;
|}.

(** ** Configuration and connection *)

Definition setAsRoot : M unit :=
  b ← get_base;
  eff_when (broker_state_lt (brokerState b) bs_connected)
    (eff_modify (λ s, s <| isRoot := true |>
                        <| cb_base := (cb_base s) <| global_id := root_broker_id |> |>)).

(** The registration message of [connect]. *)
Definition registration (b : BrokerBase) (address : string) : ActionMessage :=
  let m := (newMessage cmd_reg_broker) <| source_id := invalid_global_fed_id |>
             <| payload := identifier b |> in
  let m := if no_ping b then setActionFlag m slow_responding_flag else m in
  if negb (String.eqb (brokerKey b) "") && negb (String.eqb (brokerKey b) universalKey)
  then setStringData m [address; brokerKey b] else setStringData m [address].

(** [connect], given what [brokerConnect] and [getAddress] return; a call while another
    thread is connecting waits for it. *)
Definition connect (res : bool) (address : string) : M bool :=
  s ← eff_get;
  let b := cb_base s in
  if broker_state_lt (brokerState b) bs_connected then
    if bool_decide (brokerState b = bs_configured) then
      _ ← setBrokerState bs_connecting;
      _ ← upd_monitor (tm_setTimeout (Time_to_ms (bb_timeout b)));
      if res then
        _ ← setBrokerState bs_connected;
        _ ← addActionMessage (newMessage cmd_broker_setup);
        _ ← eff_when (negb (isRoot s)) (transmit parent_route_id (registration b address));
        mret true
      else _ ← setBrokerState bs_configured; mret false
    else if bool_decide (brokerState b = bs_connecting) then eff_unbounded
    else mret (isConnected s)
  else mret (isConnected s).

(** The operations of the programming interface that only queue a message. *)
Definition api_dataLink (publication input : string) : M unit :=
  addActionMessage (setStringData ((newMessage cmd_data_link) <| payload := publication |>)
                      [input]).
Definition addSourceFilterToEndpoint (filter endpoint : string) : M unit :=
  addActionMessage (setStringData ((newMessage cmd_filter_link) <| payload := filter |>)
                      [endpoint]).
Definition addDestinationFilterToEndpoint (filter endpoint : string) : M unit :=
  addActionMessage
    (setActionFlag (setStringData ((newMessage cmd_filter_link) <| payload := filter |>)
                      [endpoint]) destination_target).
Definition setLoggingLevel (logLevel : Z) : M unit :=
  b ← get_base;
  addActionMessage
    (setExtraData ((newMessage cmd_broker_configure) <| dest_id := global_id b |>
                     <| messageID := helics_property_int_log_level |>) logLevel).

End broker.
