(* ===== verification/BrokerFrame.v ===== *)
(** * What the handlers of a broker leave alone

    The registry of a broker is what identifies the federates and brokers it knows: their
    names, identifiers, parents and routes, and the routing table.  Only the handlers of
    registrations and of their acknowledgments change it.  The same walk through the
    handlers shows which messages they send: [p] is a property of the actions of the
    messages that are transmitted. *)

From stdpp Require Import strings.
From S2P Require Import Prelude HelicsTime Ids Flags ActionMessage MessageCodec.
From S2P Require Import Definitions TimeDependencies TimeCoordinator.
From S2P Require Import ForwardingTimeCoordinator HandleManager UnknownHandles.
From S2P Require Import Effects MappedVector BrokerBase BrokerState CoreBroker.

(** Two containers with the same search terms, whose elements agree on [key]. *)
Record same_vec `{MappedVector C} {V K} (key : V → K) (c c' : C V) : Prop := {
  sv_elements : key <$> mv_elements c' = key <$> mv_elements c;
  sv_index1 : ∀ k, mv_index1 c' k = mv_index1 c k;
  sv_index2 : ∀ k, mv_index2 c' k = mv_index2 c k;
}.

Section same_vec.
  Context `{MappedVectorLaws C} {V K : Type} (key : V → K).
  Implicit Types (c : C V).

#[export] Instance same_vec_preorder : PreOrder (same_vec key : C V → C V → Prop).
Proof.
  split; [by split|]. intros c1 c2 c3 [E1 I1 J1] [E2 I2 J2].
  split; [by rewrite E2, E1|intros k; by rewrite I2, I1|intros k; by rewrite J2, J1].
Qed.

Lemma same_vec_apply f c : (∀ v, key (f v) = key v) → same_vec key c (mv_apply f c).
Proof.
  intros Hf. split; [|apply mv_apply_index1|apply mv_apply_index2].
  rewrite mv_apply_elements, <-list_fmap_compose. apply list_fmap_ext. intros i v _. apply Hf.
Qed.

Lemma same_vec_alter f i c : (∀ v, key (f v) = key v) → same_vec key c (mv_alter f i c).
Proof.
  intros Hf. split; [|apply mv_alter_index1|apply mv_alter_index2].
  rewrite mv_alter_elements. apply list_eq. intros j. rewrite !list_lookup_fmap.
  destruct (decide (i = j)) as [->|]; [|by rewrite list_lookup_alter_ne].
  rewrite list_lookup_alter_eq. destruct (mv_elements c !! j); cbn; [|done].
  by rewrite Hf.
Qed.

Lemma same_vec_lookup c c' i v' :
  same_vec key c c' → mv_elements c' !! i = Some v' →
  ∃ v, mv_elements c !! i = Some v ∧ key v = key v'.
Proof.
  intros [E _ _] Hv. assert ((key <$> mv_elements c') !! i = Some (key v')) as Hk.
  { by rewrite list_lookup_fmap, Hv. }
  rewrite E, list_lookup_fmap in Hk. apply fmap_Some in Hk as (v & Hv' & ->). eauto.
Qed.

Lemma same_vec_size c c' : same_vec key c c' → mv_size c' = mv_size c.
Proof.
  intros [E _ _]. unfold mv_size. by rewrite <-(length_fmap key), E, length_fmap.
Qed.
End same_vec.

(** What identifies a federate or a broker. *)
Definition fed_key (fed : BasicFedInfo) : string * Z * Z * Z :=
  (fi_name fed, fi_global_id fed, fi_route fed, fi_parent fed).
Definition broker_key (brk : BasicBrokerInfo) : string * Z * Z * Z * bool * bool :=
  (bi_name brk, bi_global_id brk, bi_route brk, bi_parent brk, bi_core brk, bi_nonLocal brk).

Record same_registry `{MappedVector C} (s s' : CoreBroker C) : Prop := {
  sr_isRoot : isRoot s' = isRoot s;
  sr_isRootc : isRootc s' = isRootc s;
  sr_connected : connectionEstablished s' = connectionEstablished s;
  sr_local : global_broker_id_local (cb_base s') = global_broker_id_local (cb_base s);
  sr_higher : higher_broker_id (cb_base s') = higher_broker_id (cb_base s);
  sr_table : routing_table s' = routing_table s;
  sr_early : earlyMessages s' = earlyMessages s;
  sr_federates : same_vec fed_key (federates_ s) (federates_ s');
  sr_brokers : same_vec broker_key (brokers_ s) (brokers_ s');
}.

#[export] Instance same_registry_preorder `{MappedVectorLaws C} :
  PreOrder (same_registry (C:=C)).
Proof.
  split; [intros s; by split|]. intros s1 s2 s3 [] []. split; try congruence.
  - by etrans.
  - by etrans.
Qed.

(** The property of the messages that are transmitted. *)
Definition sends (p : action_t → Prop) (out : broker_out) : Prop :=
  match out with Transmit _ m => p (action m) | _ => True end.

Section frame.
  Context `{TimeRep} `{SteadyClock} `{TimeMs} `{Fmt} `{MappedVectorLaws C} `{BrokerText}.
  Context (le : bool) (p : action_t → Prop).
  Abbreviation CB := (CoreBroker C).
  Abbreviation M := (effM CB broker_out).
  Abbreviation fr := (framed (same_registry (C:=C)) (sends p)).
  Implicit Types (s : CB) (cmd command m : ActionMessage).

(** ** Primitive operations *)

Lemma fr_unbounded {A} : fr (eff_unbounded : M A).
Proof. intros s. apply ewp_unbounded. Qed.
Lemma fr_transmit rid m : p (action m) → fr (transmit rid m).
Proof. intros Hm. apply framed_emit; [apply _|done]. Qed.
Lemma fr_emit out : sends p out → fr (eff_emit out : M unit).
Proof. intros Ho. apply framed_emit; [apply _|done]. Qed.
Lemma fr_queue m : fr (addActionMessage m).
Proof. apply framed_emit; [apply _|done]. Qed.
Lemma fr_removeRoute rid : fr (removeRoute rid).
Proof. apply framed_emit; [apply _|done]. Qed.
Lemma fr_get_base : fr get_base.
Proof. apply framed_bind; [apply _|apply framed_get, _|]. intros s. apply framed_ret, _. Qed.

(** An update of the base that keeps the two identifiers. *)
Lemma fr_upd_base f :
  (∀ b, global_broker_id_local (f b) = global_broker_id_local b ∧
        higher_broker_id (f b) = higher_broker_id b) → fr (upd_base f).
Proof. intros Hf. apply framed_modify. intros s. split; try done; apply Hf. Qed.
Lemma fr_readClock : fr readClock.
Proof.
  apply framed_bind; [apply _|apply fr_get_base|]. intros b.
  apply framed_bind; [apply _|by apply fr_upd_base|]. intros _. apply framed_ret, _.
Qed.
Lemma fr_coord {A} (f : ForwardingTimeCoordinator →
    outcome (ForwardingTimeCoordinator * list ActionMessage * A)) : fr (coord f).
Proof.
  apply framed_bind; [apply _|apply fr_get_base|]. intros b.
  apply framed_bind; [apply _|apply framed_lift, _|]. intros [[tc msgs] a].
  apply framed_bind; [apply _|by apply fr_upd_base|]. intros _.
  apply framed_bind; [apply _| |intros _; apply framed_ret, _].
  apply framed_each; [apply _|]. intros m _. apply fr_queue.
Qed.

Lemma fr_upd_unknown f : fr (upd_unknown f).
Proof. apply framed_modify. intros s. by split. Qed.
Lemma fr_upd_monitor f : fr (upd_monitor f).
Proof. apply framed_modify. intros s. by split. Qed.
Lemma fr_setBrokerState st : fr (setBrokerState st).
Proof. by apply fr_upd_base. Qed.
Lemma fr_alter_broker f ii :
  (∀ brk, broker_key (f brk) = broker_key brk) → fr (alter_broker f ii).
Proof. intros Hf. apply framed_modify. intros s. split; try done. by apply same_vec_alter. Qed.
Lemma fr_upd_brokers f :
  (∀ c, same_vec broker_key c (f c)) → fr (upd_brokers f).
Proof. intros Hf. apply framed_modify. intros s. split; try done; apply Hf. Qed.
Lemma fr_upd_federates f :
  (∀ c, same_vec fed_key c (f c)) → fr (upd_federates f).
Proof. intros Hf. apply framed_modify. intros s. split; try done; apply Hf. Qed.
Lemma fr_setBrokerConnection st ii : fr (setBrokerConnection st ii).
Proof. by apply fr_alter_broker. Qed.
Lemma fr_brokerAt ii : fr (brokerAt ii).
Proof.
  apply framed_bind; [apply _|apply framed_get, _|]. intros s.
  destruct (_ !! ii); [apply framed_ret, _|apply framed_lift, _].
Qed.
End frame.

Create HintDb frame discriminated.
#[export] Hint Resolve fr_unbounded fr_queue fr_removeRoute fr_get_base fr_readClock
  fr_coord fr_upd_unknown fr_upd_monitor fr_setBrokerState fr_setBrokerConnection
  fr_brokerAt : frame.

(** One step of the walk through a handler. *)
Ltac fr_step :=
  lazymatch goal with
  | |- framed _ _ (mret _) => apply framed_ret, _
  | |- framed _ _ (mbind _ _) => apply framed_bind; [apply _| |intros ?]
  | |- framed _ _ eff_get => apply framed_get, _
  | |- framed _ _ (eff_lift _) => apply framed_lift, _
  | |- framed _ _ (eff_when _ _) => apply framed_when; [apply _|intros ?]
  | |- framed _ _ (eff_each _ _) => apply framed_each; [apply _|intros ? ?]
  | |- framed _ _ (eff_emit _) => apply framed_emit; [apply _|done]
  | |- framed _ _ (if ?b then _ else _) => destruct b eqn:?
  | |- framed _ _ (match ?x with _ => _ end) => destruct x eqn:?
  | |- framed _ _ (let _ := _ in _) => cbv zeta
  | |- _ => solve [auto with frame]
  end.
Ltac frame := repeat fr_step.

(** ** The handlers *)

Section handlers.
  Context `{TimeRep} `{SteadyClock} `{TimeMs} `{Fmt} `{MappedVectorLaws C} `{BrokerText}.
  Context (le : bool) (p : action_t → Prop).
  Abbreviation CB := (CoreBroker C).
  Abbreviation M := (effM CB broker_out).
  Abbreviation fr := (framed (same_registry (C:=C)) (sends p)).
  Implicit Types (s : CB) (cmd command m : ActionMessage).

Hint Extern 0 (fr (transmit _ _)) => apply fr_transmit; assumption : frame.

Lemma fr_transmitToParent m : p (action m) → fr (transmitToParent m).
Proof. intros Hm. unfold transmitToParent. frame. apply framed_modify. intros s. by split. Qed.
Lemma fr_routeMessage m : p (action m) → fr (routeMessage m).
Proof. intros Hm. unfold routeMessage. frame. Qed.
Lemma fr_routeMessageTo m dest : p (action m) → fr (routeMessageTo m dest).
Proof. intros Hm. unfold routeMessageTo. frame. by apply fr_routeMessage. Qed.
Lemma fr_transmitRouted m : p (action m) → fr (transmitRouted m).
Proof. intros Hm. unfold transmitRouted. frame. Qed.
Lemma fr_localId : fr localId.
Proof. unfold localId. frame. Qed.

Lemma fr_broadcastLoop brks m :
  p (action m) →
  framed_res (same_registry (C:=C)) (sends p) (λ m', action m' = action m)
    (broadcastLoop brks m : M ActionMessage).
Proof.
  revert m. induction brks as [|brk brks IH]; intros m Hm s; cbn [broadcastLoop].
  - by apply ewp_ret.
  - destruct (_ && _); [|by apply IH]. apply ewp_bind, ewp_emit.
    eapply ewp_mono; [apply IH; exact Hm|]. intros s' out m' (HR & HQ & Hm').
    split; [done|]. split; [by constructor|done].
Qed.
Lemma fr_broadcast m :
  p (action m) →
  framed_res (same_registry (C:=C)) (sends p) (λ m', action m' = action m)
    (broadcast m : M ActionMessage).
Proof. intros Hm s. apply ewp_bind, ewp_get. by apply fr_broadcastLoop. Qed.
Lemma fr_broadcast_ m : p (action m) → fr (broadcast_ m).
Proof.
  intros Hm. eapply framed_bind_res; [apply _|by apply fr_broadcast|]. intros m' _. frame.
Qed.
End handlers.

#[export] Hint Resolve fr_localId : frame.

(** The side condition on a message that is sent: it is the message received, or its
    action is another than the grant of initialization. *)
Ltac p_side :=
  match goal with
  | |- sends _ _ => exact I
  | Hp : ∀ a, a ≠ cmd_init_grant → ?p a |- ?p _ =>
      first [assumption | apply Hp; discriminate
            | match goal with
              | E : action ?m = _ |- p _ =>
                  change (p (action m)); rewrite E; first [assumption | apply Hp; discriminate]
              end
            | unfold withCloneFlag, withFilterTypes;
              repeat case_match; first [assumption | apply Hp; discriminate]]
  end.
#[export] Hint Extern 1 (framed _ (sends _) (transmit _ _)) => apply fr_transmit; p_side : frame.
#[export] Hint Extern 1 (framed _ (sends _) (routeMessage _)) =>
  apply fr_routeMessage; p_side : frame.
#[export] Hint Extern 1 (framed _ (sends _) (routeMessageTo _ _)) =>
  apply fr_routeMessageTo; p_side : frame.
#[export] Hint Extern 1 (framed _ (sends _) (transmitRouted _)) =>
  apply fr_transmitRouted; p_side : frame.
#[export] Hint Extern 1 (framed _ (sends _) (transmitToParent _)) =>
  apply fr_transmitToParent; p_side : frame.
#[export] Hint Extern 1 (framed _ (sends _) (broadcast_ _)) =>
  apply fr_broadcast_; p_side : frame.
#[export] Hint Extern 1 (framed _ (sends _) (upd_base _)) =>
  apply fr_upd_base; by split : frame.

Section handlers2.
  Context `{TimeRep} `{SteadyClock} `{TimeMs} `{Fmt} `{MappedVectorLaws C} `{BrokerText}.
  Context (le : bool) (p : action_t → Prop) (Hp : ∀ a, a ≠ cmd_init_grant → p a).
  Abbreviation CB := (CoreBroker C).
  Abbreviation M := (effM CB broker_out).
  Abbreviation fr := (framed (same_registry (C:=C)) (sends p)).
  Implicit Types (s : CB) (cmd command m : ActionMessage).

Lemma fr_setErrorState code text : fr (setErrorState code text).
Proof. unfold setErrorState. frame. Qed.
Hint Resolve fr_setErrorState : frame.

(** Disconnection *)
Lemma fr_sendDisconnect : fr (sendDisconnect le).
Proof. unfold sendDisconnect, sayGoodbye, coord_disconnect, coord_pure. frame. Qed.
Hint Resolve fr_sendDisconnect : frame.

Lemma fr_markLoop rec brkid iis isCore :
  (∀ id, fr (rec id)) → fr (markLoop rec brkid iis isCore).
Proof.
  intros Hrec. revert isCore. induction iis as [|ii iis IH]; intros isCore; cbn [markLoop];
    unfold markOne; frame; auto.
Qed.
Lemma fr_markAsDisconnected fuel brkid : fr (markAsDisconnected fuel brkid).
Proof.
  revert brkid. induction fuel as [|fuel IH]; intros brkid; cbn [markAsDisconnected]; frame.
  - by apply fr_markLoop.
  - apply fr_upd_federates. intros c. apply same_vec_apply. intros fed. by case_match.
Qed.
Lemma fr_disconnectBroker ii : fr (disconnectBroker ii).
Proof.
  unfold disconnectBroker. frame. apply fr_markAsDisconnected.
Qed.
Lemma fr_processDisconnectAll skip : fr (processDisconnectAll skip).
Proof. unfold processDisconnectAll. frame. Qed.
Lemma fr_checkExecEntry : fr checkExecEntry.
Proof. unfold checkExecEntry. frame. Qed.
Lemma fr_processTimeMessage m : fr (processTimeMessage m).
Proof. unfold processTimeMessage, coord_quiet. frame. Qed.
Hint Resolve fr_disconnectBroker fr_processDisconnectAll fr_checkExecEntry
  fr_processTimeMessage : frame.
Lemma fr_acknowledgeDisconnect m ii : fr (acknowledgeDisconnect m ii).
Proof.
  unfold acknowledgeDisconnect, disconnectAck. frame. by apply fr_alter_broker.
Qed.
Hint Resolve fr_acknowledgeDisconnect : frame.
Lemma fr_disconnectAfter m brk : p (action m) → fr (disconnectAfter le m brk).
Proof.
  intros Hm. unfold disconnectAfter, coord_disconnect, disconnectAction. frame.
Qed.
Lemma fr_processDisconnect m : p (action m) → fr (processDisconnect le m).
Proof.
  intros Hm. unfold processDisconnect, disconnectTime, coord_. frame.
  all: apply fr_disconnectAfter; p_side.
Qed.

(** Errors *)
Lemma fr_processErrorWith again m :
  (∀ m', p (action m') → fr (again m')) → p (action m) → fr (processErrorWith again m).
Proof.
  intros Hagain Hm. unfold processErrorWith.
  apply framed_bind; [apply _|frame|]. intros s. cbv zeta.
  case_match.
  - apply framed_bind; [apply _|frame|]. intros _.
    eapply framed_bind_res; [apply _|by apply fr_broadcast|]. intros m' Hm'. frame.
  - apply framed_bind_res with (X := λ m', action m' = action m); [apply _| |].
    + case_match; [|intros s'; by apply ewp_ret]. intros s'.
      apply ewp_bind. eapply ewp_mono; [apply fr_setBrokerState|]. intros s1 out1 _ [R1 Q1].
      eapply ewp_mono; [by apply fr_broadcast|]. intros s2 out2 m' (R2 & Q2 & E).
      split; [by etrans|]. split; [by apply Forall_app|done].
    + intros m' Hm'. rewrite <-Hm' in Hm. frame;
        [apply fr_upd_federates; intros c; by apply same_vec_alter|..];
        apply Hagain; p_side.
Qed.
Lemma fr_processError m : p (action m) → fr (processError m).
Proof.
  intros Hm. apply fr_processErrorWith; [|done]. intros m' Hm'.
  apply fr_processErrorWith; [|done]. intros m'' _. frame.
Qed.

Lemma fr_propagateError m : p (action m) → fr (propagateError m).
Proof.
  intros Hm. unfold propagateError. apply framed_bind; [apply _|frame|]. intros s.
  case_match; [|frame]. cbv zeta. apply framed_bind; [apply _|frame|]. intros _.
  eapply framed_bind_res; [apply _|apply fr_broadcast; p_side|]. intros m' Hm'.
  apply fr_transmitToParent. rewrite Hm'. p_side.
Qed.
Hint Extern 1 (fr (propagateError _)) => apply fr_propagateError; p_side : frame.

(** Interfaces *)
Lemma fr_addInterface what key type units m : fr (addInterface what key type units m).
Proof.
  unfold addInterface. frame. apply framed_modify. intros s. by split.
Qed.
Hint Resolve fr_addInterface : frame.
Lemma fr_federateInOrder id : fr (federateInOrder id).
Proof. unfold federateInOrder. frame. Qed.
Lemma fr_refuseInterface a hi m : a ≠ cmd_init_grant → fr (refuseInterface a hi m).
Proof. intros Ha. unfold refuseInterface. frame. apply fr_routeMessage, Hp, Ha. Qed.
Hint Resolve fr_federateInOrder : frame.
Hint Extern 1 (fr (refuseInterface _ _ _)) => by apply fr_refuseInterface : frame.
Lemma fr_connectPublication hi m : fr (connectPublication hi m).
Proof. unfold connectPublication. frame. Qed.
Lemma fr_connectInput hi m : fr (connectInput hi m).
Proof. unfold connectInput. frame. Qed.
Lemma fr_connectFilter hi m : fr (connectFilter hi m).
Proof. unfold connectFilter. frame. Qed.
Lemma fr_connectEndpoint hi m : fr (connectEndpoint hi m).
Proof. unfold connectEndpoint. frame. Qed.
Lemma fr_addAnonymous what m : fr (addAnonymous what m).
Proof. unfold addAnonymous. frame. Qed.
Hint Resolve fr_connectPublication fr_connectInput fr_connectFilter fr_connectEndpoint
  fr_addAnonymous : frame.
Lemma fr_unknownInterface m : p (action m) → fr (unknownInterface m).
Proof. intros Hm. unfold unknownInterface. frame. Qed.
Hint Extern 1 (fr (unknownInterface _)) => apply fr_unknownInterface; p_side : frame.
Lemma fr_checkForNamedInterface m : p (action m) → fr (checkForNamedInterface m).
Proof. intros Hm. unfold checkForNamedInterface. frame. Qed.
Hint Extern 1 (fr (checkForNamedInterface _)) =>
  apply fr_checkForNamedInterface; p_side : frame.
Lemma fr_removeBoth a a' hi m :
  a ≠ cmd_init_grant → a' ≠ cmd_init_grant → fr (removeBoth a a' hi m).
Proof.
  intros Ha Ha'. unfold removeBoth. frame; apply fr_routeMessage; [apply Hp, Ha|apply Hp, Ha'].
Qed.
Lemma fr_removeNamedTarget m : p (action m) → fr (removeNamedTarget m).
Proof.
  intros Hm. unfold removeNamedTarget. frame. all: by apply fr_removeBoth.
Qed.

Lemma fr_FindandNotifyInputTargets hi : fr (FindandNotifyInputTargets hi).
Proof. unfold FindandNotifyInputTargets, notifyInputTarget. frame. Qed.
Lemma fr_FindandNotifyPublicationTargets hi : fr (FindandNotifyPublicationTargets hi).
Proof. unfold FindandNotifyPublicationTargets, notifySubscriber. frame. Qed.
Lemma fr_FindandNotifyEndpointTargets hi : fr (FindandNotifyEndpointTargets hi).
Proof. unfold FindandNotifyEndpointTargets, notifyEndpointTarget. frame. Qed.
Lemma fr_FindandNotifyFilterTargets hi : fr (FindandNotifyFilterTargets hi).
Proof.
  unfold FindandNotifyFilterTargets, notifyFilterTarget, filterLinkRequest. frame.
Qed.
Hint Resolve fr_FindandNotifyInputTargets fr_FindandNotifyPublicationTargets
  fr_FindandNotifyEndpointTargets fr_FindandNotifyFilterTargets : frame.
Lemma fr_duplicateName what m : fr (duplicateName what m).
Proof. unfold duplicateName. frame. Qed.
Hint Resolve fr_duplicateName : frame.
Lemma fr_addPublication m : p (action m) → fr (addPublication m).
Proof. intros Hm. unfold addPublication. frame. Qed.
Lemma fr_addInput m : p (action m) → fr (addInput m).
Proof. intros Hm. unfold addInput. frame. Qed.
Lemma fr_addEndpoint m : p (action m) → fr (addEndpoint m).
Proof. intros Hm. unfold addEndpoint, coord_quiet. frame. Qed.
Lemma fr_addFilter m : p (action m) → fr (addFilter m).
Proof. intros Hm. unfold addFilter, coord_quiet. frame. Qed.

(** Initialization *)
Lemma fr_checkDependencies : fr checkDependencies.
Proof.
  unfold checkDependencies, delayedDependency, leaveChainRoot, leaveChain, coord_pure. frame.
Qed.
Hint Resolve fr_checkDependencies : frame.
Lemma fr_grantInitialization : p cmd_init_grant → fr grantInitialization.
Proof. intros Hg. unfold grantInitialization, coord_. frame. Qed.
Lemma fr_reportMissing text miss report :
  action miss ≠ cmd_init_grant → fr (reportMissing text miss report).
Proof.
  intros Ha. destruct report as [[target type] hand]. unfold reportMissing.
  apply fr_routeMessage, Hp, Ha.
Qed.
Lemma fr_executeInitializationOperations :
  p cmd_init_grant → fr (executeInitializationOperations le).
Proof.
  intros Hg. unfold executeInitializationOperations. frame.
  all: first [by apply fr_reportMissing | by apply fr_grantInitialization].
Qed.

(** Timeouts *)
Lemma fr_pingSub : fr pingSub.
Proof.
  assert (∀ now brks b, fr (pingBrokers now brks b)) as Hping.
  { intros now brks. induction brks as [|brk brks IH]; intros b; cbn [pingBrokers]; [frame|].
    unfold pingBroker, connectionIndex, alter_connection. frame. }
  unfold pingSub. frame.
Qed.
Hint Resolve fr_pingSub : frame.
Lemma fr_tick : fr tick.
Proof.
  unfold tick, tickParent, tickConnection, tickWaiting, sendErrorToImmediateBrokers. frame.
Qed.
Lemma fr_pingReply m : fr (pingReply m).
Proof. unfold pingReply. frame. Qed.
Lemma fr_pingAnswer m : fr (pingAnswer m).
Proof. unfold pingAnswer. frame. Qed.
Hint Resolve fr_tick fr_pingReply fr_pingAnswer : frame.

(** The cases of [processCommand] *)
Lemma fr_processBrokerConfigureCommands m : fr (processBrokerConfigureCommands m).
Proof. unfold processBrokerConfigureCommands, setLogLevel, setLogLevels. frame. Qed.
Lemma fr_connectionError m : p (action m) → fr (connectionError le m).
Proof.
  intros Hm. unfold connectionError. frame. apply fr_processDisconnect; p_side.
Qed.
Lemma fr_processInit m : p cmd_init_grant → p (action m) → fr (processInit le m).
Proof.
  intros Hg Hm. unfold processInit. frame. by apply fr_executeInitializationOperations.
Qed.
Lemma fr_processInitNotReady m : p (action m) → fr (processInitNotReady m).
Proof. intros Hm. unfold processInitNotReady. frame. Qed.
Lemma fr_processInitGrant m : p (action m) → fr (processInitGrant m).
Proof. intros Hm. unfold processInitGrant, coord_. frame. Qed.
Lemma fr_searchDependency m : p (action m) → fr (searchDependency m).
Proof.
  intros Hm. unfold searchDependency. frame; apply framed_modify; intros s; by split.
Qed.
Lemma fr_dataLink m : p (action m) → fr (dataLink m).
Proof. intros Hm. unfold dataLink. frame. Qed.
Lemma fr_filterLink m : p (action m) → fr (filterLink m).
Proof. intros Hm. unfold filterLink. frame. Qed.
Lemma fr_finalAck ii : fr (finalAck ii).
Proof. unfold finalAck, disconnectAck. frame. by apply fr_alter_broker. Qed.
Lemma fr_disconnectFederate m : p (action m) → fr (disconnectFederate m).
Proof.
  intros Hm. unfold disconnectFederate. frame.
  apply fr_upd_federates. intros c. by apply same_vec_alter.
Qed.
Lemma fr_processExec m : p (action m) → fr (processExec m).
Proof. intros Hm. unfold processExec, toDependents. frame. Qed.
Lemma fr_processTime m : p (action m) → fr (processTime m).
Proof. intros Hm. unfold processTime, toDependents, coord_. frame. Qed.
Hint Resolve fr_processBrokerConfigureCommands fr_connectionError fr_processInit
  fr_processInitNotReady fr_processInitGrant fr_searchDependency fr_dataLink fr_filterLink
  fr_finalAck fr_disconnectFederate fr_processExec fr_processTime fr_addPublication
  fr_addInput fr_addEndpoint fr_addFilter fr_processDisconnect fr_processError
  fr_checkForNamedInterface fr_removeNamedTarget fr_routeMessage fr_transmitRouted
  fr_transmit : frame.

Lemma fr_registerInterface register m :
  fr (register m) → p (action m) → fr (registerInterface register m).
Proof. intros Hr Hm. unfold registerInterface. frame. Qed.
Hint Resolve fr_registerInterface : frame.

(** A message to a named endpoint *)
Lemma fill_action s m r m' :
  fillMessageRouteInformation s m = Ok (r, m') → action m' = action m.
Proof.
  unfold fillMessageRouteInformation. destruct (getEndpoint _ _) as [[ept|]| |]; cbn;
    [|case_match|done|done]; intros E; by injection E as _ <-.
Qed.
Lemma fr_sendMessage s m :
  p (action m) →
  fr (if dest_id m =? parent_broker_id then
        '(route, m) ← eff_lift (fillMessageRouteInformation s m); transmit route m
      else transmitRouted m).
Proof.
  intros Hm. case_match; [|frame].
  apply framed_bind_res with (X := λ rm, action rm.2 = action m); [apply _| |].
  - apply framed_lift_res; [apply _|]. intros [r m'] E. by eapply fill_action.
  - intros [r m'] E. apply fr_transmit. cbn [snd] in E. by rewrite E.
Qed.

(** Every command that is not a priority command keeps the registry; a grant of
    initialization is sent only for an initialization request or a received grant. *)
Lemma fr_processCommand m :
  p (action m) → (action m = cmd_init → p cmd_init_grant) → fr (processCommand le m).
Proof.
  intros Hm Hinit. unfold processCommand. apply framed_bind; [apply _|frame|]. intros s.
  cbv zeta. destruct (action m) eqn:Ha; rewrite <-Ha in Hm;
    first [by apply fr_sendMessage | frame]; unfold coord_pure, coord_disconnect; frame.
  - apply fr_processDisconnect. repeat case_match; p_side.
  - apply fr_registerInterface; [|done]. frame. apply framed_modify. intros s'. by split.
Qed.
End handlers2.
