(* ===== verification/BrokerRegistry.v ===== *)
(** * The registry of the root broker

    The root broker gives each federate and broker that registers the next identifier of
    its kind.  [registry_wf] is the invariant of its registry: the element at index [i]
    has the identifier of [i], is found under its name and under its identifier, and the
    routing table leads to it along the route it came from; nothing else is in the
    routing table.  The registration handlers keep it, the other handlers do not touch
    the registry (BrokerFrame.v). *)

From stdpp Require Import strings.
From S2P Require Import Prelude HelicsTime Ids Flags ActionMessage MessageCodec.
From S2P Require Import Definitions TimeDependencies TimeCoordinator.
From S2P Require Import ForwardingTimeCoordinator HandleManager UnknownHandles.
From S2P Require Import Effects MappedVector BrokerBase BrokerState CoreBroker BrokerFrame.

(** ** A container in which the identifiers are consecutive *)

Record vec_wf `{MappedVector C} {V} (name : V → string) (gid : V → Z) (shift : Z) (c : C V)
    : Prop := {
  vw_gid : ∀ i v, mv_elements c !! i = Some v → gid v = shift + Z.of_nat i;
  vw_name : ∀ i v, mv_elements c !! i = Some v → mv_index1 c (name v) = Some i;
  vw_id : ∀ i v, mv_elements c !! i = Some v → mv_index2 c (gid v) = Some i;
  vw_index1 : ∀ k i, mv_index1 c k = Some i → ∃ v, mv_elements c !! i = Some v ∧ name v = k;
  vw_index2 : ∀ id i, mv_index2 c id = Some i → id = shift + Z.of_nat i;
}.

(** The container after an element was entered under a name, and after it was given an
    identifier. *)
Record named `{MappedVector C} {V} (k : string) (c : C V) (v : V) (c' : C V) : Prop := {
  nm_elements : mv_elements c' = mv_elements c ++ [v];
  nm_index1 : ∀ k', mv_index1 c' k' =
    if decide (k' = k) then Some (length (mv_elements c)) else mv_index1 c k';
  nm_index2 : ∀ id, mv_index2 c' id = mv_index2 c id;
}.
Record entered `{MappedVector C} {V} (k : string) (id : Z) (c : C V) (v : V) (c' : C V)
    : Prop := {
  en_elements : mv_elements c' = mv_elements c ++ [v];
  en_index1 : ∀ k', mv_index1 c' k' =
    if decide (k' = k) then Some (length (mv_elements c)) else mv_index1 c k';
  en_index2 : ∀ id', mv_index2 c' id' =
    if decide (id' = id) then Some (length (mv_elements c)) else mv_index2 c id';
}.

Section containers.
  Context `{MappedVectorLaws C} {V : Type}.
  Implicit Types (c : C V) (v : V).

Lemma alter_last {A} (f : A → A) (l : list A) a : alter f (length l) (l ++ [a]) = l ++ [f a].
Proof. induction l as [|b l IH]; cbn; [done|]. by rewrite IH. Qed.

Lemma alter_back_elements f c l v :
  mv_elements c = l ++ [v] → mv_elements (mv_alter_back f c) = l ++ [f v].
Proof.
  intros E. unfold mv_alter_back, mv_size. rewrite mv_alter_elements, E, length_app. cbn.
  rewrite Nat.add_1_r. cbn. apply alter_last.
Qed.

Lemma insert1_named k v c :
  mv_index1 c k = None → named k c v (mv_insert1 k v c).1.
Proof.
  intros E. split; [by apply mv_insert1_elements|intros k'; by apply mv_insert1_index1|].
  intros id. by apply mv_insert1_index2.
Qed.
Lemma alter_named f k c v c' : named k c v c' → named k c (f v) (mv_alter_back f c').
Proof.
  intros [E I1 I2]. split; [by apply alter_back_elements| |].
  - intros k'. rewrite <-I1. apply mv_alter_index1.
  - intros id. rewrite <-I2. apply mv_alter_index2.
Qed.
Lemma addTerm_entered k id c v c' :
  named k c v c' → mv_index2 c id = None →
  entered k id c v (mv_addTerm id (length (mv_elements c)) c').
Proof.
  intros [E I1 I2] Hid. split.
  - by rewrite mv_addTerm_elements.
  - intros k'. by rewrite mv_addTerm_index1.
  - intros id'. rewrite mv_addTerm_index2; [by rewrite I2| |by rewrite I2].
    rewrite E, length_app. cbn. lia.
Qed.
Lemma alter_entered f k id c v c' :
  entered k id c v c' → entered k id c (f v) (mv_alter_back f c').
Proof.
  intros [E I1 I2]. split; [by apply alter_back_elements| |].
  - intros k'. rewrite <-I1. apply mv_alter_index1.
  - intros id'. rewrite <-I2. apply mv_alter_index2.
Qed.
Lemma named_size k c v c' : named k c v c' → mv_size c' = S (mv_size c).
Proof. intros [E _ _]. unfold mv_size. rewrite E, length_app. cbn. lia. Qed.

Context (name : V → string) (gid : V → Z) (shift : Z).

Lemma vec_wf_new : vec_wf name gid shift (mv_new : C V).
Proof.
  split; intros *; rewrite ?mv_new_elements, ?mv_new_index1, ?mv_new_index2; done.
Qed.

Lemma vec_wf_fresh_id c : vec_wf name gid shift c →
  mv_index2 c (shift + Z.of_nat (mv_size c)) = None.
Proof.
  intros Hc. destruct (mv_index2 c _) as [i|] eqn:E; [|done].
  pose proof (vw_index2 _ _ _ _ Hc _ _ E) as Ei. apply mv_index2_lt in E.
  unfold mv_size in Ei. lia.
Qed.

Lemma vec_wf_entered k c v c' :
  vec_wf name gid shift c → mv_index1 c k = None → name v = k →
  gid v = shift + Z.of_nat (mv_size c) →
  entered k (gid v) c v c' → vec_wf name gid shift c'.
Proof.
  intros Hc Hk Hn Hg [E I1 I2]. pose proof (vec_wf_fresh_id c Hc) as Hfresh.
  rewrite <-Hg in Hfresh.
  assert (∀ i u, mv_elements c' !! i = Some u →
    (i = mv_size c ∧ u = v) ∨ ((i < mv_size c)%nat ∧ mv_elements c !! i = Some u)) as Hlook.
  { intros i u. rewrite E. intros Hu. apply lookup_app_Some in Hu as [Hu|[Hi Hu]].
    - right. split; [by eapply lookup_lt_Some|done].
    - left. apply list_lookup_singleton_Some in Hu as [Hi' ->]. unfold mv_size.
      split; [lia|done]. }
  split.
  - intros i u [[-> ->]|[_ Hu]]%Hlook; [done|by eapply vw_gid].
  - intros i u [[-> ->]|[_ Hu]]%Hlook; rewrite I1; [by rewrite decide_True by done|].
    pose proof (vw_name _ _ _ _ Hc _ _ Hu) as Hu'. rewrite decide_False; [done|]. congruence.
  - intros i u [[-> ->]|[_ Hu]]%Hlook; rewrite I2; [by rewrite decide_True by done|].
    pose proof (vw_id _ _ _ _ Hc _ _ Hu) as Hu'. rewrite decide_False; [done|]. congruence.
  - intros k' i. rewrite I1, E. case_decide as Hd.
    + intros [= <-]. exists v. split; [by rewrite lookup_app_r, Nat.sub_diag|congruence].
    + intros (u & Hu & <-)%(vw_index1 _ _ _ _ Hc). exists u. split; [|done].
      by apply lookup_app_l_Some.
  - intros id i. rewrite I2. case_decide as Hd; [|by apply (vw_index2 _ _ _ _ Hc)].
    intros [= <-]. by rewrite Hd, Hg.
Qed.

(** Consecutive identifiers are different, and so are the names. *)
Lemma vec_wf_gid_inj c i j u v :
  vec_wf name gid shift c → mv_elements c !! i = Some u → mv_elements c !! j = Some v →
  gid u = gid v → i = j.
Proof.
  intros Hc Hu Hv E. apply (vw_gid _ _ _ _ Hc) in Hu, Hv. lia.
Qed.
Lemma vec_wf_name_inj c i j u v :
  vec_wf name gid shift c → mv_elements c !! i = Some u → mv_elements c !! j = Some v →
  name u = name v → i = j.
Proof.
  intros Hc Hu Hv E. apply (vw_name _ _ _ _ Hc) in Hu, Hv. congruence.
Qed.
End containers.

(** The invariant depends on the keys only. *)
Lemma vec_wf_same `{MappedVectorLaws C} {V K} (key : V → K) name gid shift (c c' : C V) :
  (∀ u v, key u = key v → name u = name v ∧ gid u = gid v) →
  same_vec key c c' → vec_wf name gid shift c → vec_wf name gid shift c'.
Proof.
  intros Hkey Hs Hc. pose proof Hs as [E I1 I2]. split.
  - intros i v' (v & Hv & Hk)%(same_vec_lookup key c _ _ _ Hs). apply Hkey in Hk as [_ <-].
    by eapply vw_gid.
  - intros i v' (v & Hv & Hk)%(same_vec_lookup key c _ _ _ Hs). apply Hkey in Hk as [<- _].
    rewrite I1. by eapply vw_name.
  - intros i v' (v & Hv & Hk)%(same_vec_lookup key c _ _ _ Hs). apply Hkey in Hk as [_ <-].
    rewrite I2. by eapply vw_id.
  - intros k i. rewrite I1. intros (v & Hv & <-)%(vw_index1 _ _ _ _ Hc).
    assert ((key <$> mv_elements c') !! i = Some (key v)) as Hk.
    { by rewrite E, list_lookup_fmap, Hv. }
    rewrite list_lookup_fmap in Hk. apply fmap_Some in Hk as (v' & Hv' & Hk).
    exists v'. split; [done|]. by apply Hkey in Hk as [-> _].
  - intros id i. rewrite I2. apply (vw_index2 _ _ _ _ Hc).
Qed.

(** ** The invariant *)

(** One step of an operation of the broker, in the total calculus. *)
Ltac br_step :=
  lazymatch goal with
  | |- etotal (transmit _ _) _ _ => apply etotal_emit
  | |- etotal (addActionMessage _) _ _ => apply etotal_emit
  | |- etotal (addRoute _ _ _) _ _ => apply etotal_emit
  | |- etotal (removeRoute _) _ _ => apply etotal_emit
  | |- etotal (upd_federates _) _ _ => apply etotal_modify
  | |- etotal (upd_brokers _) _ _ => apply etotal_modify
  | |- etotal (upd_unknown _) _ _ => apply etotal_modify
  | |- etotal (alter_broker _ _) _ _ => apply etotal_modify
  | |- etotal (setBrokerConnection _ _) _ _ => apply etotal_modify
  | |- etotal (upd_base _) _ _ => apply etotal_modify
  | |- etotal (setBrokerState _) _ _ => apply etotal_modify
  | |- etotal (emplaceRoute _ _) _ _ => apply etotal_modify
  | |- etotal get_base _ _ => apply etotal_bind, etotal_get, etotal_ret
  | |- etotal localId _ _ =>
      apply etotal_bind, etotal_bind, etotal_get, etotal_ret, etotal_ret
  | |- etotal newRoute _ _ =>
      apply etotal_bind, etotal_get, etotal_bind, etotal_modify, etotal_ret
  | |- _ => etotal_step
  end.

Section registry.
  Context `{MappedVector C}.
  Implicit Types (s : CoreBroker C).

Definition fed_id_of (i : nat) : Z := global_federate_id_shift + Z.of_nat i.
Definition broker_id_of (i : nat) : Z := global_broker_id_shift + Z.of_nat i.

(** There are identifiers left for [n] more of each kind. *)
Definition room (n : nat) s : Prop :=
  Z.of_nat (n + mv_size (federates_ s)) ≤ global_broker_id_shift - global_federate_id_shift ∧
  Z.of_nat (n + mv_size (brokers_ s)) ≤ 2 ^ 31 - global_broker_id_shift.

Record registry_wf s : Prop := {
  rw_federates : vec_wf fi_name fi_global_id global_federate_id_shift (federates_ s);
  rw_brokers : vec_wf bi_name bi_global_id global_broker_id_shift (brokers_ s);
  rw_fed_route : ∀ i fed, mv_elements (federates_ s) !! i = Some fed →
    routing_table s !! fi_global_id fed = Some (fi_route fed);
  rw_broker_route : ∀ i brk, mv_elements (brokers_ s) !! i = Some brk →
    routing_table s !! bi_global_id brk = Some (bi_route brk);
  rw_table : ∀ id r, routing_table s !! id = Some r →
    (∃ i fed, mv_elements (federates_ s) !! i = Some fed ∧ fi_global_id fed = id) ∨
    (∃ i brk, mv_elements (brokers_ s) !! i = Some brk ∧ bi_global_id brk = id);
}.
End registry.

Section invariant.
  Context `{TimeRep} `{SteadyClock} `{TimeMs} `{Fmt} `{MappedVectorLaws C} `{BrokerText}.
  Context (le : bool).
  Abbreviation CB := (CoreBroker C).
  Implicit Types (s : CB) (command : ActionMessage).

Lemma registry_wf_new root name : registry_wf (newCoreBroker root name : CB).
Proof.
  split; cbn [federates_ brokers_ routing_table newCoreBroker].
  - apply vec_wf_new.
  - apply vec_wf_new.
  - intros i fed. by rewrite mv_new_elements.
  - intros i brk. by rewrite mv_new_elements.
  - intros id r. by rewrite lookup_empty.
Qed.

(** Two states with the same registry have corresponding elements. *)
Lemma same_federate s s' i fed :
  same_registry s s' → mv_elements (federates_ s) !! i = Some fed →
  ∃ fed', mv_elements (federates_ s') !! i = Some fed' ∧ fed_key fed' = fed_key fed.
Proof.
  intros [_ _ _ _ _ _ _ [E _ _] _] Hf.
  assert ((fed_key <$> mv_elements (federates_ s')) !! i = Some (fed_key fed)) as Hk.
  { by rewrite E, list_lookup_fmap, Hf. }
  rewrite list_lookup_fmap in Hk. apply fmap_Some in Hk as (fed' & ? & ->). eauto.
Qed.
Lemma same_broker s s' i brk :
  same_registry s s' → mv_elements (brokers_ s) !! i = Some brk →
  ∃ brk', mv_elements (brokers_ s') !! i = Some brk' ∧ broker_key brk' = broker_key brk.
Proof.
  intros [_ _ _ _ _ _ _ _ [E _ _]] Hf.
  assert ((broker_key <$> mv_elements (brokers_ s')) !! i = Some (broker_key brk)) as Hk.
  { by rewrite E, list_lookup_fmap, Hf. }
  rewrite list_lookup_fmap in Hk. apply fmap_Some in Hk as (brk' & ? & ->). eauto.
Qed.

Lemma registry_wf_same s s' : same_registry s s' → registry_wf s → registry_wf s'.
Proof.
  intros Hs [Wf Wb Rf Rb Rt]. pose proof Hs as [_ _ _ _ _ Ht _ Hf Hb]. split.
  - eapply vec_wf_same; [|exact Hf|done]. intros u v [=]. by split.
  - eapply vec_wf_same; [|exact Hb|done]. intros u v [=]. by split.
  - intros i fed (fed0 & Hfed & Hk)%(same_vec_lookup _ _ _ _ _ Hf).
    apply Rf in Hfed. injection Hk as _ E1 E2 _. by rewrite Ht, <-E1, <-E2.
  - intros i brk (brk0 & Hbrk & Hk)%(same_vec_lookup _ _ _ _ _ Hb).
    apply Rb in Hbrk. injection Hk as _ E1 E2 _ _ _. by rewrite Ht, <-E1, <-E2.
  - intros id r. rewrite Ht. intros [(i & fed & Hi & <-)|(i & brk & Hi & <-)]%Rt.
    + destruct (same_federate _ _ _ _ Hs Hi) as (fed' & ? & Hk). left. exists i, fed'.
      by injection Hk as _ E1 _ _.
    + destruct (same_broker _ _ _ _ Hs Hi) as (brk' & ? & Hk). right. exists i, brk'.
      by injection Hk as _ E1 _ _ _ _.
Qed.

(** The identifiers of federates and brokers are different. *)
Lemma fed_ne_broker s i fed j brk :
  registry_wf s → room 1 s → mv_elements (federates_ s) !! i = Some fed →
  mv_elements (brokers_ s) !! j = Some brk → fi_global_id fed ≠ bi_global_id brk.
Proof.
  intros Hs [Hn _] Hi Hj. rewrite (vw_gid _ _ _ _ (rw_federates _ Hs) _ _ Hi).
  rewrite (vw_gid _ _ _ _ (rw_brokers _ Hs) _ _ Hj). apply lookup_lt_Some in Hi.
  unfold mv_size in Hn. lia.
Qed.

(** ** The registration of a federate *)

Definition fed_entry s command : BasicFedInfo := {|
  fi_name := payload command; fi_global_id := fed_id_of (mv_size (federates_ s));
  fi_route := getRoute s (source_id command); fi_parent := source_id command;
  fi_state := cs_connected |}.
Definition notReady s : list broker_out :=
  if allInitReady s then
    [Transmit parent_route_id ((newMessage cmd_init_not_ready)
       <| source_id := global_broker_id_local (cb_base s) |>)]
  else [].
Definition fed_reply s command : ActionMessage :=
  (newMessageTo cmd_fed_ack (global_broker_id_local (cb_base s))
     (fed_id_of (mv_size (federates_ s)))) <| payload := payload command |>.

(** What is entered for a new federate. *)
Definition federate_entered s command s' : Prop :=
  entered (payload command) (fi_global_id (fed_entry s command)) (federates_ s)
    (fed_entry s command) (federates_ s') ∧
  s' = s <| federates_ := federates_ s' |>
         <| routing_table := map_emplace (fi_global_id (fed_entry s command))
              (fi_route (fed_entry s command)) (routing_table s) |>.

Lemma small_sint n : Z.of_nat n ≤ global_broker_id_shift → to_sint 32 (Z.of_nat n) = Z.of_nat n.
Proof.
  unfold global_broker_id_shift. intros Hn. apply to_sint_id; [lia|]. unfold sint_range. lia.
Qed.

Lemma noLongerReady_spec s (P : CB → list broker_out → unit → Prop) :
  P s (notReady s) tt → etotal noLongerReady s P.
Proof.
  intros HP. unfold noLongerReady, notReady in *. do 2 br_step.
  destruct (allInitReady s); unfold eff_when; by br_step.
Qed.

Lemma named_last {V} k (c c' : C V) v : named k c v c' → last (mv_elements c') = Some v.
Proof. intros [-> _ _]. apply last_snoc. Qed.
Lemma entered_last {V} k id (c c' : C V) v :
  entered k id c v c' → last (mv_elements c') = Some v.
Proof. intros [-> _ _]. apply last_snoc. Qed.

(** The identifier of an element that was just entered is the next one. *)
Lemma next_fed_id n :
  Z.of_nat (S n) ≤ global_broker_id_shift - global_federate_id_shift →
  to_sint 32 (Z.of_nat (S n)) - 1 + global_federate_id_shift = fed_id_of n ∧
  Z.to_nat (to_uint 64 (to_uint 64 (fed_id_of n) - global_federate_id_shift)) = n.
Proof.
  unfold global_broker_id_shift, global_federate_id_shift, fed_id_of. intros Hn.
  rewrite small_sint by (unfold global_broker_id_shift; lia).
  rewrite (to_uint_id 64 (131072 + _)), to_uint_id by (unfold uint_range; lia).
  unfold global_federate_id_shift. lia.
Qed.
Lemma next_broker_id n :
  Z.of_nat (S n) ≤ 2 ^ 31 - global_broker_id_shift →
  to_sint 32 (Z.of_nat (S n)) - 1 + global_broker_id_shift = broker_id_of n.
Proof.
  unfold global_broker_id_shift, broker_id_of. intros Hn.
  rewrite small_sint by (unfold global_broker_id_shift; lia).
  unfold global_broker_id_shift. lia.
Qed.

Lemma assignFederateId_spec s1 command c fed :
  named (payload command) c fed (federates_ s1) →
  mv_index2 c (fed_id_of (mv_size c)) = None →
  Z.of_nat (S (mv_size c)) ≤ global_broker_id_shift - global_federate_id_shift →
  let gid := fed_id_of (mv_size c) in
  etotal (assignFederateId command) s1 (λ s' out _,
    entered (payload command) gid c (fed <| fi_global_id := gid |>) (federates_ s') ∧
    s' = s1 <| federates_ := federates_ s' |>
            <| routing_table := map_emplace gid (fi_route fed) (routing_table s1) |> ∧
    out = [Transmit (fi_route fed)
             ((newMessageTo cmd_fed_ack (global_broker_id_local (cb_base s1)) gid)
                <| payload := payload command |>)]).
Proof.
  intros Hnm Hid Hn gid. unfold assignFederateId. do 2 br_step.
  rewrite (named_size _ _ _ _ Hnm). destruct (next_fed_id _ Hn) as [-> ->]. fold gid.
  set (c' := mv_addTerm gid (mv_size c)
    (mv_alter_back (λ fed, fed <| fi_global_id := gid |>) (federates_ s1))).
  assert (entered (payload command) gid c (fed <| fi_global_id := gid |>) c') as Hen.
  { apply addTerm_entered; [|done].
    by apply (alter_named (λ fed, fed <| fi_global_id := gid |>)). }
  do 5 br_step. unfold lastFederate. do 2 br_step.
  match goal with |- etotal (match last (mv_elements ?x) with _ => _ end) _ _ =>
    change x with c' end. rewrite (entered_last _ _ _ _ _ Hen).
  do 3 br_step. br_step. done.
Qed.

Lemma registerFederate_root s command :
  registry_wf s → connectionEstablished s = true → isRootc s = true →
  brokerState (cb_base s) ≠ bs_operating → mv_index1 (federates_ s) (payload command) = None →
  Z.of_nat (S (mv_size (federates_ s))) ≤ global_broker_id_shift - global_federate_id_shift →
  etotal (registerFederate command) s (λ s' out _,
    federate_entered s command s' ∧
    out = notReady s ++ [Transmit (getRoute s (source_id command)) (fed_reply s command)]).
Proof.
  intros Hs Hc Hr Hst Hk Hn. unfold registerFederate. do 2 br_step. rewrite Hc.
  cbn [negb]. rewrite bool_decide_false by done. br_step. apply noLongerReady_spec.
  rewrite Hk. do 4 br_step. rewrite Hr. cbn [negb].
  eapply etotal_mono; [apply assignFederateId_spec with (c := federates_ s)|].
  - exact (alter_named (λ fed, fed <| fi_route := getRoute s (source_id command) |>
                                   <| fi_parent := source_id command |>) _ _ _ _
             (insert1_named _ (newFedInfo (payload command)) _ Hk)).
  - apply (vec_wf_fresh_id _ _ _ _ (rw_federates _ Hs)).
  - done.
  - cbn beta zeta. intros s' out _ (Hen & Hs' & ->). done.
Qed.

(** The table after an identifier was entered that was not in it. *)
Lemma emplace_fresh (t : gmap Z Z) id r : t !! id = None → map_emplace id r t = <[id := r]> t.
Proof. intros E. unfold map_emplace. by rewrite E. Qed.

Lemma table_fresh s id :
  registry_wf s →
  (∀ i fed, mv_elements (federates_ s) !! i = Some fed → fi_global_id fed ≠ id) →
  (∀ i brk, mv_elements (brokers_ s) !! i = Some brk → bi_global_id brk ≠ id) →
  routing_table s !! id = None.
Proof.
  intros Hs Hf Hb. destruct (routing_table s !! id) as [r|] eqn:E; [|done].
  apply (rw_table _ Hs) in E as [(i & fed & Hi & He)|(i & brk & Hi & He)]; naive_solver.
Qed.

Lemma fed_table_fresh s :
  registry_wf s → Z.of_nat (S (mv_size (federates_ s)))
                  ≤ global_broker_id_shift - global_federate_id_shift →
  routing_table s !! fed_id_of (mv_size (federates_ s)) = None.
Proof.
  intros Hs Hn. apply table_fresh; [done|..]; unfold fed_id_of.
  - intros i fed Hi. rewrite (vw_gid _ _ _ _ (rw_federates _ Hs) _ _ Hi).
    apply lookup_lt_Some in Hi. unfold mv_size. lia.
  - intros i brk Hi. rewrite (vw_gid _ _ _ _ (rw_brokers _ Hs) _ _ Hi).
    unfold global_federate_id_shift, global_broker_id_shift in *. lia.
Qed.

Lemma federate_entered_wf s command s' :
  registry_wf s → room 1 s → mv_index1 (federates_ s) (payload command) = None →
  federate_entered s command s' → registry_wf s'.
Proof.
  intros Hs [Hn _] Hk [Hen Hs']. set (fed := fed_entry s command) in *.
  pose proof (fed_table_fresh s Hs Hn) as Hfresh.
  assert (brokers_ s' = brokers_ s) as Eb by (by rewrite Hs').
  assert (routing_table s' = <[fi_global_id fed := fi_route fed]> (routing_table s)) as Et.
  { rewrite Hs'. by apply emplace_fresh. }
  pose proof (en_elements _ _ _ _ _ Hen) as Ee. split.
  - by eapply vec_wf_entered; [apply Hs|exact Hk| | |exact Hen].
  - rewrite Eb. apply Hs.
  - intros i f Hi. rewrite Et. rewrite Ee in Hi.
    apply lookup_app_Some in Hi as [Hi|[_ Hi]].
    + rewrite lookup_insert_ne; [by eapply rw_fed_route|]. intros E.
      apply (rw_fed_route _ Hs) in Hi. cbn [fed fed_entry fi_global_id] in E.
      rewrite <-E, Hfresh in Hi. done.
    + apply list_lookup_singleton_Some in Hi as [_ <-]. by rewrite lookup_insert_eq.
  - intros i brk Hi. rewrite Eb in Hi. rewrite Et.
    rewrite lookup_insert_ne; [by eapply rw_broker_route|]. intros E.
    apply (rw_broker_route _ Hs) in Hi. cbn [fed fed_entry fi_global_id] in E.
    rewrite <-E, Hfresh in Hi. done.
  - intros id r. rewrite Et, Ee, Eb. intros [[<- <-]|[_ Hr]]%lookup_insert_Some.
    + left. exists (length (mv_elements (federates_ s))), fed. split; [|done].
      by rewrite lookup_app_r, Nat.sub_diag.
    + apply (rw_table _ Hs) in Hr as [(i & f & Hi & E)|?]; [|by right].
      left. exists i, f. split; [|done]. by apply lookup_app_l_Some.
Qed.

(** ** The registration of a broker *)

(** A broker that is not known yet comes over a route of its own. *)
Definition direct command : bool :=
  negb (fed_isValid (source_id command)) || (source_id command =? parent_broker_id).
Definition broker_route s command : route_id :=
  if direct command then routeCount s else getRoute s (source_id command).
Definition broker_entry s command : BasicBrokerInfo := {|
  bi_name := payload command; bi_global_id := broker_id_of (mv_size (brokers_ s));
  bi_route := broker_route s command;
  bi_parent := if direct command then global_broker_id_local (cb_base s)
               else source_id command;
  bi_state := cs_connected; bi_core := checkActionFlag command core_flag;
  bi_nonLocal := negb (direct command); bi_route_key := direct command;
  bi_sent_disconnect_ack := false;
  bi_disable_ping := checkActionFlag command slow_responding_flag |}.
Definition route_added s command : list broker_out :=
  if direct command
  then [AddRoute (routeCount s) (getExtraData command) (getString command targetStringLoc)]
  else [].

Definition broker_entered s command s' : Prop :=
  entered (payload command) (bi_global_id (broker_entry s command)) (brokers_ s)
    (broker_entry s command) (brokers_ s') ∧
  s' = s <| routeCount := if direct command then routeCount s + 1 else routeCount s |>
         <| brokers_ := brokers_ s' |>
         <| routing_table := map_emplace (bi_global_id (broker_entry s command))
              (broker_route s command) (routing_table s) |>.

Lemma assignBrokerId_spec s1 command c brk :
  named (payload command) c brk (brokers_ s1) →
  mv_index2 c (broker_id_of (mv_size c)) = None →
  Z.of_nat (S (mv_size c)) ≤ 2 ^ 31 - global_broker_id_shift →
  bi_disable_ping brk = false →
  let gid := broker_id_of (mv_size c) in
  etotal (assignBrokerId command) s1 (λ s' out _,
    entered (payload command) gid c
      (brk <| bi_global_id := gid |>
           <| bi_disable_ping := checkActionFlag command slow_responding_flag |>) (brokers_ s') ∧
    s' = s1 <| brokers_ := brokers_ s' |>
            <| routing_table := map_emplace gid (bi_route brk) (routing_table s1) |> ∧
    out = [Transmit (bi_route brk) (brokerReply s1 gid command)]).
Proof.
  intros Hnm Hid Hn Hping gid. unfold assignBrokerId. do 2 br_step.
  rewrite (named_size _ _ _ _ Hnm), (next_broker_id _ Hn). cbn [pred]. fold gid.
  set (c' := mv_addTerm gid (mv_size c)
    (mv_alter_back (λ brk, brk <| bi_global_id := gid |>) (brokers_ s1))).
  assert (entered (payload command) gid c (brk <| bi_global_id := gid |>) c') as Hen.
  { apply addTerm_entered; [|done].
    by apply (alter_named (λ brk, brk <| bi_global_id := gid |>)). }
  do 5 br_step. unfold eff_when. destruct (checkActionFlag command slow_responding_flag).
  - pose proof (alter_entered (λ brk, brk <| bi_disable_ping := true |>) _ _ _ _ _ Hen) as Hen'.
    do 2 br_step. unfold lastBroker. do 2 br_step.
    match goal with |- etotal (match last (mv_elements ?x) with _ => _ end) _ _ =>
      change x with (mv_alter_back (λ brk, brk <| bi_disable_ping := true |>) c') end.
    rewrite (entered_last _ _ _ _ _ Hen'). do 3 br_step. br_step. done.
  - do 2 br_step. unfold lastBroker. do 2 br_step.
    match goal with |- etotal (match last (mv_elements ?x) with _ => _ end) _ _ =>
      change x with c' end.
    rewrite (entered_last _ _ _ _ _ Hen). do 3 br_step. br_step.
    split; [|done]. destruct brk; cbn in *; by subst.
Qed.

Lemma enterBroker_root s command c :
  named (payload command) c (newBrokerInfo (payload command)) (brokers_ s) →
  mv_index2 c (broker_id_of (mv_size c)) = None →
  Z.of_nat (S (mv_size c)) ≤ 2 ^ 31 - global_broker_id_shift → isRootc s = true →
  let s0 := s <| brokers_ := c |> in
  etotal (enterBroker command) s (λ s' out _,
    broker_entered s0 command s' ∧
    out = route_added s0 command ++
          [Transmit (broker_route s0 command)
             (brokerReply s0 (broker_id_of (mv_size c)) command)]).
Proof.
  intros Hnm Hid Hn Hr s0. unfold enterBroker. do 2 br_step. fold (direct command). br_step.
  unfold broker_entered, broker_entry, broker_route, route_added.
  destruct (direct command) eqn:Hd; cbn [negb].
  - do 2 br_step. do 2 br_step. do 3 br_step. do 2 br_step. rewrite Hr. cbn [negb].
    eapply etotal_mono; [apply assignBrokerId_spec with (c := c)|].
    + exact (alter_named (λ brk, brk <| bi_core := checkActionFlag command core_flag |>) _ _ _ _
        (alter_named (λ brk, brk <| bi_parent := global_broker_id_local (cb_base s) |>
             <| bi_nonLocal := false |> <| bi_route_key := true |>) _ _ _ _
          (alter_named (λ brk, brk <| bi_route := routeCount s |>) _ _ _ _ Hnm))).
    + done.
    + done.
    + done.
    + cbn beta zeta. intros s' out _ (Hen & Hs' & ->). done.
  - br_step. do 2 br_step. rewrite Hr. cbn [negb].
    eapply etotal_mono; [apply assignBrokerId_spec with (c := c)|].
    + exact (alter_named (λ brk, brk <| bi_core := checkActionFlag command core_flag |>) _ _ _ _
        (alter_named (λ brk, brk <| bi_route := getRoute s (source_id command) |>
             <| bi_parent := source_id command |> <| bi_nonLocal := true |>) _ _ _ _ Hnm)).
    + done.
    + done.
    + done.
    + cbn beta zeta. intros s' out _ (Hen & Hs' & ->). done.
Qed.

Lemma broker_table_fresh s :
  registry_wf s → room 1 s → routing_table s !! broker_id_of (mv_size (brokers_ s)) = None.
Proof.
  intros Hs Hn. apply table_fresh; [done|..]; unfold broker_id_of.
  - intros i fed Hi. rewrite (vw_gid _ _ _ _ (rw_federates _ Hs) _ _ Hi).
    apply lookup_lt_Some in Hi. destruct Hn as [Hn _]. unfold mv_size in Hn.
    unfold global_federate_id_shift, global_broker_id_shift in *. lia.
  - intros i brk Hi. rewrite (vw_gid _ _ _ _ (rw_brokers _ Hs) _ _ Hi).
    apply lookup_lt_Some in Hi. unfold mv_size. lia.
Qed.

Lemma broker_entered_wf s command s' :
  registry_wf s → room 1 s → mv_index1 (brokers_ s) (payload command) = None →
  broker_entered s command s' → registry_wf s'.
Proof.
  intros Hs Hfits Hk [Hen Hs']. set (brk := broker_entry s command) in *.
  pose proof (broker_table_fresh s Hs Hfits) as Hfresh.
  assert (federates_ s' = federates_ s) as Ef by (by rewrite Hs').
  assert (routing_table s' = <[bi_global_id brk := bi_route brk]> (routing_table s)) as Et.
  { rewrite Hs'. by apply emplace_fresh. }
  pose proof (en_elements _ _ _ _ _ Hen) as Ee. split.
  - rewrite Ef. apply Hs.
  - by eapply vec_wf_entered; [apply Hs|exact Hk| | |exact Hen].
  - intros i fed Hi. rewrite Ef in Hi. rewrite Et.
    rewrite lookup_insert_ne; [by eapply rw_fed_route|]. intros E.
    apply (rw_fed_route _ Hs) in Hi. cbn [brk broker_entry bi_global_id] in E.
    rewrite <-E, Hfresh in Hi. done.
  - intros i b Hi. rewrite Et. rewrite Ee in Hi.
    apply lookup_app_Some in Hi as [Hi|[_ Hi]].
    + rewrite lookup_insert_ne; [by eapply rw_broker_route|]. intros E.
      apply (rw_broker_route _ Hs) in Hi. cbn [brk broker_entry bi_global_id] in E.
      rewrite <-E, Hfresh in Hi. done.
    + apply list_lookup_singleton_Some in Hi as [_ <-]. by rewrite lookup_insert_eq.
  - intros id r. rewrite Et, Ee, Ef. intros [[<- <-]|[_ Hr]]%lookup_insert_Some.
    + right. exists (length (mv_elements (brokers_ s))), brk. split; [|done].
      by rewrite lookup_app_r, Nat.sub_diag.
    + apply (rw_table _ Hs) in Hr as [?|(i & b & Hi & E)]; [by left|].
      right. exists i, b. split; [|done]. by apply lookup_app_l_Some.
Qed.

(** A new broker at the root. *)
Lemma registerBroker_root s command :
  registry_wf s → connectionEstablished s = true → isRootc s = true →
  brokerState (cb_base s) ≠ bs_operating → mv_index1 (brokers_ s) (payload command) = None →
  verifyBrokerKey s command = true →
  Z.of_nat (S (mv_size (brokers_ s))) ≤ 2 ^ 31 - global_broker_id_shift →
  etotal (registerBroker command) s (λ s' out _,
    broker_entered s command s' ∧
    out = notReady s ++ route_added s command ++
          [Transmit (broker_route s command)
             (brokerReply s (broker_id_of (mv_size (brokers_ s))) command)]).
Proof.
  intros Hs Hc Hr Hst Hk Hkey Hn. unfold registerBroker. do 2 br_step. rewrite Hc, Hk, Hkey.
  cbn [negb]. destruct (0 <? counter command).
  all: rewrite bool_decide_false by done; br_step; apply noLongerReady_spec.
  all: pose proof (insert1_named _ (newBrokerInfo (payload command)) _ Hk) as Hnm.
  all: pose proof (mv_insert1_ok _ _ _ (newBrokerInfo (payload command)) Hk) as Hok.
  all: destruct (mv_insert1 _ _ _) as [brks ins]; cbn [fst snd] in Hnm, Hok; subst ins.
  all: do 2 br_step; cbn [negb].
  all: eapply etotal_mono; [apply enterBroker_root with (c := brokers_ s)|].
  all: try done; try apply (vec_wf_fresh_id _ _ _ _ (rw_brokers _ Hs)).
  all: cbn beta zeta; intros s' out _ [Hen ->]; split; [|done]; by destruct s.
Qed.

(** ** Refusals and repetitions *)

Abbreviation fr := (framed (same_registry (C:=C)) (sends (λ _, True))).

Lemma fr_any_transmit rid m : fr (transmit rid m).
Proof. by apply fr_transmit. Qed.
Lemma fr_addRoute rid i info : fr (addRoute rid i info).
Proof. by apply fr_emit. Qed.
Lemma fr_newRoute : fr newRoute.
Proof. unfold newRoute. frame. apply framed_modify. intros s. by split. Qed.
Hint Resolve fr_any_transmit fr_addRoute fr_newRoute : frame.

Lemma fr_refuseFederate code command : fr (refuseFederate code command).
Proof. unfold refuseFederate. frame. Qed.
Lemma fr_refuseBroker answer command : fr (refuseBroker answer command).
Proof. unfold refuseBroker. frame. Qed.
Lemma fr_noLongerReady : fr noLongerReady.
Proof. unfold noLongerReady. frame. Qed.
Hint Resolve fr_refuseFederate fr_refuseBroker fr_noLongerReady : frame.

(** The commands that are kept until the connection is there. *)
Definition is_early command : Prop :=
  action command = cmd_reg_fed ∨ action command = cmd_reg_broker ∨
  action command = cmd_broker_query.

(** What a registration does to the registry of the root. *)
Record registered s s' : Prop := {
  rg_wf : registry_wf s';
  rg_early : Forall is_early (earlyMessages s) → Forall is_early (earlyMessages s');
  rg_higher : higher_broker_id (cb_base s') = higher_broker_id (cb_base s);
  rg_isRoot : isRoot s' = isRoot s;
  rg_isRootc : isRootc s' = isRootc s;
  rg_connected : connectionEstablished s' = connectionEstablished s;
  rg_size : (mv_size (federates_ s') ≤ S (mv_size (federates_ s)))%nat ∧
            (mv_size (brokers_ s') ≤ S (mv_size (brokers_ s)))%nat;
}.

Lemma same_registered s s' : registry_wf s → same_registry s s' → registered s s'.
Proof.
  intros Hs Hsame. pose proof Hsame as [Hr Hrc Hc _ Hh _ He Hf Hb]. split; [| |done..|].
  - by eapply registry_wf_same.
  - by rewrite He.
  - rewrite (same_vec_size _ _ _ Hf), (same_vec_size _ _ _ Hb). lia.
Qed.
Lemma federate_registered s command s' :
  registry_wf s → room 1 s → mv_index1 (federates_ s) (payload command) = None →
  federate_entered s command s' → registered s s'.
Proof.
  intros Hs Hn Hk Hen. split; [by eapply federate_entered_wf|..]; destruct Hen as [Hen Hs'].
  1-5: by rewrite Hs'.
  rewrite Hs'. cbn [federates_ brokers_ upd]. unfold mv_size.
  rewrite (en_elements _ _ _ _ _ Hen), length_app. cbn. lia.
Qed.
Lemma broker_registered s command s' :
  registry_wf s → room 1 s → mv_index1 (brokers_ s) (payload command) = None →
  broker_entered s command s' → registered s s'.
Proof.
  intros Hs Hn Hk Hen. split; [by eapply broker_entered_wf|..]; destruct Hen as [Hen Hs'].
  1-5: by rewrite Hs'.
  rewrite Hs'. cbn [federates_ brokers_ upd]. unfold mv_size.
  rewrite (en_elements _ _ _ _ _ Hen), length_app. cbn. lia.
Qed.

(** A broker that registers again gets a new route, in its entry and in the table. *)
Lemma rerouted_wf s s' ii brk route :
  registry_wf s → room 1 s → mv_elements (brokers_ s) !! ii = Some brk →
  federates_ s' = federates_ s →
  brokers_ s' = mv_alter (λ brk, brk <| bi_route := route |>) ii (brokers_ s) →
  routing_table s' = <[bi_global_id brk := route]> (routing_table s) →
  registry_wf s'.
Proof.
  intros Hs Hn Hbrk Ef Eb Et. pose proof Hs as [Wf Wb Rf Rb Rt].
  assert (∀ j b', mv_elements (brokers_ s') !! j = Some b' → ∃ b,
    mv_elements (brokers_ s) !! j = Some b ∧
    b' = if decide (j = ii) then b <| bi_route := route |> else b) as Hlook.
  { intros j b'. rewrite Eb, mv_alter_elements. case_decide as Hd.
    - subst j. rewrite list_lookup_alter_eq, Hbrk. intros [= <-]. eauto.
    - rewrite list_lookup_alter_ne by done. eauto. }
  split.
  - by rewrite Ef.
  - eapply (vec_wf_same (λ b, (bi_name b, bi_global_id b))); [by intros u v [=]| |exact Wb].
    rewrite Eb. by apply same_vec_alter.
  - intros i fed. rewrite Ef, Et. intros Hi. rewrite lookup_insert_ne; [eauto|].
    intros E. by apply (fed_ne_broker s i fed ii brk).
  - intros j b' (b & Hb & ->)%Hlook. rewrite Et. case_decide as Hd; cbn.
    + subst j. rewrite Hb in Hbrk. injection Hbrk as ->. by rewrite lookup_insert_eq.
    + rewrite lookup_insert_ne; [eauto|]. intros E. apply Hd.
      symmetry in E. by eapply vec_wf_gid_inj.
  - intros id r. rewrite Et, Ef. intros Hr.
    assert ((∃ i fed, mv_elements (federates_ s) !! i = Some fed ∧ fi_global_id fed = id) ∨
            (∃ i b, mv_elements (brokers_ s) !! i = Some b ∧ bi_global_id b = id)) as [?|Hb].
    { apply lookup_insert_Some in Hr as [[<- _]|[_ Hr]]; [right; eauto|eauto]. }
    + by left.
    + right. destruct Hb as (i & b & Hi & <-). rewrite Eb, mv_alter_elements.
      destruct (decide (i = ii)) as [->|Hd].
      * exists ii, (b <| bi_route := route |>). by rewrite list_lookup_alter_eq, Hi.
      * exists i, b. by rewrite list_lookup_alter_ne.
Qed.

Lemma registerAgain_registered s ii command :
  registry_wf s → room 1 s → (ii < mv_size (brokers_ s))%nat →
  ewp (registerAgain ii command) s (λ s' _ _, registered s s').
Proof.
  intros Hs Hn Hii. apply lookup_lt_is_Some in Hii as [brk Hbrk].
  unfold registerAgain, newRoute, alter_broker, upd_brokers, addRoute, brokerAt, transmit.
  repeat ewp_step.
  match goal with |- ewp (match mv_elements ?x !! _ with _ => _ end) _ _ =>
    change x with (mv_alter (λ brk, brk <| bi_route := routeCount s |>) ii (brokers_ s)) end.
  rewrite mv_alter_elements, list_lookup_alter_eq, Hbrk.
  cbn [fmap option_fmap option_map]. repeat ewp_step.
  split; [by eapply (rerouted_wf s _ ii brk (routeCount s))|done..|].
  unfold mv_size. cbn [federates_ brokers_ upd]. rewrite mv_alter_elements, length_alter. lia.
Qed.

(** ** Every registration keeps the invariant *)

Lemma fr_registered {A} (m : effM CB broker_out A) s :
  registry_wf s → fr m → ewp m s (λ s' _ _, registered s s').
Proof.
  intros Hs Hm. eapply ewp_mono; [apply Hm|]. intros s' out a [Hsame _].
  by apply same_registered.
Qed.

(** A message that is kept for later. *)
Lemma early_registered s command :
  registry_wf s → is_early command →
  ewp (eff_modify (λ s, s <| earlyMessages := earlyMessages s ++ [copyConstruct command] |>)
       : effM CB broker_out unit) s (λ s' _ _, registered s s').
Proof.
  intros [Wf Wb Rf Rb Rt] He. apply ewp_modify. split; [by split| |done..|].
  - intros Hall. apply Forall_app. split; [done|]. by constructor.
  - cbn. lia.
Qed.

Lemma registerFederate_registered s command :
  registry_wf s → room 1 s → isRootc s = true → action command = cmd_reg_fed →
  ewp (registerFederate command) s (λ s' _ _, registered s s').
Proof.
  intros Hs Hroom Hr Ha. pose proof Hroom as [Hn _].
  destruct (connectionEstablished s) eqn:Hc.
  2: { unfold registerFederate. do 2 ewp_step. rewrite Hc. apply early_registered; [done|].
       unfold is_early. tauto. }
  destruct (decide (brokerState (cb_base s) = bs_operating)) as [Ho|Ho].
  { unfold registerFederate. do 2 ewp_step. rewrite Hc, bool_decide_true by done.
    apply fr_registered; [done|]. apply fr_refuseFederate. }
  destruct (mv_index1 (federates_ s) (payload command)) as [i|] eqn:Hk.
  { unfold registerFederate. do 2 ewp_step. rewrite Hc, bool_decide_false by done. rewrite Hk.
    cbn [negb]. apply fr_registered; [done|]. frame. }
  eapply etotal_weaken; [by apply registerFederate_root|]. intros s' out _ [Hen _].
  by eapply federate_registered.
Qed.

Lemma registerBroker_registered s command :
  registry_wf s → room 1 s → isRootc s = true → action command = cmd_reg_broker →
  ewp (registerBroker command) s (λ s' _ _, registered s s').
Proof.
  intros Hs Hroom Hr Ha. pose proof Hroom as [_ Hn].
  destruct (connectionEstablished s) eqn:Hc.
  2: { unfold registerBroker. do 2 ewp_step. rewrite Hc. apply early_registered; [done|].
       unfold is_early. tauto. }
  destruct (mv_index1 (brokers_ s) (payload command)) as [i|] eqn:Hk.
  { unfold registerBroker. do 2 ewp_step. rewrite Hc, Hk. cbn [negb].
    destruct (0 <? counter command).
    { apply registerAgain_registered; [done..|]. by eapply mv_index1_lt. }
    rewrite (mv_insert1_dup _ _ _ _ _ Hk).
    case_bool_decide; [apply fr_registered; [done|]; frame|].
    ewp_step. apply etotal_partial, noLongerReady_spec.
    destruct (verifyBrokerKey s command); cbn [negb].
    - ewp_step. apply ewp_modify. replace (s <| brokers_ := brokers_ s |>) with s by by destruct s.
      apply fr_registered; [done|frame].
    - apply fr_registered; [done|]. frame. }
  destruct (decide (brokerState (cb_base s) = bs_operating)) as [Ho|Ho].
  { unfold registerBroker. do 2 ewp_step. rewrite Hc, Hk. cbn [negb].
    destruct (0 <? counter command); rewrite bool_decide_true by done;
      (apply fr_registered; [done|]; frame). }
  destruct (verifyBrokerKey s command) eqn:Hkey.
  - eapply etotal_weaken; [by apply registerBroker_root|]. intros s' out _ [Hen _].
    by eapply broker_registered.
  - unfold registerBroker. do 2 ewp_step. rewrite Hc, Hk, Hkey. cbn [negb].
    destruct (0 <? counter command); rewrite bool_decide_false by done;
      (apply fr_registered; [done|]; frame).
Qed.

(** ** The commands of the root broker *)

Lemma fr_any_route m : fr (routeMessage m).
Proof. by apply fr_routeMessage. Qed.
Lemma fr_any_routed m : fr (transmitRouted m).
Proof. by apply fr_transmitRouted. Qed.
Lemma fr_any_command m : fr (processCommand le m).
Proof. by apply fr_processCommand. Qed.
Hint Resolve fr_any_route fr_any_routed : frame.

Lemma fr_queries m : fr (processQuery m).
Proof. unfold processQuery, queryOther, answerQuery. frame. Qed.
Lemma fr_queryResponse m : fr (processQueryResponse m).
Proof. unfold processQueryResponse. frame. Qed.
Lemma fr_priorityDisconnect m : fr (priorityDisconnect m).
Proof. unfold priorityDisconnect. frame. Qed.
Lemma fr_any_pingAnswer m : fr (pingAnswer m).
Proof. by apply fr_pingAnswer. Qed.
Hint Resolve fr_queries fr_queryResponse fr_priorityDisconnect fr_any_pingAnswer : frame.

(** Acknowledgments go down the tree, the root gets none. *)
Definition is_ack command : Prop :=
  action command = cmd_fed_ack ∨ action command = cmd_broker_ack.

Lemma priorityCase_registered s command :
  registry_wf s → room 1 s → isRootc s = true → ¬ is_ack command →
  ewp (processPriorityCase command) s (λ s' _ _, registered s s').
Proof.
  intros Hs Hroom Hr Hack. unfold processPriorityCase. do 2 ewp_step.
  destruct (action command) eqn:Ha; try (by destruct Hack; unfold is_ack; rewrite Ha; auto);
    try (apply fr_registered; [done|]; frame; fail).
  - by apply registerFederate_registered.
  - rewrite Hr. apply fr_registered; [done|]. apply framed_modify. by split.
  - destruct (connectionEstablished s); cbn [negb].
    + apply fr_registered; [done|]. frame.
    + apply early_registered; [done|]. unfold is_early. tauto.
  - by apply registerBroker_registered.
Qed.

Lemma room_registered n s s' : room (S n) s → registered s s' → room n s'.
Proof. intros Hn [_ _ _ _ _ _ Hsize]. unfold room in *. lia. Qed.

(** The invariant of the root. *)
Record root_inv s : Prop := {
  ri_wf : registry_wf s;
  ri_early : Forall is_early (earlyMessages s);
  ri_isRoot : isRoot s = true;
  ri_isRootc : isRootc s = true;
  ri_higher : higher_broker_id (cb_base s) = 0;
  ri_room : room 0 s;
}.
Lemma registered_inv s s' : root_inv s → room 1 s → registered s s' → root_inv s'.
Proof.
  intros [] Hn Hreg. pose proof (room_registered _ _ _ Hn Hreg). destruct Hreg.
  split; try congruence; auto.
Qed.
Lemma same_inv s s' : root_inv s → same_registry s s' → root_inv s'.
Proof.
  intros Hs Hsame. pose proof (same_registered _ _ (ri_wf _ Hs) Hsame) as [].
  destruct Hs as [_ He Hr Hrc Hh Hn]. split; try congruence; auto.
  destruct Hsame as [_ _ _ _ _ _ _ Hf Hb]. unfold room.
  by rewrite (same_vec_size _ _ _ Hf), (same_vec_size _ _ _ Hb).
Qed.

Lemma early_loop l s :
  root_inv s → room (length l) s → Forall is_early l →
  ewp (eff_each (processEarly le) l) s (λ s' _ _, root_inv s').
Proof.
  revert s. induction l as [|m l IH]; intros s Hs Hn Hl; cbn [eff_each]; [by ewp_step|].
  apply Forall_cons in Hl as [Hm Hl]. ewp_step.
  assert (ewp (processEarly le m) s (λ s' _ _, registered s s')) as Hstep.
  { unfold processEarly. rewrite bool_decide_false by (destruct Hm as [|[]]; congruence).
    case_match; [|apply fr_registered; [apply Hs|apply fr_any_command]].
    apply priorityCase_registered; [apply Hs| |apply Hs|].
    - unfold room in *. cbn in Hn. lia.
    - unfold is_ack. destruct Hm as [|[]]; intros []; congruence. }
  eapply ewp_mono; [exact Hstep|]. intros s1 out1 a1 Hs1.
  apply IH; [|by eapply room_registered|done].
  eapply registered_inv; [done| |done]. unfold room in *. cbn in Hn. lia.
Qed.

Lemma brokerSetup_inv s :
  root_inv s → room (length (earlyMessages s)) s →
  ewp (brokerSetup le) s (λ s' _ _, root_inv s').
Proof.
  intros [Wf He Hr Hrc Hh Hz] Hn. unfold brokerSetup. ewp_step. ewp_step. do 2 ewp_step. ewp_step.
  eapply ewp_mono; [apply early_loop; [|exact Hn|exact He]|].
  - destruct Wf. by split; [split|..].
  - intros s' out _ [[] ?]. ewp_step. by split; [split|..].
Qed.

(** What happens to a root broker: it starts with an empty registry, and connects and
    processes messages as long as there are identifiers left. *)
Inductive root_reach : CB → Prop :=
  | rr_start s :
      federates_ s = mv_new → brokers_ s = mv_new → routing_table s = ∅ →
      earlyMessages s = [] → isRoot s = true → isRootc s = true →
      higher_broker_id (cb_base s) = 0 → root_reach s
  | rr_priority s command s' out :
      root_reach s → room (S (length (earlyMessages s))) s → ¬ is_ack command →
      processPriorityCommand le command s = Some (Ok (s', out, tt)) → root_reach s'
  | rr_command s command s' out :
      root_reach s → processCommand le command s = Some (Ok (s', out, tt)) → root_reach s'
  | rr_connect s res address s' out r :
      root_reach s → connect res address s = Some (Ok (s', out, r)) → root_reach s'.

Lemma fr_connect res address : fr (connect res address).
Proof. unfold connect. frame. Qed.

Lemma root_reach_inv s : root_reach s → root_inv s.
Proof.
  induction 1 as [s Ef Eb Et Ee Hr Hrc Hh|s command s' out _ IH Hn Hack E
                 |s command s' out _ IH E|s res address s' out r _ IH E].
  - split; [|by rewrite Ee|done..|].
    2: { unfold room, mv_size. rewrite Ef, Eb, !mv_new_elements. done. }
    split.
    + rewrite Ef. apply vec_wf_new.
    + rewrite Eb. apply vec_wf_new.
    + intros i fed. by rewrite Ef, mv_new_elements.
    + intros i brk. by rewrite Eb, mv_new_elements.
    + intros id r. by rewrite Et, lookup_empty.
  - unfold processPriorityCommand in E.
    assert (ewp (processPriorityCase command) s (λ s' _ _, registered s s')) as Hstep.
    { apply priorityCase_registered; [apply IH| |apply IH|done]. unfold room in *. lia. }
    assert (room 1 s) as Hn1 by (unfold room in *; lia).
    destruct (action command); try (by eapply registered_inv, Hstep).
    eapply (brokerSetup_inv s); [done| |done]. unfold room in *. lia.
  - eapply same_inv; [done|]. by apply (fr_any_command command s) in E as [? _].
  - eapply same_inv; [done|]. by apply (fr_connect res address s) in E as [? _].
Qed.

Lemma priority_reg_fed s command :
  action command = cmd_reg_fed →
  processPriorityCommand le command s = registerFederate command s.
Proof.
  intros Ha. unfold processPriorityCommand, processPriorityCase. rewrite Ha.
  apply (eff_get_bind (λ _, registerFederate command)).
Qed.
Lemma priority_reg_broker s command :
  action command = cmd_reg_broker →
  processPriorityCommand le command s = registerBroker command s.
Proof.
  intros Ha. unfold processPriorityCommand, processPriorityCase. rewrite Ha.
  apply (eff_get_bind (λ _, registerBroker command)).
Qed.

(** ** What the invariant says *)

Lemma registry_find_federate s i fed :
  root_inv s → mv_elements (federates_ s) !! i = Some fed →
  fi_global_id fed = fed_id_of i ∧ mv_find1 (federates_ s) (fi_name fed) = Some (i, fed) ∧
  mv_find2 (federates_ s) (fi_global_id fed) = Some (i, fed) ∧
  getRoute s (fi_global_id fed) = fi_route fed.
Proof.
  intros [Wf _ _ _ Hh _] Hi. pose proof (rw_federates _ Wf) as W.
  pose proof (vw_gid _ _ _ _ W _ _ Hi) as Hg. split; [done|].
  rewrite mv_find1_Some, mv_find2_Some.
  split; [split; [by apply (vw_name _ _ _ _ W)|done]|].
  split; [split; [by apply (vw_id _ _ _ _ W)|done]|].
  unfold getRoute. rewrite (rw_fed_route _ Wf _ _ Hi), Hh, orb_diag.
  rewrite (proj2 (Z.eqb_neq _ _)); [done|]. rewrite Hg.
  unfold global_federate_id_shift, parent_broker_id. lia.
Qed.

Lemma registry_find_broker s i brk :
  root_inv s → mv_elements (brokers_ s) !! i = Some brk →
  bi_global_id brk = broker_id_of i ∧ mv_find1 (brokers_ s) (bi_name brk) = Some (i, brk) ∧
  getBrokerById s (bi_global_id brk) = Some i ∧ getRoute s (bi_global_id brk) = bi_route brk.
Proof.
  intros [Wf _ _ Hrc Hh [_ Hn]] Hi. pose proof (rw_brokers _ Wf) as W.
  pose proof (vw_gid _ _ _ _ W _ _ Hi) as Hg. split; [done|]. rewrite mv_find1_Some.
  split; [split; [by apply (vw_name _ _ _ _ W)|done]|]. split.
  - unfold getBrokerById. rewrite Hrc, Hg. unfold broker_localIndex.
    pose proof (lookup_lt_Some _ _ _ Hi) as Hlt. unfold mv_size in Hn.
    replace (global_broker_id_shift + Z.of_nat i - global_broker_id_shift) with (Z.of_nat i)
      by lia.
    rewrite small_sint by (unfold global_broker_id_shift in *; lia). unfold isValidIndex.
    rewrite (proj2 (Z.leb_le _ _)), (proj2 (Z.ltb_lt _ _)) by lia. by rewrite Nat2Z.id.
  - unfold getRoute. rewrite (rw_broker_route _ Wf _ _ Hi), Hh, orb_diag.
    rewrite (proj2 (Z.eqb_neq _ _)); [done|]. rewrite Hg.
    unfold global_broker_id_shift, parent_broker_id. lia.
Qed.

(** C24. After any sequence of messages that a root broker has processed (acknowledgments
    excepted, which it never gets, and as long as identifiers are left) every federate
    and broker it knows has the identifier of its position, is found under its name and
    its identifier, and messages for it go over the route it registered on. *)
Theorem root_registry s :
  root_reach s →
  (∀ i fed, mv_elements (federates_ s) !! i = Some fed →
     fi_global_id fed = fed_id_of i ∧ mv_find1 (federates_ s) (fi_name fed) = Some (i, fed) ∧
     mv_find2 (federates_ s) (fi_global_id fed) = Some (i, fed) ∧
     getRoute s (fi_global_id fed) = fi_route fed) ∧
  (∀ i brk, mv_elements (brokers_ s) !! i = Some brk →
     bi_global_id brk = broker_id_of i ∧ mv_find1 (brokers_ s) (bi_name brk) = Some (i, brk) ∧
     getBrokerById s (bi_global_id brk) = Some i ∧
     getRoute s (bi_global_id brk) = bi_route brk).
Proof.
  intros Hs%root_reach_inv. split.
  - intros i fed. by apply registry_find_federate.
  - intros i brk. by apply registry_find_broker.
Qed.

(** The registration of a federate at the root, with the routes it leaves. *)
Lemma root_registers_federate s command :
  root_inv s → room 1 s → connectionEstablished s = true →
  brokerState (cb_base s) ≠ bs_operating → action command = cmd_reg_fed →
  mv_find1 (federates_ s) (payload command) = None →
  let gid := fed_id_of (mv_size (federates_ s)) in
  ∃ s', processPriorityCommand le command s =
          Some (Ok (s', notReady s ++ [Transmit (getRoute s (source_id command))
                                         (fed_reply s command)], tt)) ∧
    federate_entered s command s' ∧
    getRoute s' gid = getRoute s (source_id command) ∧
    (∀ id, id ≠ gid → getRoute s' id = getRoute s id).
Proof.
  intros [Wf _ _ Hrc Hh _] Hn Hc Ho Ha Hk gid. rewrite mv_find1_None in Hk.
  destruct (registerFederate_root s command) as (s' & out & [] & E & [Hen Hs'] & ->);
    [done..|apply Hn|].
  exists s'. pose proof (fed_table_fresh s Wf (proj1 Hn)) as Hfresh.
  split; [by rewrite priority_reg_fed|]. split; [done|].
  assert (∀ id, getRoute s' id = if (id =? 0) then 0 else
    match (<[gid := getRoute s (source_id command)]> (routing_table s)) !! id with
    | Some r => r | None => 0 end) as Hroute.
  { intros id. rewrite Hs'. unfold getRoute at 1. cbn [cb_base routing_table upd].
    rewrite Hh, orb_diag. rewrite emplace_fresh by done. done. }
  split.
  - rewrite Hroute, lookup_insert_eq, (proj2 (Z.eqb_neq _ _)); [done|].
    unfold gid, fed_id_of, global_federate_id_shift. lia.
  - intros id Hid. rewrite Hroute, lookup_insert_ne by done. unfold getRoute.
    by rewrite Hh, orb_diag.
Qed.

(** A federate that registers when the federation is operating, or under a name that
    is taken, is refused: the answer has the error flag and the broker does not
    change. *)
Theorem federate_refused s command :
  connectionEstablished s = true → action command = cmd_reg_fed →
  brokerState (cb_base s) = bs_operating ∨ mv_find1 (federates_ s) (payload command) ≠ None →
  ∃ out answer, processPriorityCommand le command s =
      Some (Ok (s, out ++ [Transmit (getRoute s (source_id command)) answer], tt)) ∧
    action answer = cmd_fed_ack ∧ checkActionFlag answer error_flag = true ∧
    payload answer = payload command ∧
    (out = [] ∨ out = notReady s).
Proof.
  intros Hc Ha Hwhy. rewrite priority_reg_fed by done. unfold registerFederate.
  rewrite eff_get_bind, Hc. cbn [negb].
  case_bool_decide as Ho.
  - exists []. eexists. split; [reflexivity|]. cbn. auto.
  - destruct Hwhy as [?|Hk]; [done|]. rewrite mv_find1_None in Hk.
    destruct (noLongerReady_spec s (λ s' out _, s' = s ∧ out = notReady s))
      as (s1 & out & [] & E & -> & ->); [done|].
    exists (notReady s). destruct (mv_index1 (federates_ s) (payload command)); [|done].
    unfold mbind, effM_bind. rewrite E. cbn. eexists. split; [reflexivity|]. auto.
Qed.
End invariant.
