(* ===== verification/BrokerInit.v ===== *)
(** * Entering initialization

    The root broker grants initialization when every core and broker below it has asked
    for it; a grant goes to each of them.  The theorems say when a grant is sent, and that
    it is sent. *)

From stdpp Require Import strings.
From S2P Require Import Prelude HelicsTime Ids Flags ActionMessage MessageCodec.
From S2P Require Import Definitions TimeDependencies TimeCoordinator.
From S2P Require Import ForwardingTimeCoordinator HandleManager UnknownHandles.
From S2P Require Import Effects MappedVector BrokerBase BrokerState CoreBroker BrokerFrame.
From S2P Require Import BrokerRegistry.

Section init.
  Context `{TimeRep} `{SteadyClock} `{TimeMs} `{Fmt} `{MappedVectorLaws C} `{BrokerText}.
  Context (le : bool).
  Abbreviation CB := (CoreBroker C).
  Abbreviation M := (effM CB broker_out).
  Implicit Types (s : CB) (command m : ActionMessage).

(** ** Readiness *)

(** The brokers and cores directly below. *)
Definition locals s : list BasicBrokerInfo :=
  base.filter (λ brk, bi_nonLocal brk = false) (mv_elements (brokers_ s)).

Lemma cs_lt_code a b : cs_lt a b = true ↔ connection_state_code a < connection_state_code b.
Proof. apply Z.ltb_lt. Qed.

Lemma connectionStep_fold l cnt res :
  let r := foldl connectionStep (cnt, res) l in
  let l' := base.filter (λ brk, bi_nonLocal brk = false) l in
  r.1 = cnt + Z.of_nat (length l') ∧
  ∀ st, cs_lt r.2 st = false ↔
    cs_lt res st = false ∧ Forall (λ brk, cs_lt (bi_state brk) st = false) l'.
Proof.
  revert cnt res. induction l as [|brk l IH]; intros cnt res; cbn [foldl].
  { cbn. split; [lia|]. intros st. rewrite Forall_nil. tauto. }
  unfold connectionStep at 2 4. cbn [fst snd].
  destruct (bi_nonLocal brk) eqn:E.
  - rewrite filter_cons_False by congruence. apply IH.
  - rewrite filter_cons_True by done. specialize (IH (cnt + 1)
      (if cs_lt (bi_state brk) res then bi_state brk else res)) as [IH1 IH2].
    split; [rewrite IH1; cbn [length]; lia|]. intros st. rewrite IH2, Forall_cons.
    unfold cs_lt in *. destruct (_ <? _) eqn:Hlt; rewrite ?Z.ltb_lt, ?Z.ltb_ge in *;
      intuition lia.
Qed.

Lemma getAllConnectionState_spec s st :
  cs_lt (getAllConnectionState s) st = false ↔
    if decide (locals s = []) then cs_lt cs_connected st = false
    else Forall (λ brk, cs_lt (bi_state brk) st = false) (locals s).
Proof.
  unfold getAllConnectionState, locals.
  pose proof (connectionStep_fold (mv_elements (brokers_ s)) 0 cs_disconnected) as [Hcnt Hres].
  destruct (foldl _ _ _) as [cnt res]. cbn [fst snd] in *. subst cnt.
  case_decide as Hd; [by rewrite Hd|]. rewrite (proj2 (Z.ltb_lt _ _)).
  - rewrite Hres. split; [by intros []|]. intros HF. split; [by destruct st|done].
  - destruct (base.filter _ _); [done|]. cbn [length]. lia.
Qed.

(** What [allInitReady] says. *)
Definition init_ready s : Prop :=
  minFederateCount (cb_base s) ≤ to_sint 32 (Z.of_nat (mv_size (federates_ s))) ∧
  minBrokerCount (cb_base s) ≤ to_sint 32 (Z.of_nat (mv_size (brokers_ s))) ∧
  locals s ≠ [] ∧ Forall (λ brk, bi_state brk ≠ cs_connected) (locals s).

Lemma allInitReady_iff s : allInitReady s = true ↔ init_ready s.
Proof.
  unfold allInitReady, init_ready. destruct (Z.ltb_spec
    (to_sint 32 (Z.of_nat (mv_size (federates_ s)))) (minFederateCount (cb_base s))); [lia|].
  destruct (Z.ltb_spec
    (to_sint 32 (Z.of_nat (mv_size (brokers_ s)))) (minBrokerCount (cb_base s))); [lia|].
  rewrite negb_true_iff, getAllConnectionState_spec. case_decide as Hd.
  - split; [done|]. intros (_ & _ & ? & _). done.
  - split.
    + intros HF. split; [done|]. split; [done|]. split; [done|].
      eapply Forall_impl; [exact HF|]. cbn. intros brk Hlt E. by rewrite E in Hlt.
    + intros (_ & _ & _ & HF). eapply Forall_impl; [exact HF|]. cbn. intros brk Hne.
      by destruct (bi_state brk).
Qed.

(** ** When a grant is sent *)

(** The broker after the sender of a [CMD_INIT] was marked. *)
Definition init_marked s command : CB :=
  match getBrokerById s (source_id command) with
  | Some ii => s <| brokers_ := mv_alter (λ brk, brk <| bi_state := cs_init_requested |>) ii
                                  (brokers_ s) |>
  | None => s
  end.

Definition no_grant (a : action_t) : Prop := a ≠ cmd_init_grant.

Lemma sends_no_grant (outs : list broker_out) rid m :
  Forall (sends no_grant) outs → Transmit rid m ∈ outs → action m ≠ cmd_init_grant.
Proof. rewrite Forall_forall. intros Hall Hin. apply (Hall _ Hin). Qed.

(** The condition on the interfaces that are still unknown. *)
Definition required_missing s : bool :=
  let u := unknownHandles s in
  hasUnknowns u && hasNonOptionalUnknowns u && hasRequiredUnknowns u.

(** Operations that change nothing but the time coordinator. *)
Definition only_coord s s' : Prop :=
  ∃ tc, s' = s <| cb_base := (cb_base s) <| timeCoord := tc |> |>.
Instance only_coord_preorder : PreOrder only_coord.
Proof.
  split.
  - intros s. exists (timeCoord (cb_base s)). by destruct s as [[]].
  - intros s1 s2 s3 [tc1 ->] [tc2 ->]. by exists tc2.
Qed.
Abbreviation oc := (framed only_coord (λ _ : broker_out, True)).
Lemma oc_emit out : oc (eff_emit out : M unit).
Proof. apply framed_emit; [apply _|done]. Qed.
Lemma oc_routeMessage m : oc (routeMessage m).
Proof.
  apply framed_bind; [apply _|apply framed_get, _|]. intros s. case_match; apply oc_emit.
Qed.
Lemma oc_routeMessageTo m dest : oc (routeMessageTo m dest).
Proof. unfold routeMessageTo. case_match; [apply framed_ret, _|apply oc_routeMessage]. Qed.
Lemma oc_get_base : oc get_base.
Proof. apply framed_bind; [apply _|apply framed_get, _|]. intros s. apply framed_ret, _. Qed.
Lemma oc_coord {A} (f : ForwardingTimeCoordinator →
    outcome (ForwardingTimeCoordinator * list ActionMessage * A)) : oc (coord f).
Proof.
  apply framed_bind; [apply _|apply oc_get_base|]. intros b.
  apply framed_bind; [apply _|apply framed_lift, _|]. intros [[tc msgs] a].
  apply framed_bind; [apply _|apply framed_modify; intros s; by exists tc|]. intros _.
  apply framed_bind; [apply _| |intros _; apply framed_ret, _].
  apply framed_each; [apply _|]. intros m _. apply oc_emit.
Qed.
Hint Resolve oc_emit oc_routeMessage oc_routeMessageTo oc_get_base oc_coord : frame.

Lemma oc_checkDependencies : oc checkDependencies.
Proof.
  unfold checkDependencies, delayedDependency, leaveChainRoot, leaveChain, coord_pure. frame.
Qed.

(** They all return. *)
Lemma always_routeMessage m : always (routeMessage m : M unit).
Proof. unfold routeMessage, transmit. repeat always_step. Qed.
Lemma always_routeMessageTo m dest : always (routeMessageTo m dest : M unit).
Proof.
  unfold routeMessageTo. case_match; [apply always_ret|apply always_routeMessage].
Qed.
Lemma always_coord {A} (f : ForwardingTimeCoordinator →
    ForwardingTimeCoordinator * list ActionMessage * A) :
  always (coord (λ tc, Ok (f tc)) : M A).
Proof.
  unfold coord, get_base, upd_base, addActionMessage. repeat always_step.
  intros s. destruct (f (timeCoord a)) as [[tc msgs] x] eqn:E. by exists s, [], (tc, msgs, x).
Qed.
Lemma always_checkDependencies : always (checkDependencies : M unit).
Proof.
  unfold checkDependencies, delayedDependency, leaveChainRoot, leaveChain, coord_pure, get_base.
  repeat (always_step || apply always_routeMessage || apply always_routeMessageTo
          || apply (always_coord (λ tc, (_, [], tt)))).
Qed.

(** ** The request for initialization *)

Lemma processCommand_init s command :
  action command = cmd_init → processCommand le command s = processInit le command s.
Proof.
  intros Ha. unfold processCommand. rewrite eff_get_bind. by rewrite Ha.
Qed.

Lemma processInit_eq s command :
  let s1 := init_marked s command in
  processInit le command s =
    (if allInitReady s1 then
       if isRootc s1 then executeInitializationOperations le
       else _ ← checkDependencies;
            transmit parent_route_id
              (command <| source_id := global_broker_id_local (cb_base s1) |>)
     else mret tt) s1.
Proof.
  unfold processInit, init_marked. rewrite eff_get_bind.
  destruct (getBrokerById s (source_id command)) as [ii|].
  - unfold setBrokerConnection, alter_broker, upd_brokers. rewrite eff_modify_bind.
    by rewrite eff_get_bind.
  - rewrite eff_ret_bind. by rewrite eff_get_bind.
Qed.

Lemma no_grant_other a : a ≠ cmd_init_grant → no_grant a.
Proof. done. Qed.

(** The failing branch of [executeInitializationOperations] sends no grant. *)
Lemma execute_failing s :
  required_missing s = true →
  ewp (executeInitializationOperations le) s (λ _ out _, Forall (sends no_grant) out).
Proof.
  intros Hmiss. unfold executeInitializationOperations. ewp_step.
  eapply ewp_mono.
  { apply ewp_and; [apply oc_checkDependencies|].
    apply (fr_checkDependencies no_grant no_grant_other). }
  intros s1 out1 [] [[[tc ->] _] [_ Hout1]]. do 2 ewp_step. ewp_step.
  eapply ewp_mono; [apply (fr_localId no_grant)|]. intros s2 out2 local [_ Hout2]. cbv zeta.
  match goal with |- ewp (if ?b then _ else _) _ _ => change b with (required_missing s) end.
  rewrite Hmiss. pose proof no_grant_other as Hp. eapply ewp_mono.
  - match goal with |- ewp ?m _ _ =>
      assert (framed (same_registry (C:=C)) (sends no_grant) m) as Hfr end.
    { frame; [by apply fr_reportMissing|by apply fr_sendDisconnect]. }
    apply Hfr.
  - intros s3 out3 [] [_ Hout3]. by repeat apply Forall_app_2.
Qed.

(** The messages of a broadcast. *)
Definition broadcast_outs (brks : list BasicBrokerInfo) m : list broker_out :=
  (λ brk, Transmit (bi_route brk) (m <| dest_id := bi_global_id brk |>)) <$>
    base.filter (λ brk, bi_nonLocal brk = false ∧ bi_state brk ≠ cs_disconnected) brks.
Lemma in_broadcast_outs brk brks m :
  brk ∈ brks → bi_nonLocal brk = false → bi_state brk ≠ cs_disconnected →
  Transmit (bi_route brk) (m <| dest_id := bi_global_id brk |>) ∈ broadcast_outs brks m.
Proof.
  intros Hin Hl Hne. unfold broadcast_outs. apply list_elem_of_fmap.
  exists brk. split; [done|]. by apply list_elem_of_filter.
Qed.
Lemma broadcastLoop_spec brks m s (P : CB → list broker_out → ActionMessage → Prop) :
  (∀ m', P s (broadcast_outs brks m) m') → etotal (broadcastLoop brks m) s P.
Proof.
  unfold broadcast_outs. revert m P. induction brks as [|brk brks IH]; intros m P HP;
    cbn [broadcastLoop]; [apply etotal_ret, HP|].
  destruct (bi_nonLocal brk) eqn:E1; cbn [negb andb].
  { apply IH. intros m'. rewrite filter_cons_False in HP; [apply HP|].
    intros [E _]. congruence. }
  destruct (cs_lt (bi_state brk) cs_disconnected) eqn:E2.
  - rewrite filter_cons_True in HP by (split; [done|by destruct (bi_state brk)]).
    apply etotal_bind, etotal_emit. apply IH. intros m'. apply HP.
  - apply IH. intros m'. rewrite filter_cons_False in HP; [apply HP|].
    intros [_ Hne]. by destruct (bi_state brk).
Qed.
Lemma broadcast_spec m s (P : CB → list broker_out → unit → Prop) :
  P s (broadcast_outs (mv_elements (brokers_ s)) m) tt → etotal (broadcast_ m) s P.
Proof.
  intros HP. apply etotal_bind, etotal_bind, etotal_get, broadcastLoop_spec. intros m'.
  apply etotal_ret. cbn. by rewrite app_nil_r.
Qed.


(** What follows the broadcast keeps the state of the broker. *)
Definition keeps_state s s' : Prop := brokerState (cb_base s') = brokerState (cb_base s).
Instance keeps_state_preorder : PreOrder keeps_state.
Proof. split; unfold keeps_state; [done|]. intros s1 s2 s3 E1 E2. congruence. Qed.
Lemma exec_entry_spec s :
  etotal (_ ← coord_ ftc_enteringExecMode; checkExecEntry : M unit) s
    (λ s' _ _, keeps_state s s').
Proof.
  apply always_partial.
  - unfold checkExecEntry, coord_, upd_base.
    repeat (always_step || apply (always_coord (λ tc, (ftc_enteringExecMode tc, tt)))
            || apply always_coord).
  - assert (∀ A (f : ForwardingTimeCoordinator →
        outcome (ForwardingTimeCoordinator * list ActionMessage * A)) s,
        ewp (coord f : M A) s (λ s' _ _, keeps_state s s')) as Hcoord.
    { intros A f s0. eapply ewp_mono; [apply oc_coord|]. by intros s' out a [[tc ->] _]. }
    ewp_step. eapply ewp_mono; [apply Hcoord|]. cbn beta. intros s1 out1 [] E1.
    unfold checkExecEntry. ewp_step. eapply ewp_mono; [apply Hcoord|]. cbn beta.
    intros s2 out2 res E2. unfold keeps_state in *.
    ewp_step; intros _; [apply ewp_modify; cbn|]; congruence.
Qed.

(** The granting branch of [executeInitializationOperations]. *)
Lemma grantInitialization_spec s :
  etotal grantInitialization s (λ s' out _,
    brokerState (cb_base s') = bs_operating ∧
    ∃ rest, out = broadcast_outs (mv_elements (brokers_ s))
      ((newMessage cmd_init_grant) <| source_id := global_broker_id_local (cb_base s) |>)
      ++ rest).
Proof.
  unfold grantInitialization. do 4 br_step. apply etotal_bind, broadcast_spec.
  eapply etotal_mono; [apply exec_entry_spec|]. intros s' out [] Hst.
  split; [exact Hst|]. by exists out.
Qed.

Lemma always_reportMissing text miss report : always (reportMissing text miss report : M unit).
Proof. destruct report as [[target type] hand]. apply always_routeMessage. Qed.

(** The granting branch as a whole. *)
Lemma execute_granting s1 :
  required_missing s1 = false →
  etotal (executeInitializationOperations le) s1 (λ s' out _,
    brokerState (cb_base s') = bs_operating ∧ ∀ brk, brk ∈ locals s1 →
      bi_state brk ≠ cs_disconnected → Transmit (bi_route brk) (newMessageTo cmd_init_grant
        (global_broker_id_local (cb_base s1)) (bi_global_id brk)) ∈ out).
Proof.
  intros Hm1. unfold executeInitializationOperations. apply etotal_bind.
  eapply etotal_mono; [apply always_partial; [apply always_checkDependencies|]|].
  { apply oc_checkDependencies. }
  intros s2 out2 [] [[tc ->] _]. do 2 br_step. do 2 br_step. cbv zeta.
  match goal with |- etotal (if ?b then _ else _) _ _ =>
    change b with (required_missing s1) end.
  rewrite Hm1. apply etotal_bind.
  set (s3 := s1 <| cb_base := _ |>).
  eapply etotal_mono; [apply always_partial|].
  { apply always_when, always_each. intros report. apply always_reportMissing. }
  { assert (oc (eff_when (hasUnknowns (unknownHandles s3) && hasNonOptionalUnknowns
      (unknownHandles s3)) (eff_each (reportMissing missingText ((newMessage cmd_warning)
        <| source_id := global_broker_id_local (base s3) |>
        <| messageID := helics_error_connection_failure |>))
      (processNonOptionalUnknowns (unknownHandles s3))))) as Hoc.
    { frame. destruct a as [[target type] hand]. apply oc_routeMessage. }
    apply Hoc. }
  intros s4 out4 [] [[tc' ->] _]. eapply etotal_mono; [apply grantInitialization_spec|].
  intros s5 out5 [] [Hst [rest ->]]. split; [exact Hst|]. intros brk Hin Hne.
  do 4 (apply elem_of_app; right). apply elem_of_app. left.
  apply list_elem_of_filter in Hin as [Hl Hin].
  exact (in_broadcast_outs _ _ ((newMessage cmd_init_grant)
    <| source_id := global_broker_id_local (cb_base s1) |>) Hin Hl Hne).
Qed.

(** C32. When the last broker or core below the root asks for initialization and no
    required connection is missing, the root goes to the operating state and the grant
    goes to every broker and core directly below that is not disconnected. *)
Theorem init_grant_live s command :
  action command = cmd_init → isRootc s = true → init_ready (init_marked s command) →
  required_missing s = false →
  ∃ s' out, processCommand le command s = Some (Ok (s', out, tt)) ∧
    brokerState (cb_base s') = bs_operating ∧
    ∀ brk, brk ∈ locals (init_marked s command) → bi_state brk ≠ cs_disconnected →
      Transmit (bi_route brk)
        (newMessageTo cmd_init_grant (global_broker_id_local (cb_base s)) (bi_global_id brk))
        ∈ out.
Proof.
  intros Ha Hr Hready Hmiss. rewrite processCommand_init, processInit_eq by done.
  set (s1 := init_marked s command) in *.
  assert (isRootc s1 = true ∧ required_missing s1 = false ∧ cb_base s1 = cb_base s)
    as (Hr1 & Hm1 & Hb1).
  { unfold s1, init_marked. by destruct (getBrokerById s (source_id command)). }
  rewrite (proj2 (allInitReady_iff s1) Hready), Hr1.
  destruct (execute_granting s1 Hm1) as (s' & out & [] & E & HP).
  rewrite Hb1 in HP. eauto.
Qed.
End init.
