(* ===== verification/BrokerDisconnect.v ===== *)
(** * Disconnection of a part of the tree

    When a broker disconnects, everything that it had registered is marked as
    disconnected: the brokers and cores below it, followed through their parents, and the
    federates of those cores.  What is in error stays in error, and the search does not
    go below it.  The recursion ends when the parents form a tree. *)

From stdpp Require Import strings.
From S2P Require Import Prelude HelicsTime Ids Flags ActionMessage MessageCodec.
From S2P Require Import Definitions TimeDependencies TimeCoordinator.
From S2P Require Import ForwardingTimeCoordinator HandleManager UnknownHandles.
From S2P Require Import Effects MappedVector BrokerBase BrokerState CoreBroker BrokerFrame.
From S2P Require Import BrokerRegistry BrokerInit.

(** What the search reads of a broker: its identifier, its parent, whether it is a core
    and whether it is in error. *)
Record skeleton := Skeleton {
  sk_gid : Z;
  sk_parent : Z;
  sk_core : bool;
  sk_error : bool;
}.
Definition skel (brk : BasicBrokerInfo) : skeleton :=
  Skeleton (bi_global_id brk) (bi_parent brk) (bi_core brk)
    (bool_decide (bi_state brk = cs_error)).

(** The positions of the brokers that are disconnected with [x]: those with that
    identifier, those whose parent it is, and those below the latter. *)
Inductive below (K : list skeleton) : Z → nat → Prop :=
  | below_self x i k :
      K !! i = Some k → sk_gid k = x → sk_error k = false → below K x i
  | below_child x i k :
      K !! i = Some k → sk_parent k = x → sk_error k = false → below K x i
  | below_step x i k j :
      K !! i = Some k → sk_parent k = x → sk_error k = false → below K (sk_gid k) j →
      below K x j.

(** The identifiers that the search visits, and the parents whose federates it marks. *)
Inductive visits (K : list skeleton) : Z → Z → Prop :=
  | visits_self x : visits K x x
  | visits_step x i k y :
      K !! i = Some k → sk_parent k = x → sk_error k = false → visits K (sk_gid k) y →
      visits K x y.
(** Whether the last of the brokers with an identifier is a core. *)
Definition core_step (x : Z) (c : bool) (k : skeleton) : bool :=
  if (sk_gid k =? x) && negb (sk_error k) then sk_core k else c.
Definition core_id (K : list skeleton) (x : Z) : bool := foldl (core_step x) false K.

Definition disconnected_broker (brk : BasicBrokerInfo) : BasicBrokerInfo :=
  brk <| bi_state := cs_disconnected |>.
Definition disconnected_fed (fed : BasicFedInfo) : BasicFedInfo :=
  fed <| fi_state := cs_disconnected |>.

(** A change of the elements of a list: each is kept, or marked where [P] allows it. *)
Definition marked {V} (mark : V → V) (P : nat → V → Prop) (l l' : list V) : Prop :=
  length l' = length l ∧
  ∀ i v, l !! i = Some v → l' !! i = Some v ∨ (P i v ∧ l' !! i = Some (mark v)).

Section marked.
  Context {V : Type} (mark : V → V) (P : nat → V → Prop).
  Context (Hmark : ∀ v, mark (mark v) = mark v).
  Implicit Types (l : list V).

Lemma marked_refl l : marked mark P l l.
Proof. split; [done|]. auto. Qed.
Lemma marked_trans l1 l2 l3 :
  marked mark P l1 l2 → marked mark P l2 l3 → marked mark P l1 l3.
Proof.
  intros [L1 M1] [L2 M2]. split; [congruence|]. intros i v Hv.
  destruct (M1 i v Hv) as [Hv2|[HP Hv2]]; destruct (M2 i _ Hv2) as [Hv3|[HP' Hv3]]; auto.
  right. rewrite Hmark in Hv3. auto.
Qed.
Lemma marked_alter l i v :
  l !! i = Some v → P i v → marked mark P l (alter mark i l).
Proof.
  intros Hv HP. split; [apply length_alter|]. intros j u Hu.
  destruct (decide (i = j)) as [<-|N].
  - right. rewrite list_lookup_alter_eq, Hu. split; [congruence|done].
  - left. by rewrite list_lookup_alter_ne.
Qed.
Lemma marked_if (b : V → bool) l :
  (∀ i v, l !! i = Some v → b v = true → P i v) →
  marked mark P l ((λ v, if b v then mark v else v) <$> l).
Proof.
  intros HP. split; [apply length_fmap|]. intros i v Hv. rewrite list_lookup_fmap, Hv. cbn.
  destruct (b v) eqn:E; [right; eauto|by left].
Qed.
Lemma marked_mono (P' : nat → V → Prop) l l' :
  (∀ i v, P i v → P' i v) → marked mark P l l' → marked mark P' l l'.
Proof. intros HPP [L1 M1]. split; [done|]. intros i v Hv. destruct (M1 i v Hv) as [|[]]; auto. Qed.
(** A marked element stays marked. *)
Lemma marked_keeps l l' i v :
  marked mark P l l' → l !! i = Some (mark v) → l' !! i = Some (mark v).
Proof. intros [_ M1] Hv. destruct (M1 i _ Hv) as [|[_ ?]]; [done|by rewrite <-Hmark]. Qed.
End marked.

Section disconnect.
  Context `{TimeRep} `{SteadyClock} `{TimeMs} `{Fmt} `{MappedVectorLaws C} `{BrokerText}.
  Context (le : bool).
  Abbreviation CB := (CoreBroker C).
  Abbreviation M := (effM CB broker_out).
  Implicit Types (s : CB) (command : ActionMessage) (K : list skeleton) (x y : Z).

Definition skels s : list skeleton := skel <$> mv_elements (brokers_ s).

(** The federates that are marked with [x]. *)
Definition fed_below K x (fed : BasicFedInfo) : Prop :=
  visits K x (fi_parent fed) ∧ core_id K (fi_parent fed) = true ∧ fi_state fed ≠ cs_error.

(** Only what is below [x] is marked, and nothing else changes. *)
Record marks K x s s' : Prop := {
  mk_brokers : marked disconnected_broker (λ i _, below K x i)
                 (mv_elements (brokers_ s)) (mv_elements (brokers_ s'));
  mk_federates : marked disconnected_fed (λ _ fed, fed_below K x fed)
                   (mv_elements (federates_ s)) (mv_elements (federates_ s'));
  mk_rest : s' = s <| brokers_ := brokers_ s' |> <| federates_ := federates_ s' |>;
}.
(** Everything that is below [x] is marked. *)
Definition brokers_done K x s : Prop :=
  ∀ j, below K x j → ∃ brk, mv_elements (brokers_ s) !! j = Some brk ∧
    bi_state brk = cs_disconnected.
Definition fed_done s y : Prop :=
  ∀ j fed, mv_elements (federates_ s) !! j = Some fed → fi_parent fed = y →
    fi_state fed = cs_disconnected ∨ fi_state fed = cs_error.
Definition federates_done K x s : Prop :=
  ∀ y, visits K x y → core_id K y = true → fed_done s y.

Lemma marks_refl K x s : marks K x s s.
Proof. split; [apply marked_refl..|by destruct s]. Qed.
Lemma marks_trans K x s1 s2 s3 : marks K x s1 s2 → marks K x s2 s3 → marks K x s1 s3.
Proof.
  intros [B1 F1 R1] [B2 F2 R2]. split; [by eapply marked_trans..|].
  rewrite R2, R1. by destruct s1.
Qed.
Lemma below_not_error K x i : below K x i → ∃ k, K !! i = Some k ∧ sk_error k = false.
Proof. induction 1; eauto. Qed.

Lemma marks_skels K x s s' : skels s = K → marks K x s s' → skels s' = K.
Proof.
  intros <- [[L B] _ _]. unfold skels. apply list_eq. intros i. rewrite !list_lookup_fmap.
  destruct (mv_elements (brokers_ s) !! i) as [brk|] eqn:Hi.
  - destruct (B i brk Hi) as [->|[Hb ->]]; [done|]. cbn. f_equal.
    apply below_not_error in Hb as (k & Hk & He). unfold skels in Hk.
    rewrite list_lookup_fmap, Hi in Hk. injection Hk as <-. cbn in He.
    unfold skel. cbn. by rewrite He.
  - rewrite lookup_ge_None in Hi. rewrite (proj2 (lookup_ge_None _ _)) by (rewrite L; lia).
    done.
Qed.
Lemma marks_brokers_done K x y s s' :
  marks K x s s' → brokers_done K y s → brokers_done K y s'.
Proof.
  intros [B _ _] Hd j Hj. destruct (Hd j Hj) as (brk & Hb & Hs). exists brk. split; [|done].
  assert (brk = disconnected_broker brk) as E by (destruct brk; cbn in *; by subst).
  rewrite E in Hb |- *. by eapply (marked_keeps disconnected_broker).
Qed.
Lemma marks_fed_done K x y s s' : marks K x s s' → fed_done s y → fed_done s' y.
Proof.
  intros [_ [L F] _] Hd j fed' Hj Hp.
  destruct (lookup_lt_is_Some_2 (mv_elements (federates_ s)) j) as [fed Hfed].
  { rewrite <-L. by eapply lookup_lt_Some. }
  destruct (F j fed Hfed) as [E|[_ E]]; rewrite E in Hj; injection Hj as <-; [|by left].
  by eapply Hd.
Qed.
Lemma marks_federates_done K x y s s' :
  marks K x s s' → federates_done K y s → federates_done K y s'.
Proof. intros Hm Hd z Hv Hc. eapply marks_fed_done; eauto. Qed.
(** What is marked for a child is marked for the parent. *)
Lemma marks_child K x i k s s' :
  K !! i = Some k → sk_parent k = x → sk_error k = false →
  marks K (sk_gid k) s s' → marks K x s s'.
Proof.
  intros Hk Hp He [B F R]. split; [..|done].
  - eapply marked_mono; [|exact B]. intros j b Hj. by eapply below_step.
  - eapply marked_mono; [|exact F]. intros j fed (Hv & ?). split; [|done].
    by eapply visits_step.
Qed.

(** ** One broker *)

Definition disc s (ii : nat) : CB :=
  s <| brokers_ := mv_alter disconnected_broker ii (brokers_ s) |>.
Definition is_disc s (ii : nat) : Prop :=
  ∃ brk, mv_elements (brokers_ s) !! ii = Some brk ∧ bi_state brk = cs_disconnected.

Lemma disc_marks K x s ii :
  skels s = K → below K x ii → marks K x s (disc s ii) ∧ is_disc (disc s ii) ii.
Proof.
  intros <- Hb. pose proof (below_not_error _ _ _ Hb) as (k & Hk & _). unfold skels in Hk.
  rewrite list_lookup_fmap in Hk. apply fmap_Some in Hk as (brk & Hbrk & _). split.
  - split; [..|done].
    + cbn. rewrite mv_alter_elements. by eapply marked_alter.
    + apply marked_refl.
  - exists (disconnected_broker brk). cbn. by rewrite mv_alter_elements, list_lookup_alter_eq, Hbrk.
Qed.
Lemma marks_is_disc K x s s' ii : marks K x s s' → is_disc s ii → is_disc s' ii.
Proof.
  intros [B _ _] (brk & Hb & Hs). exists brk. split; [|done].
  assert (brk = disconnected_broker brk) as E by (destruct brk; cbn in *; by subst).
  rewrite E in Hb |- *. by eapply (marked_keeps disconnected_broker).
Qed.

(** The recursive call does its work for each child of [x]. *)
Definition rec_ok K x (rec : Z → M unit) : Prop :=
  ∀ i k s, K !! i = Some k → sk_parent k = x → sk_error k = false → skels s = K →
    etotal (rec (sk_gid k)) s (λ s' out _,
      out = [] ∧ marks K (sk_gid k) s s' ∧ brokers_done K (sk_gid k) s' ∧
      federates_done K (sk_gid k) s').

(** What is done after the round for a broker. *)
Definition round_done K x s (ii : nat) (k : skeleton) : Prop :=
  sk_error k = false →
  (sk_gid k = x ∨ sk_parent k = x → is_disc s ii) ∧
  (sk_parent k = x → brokers_done K (sk_gid k) s ∧ federates_done K (sk_gid k) s).
Lemma marks_round_done K x s s' ii k :
  marks K x s s' → round_done K x s ii k → round_done K x s' ii k.
Proof.
  intros Hm Hd He. destruct (Hd He) as [H1' H2']. split.
  - intros Hor. eapply marks_is_disc; eauto.
  - intros Hp. destruct (H2' Hp). split; [by eapply marks_brokers_done|].
    by eapply marks_federates_done.
Qed.

(** The part of the round for a child. *)
Lemma markChild_spec K x rec ii k s :
  rec_ok K x rec → skels s = K → K !! ii = Some k → sk_error k = false →
  etotal (eff_when (sk_parent k =? x)
            (_ ← setBrokerConnection cs_disconnected ii; rec (sk_gid k))) s (λ s' out _,
    out = [] ∧ marks K x s s' ∧
    (sk_parent k = x → is_disc s' ii ∧ brokers_done K (sk_gid k) s' ∧
                       federates_done K (sk_gid k) s')).
Proof.
  intros Hrec HK Hk He. apply etotal_when; intros Hp.
  - apply Z.eqb_eq in Hp. assert (below K x ii) as Hb by by eapply below_child.
    destruct (disc_marks K x s ii HK Hb) as [Hm Hd].
    apply etotal_bind, etotal_modify.
    eapply etotal_mono; [apply (Hrec ii k); [done..|by eapply marks_skels]|].
    intros s' out [] (-> & Hm' & Hbd & Hfd). split; [done|].
    pose proof (marks_child _ _ _ _ _ _ Hk Hp He Hm') as Hm''.
    split; [by eapply marks_trans|]. intros _. split; [by eapply marks_is_disc|done].
  - apply Z.eqb_neq in Hp. split; [done|]. split; [apply marks_refl|done].
Qed.

Lemma markOne_spec K x rec ii k c s :
  rec_ok K x rec → skels s = K → K !! ii = Some k →
  etotal (markOne rec x ii c) s (λ s' out c',
    out = [] ∧ marks K x s s' ∧ c' = core_step x c k ∧ round_done K x s' ii k).
Proof.
  intros Hrec HK Hk. assert (∃ brk, mv_elements (brokers_ s) !! ii = Some brk ∧ skel brk = k)
    as (brk & Hbrk & Hsk).
  { rewrite <-HK in Hk. unfold skels in Hk. rewrite list_lookup_fmap in Hk.
    apply fmap_Some in Hk as (brk & ? & ->). eauto. }
  unfold markOne, brokerAt. apply etotal_bind, etotal_bind, etotal_get. rewrite Hbrk.
  apply etotal_ret. change (bool_decide (bi_state brk = cs_error)) with (sk_error (skel brk)).
  change (bi_global_id brk) with (sk_gid (skel brk)).
  change (bi_parent brk) with (sk_parent (skel brk)).
  change (bi_core brk) with (sk_core (skel brk)). rewrite Hsk. unfold core_step, round_done.
  apply etotal_bind. destruct (sk_error k) eqn:He; cbn [negb].
  { rewrite !andb_false_r. apply etotal_ret, etotal_bind, etotal_ret, etotal_ret.
    split; [done|]. split; [apply marks_refl|done]. }
  rewrite !andb_true_r. destruct (Z.eqb_spec (sk_gid k) x) as [Hg|Hg].
  - assert (below K x ii) as Hb by by eapply below_self.
    destruct (disc_marks K x s ii HK Hb) as [Hm Hd].
    apply etotal_bind, etotal_modify, etotal_ret, etotal_bind.
    eapply etotal_mono; [by apply (markChild_spec K x); [..|by eapply marks_skels| |]|].
    intros s' out [] (-> & Hm' & Hch). apply etotal_ret. split; [done|].
    split; [by eapply marks_trans|]. split; [done|]. intros _. split; [|intros ?; by apply Hch].
    intros _. by eapply marks_is_disc.
  - apply etotal_ret, etotal_bind.
    eapply etotal_mono; [by apply (markChild_spec K x)|].
    intros s' out [] (-> & Hm' & Hch). apply etotal_ret. split; [done|]. split; [done|].
    split; [done|]. intros _. split; [|intros ?; by apply Hch].
    intros [?|Hp]; [done|]. by destruct (Hch Hp).
Qed.

(** ** The loop and the recursion *)

Lemma markLoop_spec K x rec K2 K1 c s :
  rec_ok K x rec → K = K1 ++ K2 → skels s = K →
  etotal (markLoop rec x (seq (length K1) (length K2)) c) s (λ s' out c',
    out = [] ∧ marks K x s s' ∧ c' = foldl (core_step x) c K2 ∧
    ∀ i k, K2 !! i = Some k → round_done K x s' (length K1 + i) k).
Proof.
  intros Hrec. revert K1 c s. induction K2 as [|k K2 IH]; intros K1 c s HK Hs.
  { cbn. apply etotal_ret. split; [done|]. split; [apply marks_refl|]. split; [done|].
    intros i k. by rewrite lookup_nil. }
  cbn [seq length markLoop foldl]. apply etotal_bind.
  eapply etotal_mono; [apply (markOne_spec K x rec _ k); [done..|]|].
  { rewrite HK. by apply list_lookup_middle. }
  intros s1 out1 c1 (-> & Hm1 & -> & Hd1).
  specialize (IH (K1 ++ [k]) (core_step x c k) s1). rewrite length_app in IH. cbn in IH.
  rewrite Nat.add_1_r in IH. eapply etotal_mono; [apply IH|].
  { by rewrite <-app_assoc. }
  { by eapply marks_skels. }
  intros s2 out2 c2 (-> & Hm2 & -> & Hd2). split; [done|]. split; [by eapply marks_trans|].
  split; [done|]. intros [|i] k' Hi.
  - injection Hi as <-. rewrite Nat.add_0_r. by eapply marks_round_done.
  - specialize (Hd2 i k' Hi). by rewrite Nat.add_succ_comm in Hd2.
Qed.

(** The federates of a core. *)
Lemma markFederates_marks K x s :
  core_id K x = true →
  let s' := s <| federates_ := mv_apply (λ fed,
      if (fi_parent fed =? x) && negb (bool_decide (fi_state fed = cs_error))
      then fed <| fi_state := cs_disconnected |> else fed) (federates_ s) |> in
  marks K x s s' ∧ fed_done s' x.
Proof.
  intros Hc s'. assert (mv_elements (federates_ s') = (λ fed,
      if (fi_parent fed =? x) && negb (bool_decide (fi_state fed = cs_error))
      then disconnected_fed fed else fed) <$> mv_elements (federates_ s)) as E.
  { apply mv_apply_elements. }
  split.
  - split; [apply marked_refl| |done]. rewrite E. apply (marked_if disconnected_fed).
    intros i fed _ [Hp Hne]%andb_prop. apply Z.eqb_eq in Hp. rewrite negb_true_iff in Hne.
    apply bool_decide_eq_false in Hne. unfold fed_below. rewrite Hp.
    split; [constructor|done].
  - intros j fed'. rewrite E, list_lookup_fmap. intros Hj Hp.
    apply fmap_Some in Hj as (fed & _ & ->). revert Hp.
    destruct (Z.eqb_spec (fi_parent fed) x) as [|N]; cbn; [|done].
    case_bool_decide; cbn; auto.
Qed.

(** The recursion for an identifier of rank less than the fuel; the rank goes down from
    a parent to its children. *)
Lemma markAsDisconnected_spec K (rank : Z → nat) fuel x s :
  (∀ i k, K !! i = Some k → sk_error k = false → (rank (sk_gid k) < rank (sk_parent k))%nat) →
  (rank x < fuel)%nat → skels s = K →
  etotal (markAsDisconnected fuel x) s (λ s' out _,
    out = [] ∧ marks K x s s' ∧ brokers_done K x s' ∧ federates_done K x s').
Proof.
  intros Hrank. revert x s. induction fuel as [|fuel IH]; intros x s Hx HK; [lia|].
  cbn [markAsDisconnected]. apply etotal_bind, etotal_get, etotal_bind.
  assert (rec_ok K x (markAsDisconnected fuel)) as Hrec.
  { intros i k s0 Hk Hp He HK0. apply IH; [|done]. specialize (Hrank i k Hk He).
    rewrite Hp in Hrank. lia. }
  assert (mv_size (brokers_ s) = length K) as Hlen.
  { rewrite <-HK. unfold skels. by rewrite length_fmap. }
  rewrite Hlen. eapply etotal_mono; [by apply (markLoop_spec K x _ K [] false s)|].
  intros s1 out1 c1 (-> & Hm1 & -> & Hd1). cbn [length app Nat.add] in Hd1 |- *.
  fold (core_id K x).
  assert (brokers_done K x s1) as Hb.
  { intros j Hj. destruct Hj as [x j k Hk Hg He|x j k Hk Hp He|x i k j Hk Hp He Hj].
    - destruct (Hd1 j k Hk He) as [Hd _]. apply Hd. by left.
    - destruct (Hd1 j k Hk He) as [Hd _]. apply Hd. by right.
    - destruct (Hd1 i k Hk He) as [_ Hd]. by apply (Hd Hp). }
  assert (∀ y, y ≠ x → visits K x y → core_id K y = true → fed_done s1 y) as Hf.
  { intros y Hy Hv Hc. destruct Hv as [x|x i k y Hk Hpk He Hv]; [done|].
    destruct (Hd1 i k Hk He) as [_ Hd]. by apply (Hd Hpk). }
  apply etotal_when; intros Hc.
  - destruct (markFederates_marks K x s1 Hc) as [Hm2 Hfx]. apply etotal_modify.
    split; [done|]. split; [by eapply marks_trans|].
    split; [by eapply marks_brokers_done|]. intros y Hv Hcy.
    destruct (decide (y = x)) as [->|N]; [done|]. eapply marks_fed_done; eauto.
  - split; [done|]. split; [done|]. split; [done|]. intros y Hv Hcy.
    destruct (decide (y = x)) as [->|N]; [congruence|auto].
Qed.

(** ** The tree of the root broker *)

(** A broker below another one registered after it. *)
Definition parents_first s : Prop :=
  ∀ i brk, mv_elements (brokers_ s) !! i = Some brk → bi_parent brk < broker_id_of i.

(** The height of an identifier among [n] brokers. *)
Definition rank (n : nat) (x : Z) : nat :=
  let j := x - global_broker_id_shift in
  if (0 <=? j) && (j <? Z.of_nat n) then n - Z.to_nat j else S n.
Lemma rank_broker n j : (j < n)%nat → rank n (broker_id_of j) = (n - j)%nat.
Proof.
  intros Hj. unfold rank, broker_id_of.
  replace (global_broker_id_shift + Z.of_nat j - global_broker_id_shift) with (Z.of_nat j)
    by lia.
  rewrite (proj2 (Z.leb_le _ _)), (proj2 (Z.ltb_lt _ _)) by lia. cbn [andb]. lia.
Qed.
Lemma rank_cases n x :
  (∃ j, (j < n)%nat ∧ x = broker_id_of j) ∨ rank n x = S n.
Proof.
  unfold rank. destruct (Z.leb_spec 0 (x - global_broker_id_shift)) as [H1'|]; [|auto].
  destruct (Z.ltb_spec (x - global_broker_id_shift) (Z.of_nat n)) as [H2'|]; [|auto].
  left. exists (Z.to_nat (x - global_broker_id_shift)). unfold broker_id_of. lia.
Qed.

Lemma rank_parent s i k :
  registry_wf s → parents_first s → skels s !! i = Some k →
  (rank (mv_size (brokers_ s)) (sk_gid k) < rank (mv_size (brokers_ s)) (sk_parent k))%nat.
Proof.
  intros Hs Hp Hk. unfold skels in Hk. rewrite list_lookup_fmap in Hk.
  apply fmap_Some in Hk as (brk & Hbrk & ->). cbn.
  pose proof (lookup_lt_Some _ _ _ Hbrk) as Hi.
  rewrite (vw_gid _ _ _ _ (rw_brokers _ Hs) _ _ Hbrk), (rank_broker _ i) by done.
  destruct (rank_cases (mv_size (brokers_ s)) (bi_parent brk)) as [(j & Hj & E)|E].
  - rewrite E, rank_broker by done. specialize (Hp i brk Hbrk). rewrite E in Hp.
    unfold broker_id_of in Hp. lia.
  - lia.
Qed.

(** The recursion from a broker of the tree, with the fuel that [disconnectBroker] gives. *)
Lemma markAsDisconnected_root s ii brk :
  registry_wf s → parents_first s → mv_elements (brokers_ s) !! ii = Some brk →
  let x := bi_global_id brk in
  etotal (markAsDisconnected (disconnect_fuel s) x) s (λ s' out _,
    out = [] ∧ marks (skels s) x s s' ∧ brokers_done (skels s) x s' ∧
    federates_done (skels s) x s').
Proof.
  intros Hs Hp Hbrk x.
  apply (markAsDisconnected_spec (skels s) (rank (mv_size (brokers_ s)))); [|  |done].
  - intros i k Hk _. by apply rank_parent with (i := i).
  - unfold x. rewrite (vw_gid _ _ _ _ (rw_brokers _ Hs) _ _ Hbrk), (rank_broker _ ii).
    + unfold disconnect_fuel. lia.
    + by eapply lookup_lt_Some.
Qed.

(** C33. The disconnection of a broker of the root ends, sends nothing, and marks as
    disconnected exactly the brokers and cores that are not in error and are reached from
    it over parents that are not in error, and the federates of those cores. *)
Theorem disconnect_subtree s ii brk :
  registry_wf s → parents_first s → mv_elements (brokers_ s) !! ii = Some brk →
  let x := bi_global_id brk in
  ∃ s', markAsDisconnected (disconnect_fuel s) x s = Some (Ok (s', [], tt)) ∧
    marks (skels s) x s s' ∧ brokers_done (skels s) x s' ∧ federates_done (skels s) x s'.
Proof.
  intros Hs Hp Hbrk x.
  destruct (markAsDisconnected_root s ii brk) as (s' & out & [] & E & -> & Hm); eauto.
Qed.

(** The order of the parents is kept by a registration over a broker that is known. *)
Lemma registration_parents_first s command s' :
  parents_first s → broker_entered s command s' →
  source_id command < broker_id_of (mv_size (brokers_ s)) →
  global_broker_id_local (cb_base s) < global_broker_id_shift →
  parents_first s'.
Proof.
  intros Hp [Hen _] Hsrc Hlocal i brk Hi. rewrite (en_elements _ _ _ _ _ Hen) in Hi.
  apply lookup_app_Some in Hi as [Hi|[Hlen Hi]]; [by apply Hp|].
  apply list_lookup_singleton_Some in Hi as [Hz <-]. unfold mv_size in Hsrc. cbn.
  replace i with (length (mv_elements (brokers_ s))) by lia.
  destruct (direct command); [unfold broker_id_of; lia|done].
Qed.

(** ** A broker that is its own parent *)

Lemma own_parent_diverges fuel s brk :
  mv_elements (brokers_ s) = [brk] → bi_parent brk = bi_global_id brk →
  bi_state brk ≠ cs_error → markAsDisconnected fuel (bi_global_id brk) s = None.
Proof.
  revert s brk. induction fuel as [|fuel IH]; intros s brk Hb Hp Hs; [done|].
  cbn [markAsDisconnected]. rewrite eff_get_bind. unfold mv_size. rewrite Hb.
  cbn [length seq markLoop]. do 2 apply eff_bind_none. unfold markOne.
  rewrite (eff_bind_ok _ _ s s brk) by (unfold brokerAt; by rewrite eff_get_bind, Hb).
  rewrite Hp, Z.eqb_refl, bool_decide_false by done. cbn [negb andb].
  rewrite (eff_bind_ok _ _ s (disc s 0) (bi_core brk)) by done. apply eff_bind_none.
  unfold eff_when. rewrite (eff_bind_ok _ _ _ (disc (disc s 0) 0) tt) by done.
  apply (IH _ (disconnected_broker brk)); [|done..].
  cbn. by rewrite !mv_alter_elements, Hb.
Qed.

(** The root accepts a first broker whose registration claims to come through the
    identifier that the broker is about to get; it is then its own parent, and its
    disconnection never ends, whatever the number of recursive calls. *)
Theorem forged_parent_diverges s command :
  root_reach le s → connectionEstablished s = true → brokerState (cb_base s) ≠ bs_operating →
  mv_elements (brokers_ s) = [] → verifyBrokerKey s command = true →
  action command = cmd_reg_broker → source_id command = broker_id_of 0 →
  ∃ s' out brk, processPriorityCommand le command s = Some (Ok (s', out, tt)) ∧
    mv_elements (brokers_ s') = [brk] ∧ bi_global_id brk = broker_id_of 0 ∧
    ∀ fuel, markAsDisconnected fuel (bi_global_id brk) s' = None.
Proof.
  intros Hreach%root_reach_inv Hc Ho Hb Hkey Ha Hsrc. destruct Hreach as [Wf _ _ Hrc _ _].
  assert (mv_index1 (brokers_ s) (payload command) = None) as Hk.
  { destruct (mv_index1 _ _) eqn:E; [|done]. apply mv_index1_lt in E. rewrite Hb in E.
    cbn in E. lia. }
  destruct (registerBroker_root s command) as (s' & out & [] & E & [Hen _] & _); try done.
  { unfold mv_size. by rewrite Hb. }
  pose proof (en_elements _ _ _ _ _ Hen) as Ee. rewrite Hb in Ee. cbn [app] in Ee.
  exists s', out, (broker_entry s command). rewrite priority_reg_broker by done.
  assert (bi_global_id (broker_entry s command) = broker_id_of 0) as Hg.
  { cbn. unfold mv_size. by rewrite Hb. }
  do 3 (split; [done|]). intros fuel. apply own_parent_diverges; [done| |done].
  rewrite Hg. cbn. unfold direct. by rewrite Hsrc.
Qed.
End disconnect.
