(* ===== verification/BrokerStop.v ===== *)
(** * The end of a federation

    A broker or core that disconnects is acknowledged.  The root stops when everything
    directly below it is disconnected; the theorem says exactly when. *)

From stdpp Require Import strings.
From S2P Require Import Prelude HelicsTime Ids Flags ActionMessage MessageCodec.
From S2P Require Import CodecFacts MultiMessage Definitions TimeDependencies TimeCoordinator.
From S2P Require Import Disconnect ForwardingTimeCoordinator HandleManager UnknownHandles.
From S2P Require Import Effects MappedVector BrokerBase BrokerState CoreBroker BrokerFrame.
From S2P Require Import BrokerRegistry BrokerInit BrokerDisconnect.

(** ** The goodbye of the time coordinator *)

Section goodbye.
  Context `{TimeRep} (le : bool).

(** The identifiers are 32-bit values. *)
Definition ftc_ids_in_range (tc : ForwardingTimeCoordinator) : Prop :=
  sint_range 32 (ftc_source_id tc) ∧ Forall (sint_range 32) (ftc_connections tc) ∧
  sint_range 64 timeZero.

Lemma ftc_byeLoop_ok tc conns bye multi :
  multi_ok multi → counter multi ≤ 255 → Forall (sint_range 32) conns →
  (∀ fed, sint_range 32 fed → message_wf (bye <| dest_id := fed |>)) →
  ∃ r, ftc_byeLoop le tc conns bye multi = Ok r.
Proof.
  revert tc bye multi. induction conns as [|fed conns IH]; intros tc bye multi Hm Hle Hc Hb;
    cbn [ftc_byeLoop]; [eauto|].
  apply Forall_cons in Hc as [Hf Hc]. case_match; [by apply IH|].
  destruct (decide (counter multi = 255)) as [E|E].
  - rewrite appendMessage_full by done. by apply IH.
  - rewrite appendMessage_part by (auto; lia). apply IH; [by apply with_part_ok|cbn; lia|done|].
    intros fed'. apply Hb.
Qed.

Lemma ftc_disconnect_ok tc : ftc_ids_in_range tc → ∃ r, ftc_disconnect le tc = Ok r.
Proof.
  intros (Hs & Hc & Hz). unfold ftc_disconnect. destruct (hasSender tc); [|eauto].
  destruct (ftc_connections tc) as [|fed [|fed2 conns]]; [eauto|case_match; eauto|].
  edestruct (ftc_byeLoop_ok tc (fed :: fed2 :: conns)
    ((newMessage cmd_disconnect) <| source_id := ftc_source_id tc |>)
    (newMessage cmd_multi_message)) as [[tc' multi] E]; [done|done|done| |].
  - intros f Hf. by apply (byeFor_wf cmd_disconnect (ftc_source_id tc) f).
  - rewrite E. cbn. eauto.
Qed.
End goodbye.

Section stop.
  Context `{TimeRep} `{SteadyClock} `{TimeMs} `{Fmt} `{MappedVectorLaws C} `{BrokerText}.
  Context (le : bool).
  Abbreviation CB := (CoreBroker C).
  Abbreviation M := (effM CB broker_out).
  Implicit Types (s : CB) (command : ActionMessage).

Definition stop_queued (out : list broker_out) : Prop := Queue (newMessage cmd_stop) ∈ out.
Definition not_queued (o : broker_out) : Prop := match o with Queue _ => False | _ => True end.
Abbreviation quiet := (Forall not_queued).
Lemma quiet_not_stop out : quiet out → ¬ stop_queued out.
Proof. intros Hq Hs. rewrite Forall_forall in Hq. by apply Hq in Hs. Qed.

(** Only the unknown handles change. *)
Definition only_unknown s s' : Prop := s' = s <| unknownHandles := unknownHandles s' |>.
Instance only_unknown_preorder : PreOrder only_unknown.
Proof.
  split; unfold only_unknown; [intros []; done|]. intros s1 s2 s3 -> ->. by destruct s1.
Qed.
Lemma ou_upd_unknown f : framed only_unknown not_queued (upd_unknown f : M unit).
Proof. apply framed_modify. done. Qed.
Lemma ou_broadcast m : framed only_unknown not_queued (broadcast_ m : M unit).
Proof.
  intros s. apply etotal_partial, broadcast_spec. split; [by destruct s|].
  unfold broadcast_outs. apply Forall_fmap. by apply Forall_forall.
Qed.
Lemma ou_get_base : framed only_unknown not_queued (get_base : M _).
Proof. unfold get_base. frame. Qed.
Lemma always_broadcast m : always (broadcast_ m : M unit).
Proof. intros s. by apply broadcast_spec. Qed.
Hint Resolve ou_upd_unknown ou_broadcast ou_get_base : frame.

(** ** The steps *)

Lemma disconnectBroker_spec s ii brk :
  registry_wf s → parents_first s → mv_elements (brokers_ s) !! ii = Some brk →
  let x := bi_global_id brk in
  etotal (disconnectBroker ii) s (λ s2 out _, quiet out ∧
    ∃ s1, marks (skels s) x s s1 ∧ brokers_done (skels s) x s1 ∧ only_unknown s1 s2).
Proof.
  intros Hs Hp Hbrk x. unfold disconnectBroker. do 2 br_step. br_step. unfold brokerAt.
  do 2 br_step. rewrite Hbrk. do 2 br_step.
  eapply etotal_mono; [by eapply markAsDisconnected_root|].
  intros s1 out1 [] (-> & Hm & Hd & _). fold x.
  eapply etotal_mono; [apply always_partial|].
  - unfold get_base, upd_unknown. repeat (always_step || apply always_broadcast).
  - assert (framed only_unknown not_queued (b ← get_base;
      if broker_state_lt (brokerState b) bs_operating && isRootc s then
        _ ← broadcast_ ((newMessage cmd_broadcast_disconnect) <| source_id := x |>);
        _ ← upd_unknown (λ u, clearFederateUnknowns u x);
        if negb (bi_core brk) then
          s ← eff_get;
          eff_each (λ subbrk, eff_when ((bi_parent subbrk =? x) && bi_core subbrk)
              (upd_unknown (λ u, clearFederateUnknowns u (bi_global_id subbrk))))
            (mv_elements (brokers_ s))
        else mret tt
      else mret tt : M unit)) as Hf by frame.
    apply Hf.
  - intros s2 out [] [Hu Hq]. split; [done|]. eauto.
Qed.

Lemma acknowledge_spec s command ii brk (P : CB → list broker_out → unit → Prop) :
  mv_elements (brokers_ s) !! ii = Some brk →
  (∀ s', P s' (if checkActionFlag command error_flag then [] else
    [Transmit (bi_route brk) (disconnectAck (global_broker_id_local (cb_base s)) brk)]) tt) →
  etotal (acknowledgeDisconnect command ii) s P.
Proof.
  intros Hbrk HP. unfold acknowledgeDisconnect. br_step. unfold brokerAt. do 2 br_step.
  rewrite Hbrk. do 2 br_step. br_step. br_step. unfold eff_when.
  destruct (checkActionFlag command error_flag); cbn [negb]; do 2 br_step; apply HP.
Qed.

Lemma coord_disconnect_spec s (P : CB → list broker_out → unit → Prop) :
  ftc_ids_in_range (timeCoord (cb_base s)) →
  (∀ tc out, P (s <| cb_base := (cb_base s) <| timeCoord := tc |> |>) out tt) →
  etotal (coord_disconnect le) s P.
Proof.
  intros Hids HP. unfold coord_disconnect, coord. do 2 br_step.
  destruct (ftc_disconnect_ok le _ Hids) as [[tc msgs] E].
  change (base s) with (cb_base s). rewrite E. cbn [mbind outcome_bind].
  br_step. exists s, [], (tc, msgs, tt). split; [done|]. do 2 br_step.
  assert (∀ s', etotal (eff_each addActionMessage msgs : M unit) s'
    (λ s'' out _, s'' = s' ∧ out = Queue <$> msgs)) as He.
  { intros s'. clear. induction msgs as [|m msgs IH]; cbn [eff_each]; [by apply etotal_ret|].
    do 2 br_step. eapply etotal_mono; [exact IH|]. by intros s2 out [] [-> ->]. }
  br_step. eapply etotal_mono; [apply He|]. intros s2 out [] [-> ->]. br_step. apply HP.
Qed.

(** The end of the handler at the root, for a broker or core directly below. *)
Lemma disconnectAfter_spec s command ii brk :
  isRootc s = true → ftc_ids_in_range (timeCoord (cb_base s)) →
  mv_elements (brokers_ s) !! ii = Some brk → bi_nonLocal brk = false →
  etotal (disconnectAfter le command (Some ii)) s (λ _ out _,
    (stop_queued out ↔ cs_lt (getAllConnectionState s) cs_disconnected = false) ∧
    (checkActionFlag command error_flag = false →
       Transmit (bi_route brk) (disconnectAck (global_broker_id_local (cb_base s)) brk) ∈ out)).
Proof.
  intros Hr Hids Hbrk Hl. unfold disconnectAfter. do 2 br_step. br_step. br_step.
  unfold brokerAt. do 2 br_step. rewrite Hbrk. do 2 br_step. cbn [app]. rewrite Hl. cbn [negb].
  rewrite Hr. destruct (cs_lt _ cs_disconnected) eqn:Hc; cbn [negb andb].
  - br_step. apply acknowledge_spec with (brk := brk); [done|]. intros s'.
    unfold eff_when. do 3 br_step. cbn [app]. split.
    + split; [|done]. intros Hs. exfalso. revert Hs. apply quiet_not_stop.
      destruct (checkActionFlag _ _); repeat constructor.
    + intros ->. by left.
  - br_step. apply coord_disconnect_spec; [done|]. intros tc out.
    unfold eff_when. do 2 br_step. apply acknowledge_spec with (brk := brk); [done|]. intros s'.
    do 2 br_step. split.
    + split; [done|]. intros _. unfold stop_queued. set_solver.
    + intros ->. set_solver.
Qed.

(** ** When everything is disconnected *)

(** An element after the marking: the same, or marked. *)
Lemma marks_element K x s s' i b :
  marks K x s s' → mv_elements (brokers_ s') !! i = Some b →
  ∃ b0, mv_elements (brokers_ s) !! i = Some b0 ∧
    (b = b0 ∨ (below K x i ∧ b = disconnected_broker b0)).
Proof.
  intros [[L B] _ _] Hb. destruct (lookup_lt_is_Some_2 (mv_elements (brokers_ s)) i) as [b0 Hb0].
  { rewrite <-L. by eapply lookup_lt_Some. }
  exists b0. split; [done|].
  destruct (B i b0 Hb0) as [E|[Hbl E]]; rewrite E in Hb; injection Hb as <-; auto.
Qed.

Lemma all_disconnected_iff K x s s1 ii brk :
  marks K x s s1 → brokers_done K x s1 →
  mv_elements (brokers_ s) !! ii = Some brk → bi_nonLocal brk = false →
  cs_lt (getAllConnectionState s1) cs_disconnected = false ↔
    ∀ i b, mv_elements (brokers_ s) !! i = Some b → bi_nonLocal b = false →
      bi_state b = cs_disconnected ∨ below K x i.
Proof.
  intros Hm Hd Hbrk Hl. pose proof Hm as [[_ B] _ _].
  assert (∀ i b, mv_elements (brokers_ s) !! i = Some b → bi_nonLocal b = false →
    ∃ b1, b1 ∈ locals s1 ∧ mv_elements (brokers_ s1) !! i = Some b1) as Hlocal.
  { intros i b Hb Hn. destruct (B i b Hb) as [E|[_ E]]; (eexists; split; [|exact E]);
      apply list_elem_of_filter; (split; [exact Hn|]); by eapply list_elem_of_lookup_2. }
  assert (∀ st, cs_lt st cs_disconnected = false ↔ st = cs_disconnected) as Hst by (by intros []).
  rewrite getAllConnectionState_spec, decide_False, Forall_forall.
  2: { intros E. destruct (Hlocal ii brk Hbrk Hl) as (b1 & Hin & _). rewrite E in Hin.
       by apply elem_of_nil in Hin. }
  split.
  - intros Hall i b Hb Hn. destruct (Hlocal i b Hb Hn) as (b1 & Hin & Hb1).
    apply Hall, Hst in Hin. destruct (marks_element _ _ _ _ _ _ Hm Hb1) as (b0 & Hb0 & [->|[? _]]);
      [|by right]. left. by simplify_eq.
  - intros Hall b1 [Hn [i Hb1]%list_elem_of_lookup]%list_elem_of_filter. apply Hst.
    destruct (marks_element _ _ _ _ _ _ Hm Hb1) as (b0 & Hb0 & [->|[_ ->]]); [|done].
    destruct (Hall i b0 Hb0 Hn) as [|Hbl]; [done|].
    destruct (Hd i Hbl) as (b2 & Hb2 & E). by simplify_eq.
Qed.

(** C21. The root stops exactly when everything directly below it is disconnected: a
    disconnection that reaches it from a broker or core directly below is acknowledged,
    and the message that stops the root is queued if and only if every broker and core
    directly below was disconnected before or is disconnected with the one that leaves.
    One that is in error is neither, so it keeps the root from stopping. *)
Theorem root_stops_iff s command ii brk :
  root_reach le s → parents_first s → ftc_ids_in_range (timeCoord (cb_base s)) →
  global_broker_id_local (cb_base s) ≠ parent_broker_id →
  action command = cmd_disconnect → dest_id command = parent_broker_id →
  mv_elements (brokers_ s) !! ii = Some brk → bi_nonLocal brk = false →
  source_id command = bi_global_id brk →
  ∃ s' out, processCommand le command s = Some (Ok (s', out, tt)) ∧
    (stop_queued out ↔ ∀ i b, mv_elements (brokers_ s) !! i = Some b → bi_nonLocal b = false →
       bi_state b = cs_disconnected ∨ below (skels s) (bi_global_id brk) i) ∧
    (checkActionFlag command error_flag = false →
       Transmit (bi_route brk) (disconnectAck (global_broker_id_local (cb_base s)) brk) ∈ out).
Proof.
  intros Hreach%root_reach_inv Hp Hids Hl Ha Hd Hbrk Hloc Hsrc.
  destruct (registry_find_broker s ii brk Hreach Hbrk) as (_ & _ & Hid & _).
  unfold processCommand. rewrite eff_get_bind, Ha. unfold processDisconnect.
  rewrite eff_get_bind, Ha, Hd, Hsrc, Hid, (proj2 (Z.eqb_neq _ _)), Z.eqb_refl by congruence.
  rewrite (ri_isRootc _ Hreach). cbn [negb andb].
  destruct (disconnectBroker_spec s ii brk) as (s2 & out1 & [] & E1 & Hq & s1 & Hm & Hdone & Hu);
    [apply Hreach|done|done|].
  assert (∃ brk2, mv_elements (brokers_ s2) !! ii = Some brk2 ∧
    (brk2 = brk ∨ brk2 = disconnected_broker brk)) as (brk2 & Hbrk2 & Hcase).
  { rewrite Hu. cbn. destruct Hm as [[_ B] _ _]. destruct (B ii brk Hbrk) as [?|[_ ?]]; eauto. }
  assert (getAllConnectionState s2 = getAllConnectionState s1 ∧ isRootc s2 = isRootc s ∧
    cb_base s2 = cb_base s) as (Hst & Hr & Hb).
  { rewrite Hu. split; [done|]. by rewrite (mk_rest _ _ _ _ Hm). }
  destruct (disconnectAfter_spec s2 command ii brk2) as (s3 & out2 & [] & E2 & Hstop & Hack);
    [by rewrite Hr, (ri_isRootc _ Hreach)|by rewrite Hb|done|by destruct Hcase as [->| ->]|].
  exists s3, (out1 ++ out2). split; [|split].
  - unfold mbind, effM_bind. by rewrite E1, E2.
  - unfold stop_queued. rewrite elem_of_app, <-(all_disconnected_iff _ _ _ _ _ _ Hm Hdone Hbrk Hloc).
    rewrite <-Hst, <-Hstop. split; [|by right]. intros [Hs|]; [|done].
    by destruct (quiet_not_stop _ Hq Hs).
  - intros Hf. apply elem_of_app. right. specialize (Hack Hf). rewrite Hb in Hack.
    by destruct Hcase as [->| ->].
Qed.
End stop.
