(* ===== verification/BrokerTree.v ===== *)
(** * Registration through a chain of brokers

    A federate that is not directly below the root registers through the brokers between:
    each enters it and hands the request to the broker above; the root gives the
    identifier; on the way back each broker learns the identifier and the route to the
    federate.  [register_along] runs the handlers of all brokers on the way, the messages
    being carried from one to the next. *)

From stdpp Require Import strings.
From S2P Require Import Prelude HelicsTime Ids Flags ActionMessage MessageCodec.
From S2P Require Import Definitions TimeDependencies TimeCoordinator.
From S2P Require Import ForwardingTimeCoordinator HandleManager UnknownHandles.
From S2P Require Import Effects MappedVector BrokerBase BrokerState CoreBroker BrokerFrame.
From S2P Require Import BrokerRegistry.

Section tree.
  Context `{TimeRep} `{SteadyClock} `{TimeMs} `{Fmt} `{MappedVectorLaws C} `{BrokerText}.
  Context (le : bool).
  Abbreviation CB := (CoreBroker C).
  Implicit Types (s sub root : CB) (command ack : ActionMessage).

(** ** The exchange *)

(** The state after an operation and the message it sent last. *)
Definition last_sent (r : option (outcome (CB * list broker_out * unit)))
    : option (CB * route_id * ActionMessage) :=
  match r with
  | Some (Ok (s', out, _)) =>
      match last out with Some (Transmit rid m) => Some (s', rid, m) | _ => None end
  | _ => None
  end.

(** The brokers are listed from the one that gets the request to the root. *)
Fixpoint register_along (subs : list CB) root command
    : option (list CB * route_id * ActionMessage) :=
  match subs with
  | [] =>
      '(root', rid, ack) ← last_sent (processPriorityCommand le command root);
      Some ([root'], rid, ack)
  | sub :: subs =>
      '(sub1, up, request) ← last_sent (processPriorityCommand le command sub);
      if up =? parent_route_id then
        '(rest, _, ack) ← register_along subs root request;
        '(sub2, rid, ack) ← last_sent (processPriorityCommand le ack sub1);
        Some (sub2 :: rest, rid, ack)
      else None
  end.

(** What a broker knows about a federate that registered over [source]. *)
Definition knows (name : string) (gid source : global_federate_id) s s' : Prop :=
  (∃ i fed, mv_find1 (federates_ s') name = Some (i, fed) ∧
     mv_find2 (federates_ s') gid = Some (i, fed) ∧
     fi_global_id fed = gid ∧ fi_parent fed = source) ∧
  getRoute s' gid = getRoute s source ∧
  (∀ id, id ≠ gid → getRoute s' id = getRoute s id).

(** Each broker of the chain knows it over the one below. *)
Fixpoint all_know (name : string) (gid source : global_federate_id) (l l' : list CB) : Prop :=
  match l, l' with
  | [], [] => True
  | s :: l, s' :: l' =>
      knows name gid source s s' ∧
      all_know name gid (global_broker_id_local (cb_base s)) l l'
  | _, _ => False
  end.

(** A broker that is connected, not operating and has nothing under the name or the
    identifier. *)
Record sub_open (name : string) (gid : global_federate_id) s : Prop := {
  so_sub : isRootc s = false;
  so_connected : connectionEstablished s = true;
  so_state : brokerState (cb_base s) ≠ bs_operating;
  so_local : fed_isValid (global_broker_id_local (cb_base s)) = true;
  so_name : mv_find1 (federates_ s) name = None;
  so_id : mv_find2 (federates_ s) gid = None;
  so_route : routing_table s !! gid = None;
  so_higher : higher_broker_id (cb_base s) ≠ gid;
}.

(** ** The steps *)

(** The federate in a broker that waits for the answer. *)
Definition pending_entry s command : BasicFedInfo :=
  (newFedInfo (payload command)) <| fi_route := getRoute s (source_id command) |>
    <| fi_parent := source_id command |>.

Lemma sub_request s command gid :
  sub_open (payload command) gid s → action command = cmd_reg_fed →
  ∃ c, named (payload command) (federates_ s) (pending_entry s command) c ∧
    last_sent (processPriorityCommand le command s) =
      Some (s <| federates_ := c |>, parent_route_id,
            command <| source_id := global_broker_id_local (cb_base s) |>).
Proof.
  intros [Hr Hc Ho Hl Hk _ _ _] Ha. rewrite mv_find1_None in Hk.
  rewrite priority_reg_fed by done.
  set (c := mv_alter_back (λ fed, fed <| fi_route := getRoute s (source_id command) |>
                                      <| fi_parent := source_id command |>)
    (mv_insert1 (payload command) (newFedInfo (payload command)) (federates_ s)).1). exists c.
  assert (etotal (registerFederate command) s (λ s' out _,
    s' = s <| federates_ := c |> ∧ out = notReady s ++ [Transmit parent_route_id
      (command <| source_id := global_broker_id_local (cb_base s) |>)])) as Hreg.
  { unfold registerFederate. do 2 br_step. rewrite Hc. cbn [negb].
    rewrite bool_decide_false by done. br_step. apply noLongerReady_spec.
    rewrite Hk. do 4 br_step. rewrite Hr, Hl. cbn [negb]. br_step. done. }
  destruct Hreg as (s' & out & [] & E & -> & ->). rewrite E. cbn [last_sent].
  rewrite last_snoc. split; [|done].
  exact (alter_named (λ fed, fed <| fi_route := getRoute s (source_id command) |>
                                 <| fi_parent := source_id command |>) _ _ _ _
             (insert1_named _ (newFedInfo (payload command)) _ Hk)).
Qed.

Lemma sub_answer s command gid c ack :
  sub_open (payload command) gid s →
  named (payload command) (federates_ s) (pending_entry s command) c →
  0 < gid → action ack = cmd_fed_ack → dest_id ack = gid → payload ack = payload command →
  ∃ s', last_sent (processPriorityCommand le ack (s <| federates_ := c |>)) =
          Some (s', getRoute s (source_id command), ack) ∧
    knows (payload command) gid (source_id command) s s'.
Proof.
  intros [_ _ _ _ Hk Hid Hrt Hh] Hnm Hpos Ha Hd Hp. rewrite mv_find2_None in Hid.
  set (s1 := s <| federates_ := c |>). set (fed := pending_entry s command) in *.
  set (n := length (mv_elements (federates_ s))).
  assert (mv_index1 c (payload command) = Some n) as Hn.
  { rewrite (nm_index1 _ _ _ _ Hnm). by rewrite decide_True. }
  assert (mv_elements c !! n = Some fed) as Hfed.
  { rewrite (nm_elements _ _ _ _ Hnm), lookup_app_r, Nat.sub_diag; done. }
  set (c' := mv_addTermByName gid (payload command)
    (mv_alter (λ fed, fed <| fi_global_id := gid |>) n c)).
  assert (c' = mv_addTerm gid n (mv_alter (λ fed, fed <| fi_global_id := gid |>) n c)) as Hc'.
  { unfold c', mv_addTermByName. by rewrite mv_alter_index1, Hn. }
  assert (etotal (federateAck ack) s1 (λ s' out _,
    s' = s1 <| federates_ := c' |>
            <| routing_table := map_emplace gid (fi_route fed) (routing_table s) |> ∧
    out = [Transmit (fi_route fed) ack])) as Hack.
  { unfold federateAck. do 2 br_step.
    rewrite Hp, (proj2 (mv_find1_Some c (payload command) n fed)) by done. rewrite Hd.
    do 5 br_step. br_step. br_step. done. }
  destruct Hack as (s' & out & [] & E & -> & ->). eexists. split.
  { unfold processPriorityCommand, processPriorityCase. rewrite Ha.
    rewrite (eff_get_bind (λ _, federateAck ack)), E. reflexivity. }
  rewrite emplace_fresh by done. split; [|split].
  - exists n, (fed <| fi_global_id := gid |>). rewrite mv_find1_Some, mv_find2_Some.
    cbn [federates_ upd]. rewrite Hc', mv_addTerm_elements, mv_addTerm_index1.
    rewrite mv_addTerm_index2, decide_True, mv_alter_index1, mv_alter_elements; [|done|..].
    + by rewrite list_lookup_alter_eq, Hfed.
    + rewrite mv_alter_elements, length_alter. by eapply lookup_lt_Some.
    + by rewrite mv_alter_index2, (nm_index2 _ _ _ _ Hnm).
  - unfold getRoute at 1. cbn [cb_base routing_table upd].
    rewrite lookup_insert_eq, !(proj2 (Z.eqb_neq _ _)); [done|done|].
    unfold parent_broker_id. lia.
  - intros id Hne. unfold getRoute. cbn [cb_base routing_table upd].
    by rewrite lookup_insert_ne.
Qed.

Lemma root_answer root command :
  let gid := fed_id_of (mv_size (federates_ root)) in
  root_inv root → room 1 root → connectionEstablished root = true →
  brokerState (cb_base root) ≠ bs_operating → action command = cmd_reg_fed →
  mv_find1 (federates_ root) (payload command) = None →
  ∃ root', last_sent (processPriorityCommand le command root) =
             Some (root', getRoute root (source_id command), fed_reply root command) ∧
    knows (payload command) gid (source_id command) root root'.
Proof.
  intros gid Hr Hn Hc Ho Ha Hk.
  destruct (root_registers_federate le root command) as (root' & E & [Hen Hs'] & Hroute);
    [done..|].
  exists root'. rewrite E. cbn [last_sent]. rewrite last_snoc. split; [done|].
  split; [|exact Hroute].
  exists (mv_size (federates_ root)), (fed_entry root command).
  rewrite mv_find1_Some, mv_find2_Some, (en_elements _ _ _ _ _ Hen), lookup_app_r by done.
  rewrite (en_index1 _ _ _ _ _ Hen), (en_index2 _ _ _ _ _ Hen), !decide_True by done.
  unfold mv_size. by rewrite Nat.sub_diag.
Qed.

(** A federate that registers through any number of brokers is answered with the
    identifier that the root gave; then every broker on the way and the root know it
    under its name and that identifier, and their routes for the identifier lead back
    along the way of the request, other routes being as before. *)
Theorem registration_through_brokers subs root command :
  let gid := fed_id_of (mv_size (federates_ root)) in
  root_reach le root → room 1 root → connectionEstablished root = true →
  brokerState (cb_base root) ≠ bs_operating → action command = cmd_reg_fed →
  mv_find1 (federates_ root) (payload command) = None →
  Forall (sub_open (payload command) gid) subs →
  ∃ l, register_along subs root command =
      Some (l, getRoute (hd root subs) (source_id command), fed_reply root command) ∧
    all_know (payload command) gid (source_id command) (subs ++ [root]) l.
Proof.
  intros gid Hreach%root_reach_inv Hn Hc Ho. revert command.
  induction subs as [|sub subs IH]; intros command Ha Hk Hsubs.
  - destruct (root_answer root command) as (root' & E & Hk'); [done..|].
    exists [root']. cbn [register_along]. rewrite E. done.
  - apply Forall_cons in Hsubs as [Hsub Hsubs].
    destruct (sub_request sub command gid Hsub Ha) as (c & Hnm & E). cbn [register_along].
    rewrite E. cbn [mbind option_bind].
    destruct (IH (command <| source_id := global_broker_id_local (cb_base sub) |>))
      as (l & El & Hl); [done..|].
    destruct (sub_answer sub command gid c (fed_reply root command)) as (s' & Es' & Hs');
      [done..| |done|done|done|].
    { unfold gid, fed_id_of, global_federate_id_shift. lia. }
    exists (s' :: l). rewrite El. cbn [mbind option_bind].
    change (fed_reply root (command <| source_id := _ |>)) with (fed_reply root command).
    rewrite Es'. done.
Qed.
End tree.
