(* ===== verification/BrokerLinks.v ===== *)
(** * The connection of interfaces by name

    A request for an interface can reach the root before or after the interface is
    registered.  The theorems say that both orders leave the broker in the same state and
    connect the same handles. *)

From stdpp Require Import strings.
From S2P Require Import Prelude HelicsTime Ids Flags ActionMessage MessageCodec.
From S2P Require Import Definitions TimeDependencies TimeCoordinator.
From S2P Require Import ForwardingTimeCoordinator HandleManager HandleFacts UnknownHandles.
From S2P Require Import Effects MappedVector BrokerBase BrokerState CoreBroker BrokerFrame.
From S2P Require Import BrokerRegistry.

Section links.
  Context `{TimeRep} `{SteadyClock} `{TimeMs} `{Fmt} `{MappedVectorLaws C} `{BrokerText}.
  Context (le : bool).
  Abbreviation CB := (CoreBroker C).
  Abbreviation M := (effM CB broker_out).
  Implicit Types (s : CB) (reg req m : ActionMessage).

(** A connection that is made known to a federate: the route, what is said, and the two
    handles. *)
Definition link : Type := route_id * action_t * global_handle * global_handle.
Definition link_of (out : broker_out) : option link :=
  match out with
  | Transmit rid m => Some (rid, action m, getSource m, getDest m)
  | _ => None
  end.
Definition links (outs : list broker_out) : list link := omap link_of outs.

Lemma routeMessage_routed m s : routeMessage m s = transmitRouted m s.
Proof.
  unfold routeMessage, transmitRouted. rewrite !eff_get_bind. unfold getRoute.
  by destruct (_ || _).
Qed.
Lemma total_routeMessage m s (P : CB → list broker_out → unit → Prop) :
  P s [Transmit (getRoute s (dest_id m)) m] tt → etotal (routeMessage m) s P.
Proof.
  intros HP. unfold etotal. rewrite routeMessage_routed. by apply etotal_bind, etotal_get, etotal_emit.
Qed.

(** ** The registration of an interface *)

(** The entry for an interface and the handles with it. *)
Definition interface_entry s (what : handle_type) reg : BasicHandleInfo :=
  addLocalInfo s (newHandleInfo (source_id reg) (source_handle reg) what (payload reg)
                    (getString reg 0) (getString reg 1)) reg.
Definition with_interface s (what : handle_type) reg : CB :=
  let hm := (addHandleLocal (cb_handles s) (source_id reg) (source_handle reg) what
               (payload reg) (getString reg 0) (getString reg 1)).1 in
  s <| cb_handles := hm <| handles := <[pred (length (handles hm)) :=
         interface_entry s what reg]> (handles hm) |> |>.

Lemma addInterface_spec s what reg (P : CB → list broker_out → BasicHandleInfo → Prop) :
  payload reg ≠ "" →
  P (with_interface s what reg) [] (interface_entry s what reg) →
  etotal (addInterface what (payload reg) (getString reg 0) (getString reg 1) reg) s P.
Proof.
  intros Hk HP. unfold addInterface. do 2 br_step.
  unfold with_interface, interface_entry, addHandleLocal in *.
  rewrite (proj2 (String.eqb_neq _ _) Hk) in *. cbn [negb fst] in *.
  do 2 br_step. by apply etotal_ret.
Qed.

Lemma interface_found s what reg :
  payload reg ≠ "" → what ≠ ht_unknown → names (cb_handles s) what !! payload reg = None →
  Z.of_nat (length (handles (cb_handles s))) < 2 ^ 31 →
  let hm := cb_handles (with_interface s what reg) in
  findName hm (names hm what) (payload reg) = Ok (Some (interface_entry s what reg)).
Proof.
  intros Hk Hw Hfresh Hlen hm. unfold hm, with_interface, addHandleLocal.
  rewrite (proj2 (String.eqb_neq _ _) Hk). cbn [negb fst cb_handles upd].
  set (hi0 := newHandleInfo _ _ _ _ _ _). set (h0 := cb_handles s) in *.
  set (h1 := addSearchFields _ hi0 _).
  assert (handles h1 = handles h0 ++ [hi0]) as Hh by apply addSearchFields_handles.
  assert (∀ l, names (mkHandleManager l (publications h1) (endpoints h1) (inputs h1) (filters h1)
    (unique_ids h1)) what = names h1 what) as Hn by (by destruct what).
  unfold findName. rewrite Hn. unfold h1 at 1. rewrite addSearchFields_names, decide_True by done.
  rewrite map_emplace_lookup.
  replace (names _ what !! payload reg) with (@None Z) by (rewrite <-Hfresh; by destruct what).
  rewrite decide_True by done. rewrite (handle_at_has _ _ (interface_entry s what reg)); [done|].
  rewrite handles_size_eq by done. split; [lia|]. cbn [handles upd].
  rewrite Hh, length_app, Nat2Z.id. cbn [length].
  replace (pred _) with (length (handles h0)) by lia.
  apply list_lookup_insert_eq. rewrite length_app. cbn. lia.
Qed.

(** ** Publications *)

(** The two messages that connect an input to a publication. *)
Definition pub_links s reg req : list link :=
  let pub := GlobalHandle (source_id reg) (source_handle reg) in
  [(getRoute s (source_id reg), cmd_add_subscriber, getSource req, pub);
   (getRoute s (source_id req), cmd_add_publisher, pub, getSource req)].

Lemma targets_none_erase {V} (m : multimap V) key : getTargets m key = [] → mm_erase key m = m.
Proof.
  unfold getTargets, mm_erase. induction m as [|[k v] m IH]; [done|].
  rewrite !filter_cons. cbn [fst]. destruct (decide (k = key)) as [->|Hne]; [done|].
  rewrite (decide_True (P := k ≠ key)) by done. intros E. by rewrite IH.
Qed.

Lemma clear_nothing u key :
  checkForPublications u key = [] → checkForLinks u key = [] → clearPublication u key = u.
Proof.
  intros Hp Hl. unfold clearPublication. rewrite !targets_none_erase by done. by destruct u.
Qed.

Lemma check_added u key target f :
  checkForPublications u key = [] →
  checkForPublications (addUnknownPublication u key target f) key = [(target, f)].
Proof.
  unfold checkForPublications, addUnknownPublication, getTargets, mm_emplace. intros E.
  cbn [unknown_publications upd]. rewrite filter_cons_True by done.
  rewrite fmap_cons, E. done.
Qed.
Lemma clear_added u key target f :
  checkForPublications u key = [] → checkForLinks u key = [] →
  clearPublication (addUnknownPublication u key target f) key = u.
Proof.
  intros Hp Hl. unfold clearPublication, addUnknownPublication, mm_emplace.
  cbn [unknown_publications unknown_links upd].
  assert (mm_erase key ((key, (target, f)) :: unknown_publications u)
          = unknown_publications u) as ->.
  { unfold mm_erase. rewrite filter_cons_False by (cbn; tauto). by apply targets_none_erase. }
  rewrite targets_none_erase by done. by destruct u.
Qed.

Lemma process_reg_pub s reg :
  isRootc s = true → action reg = cmd_reg_pub → processCommand le reg s = addPublication reg s.
Proof.
  intros Hr Ha. unfold processCommand. rewrite eff_get_bind, Ha. unfold registerInterface.
  by rewrite eff_get_bind, Hr.
Qed.
Lemma process_named_pub s req :
  action req = cmd_add_named_publication →
  processCommand le req s = checkForNamedInterface req s.
Proof. intros Ha. unfold processCommand. by rewrite eff_get_bind, Ha. Qed.

(** What connects an input that waits for the publication. *)
Definition waiting_links s (pub : BasicHandleInfo) (sub : targetInfo) : list link :=
  [(getRoute s (fed_id (hi_handle pub)), cmd_add_subscriber, sub.1, hi_handle pub);
   (getRoute s (fed_id sub.1), cmd_add_publisher, hi_handle pub, sub.1)].

Lemma each_links {A} (f : A → M unit) (g : A → list link) l s :
  (∀ a, etotal (f a) s (λ s' out _, s' = s ∧ links out = g a)) →
  etotal (eff_each f l) s (λ s' out _, s' = s ∧ links out = concat (g <$> l)).
Proof.
  intros Hf. induction l as [|a l IH]; cbn [eff_each]; [by apply etotal_ret|].
  apply etotal_bind. eapply etotal_mono; [apply Hf|]. intros s1 out1 [] [-> E1].
  eapply etotal_mono; [apply IH|]. intros s2 out2 [] [-> E2]. split; [done|].
  unfold links in *. rewrite omap_app, E1, E2. done.
Qed.

Lemma notifySubscriber_links s pub sub :
  etotal (notifySubscriber pub sub) s (λ s' out _, s' = s ∧ links out = waiting_links s pub sub).
Proof.
  unfold notifySubscriber, transmitRouted. do 4 br_step. do 3 br_step. split; [done|].
  destruct sub as [[] ?]. cbn. unfold waiting_links. destruct (hi_handle pub). done.
Qed.

(** The registration of a publication that no link names. *)
Lemma register_publication s reg :
  isRootc s = true → payload reg ≠ "" → publications (cb_handles s) !! payload reg = None →
  checkForLinks (unknownHandles s) (payload reg) = [] →
  etotal (addPublication reg) s (λ s' out _,
    s' = (with_interface s ht_publication reg)
           <| unknownHandles := clearPublication (unknownHandles s) (payload reg) |> ∧
    links out = concat (waiting_links s (interface_entry s ht_publication reg) <$>
                          checkForPublications (unknownHandles s) (payload reg))).
Proof.
  intros Hr Hk Hf Hl. unfold addPublication. do 2 br_step.
  apply etotal_bind. unfold getPublication, findName. rewrite Hf.
  unfold eff_lift. exists s, [], None. split; [done|].
  br_step. apply addInterface_spec; [done|]. rewrite Hr. cbn [negb].
  set (s1 := with_interface s ht_publication reg).
  set (pub := interface_entry s ht_publication reg).
  assert (hi_key pub = payload reg) as Hkey.
  { unfold pub, interface_entry, addLocalInfo. by destruct (global_id_translation s !! _). }
  unfold FindandNotifyPublicationTargets. do 2 br_step. rewrite Hkey.
  change (unknownHandles s1) with (unknownHandles s).
  set (subs := checkForPublications _ _). br_step.
  eapply etotal_mono; [apply each_links, notifySubscriber_links|].
  intros s2 out2 [] [-> E2]. do 2 br_step.
  change (unknownHandles s1) with (unknownHandles s). rewrite Hl. cbn [eff_each].
  do 2 br_step. cbn [app]. apply etotal_when; intros Hc; [br_step|].
  - split; [done|]. cbn [app]. by rewrite !app_nil_r.
  - cbn [app]. rewrite !app_nil_r. split; [|done].
    rewrite (bool_decide_true ([] = [])), andb_true_r, negb_false_iff, bool_decide_eq_true in Hc
      by done. rewrite (clear_nothing _ _ Hc Hl). by destruct s.
Qed.

(** The answer to a request for a publication that is known. *)
Lemma request_publication s req pub jj fed :
  action req = cmd_add_named_publication →
  getPublication (cb_handles s) (payload req) = Ok (Some pub) →
  mv_find2 (federates_ s) (fed_id (hi_handle pub)) = Some (jj, fed) →
  cs_lt (fi_state fed) cs_error = true →
  etotal (checkForNamedInterface req) s (λ s' out _,
    s' = s ∧ links out = waiting_links s pub (getSource req, flags req)).
Proof.
  intros Ha Hp Hf Ho. unfold checkForNamedInterface. do 2 br_step. rewrite Ha, Hp.
  br_step. unfold eff_lift. exists s, [], (Some pub). split; [done|].
  unfold connectPublication. br_step. unfold federateInOrder. do 2 br_step. rewrite Hf.
  br_step. rewrite Ho. br_step. apply total_routeMessage, total_routeMessage.
  split; [done|]. cbn. unfold waiting_links. by destruct (hi_handle pub).
Qed.

(** A request for a publication that is not known is kept. *)
Lemma request_unknown s req :
  isRootc s = true → action req = cmd_add_named_publication →
  publications (cb_handles s) !! payload req = None →
  checkForNamedInterface req s = Some (Ok (s <| unknownHandles :=
    addUnknownPublication (unknownHandles s) (payload req) (getSource req) (flags req) |>, [], tt)).
Proof.
  intros Hr Ha Hp. unfold checkForNamedInterface. rewrite eff_get_bind, Ha.
  unfold getPublication, findName. rewrite Hp.
  rewrite (eff_bind_ok _ _ s s None) by done. unfold unknownInterface.
  by rewrite eff_get_bind, Hr, Ha.
Qed.

End links.
