(* ===== verification/BrokerTimeout.v ===== *)
(** * Pings and timeouts (TimeoutMonitor.cpp)

    A broker in operation checks its connections on every tick.  The theorems say when a
    connection is reported as lost, and what becomes of the ping that the root sends to a
    broker below it. *)

From stdpp Require Import strings.
From S2P Require Import Prelude HelicsTime Ids Flags ActionMessage MessageCodec.
From S2P Require Import Definitions TimeDependencies TimeCoordinator.
From S2P Require Import ForwardingTimeCoordinator HandleManager UnknownHandles.
From S2P Require Import Effects MappedVector BrokerBase BrokerState CoreBroker BrokerFrame.
From S2P Require Import BrokerRegistry BrokerInit BrokerDisconnect BrokerStop BrokerLoop.

Section timeout.
  Context `{TimeRep} `{SteadyClock} `{TimeMs} `{Fmt} `{MappedVectorLaws C} `{BrokerText}.
  Context (le : bool).
  Abbreviation CB := (CoreBroker C).
  Abbreviation M := (effM CB broker_out).
  Abbreviation quiet := (Forall not_queued).
  Implicit Types (s : CB) (cmd : ActionMessage) (brkr : BasicBrokerInfo).

(** ** The pings *)

Definition with_monitor s (t : TimeoutMonitor) : CB := s <| timeoutMon := t |>.
Definition with_connections s (l : list linkConnection) : CB :=
  with_monitor s ((timeoutMon s) <| connections := l |>).

(** The connection of a broker, found or new. *)
Definition new_connection brkr : linkConnection :=
  newLinkConnection <| connection := bi_global_id brkr |> <| disablePing := bi_disable_ping brkr |>.

Lemma connectionIndex_spec brkr s (P : CB → list broker_out → nat → Prop) :
  (∀ i conn, connections (timeoutMon s) !! i = Some conn → connection conn = bi_global_id brkr →
     P s [] i) →
  (Forall (λ c, connection c ≠ bi_global_id brkr) (connections (timeoutMon s)) →
     P (with_connections s (connections (timeoutMon s) ++ [new_connection brkr])) []
       (length (connections (timeoutMon s)))) →
  etotal (connectionIndex brkr) s P.
Proof.
  intros Hfound Hnew. unfold connectionIndex. do 2 br_step.
  destruct (list_find _ _) as [[i conn]|] eqn:E.
  - apply list_find_Some in E as (Hi & Hc & _). br_step. by apply (Hfound i conn).
  - apply list_find_None in E. unfold upd_monitor. do 2 br_step. br_step. by apply Hnew.
Qed.

Lemma pingBroker_quiet now brkr s :
  etotal (pingBroker now brkr) s (λ _ out _, quiet out).
Proof.
  assert (∀ s1 i, is_Some (connections (timeoutMon s1) !! i) → etotal (
    s ← eff_get;
    if cs_lt (bi_state brkr) cs_error then
      match connections (timeoutMon s) !! i with
      | None => eff_lift Fault
      | Some conn =>
          if disablePing conn then mret false
          else
            _ ← alter_connection (λ c, c <| activeConnection := true |>
                  <| waitingForPingReply := true |> <| lastPing := now |>) i;
            _ ← transmit (bi_route brkr)
                  (newMessageTo (if bi_core brkr then cmd_ping else CMD_BROKER_PING)
                     (global_broker_id_local (cb_base s)) (bi_global_id brkr));
            mret true
      end
    else
      _ ← alter_connection (λ c, c <| activeConnection := false |>) i;
      mret false : M bool) s1 (λ _ out _, quiet out)) as Hrest.
  { intros s1 i [conn Hc]. do 2 br_step. rewrite Hc. unfold alter_connection, upd_monitor.
    destruct (cs_lt _ _); [destruct (disablePing conn)|].
    - br_step. constructor.
    - do 5 br_step. repeat constructor.
    - do 3 br_step. constructor. }
  unfold pingBroker. br_step. apply connectionIndex_spec.
  - intros i conn Hc _. apply Hrest. by rewrite Hc.
  - intros _. apply Hrest. cbn. by rewrite list_lookup_middle.
Qed.

Lemma pingBrokers_quiet now brks active s :
  etotal (pingBrokers now brks active) s (λ _ out _, quiet out).
Proof.
  revert active s. induction brks as [|brkr brks IH]; intros active s; cbn [pingBrokers].
  - br_step. constructor.
  - br_step. eapply etotal_mono; [apply pingBroker_quiet|]. intros s1 out1 sent Hq1.
    eapply etotal_mono; [apply IH|]. intros s2 out2 a Hq2. by apply Forall_app.
Qed.

(** The pings of the root: what is queued is only the request to forward ticks. *)
Lemma pingSub_queues s :
  etotal pingSub s (λ _ out _, ∀ m, Queue m ∈ out → action m = cmd_broker_configure).
Proof.
  unfold pingSub, readClock. br_step. br_step. br_step. do 2 br_step. br_step. do 2 br_step.
  br_step. eapply etotal_mono; [apply pingBrokers_quiet|]. intros s1 out a Hq. do 2 br_step.
  unfold eff_when. assert (∀ m l, Queue m ∈ out ++ l → Queue m ∈ l) as Hl.
  { intros m l [Hm|]%elem_of_app; [|done]. rewrite Forall_forall in Hq. by apply Hq in Hm. }
  destruct a; br_step; cbn [app]; intros m Hm%Hl.
  - apply elem_of_cons in Hm as [[= ->]|[]%elem_of_nil]. done.
  - by apply elem_of_nil in Hm.
Qed.

(** ** Lost connections *)

(** The connection waits for a reply for longer than the timeout. *)
Definition lost s (now : Z) (conn : linkConnection) : Prop :=
  waitingForPingReply conn = true ∧ tm_expired (timeoutMon s) now (lastPing conn) = true.
Definition reported (out : list broker_out) (c : global_federate_id) : Prop :=
  ∃ m, Queue m ∈ out ∧ action m = cmd_connection_error ∧ source_id m = c.

Definition tick_out s (now : Z) (conn : linkConnection) : list broker_out :=
  let local := global_broker_id_local (cb_base s) in
  if waitingForPingReply conn then
    [Queue (if tm_expired (timeoutMon s) now (lastPing conn)
            then newMessageTo cmd_connection_error (connection conn) local
            else newMessageTo cmd_ping local (connection conn))]
  else [].

Lemma tickConnections_spec now conns s :
  etotal (eff_each (tickConnection now) conns) s (λ s' out _,
    s' = s ∧ out = (conns ≫= tick_out s now)).
Proof.
  induction conns as [|conn conns IH]; cbn [eff_each]; [by apply etotal_ret|].
  apply etotal_bind. unfold tickConnection. rewrite bind_cons. unfold tick_out at 1.
  apply etotal_when; intros ->.
  - do 2 br_step. destruct (tm_expired _ _ _); br_step;
      (eapply etotal_mono; [apply IH|]); intros s' out [] [-> ->]; done.
  - eapply etotal_mono; [apply IH|]. by intros s' out [] [-> ->].
Qed.

Lemma reported_tick_out s now conns c :
  reported ((conns ≫= tick_out s now)) c ↔
    ∃ conn, conn ∈ conns ∧ connection conn = c ∧ lost s now conn.
Proof.
  unfold reported, lost. split.
  - intros (m & Hm & Ha & Hs). apply list_elem_of_bind in Hm as (conn & Hm & Hin). exists conn. split; [done|].
    unfold tick_out in Hm. destruct (waitingForPingReply conn); [|by apply elem_of_nil in Hm].
    apply list_elem_of_singleton in Hm. injection Hm as ->.
    by destruct (tm_expired _ _ _).
  - intros (conn & Hin & Hc & Hw & He). eexists. split.
    + apply list_elem_of_bind. exists conn. split; [|done].
      unfold tick_out. rewrite Hw, He. by left.
    + done.
Qed.

(** The broker with one more reading of its clock. *)
Definition clock_read s : CB :=
  s <| cb_base := (cb_base s) <| clock_reads := S (clock_reads (cb_base s)) |> |>.

Lemma tick_root s (P : CB → list broker_out → unit → Prop) :
  isRoot s = true → waitingForPingReply (parentConnection (timeoutMon s)) = false →
  let now := steady_now (clock_reads (cb_base s)) in
  let conns := connections (timeoutMon s) in
  (existsb waitingForPingReply conns = true → P (clock_read s) (conns ≫= tick_out s now) tt) →
  (existsb waitingForPingReply conns = false → etotal pingSub (clock_read s) P) →
  etotal tick s P.
Proof.
  intros Hr Hp now conns Hwait Hping. unfold tick. do 2 br_step. rewrite Hp, Hr. br_step.
  unfold readClock. do 2 br_step. do 2 br_step. br_step. br_step. unfold eff_when at 1.
  cbn [negb andb]. do 2 br_step.
  eapply etotal_mono; [exact (tickConnections_spec now conns (clock_read s))|].
  intros s' out [] [-> ->]. cbn [orb]. fold conns.
  destruct (existsb waitingForPingReply conns) eqn:E; cbn [negb].
  - br_step. cbn [app]. rewrite app_nil_r. by apply Hwait.
  - do 2 br_step. change (isRoot (clock_read s)) with (isRoot s). rewrite Hr. cbn [negb].
    eapply etotal_mono; [by apply Hping|]. intros s' out [] HP. cbn [app].
    assert (conns ≫= tick_out (clock_read s) now = []) as ->; [|done].
    clear -E. induction conns as [|conn conns IH]; [done|]. cbn in E.
    apply orb_false_iff in E as [E1 E2]. rewrite bind_cons, IH by done.
    unfold tick_out. by rewrite E1.
Qed.

(** On a tick in operation the root reports a connection as lost if and only if the
    connection waits for the reply to a ping that was sent longer ago than the
    timeout. *)
Theorem tick_reports_iff s :
  isRoot s = true → brokerState (cb_base s) = bs_operating →
  waitingForPingReply (parentConnection (timeoutMon s)) = false →
  let now := steady_now (clock_reads (cb_base s)) in
  ∃ s' out, processCommand le (newMessage cmd_tick) s = Some (Ok (s', out, tt)) ∧
    ∀ c, reported out c ↔
      ∃ conn, conn ∈ connections (timeoutMon s) ∧ connection conn = c ∧ lost s now conn.
Proof.
  intros Hr Ho Hp now. unfold processCommand. rewrite eff_get_bind. cbn [action messageAction newMessage].
  rewrite Ho. change (bool_decide (bs_operating = bs_operating)) with true.
  assert (etotal tick s (λ _ out _, ∀ c, reported out c ↔
    ∃ conn, conn ∈ connections (timeoutMon s) ∧ connection conn = c ∧ lost s now conn))
    as (s' & out & [] & E & HP); [|by exists s', out].
  apply tick_root; [done..| |].
  - intros _ c. apply reported_tick_out.
  - intros E. eapply etotal_mono; [apply pingSub_queues|]. intros s' out [] Hq c. split.
    + intros (m & Hm & Ha & _). apply Hq in Hm. congruence.
    + intros (conn & Hin & _ & Hw & _). apply not_true_iff_false in E. destruct E.
      apply existsb_exists. exists conn. by rewrite <-list_elem_of_In.
Qed.

(** ** The ping of a broker *)

Lemma setup_silent sub m :
  action m = CMD_BROKER_PING → earlyMessages sub = [] →
  ∃ sub', processPriorityCommand le m sub = Some (Ok (sub', [], tt)).
Proof.
  intros Ha He. unfold processPriorityCommand. rewrite Ha. unfold brokerSetup.
  rewrite eff_modify_bind, eff_get_bind.
  match goal with |- context [earlyMessages ?s] =>
    change (earlyMessages s) with (earlyMessages sub) end.
  rewrite He. cbn [eff_each]. rewrite eff_ret_bind. by eexists.
Qed.

Lemma ping_silent fuel m sub :
  action m = CMD_BROKER_PING → earlyMessages sub = [] → ∃ sub',
    @commandProcessor _ CB _ (CoreBroker_virtuals le) le (S fuel) m sub =
      Some (Ok (sub', [], (m, cmd_ignore))).
Proof.
  intros Ha He. destruct (setup_silent sub m Ha He) as [sub' E]. cbn [commandProcessor].
  assert (isPriorityCommand m = true) as Hp by (unfold isPriorityCommand; by rewrite Ha).
  rewrite Ha, Hp. destruct (haltOperations (cb_base sub)) eqn:Hh.
  - exists sub. rewrite (eff_bind_ok _ _ sub sub (cb_base sub)) by done. by rewrite Hh.
  - exists sub'. rewrite (eff_bind_ok _ _ sub sub (cb_base sub)) by done. rewrite Hh.
    cbn [negb eff_when]. by rewrite (eff_bind_ok _ _ sub sub' tt).
Qed.

Lemma pingSub_one s brkr :
  mv_elements (brokers_ s) = [brkr] → connections (timeoutMon s) = [] →
  cs_lt (bi_state brkr) cs_error = true → bi_disable_ping brkr = false →
  etotal pingSub s (λ s' out _,
    s' = (clock_read s) <| timeoutMon := (timeoutMon s) <| connections :=
           [(new_connection brkr) <| activeConnection := true |> <| waitingForPingReply := true |>
              <| lastPing := steady_now (clock_reads (cb_base s)) |>] |> |> ∧
    Transmit (bi_route brkr)
      (newMessageTo (if bi_core brkr then cmd_ping else CMD_BROKER_PING)
         (global_broker_id_local (cb_base s)) (bi_global_id brkr)) ∈ out).
Proof.
  intros Hb Hc Hs Hd. unfold pingSub, readClock. do 3 br_step. do 2 br_step. br_step.
  do 2 br_step.
  change (set_base ((base s) <| clock_reads := S (clock_reads (base s)) |>) s) with (clock_read s).
  change (brokers_ (clock_read s)) with (brokers_ s). rewrite Hb. cbn [pingBrokers].
  do 2 br_step. unfold pingBroker. br_step. apply connectionIndex_spec.
  { intros i conn Hi _. change (timeoutMon (clock_read s)) with (timeoutMon s) in Hi.
    by rewrite Hc in Hi. }
  intros _. change (timeoutMon (clock_read s)) with (timeoutMon s). rewrite Hc.
  cbn [app length]. do 2 br_step. rewrite Hs.
  change (connections (timeoutMon (with_connections (clock_read s) [new_connection brkr])) !! 0%nat)
    with (Some (new_connection brkr)). cbv beta iota.
  change (disablePing (new_connection brkr)) with (bi_disable_ping brkr). rewrite Hd.
  unfold alter_connection, upd_monitor. do 5 br_step. br_step. cbn [orb]. do 2 br_step.
  unfold eff_when. br_step. split.
  - by destruct s.
  - cbn [app]. by left.
Qed.

(** A broker that the root pings is lost: the macro of the ping of a broker names the
    setup command, which a broker processes without an answer.  The root goes on waiting,
    and on the first tick after the timeout it reports the connection as lost. *)
Theorem broker_ping_lost s brkr :
  isRoot s = true → brokerState (cb_base s) = bs_operating →
  waitingForPingReply (parentConnection (timeoutMon s)) = false →
  mv_elements (brokers_ s) = [brkr] → connections (timeoutMon s) = [] →
  cs_lt (bi_state brkr) cs_error = true → bi_disable_ping brkr = false → bi_core brkr = false →
  (let n := clock_reads (cb_base s) in
   tm_timeout (timeoutMon s) * 1000000 < steady_now (2 + n) - steady_now (1 + n)) →
  ∃ ping s1 out1 s2 out2,
    processCommand le (newMessage cmd_tick) s = Some (Ok (s1, out1, tt)) ∧
    Transmit (bi_route brkr) ping ∈ out1 ∧
    (∀ sub fuel, earlyMessages sub = [] → ∃ sub',
       @commandProcessor _ CB _ (CoreBroker_virtuals le) le (S fuel) ping sub =
         Some (Ok (sub', [], (ping, cmd_ignore)))) ∧
    processCommand le (newMessage cmd_tick) s1 = Some (Ok (s2, out2, tt)) ∧
    reported out2 (bi_global_id brkr).
Proof.
  intros Hr Ho Hp Hb Hc Hs Hd Hcore Hlate.
  assert (∀ s', brokerState (cb_base s') = bs_operating →
    processCommand le (newMessage cmd_tick) s' = tick s') as Htick.
  { intros s' Ho'. unfold processCommand. rewrite eff_get_bind. cbn [action messageAction newMessage].
    by rewrite Ho'. }
  exists (newMessageTo CMD_BROKER_PING (global_broker_id_local (cb_base s)) (bi_global_id brkr)).
  assert (etotal tick s (λ s1 out _, s1 = (clock_read (clock_read s)) <| timeoutMon :=
      (timeoutMon s) <| connections :=
         [(new_connection brkr) <| activeConnection := true |> <| waitingForPingReply := true |>
            <| lastPing := steady_now (1 + clock_reads (cb_base s)) |>] |> |> ∧
      Transmit (bi_route brkr) (newMessageTo CMD_BROKER_PING
        (global_broker_id_local (cb_base s)) (bi_global_id brkr)) ∈ out))
    as (s1 & out1 & [] & E1 & -> & Hin).
  { apply tick_root; [done..| |]; rewrite Hc; [done|]. intros _.
    eapply etotal_mono; [by apply (pingSub_one (clock_read s) brkr)|].
    rewrite Hcore. by intros s1 out [] [-> Hin]. }
  set (s1 := _ <| timeoutMon := _ |>) in *.
  assert (etotal tick s1 (λ _ out _, reported out (bi_global_id brkr))) as (s2 & out2 & [] & E2 & Hrep).
  { apply tick_root; [done|done| |done]. intros _. apply reported_tick_out.
    eexists. split; [by left|]. split; [done|]. split; [done|].
    unfold tm_expired. apply Z.ltb_lt, Hlate. }
  exists s1, out1, s2, out2. rewrite !Htick by done. do 2 (split; [done|]). split; [|done].
  intros sub fuel He. by apply ping_silent.
Qed.
End timeout.
