(* ===== verification/BrokerExamples.v ===== *)
(** * A root broker from its configuration to the end of a core

    The parameters of the model of a broker instantiated by concrete ones (the listed
    containers, a clock that is read once in an hour), a run of a root broker with one
    core and one federate, and the properties of the broker at the states of the run. *)

From stdpp Require Import strings.
From S2P Require Import Prelude HelicsTime Ids Flags ActionMessage MessageCodec.
From S2P Require Import Definitions TimeDependencies TimeCoordinator.
From S2P Require Import ForwardingTimeCoordinator HandleManager UnknownHandles.
From S2P Require Import Effects MappedVector BrokerBase BrokerState CoreBroker BrokerFrame.
From S2P Require Import CodecFacts MultiMessage BrokerLoop HandleFacts.
From S2P Require Import BrokerRegistry BrokerInit BrokerDisconnect BrokerStop BrokerTree.
From S2P Require Import BrokerLinks BrokerTimeout.

(** ** Instances *)

#[export] Instance hour_clock : SteadyClock := λ n, 3600000000000 * Z.of_nat n.
#[export] Instance nano_ms : TimeMs := λ t, t / 1000000.
#[export] Instance bare_fmt : Fmt := λ text _, text.
#[export] Instance bare_text : BrokerText := {|
  str2vector text := []; values_list m := ""; values_json m := "";
|}.

Abbreviation sample_broker := (CoreBroker mvec).

(** The state a call leaves. *)
Definition left_by {A} (m : effM sample_broker broker_out A) (s : sample_broker)
    : sample_broker :=
  match m s with Some (Ok (s', _, _)) => s' | _ => s end.
Lemma left_by_ok {A} (m : effM sample_broker broker_out A) s :
  match m s with Some (Ok _) => true | _ => false end = true →
  ∃ out a, m s = Some (Ok (left_by m s, out, a)).
Proof. unfold left_by. destruct (m s) as [[[[s' out] a]| |]|]; try done. eauto. Qed.

(** ** A run *)

Definition root_configured : sample_broker :=
  let s := left_by setAsRoot (newCoreBroker true "root") in
  s <| cb_base := (cb_base s) <| brokerState := bs_configured |> |>.
Definition root_connected : sample_broker := left_by (connect true "here") root_configured.
Definition root_ready : sample_broker :=
  left_by (processPriorityCommand false (newMessage cmd_broker_setup)) root_connected.

(** The registration of a core, and of a federate of the core. *)
Definition core_joins : ActionMessage :=
  setActionFlag ((newMessage cmd_reg_broker) <| source_id := invalid_global_fed_id |>
                   <| payload := "core" |>) core_flag.
Definition fed_joins : ActionMessage :=
  (newMessage cmd_reg_fed) <| source_id := broker_id_of 0 |> <| payload := "fed" |>.
Definition root_with_core : sample_broker :=
  left_by (processPriorityCommand false core_joins) root_ready.
Definition root_with_fed : sample_broker :=
  left_by (processPriorityCommand false fed_joins) root_with_core.

(** The core asks for initialization, and says goodbye. *)
Definition core_init : ActionMessage :=
  (newMessage cmd_init) <| source_id := broker_id_of 0 |>.
Definition core_leaves : ActionMessage :=
  (newMessage cmd_disconnect) <| source_id := broker_id_of 0 |>.
Definition root_operating : sample_broker :=
  left_by (processCommand false core_init) root_with_fed.

Lemma priority_reach s command :
  root_reach false s → room (S (length (earlyMessages s))) s → ¬ is_ack command →
  match processPriorityCommand false command s with Some (Ok _) => true | _ => false end
    = true →
  root_reach false (left_by (processPriorityCommand false command) s).
Proof.
  intros Hs Hr Ha E. destruct (left_by_ok _ _ E) as (out & [] & E').
  by eapply rr_priority.
Qed.

Lemma reach_connected : root_reach false root_connected.
Proof.
  destruct (left_by_ok (connect true "here") root_configured) as (out & a & E); [done|].
  eapply rr_connect, E. by apply rr_start.
Qed.
Lemma reach_ready : root_reach false root_ready.
Proof. apply priority_reach; [apply reach_connected|done|by intros []|done]. Qed.
Lemma reach_core : root_reach false root_with_core.
Proof. apply priority_reach; [apply reach_ready|done|by intros []|done]. Qed.
Lemma reach_fed : root_reach false root_with_fed.
Proof. apply priority_reach; [apply reach_core|done|by intros []|done]. Qed.

(** ** The properties along the run *)

Lemma root_registry_witness :
  root_reach false root_with_fed ∧
  ∃ fed brk,
    (fi_name fed = "fed" ∧ getRoute root_with_fed (fi_global_id fed) = fi_route fed) ∧
    (bi_name brk = "core" ∧ getRoute root_with_fed (bi_global_id brk) = bi_route brk).
Proof.
  split; [exact reach_fed|].
  destruct (root_registry false root_with_fed reach_fed) as [Hf Hb].
  exists (fed_entry root_with_core fed_joins), (broker_entry root_ready core_joins).
  split; (split; [done|]).
  - apply (Hf 0%nat). vm_compute. done.
  - apply (Hb 0%nat). vm_compute. done.
Defined.

Lemma federate_refused_witness :
  mv_find1 (federates_ root_with_fed) (payload fed_joins) ≠ None ∧
  ∃ out, processPriorityCommand false fed_joins root_with_fed =
    Some (Ok (root_with_fed, out, tt)).
Proof.
  split; [vm_compute; done|].
  destruct (federate_refused false root_with_fed fed_joins) as (out & answer & E & _);
    [done|done|right; vm_compute; done|]. eauto.
Defined.


Lemma init_grant_live_witness :
  ∃ s' out, processCommand false core_init root_with_fed = Some (Ok (s', out, tt)) ∧
    brokerState (cb_base s') = bs_operating.
Proof.
  destruct (init_grant_live false root_with_fed core_init) as (s' & out & E & Hs & _).
  - done.
  - done.
  - apply allInitReady_iff. vm_compute. done.
  - vm_compute. done.
  - eauto.
Defined.

Lemma disconnect_subtree_witness :
  ∃ brk s', mv_elements (brokers_ root_with_fed) = [brk] ∧
    markAsDisconnected (disconnect_fuel root_with_fed) (bi_global_id brk) root_with_fed =
      Some (Ok (s', [], tt)).
Proof.
  exists (broker_entry root_ready core_joins).
  destruct (disconnect_subtree root_with_fed 0 (broker_entry root_ready core_joins))
    as (s' & E & _).
  - apply root_reach_inv with (le := false), reach_fed.
  - intros [|i] brk E; vm_compute in E; [|by destruct i]. injection E as <-. vm_compute. done.
  - vm_compute. done.
  - exists s'. split; [vm_compute; reflexivity|exact E].
Defined.

Lemma forged_parent_diverges_witness :
  ∃ s' out brk, processPriorityCommand false (core_joins <| source_id := broker_id_of 0 |>)
      root_ready = Some (Ok (s', out, tt)) ∧
    ∀ fuel, markAsDisconnected fuel (bi_global_id brk) s' = None.
Proof.
  destruct (forged_parent_diverges false root_ready (core_joins <| source_id := broker_id_of 0 |>))
    as (s' & out & brk & E & _ & _ & Hf);
    [exact reach_ready|vm_compute; done..|]. eauto.
Defined.

Lemma root_stops_iff_witness :
  ∃ s' out, processCommand false core_leaves root_with_fed = Some (Ok (s', out, tt)) ∧
    stop_queued out.
Proof.
  destruct (root_stops_iff false root_with_fed core_leaves 0
    (broker_entry root_ready core_joins)) as (s' & out & E & Hs & _).
  - exact reach_fed.
  - intros [|i] brk E; vm_compute in E; [|by destruct i]. injection E as <-. vm_compute. done.
  - split; [|split]; [|constructor|]; vm_compute; intuition congruence.
  - vm_compute. done.
  - done.
  - done.
  - vm_compute. done.
  - done.
  - vm_compute. done.
  - exists s', out. split; [exact E|]. apply Hs.
    intros [|i] b Hb _; [|vm_compute in Hb; by destruct i].
    right. apply (below_self _ _ 0 (skel (broker_entry root_ready core_joins)));
      vm_compute; done.
Defined.

(** A broker that joins the root, up to the answer with its identifier. *)
Definition sub_configured : sample_broker :=
  let s := newCoreBroker false "sub" in
  s <| cb_base := (cb_base s) <| brokerState := bs_configured |> |>.
Definition sub_connected : sample_broker :=
  left_by (processPriorityCommand false (newMessage cmd_broker_setup))
    (left_by (connect true "there") sub_configured).
Definition sub_joins : ActionMessage := registration (cb_base sub_configured) "there".
Definition root_with_sub : sample_broker :=
  left_by (processPriorityCommand false sub_joins) root_ready.
Definition sub_ready : sample_broker :=
  left_by (processPriorityCommand false (brokerReply root_ready (broker_id_of 0) sub_joins))
    sub_connected.
Lemma reach_sub : root_reach false root_with_sub.
Proof. apply priority_reach; [apply reach_ready|done|by intros []|done]. Qed.

Lemma registration_through_brokers_witness :
  global_broker_id_local (cb_base sub_ready) = broker_id_of 0 ∧
  ∃ l rid, register_along false [sub_ready] root_with_sub
      (fed_joins <| source_id := broker_id_of 1 |>) =
    Some (l, rid, fed_reply root_with_sub fed_joins).
Proof.
  split; [vm_compute; reflexivity|].
  destruct (registration_through_brokers false [sub_ready] root_with_sub
    (fed_joins <| source_id := broker_id_of 1 |>)) as (l & E & _).
  - exact reach_sub.
  - vm_compute. done.
  - vm_compute. done.
  - vm_compute. done.
  - done.
  - vm_compute. done.
  - repeat constructor; vm_compute; done.
  - eauto.
Defined.

(** The publication of a federate and the request of an input of the same federate. *)
Definition pub_registered : ActionMessage :=
  setStringData ((newMessage cmd_reg_pub) <| source_id := fed_id_of 0 |> <| source_handle := 1 |>
                   <| payload := "pub" |>) ["double"; "V"].
Definition pub_requested : ActionMessage :=
  (newMessage cmd_add_named_publication) <| source_id := fed_id_of 0 |> <| source_handle := 2 |>
    <| payload := "pub" |>.


#[local] Instance sample_virtuals : BrokerVirtuals sample_broker := CoreBroker_virtuals false.

Lemma registrations_wf : Forall message_wf [core_joins; fed_joins].
Proof. repeat constructor; vm_compute; try (split; congruence); repeat constructor; done. Qed.


(** A base that passes every message on. *)
#[local] Instance relay_base : HasBase BrokerBase := {| base b := b; set_base b _ := b |}.
#[local] Instance relay : BrokerVirtuals BrokerBase := {|
  v_processCommand m := eff_emit (Queue m);
  v_processPriorityCommand m := eff_emit (Queue m);
  v_processDisconnect _ := mret tt;
|}.

Lemma commandProcessor_returns_witness :
  commandProcessor true (2 + nest_size core_joins) core_joins (newBrokerBase "relay") ≠ None.
Proof. by apply (commandProcessor_returns true core_joins (newBrokerBase "relay")). Defined.

(** The root in operation with a broker below it, and after it has pinged. *)
Definition root_sub_operating : sample_broker :=
  left_by (processCommand false core_init)
    (left_by (processPriorityCommand false fed_joins) root_with_sub).
Definition root_pinged : sample_broker :=
  left_by (processCommand false (newMessage cmd_tick)) root_sub_operating.

Lemma tick_reports_iff_witness :
  ∃ s' out, processCommand false (newMessage cmd_tick) root_pinged = Some (Ok (s', out, tt)) ∧
    reported out (broker_id_of 0).
Proof.
  destruct (tick_reports_iff false root_pinged) as (s' & out & E & HP); [vm_compute; done..|].
  exists s', out. split; [exact E|]. apply HP.
  exists (List.hd newLinkConnection (connections (timeoutMon root_pinged))).
  split; [vm_compute; left|]. split; [vm_compute; done|]. split; vm_compute; done.
Defined.

Lemma broker_ping_lost_witness :
  ∃ s1 out1 s2 out2,
    processCommand false (newMessage cmd_tick) root_sub_operating = Some (Ok (s1, out1, tt)) ∧
    processCommand false (newMessage cmd_tick) s1 = Some (Ok (s2, out2, tt)) ∧
    reported out2 (broker_id_of 0).
Proof.
  destruct (broker_ping_lost false root_sub_operating
    ((broker_entry root_ready sub_joins) <| bi_state := cs_init_requested |>))
    as (ping & s1 & out1 & s2 & out2 & E1 & _ & _ & E2 & Hr); [vm_compute; done..|].
  exists s1, out1, s2, out2. split; [exact E1|]. split; [exact E2|exact Hr].
Defined.
