(* ===== verification/CoreState.v ===== *)
(** * The state of a core (src/src/helics/core/CommonCore.hpp)

    A core holds the federates of one process and connects them with a broker.  The calls
    of a federate run in the thread of the federate; they leave messages for the core,
    which processes them in its own thread.  This file has the data of a core, access to
    its federates, handles and filters, and the operations that read it.

    The federates are shared by pointer between the two tables [federates] and
    [loopFederates]: a pointer is the index in [federates], which never shrinks.  Filters
    are shared between the table [filters] and the coordinators of the endpoints: they
    live in a store, as in Interfaces.v.  The operator of a filter is code of the user,
    with a state of its own: the class [FilterOperators] runs the operator of a number. *)

From stdpp Require Import strings pretty.
From S2P Require Import Prelude HelicsTime Ids Flags ActionMessage MessageCodec.
From S2P Require Import Definitions TimeDependencies TimeCoordinator InputInfo Interfaces.
From S2P Require Import InterfaceInfo HandleManager FederateState.
From S2P Require Import ForwardingTimeCoordinator Effects MappedVector BrokerBase BrokerState.

(** [enum class operation_state : std::uint8_t] *)
Inductive operation_state := op_operating | op_error | op_disconnected.

#[export] Instance operation_state_eq_dec : EqDecision operation_state.
Proof. solve_decision. Defined.

Definition operation_state_code (st : operation_state) : Z :=
  match st with op_operating => 0 | op_error => 5 | op_disconnected => 10 end.
(** [state_string] of this file *)
Definition operation_state_string (st : operation_state) : string :=
  match st with
  | op_operating => "connected"
  | op_disconnected => "disconnected"
  | op_error => "error"
  end.

(** [class FedInfo]: a pointer to the federate, null for a federate that was not found. *)
Record FedInfo := mkFedInfo {
  fed_ptr : option nat;
  fed_state : operation_state;
}.
#[export] Instance eta_FedInfo : Eta FedInfo := λ f, mkFedInfo (fed_ptr f) (fed_state f).

(** [class FilterOperator]: [process] and [processVector] of the operator with a number;
    a message is consumed and none or some are returned. *)
Class FilterOperators (W : Type) := {
  op_process : nat → Message → W → W * option Message;
  op_processVector : nat → Message → W → W * list (option Message);
  (** [NullFilterOperator] *)
  op_null : nat;
}.

(** [generateLocalAddressString] of the communication layer. *)
Class LocalAddress := generateLocalAddressString : string.

Section core.
  Context `{TimeRep} `{MappedVector C} {D : Type → Type} `{DualMapped D} {Q W : Type}.

(** [class CommonCore].  [nextFilter] is the next pointer to a filter.  The containers of the query subsystem are not modelled; of
    [dataAirlocks] the slots that hold operators of filters are. *)
Record CommonCore := mkCommonCore {
  cc_base : BrokerBase;
  cc_routing_table : gmap global_federate_id route_id;
  cc_delayTransmitQueue : list ActionMessage;
  cc_knownExternalEndpoints : gmap string route_id;
  cc_timeoutMon : TimeoutMonitor;
  global_federation_size : Z;
  delayInitCounter : Z;
  federates : C (FederateState D Q);
  loopFederates : C FedInfo;
  cc_messageCounter : Z;
  cc_handles : HandleManager;
  loopHandles : HandleManager;
  ongoingFilterProcesses : gmap global_federate_id (gset Z);
  ongoingDestFilterProcesses : gmap global_federate_id (gset Z);
  delayedTimingMessages : gmap global_federate_id (list ActionMessage);
  filterCoord : gmap interface_handle FilterCoordinator;
  cc_filters : D positive;
  filterStore : filter_store;
  nextFilter : positive;
  nextAirLock : Z;
  dataAirlocks : list (option nat);
  operators : W;
}.

#[export] Instance eta_CommonCore : Eta CommonCore := λ s,
  mkCommonCore (cc_base s) (cc_routing_table s) (cc_delayTransmitQueue s)
    (cc_knownExternalEndpoints s) (cc_timeoutMon s) (global_federation_size s)
    (delayInitCounter s) (federates s) (loopFederates s) (cc_messageCounter s)
    (cc_handles s) (loopHandles s) (ongoingFilterProcesses s)
    (ongoingDestFilterProcesses s) (delayedTimingMessages s) (filterCoord s)
    (cc_filters s) (filterStore s) (nextFilter s) (nextAirLock s) (dataAirlocks s) (operators s).

#[export] Instance CommonCore_base : HasBase CommonCore :=
  {| base := cc_base; set_base b s := s <| cc_base := b |> |}.
#[export] Instance CommonCore_base_laws : HasBaseLaws CommonCore.
Proof. split; [done|by intros []|done]. Qed.

(** The constructor from a name; [w] is the state of the operators of the process. *)
Definition newCommonCore (coreName : string) (w : W) : CommonCore := {|
  cc_base := newBrokerBase coreName; cc_routing_table := ∅; cc_delayTransmitQueue := [];
  cc_knownExternalEndpoints := ∅; cc_timeoutMon := newTimeoutMonitor;
  global_federation_size := 0; delayInitCounter := 0; federates := mv_new;
  loopFederates := mv_new; cc_messageCounter := 54; cc_handles := newHandleManager;
  loopHandles := newHandleManager; ongoingFilterProcesses := ∅;
  ongoingDestFilterProcesses := ∅; delayedTimingMessages := ∅; filterCoord := ∅;
  cc_filters := dm_empty; filterStore := ∅; nextFilter := 1%positive; nextAirLock := 0;
  dataAirlocks := replicate 4 None; operators := w |}.

Implicit Types (s : CommonCore).

(** ** Reading *)

(** The federates, through [federates] and through [loopFederates]. *)
Definition getFederateAt s (federateID : local_federate_id) : option nat :=
  if isValidIndex federateID (mv_elements (federates s)) then Some (Z.to_nat federateID)
  else None.
Definition getFederate s (federateName : string) : option nat :=
  mv_index1 (federates s) federateName.
Definition getFederateCore s (federateID : global_federate_id) : option nat :=
  mv_find2 (loopFederates s) federateID ≫= λ '(_, fed), fed_ptr fed.
Definition getFederateCoreByName s (federateName : string) : option nat :=
  mv_find1 (loopFederates s) federateName ≫= λ '(_, fed), fed_ptr fed.
Definition getHandleFederate s (hid : interface_handle) : option nat :=
  let local_fed_id := getLocalFedID (cc_handles s) hid in
  if negb (local_fed_id =? invalid_fid) then getFederateAt s local_fed_id else None.

Definition isLocal s (global_fedid : global_federate_id) : bool :=
  match mv_index2 (loopFederates s) global_fedid with Some _ => true | None => false end.
Definition getRoute s (global_fedid : global_federate_id) : route_id :=
  default parent_route_id (cc_routing_table s !! global_fedid).

(** [operator[]] of the maps of sets and of vectors, which enters an empty one. *)
Definition ongoing s (fid : global_federate_id) : gset Z :=
  default ∅ (ongoingFilterProcesses s !! fid).
Definition ongoingDest s (fid : global_federate_id) : gset Z :=
  default ∅ (ongoingDestFilterProcesses s !! fid).
Definition delayedTiming s (fid : global_federate_id) : list ActionMessage :=
  default [] (delayedTimingMessages s !! fid).

Definition isConfigured s : bool :=
  negb (broker_state_lt (brokerState (cc_base s)) bs_configured).
Definition isOpenToNewFederates s : bool :=
  negb (bool_decide (brokerState (cc_base s) = bs_created))
  && broker_state_lt (brokerState (cc_base s)) bs_operating.
Definition isConnected s : bool :=
  bool_decide (brokerState (cc_base s) = bs_operating)
  || bool_decide (brokerState (cc_base s) = bs_connected).

Definition minFederateState s : operation_state :=
  foldl (λ op fed, if operation_state_code (fed_state fed) <? operation_state_code op
                   then fed_state fed else op)
    op_disconnected (mv_elements (loopFederates s)).
Definition allDisconnected s : bool :=
  let afed := bool_decide (minFederateState s = op_disconnected) in
  if hasTimeDependency (cc_base s) || hasFilters (cc_base s)
  then afed && negb (ftc_hasActiveTimeDependencies (timeCoord (cc_base s)))
  else afed.

Definition getFederationSize s : Z :=
  if negb (broker_state_lt (brokerState (cc_base s)) bs_operating)
  then global_federation_size s
  else to_sint 32 (Z.of_nat (mv_size (federates s))).
End core.

Global Arguments CommonCore : clear implicits.
