(* ===== verification/CommonCore.v ===== *)
(** * The message handlers of a core (src/src/helics/core/CommonCore.cpp)

    One definition per handler of the core thread, in the order in which they call each
    other; the entry points are [processPriorityCommand] and [processCommand].  The calls
    of the federates are in CoreApi.v.

    The delivery of a message through cloning filters can come back to an endpoint that
    has such a filter: [deliverMessage] takes a bound on the depth.  The answers to
    queries about the core (a JSON document) are not modelled, the message that asks is
    put out as [LocalQuery]; the part of the answer about a federate that is computed by
    the federate is [CoreQueries]. *)

From stdpp Require Import strings pretty.
From S2P Require Import Prelude HelicsTime Ids Flags ActionMessage MessageCodec.
From S2P Require Import Definitions TimeDependencies TimeCoordinator InputInfo Interfaces.
From S2P Require Import InterfaceInfo HandleManager FederateState.
From S2P Require Import ForwardingTimeCoordinator Effects MappedVector BrokerBase BrokerState.
From S2P Require Import CoreState.

Abbreviation NEW_BROKER_INFORMATION := (333)%Z (only parsing).
Abbreviation UPDATE_FILTER_OPERATOR := (572)%Z (only parsing).

(** [versionString], and [processQuery] of a federate with the endpoints of its filters. *)
Class CoreQueries (F : Type) := {
  versionString : string;
  federateAnswer : F → string → string;
}.

(** [core::matchingTypes] of coreTypeOperations.cpp *)
Definition global_match_strings : list string :=
  ["any"; "all"; "data"; "string"; "block"].
Definition matchingTypes (type1 type2 : string) : bool :=
  if String.eqb type1 type2 then true
  else if String.eqb type1 "" || String.eqb type2 "" then true
  else if String.prefix "def" type1 || String.prefix "def" type2 then true
  else if bool_decide (type1 ∈ global_match_strings) then true
  else bool_decide (type2 ∈ global_match_strings).

Section core.
  Context `{TimeRep} `{SteadyClock} `{TimeMs} `{MappedVector C} `{DualMapped D}.
  Context `{BlockingQueue Q} `{FilterOperators W} `{LocalAddress}.
  Context `{CoreQueries (FederateState D Q)} (le : bool).
  Abbreviation CC := (CommonCore C D Q W).
  Abbreviation M := (effM CC broker_out).
  Implicit Types (s : CC) (cmd command m : ActionMessage).

(** ** Elementary operations *)

(** The federate behind a pointer, and a call that changes it. *)
Definition fedAt (p : nat) : M (FederateState D Q) :=
  s ← eff_get;
  match mv_elements (federates s) !! p with Some fed => mret fed | None => eff_lift Fault end.
Definition updateFed (p : nat) (f : FederateState D Q → FederateState D Q) : M unit :=
  eff_modify (λ s, s <| federates := mv_alter f p (federates s) |>).
Definition fedAction (p : nat) cmd : M unit := updateFed p (λ fed, addAction fed cmd).
(** [fed->] on an element of [loopFederates] *)
Definition pointer (fed : FedInfo) : M nat :=
  match fed_ptr fed with Some p => mret p | None => eff_lift Fault end.
(** [loopFederates.apply] *)
Definition applyFeds (f : nat → FederateState D Q → M unit) : M unit :=
  s ← eff_get;
  eff_each (λ info, p ← pointer info; fed ← fedAt p; f p fed) (mv_elements (loopFederates s)).
Definition updateLoopFed (f : FedInfo → FedInfo) (ii : nat) : M unit :=
  eff_modify (λ s, s <| loopFederates := mv_alter f ii (loopFederates s) |>).

(** The filter behind a pointer. *)
Definition filterAt (p : positive) : M FilterInfo :=
  s ← eff_get;
  match filterStore s !! p with Some f => mret f | None => eff_lift Fault end.
Definition updateFilter (f : FilterInfo → FilterInfo) (p : positive) : M unit :=
  eff_modify (λ s, s <| filterStore := alter f p (filterStore s) |>).
(** [filters.find] *)
Definition findFilter s (id : global_handle) : option positive :=
  dm_find2 (cc_filters s) (handle_key id).

(** The two calls of an operator; a null pointer is a fault. *)
Definition runOperator {A} (run : nat → Message → W → W * A) (op : option nat)
    (message : Message) : M A :=
  match op with
  | None => eff_lift Fault
  | Some op =>
      s ← eff_get;
      let '(w, a) := run op message (operators s) in
      _ ← eff_modify (λ s, s <| operators := w |>);
      mret a
  end.

(** An assignment to a member of a handle. *)
Definition alterHandle (f : BasicHandleInfo → BasicHandleInfo) (index : Z)
    (hm : HandleManager) : HandleManager :=
  hm <| HandleManager.handles := alter f (Z.to_nat index) (HandleManager.handles hm) |>.
Definition updateLoopHandle (f : BasicHandleInfo → BasicHandleInfo) (index : Z) : M unit :=
  eff_modify (λ s, s <| loopHandles := alterHandle f index (loopHandles s) |>).

Definition setOngoing (fid : global_federate_id) (f : gset Z → gset Z) : M unit :=
  eff_modify (λ s, s <| ongoingFilterProcesses :=
                   <[fid := f (ongoing s fid)]> (ongoingFilterProcesses s) |>).
Definition setOngoingDest (fid : global_federate_id) (f : gset Z → gset Z) : M unit :=
  eff_modify (λ s, s <| ongoingDestFilterProcesses :=
                   <[fid := f (ongoingDest s fid)]> (ongoingDestFilterProcesses s) |>).
(** [++messageCounter] *)
Definition nextMessageID : M Z :=
  s ← eff_get;
  let mid := to_sint 32 (cc_messageCounter s + 1) in
  _ ← eff_modify (λ s, s <| cc_messageCounter := mid |>);
  mret mid.

Definition delayTransmit cmd : M unit :=
  eff_modify (λ s, s <| cc_delayTransmitQueue :=
                   cc_delayTransmitQueue s ++ [copyConstruct cmd] |>).

(** ** Disconnection *)

Definition sendErrorToFederates (error_code : Z) (message : string) : M unit :=
  s ← eff_get;
  let errorCom := (newMessage cmd_local_error)
                    <| source_id := global_broker_id_local (cc_base s) |>
                    <| messageID := error_code |> <| payload := message |> in
  eff_each (λ info,
      match fed_ptr info with
      | Some p => eff_when (bool_decide (fed_state info = op_operating)) (fedAction p errorCom)
      | None => mret tt
      end) (mv_elements (loopFederates s)).

(** The message that tells the broker. *)
Definition transmitDisconnect : M unit :=
  local ← localId;
  transmit parent_route_id ((newMessage cmd_disconnect) <| source_id := local |>).

Definition checkAndProcessDisconnect : M bool :=
  s ← eff_get;
  let st := brokerState (cc_base s) in
  if bool_decide (st = bs_terminating) || bool_decide (st = bs_terminated) then mret true
  else if allDisconnected s then
    _ ← setBrokerState bs_terminating;
    _ ← coord_disconnect le;
    _ ← transmitDisconnect;
    mret true
  else mret false.
Definition checkDisconnect : M unit := _ ← checkAndProcessDisconnect; mret tt.

Definition sendDisconnect : M unit :=
  b ← get_base;
  let bye := (newMessage cmd_stop) <| source_id := global_broker_id_local b |> in
  _ ← applyFeds (λ p fed,
        _ ← eff_when (negb (bool_decide (fs_state fed = HELICS_FINISHED))) (fedAction p bye);
        eff_when (hasTimeDependency b)
          (_ ← coord_pure (λ tc, ftc_removeDependency tc (fs_global_id fed));
           coord_pure (λ tc, ftc_removeDependent tc (fs_global_id fed))));
  eff_when (hasTimeDependency b) (coord_disconnect le).

(** [processDisconnect(bool skipUnregister)] *)
Definition processDisconnect (skipUnregister : bool) : M unit :=
  b ← get_base;
  if broker_state_lt bs_configured (brokerState b)
     && broker_state_lt (brokerState b) bs_terminating then
    _ ← setBrokerState bs_terminating;
    _ ← sendDisconnect;
    _ ← (if negb (global_broker_id_local b =? parent_broker_id)
            && fed_isValid (global_broker_id_local b)
         then transmitDisconnect
         else transmit parent_route_id
                ((newMessage cmd_disconnect_name) <| payload := identifier b |>));
    addActionMessage (newMessage cmd_stop)
  else
    _ ← eff_when (broker_state_lt bs_configured (brokerState b)) (eff_emit CommsDisconnect);
    _ ← setBrokerState bs_terminated;
    _ ← eff_when (negb skipUnregister) (eff_emit Unregister);
    eff_emit DisconnectionTriggered.

(** ** Routing *)

(** The last farewell to the federates when the broker disconnects the core. *)
Definition dismissFederates (over : federate_state → bool) : M unit :=
  applyFeds (λ p fed,
    eff_when (negb (over (fs_state fed)))
      (fedAction p (newMessageTo cmd_disconnect_fed_ack parent_broker_id (fs_global_id fed)))).
Definition is_finished (st : federate_state) : bool := bool_decide (st = HELICS_FINISHED).
Definition is_over (st : federate_state) : bool :=
  bool_decide (st = HELICS_FINISHED) || bool_decide (st = HELICS_ERROR).

Definition processCommandsForCore cmd : M unit :=
  b ← get_base;
  if isTimingCommand cmd then
    _ ← (if negb (enteredExecutionMode b) then
           _ ← processTimeMessage cmd; checkExecEntry
         else
           res ← processTimeMessage cmd;
           eff_when res (coord_ ftc_updateTimeFactors));
    eff_when (isDisconnectCommand cmd)
      (if bool_decide (action cmd = cmd_disconnect) && (source_id cmd =? higher_broker_id b)
       then
         _ ← setBrokerState bs_terminating;
         _ ← eff_when (hasTimeDependency b || hasFilters b) (coord_disconnect le);
         _ ← dismissFederates is_over;
         addActionMessage (newMessage cmd_stop)
       else checkDisconnect)
  else if isDependencyCommand cmd then
    coord_pure (λ tc, ftc_processDependencyUpdateMessage tc cmd)
  else mret tt.

(** The four overloads of [routeMessage]: a message for a local federate is dropped when
    the federate is over, which for the overload with a constant reference includes a
    federate in error.  [processPostTerminationAction] returns nothing. *)
Definition routeUnless (over : federate_state → bool) cmd : M unit :=
  s ← eff_get;
  let dest := dest_id cmd in
  if (dest =? parent_broker_id) || (dest =? higher_broker_id (cc_base s))
  then transmit parent_route_id cmd
  else if dest =? global_broker_id_local (cc_base s) then processCommandsForCore cmd
  else if isLocal s dest then
    match getFederateCore s dest with
    | Some p => fed ← fedAt p; eff_when (negb (over (fs_state fed))) (fedAction p cmd)
    | None => mret tt
    end
  else transmit (getRoute s dest) cmd.
Definition routeMessage cmd : M unit := routeUnless is_over cmd.
Definition routeMessageMove cmd : M unit := routeUnless is_finished cmd.
Definition routeMessageTo cmd (dest : global_federate_id) : M unit :=
  if negb (fed_isValid dest) then mret tt
  else routeUnless is_finished (cmd <| dest_id := dest |>).
Definition transmitRouted m : M unit :=
  s ← eff_get; transmit (getRoute s (dest_id m)) m.

(** The queue of messages that wait for the identifier of the core. *)
Definition transmitDelayedMessages : M unit :=
  s ← eff_get;
  _ ← eff_modify (λ s, s <| cc_delayTransmitQueue := [] |>);
  eff_each (λ msg,
      routeMessage
        (if (source_id msg =? parent_broker_id) || (source_id msg =? direct_core_id)
         then msg <| source_id := global_broker_id_local (cc_base s) |> else msg))
    (cc_delayTransmitQueue s).
Definition errorRespondDelayedMessages (estring : string) : M unit :=
  s ← eff_get;
  _ ← eff_modify (λ s, s <| cc_delayTransmitQueue := [] |>);
  eff_each (λ msg,
      eff_when (bool_decide (action msg = cmd_query) || bool_decide (action msg = cmd_broker_query))
        (eff_emit (QueryValue (messageID msg) ("#error:" +:+ estring))))
    (cc_delayTransmitQueue s).
(** [transmitDelayedMessages(source)] *)
Definition transmitDelayedFor (source : global_federate_id) : M unit :=
  s ← eff_get;
  _ ← eff_modify (λ s, s <| cc_delayTransmitQueue :=
        base.filter (λ msg, source_id msg ≠ source) (cc_delayTransmitQueue s) |>);
  _ ← eff_each routeMessage
        (base.filter (λ msg, source_id msg = source) (cc_delayTransmitQueue s));
  _ ← eff_each routeMessage (delayedTiming s source);
  eff_modify (λ s, s <| delayedTimingMessages :=
                   <[source := []]> (delayedTimingMessages s) |>).

(** ** Filters *)

Definition newFilterCoordinator : FilterCoordinator :=
  mkFilterCoordinator [] None [] [] false false 0 0.
(** The coordinator of an endpoint, made on demand before the federation operates. *)
Definition getFilterCoordinator (hid : interface_handle) : M (option FilterCoordinator) :=
  s ← eff_get;
  match filterCoord s !! hid with
  | Some fc => mret (Some fc)
  | None =>
      if broker_state_lt (brokerState (cc_base s)) bs_operating then
        _ ← eff_modify (λ s, s <| filterCoord :=
                         <[hid := newFilterCoordinator]> (filterCoord s) |>);
        mret (Some newFilterCoordinator)
      else mret None
  end.
Definition coordinatorOf (hid : interface_handle) : M FilterCoordinator :=
  fc ← getFilterCoordinator hid;
  match fc with Some fc => mret fc | None => eff_lift Fault end.
Definition updateCoordinator (hid : interface_handle)
    (f : FilterCoordinator → FilterCoordinator) : M unit :=
  eff_modify (λ s, s <| filterCoord := alter f hid (filterCoord s) |>).

(** The object is freed when the table does not take it: the pointer that is returned
    then leads to nothing. *)
Definition createFilter (dest : global_federate_id) (hid : interface_handle)
    (key type_in type_out : string) (cloning_ : bool) : M positive :=
  s ← eff_get;
  let gid := global_id (cc_base s) in
  let filt := (newFilterInfo (if dest =? parent_broker_id then gid else dest) hid key
                 type_in type_out false) <| cloning := cloning_ |> in
  let actualKey := if String.eqb key "" then "sFilter_" +:+ pretty hid else key in
  let '(actualKey, id) :=
    if filt_core_id filt =? gid then (actualKey, GlobalHandle dest hid)
    else (actualKey +:+ "_" +:+ pretty (filt_core_id filt),
          GlobalHandle (filt_core_id filt) hid) in
  let p := nextFilter s in
  let table := dm_insert actualKey (handle_key id) p (cc_filters s) in
  _ ← eff_modify (λ s, s <| cc_filters := table |> <| nextFilter := Pos.succ p |>
        <| filterStore := if bool_decide (p ∈ dm_elements table)
                          then <[p := filt]> (filterStore s) else filterStore s |>);
  mret p.

(** A copy of a message for a cloning filter of another core. *)
Definition cloneFor (filt : FilterInfo) m : ActionMessage :=
  setDestination (setAction (copyConstruct m) cmd_send_for_filter)
    (GlobalHandle (filt_core_id filt) (filt_handle filt)).

(** One cloning filter of the destination; [rec] is [deliverMessage]. *)
Definition cloneAtDestination (rec : ActionMessage → M unit) (localP : BasicHandleInfo)
    message (p : positive) : M unit :=
  clFilter ← filterAt p;
  local ← localId;
  if checkActionFlag clFilter disconnected_flag then mret tt
  else if filt_core_id clFilter =? local then
    s ← eff_get;
    match findFilter s (GlobalHandle local (filt_handle clFilter)) with
    | None => mret tt
    | Some q =>
        FiltI ← filterAt q;
        match filterOp FiltI with
        | None => mret tt
        | Some op =>
            new_messages ← runOperator op_processVector (Some op)
                             (createMessageFromCommand message);
            eff_each (λ msg,
                match msg with
                | None => mret tt
                | Some msg =>
                    if String.eqb (msg_dest msg) (hi_key localP)
                    then routeMessageMove (setDestination (messageCommand msg) (hi_handle localP))
                    else rec (messageCommand msg)
                end) new_messages
        end
    end
  else routeMessage (cloneFor clFilter message).

(** The filter of the destination.  When it belongs to another core the federate is
    blocked and the message sent there: the result is [None]. *)
Definition applyDestFilter (localP : BasicHandleInfo) (ffunc : FilterCoordinator) message
    : M (option ActionMessage) :=
  match destFilter ffunc with
  | None => mret (Some message)
  | Some p =>
      filt ← filterAt p;
      local ← localId;
      if checkActionFlag filt disconnected_flag then mret (Some message)
      else if negb (filt_core_id filt =? local) then
        let fid := fed_id (hi_handle localP) in
        mid ← nextMessageID;
        s ← eff_get;
        _ ← match getFederateCore s fid with
            | Some fed => fedAction fed ((newMessageTo cmd_time_block local fid)
                                           <| messageID := mid |>)
            | None => eff_lift Fault
            end;
        _ ← setOngoingDest fid (λ ids, {[mid]} ∪ ids);
        let message := (setAction message cmd_send_for_dest_filter_return)
                         <| messageID := mid |> in
        let message := setDestination (setSource message (hi_handle localP))
                         (GlobalHandle (filt_core_id filt) (filt_handle filt)) in
        _ ← routeMessageMove message;
        mret None
      else
        match filterOp filt with
        | None => mret (Some (assignMessage message (createMessageFromCommand message)))
        | Some op =>
            nmessage ← runOperator op_process (Some op) (createMessageFromCommand message);
            match nmessage with
            | Some nmessage => mret (Some (assignMessage message nmessage))
            | None => eff_lift Fault
            end
        end
  end.

(** The end of the delivery to an endpoint of this core. *)
Definition deliverLocal (localP : BasicHandleInfo) message : M unit :=
  let message := if dest_id message =? parent_broker_id
                 then setDestination message (hi_handle localP) else message in
  _ ← processTimeMessage message;
  s ← eff_get;
  match getFederateCore s (fed_id (hi_handle localP)) with
  | Some p => fedAction p message
  | None => mret tt
  end.

(** [loopHandles] for the destination of a message. *)
Definition destinationHandle s message : outcome (option BasicHandleInfo) :=
  if dest_id message =? parent_broker_id
  then getEndpoint (loopHandles s) (getString message targetStringLoc)
  else findHandle (loopHandles s) (getDest message).

Fixpoint deliverMessage (fuel : nat) message : M unit :=
  match fuel with
  | O => eff_unbounded
  | S fuel =>
      match action message with
      | cmd_send_message =>
          s ← eff_get;
          localP ← eff_lift (destinationHandle s message);
          match localP with
          | None =>
              transmit (default parent_route_id
                          (cc_knownExternalEndpoints s !! getString message targetStringLoc))
                message
          | Some localP =>
              if checkActionFlag localP has_dest_filter_flag then
                ffunc ← getFilterCoordinator (handle (hi_handle localP));
                match ffunc with
                | None => deliverLocal localP message
                | Some ffunc =>
                    filtered ← applyDestFilter localP ffunc message;
                    match filtered with
                    | None => mret tt
                    | Some message =>
                        _ ← eff_each (cloneAtDestination (deliverMessage fuel) localP message)
                              (cloningDestFilters ffunc);
                        deliverLocal localP message
                    end
                end
              else deliverLocal localP message
          end
      | _ => transmitRouted message
      end
  end.

(** What a local filter that does not clone makes of a message: [None] for a message that
    it dropped. *)
Definition runFilter (filt : FilterInfo) m : M (option ActionMessage) :=
  tempMessage ← runOperator op_process (filterOp filt) (createMessageFromCommand m);
  mret ((λ msg, copyAssign m (messageCommand msg)) <$> tempMessage).
(** The messages that a local cloning filter makes are delivered. *)
Definition runCloning (fuel : nat) (filt : FilterInfo) m : M unit :=
  new_messages ← runOperator op_processVector (filterOp filt) (createMessageFromCommand m);
  eff_each (λ msg, match msg with
                   | Some msg => deliverMessage fuel (messageCommand msg)
                   | None => mret tt
                   end) new_messages.

(** The loop of [processMessage] over the source filters of the endpoint of [fid]; [n] is
    their number.  A filter that is disconnected is passed without a change of [ii]. *)
Fixpoint sourceFilterLoop (fuel : nat) (fid : global_federate_id) (n : Z)
    (filts : list positive) (ii : Z) m : M ActionMessage :=
  match filts with
  | [] => mret m
  | p :: filts =>
      filt ← filterAt p;
      local ← localId;
      if checkActionFlag filt disconnected_flag then sourceFilterLoop fuel fid n filts ii m
      else if filt_core_id filt =? local then
        if cloning filt then
          _ ← runCloning fuel filt m;
          sourceFilterLoop fuel fid n filts (ii + 1) m
        else
          filtered ← runFilter filt m;
          match filtered with
          | Some m => sourceFilterLoop fuel fid n filts (ii + 1) m
          | None => mret (copyAssign m (newMessage cmd_ignore))
          end
      else if cloning filt then
        _ ← routeMessage (setActionFlag (cloneFor filt m) clone_flag);
        sourceFilterLoop fuel fid n filts (ii + 1) m
      else
        let m := (setDestination m (GlobalHandle (filt_core_id filt) (filt_handle filt)))
                   <| counter := to_uint 16 ii |> in
        if ii <? n - 1 then
          _ ← setOngoing fid (λ ids, {[messageID m]} ∪ ids);
          mret (setAction m cmd_send_for_filter_return)
        else mret (setAction m cmd_send_for_filter)
  end.

Definition processMessage (fuel : nat) m : M ActionMessage :=
  s ← eff_get;
  match getEndpointByHandle (loopHandles s) (source_handle m) with
  | None => mret m
  | Some hi =>
      if checkActionFlag hi has_source_filter_flag then
        filtFunc ← coordinatorOf (handle (hi_handle hi));
        if hasSourceFilters filtFunc then
          sourceFilterLoop fuel (fed_id (hi_handle hi))
            (Z.of_nat (length (sourceFilters filtFunc))) (sourceFilters filtFunc) 0 m
        else mret m
      else mret m
  end.

(** A cloning filter of the destination of a message that has come back. *)
Definition cloneReturned command (p : positive) : M unit :=
  clFilter ← filterAt p;
  local ← localId;
  if checkActionFlag clFilter disconnected_flag then mret tt
  else if filt_core_id clFilter =? local then
    s ← eff_get;
    match findFilter s (GlobalHandle local (filt_handle clFilter)) with
    | None => mret tt
    | Some q =>
        FiltI ← filterAt q;
        eff_when (bool_decide (is_Some (filterOp FiltI)) && cloning FiltI)
          (_ ← runOperator op_process (filterOp FiltI) (createMessageFromCommand command);
           mret tt)
    end
  else routeMessage (cloneFor clFilter command).

Definition unblock (messID : Z) (dest : global_federate_id) : M unit :=
  local ← localId;
  routeMessage ((newMessageTo cmd_time_unblock local dest) <| messageID := messID |>).

Definition processDestFilterReturn command : M unit :=
  s ← eff_get;
  match getEndpointByHandle (loopHandles s) (dest_handle command) with
  | None => mret tt
  | Some hi =>
      let fid := fed_id (hi_handle hi) in
      let messID := messageID command in
      if bool_decide (messID ∈ ongoingDest s fid) then
        _ ← setOngoingDest fid (λ ids, ids ∖ {[messID]});
        if bool_decide (action command = cmd_null_dest_message)
        then unblock messID (dest_id command)
        else
          filtFunc ← coordinatorOf (handle (hi_handle hi));
          _ ← eff_each (cloneReturned command) (cloningDestFilters filtFunc);
          _ ← processTimeMessage command;
          _ ← routeMessageMove (setAction command cmd_send_message);
          unblock messID fid
      else mret tt
  end.

(** The delayed messages of a federate are sent when none of its messages is out. *)
Definition releaseIfDone (fid : global_federate_id) : M unit :=
  s ← eff_get;
  eff_when (bool_decide (ongoing s fid = ∅)) (transmitDelayedFor fid).
Definition endProcess (fid : global_federate_id) (messID : Z) : M unit :=
  setOngoing fid (λ ids, ids ∖ {[messID]}).

(** The loop of [processFilterReturn] from the filter with index [ii]; the result is the
    message to deliver, [None] when the loop has returned from the function. *)
Fixpoint returnLoop (fid : global_federate_id) (messID n : Z) (filts : list positive)
    (ii : Z) cmd : M (option ActionMessage) :=
  match filts with
  | [] => mret (Some cmd)
  | p :: filts =>
      filt ← filterAt p;
      local ← localId;
      if checkActionFlag filt disconnected_flag
      then returnLoop fid messID n filts (ii + 1) cmd
      else if filt_core_id filt =? local then
        filtered ← runFilter filt cmd;
        match filtered with
        | Some cmd => returnLoop fid messID n filts (ii + 1) cmd
        | None =>
            _ ← endProcess fid messID;
            _ ← releaseIfDone fid;
            mret None
        end
      else
        let cmd := (setDestination cmd (GlobalHandle (filt_core_id filt) (filt_handle filt)))
                     <| counter := to_uint 16 ii |> in
        _ ← (if ii <? n - 1 then routeMessage (setAction cmd cmd_send_for_filter_return)
             else
               _ ← endProcess fid messID;
               routeMessage (setAction cmd cmd_send_for_filter));
        _ ← releaseIfDone fid;
        mret None
  end.

Definition processFilterReturn (fuel : nat) cmd : M unit :=
  s ← eff_get;
  match getEndpointByHandle (loopHandles s) (dest_handle cmd) with
  | None => mret tt
  | Some hi =>
      let fid := fed_id (hi_handle hi) in
      let messID := messageID cmd in
      if bool_decide (messID ∈ ongoing s fid) then
        _ ← eff_when (bool_decide (action cmd = cmd_null_message))
              (_ ← endProcess fid messID; releaseIfDone fid);
        filtFunc ← coordinatorOf (handle (hi_handle hi));
        let filts := sourceFilters filtFunc in
        let first := S (Z.to_nat (counter cmd)) in
        filtered ← (if hasSourceFilters filtFunc then
                      returnLoop fid messID (Z.of_nat (length filts)) (drop first filts)
                        (Z.of_nat first) cmd
                    else mret (Some cmd));
        match filtered with
        | None => mret tt
        | Some cmd =>
            _ ← endProcess fid messID;
            _ ← deliverMessage fuel cmd;
            releaseIfDone fid
        end
      else mret tt
  end.

(** The answer of a filter that is asked to return the message. *)
Definition answerTo (source : global_handle) (FiltI : FilterInfo) (destFilter : bool) cmd
    : M ActionMessage :=
  local ← localId;
  let cmd := setAction (setDestination cmd source)
               (if destFilter then cmd_dest_filter_result else cmd_filter_result) in
  mret (cmd <| source_handle := filt_handle FiltI |> <| source_id := local |>).
(** A message that goes on to its destination by name. *)
Definition toDestination cmd : ActionMessage :=
  cmd <| dest_id := parent_broker_id |> <| dest_handle := invalid_handle |>.

(** The filter of this core that a message is sent to. *)
Definition applyFilter (fuel : nat) (FiltI : FilterInfo) cmd : M unit :=
  let forDest := bool_decide (action cmd = cmd_send_for_dest_filter_return) in
  let returnToSender := bool_decide (action cmd = cmd_send_for_filter_return) || forDest in
  let source := getSource cmd in
  if negb (checkActionFlag FiltI disconnected_flag) && bool_decide (is_Some (filterOp FiltI))
  then
    if cloning FiltI then
      new_messages ← runOperator op_processVector (filterOp FiltI)
                       (createMessageFromCommand cmd);
      eff_each (λ msg, match msg with
                       | Some msg => deliverMessage fuel (copyAssign cmd (messageCommand msg))
                       | None => mret tt
                       end) new_messages
    else
      filtered ← runFilter FiltI cmd;
      match filtered with
      | None =>
          eff_when returnToSender
            (deliverMessage fuel
               ((setAction (setDestination (copyAssign cmd (newMessage cmd_ignore)) source)
                   (if forDest then cmd_null_dest_message else cmd_null_message))
                  <| messageID := messageID cmd |>))
      | Some cmd =>
          if negb returnToSender
          then deliverMessage fuel (toDestination (setSource cmd source))
          else answer ← answerTo source FiltI forDest cmd; deliverMessage fuel answer
      end
  else if negb returnToSender
  then deliverMessage fuel (toDestination (setAction cmd cmd_send_message))
  else answer ← answerTo source FiltI forDest cmd; deliverMessage fuel answer.

(** A filter that is not there is an assertion in the source. *)
Definition processMessageFilter (fuel : nat) cmd : M unit :=
  s ← eff_get;
  if dest_id cmd =? parent_broker_id then transmit parent_route_id cmd
  else if dest_id cmd =? global_broker_id_local (cc_base s) then
    match findFilter s (getDest cmd) with
    | Some p => FiltI ← filterAt p; applyFilter fuel FiltI cmd
    | None => mret tt
    end
  else transmitRouted cmd.

(** ** Interfaces *)

Definition setAsUsed (index : Z) : M unit :=
  s ← eff_get;
  match getHandleInfo (loopHandles s) index with
  | None => eff_lift Fault
  | Some hand =>
      if used hand then mret tt
      else
        _ ← updateLoopHandle (λ hi, hi <| used := true |>) index;
        let h := handle (hi_handle hand) in
        match getHandleInfo (cc_handles s) h with
        | None => eff_lift Fault
        | Some _ => eff_modify (λ s, s <| cc_handles :=
                      alterHandle (λ hi, hi <| used := true |>) h (cc_handles s) |>)
        end
  end.

(** The filter of a message, which is made when it is not known. *)
Definition filterOfMessage command : M positive :=
  s ← eff_get;
  match findFilter s (getSource command) with
  | Some p => mret p
  | None => createFilter (source_id command) (source_handle command) (payload command)
              (getString command typeStringLoc) (getString command typeOutStringLoc)
              (checkActionFlag command clone_flag)
  end.

(** Whether one of some filters is the one of a message. *)
Fixpoint filterPresent command (filts : list positive) : M bool :=
  match filts with
  | [] => mret false
  | p :: filts =>
      filt ← filterAt p;
      if is_filter (getSource command) filt then mret true else filterPresent command filts
  end.

(** A filter of the destination that is not there yet; a second one that does not clone
    is an error. *)
Definition addDestFilter (filterC : FilterCoordinator) command : M unit :=
  let hid := dest_handle command in
  let cloning := checkActionFlag command clone_flag in
  s ← eff_get;
  let endhandle := getEndpointByHandle (loopHandles s) hid in
  let mark flag := match endhandle with
                   | Some _ => updateLoopHandle (λ hi, setActionFlag hi flag) hid
                   | None => mret tt
                   end in
  _ ← mark has_dest_filter_flag;
  match endhandle, negb cloning && hasDestFilters filterC with
  | Some hi, true =>
      let err := setSource ((newMessage cmd_error) <| dest_id := source_id command |>)
                   (getDest command) in
      routeMessageMove (err <| messageID := helics_error_registration_failure |>
        <| payload := "Endpoint " +:+ hi_key hi +:+ " already has a destination filter" |>)
  | _, _ =>
      newFilter ← filterOfMessage command;
      _ ← updateCoordinator hid (λ fc, fc <| hasDestFilters := true |>);
      if cloning then
        updateCoordinator hid (λ fc, fc <| cloningDestFilters :=
                                      cloningDestFilters fc ++ [newFilter] |>)
      else
        _ ← mark has_non_cloning_dest_filter_flag;
        updateCoordinator hid (λ fc, fc <| destFilter := Some newFilter |>)
  end.
Definition addSourceFilter command : M unit :=
  let hid := dest_handle command in
  newFilter ← filterOfMessage command;
  _ ← updateCoordinator hid (λ fc, fc <| allSourceFilters := allSourceFilters fc ++ [newFilter] |>
                                     <| hasSourceFilters := true |>);
  s ← eff_get;
  match getEndpointByHandle (loopHandles s) hid with
  | Some _ => updateLoopHandle (λ hi, setActionFlag hi has_source_filter_flag) hid
  | None => mret tt
  end.

Definition processFilterInfo command : M unit :=
  filterC ← getFilterCoordinator (dest_handle command);
  match filterC with
  | None => mret tt
  | Some filterC =>
      if checkActionFlag command destination_target then
        present ← filterPresent command
                    (if checkActionFlag command clone_flag then cloningDestFilters filterC
                     else option_list (destFilter filterC));
        eff_when (negb present) (addDestFilter filterC command)
      else
        present ← filterPresent command (allSourceFilters filterC);
        eff_when (negb present) (addSourceFilter command)
  end.

(** [filthandle->used = true] *)
Definition useFilterHandle (hid : interface_handle) : M unit :=
  s ← eff_get;
  match getFilterByHandle (loopHandles s) hid with
  | Some _ => updateLoopHandle (λ hi, hi <| used := true |>) hid
  | None => mret tt
  end.
(** A new target of a filter of this core. *)
Definition addFilterTarget (toDest depend : bool) command : M unit :=
  s ← eff_get;
  _ ← match findFilter s (GlobalHandle (global_broker_id_local (cc_base s))
                            (dest_handle command)) with
      | Some p =>
          _ ← updateFilter (λ filt,
                if toDest then filt <| destTargets := destTargets filt ++ [getSource command] |>
                else filt <| sourceTargets := sourceTargets filt ++ [getSource command] |>) p;
          eff_when depend
            (_ ← coord_quiet (λ tc, ftc_addDependency tc (source_id command)); mret tt)
      | None => mret tt
      end;
  useFilterHandle (dest_handle command).

Definition addTargetToInterface command : M unit :=
  b ← get_base;
  if bool_decide (action command = cmd_add_filter) then
    _ ← processFilterInfo command;
    s ← eff_get;
    eff_when (negb (source_id command =? global_broker_id_local b)
              && negb (checkActionFlag command error_flag))
      (match getFederateCore s (dest_id command) with
       | Some p => fedAction p (setAction command cmd_add_dependent)
       | None => mret tt
       end)
  else if dest_id command =? global_broker_id_local b then
    eff_when (bool_decide (action command = cmd_add_endpoint))
      (addFilterTarget (checkActionFlag command destination_target)
         (negb (checkActionFlag command error_flag)) command)
  else
    s ← eff_get;
    match getFederateCore s (dest_id command) with
    | None => mret tt
    | Some p =>
        _ ← eff_when (negb (checkActionFlag command error_flag)) (fedAction p command);
        match getHandleInfo (loopHandles s) (dest_handle command) with
        | Some _ => setAsUsed (dest_handle command)
        | None => mret tt
        end
    end.

(** The connection of an interface with one of this core: a message to each. *)
Definition clearName m : ActionMessage := m <| payload := "" |>.
Definition connectPublication (pub : BasicHandleInfo) command : M unit :=
  let name := payload command in
  let command := clearName (setDestination (setAction command cmd_add_subscriber)
                              (hi_handle pub)) in
  _ ← addTargetToInterface command;
  let command := (setAction command cmd_add_publisher) <| payload := name |> in
  addTargetToInterface (setStringData (swapSourceDest command) [hi_type pub; hi_units pub]).
Definition connectInput (inp : BasicHandleInfo) command : M unit :=
  let inputName := payload command in
  let command := clearName (setDestination (setAction command cmd_add_publisher)
                              (hi_handle inp)) in
  s ← eff_get;
  command ← (if bool_decide (stringData command = []) then
               pub ← eff_lift (findHandle (loopHandles s) (getSource command));
               mret (match pub with
                     | Some pub => setStringData command [hi_type pub; hi_units pub]
                     | None => command
                     end)
             else mret command);
  _ ← addTargetToInterface command;
  let command := clearStringData (swapSourceDest (setAction command cmd_add_subscriber)) in
  addTargetToInterface (command <| payload := inputName |>).
Definition connectFilter (filt : BasicHandleInfo) command : M unit :=
  let command := clearName (setDestination (setAction command cmd_add_endpoint)
                              (hi_handle filt)) in
  _ ← addTargetToInterface command;
  let command := swapSourceDest (setAction command cmd_add_filter) in
  addTargetToInterface (if checkActionFlag filt clone_flag
                        then setActionFlag command clone_flag else command).
Definition connectEndpoint (ept : BasicHandleInfo) command : M unit :=
  let command := clearName (setDestination (setAction command cmd_add_filter)
                              (hi_handle ept)) in
  _ ← addTargetToInterface command;
  addTargetToInterface (swapSourceDest (setAction command cmd_add_endpoint)).

Definition checkForNamedInterface command : M unit :=
  s ← eff_get;
  let found (search : outcome (option BasicHandleInfo))
      (connect : BasicHandleInfo → ActionMessage → M unit) :=
    hi ← eff_lift search;
    match hi with
    | Some hi => if checkActionFlag hi disconnected_flag then mret tt else connect hi command
    | None => routeMessageMove command
    end in
  match action command with
  | cmd_add_named_publication =>
      found (getPublication (loopHandles s) (payload command)) connectPublication
  | cmd_add_named_input => found (getInput (loopHandles s) (payload command)) connectInput
  | cmd_add_named_filter => found (getFilter (loopHandles s) (payload command)) connectFilter
  | cmd_add_named_endpoint =>
      found (getEndpoint (loopHandles s) (payload command)) connectEndpoint
  | _ => mret tt
  end.

Definition removeTargetFromInterface command : M unit :=
  s ← eff_get;
  if bool_decide (action command = cmd_remove_filter) then
    filterC ← getFilterCoordinator (dest_handle command);
    match filterC with
    | Some filterC => eff_modify (λ s, s <| filterStore :=
                        closeFilter filterC (filterStore s) (getSource command) |>)
    | None => mret tt
    end
  else if dest_id command =? global_broker_id_local (cc_base s) then
    eff_when (bool_decide (action command = cmd_remove_endpoint))
      (match findFilter s (getDest command) with
       | Some p => updateFilter (λ filt, removeTarget filt (getSource command)) p
       | None => mret tt
       end)
  else
    match getFederateCore s (dest_id command) with
    | Some p => fedAction p command
    | None => mret tt
    end.

Definition removeNamedTarget command : M unit :=
  s ← eff_get;
  let found (search : outcome (option BasicHandleInfo)) (first second : action_t) :=
    hi ← eff_lift search;
    match hi with
    | Some hi =>
        let command := clearName (setDestination (setAction command first) (hi_handle hi)) in
        _ ← removeTargetFromInterface command;
        removeTargetFromInterface (swapSourceDest (setAction command second))
    | None => routeMessageMove command
    end in
  let hm := loopHandles s in
  match action command with
  | cmd_remove_named_publication =>
      found (getPublication hm (payload command)) cmd_remove_subscriber cmd_remove_publication
  | cmd_remove_named_input =>
      found (getInput hm (payload command)) cmd_remove_publication cmd_remove_subscriber
  | cmd_remove_named_filter =>
      found (getFilter hm (payload command)) cmd_remove_endpoint cmd_remove_filter
  | cmd_remove_named_endpoint =>
      found (getEndpoint hm (payload command)) cmd_remove_filter cmd_remove_endpoint
  | _ => mret tt
  end.

(** The entry of an endpoint in the time coordination of the core. *)
Definition coordinateEndpoint command : M unit :=
  b ← get_base;
  let local := global_broker_id_local b in
  added ← coord_quiet (λ tc, ftc_addDependency tc (source_id command));
  s ← eff_get;
  _ ← match getFederateCore s (source_id command), added : bool with
      | Some p, true =>
          _ ← fedAction p (newMessageTo cmd_add_interdependency local (source_id command));
          fed ← fedAt p;
          _ ← coord_quiet (λ tc, ftc_addDependent tc (fs_global_id fed)); mret tt
      | _, _ => mret tt
      end;
  let higher := higher_broker_id b in
  if negb (hasTimeDependency b) then
    added ← coord_quiet (λ tc, ftc_addDependency tc higher);
    eff_when added
      (_ ← upd_base (λ b, b <| hasTimeDependency := true |>);
       s ← eff_get;
       _ ← transmit (getRoute s higher) (newMessageTo cmd_add_interdependency local higher);
       _ ← coord_quiet (λ tc, ftc_addDependent tc higher); mret tt)
  else mret tt.

(** The entry of a filter. *)
Definition enterFilter command : M unit :=
  b ← get_base;
  let local := global_broker_id_local b in
  let higher := higher_broker_id b in
  _ ← createFilter local (source_handle command) (payload command)
        (getString command typeStringLoc) (getString command typeOutStringLoc)
        (checkActionFlag command clone_flag);
  if negb (hasFilters b) then
    _ ← upd_base (λ b, b <| hasFilters := true |>);
    added ← coord_quiet (λ tc, ftc_addDependent tc higher);
    eff_when added
      (s ← eff_get;
       _ ← transmit (getRoute s higher) (newMessageTo cmd_add_interdependency local higher);
       _ ← coord_quiet (λ tc, ftc_addDependency tc higher); mret tt)
  else mret tt.

(** The copy of a handle in [loopHandles]. *)
Definition copyHandle (hid : interface_handle) s : CC :=
  match getHandleInfo (cc_handles s) hid with
  | Some ifc => s <| loopHandles := addHandleAtIndex (loopHandles s) ifc hid |>
  | None => s
  end.

Definition registerInterface command : M unit :=
  b ← get_base;
  if dest_id command =? parent_broker_id then
    _ ← eff_modify (copyHandle (source_handle command));
    let up := eff_when (negb (String.eqb (payload command) ""))
                (transmit parent_route_id command) in
    match action command with
    | cmd_reg_input | cmd_reg_pub => up
    | cmd_reg_end => _ ← coordinateEndpoint command; up
    | cmd_reg_filter => _ ← enterFilter command; up
    | _ => mret tt
    end
  else if dest_id command =? global_broker_id_local b then
    match action command with
    | cmd_reg_end => addFilterTarget false true command
    | cmd_reg_filter => processFilterInfo command
    | _ => mret tt
    end
  else routeMessageMove command.

(** The targets of a filter that is closed are told, those of the destination only when
    they are also among those of the source. *)
Definition closeFilterTargets (hi : BasicHandleInfo) (p : positive) : M unit :=
  filt ← filterAt p;
  let rem := setSource (newMessage cmd_remove_filter) (hi_handle hi) in
  _ ← eff_each (λ target, routeMessage (setDestination rem target)) (sourceTargets filt);
  _ ← eff_each (λ target, eff_when (bool_decide (target ∈ sourceTargets filt))
                            (routeMessage (setDestination rem target))) (destTargets filt);
  updateFilter (λ filt, setActionFlag (filt <| sourceTargets := [] |> <| destTargets := [] |>)
                          disconnected_flag) p.

Definition disconnectInterface command : M unit :=
  s ← eff_get;
  match getHandleInfo (loopHandles s) (source_handle command) with
  | None => mret tt
  | Some hi =>
      if checkActionFlag hi disconnected_flag then mret tt
      else
        _ ← updateLoopHandle (λ hi, setActionFlag hi disconnected_flag) (source_handle command);
        _ ← (if fed_id (hi_handle hi) =? global_broker_id_local (cc_base s) then
               match findFilter s (getSource command) with
               | Some p => closeFilterTargets hi p
               | None => mret tt
               end
             else
               match getFederateCore s (source_id command), handleType hi with
               | None, _ | _, ht_filter => mret tt
               | Some p, _ => fedAction p command
               end);
        eff_when (negb (checkActionFlag hi nameless_interface_flag))
          (transmit parent_route_id command)
  end.

(** ** Initialization *)

(** [checkdep] for one federate: the coordinator and the two flags. *)
Definition checkFederate (p : nat) (fed : FederateState D Q) (flags : bool * bool)
    : M (bool * bool) :=
  local ← localId;
  if (0 <? Z.of_nat (length (dm_elements (InterfaceInfo.endpoints (interfaceInformation fed)))))
  then
    isObserver ← eff_lift (fs_getOptionFlag fed helics_flag_observer);
    if isObserver : bool then
      _ ← coord_pure (λ tc, ftc_removeDependency tc (fs_global_id fed));
      _ ← fedAction p (newMessageTo cmd_remove_dependent local (fs_global_id fed));
      mret (true, flags.2)
    else
    isSource ← eff_lift (fs_getOptionFlag fed helics_flag_source_only);
    if isSource : bool then
      _ ← coord_pure (λ tc, ftc_removeDependent tc (fs_global_id fed));
      _ ← fedAction p (newMessageTo cmd_remove_dependency local (fs_global_id fed));
      mret (flags.1, true)
    else mret flags
  else mret flags.
Fixpoint checkFederates (infos : list FedInfo) (flags : bool * bool) : M (bool * bool) :=
  match infos with
  | [] => mret flags
  | info :: infos =>
      p ← pointer info; fed ← fedAt p;
      flags ← checkFederate p fed flags;
      checkFederates infos flags
  end.

(** The federate, the broker and the number of federates among the dependents. *)
Definition splitDependents s (deps : list global_federate_id)
    : global_federate_id * global_federate_id * Z :=
  foldl (λ '(fedid, brkid, localcnt) dep,
           if isLocal s dep then (dep, brkid, localcnt + 1) else (fedid, dep, localcnt))
    (invalid_global_fed_id, invalid_global_fed_id, 0) deps.

(** The core leaves the time coordination and links the federate with the broker. *)
Definition leaveCoordination (isobs issource : bool) (fedid brkid : global_federate_id)
    : M unit :=
  _ ← coord_pure (λ tc, ftc_removeDependency tc brkid);
  _ ← coord_pure (λ tc, ftc_removeDependency tc fedid);
  _ ← coord_pure (λ tc, ftc_removeDependent tc brkid);
  _ ← coord_pure (λ tc, ftc_removeDependent tc fedid);
  _ ← upd_base (λ b, b <| hasTimeDependency := false |>);
  local ← localId;
  let rmdep := (newMessage cmd_remove_interdependency) <| source_id := local |> in
  _ ← routeMessageTo rmdep brkid;
  _ ← routeMessageTo rmdep fedid;
  let from (act : action_t) id := (newMessage act) <| source_id := id |> in
  if isobs then
    _ ← routeMessageTo (from cmd_add_dependent fedid) brkid;
    routeMessageTo (from cmd_add_dependency brkid) fedid
  else if issource then
    _ ← routeMessageTo (from cmd_add_dependency fedid) brkid;
    routeMessageTo (from cmd_add_dependent brkid) fedid
  else
    _ ← routeMessageTo (from cmd_add_interdependency fedid) brkid;
    _ ← routeMessageTo (from cmd_add_interdependency fedid) fedid;
    routeMessageTo (from cmd_add_interdependency brkid) fedid.

Definition checkDependencies : M unit :=
  s ← eff_get;
  '(isobs, issource) ← checkFederates (mv_elements (loopFederates s)) (false, false);
  s ← eff_get;
  let tc := timeCoord (cc_base s) in
  if hasFilters (cc_base s) then mret tt
  else if (2 <? length (ftc_dependents tc))%nat then mret tt
  else if (2 <? length (ftc_getDependencies tc))%nat then mret tt
  else
    let '(fedid, brkid, localcnt) := splitDependents s (ftc_dependents tc) in
    if 1 <? localcnt then mret tt
    else if (localcnt =? 0) && negb (fed_isValid brkid) then
      upd_base (λ b, b <| hasTimeDependency := false |>)
    else if forallb (λ dep, (dep =? fedid) || (dep =? brkid)) (ftc_getDependencies tc)
    then leaveCoordination isobs issource fedid brkid
    else mret tt.

(** The request of the core for initialization, which is made once. *)
Definition requestInit command : M unit :=
  b ← get_base;
  eff_when (bool_decide (brokerState b = bs_connected))
    (_ ← setBrokerState bs_initializing;
     _ ← checkDependencies;
     transmit parent_route_id command).

(** [fed->init_transmitted] of all federates *)
Fixpoint allTransmitted (infos : list FedInfo) : M bool :=
  match infos with
  | [] => mret true
  | info :: infos =>
      p ← pointer info; fed ← fedAt p;
      if init_transmitted fed then allTransmitted infos else mret false
  end.
Definition allInitReady : M bool :=
  s ← eff_get;
  if 0 <? delayInitCounter s then mret false
  else if to_sint 32 (Z.of_nat (mv_size (loopFederates s))) <? minFederateCount (cc_base s)
  then mret false
  else allTransmitted (mv_elements (loopFederates s)).

(** The case [CMD_INIT]. *)
Definition processInit command : M unit :=
  s ← eff_get;
  match getFederateCore s (source_id command) with
  | None => mret tt
  | Some p =>
      _ ← updateFed p (λ fed, fed <| init_transmitted := true |>);
      ready ← allInitReady;
      eff_when ready
        (requestInit (command <| source_id := global_broker_id_local (cc_base s) |>))
  end.

(** ** The order of the filters *)

(** One pass over the filters that are not used; the flags tell whether some are left
    and whether some were added. *)
Record organized := mkOrganized {
  org_used : list bool;
  org_filters : list positive;
  org_type : string;
  someUnused : bool;
  usedMore : bool;
}.
Fixpoint organizePass (firstPass : bool) (filts : list (positive * FilterInfo))
    (marks : list bool) (currentType : string) : organized :=
  match filts, marks with
  | (p, filt) :: filts, true :: marks =>
      let r := organizePass firstPass filts marks currentType in
      mkOrganized (true :: org_used r) (org_filters r) (org_type r) (someUnused r) (usedMore r)
  | (p, filt) :: filts, false :: marks =>
      if if firstPass then cloning filt else matchingTypes (filt_inputType filt) currentType
      then
        let r := organizePass firstPass filts marks
                   (if firstPass then currentType else filt_outputType filt) in
        mkOrganized (true :: org_used r) (p :: org_filters r) (org_type r) (someUnused r) true
      else
        let r := organizePass firstPass filts marks currentType in
        mkOrganized (false :: org_used r) (org_filters r) (org_type r) true (usedMore r)
  | _, _ => mkOrganized [] [] currentType false false
  end.
(** The passes; [fuel] bounds their number. *)
Fixpoint organizeLoop (fuel : nat) (firstPass : bool) (filts : list (positive * FilterInfo))
    (marks : list bool) (currentType : string) : option (list positive) :=
  match fuel with
  | O => None
  | S fuel =>
      let r := organizePass firstPass filts marks currentType in
      if someUnused r && (firstPass || usedMore r)
      then app (org_filters r) <$> organizeLoop fuel false filts (org_used r) (org_type r)
      else Some (org_filters r)
  end.
(** After the first pass each pass but the last uses a filter. *)
Definition organizeFilters (filts : list (positive * FilterInfo)) (endpointType : string)
    : option (list positive) :=
  organizeLoop (S (S (length filts))) true filts (replicate (length filts) false) endpointType.

Fixpoint filtersAt (ps : list positive) : M (list (positive * FilterInfo)) :=
  match ps with
  | [] => mret []
  | p :: ps => filt ← filterAt p; rest ← filtersAt ps; mret ((p, filt) :: rest)
  end.
Definition organizeOne (entry : interface_handle * FilterCoordinator) : M unit :=
  s ← eff_get;
  match getHandleInfo (cc_handles s) entry.1 with
  | None => mret tt
  | Some hi =>
      if bool_decide (allSourceFilters entry.2 = []) then mret tt
      else
        filts ← filtersAt (allSourceFilters entry.2);
        match organizeFilters filts (hi_type hi) with
        | Some sorted => updateCoordinator entry.1 (λ fc, fc <| sourceFilters := sorted |>)
        | None => eff_unbounded
        end
  end.
Definition organizeFilterOperations : M unit :=
  s ← eff_get; eff_each organizeOne (map_to_list (filterCoord s)).

(** The case [CMD_INIT_GRANT]. *)
Definition processInitGrant command : M unit :=
  b ← get_base;
  eff_when (bool_decide (brokerState b = bs_initializing))
    (_ ← setBrokerState bs_operating;
     _ ← organizeFilterOperations;
     _ ← applyFeds (λ p _, fedAction p command);
     _ ← coord_ ftc_enteringExecMode;
     _ ← checkExecEntry;
     b ← get_base;
     eff_when (negb (ftc_hasActiveTimeDependencies (timeCoord b))) (coord_disconnect le)).

(** ** Configuration *)

(** [dataAirlocks[index].try_unload()] *)
Definition tryUnload (index : Z) : M (option nat) :=
  s ← eff_get;
  if isValidIndex index (dataAirlocks s) then
    _ ← eff_modify (λ s, s <| dataAirlocks := <[Z.to_nat index := None]> (dataAirlocks s) |>);
    mret (mjoin (dataAirlocks s !! Z.to_nat index))
  else eff_lift Fault.

Definition processCoreConfigureCommands cmd : M unit :=
  s ← eff_get;
  let b := cc_base s in
  let indicated := checkActionFlag cmd indicator_flag in
  let what := messageID cmd in
  if what =? helics_flag_enable_init_entry then
    _ ← eff_modify (λ s, s <| delayInitCounter := to_sint 16 (delayInitCounter s - 1) |>);
    s ← eff_get;
    if delayInitCounter s <=? 0 then
      ready ← allInitReady;
      eff_when ready
        (requestInit ((setAction cmd cmd_init) <| source_id := global_broker_id_local b |>
                        <| dest_id := parent_broker_id |>))
    else mret tt
  else if what =? helics_property_int_log_level then setLogLevel (getExtraData cmd)
  else if what =? helics_property_int_file_log_level then
    setLogLevels (consoleLogLevel b) (getExtraData cmd)
  else if what =? helics_property_int_console_log_level then
    setLogLevels (getExtraData cmd) (fileLogLevel b)
  else if what =? helics_flag_terminate_on_error then
    upd_base (λ b, b <| terminate_on_error := indicated |>)
  else if what =? helics_flag_slow_responding then upd_base (λ b, b <| no_ping := indicated |>)
  else if what =? UPDATE_LOGGING_CALLBACK then eff_emit (LoggerUpdate cmd)
  else if what =? UPDATE_FILTER_OPERATOR then
    op ← tryUnload (counter cmd);
    match op, findFilter s (GlobalHandle (global_broker_id_local b) (source_handle cmd)) with
    | None, _ => mret tt
    | Some op, Some p => updateFilter (λ filt, filt <| filterOp := Some op |>) p
    | Some _, None => eff_lift Fault
    end
  else mret tt.

(** The registration of the core with its broker. *)
Definition registration (b : BrokerBase) : ActionMessage :=
  let m := (newMessage cmd_reg_broker) <| source_id := invalid_global_fed_id |>
             <| payload := identifier b |> in
  setStringData m [generateLocalAddressString].
(** The case [CMD_RESEND]. *)
Definition processResend command : M unit :=
  b ← get_base;
  eff_when ((messageID command =? action_code cmd_reg_broker)
            && ((global_id b =? parent_broker_id) || negb (fed_isValid (global_id b))))
    (transmit parent_route_id
       ((setActionFlag (registration b) core_flag) <| counter := 1 |>)).

(** ** Timeouts (TimeoutMonitor.cpp) *)

Definition upd_monitor (f : TimeoutMonitor → TimeoutMonitor) : M unit :=
  eff_modify (λ s, s <| cc_timeoutMon := f (cc_timeoutMon s) |>).

Definition tickWaiting : M unit :=
  s ← eff_get;
  now ← readClock;
  if waitingForConnection (cc_timeoutMon s) then
    eff_when (tm_expired (cc_timeoutMon s) now (startWaiting (cc_timeoutMon s)))
      (addActionMessage ((newMessage cmd_check_connections)
                           <| source_id := global_broker_id_local (cc_base s) |>))
  else upd_monitor (λ t, t <| waitingForConnection := true |> <| startWaiting := now |>).

(** [tick(CommonCore* core)]; its two last branches are the same. *)
Definition tick : M unit :=
  s ← eff_get;
  let b := cc_base s in
  let png := newMessageTo cmd_ping_priority (global_broker_id_local b) (higher_broker_id b) in
  let known := fed_isValid (global_broker_id_local b)
               && negb (global_broker_id_local b =? parent_broker_id) in
  if waitingForPingReply (parentConnection (cc_timeoutMon s)) then
    now ← readClock;
    if tm_expired (cc_timeoutMon s) now (lastPing (parentConnection (cc_timeoutMon s))) then
      _ ← sendErrorToFederates (-5) "core lost connection with broker";
      _ ← processDisconnect false;
      _ ← setBrokerState bs_errored;
      addActionMessage (newMessage cmd_stop)
    else transmit parent_route_id png
  else if isConnected s && known then
    eff_when (fed_isValid (higher_broker_id b))
      (_ ← transmit parent_route_id png;
       now ← readClock;
       upd_monitor (λ t, t <| parentConnection := (parentConnection t)
                                <| lastPing := now |> <| waitingForPingReply := true |> |>))
  else if isConnected s then
    processResend ((newMessage cmd_resend) <| messageID := action_code cmd_reg_broker |>)
  else tickWaiting.

(** [pingReply] without a broker *)
Definition pingReply cmd : M unit :=
  upd_monitor (λ t,
    if source_id cmd =? connection (parentConnection t) then
      t <| parentConnection := (parentConnection t) <| waitingForPingReply := false |> |>
        <| waitingForConnection := false |>
    else
      t <| connections := (λ conn, if source_id cmd =? connection conn
                                   then conn <| waitingForPingReply := false |> else conn)
                            <$> connections t |>).

Definition pingAnswer command : M unit :=
  local ← localId;
  eff_when (dest_id command =? local)
    (routeMessage (newMessageTo cmd_ping_reply local (source_id command))).

(** ** Queries *)

Definition federateQuery (fed : option (FederateState D Q)) (queryStr : string) : string :=
  match fed with
  | None => if String.eqb queryStr "exists" then "false" else "#invalid"
  | Some fed =>
      if String.eqb queryStr "exists" then "true"
      else if String.eqb queryStr "version" then versionString
      else if String.eqb queryStr "isinit" then
        if init_transmitted fed then "true" else "false"
      else if String.eqb queryStr "state" then pretty (federate_state_code (fs_state fed))
      else federateAnswer fed queryStr
  end.

(** A message to the broker, kept until the core has its identifier. *)
Definition forwardUp command : M unit :=
  local ← localId;
  if negb (local =? parent_broker_id)
  then transmit parent_route_id (command <| source_id := local |>)
  else delayTransmit command.

(** The case [CMD_QUERY]. *)
Definition processQuery command : M unit :=
  s ← eff_get;
  let b := cc_base s in
  let target := getString command targetStringLoc in
  if dest_id command =? parent_broker_id then
    let toBroker id := clearStringData ((setAction command cmd_broker_query)
                                          <| dest_id := id |>) in
    let command :=
      if String.eqb target "root" || String.eqb target "federation" then toBroker root_broker_id
      else if String.eqb target "parent" || String.eqb target "broker"
      then toBroker (higher_broker_id b) else command in
    if negb (global_broker_id_local b =? parent_broker_id) then forwardUp command
    else delayTransmit (command <| source_id := direct_core_id |>)
  else if String.eqb target (identifier b) then eff_emit (LocalQuery command)
  else
    let fedptr := getFederateCoreByName s target in
    fed ← match fedptr with Some p => fed ← fedAt p; mret (Some fed) | None => mret None end;
    let repStr := federateQuery fed (payload command) in
    let reply rep :=
      transmitRouted ((newMessageTo cmd_query_reply (dest_id command) (source_id command))
        <| messageID := messageID command |> <| counter := counter command |>
        <| payload := rep |>) in
    if String.eqb repStr "#wait" then
      match fedptr, fed with
      | Some p, Some fed => fedAction p (command <| dest_id := fs_global_id fed |>)
      | _, _ => reply "#error"
      end
    else reply repStr.

(** The parts of an answer that is put together from several are not modelled. *)
Definition processQueryResponse m : M unit :=
  if counter m =? general_query then eff_emit (QueryValue (messageID m) (payload m))
  else eff_emit (QueryComponent m).

(** ** Priority messages *)

(** The case [CMD_BROKER_ACK] for this core. *)
Definition brokerAck command : M unit :=
  if checkActionFlag command error_flag then
    let estring := "broker responded with error: " +:+ errorMessageString command in
    _ ← setErrorState (messageID command) estring;
    errorRespondDelayedMessages estring
  else
    let local := dest_id command in
    _ ← upd_base (λ b, b <| global_id := local |> <| global_broker_id_local := local |>
                         <| timeCoord := (timeCoord b) <| ftc_source_id := local |> |>
                         <| higher_broker_id := source_id command |>);
    _ ← transmitDelayedMessages;
    _ ← upd_monitor (tm_setParentId (source_id command));
    _ ← eff_when (checkActionFlag command slow_responding_flag)
          (upd_monitor (tm_disableParentPing true));
    _ ← upd_monitor tm_reset;
    s ← eff_get;
    if (delayInitCounter s <? 0) && (minFederateCount (cc_base s) =? 0) then
      ready ← allInitReady;
      eff_when ready (requestInit (newMessageTo cmd_init local parent_broker_id))
    else mret tt.

(** The case [CMD_FED_ACK]. *)
Definition federateAck command : M unit :=
  s ← eff_get;
  match getFederateCoreByName s (payload command) with
  | None => mret tt
  | Some p =>
      _ ← eff_when (negb (checkActionFlag command error_flag))
            (_ ← updateFed p (λ fed, fed <| fs_global_id := dest_id command |>);
             eff_modify (λ s, s <| loopFederates :=
               mv_addTermByName (dest_id command) (payload command) (loopFederates s) |>));
      fedAction p command
  end.

(** The case [CMD_REG_FED]: the federate is entered with a pointer to it. *)
Definition enterFederate command : M unit :=
  _ ← eff_modify (λ s, s <| loopFederates :=
        (mv_insert1 (payload command) (mkFedInfo (getFederate s (payload command)) op_operating)
           (loopFederates s)).1 |>);
  forwardUp command.

(** [processPriorityCommand], given what it does with a message that has no case. *)
Definition processPriorityWith (rest : M unit) command : M unit :=
  b ← get_base;
  let here := dest_id command =? global_broker_id_local b in
  match action command with
  | cmd_ping_priority => pingAnswer command
  | cmd_reg_fed => enterFederate command
  | cmd_broker_location =>
      _ ← transmit control_route ((setAction command cmd_protocol)
                                    <| messageID := NEW_BROKER_INFORMATION |>);
      addActionMessage ((newMessage cmd_resend) <| messageID := action_code cmd_reg_broker |>)
  | cmd_reg_broker =>
      eff_when (negb (String.eqb (payload command) (identifier b)))
        (transmit parent_route_id command)
  | cmd_broker_ack =>
      eff_when (String.eqb (payload command) (identifier b)) (brokerAck command)
  | cmd_fed_ack => federateAck command
  | cmd_register_route => addRoute (getExtraData command) 0 (payload command)
  | cmd_priority_disconnect => _ ← checkDisconnect; checkDisconnect
  | cmd_broker_query =>
      if here || (dest_id command =? direct_core_id) then eff_emit (LocalQuery command)
      else routeMessageMove command
  | cmd_query => processQuery command
  | cmd_query_reply => if here then processQueryResponse command else transmitRouted command
  | cmd_priority_ack | cmd_route_ack => mret tt
  | cmd_set_global => forwardUp command
  | _ => rest
  end.

(** ** The other messages *)

(** The case [CMD_CHECK_CONNECTIONS]; what it finds about the federates is logged. *)
Fixpoint federatesOver (infos : list FedInfo) : M bool :=
  match infos with
  | [] => mret true
  | info :: infos =>
      p ← pointer info; fed ← fedAt p;
      if is_over (fs_state fed) then federatesOver infos else mret false
  end.
Definition checkConnections : M unit :=
  _ ← checkDisconnect;
  s ← eff_get;
  _ ← federatesOver (mv_elements (loopFederates s)); mret tt.

(** The case [CMD_USER_DISCONNECT]. *)
Definition userDisconnect : M unit :=
  s ← eff_get;
  let st := brokerState (cc_base s) in
  _ ← (if isConnected s then
         eff_when (broker_state_lt st bs_terminating)
           (_ ← setBrokerState bs_terminating; _ ← sendDisconnect; transmitDisconnect)
       else eff_when (bool_decide (st = bs_errored))
              (_ ← sendDisconnect; transmitDisconnect));
  addActionMessage (newMessage cmd_stop).
(** The case [CMD_STOP]. *)
Definition processStop : M unit :=
  s ← eff_get;
  _ ← eff_when (isConnected s && broker_state_lt (brokerState (cc_base s)) bs_terminating)
        (_ ← setBrokerState bs_terminating; _ ← sendDisconnect; transmitDisconnect);
  eff_emit (QueriesFulfilled "#disconnected").

(** A time message of a federate that has a message out at a filter waits. *)
Definition delayTiming command (next : M unit) : M unit :=
  s ← eff_get;
  let src := source_id command in
  if isLocal s src && negb (bool_decide (ongoing s src = ∅)) then
    eff_modify (λ s, s <| delayedTimingMessages :=
      <[src := delayedTiming s src ++ [copyConstruct command]]> (delayedTimingMessages s) |>)
  else next.
Definition toDependents command : M unit :=
  b ← get_base; eff_each (routeMessageTo command) (ftc_dependents (timeCoord b)).
Definition processExec command : M unit :=
  b ← get_base;
  let local := global_broker_id_local b in
  if dest_id command =? local then
    _ ← processTimeMessage command;
    eff_when (negb (enteredExecutionMode b)) checkExecEntry
  else if source_id command =? local then toDependents command
  else routeMessage command.
Definition processTime command : M unit :=
  local ← localId;
  if source_id command =? local then toDependents command else routeMessage command.

(** The disconnection of a federate. *)
Definition disconnectFederate command : M unit :=
  s ← eff_get;
  let cstate := brokerState (cc_base s) in
  if broker_state_lt cstate bs_terminating then
    match mv_index2 (loopFederates s) (source_id command) with
    | None => mret tt
    | Some ii =>
        _ ← updateLoopFed (λ fed, fed <| fed_state := op_disconnected |>) ii;
        done ← checkAndProcessDisconnect;
        if negb done || broker_state_lt cstate bs_operating then
          let command := setAction command cmd_disconnect_fed in
          _ ← transmit parent_route_id command;
          s ← eff_get;
          eff_when (negb (bool_decide (minFederateState s = op_disconnected)))
            (routeMessage ((setAction command cmd_disconnect_fed_ack)
               <| dest_id := source_id command |> <| source_id := parent_broker_id |>))
        else mret tt
    end
  else mret tt.

(** The case [CMD_SEARCH_DEPENDENCY]. *)
Definition searchDependency command : M unit :=
  s ← eff_get;
  fed ← match getFederateCoreByName s (payload command) with
        | Some p => fed ← fedAt p; mret (Some (fs_global_id fed))
        | None => mret None
        end;
  match fed with
  | Some gid =>
      if fed_isValid gid then
        _ ← routeMessage (newMessageTo cmd_add_dependency gid (source_id command));
        routeMessage (newMessageTo cmd_add_dependent (source_id command) gid)
      else transmit parent_route_id command
  | None => transmit parent_route_id command
  end.

(** An error that is made an error of the whole federation. *)
Definition escalateError command : M unit :=
  b ← get_base;
  _ ← eff_when (negb (bool_decide (brokerState b = bs_errored)))
        (_ ← sendErrorToFederates (messageID command) (payload command);
         setBrokerState bs_errored);
  transmit parent_route_id
    ((setAction command cmd_global_error) <| source_id := global_broker_id_local b |>
       <| dest_id := root_broker_id |>).
(** The cases [CMD_ERROR] and [CMD_LOCAL_ERROR]. *)
Definition processError command : M unit :=
  s ← eff_get;
  let b := cc_base s in
  let src := source_id command in
  let failed ii := updateLoopFed (λ fed, fed <| fed_state := op_error |>) ii in
  if dest_id command =? global_broker_id_local b then
    _ ← (if (src =? higher_broker_id b) || (src =? parent_broker_id) || (src =? root_broker_id)
         then
           _ ← sendErrorToFederates (messageID command) (payload command);
           setErrorState (messageID command) (payload command)
         else
           _ ← match mv_index2 (loopFederates s) src with
               | Some ii => failed ii
               | None => eff_lift Fault
               end;
           eff_when (hasTimeDependency b) (_ ← processTimeMessage command; mret tt));
    eff_when (terminate_on_error b) (escalateError command)
  else if dest_id command =? parent_broker_id then
    if terminate_on_error b then escalateError command
    else
      _ ← match mv_index2 (loopFederates s) src with
          | Some ii => eff_when (fed_isValid src) (failed ii)
          | None => mret tt
          end;
      routeMessage command
  else routeMessage command.
Definition processGlobalError command : M unit :=
  b ← get_base;
  _ ← setErrorState (messageID command) (payload command);
  _ ← sendErrorToFederates (messageID command) (payload command);
  eff_when (negb ((source_id command =? higher_broker_id b)
                  || (source_id command =? root_broker_id)))
    (transmit parent_route_id command).

(** The cases [CMD_DATA_LINK] and [CMD_FILTER_LINK]. *)
Definition dataLink command : M unit :=
  s ← eff_get;
  let target := getString command targetStringLoc in
  pub ← eff_lift (getPublication (loopHandles s) (payload command));
  match pub with
  | Some pub =>
      checkForNamedInterface
        (clearStringData (setSource (setAction (command <| payload := target |>)
                                       cmd_add_named_input) (hi_handle pub)))
  | None =>
      input ← eff_lift (getInput (loopHandles s) target);
      match input with
      | None => routeMessage command
      | Some input =>
          checkForNamedInterface
            (clearStringData (setSource (setAction command cmd_add_named_publication)
                                (hi_handle input)))
      end
  end.
Definition filterLink command : M unit :=
  s ← eff_get;
  let target := getString command targetStringLoc in
  filt ← eff_lift (getFilter (loopHandles s) (payload command));
  match filt with
  | Some filt =>
      let command := setSource (setAction (command <| payload := target |>)
                                  cmd_add_named_endpoint) (hi_handle filt) in
      checkForNamedInterface (if checkActionFlag filt clone_flag
                              then setActionFlag command clone_flag else command)
  | None =>
      ept ← eff_lift (getEndpoint (loopHandles s) target);
      match ept with
      | None => routeMessage command
      | Some ept =>
          checkForNamedInterface (setSource (setAction command cmd_add_named_filter)
                                    (hi_handle ept))
      end
  end.

(** [fuel] bounds the depth of the delivery of one message. *)
Definition processCommand (fuel : nat) command : M unit :=
  s ← eff_get;
  let b := cc_base s in
  let here := dest_id command =? global_broker_id_local b in
  match action command with
  | cmd_ignore => mret tt
  | cmd_tick => eff_when (bool_decide (brokerState b = bs_operating)) tick
  | cmd_ping | CMD_BROKER_PING => pingAnswer command
  | cmd_ping_reply => eff_when here (pingReply command)
  | cmd_resend => processResend command
  | cmd_check_connections => checkConnections
  | cmd_user_disconnect => userDisconnect
  | cmd_broadcast_disconnect =>
      _ ← processTimeMessage command;
      _ ← applyFeds (λ p _, fedAction p command);
      checkDisconnect
  | cmd_stop => processStop
  | cmd_exec_grant | cmd_exec_request => delayTiming command (processExec command)
  | cmd_time_request | cmd_time_grant => delayTiming command (processTime command)
  | cmd_disconnect | cmd_disconnect_fed =>
      if dest_id command =? parent_broker_id then disconnectFederate command
      else routeMessage command
  | cmd_disconnect_check => checkDisconnect
  | cmd_disconnect_core_ack =>
      eff_when (here && (source_id command =? higher_broker_id b))
        (_ ← dismissFederates is_finished; addActionMessage (newMessage cmd_stop))
  | cmd_search_dependency => searchDependency command
  | cmd_add_dependency | cmd_remove_dependency | cmd_add_dependent | cmd_remove_dependent
  | cmd_add_interdependency | cmd_remove_interdependency => routeMessage command
  | cmd_send_for_filter | cmd_send_for_filter_return | cmd_send_for_dest_filter_return =>
      processMessageFilter fuel command
  | cmd_null_message | cmd_filter_result => processFilterReturn fuel command
  | cmd_dest_filter_result | cmd_null_dest_message => processDestFilterReturn command
  | cmd_pub => routeMessage command
  | cmd_log | cmd_warning => eff_when (negb here) (routeMessage command)
  | cmd_error | cmd_local_error => processError command
  | cmd_global_error => processGlobalError command
  | cmd_data_link => dataLink command
  | cmd_filter_link => filterLink command
  | cmd_reg_input | cmd_reg_end | cmd_reg_pub | cmd_reg_filter => registerInterface command
  | cmd_add_named_endpoint | cmd_add_named_publication | cmd_add_named_input
  | cmd_add_named_filter => checkForNamedInterface command
  | cmd_add_endpoint | cmd_add_filter | cmd_add_subscriber | cmd_add_publisher =>
      addTargetToInterface command
  | cmd_remove_named_endpoint | cmd_remove_named_publication | cmd_remove_named_input
  | cmd_remove_named_filter => removeNamedTarget command
  | cmd_remove_publication | cmd_remove_subscriber | cmd_remove_filter
  | cmd_remove_endpoint => removeTargetFromInterface command
  | cmd_close_interface => disconnectInterface command
  | cmd_core_configure => processCoreConfigureCommands command
  | cmd_init => processInit command
  | cmd_init_grant => processInitGrant command
  | cmd_send_message =>
      if (dest_id command =? parent_broker_id) && isLocal s (source_id command)
      then m ← processMessage fuel command; deliverMessage fuel m
      else deliverMessage fuel command
  | _ => eff_when (isPriorityCommand command) (processPriorityWith (mret tt) command)
  end.
Definition processPriorityCommand (fuel : nat) command : M unit :=
  processPriorityWith (eff_when (negb (isPriorityCommand command)) (processCommand fuel command))
    command.

#[export] Instance CommonCore_virtuals (fuel : nat) : BrokerVirtuals CC := {|
  v_processCommand := processCommand fuel;
  v_processPriorityCommand := processPriorityCommand fuel;
  v_processDisconnect := processDisconnect;
|}.

(** ** Connection *)

(** [connect], given what [brokerConnect] returns; a call while another thread is
    connecting waits for it. *)
Definition connect (res : bool) : M bool :=
  s ← eff_get;
  let b := cc_base s in
  if bool_decide (brokerState b = bs_configured) then
    _ ← setBrokerState bs_connecting;
    _ ← upd_monitor (tm_setTimeout (Time_to_ms (bb_timeout b)));
    if res then
      m ← (if negb (String.eqb (brokerKey b) "")
           then eff_lift (setString (registration b) 1 (brokerKey b))
           else mret (registration b));
      let m := setActionFlag m core_flag in
      _ ← transmit parent_route_id
            (if no_ping b then setActionFlag m slow_responding_flag else m);
      _ ← setBrokerState bs_connected;
      mret true
    else _ ← setBrokerState bs_configured; mret false
  else if bool_decide (brokerState b = bs_connecting) then eff_unbounded
  else mret (isConnected s).
End core.
