(* ===== verification/CoreApi.v ===== *)
(** * The calls of the federates (src/src/helics/core/CommonCore.cpp)

    The methods of a core that the thread of a federate calls.  They read and change the
    tables that the two threads share, change the federate, and queue messages for the
    thread of the core.  A call that processes the queue of the federate takes the
    messages that arrive meanwhile as an argument and returns [None] when it waits for
    more, as in FederateState.v.  Exceptions are [Throw] with their text. *)

From stdpp Require Import strings.
From S2P Require Import Prelude HelicsTime Ids Flags ActionMessage MessageCodec.
From S2P Require Import Definitions TimeDependencies TimeCoordinator InputInfo Interfaces.
From S2P Require Import InterfaceInfo HandleManager FederateState.
From S2P Require Import ForwardingTimeCoordinator Effects MappedVector BrokerBase BrokerState.
From S2P Require Import CoreState CommonCore.

(** The underlying value of a [handle_type]. *)
Definition handle_type_code (what : handle_type) : Z :=
  match what with
  | ht_unknown => 117 | ht_publication => 112 | ht_input => 105
  | ht_endpoint => 101 | ht_filter => 102
  end.

Section api.
  Context `{TimeRep} `{SteadyClock} `{TimeMs} `{UnitsLib} `{Fmt} `{MappedVector C}.
  Context `{DualMapped D} `{BlockingQueue Q} `{FilterOperators W} `{LocalAddress} (le : bool).
  Context (answer : FederateState D Q → string → string).
  Abbreviation CC := (CommonCore C D Q W).
  Abbreviation FS := (FederateState D Q).
  Abbreviation M := (effM CC broker_out).
  Implicit Types (s : CC) (cmd : ActionMessage).

Definition throw {A} (what : string) : M A := eff_lift (Throw what).

(** A call of a federate; what it sends to the core is queued. *)
Definition onFederate {A} (p : nat) (f : fsM A) : M A :=
  fed ← fedAt p;
  match f fed with
  | None => eff_unbounded
  | Some res =>
      '(fed, msgs, a) ← eff_lift res;
      _ ← updateFed p (λ _, fed);
      _ ← eff_each addActionMessage msgs;
      mret a
  end.
Definition federateAt (what : string) (federateID : local_federate_id) : M nat :=
  s ← eff_get;
  match getFederateAt s federateID with Some p => mret p | None => throw what end.
(** [getFederateAt(handleInfo->local_fed_id)->]: a null pointer is a fault. *)
Definition ownerOf (hi : BasicHandleInfo) : M nat :=
  s ← eff_get;
  match getFederateAt s (local_fed_id hi) with Some p => mret p | None => eff_lift Fault end.
Definition handleOf (what : string) (hid : interface_handle) : M BasicHandleInfo :=
  s ← eff_get;
  match getHandleInfo (cc_handles s) hid with Some hi => mret hi | None => throw what end.

(** ** Registration *)

(** The rounds of [waitCoreRegistration] until the timeout, when the core does not get
    its identifier meanwhile; [res] is what the communication layer returns. *)
Fixpoint waitRounds (res : bool) (rounds sleepcnt : nat) : M bool :=
  b ← get_base;
  if negb ((global_id b =? parent_broker_id) || negb (fed_isValid (global_id b)))
  then mret true
  else
    match rounds with
    | O => mret false
    | S rounds =>
        _ ← eff_when (negb (broker_state_lt bs_configured (brokerState b)))
              (_ ← connect res; mret tt);
        b ← get_base;
        if negb (broker_state_lt (brokerState b) bs_terminating) then mret false
        else
          _ ← eff_when (bool_decide (sleepcnt = 20%nat))
                (addActionMessage ((newMessage cmd_resend)
                                     <| messageID := action_code cmd_reg_broker |>));
          waitRounds res rounds (S sleepcnt)
    end.
Definition waitCoreRegistration (res : bool) (rounds : nat) : M bool := waitRounds res rounds 0.

(** The part of [registerFederate] before the federate waits for the answer. *)
Definition beginRegistration (res : bool) (rounds : nat) (name : string)
    (info : CoreFederateInfo) : M (nat * local_federate_id) :=
  ok ← waitCoreRegistration res rounds;
  b ← get_base;
  if negb ok then
    throw (if bool_decide (brokerState b = bs_errored)
              && negb (String.eqb (lastErrorString b) "") then lastErrorString b
           else "core is unable to register and has timed out, federate cannot be registered")
  else if negb (broker_state_lt (brokerState b) bs_operating)
  then throw "Core has already moved to operating state"
  else
    s ← eff_get;
    let p := mv_size (federates s) in
    let local_id := to_sint 32 (Z.of_nat p) in
    let '(feds, inserted) := mv_insert1 name (newFederateState name info) (federates s) in
    if negb inserted then
      throw ("duplicate names " +:+ name +:+ "detected multiple federates with the same name")
    else
      _ ← eff_modify (λ s, s <| federates := feds |>);
      _ ← updateFed p (λ fed, fed <| fs_local_id := local_id |> <| fs_parent := true |>);
      _ ← addActionMessage ((newMessage cmd_reg_fed) <| payload := name |>);
      mret (p, local_id).
(** [later] are the messages for the federate that arrive while it waits. *)
Definition registerFederate (res : bool) (rounds fuel n : nat) (name : string)
    (info : CoreFederateInfo) (later : list ActionMessage) : M (option local_federate_id) :=
  '(p, local_id) ← beginRegistration res rounds name info;
  valid ← onFederate p (waitSetup le answer fuel n later);
  match valid with
  | None => mret None
  | Some next_step => mret (Some local_id)
  | Some _ =>
      fed ← fedAt p;
      throw ("fed received Failure " +:+ fs_errorString fed)
  end.

Definition getFederateName (federateID : local_federate_id) : M string :=
  p ← federateAt "federateID not valid (federateName)" federateID;
  fed ← fedAt p; mret (fs_name fed).
Definition getFederateId (name : string) : M local_federate_id :=
  s ← eff_get;
  match getFederate s name with
  | Some p => fed ← fedAt p; mret (fs_local_id fed)
  | None => mret invalid_fid
  end.

(** ** The life of a federate *)

(** The loop of the two calls that report an error, of at most [k] rounds. *)
Fixpoint errorLoop (k fuel n : nat) (p : nat) (later : list (list ActionMessage)) : M bool :=
  match k with
  | O => eff_unbounded
  | S k =>
      ret ← onFederate p (genericUnspecifiedQueueProcess le answer fuel n
                            (default [] (head later)));
      match ret with
      | None => mret false
      | Some mpr_error | Some halted => mret true
      | Some _ => errorLoop k fuel n p (tail later)
      end
  end.
Definition reportError (act : action_t) (k fuel n : nat) (federateID : local_federate_id)
    (errorCode : Z) (errorString : string) (later : list (list ActionMessage)) : M bool :=
  p ← federateAt "federateID not valid error" federateID;
  fed ← fedAt p;
  let m := (newMessage act) <| source_id := fs_global_id fed |> <| messageID := errorCode |>
             <| payload := errorString |> in
  _ ← addActionMessage m;
  _ ← fedAction p m;
  errorLoop k fuel n p later.
Definition globalError := reportError cmd_global_error.
Definition localError := reportError cmd_local_error.

Definition finalize (k fuel n : nat) (federateID : local_federate_id)
    (later : list (list ActionMessage)) : M bool :=
  p ← federateAt "federateID not valid finalize" federateID;
  fed ← fedAt p;
  _ ← addActionMessage (newMessageTo cmd_disconnect (fs_global_id fed) (fs_global_id fed));
  onFederate p (FederateState.finalize le answer k fuel n later).

(** [generateFederateException] *)
Definition generateFederateException (fed : FS) : M unit :=
  if fs_errorCode fed =? 0 then mret tt else throw (fs_errorString fed).

Definition enterInitializingMode (fuel n : nat) (federateID : local_federate_id)
    (later : list ActionMessage) : M bool :=
  p ← federateAt "federateID not valid for Entering Init" federateID;
  fed ← fedAt p;
  match fs_state fed with
  | HELICS_CREATED =>
      if init_requested fed then
        throw "federate already has requested entry to initializing State"
      else
        _ ← updateFed p (λ fed, fed <| init_requested := true |>);
        _ ← addActionMessage ((newMessage cmd_init) <| source_id := fs_global_id fed |>);
        check ← onFederate p (FederateState.enterInitializingMode le answer fuel n later);
        match check with
        | None => mret false
        | Some next_step => mret true
        | Some check =>
            _ ← updateFed p (λ fed, fed <| init_requested := false |>);
            if bool_decide (check = halted) then throw "HELICS system failure"
            else fed ← fedAt p; _ ← generateFederateException fed; mret true
        end
  | HELICS_INITIALIZING => mret true
  | _ => throw "May only enter initializing state from created state"
  end.

Definition enterExecutingMode (fuel n : nat) (federateID : local_federate_id)
    (iterate : iteration_request) (later : list ActionMessage)
    : M (option message_processing_result) :=
  p ← federateAt "federateID not valid (EnterExecutingState)" federateID;
  fed ← fedAt p;
  match fs_state fed with
  | HELICS_EXECUTING => mret (Some next_step)
  | HELICS_INITIALIZING =>
      _ ← fedAction p (newMessage cmd_exec_check);
      onFederate p (FederateState.enterExecutingMode le answer fuel n iterate later)
  | _ => throw "federate is in invalid state for calling entry to exec mode"
  end.

Definition timeRequest (fuel n : nat) (federateID : local_federate_id) (next : Time)
    (later : list ActionMessage) : M (option Time) :=
  p ← federateAt "federateID not valid timeRequest" federateID;
  fed ← fedAt p;
  match fs_state fed with
  | HELICS_EXECUTING =>
      ret ← onFederate p (requestTime le answer fuel n next no_iterations later);
      match ret with
      | None => mret None
      | Some (_, mpr_error) => fed ← fedAt p; throw (fs_errorString fed)
      | Some (_, halted) => mret (Some Time_maxVal)
      | Some (grantedTime, _) => mret (Some grantedTime)
      end
  | HELICS_FINISHED => mret (Some Time_maxVal)
  | _ => throw "time request should only be called in execution state"
  end.

Definition requestTimeIterative (fuel n : nat) (federateID : local_federate_id) (next : Time)
    (iterate : iteration_request) (later : list ActionMessage)
    : M (option (Time * message_processing_result)) :=
  p ← federateAt "federateID not valid timeRequestIterative" federateID;
  fed ← fedAt p;
  match fs_state fed with
  | HELICS_EXECUTING =>
      b ← get_base;
      let iterate :=
        if bool_decide (iterate = iterate_if_needed)
           && (maxIterationCount b <=? fs_getCurrentIteration fed)
        then no_iterations else iterate in
      onFederate p (requestTime le answer fuel n next iterate later)
  | HELICS_FINISHED | HELICS_TERMINATING => mret (Some (Time_maxVal, halted))
  | HELICS_CREATED | HELICS_INITIALIZING => mret (Some (timeZero, mpr_error))
  | HELICS_UNKNOWN | HELICS_ERROR => mret (Some (Time_maxVal, mpr_error))
  end.

Definition getCurrentTime (federateID : local_federate_id) : M Time :=
  p ← federateAt "federateID not valid (getCurrentTime)" federateID;
  fed ← fedAt p; mret (fs_time_granted fed).
Definition getCurrentReiteration (federateID : local_federate_id) : M Z :=
  p ← federateAt "federateID not valid (getCurrentReiteration)" federateID;
  fed ← fedAt p; mret (fs_getCurrentIteration fed).

(** ** Properties *)

(** A configuration message for the thread of the core. *)
Definition configureCore (property : Z) : ActionMessage :=
  (newMessage cmd_core_configure) <| messageID := property |>.
Definition setIntegerProperty (res : bool) (rounds : nat) (federateID : local_federate_id)
    (property propertyValue : Z) : M unit :=
  if federateID =? local_core_id then
    ok ← waitCoreRegistration res rounds;
    if negb ok then throw "core is unable to register and has timed out, property was not set"
    else
      b ← get_base;
      addActionMessage (setExtraData ((configureCore property) <| dest_id := global_id b |>)
                          propertyValue)
  else
    p ← federateAt "federateID not valid (getMaximumIterations)" federateID;
    updateFed p (λ fed, setProperties fed
      (setExtraData ((newMessage cmd_fed_configure_int) <| messageID := property |>)
         propertyValue)).
Definition setTimeProperty (federateID : local_federate_id) (property : Z) (time : Time)
    : M unit :=
  p ← federateAt "federateID not valid (setTimeDelta)" federateID;
  if time <? timeZero then throw "time properties must be greater than or equal to zero"
  else
    updateFed p (λ fed, setProperties fed
      ((newMessage cmd_fed_configure_time) <| messageID := property |>
         <| actionTime := time |>)).
Definition getTimeProperty (federateID : local_federate_id) (property : Z) : M Time :=
  p ← federateAt "federateID not valid (setTimeDelta)" federateID;
  fed ← fedAt p; mret (fs_getTimeProperty fed property).
Definition getIntegerProperty (federateID : local_federate_id) (property : Z) : M Z :=
  if federateID =? local_core_id then mret 0
  else
    p ← federateAt "federateID not valid (setTimeDelta)" federateID;
    fed ← fedAt p; mret (fs_getIntegerProperty fed property).

(** [setFlagOption]; [++delayInitCounter] is done in the thread of the federate. *)
Definition setFlagOption (federateID : local_federate_id) (flag : Z) (flagValue : bool)
    : M unit :=
  let indicate m := if flagValue then setActionFlag m indicator_flag else m in
  if federateID =? local_core_id then
    if flag =? helics_flag_delay_init_entry then
      if flagValue then
        eff_modify (λ s, s <| delayInitCounter := to_sint 16 (delayInitCounter s + 1) |>)
      else addActionMessage (configureCore helics_flag_delay_init_entry)
    else addActionMessage (indicate (configureCore flag))
  else
    p ← federateAt "federateID not valid (setFlag)" federateID;
    updateFed p (λ fed, setProperties fed
      (indicate ((newMessage cmd_fed_configure_flag) <| messageID := flag |>))).
Definition setCoreReadyToInit : M unit :=
  setFlagOption local_core_id helics_flag_enable_init_entry true.
Definition getFlagOption (federateID : local_federate_id) (flag : Z) : M bool :=
  if federateID =? local_core_id then mret false
  else
    p ← federateAt "federateID not valid (setTimeDelta)" federateID;
    fed ← fedAt p; eff_lift (fs_getOptionFlag fed flag).

(** ** Interfaces *)

(** [createBasicHandle]: the handle with its members, as the table has it. *)
Definition createBasicHandle (gid : global_federate_id) (lid : local_federate_id)
    (what : handle_type) (key type units : string) (flags_ : Z) : M BasicHandleInfo :=
  s ← eff_get;
  let '(hm, hndl) := addHandle (cc_handles s) gid what key type units in
  let hndl := hndl <| local_fed_id := lid |> <| hi_flags := flags_ |> in
  _ ← eff_modify (λ s, s <| cc_handles :=
        alterHandle (λ _, hndl) (Z.of_nat (pred (length (HandleManager.handles hm)))) hm |>);
  mret hndl.

(** The common part of the three registrations of a federate: [find] is the search for
    the name and [strs] are the strings of the message. *)
Definition registerNamed (act : action_t) (what : handle_type)
    (find : HandleManager → string → outcome (option BasicHandleInfo)) (taken : string)
    (p : nat) (key type units : string) (strs : list string) : M interface_handle :=
  fed ← fedAt p;
  s ← eff_get;
  old ← eff_lift (find (cc_handles s) key);
  match old with
  | Some _ => throw taken
  | None =>
      hndl ← createBasicHandle (fs_global_id fed) (fs_local_id fed) what key type units
               (interfaceFlags fed);
      let id := handle (hi_handle hndl) in
      _ ← updateFed p (λ fed, createInterface fed what id key type units);
      _ ← addActionMessage
            (setStringData ((newMessage act) <| source_id := fs_global_id fed |>
               <| source_handle := id |> <| payload := key |> <| flags := hi_flags hndl |>)
               strs);
      mret id
  end.
Definition registerInput (federateID : local_federate_id) (key type units : string)
    : M interface_handle :=
  p ← federateAt "federateID not valid (registerNamedInput)" federateID;
  registerNamed cmd_reg_input ht_input getInput "named Input already exists" p key type units
    [type; units].
Definition registerPublication (federateID : local_federate_id) (key type units : string)
    : M interface_handle :=
  p ← federateAt "federateID not valid (registerPublication)" federateID;
  registerNamed cmd_reg_pub ht_publication getPublication "Publication key already exists" p
    key type units [type; units].
Definition registerEndpoint (federateID : local_federate_id) (name type : string)
    : M interface_handle :=
  p ← federateAt "federateID not valid (registerEndpoint)" federateID;
  registerNamed cmd_reg_end ht_endpoint getEndpoint "endpoint name is already used" p name type
    "" [type].

(** [registerFilter] and [registerCloningFilter] *)
Definition registerFilterWith (clone res : bool) (rounds : nat)
    (filterName type_in type_out : string) : M interface_handle :=
  s ← eff_get;
  old ← (if negb (String.eqb filterName "")
         then eff_lift (getFilter (cc_handles s) filterName) else mret None);
  match old with
  | Some _ => throw "there already exists a filter with this name"
  | None =>
      ok ← waitCoreRegistration res rounds;
      b ← get_base;
      if negb ok then
        throw (if negb (broker_state_lt (brokerState b) bs_terminating)
               then "core is terminated no further registration possible"
               else "registration timeout exceeded")
      else
        let brkid := global_id b in
        hndl ← createBasicHandle brkid invalid_fid ht_filter filterName type_in type_out
                 (if clone then make_flags clone_flag else 0);
        let id := handle (hi_handle hndl) in
        let m := (newMessage cmd_reg_filter) <| source_id := brkid |>
                   <| source_handle := id |> <| payload := hi_key hndl |> in
        let m := if clone then setActionFlag m clone_flag else m in
        _ ← addActionMessage
              (if negb (String.eqb type_in "") || negb (String.eqb type_out "")
               then setStringData m [type_in; type_out] else m);
        mret id
  end.
Definition registerFilter := registerFilterWith false.
Definition registerCloningFilter := registerFilterWith true.

(** The searches by name dereference what they find. *)
Definition getNamed (find : HandleManager → string → outcome (option BasicHandleInfo))
    (federateID : local_federate_id) (key : string) : M interface_handle :=
  s ← eff_get;
  hi ← eff_lift (find (cc_handles s) key);
  match hi with
  | Some hi => mret (if local_fed_id hi =? federateID then handle (hi_handle hi)
                     else invalid_handle)
  | None => eff_lift Fault
  end.
Definition api_getInput := getNamed getInput.
Definition api_getPublication := getNamed getPublication.
Definition api_getEndpoint := getNamed getEndpoint.
Definition api_getFilter (name : string) : M interface_handle :=
  s ← eff_get;
  hi ← eff_lift (getFilter (cc_handles s) name);
  mret (match hi with
        | Some hi => if bool_decide (handleType hi = ht_filter) then handle (hi_handle hi)
                     else invalid_handle
        | None => invalid_handle
        end).

Definition getHandleName (hid : interface_handle) : M string :=
  s ← eff_get;
  mret (match getHandleInfo (cc_handles s) hid with Some hi => hi_key hi | None => "" end).
(** A value of an input that its object computes and keeps. *)
Definition injected (get : InputInfo → InputInfo * string) (hi : BasicHandleInfo)
    (hid : interface_handle) : M string :=
  p ← ownerOf hi;
  fed ← fedAt p;
  match if_getInput (interfaceInformation fed) hid with
  | None => mret ""
  | Some ipt =>
      _ ← updateFed p (on_inputs (dm_alter2 (λ _, (get ipt).1) hid));
      mret (get ipt).2
  end.
Definition getInjectionUnits (hid : interface_handle) : M string :=
  s ← eff_get;
  match getHandleInfo (cc_handles s) hid with
  | None => mret ""
  | Some hi => match handleType hi with
               | ht_input => injected InputInfo.getInjectionUnits hi hid
               | ht_publication => mret (hi_units hi)
               | _ => mret ""
               end
  end.
Definition getExtractionUnits (hid : interface_handle) : M string :=
  s ← eff_get;
  mret (match getHandleInfo (cc_handles s) hid with
        | None => ""
        | Some hi => match handleType hi with
                     | ht_input | ht_publication => hi_units hi
                     | _ => ""
                     end
        end).
Definition getInjectionType (hid : interface_handle) : M string :=
  s ← eff_get;
  match getHandleInfo (cc_handles s) hid with
  | None => mret ""
  | Some hi => match handleType hi with
               | ht_input => injected InputInfo.getInjectionType hi hid
               | ht_endpoint | ht_filter => mret (hi_type hi)
               | _ => mret ""
               end
  end.
Definition getExtractionType (hid : interface_handle) : M string :=
  s ← eff_get;
  mret (match getHandleInfo (cc_handles s) hid with
        | None => ""
        | Some hi => match handleType hi with
                     | ht_publication | ht_input | ht_endpoint => hi_type hi
                     | ht_filter => hi_units hi
                     | ht_unknown => ""
                     end
        end).

Definition setHandleOption (hid : interface_handle) (option option_value : Z) : M unit :=
  s ← eff_get;
  match getHandleInfo (cc_handles s) hid with
  | None => mret tt
  | Some hi =>
      _ ← eff_modify (λ s, s <| cc_handles :=
            HandleManager.setHandleOption (cc_handles s) hid option option_value |>);
      let fcn := setExtraDestData
                   ((newMessage cmd_interface_configure) <| dest_handle := hid |>
                      <| messageID := option |>
                      <| counter := handle_type_code (handleType hi) |>) option_value in
      let fcn := if negb (option_value =? 0) then setActionFlag fcn indicator_flag else fcn in
      if negb (bool_decide (handleType hi = ht_filter)) then
        s ← eff_get;
        match getHandleFederate s hid with
        | Some p => updateFed p (λ fed, setProperties fed (fcn <| dest_id := fs_global_id fed |>))
        | None => mret tt
        end
      else mret tt
  end.
Definition getHandleOption (hid : interface_handle) (option : Z) : M Z :=
  s ← eff_get;
  match getHandleInfo (cc_handles s) hid with
  | None => mret 0
  | Some hi =>
      if (option =? helics_handle_option_connection_required)
         || (option =? helics_handle_option_connection_optional)
      then mret (HandleManager.getHandleOption (cc_handles s) hid option)
      else if negb (bool_decide (handleType hi = ht_filter)) then
        match getFederateAt s (local_fed_id hi) with
        | Some p =>
            fed ← fedAt p;
            mret (fs_getHandleOption fed hid
                    (Ascii.ascii_of_N (Z.to_N (handle_type_code (handleType hi)))) option)
        | None => mret 0
        end
      else mret 0
  end.

Definition closeHandle (hid : interface_handle) : M unit :=
  hi ← handleOf "invalid handle" hid;
  if checkActionFlag hi disconnected_flag then mret tt
  else
    _ ← addActionMessage ((setSource (newMessage cmd_close_interface) (hi_handle hi))
                            <| messageID := handle_type_code (handleType hi) |>);
    eff_modify (λ s, s <| cc_handles :=
      alterHandle (λ hi, setActionFlag hi disconnected_flag) hid (cc_handles s) |>).

Definition removeTarget (hid : interface_handle) (targetToRemove : string) : M unit :=
  hi ← handleOf "invalid handle" hid;
  s ← eff_get;
  let p := getFederateAt s (local_fed_id hi) in
  fed ← match p with Some p => fed ← fedAt p; mret (Some fed) | None => mret None end;
  let cmd := (setSource defaultMessage (hi_handle hi)) <| payload := targetToRemove |> in
  let cmd := match fed with
             | Some fed => cmd <| actionTime := fs_time_granted fed |>
             | None => cmd
             end in
  match handleType hi with
  | ht_publication => addActionMessage (setAction cmd cmd_remove_named_input)
  | ht_filter => addActionMessage (setAction cmd cmd_remove_named_endpoint)
  | ht_input =>
      let cmd := setAction cmd cmd_remove_named_publication in
      _ ← match p with Some p => fedAction p cmd | None => eff_lift Fault end;
      addActionMessage cmd
  | ht_endpoint => addActionMessage (setAction cmd cmd_remove_named_filter)
  | ht_unknown => mret tt
  end.

(** The message of a filter that asks for an endpoint. *)
Definition namedEndpoint (hi : BasicHandleInfo) cmd : ActionMessage :=
  let cmd := setAction cmd cmd_add_named_endpoint in
  let cmd := if String.eqb (hi_key hi) ""
                && (negb (String.eqb (hi_type hi) "") || negb (String.eqb (hi_units hi) ""))
             then setStringData cmd [hi_type hi; hi_units hi] else cmd in
  if checkActionFlag hi clone_flag then setActionFlag cmd clone_flag else cmd.
Definition addDestinationTarget (hid : interface_handle) (dest : string) : M unit :=
  hi ← handleOf "invalid handle" hid;
  let cmd := (setActionFlag ((setSource defaultMessage (hi_handle hi))
                               <| flags := hi_flags hi |>) destination_target)
               <| payload := dest |> in
  match handleType hi with
  | ht_endpoint => addActionMessage (setAction cmd cmd_add_named_filter)
  | ht_filter => addActionMessage (namedEndpoint hi cmd)
  | ht_publication =>
      let cmd := setAction cmd cmd_add_named_input in
      addActionMessage (if String.eqb (hi_key hi) ""
                        then setStringData cmd [hi_type hi; hi_units hi] else cmd)
  | _ => throw "inputs cannot have destination targets"
  end.
Definition addSourceTarget (hid : interface_handle) (targetName : string) : M unit :=
  hi ← handleOf "invalid handle" hid;
  let cmd := (setSource defaultMessage (hi_handle hi)) <| flags := hi_flags hi |>
               <| payload := targetName |> in
  match handleType hi with
  | ht_endpoint => addActionMessage (setAction cmd cmd_add_named_filter)
  | ht_filter => addActionMessage (namedEndpoint hi cmd)
  | ht_input => addActionMessage (setAction cmd cmd_add_named_publication)
  | _ => throw "publications cannot have source targets"
  end.

(** ** Values *)

(** The message with a value, and its packages for several subscribers: a package that is
    full is queued and a new one begun. *)
Definition valueMessage (fed : FS) (hi : BasicHandleInfo) (hid : interface_handle)
    (data : string) : ActionMessage :=
  (newMessage cmd_pub) <| source_id := fed_id (hi_handle hi) |> <| source_handle := hid |>
    <| counter := to_uint 16 (fs_getCurrentIteration fed) |> <| payload := data |>
    <| actionTime := allowed_send_time fed |>.
Definition emptyPackage (hi : BasicHandleInfo) (hid : interface_handle) : ActionMessage :=
  (newMessage cmd_multi_message) <| source_id := fed_id (hi_handle hi) |>
    <| source_handle := hid |>.
Fixpoint packageValues (hi : BasicHandleInfo) (hid : interface_handle) (mv : ActionMessage)
    (subs : list global_handle) (package : ActionMessage) : M unit :=
  match subs with
  | [] => addActionMessage package
  | target :: subs =>
      let mv := setDestination mv target in
      '(res, package) ← eff_lift (appendMessage le package mv);
      if res <? 0 then
        _ ← addActionMessage package;
        '(_, package) ← eff_lift (appendMessage le (emptyPackage hi hid) mv);
        packageValues hi hid mv subs package
      else packageValues hi hid mv subs package
  end.
Definition setValue (hid : interface_handle) (data : string) : M unit :=
  hi ← handleOf "Handle not valid (setValue)" hid;
  if negb (bool_decide (handleType hi = ht_publication))
  then throw "handle does not point to a publication or control output"
  else if checkActionFlag hi disconnected_flag then mret tt
  else if negb (used hi) then mret tt
  else
    p ← ownerOf hi;
    fed ← fedAt p;
    '(fed, changed) ← eff_lift (checkAndSetValue fed hid data);
    _ ← updateFed p (λ _, fed);
    if negb changed then mret tt
    else
      let mv := valueMessage fed hi hid data in
      match getSubscribers fed hid with
      | [] => mret tt
      | [sub] => addActionMessage (setDestination mv sub)
      | subs => packageValues hi hid mv subs (emptyPackage hi hid)
      end.

(** An input that a federate reads. *)
Definition inputOf {A} (get : FS → interface_handle → outcome A) (hid : interface_handle)
    : M A :=
  hi ← handleOf "Handle is invalid (getValue)" hid;
  if negb (bool_decide (handleType hi = ht_input))
  then throw "Handle does not identify an input"
  else p ← ownerOf hi; fed ← fedAt p; eff_lift (get fed hid).
Definition getValue := inputOf fs_getValue.
Definition getAllValues := inputOf fs_getAllValues.
Definition getValueUpdates (federateID : local_federate_id) : M (list interface_handle) :=
  p ← federateAt "federateID not valid (getValueUpdates)" federateID;
  fed ← fedAt p; mret (fs_events fed).

(** ** Messages *)

(** The endpoint that a message is sent from. *)
Definition sender (hid : interface_handle) : M (BasicHandleInfo * FS) :=
  hi ← handleOf "handle is not valid" hid;
  if negb (bool_decide (handleType hi = ht_endpoint))
  then throw "handle does not point to an endpoint"
  else p ← ownerOf hi; fed ← fedAt p; mret (hi, fed).
(** [send] and [sendEvent]; [time] is given by the latter. *)
Definition sendAt (time : option Time) (sourceHandle : interface_handle)
    (destination data : string) : M unit :=
  '(hi, fed) ← sender sourceHandle;
  mid ← nextMessageID;
  let minTime := allowed_send_time fed in
  let m := (newMessage cmd_send_message) <| messageID := mid |>
             <| source_handle := sourceHandle |> <| source_id := fed_id (hi_handle hi) |>
             <| payload := data |>
             <| actionTime := match time with Some t => Z.max t minTime | None => minTime end |> in
  addActionMessage (setStringData m [destination; hi_key hi; hi_key hi]).
Definition send := sendAt None.
Definition sendEvent (time : Time) := sendAt (Some time).
Definition sendMessage (res : bool) (rounds : nat) (sourceHandle : interface_handle)
    (message : Message) : M unit :=
  if sourceHandle =? direct_send_handle then
    ok ← waitCoreRegistration res rounds;
    if negb ok then throw "core is unable to register and has timed out, message was not sent"
    else
      b ← get_base;
      addActionMessage ((messageCommand message) <| source_id := global_id b |>
                          <| source_handle := sourceHandle |>)
  else
    '(hi, fed) ← sender sourceHandle;
    m ← eff_lift (setString (messageCommand message) sourceStringLoc (hi_key hi));
    let m := m <| source_id := fed_id (hi_handle hi) |> <| source_handle := sourceHandle |> in
    m ← (if messageID m =? 0 then mid ← nextMessageID; mret (m <| messageID := mid |>)
         else mret m);
    let minTime := allowed_send_time fed in
    addActionMessage (if actionTime m <? minTime then m <| actionTime := minTime |> else m).

Definition receiveCount (destination : interface_handle) : M Z :=
  s ← eff_get;
  match getHandleFederate s destination with
  | None => mret 0
  | Some p => fed ← fedAt p; mret (fs_getQueueSize fed destination)
  end.
Definition receive (destination : interface_handle) : M (option Message) :=
  s ← eff_get;
  match getHandleFederate s destination with
  | None => throw "invalid handle"
  | Some p =>
      fed ← fedAt p;
      if negb (bool_decide (fs_state fed = HELICS_EXECUTING)) then mret None
      else
        let '(fed, msg) := fs_receive fed destination in
        _ ← updateFed p (λ _, fed); mret msg
  end.
(** The message and the value given to the reference argument, as in FederateState.v. *)
Definition receiveAny (federateID : local_federate_id)
    : M (option Message * option interface_handle) :=
  p ← federateAt "FederateID is not valid (receiveAny)" federateID;
  fed ← fedAt p;
  if negb (bool_decide (fs_state fed = HELICS_EXECUTING))
  then mret (None, Some invalid_handle)
  else
    let '(fed, msg, id) := fs_receiveAny fed in
    _ ← updateFed p (λ _, fed); mret (msg, id).
Definition receiveCountAny (federateID : local_federate_id) : M Z :=
  p ← federateAt "FederateID is not valid (receiveCountAny)" federateID;
  fed ← fedAt p;
  mret (if negb (bool_decide (fs_state fed = HELICS_EXECUTING)) then 0
        else fs_getTotalQueueSize fed).

(** ** Links, filters and the core itself *)

Definition api_dataLink (source target : string) : M unit :=
  addActionMessage (setStringData ((newMessage cmd_data_link) <| payload := source |>)
                      [target]).
Definition addSourceFilterToEndpoint (filter endpoint : string) : M unit :=
  addActionMessage (setStringData ((newMessage cmd_filter_link) <| payload := filter |>)
                      [endpoint]).
Definition addDestinationFilterToEndpoint (filter endpoint : string) : M unit :=
  addActionMessage
    (setActionFlag (setStringData ((newMessage cmd_filter_link) <| payload := filter |>)
                      [endpoint]) destination_target).
Definition api_addDependency (federateID : local_federate_id) (federateName : string)
    : M unit :=
  p ← federateAt "federateID not valid (registerDependency)" federateID;
  fed ← fedAt p;
  addActionMessage ((newMessage cmd_search_dependency) <| source_id := fs_global_id fed |>
                      <| payload := federateName |>).

Definition logMessage (federateID : local_federate_id) (logLevel : Z) (messageToLog : string)
    : M unit :=
  gid ← (if federateID =? local_core_id then b ← get_base; mret (global_id b)
         else
           p ← federateAt "FederateID is not valid (logMessage)" federateID;
           fed ← fedAt p; mret (fs_global_id fed));
  addActionMessage ((newMessageTo cmd_log gid gid) <| messageID := logLevel |>
                      <| payload := messageToLog |>).
Definition setLoggingLevel (logLevel : Z) : M unit :=
  b ← get_base;
  addActionMessage (setExtraData ((configureCore helics_property_int_log_level)
                                    <| dest_id := global_id b |>) logLevel).

(** [getNextAirlockIndex]: the atomic counter is brought back below 4. *)
Definition getNextAirlockIndex : M Z :=
  s ← eff_get;
  let next := to_uint 16 (nextAirLock s + 1) in
  let index := if 3 <? nextAirLock s then nextAirLock s mod 4 else nextAirLock s in
  _ ← eff_modify (λ s, s <| nextAirLock := if (index =? 3) && (3 <? next) then next mod 4
                                           else next |>);
  mret index.
(** [setFilterOperator]: a slot that is taken makes the call wait, the result is [false]. *)
Definition setFilterOperator (hid : interface_handle) (callback : option nat) : M bool :=
  hi ← handleOf "filter is not a valid handle" hid;
  if negb (bool_decide (handleType hi = ht_filter))
  then throw "filter identifier does not point a filter"
  else
    ii ← getNextAirlockIndex;
    s ← eff_get;
    match dataAirlocks s !! Z.to_nat ii with
    | None => eff_lift Fault
    | Some (Some _) => mret false
    | Some None =>
        _ ← eff_modify (λ s, s <| dataAirlocks :=
              <[Z.to_nat ii := Some (default op_null callback)]> (dataAirlocks s) |>);
        _ ← addActionMessage ((configureCore UPDATE_FILTER_OPERATOR) <| counter := ii |>
                                <| source_handle := hid |>);
        mret true
    end.

Definition setGlobal (valueName value : string) : M unit :=
  addActionMessage (setStringData
    ((newMessageTo cmd_set_global direct_core_id root_broker_id) <| payload := valueName |>)
    [value]).
Definition setIdentifier (name : string) : M unit :=
  b ← get_base;
  if bool_decide (brokerState b = bs_created) then upd_base (λ b, b <| identifier := name |>)
  else throw "setIdentifier can only be called before the core is initialized".
Definition getInterfaceInfo (hid : interface_handle) : M string :=
  s ← eff_get;
  mret (match getHandleInfo (cc_handles s) hid with
        | Some hi => interface_info hi
        | None => ""
        end).
Definition setInterfaceInfo (hid : interface_handle) (info : string) : M unit :=
  s ← eff_get;
  match getHandleInfo (cc_handles s) hid with
  | Some _ => eff_modify (λ s, s <| cc_handles :=
                alterHandle (λ hi, hi <| interface_info := info |>) hid (cc_handles s) |>)
  | None => eff_lift Fault
  end.
End api.
