(* ===== verification/CoreFrame.v ===== *)
(** * What the handlers of a core leave alone

    The handlers are walked through once, for any relation [R] between the states before
    and after.  Most handlers change nothing that [quiet] mentions; the ones that do are
    hypotheses of the last section: the request and the grant of initialization, the
    registration of federates, and the handlers of messages that are out at a filter and
    of the time messages that wait for them. *)

From S2P Require Import Prelude HelicsTime Ids Flags ActionMessage MessageCodec.
From S2P Require Import Definitions TimeDependencies TimeCoordinator InputInfo Interfaces.
From S2P Require Import InterfaceInfo HandleManager FederateState.
From S2P Require Import ForwardingTimeCoordinator Effects MappedVector BrokerBase BrokerFrame.
From S2P Require Import BrokerState CoreState CommonCore.

(** What identifies a federate, and that it has asked for initialization. *)
Definition federate_key {D Q} (fed : FederateState D Q) : string * Z * bool :=
  (fs_name fed, fs_global_id fed, init_transmitted fed).

Record quiet `{MappedVector C} {D Q W} (s s' : CommonCore C D Q W) : Prop := {
  q_state : brokerState (cc_base s') = brokerState (cc_base s);
  q_ongoing : ongoingFilterProcesses s' = ongoingFilterProcesses s;
  q_delayed : delayedTimingMessages s' = delayedTimingMessages s;
  q_federates : same_vec federate_key (federates s) (federates s');
  q_loopFederates : same_vec fed_ptr (loopFederates s) (loopFederates s');
}.

(** A relation that allows what most handlers do, and the end of the core. *)
Class CoreRelation `{MappedVector C} {D Q W} (R : relation (CommonCore C D Q W)) := {
  cr_preorder :: PreOrder R;
  cr_quiet : ∀ s s', quiet s s' → R s s';
  cr_end : ∀ s st, broker_state_lt st bs_terminating = false →
    R s (s <| cc_base := (cc_base s) <| brokerState := st |> |>);
}.

(** Any output. *)
Definition anything (out : broker_out) : Prop := True.

Section primitives.
  Context `{TimeRep} `{SteadyClock} `{TimeMs} `{MappedVectorLaws C} `{DualMapped D}.
  Context `{BlockingQueue Q} `{FilterOperators W} `{LocalAddress}.
  Context (R : relation (CommonCore C D Q W)) `{!CoreRelation R}.
  Abbreviation CC := (CommonCore C D Q W).
  Abbreviation M := (effM CC broker_out).
  Abbreviation fr := (framed R anything).
  Implicit Types (s : CC) (cmd command m : ActionMessage).

Lemma cf_quiet (f : CC → CC) : (∀ s, quiet s (f s)) → fr (eff_modify f).
Proof. intros Hf. apply framed_modify. intros s. apply cr_quiet, Hf. Qed.
Lemma cf_emit out : fr (eff_emit out : M unit).
Proof. by apply framed_emit; [apply _|]. Qed.
Lemma cf_unbounded {A} : fr (eff_unbounded : M A).
Proof. intros s. apply ewp_unbounded. Qed.
Lemma cf_transmit rid m : fr (transmit rid m).
Proof. apply cf_emit. Qed.
Lemma cf_queue m : fr (addActionMessage m).
Proof. apply cf_emit. Qed.
Lemma cf_addRoute rid i text : fr (addRoute rid i text).
Proof. apply cf_emit. Qed.
Lemma cf_get_base : fr get_base.
Proof. apply framed_bind; [apply _|apply framed_get, _|]. intros s. apply framed_ret, _. Qed.
Lemma cf_localId : fr localId.
Proof. apply framed_bind; [apply _|apply cf_get_base|]. intros b. apply framed_ret, _. Qed.
Lemma cf_upd_base f : (∀ b, brokerState (f b) = brokerState b) → fr (upd_base f).
Proof. intros Hf. apply cf_quiet. intros s. split; try done. apply Hf. Qed.
Lemma cf_setBrokerState st :
  broker_state_lt st bs_terminating = false → fr (setBrokerState st).
Proof. intros Hst. apply framed_modify. intros s. by apply cr_end. Qed.
Lemma cf_readClock : fr readClock.
Proof.
  apply framed_bind; [apply _|apply cf_get_base|]. intros b.
  apply framed_bind; [apply _|by apply cf_upd_base|]. intros _. apply framed_ret, _.
Qed.
Lemma cf_coord {A} (f : ForwardingTimeCoordinator →
    outcome (ForwardingTimeCoordinator * list ActionMessage * A)) : fr (coord f).
Proof.
  apply framed_bind; [apply _|apply cf_get_base|]. intros b.
  apply framed_bind; [apply _|apply framed_lift, _|]. intros [[tc msgs] a].
  apply framed_bind; [apply _|by apply cf_upd_base|]. intros _.
  apply framed_bind; [apply _| |intros _; apply framed_ret, _].
  apply framed_each; [apply _|]. intros m _. apply cf_queue.
Qed.

Lemma cf_updateFed p f :
  (∀ fed, federate_key (f fed) = federate_key fed) → fr (updateFed p f).
Proof. intros Hf. apply cf_quiet. intros s. split; try done. by apply same_vec_alter. Qed.
Lemma cf_fedAction p m : fr (fedAction p m).
Proof. apply cf_updateFed. intros fed. unfold addAction. by case_match. Qed.
Lemma cf_fedAt p : fr (fedAt p).
Proof.
  apply framed_bind; [apply _|apply framed_get, _|]. intros s.
  destruct (_ !! p); [apply framed_ret, _|apply framed_lift, _].
Qed.
Lemma cf_pointer info : fr (pointer info).
Proof. unfold pointer. case_match; [apply framed_ret, _|apply framed_lift, _]. Qed.
Lemma cf_applyFeds f : (∀ p fed, fr (f p fed)) → fr (applyFeds f).
Proof.
  intros Hf. apply framed_bind; [apply _|apply framed_get, _|]. intros s.
  apply framed_each; [apply _|]. intros info _.
  apply framed_bind; [apply _|apply cf_pointer|]. intros p.
  apply framed_bind; [apply _|apply cf_fedAt|]. intros fed. apply Hf.
Qed.
Lemma cf_updateLoopFed f ii :
  (∀ info, fed_ptr (f info) = fed_ptr info) → fr (updateLoopFed f ii).
Proof. intros Hf. apply cf_quiet. intros s. split; try done. by apply same_vec_alter. Qed.
Lemma cf_filterAt p : fr (filterAt p).
Proof.
  apply framed_bind; [apply _|apply framed_get, _|]. intros s.
  destruct (_ !! p); [apply framed_ret, _|apply framed_lift, _].
Qed.
Lemma cf_runOperator {A} (run : nat → Message → W → W * A) op message :
  fr (runOperator run op message).
Proof.
  unfold runOperator. destruct op as [op|]; [|apply framed_lift, _].
  apply framed_bind; [apply _|apply framed_get, _|]. intros s. destruct (run _ _ _) as [w a].
  apply framed_bind; [apply _| |intros _; apply framed_ret, _]. by apply cf_quiet.
Qed.
Lemma cf_nextMessageID : fr nextMessageID.
Proof.
  apply framed_bind; [apply _|apply framed_get, _|]. intros s.
  apply framed_bind; [apply _| |intros _; apply framed_ret, _]. by apply cf_quiet.
Qed.
End primitives.

Create HintDb core_frame discriminated.
#[export] Hint Resolve cf_emit cf_unbounded cf_transmit cf_queue cf_addRoute cf_get_base
  cf_localId cf_readClock cf_coord cf_fedAction cf_fedAt cf_pointer cf_filterAt
  cf_runOperator cf_nextMessageID : core_frame.
#[export] Hint Extern 0 (CoreRelation _) => apply _ : core_frame.
#[export] Hint Extern 1 (framed _ anything (upd_base _)) => apply cf_upd_base; done : core_frame.
#[export] Hint Extern 1 (framed _ anything (setBrokerState _)) =>
  apply cf_setBrokerState; done : core_frame.
#[export] Hint Extern 1 (framed _ anything (updateFed _ _)) => apply cf_updateFed; done : core_frame.
#[export] Hint Extern 1 (framed _ anything (updateLoopFed _ _)) =>
  apply cf_updateLoopFed; done : core_frame.
#[export] Hint Extern 2 (framed _ anything (eff_modify _)) => by apply cf_quiet : core_frame.

(** The walk, with [applyFeds] and the messages of the coordinator. *)
Ltac core_step :=
  lazymatch goal with
  | |- framed _ _ (applyFeds _) => apply cf_applyFeds; [apply _|intros ? ?]
  | |- framed _ _ (coord_ _) => apply cf_coord
  | |- framed _ _ (coord_quiet _) => apply cf_coord
  | |- framed _ _ (coord_pure _) => apply cf_coord
  | |- framed _ _ (coord_disconnect _) => apply cf_coord
  | |- framed _ _ (mret _) => apply framed_ret, _
  | |- framed _ _ (mbind _ _) => apply framed_bind; [apply _| |intros ?]
  | |- framed _ _ eff_get => apply framed_get, _
  | |- framed _ _ (eff_lift _) => apply framed_lift, _
  | |- framed _ _ (eff_when _ _) => apply framed_when; [apply _|intros ?]
  | |- framed _ _ (eff_each _ _) => apply framed_each; [apply _|intros ? ?]
  | |- framed _ _ (if ?b then _ else _) => destruct b eqn:?
  | |- framed _ _ (match ?x with _ => _ end) => destruct x eqn:?
  | |- framed _ _ (let _ := _ in _) => cbv zeta
  | |- _ => solve [eauto with core_frame]
  end.
Ltac core_frame := repeat core_step.

(** ** The handlers *)

Section handlers.
  Context `{TimeRep} `{SteadyClock} `{TimeMs} `{MappedVectorLaws C} `{DualMapped D}.
  Context `{BlockingQueue Q} `{FilterOperators W} `{LocalAddress}.
  Context `{CoreQueries (FederateState D Q)} (le : bool).
  Context (R : relation (CommonCore C D Q W)) `{!CoreRelation R}.
  Abbreviation CC := (CommonCore C D Q W).
  Abbreviation M := (effM CC broker_out).
  Abbreviation fr := (framed R anything).
  Implicit Types (s : CC) (cmd command m : ActionMessage).

(** Disconnection and routing *)
Lemma cf_checkExecEntry : fr checkExecEntry.
Proof. unfold checkExecEntry. core_frame. Qed.
Lemma cf_processTimeMessage m : fr (processTimeMessage m).
Proof. unfold processTimeMessage. core_frame. Qed.
Lemma cf_setErrorState code text : fr (setErrorState code text).
Proof. unfold setErrorState. core_frame. by apply cf_setBrokerState. Qed.
Lemma cf_sendErrorToFederates code text : fr (sendErrorToFederates code text).
Proof. unfold sendErrorToFederates. core_frame. Qed.
Lemma cf_transmitDisconnect : fr transmitDisconnect.
Proof. unfold transmitDisconnect. core_frame. Qed.
Hint Resolve cf_checkExecEntry cf_processTimeMessage cf_setErrorState cf_sendErrorToFederates
  cf_transmitDisconnect : core_frame.
Lemma cf_checkAndProcessDisconnect : fr (checkAndProcessDisconnect le).
Proof. unfold checkAndProcessDisconnect. core_frame. Qed.
Hint Resolve cf_checkAndProcessDisconnect : core_frame.
Lemma cf_checkDisconnect : fr (checkDisconnect le).
Proof. unfold checkDisconnect. core_frame. Qed.
Lemma cf_sendDisconnect : fr (sendDisconnect le).
Proof. unfold sendDisconnect. core_frame. Qed.
Lemma cf_dismissFederates over : fr (dismissFederates over).
Proof. unfold dismissFederates. core_frame. Qed.
Hint Resolve cf_checkDisconnect cf_sendDisconnect cf_dismissFederates : core_frame.
Lemma cf_processDisconnect skip : fr (processDisconnect le skip).
Proof. unfold processDisconnect. core_frame. Qed.
Lemma cf_processCommandsForCore m : fr (processCommandsForCore le m).
Proof. unfold processCommandsForCore. core_frame. Qed.
Hint Resolve cf_processDisconnect cf_processCommandsForCore : core_frame.
Lemma cf_routeUnless over m : fr (routeUnless le over m).
Proof. unfold routeUnless. core_frame. Qed.
Hint Resolve cf_routeUnless : core_frame.
Lemma cf_routeMessage m : fr (routeMessage le m).
Proof. apply cf_routeUnless. Qed.
Lemma cf_routeMessageMove m : fr (routeMessageMove le m).
Proof. apply cf_routeUnless. Qed.
Lemma cf_routeMessageTo m dest : fr (routeMessageTo le m dest).
Proof. unfold routeMessageTo. core_frame. Qed.
Lemma cf_transmitRouted m : fr (transmitRouted m).
Proof. unfold transmitRouted. core_frame. Qed.
Hint Resolve cf_routeMessage cf_routeMessageMove cf_routeMessageTo cf_transmitRouted : core_frame.
Lemma cf_transmitDelayedMessages : fr (transmitDelayedMessages le).
Proof. unfold transmitDelayedMessages. core_frame. Qed.
Lemma cf_errorRespondDelayedMessages text : fr (errorRespondDelayedMessages text).
Proof. unfold errorRespondDelayedMessages. core_frame. Qed.
Lemma cf_delayTransmit m : fr (delayTransmit m).
Proof. unfold delayTransmit. core_frame. Qed.
Hint Resolve cf_transmitDelayedMessages cf_errorRespondDelayedMessages cf_delayTransmit : core_frame.

(** Filters *)
Lemma cf_getFilterCoordinator hid : fr (getFilterCoordinator hid).
Proof. unfold getFilterCoordinator. core_frame. Qed.
Lemma cf_updateCoordinator hid f : fr (updateCoordinator hid f).
Proof. unfold updateCoordinator. core_frame. Qed.
Lemma cf_updateFilter f p : fr (updateFilter f p).
Proof. unfold updateFilter. core_frame. Qed.
Lemma cf_updateLoopHandle f i : fr (updateLoopHandle f i).
Proof. unfold updateLoopHandle. core_frame. Qed.
Lemma cf_setOngoingDest fid f : fr (setOngoingDest fid f).
Proof. unfold setOngoingDest. core_frame. Qed.
Lemma cf_createFilter dest hid key tin tout c : fr (createFilter dest hid key tin tout c).
Proof. unfold createFilter. core_frame. Qed.
Hint Resolve cf_getFilterCoordinator cf_updateCoordinator cf_updateFilter cf_updateLoopHandle
  cf_setOngoingDest cf_createFilter : core_frame.
Lemma cf_coordinatorOf hid : fr (coordinatorOf hid).
Proof. unfold coordinatorOf. core_frame. Qed.
Hint Resolve cf_coordinatorOf : core_frame.
Lemma cf_cloneAtDestination rec localP m p :
  (∀ m, fr (rec m)) → fr (cloneAtDestination le rec localP m p).
Proof. intros Hrec. unfold cloneAtDestination. core_frame. Qed.
Lemma cf_applyDestFilter localP ffunc m : fr (applyDestFilter le localP ffunc m).
Proof. unfold applyDestFilter. core_frame. Qed.
Lemma cf_deliverLocal localP m : fr (deliverLocal localP m).
Proof. unfold deliverLocal. core_frame. Qed.
Hint Resolve cf_applyDestFilter cf_deliverLocal : core_frame.
Lemma cf_deliverMessage fuel m : fr (deliverMessage le fuel m).
Proof.
  revert m. induction fuel as [|fuel IH]; intros m; cbn [deliverMessage]; core_frame.
  by apply cf_cloneAtDestination.
Qed.
Hint Resolve cf_deliverMessage : core_frame.
Lemma cf_runFilter filt m : fr (runFilter filt m).
Proof. unfold runFilter. core_frame. Qed.
Lemma cf_runCloning fuel filt m : fr (runCloning le fuel filt m).
Proof. unfold runCloning. core_frame. Qed.
Lemma cf_cloneReturned m p : fr (cloneReturned le m p).
Proof. unfold cloneReturned. core_frame. Qed.
Lemma cf_unblock mid dest : fr (unblock le mid dest).
Proof. unfold unblock. core_frame. Qed.
Hint Resolve cf_runFilter cf_runCloning cf_cloneReturned cf_unblock : core_frame.
Lemma cf_processDestFilterReturn m : fr (processDestFilterReturn le m).
Proof. unfold processDestFilterReturn. core_frame. Qed.
Lemma cf_answerTo source filt b m : fr (answerTo source filt b m).
Proof. unfold answerTo. core_frame. Qed.
Hint Resolve cf_answerTo : core_frame.
Lemma cf_processMessageFilter fuel m : fr (processMessageFilter le fuel m).
Proof. unfold processMessageFilter, applyFilter. core_frame. Qed.
Hint Resolve cf_processDestFilterReturn cf_processMessageFilter : core_frame.

(** Interfaces *)
Lemma cf_setAsUsed i : fr (setAsUsed i).
Proof. unfold setAsUsed. core_frame. Qed.
Lemma cf_filterOfMessage m : fr (filterOfMessage m).
Proof. unfold filterOfMessage. core_frame. Qed.
Lemma cf_filterPresent m ps : fr (filterPresent m ps).
Proof. induction ps as [|p ps IH]; cbn [filterPresent]; core_frame. Qed.
Hint Resolve cf_setAsUsed cf_filterOfMessage cf_filterPresent : core_frame.
Lemma cf_addDestFilter fc m : fr (addDestFilter le fc m).
Proof. unfold addDestFilter. core_frame. Qed.
Lemma cf_addSourceFilter m : fr (addSourceFilter m).
Proof. unfold addSourceFilter. core_frame. Qed.
Hint Resolve cf_addDestFilter cf_addSourceFilter : core_frame.
Lemma cf_processFilterInfo m : fr (processFilterInfo le m).
Proof. unfold processFilterInfo. core_frame. Qed.
Lemma cf_useFilterHandle hid : fr (useFilterHandle hid).
Proof. unfold useFilterHandle. core_frame. Qed.
Hint Resolve cf_processFilterInfo cf_useFilterHandle : core_frame.
Lemma cf_addFilterTarget toDest depend m : fr (addFilterTarget toDest depend m).
Proof. unfold addFilterTarget. core_frame. Qed.
Hint Resolve cf_addFilterTarget : core_frame.
Lemma cf_addTargetToInterface m : fr (addTargetToInterface le m).
Proof. unfold addTargetToInterface. core_frame. Qed.
Hint Resolve cf_addTargetToInterface : core_frame.
Lemma cf_checkForNamedInterface m : fr (checkForNamedInterface le m).
Proof.
  unfold checkForNamedInterface, connectPublication, connectInput, connectFilter,
    connectEndpoint. core_frame.
Qed.
Lemma cf_removeTargetFromInterface m : fr (removeTargetFromInterface m).
Proof. unfold removeTargetFromInterface. core_frame. Qed.
Hint Resolve cf_checkForNamedInterface cf_removeTargetFromInterface : core_frame.
Lemma cf_removeNamedTarget m : fr (removeNamedTarget le m).
Proof. unfold removeNamedTarget. core_frame. Qed.
Lemma cf_coordinateEndpoint m : fr (coordinateEndpoint m).
Proof. unfold coordinateEndpoint. core_frame. Qed.
Lemma cf_enterFilter m : fr (enterFilter m).
Proof. unfold enterFilter. core_frame. Qed.
Hint Resolve cf_removeNamedTarget cf_coordinateEndpoint cf_enterFilter : core_frame.
Lemma cf_registerInterface m : fr (registerInterface le m).
Proof.
  unfold registerInterface. core_frame.
  apply cf_quiet; [apply _|]. intros s. unfold copyHandle. by case_match.
Qed.
Lemma cf_closeFilterTargets hi p : fr (closeFilterTargets le hi p).
Proof. unfold closeFilterTargets. core_frame. Qed.
Hint Resolve cf_registerInterface cf_closeFilterTargets : core_frame.
Lemma cf_disconnectInterface m : fr (disconnectInterface le m).
Proof. unfold disconnectInterface. core_frame. Qed.
Hint Resolve cf_disconnectInterface : core_frame.

(** Initialization *)
Lemma cf_checkFederates infos flags : fr (checkFederates infos flags).
Proof.
  revert flags. induction infos as [|info infos IH]; intros flags; cbn [checkFederates];
    unfold checkFederate; core_frame.
Qed.
Hint Resolve cf_checkFederates : core_frame.
Lemma cf_leaveCoordination isobs issource fedid brkid :
  fr (leaveCoordination le isobs issource fedid brkid).
Proof. unfold leaveCoordination. core_frame. Qed.
Hint Resolve cf_leaveCoordination : core_frame.
Lemma cf_checkDependencies : fr (checkDependencies le).
Proof. unfold checkDependencies. core_frame. Qed.
Lemma cf_allTransmitted infos : fr (allTransmitted infos).
Proof. induction infos as [|info infos IH]; cbn [allTransmitted]; core_frame. Qed.
Hint Resolve cf_checkDependencies cf_allTransmitted : core_frame.
Lemma cf_allInitReady : fr allInitReady.
Proof. unfold allInitReady. core_frame. Qed.
Lemma cf_filtersAt ps : fr (filtersAt ps).
Proof. induction ps as [|p ps IH]; cbn [filtersAt]; core_frame. Qed.
Hint Resolve cf_allInitReady cf_filtersAt : core_frame.
Lemma cf_organizeFilterOperations : fr organizeFilterOperations.
Proof. unfold organizeFilterOperations, organizeOne. core_frame. Qed.
Lemma cf_tryUnload i : fr (tryUnload i).
Proof. unfold tryUnload. core_frame. Qed.
Hint Resolve cf_organizeFilterOperations cf_tryUnload : core_frame.

(** Timeouts, queries, errors *)
Lemma cf_processResend m : fr (processResend m).
Proof. unfold processResend. core_frame. Qed.
Lemma cf_upd_monitor f : fr (upd_monitor f).
Proof. unfold upd_monitor. core_frame. Qed.
Hint Resolve cf_processResend cf_upd_monitor : core_frame.
Lemma cf_tick : fr (tick le).
Proof. unfold tick, tickWaiting. core_frame. Qed.
Lemma cf_pingReply m : fr (pingReply m).
Proof. unfold pingReply. core_frame. Qed.
Lemma cf_pingAnswer m : fr (pingAnswer le m).
Proof. unfold pingAnswer. core_frame. Qed.
Lemma cf_forwardUp m : fr (forwardUp m).
Proof. unfold forwardUp. core_frame. Qed.
Hint Resolve cf_tick cf_pingReply cf_pingAnswer cf_forwardUp : core_frame.
Lemma cf_processQuery m : fr (processQuery m).
Proof. unfold processQuery. core_frame. Qed.
Lemma cf_processQueryResponse m : fr (processQueryResponse m).
Proof. unfold processQueryResponse. core_frame. Qed.
Lemma cf_checkConnections : fr (checkConnections le).
Proof.
  unfold checkConnections. core_frame.
  induction (mv_elements (loopFederates a0)) as [|info infos IH]; cbn [federatesOver]; core_frame.
Qed.
Lemma cf_userDisconnect : fr (userDisconnect le).
Proof. unfold userDisconnect. core_frame. Qed.
Lemma cf_processStop : fr (processStop le).
Proof. unfold processStop. core_frame. Qed.
Lemma cf_toDependents m : fr (toDependents le m).
Proof. unfold toDependents. core_frame. Qed.
Hint Resolve cf_toDependents : core_frame.
Lemma cf_processExec m : fr (processExec le m).
Proof. unfold processExec. core_frame. Qed.
Lemma cf_processTime m : fr (processTime le m).
Proof. unfold processTime. core_frame. Qed.
Lemma cf_disconnectFederate m : fr (disconnectFederate le m).
Proof. unfold disconnectFederate. core_frame. Qed.
Lemma cf_searchDependency m : fr (searchDependency le m).
Proof. unfold searchDependency. core_frame. Qed.
Lemma cf_escalateError m : fr (escalateError m).
Proof. unfold escalateError. core_frame. Qed.
Hint Resolve cf_escalateError : core_frame.
Lemma cf_processError m : fr (processError le m).
Proof. unfold processError. core_frame. Qed.
Lemma cf_processGlobalError m : fr (processGlobalError m).
Proof. unfold processGlobalError. core_frame. Qed.
Lemma cf_dataLink m : fr (dataLink le m).
Proof. unfold dataLink. core_frame. Qed.
Lemma cf_filterLink m : fr (filterLink le m).
Proof. unfold filterLink. core_frame. Qed.
End handlers.

#[export] Hint Resolve cf_checkExecEntry cf_processTimeMessage cf_setErrorState
  cf_checkDisconnect cf_dismissFederates cf_routeMessage cf_routeMessageMove cf_transmitRouted
  cf_transmitDelayedMessages cf_errorRespondDelayedMessages cf_deliverMessage cf_runFilter
  cf_runCloning cf_coordinatorOf cf_processDestFilterReturn cf_processMessageFilter
  cf_updateFilter cf_addTargetToInterface cf_checkForNamedInterface
  cf_removeTargetFromInterface cf_removeNamedTarget cf_registerInterface
  cf_disconnectInterface cf_checkDependencies cf_allInitReady cf_organizeFilterOperations
  cf_tryUnload cf_processResend cf_upd_monitor cf_tick cf_pingReply cf_pingAnswer
  cf_forwardUp cf_processQuery cf_processQueryResponse cf_userDisconnect cf_processStop cf_checkConnections
  cf_processExec cf_processTime cf_disconnectFederate cf_searchDependency cf_processError
  cf_processGlobalError cf_dataLink cf_filterLink cf_processDisconnect : core_frame.

(** The handlers that change what [quiet] mentions. *)
Class SpecialHandlers `{TimeRep} `{MappedVectorLaws C} `{DualMapped D} `{BlockingQueue Q}
    `{FilterOperators W} (le : bool) (fuel : nat) (R : relation (CommonCore C D Q W)) := {
  sh_requestInit : ∀ m, framed R anything (requestInit le m);
  sh_processInit : ∀ m, framed R anything (processInit le m);
  sh_processInitGrant : ∀ m, framed R anything (processInitGrant le m);
  sh_federateAck : ∀ m, framed R anything (federateAck m);
  sh_enterFederate : ∀ m, framed R anything (enterFederate m);
  sh_processMessage : ∀ m, framed R anything (processMessage le fuel m);
  sh_processFilterReturn : ∀ m, framed R anything (processFilterReturn le fuel m);
  sh_delayTiming : ∀ m next,
    framed R anything next → framed R anything (delayTiming m next);
}.

Section commands.
  Context `{TimeRep} `{SteadyClock} `{TimeMs} `{MappedVectorLaws C} `{DualMapped D}.
  Context `{BlockingQueue Q} `{FilterOperators W} `{LocalAddress}.
  Context `{CoreQueries (FederateState D Q)} (le : bool) (fuel : nat).
  Context (R : relation (CommonCore C D Q W)) `{!CoreRelation R}.
  Context `{!SpecialHandlers le fuel R}.
  Abbreviation fr := (framed R anything).
  Implicit Types (cmd command m : ActionMessage).

Hint Extern 1 (framed _ _ (requestInit _ _)) => apply sh_requestInit : core_frame.
Hint Extern 1 (framed _ _ (processInit _ _)) => apply sh_processInit : core_frame.
Hint Extern 1 (framed _ _ (processInitGrant _ _)) => apply sh_processInitGrant : core_frame.
Hint Extern 1 (framed _ _ (federateAck _)) => apply sh_federateAck : core_frame.
Hint Extern 1 (framed _ _ (enterFederate _)) => apply sh_enterFederate : core_frame.
Hint Extern 1 (framed _ _ (processMessage _ _ _)) => apply sh_processMessage : core_frame.
Hint Extern 1 (framed _ _ (processFilterReturn _ _ _)) =>
  apply sh_processFilterReturn : core_frame.
Hint Extern 1 (framed _ _ (delayTiming _ _)) => apply sh_delayTiming : core_frame.

Lemma cf_brokerAck m : fr (brokerAck le m).
Proof. unfold brokerAck. core_frame. Qed.
Lemma cf_processCoreConfigureCommands m : fr (processCoreConfigureCommands le m).
Proof. unfold processCoreConfigureCommands, setLogLevel, setLogLevels. core_frame. Qed.
Hint Resolve cf_brokerAck cf_processCoreConfigureCommands : core_frame.
Lemma cf_processPriorityWith rest m : fr rest → fr (processPriorityWith le rest m).
Proof. intros Hrest. unfold processPriorityWith. core_frame. Qed.
Hint Resolve cf_processPriorityWith : core_frame.

(** Every message that the core processes stays within the relation. *)
Lemma cf_processCommand m : fr (processCommand le fuel m).
Proof.
  unfold processCommand. core_frame.
  all: try (apply cf_processPriorityWith; core_frame).
Qed.
Lemma cf_processPriorityCommand m : fr (processPriorityCommand le fuel m).
Proof.
  apply cf_processPriorityWith. core_frame. apply cf_processCommand.
Qed.
End commands.
