(* ===== verification/CoreTiming.v ===== *)
(** * The time messages that wait for filters (CommonCore.cpp)

    While a message of a federate is out at a filter of another core, the core keeps back
    the time messages of the federate, so that time does not pass the message.  They are
    let go when the last message has come back. *)

From S2P Require Import Prelude HelicsTime Ids Flags ActionMessage MessageCodec.
From S2P Require Import Definitions TimeDependencies TimeCoordinator InputInfo Interfaces.
From S2P Require Import InterfaceInfo HandleManager FederateState.
From S2P Require Import ForwardingTimeCoordinator Effects MappedVector BrokerBase BrokerFrame.
From S2P Require Import BrokerState CoreState CommonCore CoreFrame.

Section timing.
  Context `{TimeRep} `{SteadyClock} `{TimeMs} `{MappedVectorLaws C} `{DualMapped D}.
  Context `{BlockingQueue Q} `{FilterOperators W} `{LocalAddress}.
  Context `{CoreQueries (FederateState D Q)} (le : bool) (fuel : nat).
  Abbreviation CC := (CommonCore C D Q W).
  Abbreviation M := (effM CC broker_out).
  Implicit Types (s : CC) (cmd command m : ActionMessage) (fid : global_federate_id).

(** Messages wait only while another one is out, except maybe those of [fid]. *)
Definition waits s fid : Prop := delayedTiming s fid ≠ [] → ongoing s fid ≠ ∅.
Definition delayed_ok s : Prop := ∀ fid, waits s fid.
Definition ok_but fid s : Prop := ∀ fid', fid' ≠ fid → waits s fid'.

Record same_timing s s' : Prop := {
  st_ongoing : ongoingFilterProcesses s' = ongoingFilterProcesses s;
  st_delayed : delayedTimingMessages s' = delayedTimingMessages s;
}.
Definition keeps_delayed s s' : Prop := delayed_ok s → delayed_ok s'.

#[local] Instance same_timing_relation : CoreRelation same_timing.
Proof.
  split; [split; [by split|]| |by split].
  - intros s1 s2 s3 [E1 E2] [E3 E4]. split; congruence.
  - intros s s' []. by split.
Qed.
Lemma same_timing_waits s s' fid : same_timing s s' → waits s fid → waits s' fid.
Proof. intros [E1 E2]. unfold waits, ongoing, delayedTiming. by rewrite E1, E2. Qed.
#[local] Instance keeps_delayed_relation : CoreRelation keeps_delayed.
Proof.
  split.
  - split; [by intros s Hs|]. intros s1 s2 s3 H12 H23 Hs. auto.
  - intros s s' [_ E1 E2 _ _] Hs fid. by apply (same_timing_waits s).
  - intros s st _ Hs fid. by apply (same_timing_waits s).
Qed.

(** An update of something else. *)
Lemma kd_modify (f : CC → CC) : (∀ s, same_timing s (f s)) →
  framed keeps_delayed anything (eff_modify f : M unit).
Proof.
  intros Hf. apply framed_modify. intros s Hs fid. by apply (same_timing_waits s); [apply Hf|].
Qed.
Hint Extern 3 (framed keeps_delayed anything (eff_modify _)) => by apply kd_modify : core_frame.
Hint Extern 3 (framed keeps_delayed anything (updateFed _ _)) => by apply kd_modify : core_frame.
Hint Extern 3 (framed keeps_delayed anything (setBrokerState _)) =>
  by apply kd_modify : core_frame.

(** Messages that go out. *)
Lemma waits_add s fid fid' mid :
  waits s fid' →
  waits (s <| ongoingFilterProcesses :=
           <[fid := {[mid]} ∪ ongoing s fid]> (ongoingFilterProcesses s) |>) fid'.
Proof.
  intros Hs Hd. unfold ongoing. cbn. destruct (decide (fid' = fid)) as [->|Hne].
  - rewrite lookup_insert_eq. cbn. set_solver.
  - rewrite lookup_insert_ne by done. by apply Hs.
Qed.
Lemma kd_sourceFilterLoop fid n filts ii m :
  framed keeps_delayed anything (sourceFilterLoop le fuel fid n filts ii m).
Proof.
  revert ii m. induction filts as [|p filts IH]; intros ii m; cbn [sourceFilterLoop];
    core_frame.
  apply framed_modify. intros s Hs fid'. by apply waits_add.
Qed.
Lemma kd_processMessage m : framed keeps_delayed anything (processMessage le fuel m).
Proof. unfold processMessage. core_frame. apply kd_sourceFilterLoop. Qed.

(** A message that has come back: after the removal from [ongoing] the messages of the
    federate may have to be let go. *)
Definition releases fid {A} (op : M A) : Prop :=
  ∀ s, ok_but fid s → ewp op s (λ s' _ _, delayed_ok s').

Lemma releases_bind fid {A B} (op : M A) (f : A → M B) :
  framed same_timing anything op → (∀ a, releases fid (f a)) → releases fid (op ≫= f).
Proof.
  intros Hop Hf s Hs. apply ewp_bind. eapply ewp_mono; [apply Hop|]. intros s1 out a [Ht _].
  apply Hf. intros fid' Hne. by apply (same_timing_waits s), Hs.
Qed.
Lemma releases_ret fid {A B} (op : M A) (b : B) :
  releases fid op → releases fid (_ ← op; mret b).
Proof.
  intros Hop s Hs. apply ewp_bind. eapply ewp_mono; [by apply Hop|]. intros s1 out a Hok.
  by apply ewp_ret.
Qed.
Lemma releases_releaseIfDone fid : releases fid (releaseIfDone le fid).
Proof.
  intros s Hs. apply ewp_bind, ewp_get, ewp_when.
  - intros Hdone. apply ewp_bind, ewp_get, ewp_bind, ewp_modify.
    apply ewp_bind. eapply ewp_mono; [apply (framed_each same_timing anything)|].
    { intros m _. eauto with core_frame. }
    intros s1 out1 _ [[O1 D1] _]. apply ewp_bind.
    eapply ewp_mono; [apply (framed_each same_timing anything)|].
    { intros m _. eauto with core_frame. }
    intros s2 out2 _ [[O2 D2] _]. apply ewp_modify. intros fid'.
    unfold waits, ongoing, delayedTiming. cbn.
    destruct (decide (fid' = fid)) as [->|Hne]; [by rewrite lookup_insert_eq|].
    rewrite lookup_insert_ne, O2, D2, O1, D1 by done. by apply Hs.
  - intros Hout fid'. destruct (decide (fid' = fid)) as [->|Hne]; [|by apply Hs].
    intros _. by apply bool_decide_eq_false in Hout.
Qed.
Lemma endProcess_then fid mid {A} (op : M A) :
  releases fid op → releases fid (_ ← endProcess fid mid; op).
Proof.
  intros Hop s Hs. apply ewp_bind, ewp_modify. eapply ewp_mono; [apply Hop|by intros].
  intros fid' Hne Hd. unfold ongoing. cbn. rewrite lookup_insert_ne by done. by apply Hs.
Qed.
Lemma releases_kept fid {A} (op : M A) : releases fid op → framed keeps_delayed anything op.
Proof.
  intros Hop s s' out a E. split; [|by apply Forall_true]. intros Hs.
  eapply Hop; [|exact E]. by intros fid' _.
Qed.

Lemma kd_endRelease fid mid : framed keeps_delayed anything
  (_ ← endProcess fid mid; releaseIfDone le fid).
Proof. apply (releases_kept fid), endProcess_then, releases_releaseIfDone. Qed.
Lemma kd_returnLoop fid mid n filts ii m :
  framed keeps_delayed anything (returnLoop le fid mid n filts ii m).
Proof.
  revert ii m. induction filts as [|p filts IH]; intros ii m; cbn [returnLoop]; [core_frame|].
  core_step; [core_frame|]. core_step; [core_frame|].
  core_step; [apply IH|]. core_step.
  - core_step; [core_frame|]. core_step; [apply IH|].
    apply (releases_kept fid), endProcess_then, releases_ret, releases_releaseIfDone.
  - cbv zeta. destruct (ii <? n - 1).
    + core_step; [core_frame|]. core_step; [|core_frame].
      apply (releases_kept fid), releases_releaseIfDone.
    + intros s s' out o E. rewrite eff_bind_assoc in E. revert s s' out o E.
      apply (releases_kept fid), endProcess_then, releases_bind; [core_frame|]. intros _.
      apply releases_ret, releases_releaseIfDone.
Qed.
Lemma kd_processFilterReturn m : framed keeps_delayed anything (processFilterReturn le fuel m).
Proof.
  unfold processFilterReturn. core_step; [core_frame|]. core_step; [|core_frame].
  cbv zeta. core_step; [|core_frame].
  core_step; [core_step; apply kd_endRelease|]. core_step; [core_frame|].
  core_step; [core_step; [apply kd_returnLoop|core_frame]|]. core_step; [|core_frame].
  apply (releases_kept (fed_id (hi_handle b))), endProcess_then.
  apply releases_bind; [core_frame|]. intros _. apply releases_releaseIfDone.
Qed.
Lemma kd_delayTiming m next :
  framed keeps_delayed anything next → framed keeps_delayed anything (delayTiming m next).
Proof.
  intros Hnext s. apply ewp_bind, ewp_get. cbv zeta.
  destruct (isLocal _ _ && _) eqn:Hout; [|apply Hnext].
  apply andb_true_iff in Hout as [_ Hout%negb_true_iff%bool_decide_eq_false].
  apply ewp_modify. split; [|constructor]. intros Hs fid. unfold waits, delayedTiming. cbn.
  destruct (decide (fid = source_id m)) as [->|Hne]; [by intros _|].
  rewrite lookup_insert_ne by done. apply Hs.
Qed.

#[local] Instance keeps_delayed_special : SpecialHandlers le fuel keeps_delayed.
Proof.
  assert (∀ m, framed keeps_delayed anything (requestInit le m)) as Hreq.
  { intros m. unfold requestInit. core_frame. }
  split; [done|..|apply kd_processMessage|apply kd_processFilterReturn|apply kd_delayTiming].
  - intros m. unfold processInit. core_frame.
  - intros m. unfold processInitGrant. core_frame.
  - intros m. unfold federateAck. core_frame.
  - intros m. unfold enterFederate. core_frame.
Qed.

(** The states of a core: it processes messages, and the calls of the federates change
    its state but not the two tables. *)
Inductive core_reachable : CC → Prop :=
  | core_new name w : core_reachable (newCommonCore name w)
  | core_command s s' out m :
      core_reachable s → processCommand le fuel m s = Some (Ok (s', out, tt)) →
      core_reachable s'
  | core_priority s s' out m :
      core_reachable s → processPriorityCommand le fuel m s = Some (Ok (s', out, tt)) →
      core_reachable s'
  | core_stopped s s' out skip :
      core_reachable s → processDisconnect le skip s = Some (Ok (s', out, tt)) →
      core_reachable s'
  | core_call s s' : core_reachable s → same_timing s s' → core_reachable s'.

Lemma reachable_delayed s : core_reachable s → delayed_ok s.
Proof.
  induction 1 as [name w|s s' out m _ IH E|s s' out m _ IH E|s s' out skip _ IH E|s s' _ IH E].
  - intros fid Hd. exfalso. apply Hd. unfold delayedTiming. cbn. by rewrite lookup_empty.
  - by eapply (cf_processCommand le fuel keeps_delayed m s).
  - by eapply (cf_processPriorityCommand le fuel keeps_delayed m s).
  - by eapply (cf_processDisconnect le keeps_delayed skip s).
  - intros fid. by apply (same_timing_waits s).
Qed.

Lemma reachable_run s ms s' out :
  core_reachable s → eff_each (processCommand le fuel) ms s = Some (Ok (s', out, tt)) →
  core_reachable s'.
Proof.
  revert s out. induction ms as [|m ms IH]; intros s out Hs E; [by injection E as <- _|].
  cbn [eff_each] in E. unfold mbind, effM_bind in E.
  destruct (processCommand le fuel m s) as [[[[s1 out1] []]| |]|] eqn:E1; try done.
  destruct (eff_each _ ms s1) as [[[[s2 out2] []]| |]|] eqn:E2; try done.
  injection E as <- _. eapply IH; [|exact E2]. by eapply core_command.
Qed.

Definition is_time_message m : Prop := action m = cmd_time_request ∨ action m = cmd_time_grant.

End timing.
