(* ===== verification/CoreInit.v ===== *)
(** * The initialization of a core (CommonCore.cpp)

    The core asks its broker for initialization when all its federates have asked for it,
    and asks once. *)

From S2P Require Import Prelude HelicsTime Ids Flags ActionMessage MessageCodec.
From S2P Require Import Definitions TimeDependencies TimeCoordinator InputInfo Interfaces.
From S2P Require Import InterfaceInfo HandleManager FederateState.
From S2P Require Import ForwardingTimeCoordinator Effects MappedVector BrokerBase BrokerFrame.
From S2P Require Import BrokerState CoreState CommonCore CoreFrame.

(** A request for initialization, and the number of them. *)
Definition is_init_request (out : broker_out) : bool :=
  match out with Transmit _ m => bool_decide (action m = cmd_init) | _ => false end.
Definition init_requests (out : list broker_out) : nat :=
  length (base.filter (λ o, is_init_request o = true) out).
Abbreviation no_request := (λ o, is_init_request o = false).

Lemma init_requests_none out : Forall no_request out → init_requests out = 0%nat.
Proof.
  intros Hout. unfold init_requests. induction Hout as [|o out Ho _ IH]; [done|].
  by rewrite filter_cons_False by congruence.
Qed.
Lemma init_requests_app out out' :
  init_requests (out ++ out') = (init_requests out + init_requests out')%nat.
Proof. unfold init_requests. by rewrite filter_app, length_app. Qed.

Section init.
  Context `{TimeRep} `{SteadyClock} `{TimeMs} `{MappedVectorLaws C} `{DualMapped D}.
  Context `{BlockingQueue Q} `{FilterOperators W} `{LocalAddress}.
  Context `{CoreQueries (FederateState D Q)} (le : bool) (fuel : nat).
  Abbreviation CC := (CommonCore C D Q W).
  Abbreviation M := (effM CC broker_out).
  Implicit Types (s : CC) (cmd command m : ActionMessage) (info : FedInfo).

(** The federate of an entry of [loopFederates]. *)
Definition fedOf s info : option (FederateState D Q) :=
  fed_ptr info ≫= λ p, mv_elements (federates s) !! p.
(** The pointers lead to federates. *)
Definition pointers_ok s : Prop :=
  Forall (λ info, is_Some (fedOf s info)) (mv_elements (loopFederates s)).
(** The federate has asked for initialization. *)
Definition asked s info : bool :=
  match fedOf s info with Some fed => init_transmitted fed | None => false end.

Lemma quiet_refl s : quiet s s.
Proof. done. Qed.
Lemma quiet_trans s1 s2 s3 : quiet s1 s2 → quiet s2 s3 → quiet s1 s3.
Proof.
  intros [S1 O1 D1 F1 L1] [S2 O2 D2 F2 L2]. split; try congruence; by etrans.
Qed.
Lemma quiet_fed s s' p fed' :
  quiet s s' → mv_elements (federates s') !! p = Some fed' →
  ∃ fed, mv_elements (federates s) !! p = Some fed ∧ federate_key fed = federate_key fed'.
Proof. intros [_ _ _ F _]. by apply same_vec_lookup. Qed.
Lemma quiet_fed' s s' p fed :
  quiet s s' → mv_elements (federates s) !! p = Some fed →
  is_Some (mv_elements (federates s') !! p).
Proof.
  intros [_ _ _ F _] Hp. apply lookup_lt_is_Some. apply lookup_lt_Some in Hp.
  apply same_vec_size in F. unfold mv_size in F. lia.
Qed.
Lemma quiet_fedOf s s' info : quiet s s' → is_Some (fedOf s info) → is_Some (fedOf s' info).
Proof.
  unfold fedOf. intros Hq. destruct (fed_ptr info) as [p|]; [|by intros []]. cbn.
  intros [fed Hp]. by eapply quiet_fed'.
Qed.
Lemma quiet_pointers s s' : quiet s s' → pointers_ok s → pointers_ok s'.
Proof.
  intros Hq Hs. apply Forall_lookup_2. intros i info' Hi.
  destruct (same_vec_lookup _ _ _ _ _ (q_loopFederates _ _ Hq) Hi) as (info & Hi' & Hptr).
  assert (fedOf s' info' = fedOf s' info) as ->. { unfold fedOf. by rewrite Hptr. }
  eapply quiet_fedOf; [done|]. by eapply Forall_lookup_1 in Hs.
Qed.

(** Operations that return, change nothing that matters here and do not ask. *)
Definition calm {A} (op : M A) : Prop :=
  ∀ s, pointers_ok s → etotal op s (λ s' out _, quiet s s' ∧ Forall no_request out).

Lemma calm_ret {A} (a : A) : calm (mret a : M A).
Proof. intros s Hs. apply etotal_ret. by split. Qed.
Lemma calm_bind {A B} (op : M A) (f : A → M B) :
  calm op → (∀ a, calm (f a)) → calm (op ≫= f).
Proof.
  intros Hop Hf s Hs. apply etotal_bind. eapply etotal_mono; [by apply Hop|].
  intros s1 out1 a [Q1 N1]. eapply etotal_mono; [apply Hf; by eapply quiet_pointers|].
  intros s2 out2 b [Q2 N2]. split; [by eapply quiet_trans|by apply Forall_app].
Qed.
Lemma calm_get {A} (f : CC → M A) : (∀ s, pointers_ok s → etotal (f s) s
    (λ s' out _, quiet s s' ∧ Forall no_request out)) → calm (eff_get ≫= f).
Proof. intros Hf s Hs. apply etotal_bind, etotal_get. by apply Hf. Qed.
Lemma calm_get_base : calm (get_base : M BrokerBase).
Proof. apply calm_get. intros s Hs. apply etotal_ret. by split. Qed.
Lemma calm_modify (f : CC → CC) : (∀ s, quiet s (f s)) → calm (eff_modify f).
Proof. intros Hf s Hs. apply etotal_modify. by split. Qed.
Lemma calm_emit o : is_init_request o = false → calm (eff_emit o : M unit).
Proof. intros Ho s Hs. apply etotal_emit. split; [done|by constructor]. Qed.
Lemma calm_fedAction p m : calm (fedAction p m).
Proof.
  apply calm_modify. intros s. split; try done. apply same_vec_alter. intros fed.
  unfold addAction. by case_match.
Qed.
Lemma calm_coord_pure f : calm (coord_pure f : M unit).
Proof. intros s Hs. eexists _, _, _. split; [reflexivity|by split]. Qed.
Lemma calm_localId : calm (localId : M _).
Proof. apply calm_bind; [apply calm_get_base|]. intros b. apply calm_ret. Qed.
Lemma calm_fedAt p (f : FederateState D Q → M unit) s :
  pointers_ok s → is_Some (mv_elements (federates s) !! p) → (∀ fed, calm (f fed)) →
  etotal (fed ← fedAt p; f fed) s (λ s' out _, quiet s s' ∧ Forall no_request out).
Proof.
  intros Hs [fed Hp] Hf. apply etotal_bind, etotal_bind, etotal_get. rewrite Hp.
  apply etotal_ret. by apply Hf.
Qed.

(** A message about a dependency that is routed. *)
Lemma calm_dependency m :
  isTimingCommand m = false → isDependencyCommand m = true →
  calm (processCommandsForCore le m : M unit).
Proof.
  intros Ht Hd. apply calm_bind; [apply calm_get_base|]. intros b. rewrite Ht, Hd.
  apply calm_coord_pure.
Qed.
Lemma pointers_find s id p :
  pointers_ok s → getFederateCore s id = Some p → is_Some (mv_elements (federates s) !! p).
Proof.
  intros Hs. unfold getFederateCore. destruct (mv_find2 _ id) as [[i info]|] eqn:E; [|done].
  apply mv_find2_Some in E as [_ Hi]. cbn. intros Hp.
  eapply Forall_lookup_1 in Hs; [|done]. unfold fedOf in Hs. by rewrite Hp in Hs.
Qed.
Lemma calm_routeUnless over m :
  isTimingCommand m = false → isDependencyCommand m = true →
  calm (routeUnless le over m : M unit).
Proof.
  intros Ht Hd.
  assert (action m ≠ cmd_init) as Hm. { intros Hm. unfold isDependencyCommand in Hd. by rewrite Hm in Hd. }
  assert (∀ rid, calm (transmit rid m : M unit)) as Htr.
  { intros rid. apply calm_emit. cbn. by apply bool_decide_eq_false. }
  apply calm_get. intros s Hs. cbv zeta. case_match; [by apply Htr|].
  case_match; [by apply calm_dependency|]. case_match; [|by apply Htr].
  destruct (getFederateCore s _) as [p|] eqn:Hp; [|by apply calm_ret].
  apply calm_fedAt; [done|by eapply pointers_find|]. intros fed. unfold eff_when.
  case_match; [apply calm_fedAction|apply calm_ret].
Qed.
Lemma calm_routeMessageTo m dest :
  isTimingCommand m = false → isDependencyCommand m = true →
  calm (routeMessageTo le m dest : M unit).
Proof.
  intros Ht Hd. unfold routeMessageTo. case_match; [apply calm_ret|]. by apply calm_routeUnless.
Qed.
Lemma calm_leaveCoordination isobs issource fedid brkid :
  calm (leaveCoordination le isobs issource fedid brkid).
Proof.
  unfold leaveCoordination.
  do 4 (apply calm_bind; [apply calm_coord_pure|intros _]).
  apply calm_bind; [apply calm_modify; by split|intros _].
  apply calm_bind; [apply calm_localId|intros local].
  do 2 (apply calm_bind; [by apply calm_routeMessageTo|intros _]).
  case_match; [|case_match]; repeat (apply calm_bind; [by apply calm_routeMessageTo|intros _]);
    by apply calm_routeMessageTo.
Qed.

(** The loop over the federates. *)
Lemma calm_checkFederate p fed flags : calm (checkFederate p fed flags).
Proof.
  unfold checkFederate. apply calm_bind; [apply calm_localId|]. intros local.
  case_match; [|apply calm_ret].
  apply calm_bind; [intros s Hs; by eapply etotal_lift|]. intros isobs.
  assert (∀ f m r, calm (_ ← coord_pure f; _ ← fedAction p m; mret r : M (bool * bool))) as Hr.
  { intros f m r. apply calm_bind; [apply calm_coord_pure|]. intros _.
    apply calm_bind; [apply calm_fedAction|]. intros _. apply calm_ret. }
  destruct isobs; [apply Hr|].
  apply calm_bind; [intros s Hs; by eapply etotal_lift|]. intros issource.
  destruct issource; [apply Hr|apply calm_ret].
Qed.
Lemma calm_checkFederates infos flags s :
  pointers_ok s → Forall (λ info, is_Some (fedOf s info)) infos →
  etotal (checkFederates infos flags) s (λ s' out _, quiet s s' ∧ Forall no_request out).
Proof.
  revert flags s. induction infos as [|info infos IH]; intros flags s Hs Hinfos;
    cbn [checkFederates]; [by apply etotal_ret|].
  apply Forall_cons in Hinfos as [[fed Hfed] Hinfos]. unfold fedOf in Hfed.
  destruct (fed_ptr info) as [p|] eqn:Hptr; [|done]. cbn in Hfed.
  unfold pointer. rewrite Hptr. apply etotal_bind, etotal_ret.
  apply etotal_bind, etotal_bind, etotal_get. rewrite Hfed. apply etotal_ret.
  apply etotal_bind. eapply etotal_mono; [by apply calm_checkFederate|].
  intros s1 out1 flags1 [Q1 N1]. eapply etotal_mono; [apply IH|].
  - by eapply quiet_pointers.
  - eapply Forall_impl; [done|]. intros info' Hi. by eapply quiet_fedOf.
  - intros s2 out2 flags2 [Q2 N2]. split; [by eapply quiet_trans|cbn; by apply Forall_app].
Qed.
Lemma calm_checkDependencies : calm (checkDependencies le).
Proof.
  apply calm_get. intros s Hs. apply etotal_bind.
  eapply etotal_mono; [by apply calm_checkFederates|].
  intros s1 out1 [isobs issource] [Q1 N1].
  assert (pointers_ok s1) as Hs1 by (by eapply quiet_pointers).
  apply etotal_mono with (P := λ s' out _, quiet s1 s' ∧ Forall no_request out);
    [|intros s2 out2 [] [Q2 N2]; split; [by eapply quiet_trans|cbn; by apply Forall_app]].
  apply etotal_bind, etotal_get. cbv zeta.
  destruct (hasFilters _); [by apply calm_ret|]. destruct (2 <? _)%nat; [by apply calm_ret|].
  destruct (2 <? _)%nat; [by apply calm_ret|].
  destruct (splitDependents _ _) as [[fedid brkid] localcnt].
  destruct (1 <? localcnt); [by apply calm_ret|].
  destruct (_ && _); [by apply calm_modify; [by split|]|].
  destruct (forallb _ _); [by apply calm_leaveCoordination|by apply calm_ret].
Qed.

(** ** The barrier *)

Definition mark (p : nat) s : CC :=
  s <| federates := mv_alter (λ fed, fed <| init_transmitted := true |>) p (federates s) |>.

Lemma mark_fedOf s p info :
  is_Some (fedOf s info) →
  is_Some (fedOf (mark p s) info) ∧
  asked (mark p s) info = bool_decide (fed_ptr info = Some p) || asked s info.
Proof.
  unfold asked, fedOf. destruct (fed_ptr info) as [q|] eqn:Hq; [|by intros []]. cbn.
  rewrite mv_alter_elements. intros [fed Hfed]. destruct (decide (p = q)) as [->|Hne].
  - rewrite bool_decide_true by done. rewrite list_lookup_alter_eq, Hfed. cbn. eauto.
  - rewrite bool_decide_false by congruence. rewrite list_lookup_alter_ne, Hfed by done. eauto.
Qed.
Lemma mark_pointers s p : pointers_ok s → pointers_ok (mark p s).
Proof.
  intros Hs. eapply Forall_impl; [exact Hs|]. intros info Hi. by apply mark_fedOf.
Qed.

Lemma allTransmitted_spec s infos :
  Forall (λ info, is_Some (fedOf s info)) infos →
  allTransmitted infos s = Some (Ok (s, [], forallb (asked s) infos)).
Proof.
  induction 1 as [|info infos [fed Hfed] _ IH]; [done|]. cbn [allTransmitted forallb].
  unfold asked at 1. rewrite Hfed. unfold fedOf in Hfed.
  destruct (fed_ptr info) as [p|] eqn:Hp; [|done]. cbn in Hfed. unfold pointer, fedAt.
  rewrite Hp, eff_ret_bind. rewrite (eff_bind_ok _ _ s s fed) by (by rewrite eff_get_bind, Hfed).
  by destruct (init_transmitted fed).
Qed.

(** Nothing else than its federates holds the core up. *)
Definition barrier_open s : Prop :=
  pointers_ok s ∧ delayInitCounter s ≤ 0 ∧
  minFederateCount (cc_base s) ≤ to_sint 32 (Z.of_nat (mv_size (loopFederates s))).

Lemma allInitReady_spec s :
  barrier_open s →
  allInitReady s = Some (Ok (s, [], forallb (asked s) (mv_elements (loopFederates s)))).
Proof.
  intros (Hp & Hd & Hc). unfold allInitReady. rewrite eff_get_bind.
  rewrite (proj2 (Z.ltb_ge _ _)), (proj2 (Z.ltb_ge _ _)) by lia. by apply allTransmitted_spec.
Qed.

Lemma requestInit_connected s m :
  pointers_ok s → brokerState (cc_base s) = bs_connected → action m = cmd_init →
  etotal (requestInit le m) s (λ s' out _,
    brokerState (cc_base s') = bs_initializing ∧ init_requests out = 1%nat ∧
    quiet (s <| cc_base := (cc_base s) <| brokerState := bs_initializing |> |>) s').
Proof.
  intros Hp Hst Hm. apply etotal_bind, etotal_bind, etotal_get, etotal_ret.
  cbn [base CommonCore_base]. rewrite bool_decide_true by done. cbn [eff_when].
  apply etotal_bind, etotal_modify. apply etotal_bind.
  eapply etotal_mono; [by apply calm_checkDependencies|]. intros s1 out1 _ [Q1 N1].
  apply etotal_emit. split; [by rewrite (q_state _ _ Q1)|]. split; [|done].
  rewrite ?app_nil_l. rewrite init_requests_app, (init_requests_none out1) by done. unfold init_requests.
  rewrite filter_cons_True by (cbn; by apply bool_decide_eq_true). done.
Qed.

(** One request of a federate: the core asks when it was the last one. *)
Lemma processInit_step s m p :
  barrier_open s → action m = cmd_init → getFederateCore s (source_id m) = Some p →
  etotal (processCommand le fuel m) s (λ s' out _,
    if bool_decide (brokerState (cc_base s) = bs_connected) &&
       forallb (asked (mark p s)) (mv_elements (loopFederates s))
    then brokerState (cc_base s') = bs_initializing ∧ init_requests out = 1%nat ∧
         quiet (mark p s <| cc_base := (cc_base s) <| brokerState := bs_initializing |> |>) s'
    else s' = mark p s ∧ out = []).
Proof.
  intros (Hp & Hd & Hc) Hm Hfed. unfold processCommand. apply etotal_bind, etotal_get.
  rewrite Hm. apply etotal_bind, etotal_get. rewrite Hfed. apply etotal_bind, etotal_modify.
  fold (mark p s). assert (barrier_open (mark p s)) as Ho
    by (split; [by apply mark_pointers|done]).
  apply etotal_bind. eexists _, _, _. split; [by apply allInitReady_spec|].
  cbn [mark loopFederates upd app]. change (loopFederates (mark p s)) with (loopFederates s).
  destruct (forallb _ _); cbn [eff_when]; [|rewrite andb_false_r; by apply etotal_ret].
  rewrite andb_true_r. destruct (bool_decide_reflect (brokerState (cc_base s) = bs_connected)).
  - eapply etotal_mono; [by apply requestInit_connected; [apply Ho| |]|]. done.
  - apply etotal_bind, etotal_bind, etotal_get, etotal_ret. cbn [base CommonCore_base].
    rewrite bool_decide_false by done. by apply etotal_ret.
Qed.

Lemma quiet_getFederateCore s s' id :
  quiet s s' → getFederateCore s' id = getFederateCore s id.
Proof.
  intros Hq. destruct (q_loopFederates _ _ Hq) as [E _ I]. unfold getFederateCore, mv_find2.
  rewrite I. destruct (mv_index2 _ id) as [i|]; [|done]. cbn.
  apply (f_equal (.!! i)) in E. rewrite !list_lookup_fmap in E.
  destruct (mv_elements (loopFederates s') !! i), (mv_elements (loopFederates s) !! i);
    cbn in *; congruence.
Qed.

(** Once it has asked the core does not ask again. *)
Lemma processInit_late s m p :
  pointers_ok s → brokerState (cc_base s) ≠ bs_connected → action m = cmd_init →
  getFederateCore s (source_id m) = Some p →
  processCommand le fuel m s = Some (Ok (mark p s, [], tt)).
Proof.
  intros Hp Hst Hm Hfed. unfold processCommand. rewrite eff_get_bind, Hm. unfold processInit.
  rewrite eff_get_bind, Hfed. unfold updateFed. rewrite eff_modify_bind. fold (mark p s).
  assert (∃ b, allInitReady (mark p s) = Some (Ok (mark p s, [], b))) as [b Hb].
  { unfold allInitReady. rewrite eff_get_bind. case_match; [by eexists|]. case_match; [by eexists|].
    rewrite allTransmitted_spec by (by apply mark_pointers). by eexists. }
  rewrite (eff_bind_ok _ _ _ _ _ Hb). destruct b; [|done]. cbn [eff_when].
  unfold requestInit. rewrite (eff_bind_ok _ _ _ (mark p s) (cc_base s)) by done.
  by rewrite bool_decide_false.
Qed.

Definition asks s m : Prop := action m = cmd_init ∧ is_Some (getFederateCore s (source_id m)).

Lemma init_late s ms :
  pointers_ok s → brokerState (cc_base s) ≠ bs_connected → Forall (asks s) ms →
  etotal (eff_each (processCommand le fuel) ms) s (λ s' out _,
    out = [] ∧ brokerState (cc_base s') = brokerState (cc_base s)).
Proof.
  revert s. induction ms as [|m ms IH]; intros s Hp Hst Hms; [by apply etotal_ret|].
  apply Forall_cons in Hms as [[Hm [p Hfed]] Hms]. cbn [eff_each]. apply etotal_bind.
  eexists _, _, _. split; [by eapply processInit_late|].
  apply (IH (mark p s)); [by apply mark_pointers|done|done].
Qed.

Lemma forallb_marked s p ms :
  pointers_ok s →
  forallb (λ info, asked (mark p s) info || bool_decide (fed_ptr info ∈ ms))
    (mv_elements (loopFederates s)) =
  forallb (λ info, asked s info || bool_decide (fed_ptr info ∈ Some p :: ms))
    (mv_elements (loopFederates s)).
Proof.
  unfold pointers_ok. generalize (mv_elements (loopFederates s)) as infos.
  induction 1 as [|info infos Hi _ IH]; [done|]. cbn [forallb]. rewrite IH. f_equal.
  destruct (mark_fedOf s p info Hi) as [_ ->].
  rewrite (bool_decide_ext (fed_ptr info ∈ Some p :: ms) (fed_ptr info = Some p ∨ fed_ptr info ∈ ms))
    by apply elem_of_cons.
  rewrite bool_decide_or. by destruct (asked s info), (bool_decide _), (bool_decide _).
Qed.

Lemma forallb_same {A} (f g : A → bool) l : (∀ a, f a = g a) → forallb f l = forallb g l.
Proof. intros E. induction l as [|a l IH]; [done|]. cbn. by rewrite E, IH. Qed.

End init.
