(* ===== verification/CoreFilters.v ===== *)
(** * The filters of an endpoint (CommonCore.cpp)

    [organizeFilterOperations] puts the source filters of an endpoint in an order in which
    each can take what the one before it gives.  A filter of the destination that drops a
    message is not provided for. *)

From S2P Require Import Prelude HelicsTime Ids Flags ActionMessage MessageCodec.
From S2P Require Import Definitions TimeDependencies TimeCoordinator InputInfo Interfaces.
From S2P Require Import InterfaceInfo HandleManager FederateState.
From S2P Require Import ForwardingTimeCoordinator Effects MappedVector BrokerBase BrokerState.
From S2P Require Import CoreState CommonCore.

Abbreviation filters_t := (list (positive * FilterInfo)).

(** The filters that are not marked. *)
Fixpoint unmarked (filts : filters_t) (marks : list bool) : filters_t :=
  match filts, marks with
  | f :: filts, true :: marks => unmarked filts marks
  | f :: filts, false :: marks => f :: unmarked filts marks
  | _, _ => []
  end.

(** Each filter takes the type that the one before gives, and the type at the end. *)
Fixpoint type_chain (type : string) (filts : filters_t) : Prop :=
  match filts with
  | [] => True
  | (_, filt) :: filts =>
      matchingTypes (filt_inputType filt) type = true ∧ type_chain (filt_outputType filt) filts
  end.
Fixpoint chain_end (type : string) (filts : filters_t) : string :=
  match filts with [] => type | (_, filt) :: filts => chain_end (filt_outputType filt) filts end.

Lemma type_chain_app type l l' :
  type_chain type (l ++ l') ↔ type_chain type l ∧ type_chain (chain_end type l) l'.
Proof. revert type. induction l as [|[p f] l IH]; intros type; cbn; [tauto|]. rewrite IH. tauto. Qed.
Lemma chain_end_app type l l' : chain_end type (l ++ l') = chain_end (chain_end type l) l'.
Proof. revert type. induction l as [|[p f] l IH]; intros type; cbn; auto. Qed.

(** One pass: [took] are the filters that it takes. *)
Record pass_result (firstPass : bool) (filts : filters_t) (marks : list bool) (type : string)
    (took : filters_t) (r : organized) : Prop := {
  pr_length : length (org_used r) = length marks;
  pr_filters : org_filters r = took.*1;
  pr_split : unmarked filts marks ≡ₚ took ++ unmarked filts (org_used r);
  pr_some : someUnused r = negb (bool_decide (unmarked filts (org_used r) = []));
  pr_more : usedMore r = negb (bool_decide (took = []));
}.
Lemma pass_exists firstPass filts : ∀ marks type, length marks = length filts →
  ∃ took, let r := organizePass firstPass filts marks type in
    pass_result firstPass filts marks type took r ∧
    if firstPass
    then took = base.filter (λ f, cloning f.2 = true) (unmarked filts marks) ∧
         unmarked filts (org_used r) =
           base.filter (λ f, cloning f.2 = false) (unmarked filts marks) ∧ org_type r = type
    else type_chain type took ∧ org_type r = chain_end type took ∧
         (took = [] → Forall (λ f, matchingTypes (filt_inputType f.2) type = false)
                        (unmarked filts marks)).
Proof.
  induction filts as [|[p f] filts IH]; intros [|b marks] type Hl; try done.
  { exists []. cbn. split; [by split|]. by destruct firstPass. }
  injection Hl as Hl. destruct b; cbn [organizePass unmarked].
  { destruct (IH marks type Hl) as (took & [L F S U M] & HT). exists took.
    split; [|done]. split; cbn; try done. by rewrite L. }
  destruct (if firstPass then cloning f else matchingTypes (filt_inputType f) type) eqn:Htake.
  - destruct (IH marks (if firstPass then type else filt_outputType f) Hl)
      as (took & [L F S U M] & HT). exists ((p, f) :: took). split.
    + split; cbn; [by rewrite L|by rewrite F|by rewrite S|done|done].
    + destruct firstPass; cbn [org_used unmarked org_type].
      * destruct HT as (-> & HU & ->). rewrite filter_cons_True, filter_cons_False by (cbn; congruence).
        done.
      * destruct HT as (Hc & -> & _). done.
  - destruct (IH marks type Hl) as (took & [L F S U M] & HT). exists took. split.
    + split; cbn; [by rewrite L|done| |done|done].
      rewrite S. by rewrite Permutation_middle.
    + destruct firstPass; cbn [org_used unmarked org_type].
      * destruct HT as (-> & HU & ->). rewrite filter_cons_False, filter_cons_True by (cbn; congruence).
        by rewrite HU.
      * destruct HT as (Hc & -> & Hn). split; [done|]. split; [done|]. intros Ht.
        constructor; [done|auto].
Qed.

(** The passes after the first one. *)
Lemma loop_result fuel filts : ∀ marks type,
  length marks = length filts → (length (unmarked filts marks) < fuel)%nat →
  ∃ took left, organizeLoop fuel false filts marks type = Some (took.*1) ∧
    unmarked filts marks ≡ₚ took ++ left ∧ type_chain type took ∧
    Forall (λ f, matchingTypes (filt_inputType f.2) (chain_end type took) = false) left.
Proof.
  induction fuel as [|fuel IH]; intros marks type Hl Hf; [lia|]. cbn [organizeLoop].
  destruct (pass_exists false filts marks type Hl) as (took & [L F S U M] & Hc & HT & Hn).
  set (r := organizePass false filts marks type) in *. cbn [orb].
  destruct (decide (took = [])) as [->|Hne].
  { rewrite M, andb_false_r. exists [], (unmarked filts marks).
    rewrite F. split; [done|]. split; [done|]. split; [done|]. by apply Hn. }
  rewrite M, bool_decide_false, andb_true_r by done. cbn [negb]. rewrite U.
  destruct (decide (unmarked filts (org_used r) = [])) as [Hu|Hu].
  { rewrite bool_decide_true by done. exists took, []. rewrite F, <- Hu. split; [done|].
    split; [done|]. split; [done|]. rewrite Hu. constructor. }
  rewrite bool_decide_false by done. cbn [negb].
  destruct (IH (org_used r) (org_type r)) as (took' & left & E & P & Hc' & Hleft).
  - by rewrite L.
  - apply Permutation_length in S. rewrite length_app in S.
    destruct took; [done|]. cbn in S. lia.
  - rewrite E, F. exists (took ++ took'), left. rewrite fmap_app. split; [done|].
    rewrite <- app_assoc, <- P. split; [done|].
    rewrite type_chain_app, chain_end_app, <- HT. done.
Qed.

Lemma unmarked_all filts : unmarked filts (replicate (length filts) false) = filts.
Proof. induction filts as [|f filts IH]; [done|]. cbn. by rewrite IH. Qed.

(** C27. The order of the source filters of an endpoint: it is always found, the cloning
    filters come first in the order in which they were added, each of the others takes
    what the one before it gives, starting with the type of the endpoint, each filter is
    used at most once, and a filter is left out only when it does not take what the last
    one gives. *)
Theorem organizeFilters_spec filts endpointType :
  ∃ chain left, organizeFilters filts endpointType =
      Some ((base.filter (λ f, cloning f.2 = true) filts ++ chain).*1) ∧
    base.filter (λ f, cloning f.2 = false) filts ≡ₚ chain ++ left ∧
    type_chain endpointType chain ∧
    Forall (λ f, matchingTypes (filt_inputType f.2) (chain_end endpointType chain) = false) left.
Proof.
  unfold organizeFilters. remember (S (length filts)) as n eqn:Hn. cbn [organizeLoop].
  destruct (pass_exists true filts (replicate (length filts) false) endpointType)
    as (took & [L F S U M] & HT & HU & Ht); [by rewrite length_replicate|].
  rewrite unmarked_all in *. set (r := organizePass _ _ _ _) in *. cbn [orb].
  rewrite andb_true_r, U. rewrite F, HT.
  destruct (decide (unmarked filts (org_used r) = [])) as [Hu|Hu].
  { rewrite bool_decide_true by done. exists [], []. rewrite app_nil_r, <- HU, Hu. done. }
  rewrite bool_decide_false by done. cbn [negb].
  destruct (loop_result n filts (org_used r) (org_type r))
    as (chain & left & E & P & Hc & Hleft).
  - by rewrite L, length_replicate.
  - apply Permutation_length in S. rewrite length_app in S. lia.
  - rewrite E. exists chain, left. rewrite fmap_app, <- HU. rewrite Ht in Hc, Hleft. done.
Qed.

(** ** A filter of the destination *)

Section destination.
  Context `{TimeRep} `{SteadyClock} `{TimeMs} `{MappedVector C} `{DualMapped D}.
  Context `{BlockingQueue Q} `{FilterOperators W} `{LocalAddress} (le : bool) (fuel : nat).
  Implicit Types (s : CommonCore C D Q W) (m : ActionMessage).

(** [filt] is the filter of this core at the endpoint that a message goes to. *)
Record filtered_here s m (localP : BasicHandleInfo) (filt : FilterInfo) (op : nat) : Prop := {
  fh_dest : destinationHandle s m = Ok (Some localP);
  fh_flag : checkActionFlag localP has_dest_filter_flag = true;
  fh_filter : ∃ fc p, filterCoord s !! handle (hi_handle localP) = Some fc ∧
    destFilter fc = Some p ∧ filterStore s !! p = Some filt;
  fh_active : checkActionFlag filt disconnected_flag = false;
  fh_local : filt_core_id filt = global_broker_id_local (cc_base s);
  fh_op : filterOp filt = Some op;
}.

(** A filter of the destination that drops a message brings the core down: when the
    operator of the filter returns no message, the core assigns the null pointer to the
    message and dereferences it. *)
Theorem dest_filter_drop s m localP filt op :
  action m = cmd_send_message → filtered_here s m localP filt op →
  (op_process op (createMessageFromCommand m) (operators s)).2 = None →
  deliverMessage le (S fuel) m s = Some Fault.
Proof.
  intros Ha [Hd Hf (fc & p & Hc & Hp & Hs) Hact Hl Hop] Hdrop.
  cbn [deliverMessage]. rewrite Ha, eff_get_bind.
  rewrite (eff_bind_ok _ _ s s (Some localP)) by (by rewrite Hd). rewrite Hf.
  rewrite (eff_bind_ok _ _ s s (Some fc))
    by (unfold getFilterCoordinator; by rewrite eff_get_bind, Hc).
  assert (applyDestFilter le localP fc m s = Some Fault) as E; [|by unfold mbind, effM_bind; rewrite E].
  unfold applyDestFilter. rewrite Hp.
  rewrite (eff_bind_ok _ _ s s filt) by (unfold filterAt; by rewrite eff_get_bind, Hs).
  rewrite (eff_bind_ok _ _ s s (global_broker_id_local (cc_base s))) by done.
  rewrite Hact, Hl, Z.eqb_refl. cbn [negb]. rewrite Hop.
  unfold runOperator. destruct (op_process _ _ (operators s)) as [w a] eqn:Eop. cbn in Hdrop.
  subst a. rewrite (eff_bind_ok _ _ s (s <| operators := w |>) None); [done|].
  rewrite eff_get_bind, Eop. done.
Qed.
End destination.
