(* ===== verification/CoreRegistration.v ===== *)
(** * The registration of a federate, from its core through the brokers

    A federate that joins waits in its core for the identifier that the root broker
    gives.  [join_federation] runs the parts of the core and the handlers of the brokers
    on the way, the messages being carried from one to the next. *)

From stdpp Require Import strings.
From S2P Require Import Prelude HelicsTime Ids Flags ActionMessage MessageCodec.
From S2P Require Import Definitions TimeDependencies TimeCoordinator InputInfo Interfaces.
From S2P Require Import InterfaceInfo HandleManager UnknownHandles FederateState.
From S2P Require Import ForwardingTimeCoordinator Effects MappedVector BrokerBase BrokerState.
From S2P Require Import CoreBroker BrokerFrame BrokerRegistry BrokerTree.
From S2P Require Import CoreState CommonCore CoreApi.

Section registration.
  Context `{TimeRep} `{SteadyClock} `{TimeMs} `{UnitsLib} `{Fmt} `{MappedVectorLaws C}.
  Context `{BrokerText} `{DualMapped D} `{BlockingQueueLaws Q} `{FilterOperators W}.
  Context `{LocalAddress} `{CoreQueries (FederateState D Q)} (le : bool).
  Context (answer : FederateState D Q → string → string).
  Abbreviation CC := (CommonCore C D Q W).
  Abbreviation FS := (FederateState D Q).
  Abbreviation CB := (CoreBroker C).
  Implicit Types (s : CC) (fed : FS) (root : CB) (cmd m ack : ActionMessage).

(** ** The federate *)

(** A federate that has been made and has processed nothing. *)
Record fresh (name : string) fed : Prop := {
  fresh_name : fs_name fed = name;
  fresh_state : fs_state fed = HELICS_CREATED;
  fresh_queue : q_list (fs_queue fed) = [];
  fresh_delayed : delayQueues fed = [];
}.

Lemma fresh_fold {P} (f : FS → P → FS) name ps : ∀ fed,
  (∀ fed p, fresh name fed → fresh name (f fed p)) → fresh name fed →
  fresh name (foldl f fed ps).
Proof. induction ps as [|p ps IH]; intros fed Hf Hfed; [done|]. cbn. auto. Qed.
Lemma fresh_new name info : fresh name (newFederateState name info).
Proof.
  unfold newFederateState. apply fresh_fold; [|apply fresh_fold; [|apply fresh_fold]].
  - intros fed [k v] []. unfold fs_setOptionFlag, setInterfaceFlag. cbn zeta.
    repeat case_match; by split.
  - intros fed [k v] []. unfold fs_setIntProperty. repeat case_match; by split.
  - intros fed [k v] []. unfold fs_setProperty. repeat case_match; by split.
  - split; [done|done|apply q_list_new|done].
Qed.

Lemma fs_bind_ok {A B} (f : fsM (C:=D) (Q:=Q) A) (g : A → fsM B) fed fed' a :
  f fed = Some (Ok (fed', [], a)) → @mbind _ fsM_bind _ _ g f fed = g a fed'.
Proof.
  intros R. unfold mbind, fsM_bind. rewrite R. by destruct (g a fed') as [[[[f2 out] b]| |]|].
Qed.

(** The federate after the answer. *)
Definition acknowledged (q : Q) ack fed : FS :=
  fed <| delayedFederates := [] |> <| fs_queue := q |>
    <| fs_global_id := dest_id ack |>
    <| interfaceInformation := setGlobalId (interfaceInformation fed) (dest_id ack) |>
    <| FederateState.timeCoord := (FederateState.timeCoord fed) <| tc_source_id := dest_id ack |> |>.

(** The answer of the root makes the wait of the federate end. *)
Lemma waitSetup_ack fuel n fed ack :
  fs_state fed = HELICS_CREATED → delayQueues fed = [] →
  q_list (fs_queue fed) = [ack] → action ack = cmd_fed_ack → payload ack = fs_name fed →
  checkActionFlag ack error_flag = false →
  ∃ q, waitSetup le answer (S fuel) (S n) [] fed =
      Some (Ok (acknowledged q ack fed, [], Some next_step)) ∧ q_list q = [].
Proof.
  intros Hs Hd Hq Ha Hp He.
  pose proof (q_list_pop (fs_queue fed)) as Hpop.
  destruct (q_pop (fs_queue fed)) as [[m q]|] eqn:Epop; [|by rewrite Hq in Hpop].
  rewrite Hq in Hpop. injection Hpop as <- Hq'. exists q. split; [|done].
  set (fed1 := fed <| delayedFederates := [] |>).
  assert (processActionMessage le answer (S fuel) ack (fed1 <| fs_queue := q |>) =
    Some (Ok (acknowledged q ack fed, [], (next_step, ack)))) as Hack.
  { cbn [processActionMessage]. rewrite (fs_bind_ok _ _ _ (fed1 <| fs_queue := q |>)
      (fed1 <| fs_queue := q |>)) by done. rewrite Ha. unfold processFedAck.
    rewrite (fs_bind_ok _ _ _ (acknowledged q ack fed) next_step); [done|].
    rewrite (fs_bind_ok _ _ _ (fed1 <| fs_queue := q |>) (fed1 <| fs_queue := q |>)) by done.
    rewrite bool_decide_true by done. cbn [negb].
    change (fs_name (fed1 <| fs_queue := q |>)) with (fs_name fed).
    rewrite Hp, String.eqb_refl, He. done. }
  unfold waitSetup. rewrite (fs_bind_ok _ _ _ fed tt) by done.
  unfold processQueue, processQueueWith. rewrite (fs_bind_ok _ _ _ fed fed) by done.
  rewrite bool_decide_false by (by rewrite Hs).
  rewrite (fs_bind_ok _ _ _ fed1 continue_processing).
  2:{ unfold processDelayQueue, processDelayQueueWith. rewrite (fs_bind_ok _ _ _ fed1 tt) by done.
      rewrite (fs_bind_ok _ _ _ fed1 fed1) by done. change (delayQueues fed1) with (delayQueues fed).
      by rewrite Hd. }
  rewrite (fs_bind_ok _ _ _ (acknowledged q ack fed) (Some (next_step, false))).
  2:{ cbn [queueLoop]. change (returnableResult continue_processing) with false. cbn iota.
      rewrite (fs_bind_ok _ _ _ fed1 fed1) by done.
      change (fs_queue fed1) with (fs_queue fed). rewrite Epop.
      rewrite (fs_bind_ok _ _ _ (fed1 <| fs_queue := q |>) tt) by done.
      change (messageShouldBeDelayed fed1 ack) with false. cbn iota.
      rewrite (fs_bind_ok _ _ _ _ _ Hack). rewrite bool_decide_false by done.
      rewrite (fs_bind_ok _ _ _ (acknowledged q ack fed) tt) by done.
      by destruct n. }
  rewrite (fs_bind_ok _ _ _ (acknowledged q ack fed) next_step); [done|].
  rewrite bool_decide_false by (by rewrite Hs). done.
Qed.

(** ** The core *)

(** A core that has its identifier, is not operating and has nothing under the name or the
    identifier of the federate. *)
Record core_open (name : string) (gid : global_federate_id) s : Prop := {
  co_id : fed_isValid (global_id (cc_base s)) = true;
  co_id_known : global_id (cc_base s) ≠ parent_broker_id;
  co_local : global_broker_id_local (cc_base s) ≠ parent_broker_id;
  co_state : broker_state_lt (brokerState (cc_base s)) bs_operating = true;
  co_name : mv_index1 (federates s) name = None;
  co_loop_name : mv_index1 (loopFederates s) name = None;
  co_loop_id : mv_index2 (loopFederates s) gid = None;
}.

Definition request name : ActionMessage := (newMessage cmd_reg_fed) <| payload := name |>.
(** The table of federates with a new one at the end. *)
Record with_federate (name : string) fed s s' : Prop := {
  wf_elements : mv_elements (federates s') = mv_elements (federates s) ++ [fed];
  wf_index1 : ∀ k, mv_index1 (federates s') k =
    if decide (k = name) then Some (mv_size (federates s)) else mv_index1 (federates s) k;
}.

Lemma begin_ok res rounds name info gid s :
  core_open name gid s →
  ∃ s' fed, beginRegistration res rounds name info s =
      Some (Ok (s', [Queue (request name)],
                (mv_size (federates s), to_sint 32 (Z.of_nat (mv_size (federates s)))))) ∧
    s' = s <| federates := federates s' |> ∧ with_federate name fed s s' ∧
    fresh name fed ∧ fs_parent fed = true.
Proof.
  intros [Hid Hpar _ Hst Hn _ _].
  set (p := mv_size (federates s)). set (local := to_sint 32 (Z.of_nat p)).
  set (fed := (newFederateState name info) <| fs_local_id := local |> <| fs_parent := true |>).
  set (c := (mv_insert1 name (newFederateState name info) (federates s)).1).
  exists (s <| federates := mv_alter (λ fed, fed <| fs_local_id := local |>
                                                 <| fs_parent := true |>) p c |>), fed.
  split; [|split; [done|split; [split|split; [|done]]]].
  - unfold beginRegistration, waitCoreRegistration.
    rewrite (eff_bind_ok _ _ s s true).
    2:{ destruct rounds; cbn [waitRounds]; rewrite (eff_bind_ok _ _ s s (cc_base s)) by done;
        rewrite Hid, (proj2 (Z.eqb_neq _ _)) by done; done. }
    rewrite (eff_bind_ok _ _ s s (cc_base s)) by done. cbn [negb]. rewrite Hst. cbn [negb].
    rewrite eff_get_bind. cbv zeta.
    destruct (mv_insert1 name _ (federates s)) as [c' inserted] eqn:E.
    pose proof (mv_insert1_ok _ (federates s) name (newFederateState name info) Hn) as Hi.
    rewrite E in Hi. cbn in Hi. subst inserted. cbn [negb]. subst c. cbn [fst].
    rewrite eff_modify_bind. unfold updateFed. rewrite eff_modify_bind. by apply eff_emit_ok.
  - cbn. rewrite mv_alter_elements. unfold c. rewrite mv_insert1_elements by done.
    unfold p, mv_size. by rewrite alter_app_r_alt, Nat.sub_diag.
  - intros k. cbn. rewrite mv_alter_index1. unfold c. by rewrite mv_insert1_index1.
  - destruct (fresh_new name info). by split.
Qed.

(** The request of the core. *)
Lemma enter_ok name gid fuel fed s s1 :
  core_open name gid s → s1 = s <| federates := federates s1 |> → with_federate name fed s s1 →
  ∃ s2, processPriorityCommand le fuel (request name) s1 =
      Some (Ok (s2, [Transmit parent_route_id
                       ((request name) <| source_id := global_broker_id_local (cc_base s) |>)], tt)) ∧
    s2 = s1 <| loopFederates := (mv_insert1 name
           (mkFedInfo (Some (mv_size (federates s))) op_operating) (loopFederates s)).1 |>.
Proof.
  intros [_ _ Hl _ _ _ _] Hs1 [_ Hi].
  exists (s1 <| loopFederates := (mv_insert1 name
           (mkFedInfo (Some (mv_size (federates s))) op_operating) (loopFederates s)).1 |>).
  split; [|done]. unfold processPriorityCommand, processPriorityWith.
  rewrite (eff_bind_ok _ _ s1 s1 (cc_base s1)) by done. cbn [request action newMessage].
  change (action (request name)) with cmd_reg_fed. cbv zeta iota. unfold enterFederate.
  rewrite eff_modify_bind. change (payload (request name)) with name. unfold getFederate.
  rewrite Hi, decide_True by done.
  assert (loopFederates s1 = loopFederates s) as -> by (by rewrite Hs1).
  unfold forwardUp. rewrite (eff_bind_ok _ _ _
    (s1 <| loopFederates := (mv_insert1 name
           (mkFedInfo (Some (mv_size (federates s))) op_operating) (loopFederates s)).1 |>)
    (global_broker_id_local (cc_base s))); [|by rewrite Hs1].
  by rewrite (proj2 (Z.eqb_neq _ _)).
Qed.

(** What the core does with the answer. *)
Lemma ack_ok name gid fuel fed ack s s2 :
  core_open name gid s → mv_elements (federates s2) = mv_elements (federates s) ++ [fed] →
  loopFederates s2 = (mv_insert1 name
    (mkFedInfo (Some (mv_size (federates s))) op_operating) (loopFederates s)).1 →
  action ack = cmd_fed_ack → payload ack = name → dest_id ack = gid →
  checkActionFlag ack error_flag = false →
  ∃ s3, processPriorityCommand le fuel ack s2 = Some (Ok (s3, [], tt)) ∧
    mv_elements (federates s3) = mv_elements (federates s) ++
      [addAction (fed <| fs_global_id := gid |>) ack] ∧
    ∀ id, getFederateCore s3 id =
      if decide (id = gid) then Some (mv_size (federates s)) else getFederateCore s id.
Proof.
  intros [_ _ _ _ _ Hln Hlg] Hf Hl Ha Hp Hd He. set (p := mv_size (federates s)) in *.
  set (info := mkFedInfo (Some p) op_operating) in *.
  assert (mv_index1 (loopFederates s2) name = Some (mv_size (loopFederates s))) as Hix.
  { by rewrite Hl, mv_insert1_index1, decide_True. }
  assert (mv_elements (loopFederates s2) = mv_elements (loopFederates s) ++ [info]) as Hel.
  { by rewrite Hl, mv_insert1_elements. }
  set (s3 := s2 <| federates := mv_alter (λ fed, addAction fed ack) p
                (mv_alter (λ fed, fed <| fs_global_id := dest_id ack |>) p (federates s2)) |>
             <| loopFederates := mv_addTermByName gid name (loopFederates s2) |>).
  exists s3. split; [|split].
  - unfold processPriorityCommand, processPriorityWith.
    rewrite (eff_bind_ok _ _ s2 s2 (cc_base s2)) by done. cbv zeta. rewrite Ha.
    unfold federateAck. rewrite eff_get_bind. unfold getFederateCoreByName, mv_find1.
    rewrite Hp, Hix. cbn [mbind option_bind]. rewrite Hel.
    rewrite lookup_app_r, Nat.sub_diag by (unfold mv_size; lia). cbn [fed_ptr].
    rewrite He. cbn [negb eff_when]. unfold s3. rewrite Hd. reflexivity.
  - cbn. rewrite !mv_alter_elements, Hf, Hd. unfold p, mv_size.
    rewrite !alter_app_r_alt, Nat.sub_diag by done. done.
  - intros id. unfold getFederateCore, mv_find2. cbn. unfold mv_addTermByName. rewrite Hix.
    rewrite mv_addTerm_index2; [|rewrite Hel, length_app; unfold mv_size; cbn; lia|].
    2:{ by rewrite Hl, mv_insert1_index2. }
    rewrite mv_addTerm_elements, Hel. destruct (decide (id = gid)) as [->|Hne]; cbn.
    { by rewrite lookup_app_r, Nat.sub_diag by (unfold mv_size; lia). }
    rewrite Hl, mv_insert1_index2 by done. destruct (mv_index2 _ id) as [i|] eqn:E; [|done]. cbn.
    rewrite lookup_app_l by (by eapply mv_index2_lt). done.
Qed.

(** ** The exchange *)

Definition join_federation (res : bool) (rounds fuel n : nat) (name : string)
    (info : CoreFederateInfo) s (subs : list CB) root
    : option (CC * list CB * option message_processing_result) :=
  match beginRegistration res rounds name info s with
  | Some (Ok (s1, [Queue m], (p, _))) =>
      match processPriorityCommand le fuel m s1 with
      | Some (Ok (s2, [Transmit _ m], _)) =>
          '(brokers, _, ack) ← register_along le subs root m;
          match processPriorityCommand le fuel ack s2 with
          | Some (Ok (s3, _, _)) =>
              match onFederate p (waitSetup le answer fuel n []) s3 with
              | Some (Ok (s4, _, valid)) => Some (s4, brokers, valid)
              | _ => None
              end
          | _ => None
          end
      | _ => None
      end
  | _ => None
  end.

(** C7. A federate joins the federation: when its core has an identifier and neither the
    core nor a broker on the way to the root knows its name, the registration runs to its
    end, whatever the number of brokers; the call of the federate ends well, the core, the
    federate and its time coordinator have the identifier that the root gave, messages for
    that identifier go to this federate and those for others where they went before, and
    every broker on the way has a route back to the core. *)
Theorem federate_joins res rounds fuel n name info s subs root :
  let gid := fed_id_of (mv_size (federates_ root)) in
  root_reach le root → room 1 root → connectionEstablished root = true →
  brokerState (cb_base root) ≠ bs_operating → mv_find1 (federates_ root) name = None →
  Forall (sub_open name gid) subs → core_open name gid s →
  ∃ s' brokers fed,
    join_federation res rounds (S fuel) (S n) name info s subs root =
      Some (s', brokers, Some next_step) ∧
    all_know name gid (global_broker_id_local (cc_base s)) (subs ++ [root]) brokers ∧
    mv_elements (federates s') = mv_elements (federates s) ++ [fed] ∧
    fs_name fed = name ∧ fs_global_id fed = gid ∧
    tc_source_id (FederateState.timeCoord fed) = gid ∧
    ∀ id, getFederateCore s' id =
      if decide (id = gid) then Some (mv_size (federates s)) else getFederateCore s id.
Proof.
  intros gid Hr Hroom Hc Ho Hk Hsubs Hs.
  destruct (begin_ok res rounds name info gid s Hs) as (s1 & fed & E1 & Hs1 & Hw & Hfr & Hpar).
  destruct (enter_ok name gid (S fuel) fed s s1 Hs Hs1 Hw) as (s2 & E2 & Hs2).
  destruct (registration_through_brokers le subs root ((request name)
      <| source_id := global_broker_id_local (cc_base s) |>)) as (brokers & Eb & Hb); [done..|].
  set (ack := fed_reply root _) in Eb.
  destruct (ack_ok name gid (S fuel) fed ack s s2) as (s3 & E3 & Hf3 & Hg3); try done.
  { rewrite Hs2. apply Hw. }
  { by rewrite Hs2. }
  set (fed3 := addAction (fed <| fs_global_id := gid |>) ack) in Hf3.
  destruct (waitSetup_ack fuel n fed3 ack) as (q & E4 & Hq); try apply Hfr; try done.
  { change (q_list (q_push ack (fs_queue fed)) = [ack]). rewrite q_list_push, (fresh_queue _ _ Hfr). done. }
  { symmetry. apply Hfr. }
  exists (s3 <| federates := mv_alter (λ _, acknowledged q ack fed3) (mv_size (federates s))
                               (federates s3) |>), brokers, (acknowledged q ack fed3).
  split; [|split; [done|split; [|split; [apply Hfr|split; [done|split; [done|exact Hg3]]]]]].
  - unfold join_federation. rewrite E1, E2, Eb. cbn [mbind option_bind]. rewrite E3.
    unfold onFederate. rewrite (eff_bind_ok _ _ s3 s3 fed3).
    2:{ unfold fedAt. rewrite eff_get_bind, Hf3, lookup_app_r by (unfold mv_size; lia).
        unfold mv_size. by rewrite Nat.sub_diag. }
    by rewrite E4.
  - cbn. rewrite mv_alter_elements, Hf3. unfold mv_size.
    by rewrite alter_app_r_alt, Nat.sub_diag.
Qed.
End registration.
