(* ===== verification/CoreLifecycle.v ===== *)
(** * The states that a core goes through (CommonCore.cpp) *)

From S2P Require Import Prelude HelicsTime Ids Flags ActionMessage MessageCodec.
From S2P Require Import Definitions TimeDependencies TimeCoordinator InputInfo Interfaces.
From S2P Require Import InterfaceInfo HandleManager FederateState.
From S2P Require Import ForwardingTimeCoordinator Effects MappedVector BrokerBase BrokerFrame.
From S2P Require Import BrokerState CoreState CommonCore CoreFrame.

(** The phase of a core: the state, all those from the end on being the last phase. *)
Definition phase (st : broker_state_t) : Z :=
  Z.min (broker_state_code st) (broker_state_code bs_terminating).

Section lifecycle.
  Context `{TimeRep} `{SteadyClock} `{TimeMs} `{MappedVectorLaws C} `{DualMapped D}.
  Context `{BlockingQueue Q} `{FilterOperators W} `{LocalAddress}.
  Context `{CoreQueries (FederateState D Q)} (le : bool) (fuel : nat).
  Abbreviation CC := (CommonCore C D Q W).
  Abbreviation M := (effM CC broker_out).
  Implicit Types (s : CC) (m : ActionMessage).

Definition forward s s' : Prop :=
  phase (brokerState (cc_base s)) ≤ phase (brokerState (cc_base s')).

#[local] Instance forward_relation : CoreRelation forward.
Proof.
  split.
  - split; [intros s; unfold forward; lia|]. intros s1 s2 s3. unfold forward. lia.
  - intros s s' [E _ _ _ _]. unfold forward. rewrite E. lia.
  - intros s st Hst. unfold forward. cbn.
    by destruct st, (brokerState (cc_base s)); vm_compute in Hst |- *.
Qed.
Lemma fw_modify (f : CC → CC) :
  (∀ s, cc_base (f s) = cc_base s) → framed forward anything (eff_modify f : M unit).
Proof. intros Hf. apply framed_modify. intros s. unfold forward. rewrite Hf. lia. Qed.
Hint Extern 3 (framed forward anything (eff_modify _)) => by apply fw_modify : core_frame.
Hint Extern 3 (framed forward anything (updateFed _ _)) => by apply fw_modify : core_frame.

(** The state is tested before it is set. *)
Lemma fw_requestInit m : framed forward anything (requestInit le m).
Proof.
  intros s. apply ewp_bind, ewp_bind, ewp_get, ewp_ret, ewp_when; [|intros _; split; [|constructor]].
  2:{ unfold forward. cbn. lia. }
  intros Hst%bool_decide_eq_true. cbn in Hst. apply ewp_bind, ewp_modify.
  match goal with |- ewp ?rest _ _ => assert (framed forward anything rest) as Hf by core_frame end.
  eapply ewp_mono; [apply Hf|]. intros s' out [] [Hfw _]. split; [|by apply Forall_true].
  unfold forward in *. cbn in Hfw. rewrite Hst. etrans; [|exact Hfw]. done.
Qed.
Lemma fw_processInitGrant m : framed forward anything (processInitGrant le m).
Proof.
  intros s. apply ewp_bind, ewp_bind, ewp_get, ewp_ret, ewp_when; [|intros _; split; [|constructor]].
  2:{ unfold forward. cbn. lia. }
  intros Hst%bool_decide_eq_true. cbn in Hst. apply ewp_bind, ewp_modify.
  match goal with |- ewp ?rest _ _ => assert (framed forward anything rest) as Hf by core_frame end.
  eapply ewp_mono; [apply Hf|].
  intros s' out [] [Hfw _]. split; [|by apply Forall_true].
  unfold forward in *. cbn in Hfw. rewrite Hst. etrans; [|exact Hfw]. done.
Qed.

Lemma fw_setOngoing fid f : framed forward anything (setOngoing fid f : M unit).
Proof. unfold setOngoing. core_frame. Qed.
Hint Resolve fw_setOngoing fw_requestInit : core_frame.
Lemma fw_releaseIfDone fid : framed forward anything (releaseIfDone le fid).
Proof. unfold releaseIfDone, transmitDelayedFor. core_frame. Qed.
Hint Resolve fw_releaseIfDone : core_frame.
Lemma fw_sourceFilterLoop fid n filts ii m :
  framed forward anything (sourceFilterLoop le fuel fid n filts ii m).
Proof.
  revert ii m. induction filts as [|p filts IH]; intros ii m; cbn [sourceFilterLoop]; core_frame.
Qed.
Lemma fw_returnLoop fid mid n filts ii m :
  framed forward anything (returnLoop le fid mid n filts ii m).
Proof.
  revert ii m. induction filts as [|p filts IH]; intros ii m; cbn [returnLoop];
    unfold endProcess; core_frame.
Qed.
Hint Resolve fw_sourceFilterLoop fw_returnLoop : core_frame.

#[local] Instance forward_special : SpecialHandlers le fuel forward.
Proof.
  split; [apply fw_requestInit|..|apply fw_processInitGrant| | | | |]; intros m.
  - unfold processInit. core_frame.
  - unfold federateAck. core_frame.
  - unfold enterFederate. core_frame.
  - unfold processMessage. core_frame.
  - unfold processFilterReturn, endProcess. core_frame.
  - intros next Hnext. unfold delayTiming. core_frame.
Qed.

(** C29. The states of a core only go forward: whatever message it processes, it does not
    go back from initialization to the connection, from operation to initialization, or
    from the end to any state before it. *)
Theorem core_lifecycle s m s' out :
  processCommand le fuel m s = Some (Ok (s', out, tt)) ∨
  processPriorityCommand le fuel m s = Some (Ok (s', out, tt)) ∨
  (∃ skip, processDisconnect le skip s = Some (Ok (s', out, tt))) →
  phase (brokerState (cc_base s)) ≤ phase (brokerState (cc_base s')).
Proof.
  intros [E|[E|[skip E]]].
  - by destruct (cf_processCommand le fuel forward m s s' out tt E).
  - by destruct (cf_processPriorityCommand le fuel forward m s s' out tt E).
  - by destruct (cf_processDisconnect le forward skip s s' out tt E).
Qed.
End lifecycle.
