(* ===== verification/CoreValues.v ===== *)
(** * The values that a federate publishes (setValue of CommonCore.cpp)

    A value goes to every subscriber of a publication: as one message to a single
    subscriber, in packages of up to 255 messages to several. *)

From S2P Require Import Prelude HelicsTime Ids Flags ActionMessage MessageCodec CodecFacts.
From S2P Require Import MultiMessage Definitions TimeDependencies TimeCoordinator InputInfo.
From S2P Require Import Interfaces InterfaceInfo HandleManager FederateState.
From S2P Require Import ForwardingTimeCoordinator Effects MappedVector BrokerBase BrokerLoop.
From S2P Require Import BrokerState CoreState CommonCore CoreApi.

(** The messages that a message of the queue stands for. *)
Definition unpacked `{TimeRep} (le : bool) (m : ActionMessage) : outcome (list ActionMessage) :=
  if bool_decide (action m = cmd_multi_message)
  then mapM (λ part, from_string le (bytes_of_string part) defaultMessage) (partStrings m)
  else Ok [m].
Fixpoint unpackedAll `{TimeRep} (le : bool) (ms : list ActionMessage)
    : outcome (list ActionMessage) :=
  match ms with
  | [] => Ok []
  | m :: ms => parts ← unpacked le m; rest ← unpackedAll le ms; Ok (parts ++ rest)
  end.

Section values.
  Context `{TimeRep} `{SteadyClock} `{TimeMs} `{UnitsLib} `{Fmt} `{MappedVectorLaws C}.
  Context `{DualMapped D} `{BlockingQueue Q} `{FilterOperators W} `{LocalAddress} (le : bool).
  Abbreviation CC := (CommonCore C D Q W).
  Abbreviation M := (effM CC broker_out).
  Implicit Types (s : CC) (hi : BasicHandleInfo) (mv : ActionMessage).

(** A package with the messages [ms]. *)
Definition package_of hi (hid : interface_handle) (ms : list ActionMessage) : ActionMessage :=
  (emptyPackage hi hid) <| counter := Z.of_nat (length ms) |>
    <| stringData := (λ m, string_of_bytes (encode le m)) <$> ms |>.

Lemma package_of_ok hi hid ms : multi_ok (package_of hi hid ms).
Proof. split; [done|]. cbn. by rewrite length_fmap. Qed.
Lemma package_of_snoc hi hid ms m :
  message_wf m → (length ms < 255)%nat →
  appendMessage le (package_of hi hid ms) m =
    Ok (Z.of_nat (length ms) + 1, package_of hi hid (ms ++ [m])).
Proof.
  intros Hwf Hl. rewrite appendMessage_part; [|apply package_of_ok|cbn; lia|done].
  f_equal. unfold package_of, with_part. cbn. by rewrite fmap_app, length_app, Nat2Z.inj_add.
Qed.
Lemma package_of_full hi hid ms m :
  length ms = 255%nat → appendMessage le (package_of hi hid ms) m = Ok (-1, package_of hi hid ms).
Proof. intros Hl. apply appendMessage_full; [apply package_of_ok|]. cbn. lia. Qed.

(** What a message of a publication loses in the byte format: nothing. *)
Definition plain_value mv : Prop :=
  message_wf mv ∧ is_time_request mv = false ∧
  Te mv = timeZero ∧ Tdemin mv = timeZero ∧ Tso mv = timeZero.
Lemma received_value mv : plain_value mv → received le le defaultMessage mv = mv.
Proof.
  intros (_ & Ht & HTe & HTd & HTs). unfold received. rewrite eqb_reflx, Ht.
  destruct mv as [a mid src srch dst dsth cnt fl sq t pl te td ts sd]; cbn in *.
  subst. f_equal. by destruct (String.eqb_spec pl "") as [->|].
Qed.

Lemma unpacked_package hi hid ms :
  Forall plain_value ms → (length ms ≤ 255)%nat →
  unpacked le (package_of hi hid ms) = Ok ms.
Proof.
  intros Hms Hl. unfold unpacked. rewrite bool_decide_true by done.
  rewrite partStrings_all by (cbn; by rewrite length_fmap). cbn [stringData package_of upd].
  change (stringData (package_of hi hid ms))
    with ((λ m, string_of_bytes (encode le m)) <$> ms).
  induction Hms as [|m ms Hm _ IH]; [done|]. cbn [fmap list_fmap mapM].
  rewrite bytes_of_string_of_bytes by (apply encode_byte, Hm).
  rewrite from_string_encode by apply Hm. rewrite received_value by done.
  cbn [mbind outcome_bind]. cbn in Hl. change (list_fmap _ _ _ ms) with
    ((λ m, string_of_bytes (encode le m)) <$> ms). rewrite IH by lia. done.
Qed.

(** The packages of the values: they stand for the values in the order of the
    subscribers. *)
Lemma packageValues_spec hi hid mv subs : ∀ ms s,
  Forall plain_value ms → (length ms ≤ 255)%nat →
  Forall (λ sub, plain_value (setDestination mv sub)) subs →
  ∃ ps, packageValues le hi hid mv subs (package_of hi hid ms) s =
          Some (Ok (s, Queue <$> ps, tt)) ∧
        unpackedAll le ps = Ok (ms ++ (setDestination mv <$> subs)).
Proof.
  revert mv. induction subs as [|sub subs IH]; intros mv ms s Hms Hl Hsubs.
  { exists [package_of hi hid ms]. split; [done|]. cbn [unpackedAll].
    rewrite unpacked_package by done. cbn. by rewrite !app_nil_r. }
  apply Forall_cons in Hsubs as [Hsub Hsubs]. cbn [packageValues].
  assert (setDestination (setDestination mv sub) = setDestination mv) as Hset by done.
  destruct (decide (length ms = 255%nat)) as [Hfull|Hpart].
  - rewrite (eff_bind_ok _ _ s s (-1, package_of hi hid ms))
      by (by rewrite package_of_full). cbn [Z.ltb Z.compare].
    destruct (IH (setDestination mv sub) [setDestination mv sub] s) as (ps & R & Hps);
      [by constructor|cbn; lia|by rewrite Hset|].
    exists (package_of hi hid ms :: ps). split.
    + apply eff_emit_ok.
      rewrite (eff_bind_ok _ _ s s (1, package_of hi hid [setDestination mv sub])).
      * by rewrite R.
      * change (emptyPackage hi hid) with (package_of hi hid []).
        rewrite package_of_snoc by (first [apply Hsub|cbn; lia]). done.
    + cbn [unpackedAll]. rewrite unpacked_package, Hps by done. by rewrite Hset.
  - rewrite (eff_bind_ok _ _ s s
      (Z.of_nat (length ms) + 1, package_of hi hid (ms ++ [setDestination mv sub])))
      by (by rewrite package_of_snoc by (first [apply Hsub|lia])).
    rewrite (proj2 (Z.ltb_ge _ _)) by lia.
    destruct (IH (setDestination mv sub) (ms ++ [setDestination mv sub]) s) as (ps & R & Hps);
      [by apply Forall_app_2; [|constructor]|rewrite length_app; cbn; lia|by rewrite Hset|].
    exists ps. split; [done|]. by rewrite Hps, Hset, <- app_assoc.
Qed.

(** The call for a publication that is in use. *)
Lemma setValue_run s hid data hi p fed fed' changed :
  getHandleInfo (cc_handles s) hid = Some hi → handleType hi = ht_publication →
  checkActionFlag hi disconnected_flag = false → used hi = true →
  getFederateAt s (local_fed_id hi) = Some p → mv_elements (federates s) !! p = Some fed →
  checkAndSetValue fed hid data = Ok (fed', changed) →
  setValue le hid data s =
    (if negb changed then mret tt
     else
       let mv := valueMessage fed' hi hid data in
       match getSubscribers fed' hid with
       | [] => mret tt
       | [sub] => addActionMessage (setDestination mv sub)
       | subs => packageValues le hi hid mv subs (emptyPackage hi hid)
       end) (s <| federates := mv_alter (λ _, fed') p (federates s) |>).
Proof.
  intros Hhi Hty Hdis Hused Hp Hfed Hval.
  unfold setValue, handleOf. rewrite (eff_bind_ok _ _ s s hi) by (cbn; by rewrite eff_get_bind, Hhi).
  rewrite bool_decide_true, Hdis, Hused by done. cbn [negb].
  unfold ownerOf, fedAt, updateFed.
  rewrite (eff_bind_ok _ _ s s p) by (by rewrite eff_get_bind, Hp).
  rewrite (eff_bind_ok _ _ s s fed) by (by rewrite eff_get_bind, Hfed).
  rewrite (eff_bind_ok _ _ s s (fed', changed)) by (by rewrite Hval).
  by rewrite eff_modify_bind.
Qed.

(** C10. Publishing a value reaches every subscriber: for a publication that is in use,
    with a value that is to be sent, [setValue] queues messages that stand for exactly
    one message with the value for each subscriber of the publication, in the order of
    the subscribers, however many packages of messages that takes. *)
Theorem setValue_reaches s hid data hi p fed fed' :
  getHandleInfo (cc_handles s) hid = Some hi → handleType hi = ht_publication →
  checkActionFlag hi disconnected_flag = false → used hi = true →
  getFederateAt s (local_fed_id hi) = Some p → mv_elements (federates s) !! p = Some fed →
  checkAndSetValue fed hid data = Ok (fed', true) →
  Forall (λ sub, message_wf (setDestination (valueMessage fed' hi hid data) sub))
    (getSubscribers fed' hid) →
  ∃ s' ms, setValue le hid data s = Some (Ok (s', Queue <$> ms, tt)) ∧
    unpackedAll le ms =
      Ok (setDestination (valueMessage fed' hi hid data) <$> getSubscribers fed' hid).
Proof.
  intros Hhi Hty Hdis Hused Hp Hfed Hval Hwf. set (mv := valueMessage fed' hi hid data) in *.
  exists (s <| federates := mv_alter (λ _, fed') p (federates s) |>).
  set (s' := s <| federates := mv_alter (λ _, fed') p (federates s) |>).
  assert (Forall (λ sub, plain_value (setDestination mv sub)) (getSubscribers fed' hid)) as Hpl
    by (by eapply Forall_impl; [exact Hwf|]; intros sub Hsub).
  rewrite (setValue_run s hid data hi p fed fed' true) by done. cbn [negb]. fold mv s'.
  destruct (getSubscribers fed' hid) as [|sub [|sub' subs]] eqn:Hsubs.
  - by exists [].
  - exists [setDestination mv sub]. done.
  - destruct (packageValues_spec hi hid mv (sub :: sub' :: subs) [] s') as (ps & R & Hps);
      [done|cbn; lia|done|]. by exists ps.
Qed.
End values.
