(* ===== verification/CoreExamples.v ===== *)
(** * A core from its connection to a message at a filter

    The parameters of the model of a core instantiated by concrete ones, a run of a core
    with one federate below the brokers of BrokerExamples.v, and the properties of the core
    at the states of the run. *)

From stdpp Require Import strings.
From S2P Require Import Prelude HelicsTime Ids Flags ActionMessage MessageCodec CodecFacts.
From S2P Require Import Definitions TimeDependencies TimeCoordinator InputInfo Interfaces.
From S2P Require Import InterfaceInfo HandleManager UnknownHandles FederateState.
From S2P Require Import FederateExamples ForwardingTimeCoordinator Effects MappedVector.
From S2P Require Import BrokerBase BrokerState CoreBroker BrokerRegistry BrokerTree.
From S2P Require Import BrokerExamples CoreState CommonCore CoreApi CoreFrame CoreTiming.
From S2P Require Import CoreInit CoreFilters CoreRegistration CoreLifecycle CoreValues.

(** ** Instances *)

(** Operators that hand on the message they get. *)
#[export] Instance plain_operators : FilterOperators unit := {|
  op_process op message w := (w, Some message);
  op_processVector op message w := (w, [Some message]);
  op_null := 0%nat;
|}.
#[export] Instance sample_address : LocalAddress := "here".
#[export] Instance sample_queries : CoreQueries sample_state := {|
  versionString := "2.6"; federateAnswer fed query := "#invalid";
|}.

Abbreviation sample_core := (CommonCore mvec listed (list ActionMessage) unit).
Abbreviation no_info := (mkCoreFederateInfo [] [] []).

(** The state a call leaves. *)
Definition core_after {A} (m : effM sample_core broker_out A) (s : sample_core) : sample_core :=
  match m s with Some (Ok (s', _, _)) => s' | _ => s end.

(** ** A run *)

Definition core_new_state : sample_core :=
  let s := newCommonCore "core" tt in
  s <| cc_base := (cc_base s) <| brokerState := bs_configured |> |>.
Definition core_connected : sample_core := core_after (connect true) core_new_state.
(** The broker that the core is below has the first identifier, the core the second. *)
Definition core_ack : ActionMessage :=
  (newMessageTo cmd_broker_ack (broker_id_of 0) (broker_id_of 1)) <| payload := "core" |>.
Definition core_ready : sample_core :=
  core_after (processPriorityCommand false 1 core_ack) core_connected.

Lemma federate_joins_witness :
  ∃ s' brokers fed,
    join_federation false no_answer true 0 2 1 "fed" no_info core_ready [sub_ready] root_with_sub
      = Some (s', brokers, Some next_step) ∧
    mv_elements (federates s') = [fed] ∧ fs_global_id fed = fed_id_of 0.
Proof.
  destruct (federate_joins false no_answer true 0 1 0 "fed" no_info core_ready [sub_ready]
    root_with_sub) as (s' & brokers & fed & E & _ & Hf & _ & Hg & _).
  - exact reach_sub.
  - vm_compute. done.
  - vm_compute. done.
  - vm_compute. done.
  - vm_compute. done.
  - repeat constructor; vm_compute; done.
  - repeat constructor; vm_compute; done.
  - exists s', brokers, fed. split; [exact E|]. split; [exact Hf|exact Hg].
Defined.

Definition core_with_fed : sample_core :=
  match join_federation false no_answer true 0 2 1 "fed" no_info core_ready [sub_ready]
          root_with_sub with
  | Some (s, _, _) => s
  | None => core_ready
  end.

(** The federate asks for initialization. *)
Definition fed_asks : ActionMessage :=
  newMessageTo cmd_init (fed_id_of 0) parent_broker_id.


Lemma core_lifecycle_witness :
  ∃ s' out, processCommand false 1 fed_asks core_with_fed = Some (Ok (s', out, tt)) ∧
    phase (brokerState (cc_base core_with_fed)) ≤ phase (brokerState (cc_base s')).
Proof.
  eexists _, _. split; [vm_compute; reflexivity|].
  eapply (core_lifecycle false 1 core_with_fed fed_asks). left. vm_compute. reflexivity.
Defined.

(** An endpoint with two filters of other cores; the federation is initialized, and the
    federate sends a message, which the core sends to the first filter. *)
Definition ept_registered : ActionMessage :=
  (newMessage cmd_reg_end) <| source_id := fed_id_of 0 |> <| source_handle := 0 |>
    <| payload := "ept" |>.
Definition filter_added (core : nat) : ActionMessage :=
  setSource (setDestination (newMessage cmd_add_filter) (GlobalHandle (fed_id_of 0) 0))
    (GlobalHandle (broker_id_of core) 0).
Definition message_sent : ActionMessage :=
  setStringData ((newMessage cmd_send_message) <| messageID := 55 |>
    <| source_id := fed_id_of 0 |> <| source_handle := 0 |> <| payload := "data" |>)
    ["other"; "ept"; "ept"].
Definition run_commands (ms : list ActionMessage) : sample_core → sample_core :=
  core_after (eff_each (processCommand false 2) ms).
Definition core_with_ept : sample_core :=
  core_after (registerEndpoint 0 "ept" "") core_with_fed.
Definition core_commands : list ActionMessage :=
  [ept_registered; filter_added 2; filter_added 3; fed_asks;
   newMessageTo cmd_init_grant (broker_id_of 0) (broker_id_of 1); message_sent].
Definition core_waiting : sample_core := run_commands core_commands core_with_ept.

Definition fed_requests : ActionMessage :=
  (newMessageTo cmd_time_request (fed_id_of 0) parent_broker_id)
    <| actionTime := 1000000000 |>.

Lemma reach_waiting : core_reachable false 2 core_waiting.
Proof.
  destruct (eff_each (processCommand false 2) core_commands core_with_ept)
    as [[[[s out] []]| |]|] eqn:E; try (vm_compute in E; done).
  assert (core_waiting = s) as ->. { unfold core_waiting, run_commands, core_after. by rewrite E. }
  eapply reachable_run; [|exact E].
  eapply core_call; [apply (core_new _ _ "core" tt)|]. split; vm_compute; reflexivity.
Qed.


(** A publication with two subscribers. *)
Definition sample_pub : BasicHandleInfo :=
  (newHandleInfo (fed_id_of 0) 0 ht_publication "pub" "double" "V")
    <| local_fed_id := 0 |> <| used := true |>.
Definition two_subscribers : list global_handle :=
  [GlobalHandle (fed_id_of 1) 3; GlobalHandle (fed_id_of 2) 4].
Definition fed_publishing : sample_state :=
  on_publications (dm_alter2 (λ pub, pub <| subscribers := two_subscribers |>) 0)
    (createInterface fed_acknowledged ht_publication 0 "pub" "double" "V").
Definition core_publishing : sample_core :=
  core_with_fed <| federates := mv_alter (λ _, fed_publishing) 0 (federates core_with_fed) |>
    <| cc_handles := addHandleAtIndex (cc_handles core_with_fed) sample_pub 0 |>.

Lemma setValue_reaches_witness :
  ∃ s' ms, setValue false 0 "1.5" core_publishing = Some (Ok (s', Queue <$> ms, tt)) ∧
    unpackedAll false ms =
      Ok (setDestination (valueMessage fed_publishing sample_pub 0 "1.5") <$> two_subscribers).
Proof.
  destruct (setValue_reaches false core_publishing 0 "1.5" sample_pub 0 fed_publishing
    fed_publishing) as (s' & ms & E & Hu).
  - vm_compute. reflexivity.
  - reflexivity.
  - vm_compute. reflexivity.
  - reflexivity.
  - vm_compute. reflexivity.
  - vm_compute. reflexivity.
  - vm_compute. reflexivity.
  - repeat constructor; vm_compute; done.
  - exists s', ms. split; [exact E|]. rewrite Hu. vm_compute. reflexivity.
Defined.

(** Operators that drop every message, and an endpoint with a filter of its core. *)
#[local] Instance dropping : FilterOperators unit := {|
  op_process op message w := (w, None); op_processVector op message w := (w, []);
  op_null := 0%nat;
|}.
Definition local_filter : FilterInfo :=
  (newFilterInfo (broker_id_of 1) 9 "drop" "" "" true) <| filterOp := Some 0%nat |>.
Definition core_filtering : sample_core :=
  core_waiting <| loopHandles := alterHandle (λ hi, setActionFlag hi has_dest_filter_flag) 0
                                   (loopHandles core_waiting) |>
    <| filterCoord := {[0 := newFilterCoordinator <| destFilter := Some 1%positive |>]} |>
    <| filterStore := {[1%positive := local_filter]} |>.
Definition message_for_ept : ActionMessage :=
  setStringData ((newMessage cmd_send_message) <| payload := "data" |>) ["ept"; "other"; "other"].

Lemma dest_filter_drop_witness :
  ∃ localP, filtered_here core_filtering message_for_ept localP local_filter 0 ∧
    deliverMessage false 1 message_for_ept core_filtering = Some Fault.
Proof.
  assert (∃ localP, filtered_here core_filtering message_for_ept localP local_filter 0)
    as [localP Hh].
  { eexists. split; [vm_compute; reflexivity|vm_compute; reflexivity| |vm_compute; reflexivity..].
    eexists _, 1%positive. split; [vm_compute; reflexivity|]. split; vm_compute; reflexivity. }
  exists localP. split; [exact Hh|].
  apply (dest_filter_drop false 0 core_filtering message_for_ept localP local_filter 0);
    [reflexivity|exact Hh|vm_compute; reflexivity].
Defined.
