(* ===== verification/NetworkAddress.v ===== *)
(** * Network addresses (src/src/helics/network/NetworkBrokerData.hpp, NetworkBrokerData.cpp)

    An address is a text [protocol://interface:port].  This file has the functions that
    put addresses together and take them apart, the choice of the local address that fits
    a server, and the data that a broker or a core learns from its command line.

    The resolver of the operating system and the list of its network interfaces are the
    class [NetworkEnvironment]; the parser of the command line (CLI11) is represented by
    the calls it makes, and the look up of a broker in the factory is an argument. *)

From Stdlib Require Import Ascii.
From stdpp Require Import strings pretty.
From S2P Require Import Prelude.

(** ** Functions of [std::string] *)

(** [s.substr(0, n)] *)
Fixpoint str_take (n : nat) (s : string) : string :=
  match n, s with
  | S n, String c s => String c (str_take n s)
  | _, _ => EmptyString
  end.
(** [s.substr(n)] for [n <= s.size()] *)
Fixpoint str_drop (n : nat) (s : string) : string :=
  match n, s with
  | S n, String _ s => str_drop n s
  | _, _ => s
  end.
(** [s.find_last_of(c)] *)
Fixpoint find_last_of (c : Ascii.ascii) (s : string) : option nat :=
  match s with
  | EmptyString => None
  | String a s =>
      match find_last_of c s with
      | Some n => Some (S n)
      | None => if Ascii.eqb a c then Some O else None
      end
  end.
(** [s.find(t)] *)
Definition str_find (t s : string) : option nat := String.index 0 t s.
(** [std::count(s.begin(), s.end(), c)] *)
Fixpoint str_count (c : Ascii.ascii) (s : string) : Z :=
  match s with
  | EmptyString => 0
  | String a s => (if Ascii.eqb a c then 1 else 0) + str_count c s
  end.
(** [s.compare(pos, len, t) == 0], which throws when [pos] is behind the end. *)
Definition str_compare_at (pos len : nat) (t s : string) : outcome bool :=
  if (String.length s <? pos)%nat then Throw "basic_string::compare"
  else Ok (String.eqb (str_take len (str_drop pos s)) t).

Inductive stoi_result :=
  | stoi_value (v : Z)
  | stoi_invalid_argument
  | stoi_out_of_range.

Definition digit_value (c : Ascii.ascii) : option Z :=
  let n := Z.of_N (Ascii.N_of_ascii c) in
  if (48 <=? n) && (n <=? 57) then Some (n - 48) else None.
(** The value of the digits at the start of a text. *)
Fixpoint digits (acc : Z) (s : string) : Z :=
  match s with
  | String c s' =>
      match digit_value c with
      | Some d => digits (10 * acc + d) s'
      | None => acc
      end
  | EmptyString => acc
  end.
Definition isspace (c : Ascii.ascii) : bool :=
  let n := Z.of_N (Ascii.N_of_ascii c) in (n =? 32) || ((9 <=? n) && (n <=? 13)).
Fixpoint skip_space (s : string) : string :=
  match s with
  | String c s' => if isspace c then skip_space s' else s
  | EmptyString => s
  end.
(** The optional sign: the factor and the rest. *)
Definition stoi_sign (s : string) : Z * string :=
  match s with
  | String "-"%char s' => (-1, s')
  | String "+"%char s' => (1, s')
  | _ => (1, s)
  end.
(** [std::stoi]: characters behind the number are ignored. *)
Definition stoi (s : string) : stoi_result :=
  let '(sign, s) := stoi_sign (skip_space s) in
  match s with
  | String c _ =>
      match digit_value c with
      | Some _ =>
          let v := sign * digits 0 s in
          if bool_decide (sint_range 32 v) then stoi_value v else stoi_out_of_range
      | None => stoi_invalid_argument
      end
  | EmptyString => stoi_invalid_argument
  end.

(** ** Addresses *)

(** [enum class interface_networks] *)
Inductive interface_networks := net_local | net_ipv4 | net_ipv6 | net_all.
(** [enum class interface_type] *)
Inductive interface_type := it_tcp | it_udp | it_ip | it_ipc | it_inproc.

Definition makePortAddress (networkInterface : string) (portNumber : Z) : string :=
  if 0 <=? portNumber then networkInterface +:+ ":" +:+ pretty portNumber
  else networkInterface.

(** Only the exception [std::invalid_argument] is caught. *)
Definition extractInterfaceandPort (address : string) : outcome (string * Z) :=
  match find_last_of ":"%char address with
  | None => Ok (address, -1)
  | Some lastColon =>
      match str_drop (lastColon + 1) address with
      | EmptyString => Ok (address, -1)
      | String c _ as rest =>
          if Ascii.eqb c "/"%char then Ok (address, -1)
          else match stoi rest with
               | stoi_value v => Ok (str_take lastColon address, v)
               | stoi_invalid_argument => Ok (address, -1)
               | stoi_out_of_range => Throw "stoi"
               end
      end
  end.

(** Without a colon the position is [npos], and [npos + 1] is 0. *)
Definition extractInterfaceandPortString (address : string) : string * string :=
  match find_last_of ":"%char address with
  | Some lastColon => (str_take lastColon address, str_drop (lastColon + 1) address)
  | None => (address, address)
  end.

Definition stripProtocol (networkAddress : string) : string :=
  match str_find "://" networkAddress with
  | Some loc => str_drop (loc + 3) networkAddress
  | None => networkAddress
  end.
(** [removeProtocol] assigns the result of the same operation to its argument. *)
Definition removeProtocol (networkAddress : string) : string :=
  match str_find "://" networkAddress with
  | Some loc => str_drop (loc + 3) networkAddress
  | None => networkAddress
  end.

Definition addProtocol (networkAddress : string) (interfaceT : interface_type) : string :=
  match str_find "://" networkAddress with
  | None =>
      match interfaceT with
      | it_ip | it_tcp => "tcp://" +:+ networkAddress
      | it_ipc => "ipc://" +:+ networkAddress
      | it_udp => "udp://" +:+ networkAddress
      | it_inproc => "inproc://" +:+ networkAddress
      end
  | Some _ => networkAddress
  end.
(** [insertProtocol] changes its argument in place. *)
Definition insertProtocol (networkAddress : string) (interfaceT : interface_type) : string :=
  match str_find "://" networkAddress with
  | None =>
      match interfaceT with
      | it_ip | it_tcp => "tcp://" +:+ networkAddress
      | it_ipc => "ipc://" +:+ networkAddress
      | it_udp => "udp://" +:+ networkAddress
      | it_inproc => "inproc://" +:+ networkAddress
      end
  | Some _ => networkAddress
  end.

Definition isipv6 (address : string) : bool :=
  if 2 <? str_count ":"%char address then true
  else if bool_decide (is_Some (str_find "[" address)) then true
  else String.eqb (str_take 2 address) "::".

(** ** The local address that fits a server

    This part is the build with asio. *)

(** [resolve_v4], [resolve_v6]: the addresses of a host, [None] for an error;
    [host_name]: [asio::ip::host_name]; the last two: [gmlc::netif]. *)
Class NetworkEnvironment := {
  resolve_v4 : string → option (list string);
  resolve_v6 : string → option (list string);
  host_name : string;
  getInterfaceAddressesV4 : list string;
  getInterfaceAddressesV6 : list string;
}.

Definition vec_contains (x : string) (l : list string) : bool := existsb (String.eqb x) l.

Definition prioritizeExternalAddresses (high low : list string) : list string :=
  let step1 result r_addr :=
    if vec_contains r_addr high then result ++ [r_addr] else result in
  let step2 result i_addr :=
    if vec_contains i_addr result then result else result ++ [i_addr] in
  let step3 result r_addr :=
    if vec_contains r_addr low then result else result ++ [r_addr] in
  foldl step3 (foldl step2 (foldl step1 [] low) high) low.

Fixpoint matchcount (s1 s2 : string) : Z :=
  match s1, s2 with
  | String a s1, String b s2 => if Ascii.eqb a b then 1 + matchcount s1 s2 else 0
  | _, _ => 0
  end.

(** The loop that takes the first address that is neither a loopback nor a link-local
    one, and otherwise the first link-local one ([link_local_addr]). *)
Fixpoint pickInterface (loopback link_local : string → bool) (link_local_addr : string)
    (addrs : list string) : option string * string :=
  match addrs with
  | [] => (None, link_local_addr)
  | addr :: addrs =>
      if loopback addr then pickInterface loopback link_local link_local_addr addrs
      else if negb (link_local addr) then (Some addr, link_local_addr)
      else pickInterface loopback link_local
             (if String.eqb link_local_addr "" then addr else link_local_addr) addrs
  end.
Definition chooseInterface (loopback link_local : string → bool) (resolved : string)
    (addrs : list string) : string :=
  if vec_contains resolved addrs then resolved
  else match pickInterface loopback link_local "" addrs with
       | (Some addr, _) => addr
       | (None, link_local_addr) =>
           if String.eqb link_local_addr "" then resolved else link_local_addr
       end.

(** Dereferencing the iterator that a resolver returned. *)
Definition deref_resolved (l : list string) : outcome string :=
  match l with a :: _ => Ok a | [] => Fault end.

(** The loop over the candidates, the first of which is taken unless another matches
    the server in more characters, and in at least 7. *)
Definition bestMatch (sstring : string) (candidate_addresses : list string)
    : outcome string :=
  match candidate_addresses with
  | [] => Fault
  | def :: _ =>
      let step acc ndef :=
        let mcnt := matchcount sstring ndef in
        if (acc.2 <? mcnt) && (7 <=? mcnt) then (ndef, mcnt) else acc in
      Ok (foldl step (def, matchcount sstring def) candidate_addresses).1
  end.

Section environment.
  Context `{NetworkEnvironment}.

Definition getLocalExternalAddressV4_any : outcome string :=
  resolved_address ←
    match resolve_v4 host_name with
    | Some l => deref_resolved l
    | None => Ok ""
    end;
  match getInterfaceAddressesV4 with
  | [] => Ok (if String.eqb resolved_address "" then "0.0.0.0" else resolved_address)
  | addrs => Ok (chooseInterface (String.prefix "127.") (String.prefix "169.254.")
                   resolved_address addrs)
  end.

Definition getLocalExternalAddressV4 (server : string) : outcome string :=
  match resolve_v4 server with
  | None => getLocalExternalAddressV4_any
  | Some it_server =>
      sstring ← deref_resolved it_server;
      match resolve_v4 host_name with
      | None => getLocalExternalAddressV4_any
      | Some resolved_addresses =>
          bestMatch sstring
            (prioritizeExternalAddresses getInterfaceAddressesV4 resolved_addresses)
      end
  end.

(** The version 6 functions call the resolver without an error code: it throws. *)
Definition getLocalExternalAddressV6_any : outcome string :=
  it ← match resolve_v6 host_name with Some l => Ok l | None => Throw "resolve" end;
  resolved_address ← deref_resolved it;
  match getInterfaceAddressesV6 with
  | [] => Ok resolved_address
  | addrs => Ok (chooseInterface (String.eqb "::1") (String.prefix "fe80:")
                   resolved_address addrs)
  end.

Definition getLocalExternalAddressV6 (server : string) : outcome string :=
  it_server ← match resolve_v6 server with Some l => Ok l | None => Throw "resolve" end;
  sstring ← deref_resolved it_server;
  it ← match resolve_v6 host_name with Some l => Ok l | None => Throw "resolve" end;
  bestMatch sstring (prioritizeExternalAddresses getInterfaceAddressesV6 it).

Definition getLocalExternalAddress (server : string) : outcome string :=
  if isipv6 server then getLocalExternalAddressV6 server
  else getLocalExternalAddressV4 server.

Definition generateMatchingInterfaceAddress (server : string) (network : interface_networks)
    : outcome string :=
  match network with
  | net_local =>
      if String.eqb server "" then Ok "tcp://127.0.0.1" else getLocalExternalAddress server
  | net_ipv4 =>
      if String.eqb server "" then Ok "tcp://*" else getLocalExternalAddressV4 server
  | net_ipv6 =>
      if String.eqb server "" then Ok "tcp://*" else getLocalExternalAddressV6 server
  | net_all =>
      if String.eqb server "" then Ok "tcp://*" else getLocalExternalAddress server
  end.
End environment.

(** ** The data from the command line *)

(** [enum class server_mode_options] *)
Inductive server_mode_options :=
  | sm_unspecified
  | sm_server_default_active
  | sm_server_default_deactivated
  | sm_server_active
  | sm_server_deactivated.

(** [class NetworkBrokerData] *)
Record NetworkBrokerData := mkNetworkBrokerData {
  nd_brokerName : string;
  nd_brokerAddress : string;
  nd_localInterface : string;
  nd_brokerInitString : string;
  nd_portNumber : Z;
  nd_brokerPort : Z;
  nd_portStart : Z;
  nd_maxMessageSize : Z;
  nd_maxMessageCount : Z;
  nd_maxRetries : Z;
  nd_interfaceNetwork : interface_networks;
  nd_reuse_address : bool;
  nd_use_os_port : bool;
  nd_autobroker : bool;
  nd_appendNameToAddress : bool;
  nd_noAckConnection : bool;
  nd_server_mode : server_mode_options;
  nd_allowedType : interface_type;
}.

#[export] Instance eta_NetworkBrokerData : Eta NetworkBrokerData := λ d,
  mkNetworkBrokerData (nd_brokerName d) (nd_brokerAddress d) (nd_localInterface d)
    (nd_brokerInitString d) (nd_portNumber d) (nd_brokerPort d) (nd_portStart d)
    (nd_maxMessageSize d) (nd_maxMessageCount d) (nd_maxRetries d) (nd_interfaceNetwork d)
    (nd_reuse_address d) (nd_use_os_port d) (nd_autobroker d) (nd_appendNameToAddress d)
    (nd_noAckConnection d) (nd_server_mode d) (nd_allowedType d).

(** The member initialisers. *)
Definition newNetworkBrokerData (type : interface_type) : NetworkBrokerData := {|
  nd_brokerName := ""; nd_brokerAddress := ""; nd_localInterface := "";
  nd_brokerInitString := ""; nd_portNumber := -1; nd_brokerPort := -1; nd_portStart := -1;
  nd_maxMessageSize := 16 * 256; nd_maxMessageCount := 256; nd_maxRetries := 5;
  nd_interfaceNetwork := net_local; nd_reuse_address := false; nd_use_os_port := false;
  nd_autobroker := false; nd_appendNameToAddress := false; nd_noAckConnection := false;
  nd_server_mode := sm_unspecified; nd_allowedType := type |}.

(** A local address with its protocol replaced, for a protocol of three letters. *)
Definition withProtocol (protocol localAddress : string) : outcome string :=
  has ← str_compare_at 3 3 "://" localAddress;
  Ok (protocol +:+ if has : bool then str_drop 6 localAddress else localAddress).

Definition checkAndUpdateBrokerAddress (localAddress : string) (d : NetworkBrokerData)
    : outcome NetworkBrokerData :=
  let addr := nd_brokerAddress d in
  match nd_allowedType d with
  | it_tcp =>
      Ok (if String.eqb addr "tcp://*" || String.eqb addr "*" || String.eqb addr "tcp"
          then d <| nd_brokerAddress := localAddress |> else d)
  | it_udp =>
      Ok (if String.eqb addr "udp://*" || String.eqb addr "*" || String.eqb addr "udp"
          then d <| nd_brokerAddress := localAddress |> else d)
  | it_ip =>
      if String.eqb addr "udp://*" || String.eqb addr "udp" then
        a ← withProtocol "udp://" localAddress; Ok (d <| nd_brokerAddress := a |>)
      else if String.eqb addr "tcp://*" || String.eqb addr "tcp" then
        a ← withProtocol "tcp://" localAddress; Ok (d <| nd_brokerAddress := a |>)
      else Ok (if String.eqb addr "*" then d <| nd_brokerAddress := localAddress |> else d)
  | it_ipc | it_inproc =>
      Ok (if String.eqb addr "" && negb (String.eqb localAddress "")
          then d <| nd_brokerAddress := localAddress |> else d)
  end.

(** The assignments of [--brokeraddress] and, without an address so far, of [--broker]. *)
Definition loadBrokerAddress (localAddress addr : string) (d : NetworkBrokerData)
    : outcome NetworkBrokerData :=
  brkprt ← extractInterfaceandPort addr;
  checkAndUpdateBrokerAddress localAddress
    (d <| nd_brokerAddress := brkprt.1 |> <| nd_brokerPort := brkprt.2 |>).

(** What the parser calls, with the values it has converted. *)
Inductive netOption :=
  | opt_network (n : interface_networks)
  | opt_brokeraddress (addr : string)
  | opt_reuse_address (v : bool)
  | opt_noack (v : bool)
  | opt_broker (addr : string)
  | opt_brokername (v : string)
  | opt_maxsize (v : Z)
  | opt_maxcount (v : Z)
  | opt_networkretries (v : Z)
  | opt_use_os_port (v : bool)
  | opt_autobroker (v : bool)
  | opt_brokerinit (v : string)
  | opt_server (val : Z)
  | opt_interface (addr : string)
  | opt_port (v : Z)
  | opt_brokerport (v : Z)
  | opt_localport (port : Z)
  | opt_portstart (v : Z).

(** The effect of one option; [findBroker] gives the address of a broker with a name. *)
Definition applyNetOption (findBroker : string → option string) (localAddress : string)
    (opt : netOption) (d : NetworkBrokerData) : outcome NetworkBrokerData :=
  match opt with
  | opt_network n => Ok (d <| nd_interfaceNetwork := n |>)
  | opt_brokeraddress addr => loadBrokerAddress localAddress addr d
  | opt_reuse_address v => Ok (d <| nd_reuse_address := v |>)
  | opt_noack v => Ok (d <| nd_noAckConnection := v |>)
  | opt_broker addr =>
      let addr := default addr (findBroker addr) in
      if String.eqb (nd_brokerAddress d) "" then loadBrokerAddress localAddress addr d
      else Ok (d <| nd_brokerName := addr |>)
  | opt_brokername v => Ok (d <| nd_brokerName := v |>)
  | opt_maxsize v => Ok (d <| nd_maxMessageSize := v |>)
  | opt_maxcount v => Ok (d <| nd_maxMessageCount := v |>)
  | opt_networkretries v => Ok (d <| nd_maxRetries := v |>)
  | opt_use_os_port v => Ok (d <| nd_use_os_port := v |>)
  | opt_autobroker v => Ok (d <| nd_autobroker := v |>)
  | opt_brokerinit v => Ok (d <| nd_brokerInitString := v |>)
  | opt_server val =>
      match nd_server_mode d with
      | sm_unspecified | sm_server_default_active | sm_server_default_deactivated =>
          Ok (d <| nd_server_mode :=
                if 0 <? val then sm_server_active else sm_server_deactivated |>)
      | _ => Ok d
      end
  | opt_interface addr =>
      localprt ← extractInterfaceandPort addr;
      Ok (d <| nd_localInterface := localprt.1 |> <| nd_portNumber := localprt.2 |>)
  | opt_port v => Ok (d <| nd_portNumber := v |>)
  | opt_brokerport v => Ok (d <| nd_brokerPort := v |>)
  | opt_localport port =>
      Ok (if port =? -999 then d <| nd_use_os_port := true |>
          else d <| nd_portNumber := port |>)
  | opt_portstart v => Ok (d <| nd_portStart := v |>)
  end.

(** The callback at the end: a port given for the broker alone is its port. *)
Definition finishNetOptions (d : NetworkBrokerData) : NetworkBrokerData :=
  if negb (String.eqb (nd_brokerAddress d) "") && (nd_brokerPort d =? -1)
     && String.eqb (nd_localInterface d) "" && negb (nd_portNumber d =? -1)
  then d <| nd_brokerPort := nd_portNumber d |> <| nd_portNumber := nd_brokerPort d |>
  else d.

Fixpoint applyNetOptions (findBroker : string → option string) (localAddress : string)
    (opts : list netOption) (d : NetworkBrokerData) : outcome NetworkBrokerData :=
  match opts with
  | [] => Ok (finishNetOptions d)
  | opt :: opts =>
      d' ← applyNetOption findBroker localAddress opt d;
      applyNetOptions findBroker localAddress opts d'
  end.

(** ** The decimal text of a number *)

Fixpoint all_digits (s : string) : Prop :=
  match s with
  | String c s => is_Some (digit_value c) ∧ all_digits s
  | EmptyString => True
  end.

Lemma pretty_N_char_digit n :
  (n < 10)%N → digit_value (pretty_N_char n) = Some (Z.of_N n).
Proof.
  intros Hn. assert (n = 0 ∨ n = 1 ∨ n = 2 ∨ n = 3 ∨ n = 4 ∨ n = 5 ∨ n = 6 ∨ n = 7 ∨ n = 8
    ∨ n = 9)%N as Hc by lia.
  by repeat (destruct Hc as [->|Hc]; [done|]); subst.
Qed.

Lemma pretty_N_go_digits n s :
  digits 0 (pretty_N_go n s) = digits (Z.of_N n) s.
Proof.
  revert s. induction (N.lt_wf_0 n) as [n _ IH]; intros s.
  assert (n = 0 ∨ 0 < n)%N as [->|Hn] by lia; [by rewrite pretty_N_go_0|].
  rewrite pretty_N_go_step by done. rewrite IH by (apply N.div_lt; lia).
  cbn [digits]. rewrite pretty_N_char_digit by (apply N.mod_lt; lia). f_equal.
  rewrite (N.div_mod n 10) at 3 by lia. lia.
Qed.

Lemma pretty_N_go_all_digits n s : all_digits s → all_digits (pretty_N_go n s).
Proof.
  revert s. induction (N.lt_wf_0 n) as [n _ IH]; intros s Hs.
  assert (n = 0 ∨ 0 < n)%N as [->|Hn] by lia; [by rewrite pretty_N_go_0|].
  rewrite pretty_N_go_step by done. apply IH; [apply N.div_lt; lia|]. split; [|done].
  rewrite pretty_N_char_digit by (apply N.mod_lt; lia). by eexists.
Qed.

Lemma pretty_N_go_nonempty n c s : pretty_N_go n (String c s) ≠ EmptyString.
Proof.
  revert c s. induction (N.lt_wf_0 n) as [n _ IH]; intros c s.
  assert (n = 0 ∨ 0 < n)%N as [->|Hn] by lia; [by rewrite pretty_N_go_0|].
  rewrite pretty_N_go_step by done. apply IH, N.div_lt; lia.
Qed.

Lemma pretty_digits z :
  0 ≤ z → all_digits (pretty z) ∧ digits 0 (pretty z) = z ∧ pretty z ≠ EmptyString.
Proof.
  intros Hz. destruct z as [|p|p]; [split_and!; [by split; [eexists|]|done..]| |lia].
  change (pretty (Z.pos p)) with (pretty_N_go (N.pos p) ""). split_and!.
  - by apply pretty_N_go_all_digits.
  - by rewrite pretty_N_go_digits.
  - rewrite pretty_N_go_step by lia. apply pretty_N_go_nonempty.
Qed.

Lemma all_digits_not_in c s : digit_value c = None → all_digits s → find_last_of c s = None.
Proof.
  intros Hc. induction s as [|a s IH]; [done|]. intros [Ha Hs]. cbn. rewrite IH by done.
  destruct (Ascii.eqb_spec a c) as [->|]; [|done]. rewrite Hc in Ha. by destruct Ha.
Qed.

Lemma digit_not_special c :
  is_Some (digit_value c) → isspace c = false ∧ c ≠ "-"%char ∧ c ≠ "+"%char ∧ c ≠ "/"%char.
Proof.
  intros Hc. repeat split; try (intros ->; by destruct Hc).
  unfold isspace. unfold digit_value in Hc.
  destruct (_ && _) eqn:E in Hc; [|by destruct Hc]. by bool_lia.
Qed.

Lemma stoi_pretty z : 0 ≤ z < 2 ^ 31 → stoi (pretty z) = stoi_value z.
Proof.
  intros Hz. destruct (pretty_digits z) as (Hall & Hval & Hne); [lia|].
  destruct (pretty z) as [|c s] eqn:E; [done|]. destruct Hall as [Hc Hs].
  destruct (digit_not_special c Hc) as (Hsp & Hm & Hp & _).
  unfold stoi. cbn [skip_space]. rewrite Hsp.
  assert (stoi_sign (String c s) = (1, String c s)) as ->.
  { unfold stoi_sign. repeat case_match; congruence. }
  destruct Hc as [d Hd]. rewrite Hd, Hval, Z.mul_1_l.
  rewrite bool_decide_true; [done|]. unfold sint_range. lia.
Qed.

(** ** Taking an address apart *)

Lemma append_cons x a b : String x a +:+ b = String x (a +:+ b).
Proof. done. Qed.
Lemma append_nil b : "" +:+ b = b.
Proof. done. Qed.

Lemma find_last_of_app c a b :
  find_last_of c b = None → find_last_of c (a +:+ String c b) = Some (String.length a).
Proof.
  intros Hb. induction a as [|x a IH]; rewrite ?append_cons, ?append_nil; cbn.
  - by rewrite Hb, Ascii.eqb_refl.
  - by rewrite IH.
Qed.
Lemma str_take_app a b : str_take (String.length a) (a +:+ b) = a.
Proof.
  induction a as [|x a IH]; rewrite ?append_cons, ?append_nil; [by destruct b|].
  cbn. by f_equal.
Qed.
Lemma str_drop_app a b n : str_drop (String.length a + n) (a +:+ b) = str_drop n b.
Proof. induction a as [|x a IH]; [done|]. rewrite append_cons. apply IH. Qed.

Lemma makePortAddress_parts iface port :
  0 ≤ port →
  makePortAddress iface port = iface +:+ String ":" (pretty port)
  ∧ find_last_of ":"%char (makePortAddress iface port) = Some (String.length iface).
Proof.
  intros Hp. unfold makePortAddress. destruct (Z.leb_spec 0 port); [|lia]. split; [done|].
  apply find_last_of_app, all_digits_not_in; [done|]. by apply pretty_digits.
Qed.

Lemma extractInterfaceandPort_make iface port :
  0 ≤ port < 2 ^ 31 → extractInterfaceandPort (makePortAddress iface port) = Ok (iface, port).
Proof.
  intros Hp. destruct (makePortAddress_parts iface port) as [E F]; [lia|].
  unfold extractInterfaceandPort. rewrite F, E, str_drop_app, str_take_app. cbn [str_drop].
  pose proof (stoi_pretty port Hp) as Hst.
  destruct (pretty_digits port) as (Hall & _ & Hne); [lia|].
  destruct (pretty port) as [|c s]; [done|]. destruct Hall as [Hc _].
  destruct (digit_not_special c Hc) as (_ & _ & _ & Hsl).
  destruct (Ascii.eqb_spec c "/"%char); [done|]. by rewrite Hst.
Qed.

Lemma addProtocol_strip s t :
  stripProtocol (addProtocol s t) = stripProtocol s ∧
  addProtocol (addProtocol s t) t = addProtocol s t.
Proof.
  unfold addProtocol, stripProtocol. destruct (str_find "://" s) as [n|] eqn:E.
  - by rewrite !E.
  - by destruct t, s.
Qed.

(** An address that [makePortAddress] puts together from an interface, of any text,
    and a port number is taken apart into the same interface and number by
    [extractInterfaceandPort], and into the interface and the text of the number by
    [extractInterfaceandPortString]; adding a protocol does not change what is left
    without it, and adds it once. *)
Theorem address_roundtrip (iface : string) (port : Z) (t : interface_type) :
  0 ≤ port < 2 ^ 31 →
  extractInterfaceandPort (makePortAddress iface port) = Ok (iface, port)
  ∧ extractInterfaceandPortString (makePortAddress iface port) = (iface, pretty port)
  ∧ stripProtocol (addProtocol iface t) = stripProtocol iface
  ∧ addProtocol (addProtocol iface t) t = addProtocol iface t.
Proof.
  intros Hp. split; [by apply extractInterfaceandPort_make|]. split; [|apply addProtocol_strip].
  destruct (makePortAddress_parts iface port) as [E F]; [lia|].
  unfold extractInterfaceandPortString. by rewrite F, E, str_drop_app, str_take_app.
Qed.
Lemma address_roundtrip_witness :
  extractInterfaceandPort (makePortAddress "tcp://[::1]" 23404) = Ok ("tcp://[::1]", 23404).
Proof. apply (address_roundtrip "tcp://[::1]" 23404 it_tcp). lia. Defined.

(** An address of version 6 without a port loses its last group, and a number that does
    not fit in an [int] is an exception. *)
Lemma extract_ipv6 : extractInterfaceandPort "[::1]" = Ok ("[:", 1).
Proof. done. Qed.
Lemma extract_out_of_range : extractInterfaceandPort "host:23404000000" = Throw "stoi".
Proof. done. Qed.
(** Without a port the text of the port is the whole address. *)
Lemma extract_string_no_port :
  extractInterfaceandPortString "localhost" = ("localhost", "localhost").
Proof. done. Qed.

(** ** The choice of an address *)

Lemma vec_contains_elem x l : vec_contains x l = true ↔ x ∈ l.
Proof.
  unfold vec_contains. rewrite existsb_exists. split.
  - intros (y & Hy & E). apply String.eqb_eq in E as <-. by apply list_elem_of_In.
  - intros Hx. exists x. split; [by apply list_elem_of_In|apply String.eqb_refl].
Qed.

(** A loop that appends the elements with a property. *)
Lemma foldl_push_elem (p : list string → string → bool) (l init : list string) x :
  x ∈ foldl (λ result a, if p result a then result ++ [a] else result) init l →
  x ∈ init ∨ x ∈ l ∧ ∃ result, p result x = true.
Proof.
  revert init. induction l as [|a l IH]; intros init; cbn; [by left|].
  intros [Hx|[Hx Hp]]%IH; [|right; split; [by apply list_elem_of_further|done]].
  destruct (p init a) eqn:Ep; [|by left].
  apply elem_of_app in Hx as [Hx| ->%list_elem_of_singleton]; [by left|].
  right. split; [by left|by exists init].
Qed.
Lemma foldl_push_mono (p : list string → string → bool) (l init : list string) x :
  x ∈ init → x ∈ foldl (λ result a, if p result a then result ++ [a] else result) init l.
Proof.
  revert init. induction l as [|a l IH]; intros init Hx; cbn; [done|]. apply IH.
  destruct (p init a); [|done]. apply elem_of_app. by left.
Qed.

(** The loop over the list with the lower priority compares each address with that list
    itself: it adds nothing. *)
Lemma prioritize_low_nothing (low init : list string) :
  foldl (λ result r_addr, if vec_contains r_addr low then result else result ++ [r_addr])
    init low = init.
Proof.
  assert (∀ l, (∀ x, x ∈ l → x ∈ low) →
    foldl (λ result r_addr, if vec_contains r_addr low then result else result ++ [r_addr])
      init l = init) as Hl; [|by apply Hl].
  induction l as [|a l IH]; intros Hl; cbn; [done|].
  rewrite (proj2 (vec_contains_elem a low)) by (apply Hl; left).
  apply IH. intros x Hx. apply Hl. by right.
Qed.

Lemma prioritize_elem high low x : x ∈ prioritizeExternalAddresses high low ↔ x ∈ high.
Proof.
  unfold prioritizeExternalAddresses. rewrite prioritize_low_nothing.
  assert (∀ (l init : list string),
    x ∈ foldl (λ result a, if vec_contains a result then result else result ++ [a]) init l
    ↔ x ∈ init ∨ x ∈ l) as Hstep.
  { induction l as [|a l IH]; intros init; cbn; [set_solver|]. rewrite IH.
    destruct (vec_contains a init) eqn:Ea; [|set_solver].
    apply vec_contains_elem in Ea. set_solver. }
  rewrite Hstep. split; [|by right]. intros [Hx|Hx]; [|done].
  apply (foldl_push_elem (λ _ a, vec_contains a high)) in Hx as [Hx|(_ & _ & Hx)];
    [by apply not_elem_of_nil in Hx|by apply vec_contains_elem].
Qed.

(** The better of two candidates. *)
Definition better (sstring : string) (acc : string * Z) (ndef : string) : string * Z :=
  if (acc.2 <? matchcount sstring ndef) && (7 <=? matchcount sstring ndef)
  then (ndef, matchcount sstring ndef) else acc.

Lemma better_best sstring l acc :
  acc.2 = matchcount sstring acc.1 →
  let r := foldl (better sstring) acc l in
  (r.1 = acc.1 ∨ r.1 ∈ l) ∧ r.2 = matchcount sstring r.1 ∧ acc.2 ≤ r.2 ∧
  (∀ a, a ∈ l → 7 ≤ matchcount sstring a → matchcount sstring a ≤ r.2).
Proof.
  revert acc. induction l as [|x l IH]; intros acc Hacc; cbn.
  - split_and!; [by left|done|done|]. by intros a Ha%not_elem_of_nil.
  - destruct (IH (better sstring acc x)) as (Hr & Heq & Hle & Hbest).
    { unfold better. by case_match. }
    assert (acc.2 ≤ (better sstring acc x).2 ∧
      (7 ≤ matchcount sstring x → matchcount sstring x ≤ (better sstring acc x).2) ∧
      ((better sstring acc x).1 = acc.1 ∨ (better sstring acc x).1 = x)) as (Hm & Hx & Hw).
    { unfold better. destruct (_ && _) eqn:E; cbn; split_and!; auto; by bool_lia. }
    split_and!; [|done|lia|].
    + destruct Hr as [->|Hr]; [|right; by right].
      destruct Hw as [->| ->]; [by left|right; by left].
    + intros a [->|Ha]%elem_of_cons H7; [specialize (Hx H7); lia|by apply Hbest].
Qed.

Lemma bestMatch_spec sstring cands :
  match bestMatch sstring cands with
  | Ok a => a ∈ cands ∧
      ∀ a', a' ∈ cands → 7 ≤ matchcount sstring a' →
            matchcount sstring a' ≤ matchcount sstring a
  | Throw _ => False
  | Fault => cands = []
  end.
Proof.
  destruct cands as [|def cands]; [done|].
  destruct (better_best sstring (def :: cands) (def, matchcount sstring def))
    as (Hr & Heq & _ & Hbest); [done|].
  change (bestMatch sstring (def :: cands)) with
    (Ok (foldl (better sstring) (def, matchcount sstring def) (def :: cands)).1).
  split; [destruct Hr as [->|Hr]; [by left|done]|]. intros a' Ha' H7.
  rewrite <- Heq. by apply Hbest.
Qed.

(** When the names of the server and of the host are resolved, the address chosen for
    a server is one of those the operating system reports for its interfaces, and no
    other interface address agrees with the server in seven or more characters and in
    more of them; the addresses that the resolver alone knows are never considered, and
    without an interface address the first element of an empty list is read. *)
Theorem external_address_spec `{NetworkEnvironment} (server s : string) (rs its : list string) :
  resolve_v4 server = Some (s :: rs) →
  resolve_v4 host_name = Some its →
  match getLocalExternalAddressV4 server with
  | Ok a => a ∈ getInterfaceAddressesV4 ∧
      ∀ a', a' ∈ getInterfaceAddressesV4 → 7 ≤ matchcount s a' → matchcount s a' ≤ matchcount s a
  | Throw _ => False
  | Fault => getInterfaceAddressesV4 = []
  end.
Proof.
  intros Es Eh. unfold getLocalExternalAddressV4. rewrite Es. cbn [deref_resolved mbind outcome_bind].
  rewrite Eh.
  pose proof (bestMatch_spec s (prioritizeExternalAddresses getInterfaceAddressesV4 its)) as Hb.
  destruct (bestMatch _ _) as [a| |] eqn:Eb; [by setoid_rewrite prioritize_elem in Hb|done|].
  destruct getInterfaceAddressesV4 as [|a l] eqn:Ea; [done|].
  pose proof (proj2 (prioritize_elem (a :: l) its a)) as Hin. rewrite Hb in Hin.
  by destruct (not_elem_of_nil a); apply Hin; left.
Qed.

(** A host with two interfaces. *)
Definition sample_network : NetworkEnvironment := {|
  resolve_v4 := λ h, if String.eqb h "server" then Some ["192.168.3.7"] else Some ["10.0.0.4"];
  resolve_v6 := λ _, None;
  host_name := "host";
  getInterfaceAddressesV4 := ["127.0.0.1"; "192.168.3.12"];
  getInterfaceAddressesV6 := [] |}.

Lemma external_address_spec_witness :
  @getLocalExternalAddressV4 sample_network "server" = Ok "192.168.3.12"
  ∧ "192.168.3.12" ∈ @getInterfaceAddressesV4 sample_network.
Proof.
  pose proof (@external_address_spec sample_network "server" "192.168.3.7" [] ["10.0.0.4"]
    eq_refl eq_refl) as Hs.
  split; [done|]. apply Hs.
Defined.
