(* ===== verification/CoreTypes.v ===== *)
(** * The names of core types (src/src/helics/core/coreTypeOperations.cpp, core-types.hpp)

    The type of a core or broker is given by a name, which is looked up in a table as it is
    and in lower case, and otherwise recognised by its first letters.  The types that a
    build contains are the class [BuildOptions]. *)

From Stdlib Require Import Ascii.
From stdpp Require Import strings.
From S2P Require Import Prelude NetworkAddress.

(** [enum class core_type] *)
Inductive core_type :=
  | ct_DEFAULT
  | ct_ZMQ
  | ct_MPI
  | ct_TEST
  | ct_INTERPROCESS
  | ct_IPC
  | ct_TCP
  | ct_TCP_SS
  | ct_UDP
  | ct_NNG
  | ct_ZMQ_SS
  | ct_HTTP
  | ct_WEBSOCKET
  | ct_INPROC
  | ct_NULLCORE
  | ct_UNRECOGNIZED
  | ct_MULTI.
#[export] Instance core_type_eq_dec : EqDecision core_type.
Proof. solve_decision. Defined.

Definition core_type_to_string (type : core_type) : string :=
  match type with
  | ct_MPI => "mpi_"
  | ct_TEST => "test_"
  | ct_ZMQ => "zmq_"
  | ct_ZMQ_SS => "zmqss_"
  | ct_INTERPROCESS => "ipc_"
  | ct_IPC => "ipc_"
  | ct_TCP => "tcp_"
  | ct_TCP_SS => "tcpss_"
  | ct_HTTP => "http_"
  | ct_UDP => "udp_"
  | ct_NNG => "nng_"
  | ct_INPROC => "inproc_"
  | ct_WEBSOCKET => "websocket_"
  | ct_NULLCORE => "null_"
  | _ => ""
  end.

(** The table; of two entries with a name, the first is in the map. *)
Definition coreTypes : list (string * core_type) :=
  [("default", ct_DEFAULT); ("def", ct_DEFAULT); ("mpi", ct_MPI);
   ("message_passing_interface", ct_MPI); ("MPI", ct_MPI); ("ZMQ", ct_ZMQ);
   ("0mq", ct_ZMQ); ("zmq", ct_ZMQ); ("zeromq", ct_ZMQ); ("zeromq_ss", ct_ZMQ_SS);
   ("zmq_ss", ct_ZMQ_SS); ("ZMQ_SS", ct_ZMQ_SS); ("zeromq2", ct_ZMQ_SS);
   ("zmq2", ct_ZMQ_SS); ("ZMQ2", ct_ZMQ_SS); ("interprocess", ct_INTERPROCESS);
   ("ZeroMQ", ct_ZMQ); ("ZeroMQ2", ct_ZMQ_SS); ("ipc", ct_INTERPROCESS);
   ("interproc", ct_INTERPROCESS); ("IPC", ct_INTERPROCESS); ("tcp", ct_TCP);
   ("tcpip", ct_TCP); ("TCP", ct_TCP); ("TCPIP", ct_TCP); ("tcpss", ct_TCP_SS);
   ("tcpipss", ct_TCP_SS); ("TCPSS", ct_TCP_SS); ("TCPIPSS", ct_TCP_SS);
   ("tcp_ss", ct_TCP_SS); ("tcpip_ss", ct_TCP_SS); ("TCP_SS", ct_TCP_SS);
   ("TCPIP_SS", ct_TCP_SS); ("single_socket", ct_TCP_SS); ("single socket", ct_TCP_SS);
   ("ss", ct_TCP_SS); ("udp", ct_UDP); ("test", ct_TEST); ("UDP", ct_UDP);
   ("local", ct_TEST); ("inprocess", ct_INPROC); ("websocket", ct_WEBSOCKET);
   ("web", ct_WEBSOCKET); ("inproc", ct_INPROC); ("nng", ct_NNG); ("null", ct_NULLCORE);
   ("nullcore", ct_NULLCORE); ("none", ct_NULLCORE); ("http", ct_HTTP); ("HTTP", ct_HTTP);
   ("web", ct_HTTP); ("test1", ct_TEST); ("multi", ct_MULTI)].

(** [find] in a map that was made from a list. *)
Fixpoint str_lookup {A} (key : string) (l : list (string * A)) : option A :=
  match l with
  | [] => None
  | (k, v) :: l => if String.eqb k key then Some v else str_lookup key l
  end.

(** [tolower] of the C locale. *)
Definition tolower (c : ascii) : ascii :=
  let n := N_of_ascii c in
  if (65 <=? n)%N && (n <=? 90)%N then ascii_of_N (n + 32) else c.
Fixpoint str_tolower (s : string) : string :=
  match s with
  | EmptyString => EmptyString
  | String c s => String (tolower c) (str_tolower s)
  end.

(** The tests of the first letters, in their order. *)
Definition corePrefixes : list (string * core_type) :=
  [("zmq2", ct_ZMQ_SS); ("zmq", ct_ZMQ); ("ipc", ct_INTERPROCESS); ("test", ct_TEST);
   ("tcpss", ct_TCP_SS); ("tcp", ct_TCP); ("udp", ct_UDP); ("http", ct_HTTP); ("mpi", ct_MPI);
   ("inproc", ct_INPROC); ("web", ct_WEBSOCKET); ("null", ct_NULLCORE)].
Fixpoint prefix_lookup (s : string) (l : list (string * core_type)) : core_type :=
  match l with
  | [] => ct_UNRECOGNIZED
  | (p, t) :: l => if String.prefix p s then t else prefix_lookup s l
  end.

(** [coreTypeFromString]: the recursion is on the text without its first letter. *)
Fixpoint coreTypeFromString_fuel (fuel : nat) (type : string) : option core_type :=
  match fuel with
  | O => None
  | S fuel =>
      if String.eqb type "" then Some ct_DEFAULT
      else match str_lookup type coreTypes with
           | Some t => Some t
           | None =>
               let type := str_tolower type in
               match str_lookup type coreTypes with
               | Some t => Some t
               | None =>
                   match type with
                   | String c rest =>
                       if Ascii.eqb c "=" || Ascii.eqb c "-"
                       then coreTypeFromString_fuel fuel rest
                       else Some (prefix_lookup type corePrefixes)
                   | EmptyString => Some (prefix_lookup type corePrefixes)
                   end
               end
           end
  end.
Definition coreTypeFromString (type : string) : option core_type :=
  coreTypeFromString_fuel (S (String.length type)) type.

(** The macros [ENABLE_ZMQ_CORE] and so on. *)
Class BuildOptions := {
  zmq_availability : bool;
  mpi_availability : bool;
  tcp_availability : bool;
  udp_availability : bool;
  ipc_availability : bool;
  test_availability : bool;
  inproc_availability : bool;
}.
Definition isCoreTypeAvailable `{BuildOptions} (type : core_type) : bool :=
  match type with
  | ct_ZMQ | ct_ZMQ_SS => zmq_availability
  | ct_MPI => mpi_availability
  | ct_TEST => test_availability
  | ct_INTERPROCESS | ct_IPC => ipc_availability
  | ct_UDP => udp_availability
  | ct_TCP | ct_TCP_SS => tcp_availability
  | ct_DEFAULT => true
  | ct_INPROC => inproc_availability
  | ct_HTTP | ct_WEBSOCKET | ct_NULLCORE => false
  | _ => false
  end.

(** ** Facts *)

Lemma tolower_idem c : tolower (tolower c) = tolower c.
Proof. by destruct c as [[] [] [] [] [] [] [] []]. Qed.
Lemma str_tolower_idem s : str_tolower (str_tolower s) = str_tolower s.
Proof. induction s as [|c s IH]; [done|]. cbn. by rewrite tolower_idem, IH. Qed.
Lemma str_tolower_length s : String.length (str_tolower s) = String.length s.
Proof. induction s as [|c s IH]; [done|]. cbn. by rewrite IH. Qed.

(** A name in the table has its type also in lower case. *)
Lemma coreTypes_lower :
  Forall (λ e, str_lookup (str_tolower e.1) coreTypes = str_lookup e.1 coreTypes) coreTypes.
Proof. repeat constructor. Qed.
Lemma str_lookup_elem {A} key (l : list (string * A)) v : str_lookup key l = Some v → (key, v) ∈ l.
Proof.
  induction l as [|[k w] l IH]; [done|]. cbn. destruct (String.eqb_spec k key) as [->|].
  - intros [= ->]. by left.
  - intros E. right. by apply IH.
Qed.
Lemma coreTypes_lower_lookup s t :
  str_lookup s coreTypes = Some t → str_lookup (str_tolower s) coreTypes = Some t.
Proof.
  intros E. pose proof (str_lookup_elem _ _ _ E) as Hin.
  pose proof coreTypes_lower as Hl. rewrite Forall_forall in Hl.
  specialize (Hl _ Hin). cbn [fst] in Hl. by rewrite Hl.
Qed.

Lemma coreTypeFromString_lower fuel s :
  coreTypeFromString_fuel fuel (str_tolower s) = coreTypeFromString_fuel fuel s.
Proof.
  destruct fuel as [|fuel]; [done|]. cbn [coreTypeFromString_fuel].
  destruct s as [|c s]; [done|]. set (name := String c s).
  replace (String.eqb (str_tolower name) "") with false by done.
  replace (String.eqb name "") with false by done. rewrite str_tolower_idem.
  destruct (str_lookup name coreTypes) as [t|] eqn:E.
  - by rewrite (coreTypes_lower_lookup _ _ E).
  - by destruct (str_lookup (str_tolower name) coreTypes).
Qed.
Lemma coreTypeFromString_total fuel s :
  (String.length s < fuel)%nat → ∃ t, coreTypeFromString_fuel fuel s = Some t.
Proof.
  revert s. induction fuel as [|fuel IH]; intros s Hl; [lia|]. cbn [coreTypeFromString_fuel].
  destruct (String.eqb s ""); [by eexists|].
  destruct (str_lookup s coreTypes); [by eexists|].
  destruct (str_lookup (str_tolower s) coreTypes); [by eexists|].
  rewrite <- str_tolower_length in Hl. destruct (str_tolower s) as [|c rest]; [by eexists|].
  destruct (_ || _); [|by eexists]. apply IH. cbn in Hl. lia.
Qed.

(** The name of a core type is always recognised as one type or as unrecognised, in
    capital or small letters alike; the name that [to_string] gives to a type is
    recognised as the type, except that the single socket variant of ZeroMQ is taken for
    the other one, nng is not recognised, IPC is INTERPROCESS, and the types without a
    name are the default. *)
Theorem core_type_names (s : string) (t : core_type) :
  (∃ t', coreTypeFromString s = Some t' ∧ coreTypeFromString (str_tolower s) = Some t') ∧
  coreTypeFromString (core_type_to_string t) =
    Some (match t with
          | ct_ZMQ_SS => ct_ZMQ
          | ct_NNG => ct_UNRECOGNIZED
          | ct_IPC => ct_INTERPROCESS
          | ct_MULTI | ct_UNRECOGNIZED => ct_DEFAULT
          | t => t
          end).
Proof.
  split; [|by destruct t].
  destruct (coreTypeFromString_total (S (String.length s)) s) as [t' E]; [lia|].
  exists t'. split; [done|]. unfold coreTypeFromString.
  by rewrite str_tolower_length, coreTypeFromString_lower.
Qed.
