(* ===== verification/FilterOperations.v ===== *)
(** * The filters that come with the library
    (src/src/helics/application_api/FilterOperations.hpp, FilterOperations.cpp,
    MessageOperators.hpp, MessageOperators.cpp, Filters.cpp)

    A filter has an operator that the core runs on messages, and operations that set its
    properties.  The operators are an instance of the interface [FilterOperators] of the
    core: a world is the list of the operations of all filters, which an application
    changes, with the number of random numbers drawn so far.

    Random numbers, regular expressions, floating point numbers and the text of times are
    the class [FilterEnv]. *)

From Stdlib Require Import Ascii.
From stdpp Require Import strings gmap.
From S2P Require Import Prelude HelicsTime Flags ActionMessage MappedVector CoreState.
From S2P Require Import NetworkAddress CoreTypes.

(** ** [enum class filter_types] and its names *)
Inductive filter_types :=
  | ft_custom
  | ft_delay
  | ft_random_delay
  | ft_random_drop
  | ft_reroute
  | ft_clone
  | ft_firewall
  | ft_unrecognized.

Definition filterTypes : list (string * filter_types) :=
  [("clone", ft_clone); ("cloning", ft_clone); ("delay", ft_delay); ("timedelay", ft_delay);
   ("randomdelay", ft_random_delay); ("randomdrop", ft_random_drop); ("time_delay", ft_delay);
   ("random_delay", ft_random_delay); ("random_drop", ft_random_drop);
   ("time delay", ft_delay); ("random delay", ft_random_delay);
   ("random drop", ft_random_drop); ("reroute", ft_reroute); ("redirect", ft_reroute);
   ("firewall", ft_firewall); ("custom", ft_custom)].

Definition filterTypeFromString (filterType : string) : filter_types :=
  match str_lookup filterType filterTypes with
  | Some t => t
  | None => default ft_unrecognized (str_lookup (str_tolower filterType) filterTypes)
  end.

(** ** [enum class random_dists_t] *)
Inductive random_dists_t :=
  | rd_constant | rd_uniform | rd_bernoulli | rd_binomial | rd_geometric | rd_poisson
  | rd_exponential | rd_gamma | rd_weibull | rd_extreme_value | rd_normal | rd_lognormal
  | rd_chi_squared | rd_cauchy | rd_fisher_f | rd_student_t.
Definition distMap : list (string * random_dists_t) :=
  [("constant", rd_constant); ("uniform", rd_uniform); ("bernoulli", rd_bernoulli);
   ("binomial", rd_binomial); ("geometric", rd_geometric); ("poisson", rd_poisson);
   ("exponential", rd_exponential); ("gamma", rd_gamma); ("weibull", rd_weibull);
   ("extreme_value", rd_extreme_value); ("normal", rd_normal); ("lognormal", rd_lognormal);
   ("chi_squared", rd_chi_squared); ("cauchy", rd_cauchy); ("fisher_f", rd_fisher_f);
   ("student_t", rd_student_t)].

(** [randomDouble n]: the [n]-th number drawn from a distribution; [val_ge_zero]: the
    comparison with [timeZero]; [Time_plus_double]: the sum of a time and a number;
    [bernoulli n p]: whether the [n]-th number, drawn with probability [1 - p], is above
    0.1; [loadTimeFromString]: [None] for [std::invalid_argument]. *)
Class FilterEnv `{TimeRep} := {
  zero_double : double;
  val_ge_zero : double → bool;
  Time_of_double : double → Time;
  double_of_Time : Time → double;
  Time_plus_double : Time → double → Time;
  randomDouble : nat → random_dists_t → double → double → double;
  bernoulli : nat → double → bool;
  loadTimeFromString : string → option Time;
  regex_valid : string → bool;
  regex_search : string → string → bool;
}.

(** ** [std::regex_replace] for a pattern without operators

    The text that replaces a match is a format: [fmt_expand] follows libstdc++. *)
Definition is_digit (c : ascii) : bool := bool_decide (is_Some (digit_value c)).
Definition digit_of (c : ascii) : Z := default 0 (digit_value c).

(** [whole], [pre], [post]: the match, and the text before it (from the end of the last
    match) and behind it; the pattern has no groups. *)
Fixpoint fmt_expand (fuel : nat) (whole pre post fmt : string) : string :=
  match fuel with
  | O => ""
  | S fuel =>
      let go := fmt_expand fuel whole pre post in
      match fmt with
      | EmptyString => ""
      | String c rest =>
          if negb (Ascii.eqb c "$"%char) then String c (go rest)
          else match rest with
               | EmptyString => "$"
               | String d rest' =>
                   if Ascii.eqb d "$"%char then String "$"%char (go rest')
                   else if Ascii.eqb d "&"%char then whole +:+ go rest'
                   else if Ascii.eqb d "`"%char then pre +:+ go rest'
                   else if Ascii.eqb d "'"%char then post +:+ go rest'
                   else if is_digit d then
                     match rest' with
                     | String e rest'' =>
                         if is_digit e then
                           (if 10 * digit_of d + digit_of e =? 0 then whole else "") +:+ go rest''
                         else (if digit_of d =? 0 then whole else "") +:+ go rest'
                     | EmptyString => if digit_of d =? 0 then whole else ""
                     end
                   else String "$"%char (go rest)
               end
      end
  end.

(** The replacement of all matches of a text that is not empty, from left to right. *)
Fixpoint replace_all (fuel : nat) (pat fmt s : string) : string :=
  match fuel with
  | O => s
  | S fuel =>
      match str_find pat s with
      | None => s
      | Some n =>
          let pre := str_take n s in
          let post := str_drop (n + String.length pat) s in
          pre +:+ fmt_expand (S (String.length fmt)) pat pre post fmt
              +:+ replace_all fuel pat fmt post
      end
  end.
Definition regex_replace (s pat fmt : string) : string :=
  replace_all (S (String.length s)) pat fmt s.

(** ** The operations of filters *)

(** [FirewallOperator::operations] *)
Inductive firewall_op := fw_none | fw_drop | fw_pass | fw_flag1 | fw_flag2 | fw_flag3.

#[export] Instance Message_flags : FlagContainer Message := {|
  flags_of := msg_flags; with_flags := λ m f, m <| msg_flags := f |> |}.

Section operations.
  Context `{TimeRep} `{!FilterEnv}.

(** The classes derived from [FilterOperations] with their members; [CustomOperation] is a
    [CustomMessageOperator] with the function of an application. *)
Inductive FilterOperation :=
  | DelayFilterOperation (delay : Time)
  | RandomDelayFilterOperation (dist : random_dists_t) (param1 param2 : double)
  | RandomDropFilterOperation (dropProb : double)
  | RerouteFilterOperation (newDest : string) (conditions : gset string)
  | FirewallFilterOperation (operation : firewall_op)
  | CloneFilterOperation (deliveryAddresses : list string)
  | CustomOperation (messageFunction : Message → option Message).

(** The constructors. *)
Definition newDelayFilter (delayTime : Time) : FilterOperation :=
  DelayFilterOperation (if delayTime <? timeZero then timeZero else delayTime).
(** [addOperations]; [None] when the filter gets no operations. *)
Definition addOperations (type : filter_types) : option FilterOperation :=
  match type with
  | ft_random_delay => Some (RandomDelayFilterOperation rd_uniform zero_double zero_double)
  | ft_delay => Some (newDelayFilter timeZero)
  | ft_random_drop => Some (RandomDropFilterOperation zero_double)
  | ft_reroute => Some (RerouteFilterOperation "" ∅)
  | ft_clone => Some (CloneFilterOperation [])
  | ft_firewall => Some (FirewallFilterOperation fw_drop)
  | ft_custom | ft_unrecognized => None
  end.

Definition is_param1 (property : string) : bool :=
  String.eqb property "param1" || String.eqb property "mean" || String.eqb property "min"
  || String.eqb property "alpha".
Definition is_param2 (property : string) : bool :=
  String.eqb property "param2" || String.eqb property "stddev" || String.eqb property "max"
  || String.eqb property "beta".

(** [set] of each class; the others ignore it. *)
Definition delay_set (property : string) (val : double) (delay : Time) : Time :=
  if String.eqb property "delay" then if val_ge_zero val then Time_of_double val else delay
  else delay.
Definition randomDelay_set (property : string) (val : double) (dist : random_dists_t)
    (p1 p2 : double) : FilterOperation :=
  if is_param1 property then RandomDelayFilterOperation dist val p2
  else if is_param2 property then RandomDelayFilterOperation dist p1 val
  else RandomDelayFilterOperation dist p1 p2.
Definition randomDrop_set (property : string) (val dropProb : double) : double :=
  if String.eqb property "dropprob" || String.eqb property "prob" then val else dropProb.
Definition op_set (property : string) (val : double) (op : FilterOperation)
    : outcome FilterOperation :=
  match op with
  | DelayFilterOperation delay => Ok (DelayFilterOperation (delay_set property val delay))
  | RandomDelayFilterOperation dist p1 p2 => Ok (randomDelay_set property val dist p1 p2)
  | RandomDropFilterOperation dropProb =>
      Ok (RandomDropFilterOperation (randomDrop_set property val dropProb))
  | CloneFilterOperation _ => Throw "not a known property"
  | RerouteFilterOperation _ _ | FirewallFilterOperation _ | CustomOperation _ => Ok op
  end.

(** [setString] of each class. *)
Definition delay_setString (property val : string) (delay : Time) : outcome FilterOperation :=
  if String.eqb property "delay" then
    match loadTimeFromString val with
    | Some t => Ok (DelayFilterOperation t)
    | None => Throw "not a valid time string"
    end
  else Ok (DelayFilterOperation delay).
Definition randomDelay_setString (property val : string) (dist : random_dists_t)
    (p1 p2 : double) : outcome FilterOperation :=
  if String.eqb property "dist" || String.eqb property "distribution" then
    Ok (RandomDelayFilterOperation (default dist (str_lookup val distMap)) p1 p2)
  else if is_param1 property then
    match loadTimeFromString val with
    | Some t => Ok (RandomDelayFilterOperation dist (double_of_Time t) p2)
    | None => Throw "invalid_argument"
    end
  else if is_param2 property then
    match loadTimeFromString val with
    | Some t => Ok (RandomDelayFilterOperation dist p1 (double_of_Time t))
    | None => Throw "invalid_argument"
    end
  else Ok (RandomDelayFilterOperation dist p1 p2).
Definition reroute_setString (property val newDest : string) (conditions : gset string)
    : outcome FilterOperation :=
  if String.eqb property "newdestination" then Ok (RerouteFilterOperation val conditions)
  else if String.eqb property "condition" then
    if regex_valid val then Ok (RerouteFilterOperation newDest ({[val]} ∪ conditions))
    else Throw "filter expression is not a valid Regular expression"
  else Ok (RerouteFilterOperation newDest conditions).
Definition clone_setString (property val : string) (addresses : list string)
    : outcome FilterOperation :=
  if String.eqb property "delivery" then Ok (CloneFilterOperation [val])
  else if String.eqb property "add delivery" then
    Ok (CloneFilterOperation (if vec_contains val addresses then addresses
                              else addresses ++ [val]))
  else if String.eqb property "remove delivery" then
    Ok (CloneFilterOperation
          match list_find (λ a, a = val) addresses with
          | Some (i, _) => delete i addresses
          | None => addresses
          end)
  else Throw "not a known property".
Definition op_setString (property val : string) (op : FilterOperation)
    : outcome FilterOperation :=
  match op with
  | DelayFilterOperation delay => delay_setString property val delay
  | RandomDelayFilterOperation dist p1 p2 => randomDelay_setString property val dist p1 p2
  | RerouteFilterOperation newDest conditions => reroute_setString property val newDest conditions
  | CloneFilterOperation addresses => clone_setString property val addresses
  | RandomDropFilterOperation _ | FirewallFilterOperation _ | CustomOperation _ => Ok op
  end.

(** ** The operators *)

Definition newDestGeneration (src dest formula : string) : string :=
  match str_find "$" formula with
  | None => formula
  | Some _ => regex_replace (regex_replace formula "${source}" src) "${dest}" dest
  end.
Definition rerouteOperation (newDest : string) (conditions : gset string) (src dest : string)
    : string :=
  if bool_decide (conditions = ∅) then newDestGeneration src dest newDest
  else if existsb (regex_search dest) (elements conditions)
  then newDestGeneration src dest newDest
  else dest.

(** [MessageTimeOperator::process], [MessageConditionalOperator::process],
    [MessageDestOperator::process] with a function. *)
Definition timeOperator (f : Time → Time) (m : Message) : option Message :=
  Some (m <| msg_time := f (msg_time m) |>).
Definition conditionalOperator (eval : bool) (m : Message) : option Message :=
  if eval then Some m else None.
Definition destOperator (f : string → string → string) (m : Message) : option Message :=
  Some (m <| msg_original_dest := msg_dest m |> <| msg_dest := f (msg_source m) (msg_dest m) |>).
(** [FirewallOperator::process] with the result of the check. *)
Definition firewallOperator (operation : firewall_op) (res : bool) (m : Message)
    : option Message :=
  match operation with
  | fw_drop => if res then None else Some m
  | fw_pass => if res then Some m else None
  | fw_flag1 => Some (if res then setActionFlag m extra_flag1 else m)
  | fw_flag2 => Some (if res then setActionFlag m extra_flag2 else m)
  | fw_flag3 => Some (if res then setActionFlag m extra_flag3 else m)
  | fw_none => Some m
  end.
(** [FirewallFilterOperation::allowPassed] *)
Definition allowPassed (m : Message) : bool := true.
(** [CloneFilterOperation::sendMessage] *)
Definition cloneMessages (addresses : list string) (m : Message) : list Message :=
  (λ add, m <| msg_original_dest := msg_dest m |> <| msg_dest := add |>) <$> addresses.
(** [CloneOperator::process] *)
Definition cloneOperator (addresses : list string) (m : Message) : option Message :=
  match cloneMessages addresses m with
  | [res] => Some res
  | _ => Some m
  end.

(** [process] of the operator of a filter; [n] is the number of random numbers drawn. *)
Definition process (op : FilterOperation) (n : nat) (m : Message) : nat * option Message :=
  match op with
  | DelayFilterOperation delay => (n, timeOperator (λ t, t +t delay) m)
  | RandomDelayFilterOperation dist p1 p2 =>
      (S n, timeOperator (λ t, Time_plus_double t
              match dist with rd_constant => p1 | _ => randomDouble n dist p1 p2 end) m)
  | RandomDropFilterOperation dropProb => (S n, conditionalOperator (bernoulli n dropProb) m)
  | RerouteFilterOperation newDest conditions =>
      (n, destOperator (rerouteOperation newDest conditions) m)
  | FirewallFilterOperation operation => (n, firewallOperator operation (allowPassed m) m)
  | CloneFilterOperation addresses => (n, cloneOperator addresses m)
  | CustomOperation f => (n, f m)
  end.
(** [processVector]: of [FilterOperator], which [CloneOperator] overrides. *)
Definition processVector (op : FilterOperation) (n : nat) (m : Message)
    : nat * list (option Message) :=
  match op with
  | CloneFilterOperation addresses => (n, Some <$> cloneMessages addresses m)
  | _ =>
      let '(n, res) := process op n m in
      (n, match res with Some r => [Some r] | None => [] end)
  end.

(** The operators of the core: number 0 is the null operator, number [S i] the operator of
    the [i]-th operations. *)
Record filter_world := mkWorld {
  w_operations : list FilterOperation;
  w_drawn : nat;
}.
Definition world_run {A} (run : FilterOperation → nat → Message → nat * A) (null : Message → A)
    (i : nat) (m : Message) (w : filter_world) : filter_world * A :=
  match i with
  | O => (w, null m)
  | S i =>
      match w_operations w !! i with
      | Some op =>
          let '(n, r) := run op (w_drawn w) m in (mkWorld (w_operations w) n, r)
      | None => (w, null m)
      end
  end.
#[export] Instance world_operators : FilterOperators filter_world := {|
  op_process := world_run process Some;
  op_processVector := world_run processVector (λ m, [Some m]);
  op_null := 0%nat;
|}.
End operations.
