(* ===== verification/FilterFacts.v ===== *)
(** * Facts on the filters of the library

    The core runs the source filters of an endpoint that it has itself one after the other:
    the message that leaves is the composition of their operators.  Then what cloning
    filters deliver to, and two operators that do not do what they are meant for. *)

From stdpp Require Import strings gmap.
From S2P Require Import Prelude HelicsTime Ids Flags ActionMessage MessageCodec.
From S2P Require Import Definitions TimeDependencies TimeCoordinator InputInfo Interfaces.
From S2P Require Import InterfaceInfo HandleManager FederateState.
From S2P Require Import ForwardingTimeCoordinator Effects MappedVector BrokerBase BrokerState.
From S2P Require Import CoreState CommonCore NetworkAddress CoreTypes FilterOperations.

Section composition.
  Context `{TimeRep} `{!FilterEnv} `{SteadyClock} `{TimeMs} `{MappedVector C} `{DualMapped D}.
  Context `{BlockingQueue Q} `{LocalAddress} (le : bool).
  Implicit Types (s : CommonCore C D Q filter_world) (m : ActionMessage) (msg : Message).

(** The filter [p] of the core [s] is connected, does not clone and has the operations. *)
Definition local_filter s (p : positive) (op : FilterOperation) : Prop :=
  ∃ filt i, filterStore s !! p = Some filt ∧ checkActionFlag filt disconnected_flag = false ∧
    filt_core_id filt = global_broker_id_local (cc_base s) ∧ cloning filt = false ∧
    filterOp filt = Some (S i) ∧ w_operations (operators s) !! i = Some op.

(** The operators one after the other; the command of a message has no flags of it. *)
Fixpoint composed (ops : list FilterOperation) (n : nat) msg : nat * option Message :=
  match ops with
  | [] => (n, Some msg)
  | op :: ops =>
      match process op n msg with
      | (n, Some msg) => composed ops n (msg <| msg_flags := 0 |>)
      | (n, None) => (n, None)
      end
  end.

Definition with_drawn (n : nat) s : CommonCore C D Q filter_world :=
  s <| operators := mkWorld (w_operations (operators s)) n |>.

Lemma with_drawn_id s : with_drawn (w_drawn (operators s)) s = s.
Proof.
  destruct s. unfold with_drawn. cbn. f_equal.
  match goal with |- mkWorld (w_operations ?w) _ = _ => by destruct w end.
Qed.

Lemma createMessage_messageCommand m msg :
  createMessageFromCommand (copyAssign m (messageCommand msg)) = msg <| msg_flags := 0 |>.
Proof. by destruct msg. Qed.

Lemma runFilter_local s op filt i m :
  filterOp filt = Some (S i) → w_operations (operators s) !! i = Some op →
  let '(n, r) := process op (w_drawn (operators s)) (createMessageFromCommand m) in
  runFilter filt m s =
    Some (Ok (with_drawn n s, [], (λ msg, copyAssign m (messageCommand msg)) <$> r)).
Proof.
  intros Ef Ei.
  destruct (process op (w_drawn (operators s)) (createMessageFromCommand m)) as [n r] eqn:Ep.
  unfold runFilter. rewrite Ef.
  assert (runOperator op_process (Some (S i)) (createMessageFromCommand m) s
    = Some (Ok (with_drawn n s, [], r))) as R.
  { unfold runOperator. rewrite eff_get_bind. cbn [op_process world_operators world_run].
    by rewrite Ei, Ep. }
  by rewrite (eff_bind_ok _ _ s (with_drawn n s) r).
Qed.

Lemma local_filters_loop ps ops fid num fuel s ii m :
  Forall2 (local_filter s) ps ops →
  let '(n, r) := composed ops (w_drawn (operators s)) (createMessageFromCommand m) in
  ∃ m', sourceFilterLoop le fuel fid num ps ii m s = Some (Ok (with_drawn n s, [], m')) ∧
    match r with
    | Some msg => createMessageFromCommand m' = msg
    | None => action m' = cmd_ignore
    end.
Proof.
  intros Hl. revert s ii m Hl. revert ops. induction ps as [|p ps IH]; intros ops s ii m Hl.
  - apply Forall2_nil_inv_l in Hl as ->. cbn. exists m. split; [|done].
    by rewrite with_drawn_id.
  - apply Forall2_cons_inv_l in Hl as (op & ops' & (filt & i & Ep & Ed & Ec & En & Ef & Ei) & Hl & ->).
    cbn [composed sourceFilterLoop].
    rewrite (eff_bind_ok _ _ s s filt) by (unfold filterAt; by rewrite eff_get_bind, Ep).
    rewrite (eff_bind_ok _ _ s s (global_broker_id_local (cc_base s))) by done.
    rewrite Ed, Ec, Z.eqb_refl, En.
    pose proof (runFilter_local s op filt i m Ef Ei) as R.
    destruct (process op _ _) as [n [msg|]].
    + rewrite (eff_bind_ok _ _ s (with_drawn n s) _ R). cbn [fmap option_fmap option_map].
      rewrite <- (createMessage_messageCommand m msg).
      specialize (IH ops' (with_drawn n s) (ii + 1) (copyAssign m (messageCommand msg)) Hl).
      done.
    + rewrite (eff_bind_ok _ _ s (with_drawn n s) _ R). cbn [fmap option_fmap option_map].
      by exists (copyAssign m (newMessage cmd_ignore)).
Qed.

(** The endpoint [hi] that a message comes from has the source filters [ps]. *)
Record filtered_at_source s m (ps : list positive) : Prop := {
  fs_endpoint : ∃ hi fc, getEndpointByHandle (loopHandles s) (source_handle m) = Some hi ∧
    checkActionFlag hi has_source_filter_flag = true ∧
    filterCoord s !! handle (hi_handle hi) = Some fc ∧ hasSourceFilters fc = true ∧
    sourceFilters fc = ps;
}.

End composition.

(** ** Delays *)
Section delays.
  Context `{TimeRep} `{!FilterEnv}.

Lemma composed_delays ds n (msg : Message) :
  msg_flags msg = 0 →
  composed (DelayFilterOperation <$> ds) n msg =
    (n, Some (msg <| msg_time := foldl Time_add (msg_time msg) ds |>)).
Proof.
  revert msg. induction ds as [|d ds IH]; intros msg Hf; cbn; [by destruct msg|].
  rewrite IH by done. destruct msg. cbn in *. by subst.
Qed.

(** A delay set by a number is not negative; one set by a text can be. *)
Lemma delay_set_nonneg op val op' :
  (∀ v, val_ge_zero v = true → 0 ≤ Time_of_double v) →
  (∃ d, op = DelayFilterOperation d ∧ 0 ≤ d) → op_set "delay" val op = Ok op' →
  ∃ d, op' = DelayFilterOperation d ∧ 0 ≤ d.
Proof.
  intros Hv (d & -> & Hd) [= <-]. eexists. split; [done|].
  unfold delay_set. cbn. destruct (val_ge_zero val) eqn:E; [by apply Hv|done].
Qed.
Lemma delay_text_negative val :
  loadTimeFromString val = Some (-1) →
  op_setString "delay" val (newDelayFilter timeZero) = Ok (DelayFilterOperation (-1)).
Proof. intros E. unfold newDelayFilter. cbn [op_setString]. unfold delay_setString. by rewrite E. Qed.

(** ** Properties set one after the other *)
Definition setProp (prop : string * (double + string)) (op : FilterOperation)
    : FilterOperation :=
  match (match prop.2 with
         | inl val => op_set prop.1 val op
         | inr val => op_setString prop.1 val op
         end) with
  | Ok op' => op'
  | _ => op
  end.
Definition setProps (props : list (string * (double + string))) (op : FilterOperation)
    : FilterOperation :=
  foldl (λ op prop, setProp prop op) op props.

Lemma setProps_inv (P : FilterOperation → Prop) props op :
  (∀ prop op, P op → P (setProp prop op)) → P op → P (setProps props op).
Proof.
  intros Hstep. revert op. induction props as [|prop props IH]; intros op Hp; [done|].
  cbn. apply IH. by apply Hstep.
Qed.

(** A filter of the type firewall drops every message, whatever properties an
    application sets: the check that should allow messages returns true, and the
    operation for a true check is to drop. *)
Theorem firewall_drops_all props n (msg : Message) :
  ∃ op, addOperations ft_firewall = Some op ∧
    process (setProps props op) n msg = (n, None) ∧
    processVector (setProps props op) n msg = (n, []).
Proof.
  exists (FirewallFilterOperation fw_drop). split; [done|].
  assert (setProps props (FirewallFilterOperation fw_drop) = FirewallFilterOperation fw_drop)
    as ->; [|done].
  apply (setProps_inv (λ op, op = FirewallFilterOperation fw_drop)); [|done].
  intros [prop [val|val]] op ->; done.
Qed.

(** The addresses of a cloning filter. *)
Definition clone_distinct (op : FilterOperation) : Prop :=
  ∃ addresses, op = CloneFilterOperation addresses ∧ NoDup addresses.

Lemma setProp_clone prop op : clone_distinct op → clone_distinct (setProp prop op).
Proof.
  intros (l & -> & Hl). destruct prop as [prop [val|val]]; [by exists l|].
  unfold setProp, clone_distinct. cbn [op_setString fst snd]. unfold clone_setString.
  repeat case_match; simplify_eq; try (by exists l); eexists; (split; [done|]).
  - apply NoDup_singleton.
  - apply NoDup_app. split; [done|]. split; [|apply NoDup_singleton].
    intros x Hx ->%list_elem_of_singleton. apply vec_contains_elem in Hx. congruence.
  - eapply sublist_NoDup; [done|apply sublist_delete].
Qed.

(** Whatever properties are set, a cloning filter sends one copy of a message to each of
    its delivery addresses, in the order they were added and to none twice; a copy differs
    from the message in its destination and keeps the one it had as the original one. *)
Theorem clone_delivery props n (msg : Message) :
  ∃ op addresses, addOperations ft_clone = Some op ∧
    setProps props op = CloneFilterOperation addresses ∧ NoDup addresses ∧
    ∃ copies, processVector (setProps props op) n msg = (n, Some <$> copies) ∧
      msg_dest <$> copies = addresses ∧
      Forall (λ c, c = msg <| msg_original_dest := msg_dest msg |> <| msg_dest := msg_dest c |>)
        copies.
Proof.
  exists (CloneFilterOperation []).
  destruct (setProps_inv clone_distinct props (CloneFilterOperation []))
    as (addresses & E & Hn); [apply setProp_clone|by exists []; split; [|constructor]|].
  exists addresses. split; [done|]. split; [done|]. split; [done|]. rewrite E.
  exists (cloneMessages addresses msg). split; [done|]. clear E Hn.
  unfold cloneMessages. split.
  - rewrite <- list_fmap_compose. by apply list_fmap_id.
  - apply Forall_fmap, Forall_true. done.
Qed.
End delays.
