(* ===== verification/FilterExamples.v ===== *)
(** * A core with filters of the library

    The endpoint of CoreExamples.v with two filters of its core: a delay and a change of
    the destination. *)

From stdpp Require Import strings gmap.
From S2P Require Import Prelude HelicsTime Ids Flags ActionMessage MessageCodec.
From S2P Require Import Definitions TimeDependencies TimeCoordinator InputInfo Interfaces.
From S2P Require Import InterfaceInfo HandleManager FederateState FederateExamples.
From S2P Require Import ForwardingTimeCoordinator Effects MappedVector BrokerBase BrokerState.
From S2P Require Import BrokerRegistry BrokerExamples CoreState CommonCore CoreExamples.
From S2P Require Import NetworkAddress CoreTypes FilterOperations FilterFacts.

(** Numbers are fractions of times; no text is a time, and a regular expression is a text
    that is part of what it matches. *)
#[export] Instance sample_filter_env : FilterEnv := {|
  zero_double := Time_div 0 1;
  val_ge_zero := λ v, 0 <=? Time_scale v 1;
  Time_of_double := λ v, Time_scale v 1;
  double_of_Time := λ t, Time_div t 1;
  Time_plus_double := λ t v, t +t Time_scale v 1;
  randomDouble := λ n dist p1 p2, p1;
  bernoulli := λ n p, true;
  loadTimeFromString := λ s, None;
  regex_valid := λ s, true;
  regex_search := λ s r, bool_decide (is_Some (str_find r s));
|}.

Definition sample_operations : list FilterOperation :=
  [DelayFilterOperation 5; RerouteFilterOperation "${source}/copy" {["ep"]}].
Definition sample_source_filter (hid : interface_handle) (op : nat) : FilterInfo :=
  (newFilterInfo (broker_id_of 1) hid "filter" "" "" false) <| filterOp := Some op |>.

Definition core_with_filters : CommonCore mvec listed (list ActionMessage) filter_world :=
  let s := newCommonCore "core" (mkWorld sample_operations 0) in
  s <| cc_base := cc_base core_waiting |>
    <| loopHandles := alterHandle (λ hi, setActionFlag hi has_source_filter_flag) 0
                        (loopHandles core_waiting) |>
    <| filterCoord := {[0 := newFilterCoordinator <| hasSourceFilters := true |>
                               <| sourceFilters := [1%positive; 2%positive] |>]} |>
    <| filterStore := {[1%positive := sample_source_filter 9 1%nat;
                        2%positive := sample_source_filter 10 2%nat]} |>.
Definition message_from_ept : ActionMessage :=
  setStringData ((newMessage cmd_send_message) <| payload := "data" |> <| source_handle := 0 |>
                   <| actionTime := 7 |>) ["ep_far"; "ept"; "ept"; "ep_far"].

