(* ===== verification/Comms.v ===== *)
(** * The communication interface of a broker or core
    (src/src/helics/network/CommsInterface.hpp, CommsInterface.cpp, CommsBroker_impl.hpp)

    A broker or core sends through an object of a class derived from [CommsInterface],
    which has a thread that transmits and one that receives.  The threads report by
    [setTxStatus] and [setRxStatus]; the properties can be set until the interface is
    connected, under a lock made of one atomic variable.

    An operation is in the monad of Effects.v; what it puts out is the messages for the
    queue of the transmitter and the calls on the trigger variables of gmlc.  What the two
    threads do while an operation waits is an argument of the operation.  The lock and the
    stages of the disconnection are used by several threads: they are also modelled as
    step relations on the shared variables, at the end of the file.  Logging is not
    modelled. *)

From stdpp Require Import strings.
From S2P Require Import Prelude HelicsTime Ids ActionMessage Effects NetworkAddress.

(** The codes of protocol messages (ActionMessageDefintions.hpp). *)
Definition CLOSE_RECEIVER : Z := 23425215.
Definition NEW_ROUTE : Z := 233.
Definition REMOVE_ROUTE : Z := 244.
Definition CONNECTION_REQUEST : Z := 301.
Definition CONNECTION_ACK : Z := 304.
Definition DISCONNECT : Z := 2523.
Definition RECONNECT_TRANSMITTER : Z := 1997.
Definition RECONNECT_RECEIVER : Z := 1999.
Definition PORT_DEFINITIONS : Z := 1451.
Definition QUERY_PORTS : Z := 1453.
Definition REQUEST_PORTS : Z := 1455.

(** [enum class connection_status] *)
Inductive connection_status :=
  | cs_startup
  | cs_connected
  | cs_reconnecting
  | cs_terminated
  | cs_error.
#[export] Instance connection_status_eq_dec : EqDecision connection_status.
Proof. solve_decision. Defined.
Definition connection_status_code (st : connection_status) : Z :=
  match st with
  | cs_startup => -1
  | cs_connected => 0
  | cs_reconnecting => 1
  | cs_terminated => 2
  | cs_error => 4
  end.
(** [st <= connection_status::connected] *)
Definition still_open (st : connection_status) : bool :=
  connection_status_code st <=? connection_status_code cs_connected.

(** [class CommsInterface]; of the callback for received messages only its presence. *)
Record CommsInterface := mkCommsInterface {
  rx_status : connection_status;
  tx_status : connection_status;
  ci_name : string;
  localTargetAddress : string;
  brokerTargetAddress : string;
  ci_brokerName : string;
  brokerInitString : string;
  randomID : string;
  operating : bool;
  singleThread : bool;
  serverMode : bool;
  autoBroker : bool;
  connectionTimeout : Z;
  ci_maxMessageSize : Z;
  ci_maxMessageCount : Z;
  requestDisconnect : bool;
  hasActionCallback : bool;
  ci_interfaceNetwork : interface_networks;
}.

#[export] Instance eta_CommsInterface : Eta CommsInterface := λ c,
  mkCommsInterface (rx_status c) (tx_status c) (ci_name c) (localTargetAddress c)
    (brokerTargetAddress c) (ci_brokerName c) (brokerInitString c) (randomID c)
    (operating c) (singleThread c) (serverMode c) (autoBroker c) (connectionTimeout c)
    (ci_maxMessageSize c) (ci_maxMessageCount c) (requestDisconnect c)
    (hasActionCallback c) (ci_interfaceNetwork c).

(** The member initialisers and the constructor. *)
Definition newCommsInterface (single : bool) : CommsInterface := {|
  rx_status := cs_startup; tx_status := cs_startup; ci_name := "";
  localTargetAddress := ""; brokerTargetAddress := ""; ci_brokerName := "";
  brokerInitString := ""; randomID := ""; operating := false; singleThread := single;
  serverMode := true; autoBroker := false; connectionTimeout := 4000;
  ci_maxMessageSize := 16 * 1024; ci_maxMessageCount := 512; requestDisconnect := false;
  hasActionCallback := false; ci_interfaceNetwork := net_local |}.

(** What an operation does outside of the object: the two ends of the queue of the
    transmitter and the two trigger variables. *)
Inductive comms_out :=
  | TxEmplace (rid : route_id) (cmd : ActionMessage)
  | TxEmplacePriority (rid : route_id) (cmd : ActionMessage)
  | TxActivate
  | TxTrigger
  | RxActivate
  | RxTrigger.

Abbreviation commsM := (effM CommsInterface comms_out).
Implicit Types c : CommsInterface.

(** ** The lock of the properties

    [propertyLock] when no other thread works on the lock.  The failed exchange writes
    the value it found to [exp], so that the second attempt expects a lock that is taken:
    in the startup state the call succeeds in both cases. *)
Definition propertyLock : commsM bool :=
  c ← eff_get;
  if operating c && negb (bool_decide (tx_status c = cs_startup)) then mret false
  else
    _ ← eff_modify (λ c, c <| operating := true |>);
    mret true.
Definition propertyUnLock : commsM unit :=
  eff_modify (λ c, if operating c then c <| operating := false |> else c).

(** An assignment to properties under the lock. *)
Definition setProperty (f : CommsInterface → CommsInterface) : commsM unit :=
  locked ← propertyLock;
  if locked : bool then _ ← eff_modify f; propertyUnLock else mret tt.

Definition loadNetworkInfo (netInfo : NetworkBrokerData) : commsM unit :=
  setProperty (λ c,
    let c := c <| localTargetAddress := nd_localInterface netInfo |>
               <| brokerTargetAddress := nd_brokerAddress netInfo |>
               <| ci_brokerName := nd_brokerName netInfo |>
               <| ci_interfaceNetwork := nd_interfaceNetwork netInfo |>
               <| ci_maxMessageSize := nd_maxMessageSize netInfo |>
               <| ci_maxMessageCount := nd_maxMessageCount netInfo |>
               <| brokerInitString := nd_brokerInitString netInfo |>
               <| autoBroker := nd_autobroker netInfo |> in
    match nd_server_mode netInfo with
    | sm_server_active | sm_server_default_active => c <| serverMode := true |>
    | sm_server_deactivated | sm_server_default_deactivated => c <| serverMode := false |>
    | sm_unspecified => c
    end).

Definition loadTargetInfo (localTarget brokerTarget : string)
    (targetNetwork : interface_networks) : commsM unit :=
  setProperty (λ c, c <| localTargetAddress := localTarget |>
                      <| brokerTargetAddress := brokerTarget |>
                      <| ci_interfaceNetwork := targetNetwork |>).
Definition setName (commName : string) : commsM unit :=
  setProperty (λ c, c <| ci_name := commName |>).
Definition setCallback : commsM unit :=
  setProperty (λ c, c <| hasActionCallback := true |>).
Definition setMessageSize (maxMsgSize maxCount : Z) : commsM unit :=
  setProperty (λ c,
    let c := if 0 <? maxMsgSize then c <| ci_maxMessageSize := maxMsgSize |> else c in
    if 0 <? maxCount then c <| ci_maxMessageCount := maxCount |> else c).
Definition setTimeout (timeOut : Z) : commsM unit :=
  setProperty (λ c, c <| connectionTimeout := timeOut |>).
Definition setServerMode (serverActive : bool) : commsM unit :=
  setProperty (λ c, c <| serverMode := serverActive |>).
Definition setFlag (flag : string) (val : bool) : commsM unit :=
  if String.eqb flag "server_mode" then setServerMode val else mret tt.

(** ** Sending *)

Section sending.
  Context `{TimeRep}.

Definition transmit (rid : route_id) (cmd : ActionMessage) : commsM unit :=
  if isPriorityCommand cmd then eff_emit (TxEmplacePriority rid cmd)
  else eff_emit (TxEmplace rid cmd).

Definition addRoute (rid : route_id) (routeInfo : string) : commsM unit :=
  let rt := (newMessage cmd_protocol_priority) <| payload := routeInfo |>
              <| messageID := NEW_ROUTE |> in
  transmit control_route (setExtraData rt rid).
Definition removeRoute (rid : route_id) : commsM unit :=
  let rt := (newMessage cmd_protocol) <| messageID := REMOVE_ROUTE |> in
  transmit control_route (setExtraData rt rid).

(** The four messages to the own threads. *)
Definition protocolMessage (code : Z) : ActionMessage :=
  (newMessage cmd_protocol) <| messageID := code |>.
Definition closeTransmitter : commsM unit :=
  transmit control_route (protocolMessage DISCONNECT).
Definition closeReceiver : commsM unit :=
  transmit control_route (protocolMessage CLOSE_RECEIVER).
Definition reconnectTransmitter : commsM unit :=
  transmit control_route (protocolMessage RECONNECT_TRANSMITTER).
Definition reconnectReceiver : commsM unit :=
  transmit control_route (protocolMessage RECONNECT_RECEIVER).

(** ** The status of the two threads *)

Definition setTxStatus (txStatus : connection_status) : commsM unit :=
  c ← eff_get;
  if bool_decide (tx_status c = txStatus) then mret tt
  else
    let assign := eff_modify (λ c, c <| tx_status := txStatus |>) in
    match txStatus with
    | cs_connected =>
        if bool_decide (tx_status c = cs_startup) then _ ← assign; eff_emit TxActivate
        else mret tt
    | cs_terminated | cs_error =>
        if bool_decide (tx_status c = cs_startup) then
          _ ← assign; _ ← eff_emit TxActivate; eff_emit TxTrigger
        else _ ← assign; eff_emit TxTrigger
    | _ => assign
    end.

Definition setRxStatus (rxStatus : connection_status) : commsM unit :=
  c ← eff_get;
  if bool_decide (rx_status c = rxStatus) then mret tt
  else
    let assign := eff_modify (λ c, c <| rx_status := rxStatus |>) in
    match rxStatus with
    | cs_connected =>
        if bool_decide (rx_status c = cs_startup) then _ ← assign; eff_emit RxActivate
        else mret tt
    | cs_terminated | cs_error =>
        if bool_decide (rx_status c = cs_startup) then
          _ ← assign; _ ← eff_emit RxActivate; eff_emit RxTrigger
        else _ ← assign; eff_emit RxTrigger
    | _ => assign
    end.

Definition isConnected c : bool :=
  bool_decide (tx_status c = cs_connected) && bool_decide (rx_status c = cs_connected).

(** What the two threads do to the object: they report a status, or their function ends
    with an exception, which [connect] catches. *)
Inductive threadCall :=
  | SetTx (st : connection_status)
  | SetRx (st : connection_status)
  | TxThrew
  | RxThrew.
Definition threadStep (call : threadCall) : commsM unit :=
  match call with
  | SetTx st => setTxStatus st
  | SetRx st => setRxStatus st
  | TxThrew => eff_modify (λ c, c <| tx_status := cs_error |>)
  | RxThrew => eff_modify (λ c, c <| rx_status := cs_error |>)
  end.
Definition threadSteps (calls : list threadCall) : commsM unit := eff_each threadStep calls.

(** ** Connecting

    [connect] up to the start of the threads: [Some b] is a return.  [fresh] is
    [randomString(10)]. *)
Definition connectStart (fresh : string) : commsM (option bool) :=
  c ← eff_get;
  if isConnected c then mret (Some true)
  else if negb (bool_decide (rx_status c = cs_startup)) then mret (Some false)
  else if negb (bool_decide (tx_status c = cs_startup)) then mret (Some false)
  else if negb (hasActionCallback c) then mret (Some false)
  else
    locked ← propertyLock;
    if negb locked then c ← eff_get; mret (Some (isConnected c))
    else
      _ ← eff_modify (λ c, if String.eqb (ci_name c) ""
                           then c <| ci_name := localTargetAddress c |> else c);
      _ ← eff_modify (λ c, if String.eqb (localTargetAddress c) ""
                           then c <| localTargetAddress := ci_name c |> else c);
      _ ← eff_modify (λ c, if String.eqb (randomID c) ""
                           then c <| randomID := fresh |> else c);
      mret None.

(** The rest of [connect], when both triggers have been activated.  The joins wait for
    the end of a thread. *)
Definition connectFinish : commsM bool :=
  c ← eff_get;
  if negb (bool_decide (rx_status c = cs_connected)) then
    _ ← eff_when (bool_decide (tx_status c = cs_connected)) closeTransmitter;
    mret false
  else if negb (bool_decide (tx_status c = cs_connected)) then
    _ ← eff_when (negb (singleThread c)) closeReceiver;
    mret false
  else mret true.

(** [connect]; [calls] is what the threads do until both waits for an activation are
    over, [waits] whether they are over: the call blocks otherwise. *)
Definition connect (fresh : string) (calls : list threadCall) (waits : bool) : commsM bool :=
  r ← connectStart fresh;
  match r with
  | Some b => mret b
  | None =>
      _ ← threadSteps calls;
      if waits then connectFinish else eff_unbounded
  end.

(** ** Reconnecting

    The two loops poll the status every 50 milliseconds, 400 times at most; [rounds] is
    what the threads do before each of the polls that find no change. *)
Fixpoint awaitReconnect (status : CommsInterface → connection_status)
    (polls : nat) (rounds : list (list threadCall)) : commsM (list (list threadCall)) :=
  c ← eff_get;
  if bool_decide (status c = cs_reconnecting) then
    match polls, rounds with
    | O, _ => mret rounds
    | S polls, calls :: rounds =>
        _ ← threadSteps calls; awaitReconnect status polls rounds
    | S _, [] => eff_unbounded
    end
  else mret rounds.

Definition reconnect (rounds : list (list threadCall)) : commsM bool :=
  _ ← eff_modify (λ c, c <| rx_status := cs_reconnecting |>);
  _ ← eff_modify (λ c, c <| tx_status := cs_reconnecting |>);
  _ ← reconnectReceiver;
  _ ← reconnectTransmitter;
  rounds ← awaitReconnect rx_status 400 rounds;
  rounds ← awaitReconnect tx_status 400 rounds;
  c ← eff_get;
  mret (bool_decide (rx_status c = cs_connected) && bool_decide (tx_status c = cs_connected)).

(** ** Disconnecting

    One wait of 800 milliseconds: what the threads do meanwhile, whether the trigger
    fired and whether the trip wire of the process is set. *)
Record poll := mkPoll {
  poll_calls : list threadCall;
  poll_triggered : bool;
  poll_tripped : bool;
}.

(** A loop of [disconnect]; the result is the rest of the polls and whether the trip wire
    ended the call. *)
Fixpoint awaitClosed (status : CommsInterface → connection_status) (close : commsM unit)
    (cnt : Z) (polls : list poll) : commsM (list poll * bool) :=
  c ← eff_get;
  if negb (still_open (status c)) then mret (polls, false)
  else
    match polls with
    | [] => eff_unbounded
    | p :: polls =>
        _ ← threadSteps (poll_calls p);
        if poll_triggered p then awaitClosed status close cnt polls
        else
          let cnt := cnt + 1 in
          _ ← eff_when (cnt mod 4 =? 0) close;
          if cnt =? 14 then mret (polls, false)
          else if poll_tripped p then
            _ ← eff_modify (λ c, c <| rx_status := cs_terminated |>
                                   <| tx_status := cs_terminated |>);
            mret (polls, true)
          else awaitClosed status close cnt polls
    end.

(** [disconnect]; [tripped] is the trip wire at the first test. *)
Definition disconnect (tripped : bool) (polls : list poll) : commsM unit :=
  c ← eff_get;
  locked ← (if operating c then mret false else propertyLock);
  if locked : bool then _ ← setRxStatus cs_terminated; setTxStatus cs_terminated
  else
    _ ← eff_modify (λ c, c <| requestDisconnect := true |>);
    c ← eff_get;
    _ ← eff_when (still_open (rx_status c)) closeReceiver;
    c ← eff_get;
    _ ← eff_when (still_open (tx_status c)) closeTransmitter;
    if tripped then _ ← setRxStatus cs_terminated; setTxStatus cs_terminated
    else
      '(polls, ended) ← awaitClosed rx_status closeReceiver 0 polls;
      if ended : bool then mret tt
      else
        _ ← awaitClosed tx_status closeTransmitter 0 polls;
        mret tt.
End sending.

(** ** Facts on the status *)

(** The threads report that they are connected, have ended or failed; no transport reports
    another status. *)
Definition reports (call : threadCall) : Prop :=
  match call with
  | SetTx st | SetRx st => st = cs_connected ∨ st = cs_terminated ∨ st = cs_error
  | TxThrew | RxThrew => True
  end.
(** Neither of the two threads is connected or in its start. *)
Definition lost (st : connection_status) : Prop := st ≠ cs_startup ∧ st ≠ cs_connected.
Definition both_lost c : Prop := lost (rx_status c) ∧ lost (tx_status c).

Section status.
  Context `{TimeRep}.

Lemma threadStep_lost call c :
  reports call → both_lost c → etotal (threadStep call) c (λ c' _ _, both_lost c').
Proof.
  unfold both_lost, lost. intros Hr Hc.
  assert (cs_terminated ≠ cs_startup ∧ cs_terminated ≠ cs_connected ∧
          cs_error ≠ cs_startup ∧ cs_error ≠ cs_connected) as (? & ? & ? & ?) by done.
  destruct call as [st|st| |]; cbn in Hr |- *; [| |by apply etotal_modify; cbn; tauto..].
  all: unfold setTxStatus, setRxStatus; apply etotal_bind, etotal_get.
  all: case_bool_decide; [by apply etotal_ret|].
  all: destruct Hr as [->|[->| ->]]; case_bool_decide; try tauto;
    repeat (etotal_step; cbn); tauto.
Qed.

Lemma threadSteps_lost calls c :
  Forall reports calls → both_lost c →
  etotal (threadSteps calls) c (λ c' _ _, both_lost c').
Proof.
  intros Hr. revert c. induction Hr as [|call calls Hc Hr IH]; intros c Hl.
  - by apply etotal_ret.
  - apply etotal_bind. eapply etotal_mono; [by apply threadStep_lost|].
    intros c1 _ [] Hl1. eapply etotal_mono; [by apply IH|]. done.
Qed.

Lemma awaitReconnect_lost status polls rounds c :
  Forall (Forall reports) rounds → (polls ≤ length rounds)%nat → both_lost c →
  etotal (awaitReconnect status polls rounds) c
    (λ c' _ rounds', both_lost c' ∧ Forall (Forall reports) rounds' ∧
       (length rounds ≤ polls + length rounds')%nat).
Proof.
  revert rounds c. induction polls as [|polls IH]; intros rounds c Hr Hlen Hl; cbn;
    apply etotal_bind, etotal_get; case_bool_decide;
    try (apply etotal_ret; split_and!; [done|done|lia]).
  destruct rounds as [|calls rounds]; [cbn in Hlen; lia|].
  apply Forall_cons in Hr as [Hc Hr]. cbn in Hlen.
  apply etotal_bind. eapply etotal_mono; [by apply threadSteps_lost|].
  intros c1 _ [] Hl1. eapply etotal_mono; [apply IH; [done|lia|done]|].
  intros c2 _ rounds' (? & ? & ?). split_and!; [done..|cbn; lia].
Qed.

(** [reconnect] never succeeds: whatever the two threads report while it waits, after
    its at most 800 polls it returns false, because [setTxStatus] and [setRxStatus] accept
    a connection only in the startup state. *)
Theorem reconnect_fails c (rounds : list (list threadCall)) :
  Forall (Forall reports) rounds → (800 ≤ length rounds)%nat →
  ∃ c' out, reconnect rounds c = Some (Ok (c', out, false)).
Proof.
  intros Hr Hlen.
  assert (etotal (reconnect rounds) c (λ c' _ b, b = false)) as (c' & out & b & E & ->).
  2: by exists c', out.
  unfold reconnect, reconnectReceiver, reconnectTransmitter, transmit.
  apply etotal_bind, etotal_modify, etotal_bind, etotal_modify, etotal_bind.
  apply etotal_emit, etotal_bind, etotal_emit, etotal_bind.
  eapply etotal_mono; [apply awaitReconnect_lost; [done|lia|done]|].
  intros c1 _ rounds1 (Hl & Hr1 & Hlen1). apply etotal_bind.
  eapply etotal_mono; [apply awaitReconnect_lost; [done|lia|done]|].
  intros c2 _ _ ([[_ Hrx] _] & _). apply etotal_bind, etotal_get, etotal_ret.
  by rewrite bool_decide_false.
Qed.
End status.

(** A receiver and a transmitter that report a connection at every poll. *)
Lemma reconnect_fails_witness :
  ∃ c' out,
    @reconnect NanoTime (repeat [SetRx cs_connected; SetTx cs_connected] 800)
      (newCommsInterface false) = Some (Ok (c', out, false)).
Proof.
  apply (@reconnect_fails NanoTime); [|by rewrite repeat_length].
  apply Forall_forall. intros l Hl%list_elem_of_In%repeat_spec. subst l.
  repeat constructor.
Defined.

(** ** The lock with several threads

    A thread in [propertyLock] makes one attempt at a time; [exp] is its local variable,
    which a failed exchange sets to the value found.  The exchange is the weak one: it can
    fail although the values are equal. *)
Inductive lock_pc :=
  | Trying (exp : bool)
  | Holding
  | Refused.
Record lock_state := mkLockState {
  lk_operating : bool;
  lk_tx_startup : bool;
  lk_threads : list lock_pc;
}.
Inductive lock_action :=
  | Attempt (thread : nat) (spurious : bool)
  | Unlock (thread : nat)
  | LeaveStartup.

Definition lockStep (a : lock_action) (s : lock_state) : option lock_state :=
  match a with
  | Attempt i spurious =>
      match lk_threads s !! i with
      | Some (Trying exp) =>
          if Bool.eqb (lk_operating s) exp && negb spurious then
            Some (mkLockState true (lk_tx_startup s) (<[i := Holding]> (lk_threads s)))
          else
            let pc := if lk_tx_startup s then Trying (lk_operating s) else Refused in
            Some (mkLockState (lk_operating s) (lk_tx_startup s) (<[i := pc]> (lk_threads s)))
      | _ => None
      end
  | Unlock i =>
      match lk_threads s !! i with
      | Some Holding =>
          Some (mkLockState false (lk_tx_startup s)
                  (<[i := Trying false]> (lk_threads s)))
      | _ => None
      end
  | LeaveStartup => Some (mkLockState (lk_operating s) false (lk_threads s))
  end.
Fixpoint lockRun (l : list lock_action) (s : lock_state) : option lock_state :=
  match l with
  | [] => Some s
  | a :: l => lockStep a s ≫= lockRun l
  end.

(** Two threads hold the lock at once. *)
Lemma lock_not_exclusive :
  lockRun [Attempt 0 false; Attempt 1 false; Attempt 1 false]
    (mkLockState false true [Trying false; Trying false])
  = Some (mkLockState true true [Holding; Holding]).
Proof. done. Qed.

(** ** The end of the communication object (CommsBroker_impl.hpp)

    Several threads can call [commDisconnect]; one thread runs the destructor of the
    broker, which deletes the communication object.  [dc_stage] is the atomic
    [disconnectionStage], [dc_calls] counts the calls of [comms->disconnect], and
    [dc_deleted] is [comms = nullptr] of the destructor. *)
Inductive caller_pc :=
  | Calling
  | Disconnecting
  | CallDone.
(** [Exchanging exp]: before the exchange from [exp] to 3; [DestructorCall] before, and
    [DestructorDisconnecting] in the call of [comms->disconnect] of the destructor. *)
Inductive destructor_pc :=
  | NotStarted
  | Exchanging (exp : Z)
  | DestructorCall
  | DestructorDisconnecting
  | Deleted.
Record stages := mkStages {
  dc_stage : Z;
  dc_calls : nat;
  dc_callers : list caller_pc;
  dc_destructor : destructor_pc;
}.
Inductive stage_action :=
  | CallerStep (caller : nat)
  | DestructorStep (spurious : bool).

(** [commDisconnect] of a thread: the exchange from 0 to 1, then the end of the call. *)
Definition callerStep (i : nat) (s : stages) : option stages :=
  match dc_callers s !! i with
  | Some Calling =>
      if dc_stage s =? 0 then
        Some (mkStages 1 (S (dc_calls s)) (<[i := Disconnecting]> (dc_callers s))
                (dc_destructor s))
      else Some (mkStages (dc_stage s) (dc_calls s) (<[i := CallDone]> (dc_callers s))
                   (dc_destructor s))
  | Some Disconnecting =>
      Some (mkStages 2 (dc_calls s) (<[i := CallDone]> (dc_callers s)) (dc_destructor s))
  | _ => None
  end.

(** [~CommsBroker]. *)
Definition destructorStep (spurious : bool) (s : stages) : option stages :=
  let at_pc pc := mkStages (dc_stage s) (dc_calls s) (dc_callers s) pc in
  match dc_destructor s with
  | NotStarted => Some (at_pc (Exchanging 2))
  | Exchanging exp =>
      if (dc_stage s =? exp) && negb spurious then
        Some (mkStages 3 (dc_calls s) (dc_callers s) Deleted)
      else if dc_stage s =? 0 then Some (at_pc DestructorCall)
      else Some (at_pc (Exchanging (dc_stage s)))
  | DestructorCall =>
      if dc_stage s =? 0 then
        Some (mkStages 1 (S (dc_calls s)) (dc_callers s) DestructorDisconnecting)
      else Some (at_pc (Exchanging 1))
  | DestructorDisconnecting =>
      Some (mkStages 2 (dc_calls s) (dc_callers s) (Exchanging 1))
  | Deleted => None
  end.
Definition stageStep (a : stage_action) (s : stages) : option stages :=
  match a with
  | CallerStep i => callerStep i s
  | DestructorStep spurious => destructorStep spurious s
  end.

Inductive stages_reached (n : nat) : stages → Prop :=
  | stages_init : stages_reached n (mkStages 0 0 (repeat Calling n) NotStarted)
  | stages_step s a s' :
      stages_reached n s → stageStep a s = Some s' → stages_reached n s'.

(** The stage counts the calls, and an exchange never expects stage 0. *)
Record stages_inv (s : stages) : Prop := {
  si_range : 0 ≤ dc_stage s ≤ 3;
  si_calls : dc_calls s = if dc_stage s =? 0 then 0%nat else 1%nat;
  si_exp : match dc_destructor s with
           | Exchanging exp => 1 ≤ exp ≤ 3
           | DestructorDisconnecting | Deleted => dc_stage s ≠ 0
           | _ => True
           end;
  si_stage0 : ∀ i, dc_callers s !! i = Some Disconnecting → dc_stage s ≠ 0;
}.

Lemma callerStep_inv i s s' : stages_inv s → callerStep i s = Some s' → stages_inv s'.
Proof.
  intros [Hr Hc He H0] Hs. unfold callerStep in Hs.
  destruct (dc_callers s !! i) as [[| |]|] eqn:Ei; try done.
  - destruct (Z.eqb_spec (dc_stage s) 0) as [E|E]; injection Hs as <-; rewrite ?E in *.
    + split; cbn; [lia|by rewrite Hc| |done]. by destruct (dc_destructor s).
    + split; cbn; [done|by rewrite (proj2 (Z.eqb_neq _ _)) by done|done|].
      intros j Hj. done.
  - specialize (H0 i Ei). injection Hs as <-. split; cbn; [lia| | |done].
    + by rewrite (proj2 (Z.eqb_neq _ _)) in Hc.
    + by destruct (dc_destructor s).
Qed.

Lemma destructorStep_inv b s s' : stages_inv s → destructorStep b s = Some s' → stages_inv s'.
Proof.
  intros [Hr Hc He H0] Hs. unfold destructorStep in Hs.
  destruct (dc_destructor s) as [|exp| | |]; try done.
  - injection Hs as <-. by split; cbn.
  - destruct (Z.eqb_spec (dc_stage s) exp) as [E|E], b; cbn [andb negb] in Hs;
      destruct (Z.eqb_spec (dc_stage s) 0) as [E0|E0]; try lia; injection Hs as <-;
      split; cbn; rewrite ?(proj2 (Z.eqb_neq _ _) E0), ?(proj2 (Z.eqb_eq _ _) E0);
      first [done|lia|intros j Hj; by destruct (H0 j Hj)].
  - destruct (Z.eqb_spec (dc_stage s) 0) as [E0|E0]; injection Hs as <-; split; cbn;
      rewrite ?(proj2 (Z.eqb_neq _ _) E0), ?Hc; first [done|lia].
  - injection Hs as <-. split; cbn; [lia| |lia|done].
    by rewrite (proj2 (Z.eqb_neq _ _)) in Hc.
Qed.

Lemma stages_reached_inv n s : stages_reached n s → stages_inv s.
Proof.
  induction 1 as [|s a s' Hr IH Hs].
  - split; cbn; [lia|done|done|]. intros i Hi.
    by apply list_elem_of_lookup_2, list_elem_of_In, repeat_spec in Hi.
  - destruct a; [by eapply callerStep_inv|by eapply destructorStep_inv].
Qed.


Fixpoint stageRun (l : list stage_action) (s : stages) : option stages :=
  match l with
  | [] => Some s
  | a :: l => stageStep a s ≫= stageRun l
  end.
Lemma stageRun_reached n l s s' :
  stages_reached n s → stageRun l s = Some s' → stages_reached n s'.
Proof.
  revert s. induction l as [|a l IH]; intros s Hr; cbn; [by intros [= <-]|].
  intros (s1 & Hs & Hrun)%bind_Some. apply (IH s1); [by eapply stages_step|done].
Qed.


(** The exchange of the destructor keeps what it found as the value it expects: when a
    thread is in [comms->disconnect], the second attempt succeeds, and the communication
    object is deleted while the thread uses it. *)
Theorem deleted_in_use :
  ∃ s, stages_reached 1 s ∧ dc_destructor s = Deleted ∧ dc_callers s !! 0%nat = Some Disconnecting.
Proof.
  exists (mkStages 3 1 [Disconnecting] Deleted). split; [|done].
  eapply (stageRun_reached 1 [CallerStep 0; DestructorStep false; DestructorStep false;
    DestructorStep false]); [apply stages_init|done].
Qed.
