(* ===== verification/NetworkComms.v ===== *)
(** * Ports and network interfaces
    (src/src/helics/network/NetworkCommsInterface.hpp, NetworkCommsInterface.cpp)

    A broker hands out the ports of its host to the cores and brokers below it:
    [PortAllocator] keeps for each host the ports in use and the next one to try, and
    [generateReplyToIncomingMessage] answers the request of a core, which takes its port
    number from the answer by [loadPortDefinitions]. *)

From stdpp Require Import strings gmap.
From S2P Require Import Prelude HelicsTime Ids ActionMessage Effects NetworkAddress Comms.

Definition localHostString : string := "localhost".

(** ** [class PortAllocator] *)
Record PortAllocator := mkPortAllocator {
  startingPort : Z;
  usedPort : gmap string (gset Z);
  nextPorts : gmap string Z;
}.
#[export] Instance eta_PortAllocator : Eta PortAllocator := λ p,
  mkPortAllocator (startingPort p) (usedPort p) (nextPorts p).

Definition newPortAllocator : PortAllocator := mkPortAllocator (-1) ∅ ∅.

Definition setStartingPortNumber (startPort : Z) (p : PortAllocator) : PortAllocator :=
  p <| startingPort := startPort |>.
Definition getDefaultStartingPort (p : PortAllocator) : Z := startingPort p.

Definition used (host : string) (p : PortAllocator) : gset Z :=
  default ∅ (usedPort p !! host).
Definition isPortUsed (host : string) (port : Z) (p : PortAllocator) : bool :=
  match usedPort p !! host with
  | None => false
  | Some ports => bool_decide (port ∈ ports)
  end.
Definition addUsedPort (host : string) (port : Z) (p : PortAllocator) : PortAllocator :=
  p <| usedPort := <[host := {[port]} ∪ used host p]> (usedPort p) |>.

(** The loop [while (isPortUsed(host, nextPort)) ++nextPort]. *)
Fixpoint skipUsed (fuel : nat) (host : string) (nextPort : Z) (p : PortAllocator) : option Z :=
  match fuel with
  | O => None
  | S fuel =>
      if isPortUsed host nextPort p then skipUsed fuel host (nextPort + 1) p
      else Some nextPort
  end.
(** The loop that marks [count] ports as used. *)
Fixpoint markUsed (count : nat) (host : string) (port : Z) (p : PortAllocator) : PortAllocator :=
  match count with
  | O => p
  | S count => markUsed count host (port + 1) (addUsedPort host port p)
  end.

(** The host name under which the ports of a host are kept. *)
Definition portHost (host : string) : string :=
  if String.eqb host "127.0.0.1" || String.eqb host "::1" then localHostString else host.

(** [PortAllocator::findOpenPort]; the loop passes over used ports only, so that their
    number bounds it. *)
Definition findOpenPort_at (count : Z) (host : string) (p : PortAllocator)
    : option (Z * PortAllocator) :=
  let '(nextPort, p) :=
    match nextPorts p !! host with
    | None => (startingPort p, p <| nextPorts := <[host := startingPort p + count]> (nextPorts p) |>)
    | Some np => (np, p <| nextPorts := <[host := np + count]> (nextPorts p) |>)
    end in
  '(nextPort, p) ←
    (if isPortUsed host nextPort p then
       nextPort ← skipUsed (S (size (used host p))) host (nextPort + 1) p;
       Some (nextPort, p <| nextPorts := <[host := nextPort + count]> (nextPorts p) |>)
     else Some (nextPort, p));
  Some (nextPort, markUsed (Z.to_nat count) host nextPort p).
Definition findOpenPort (count : Z) (host : string) (p : PortAllocator)
    : option (Z * PortAllocator) :=
  findOpenPort_at count (portHost host) p.

(** ** The members of a network interface *)

(** [getDefaultBrokerPort], which a derived class defines. *)
Class DefaultPort := getDefaultBrokerPort : Z.

Record NetworkCommsInterface := mkNetworkCommsInterface {
  nc_comms : CommsInterface;
  nc_brokerPort : Z;
  PortNumber : Z;
  autoPortNumber : bool;
  useOsPortAllocation : bool;
  nc_appendNameToAddress : bool;
  noAckConnection : bool;
  networkType : interface_type;
  maxRetries : Z;
  openPorts : PortAllocator;
}.
#[export] Instance eta_NetworkCommsInterface : Eta NetworkCommsInterface := λ n,
  mkNetworkCommsInterface (nc_comms n) (nc_brokerPort n) (PortNumber n) (autoPortNumber n)
    (useOsPortAllocation n) (nc_appendNameToAddress n) (noAckConnection n) (networkType n)
    (maxRetries n) (openPorts n).

Definition newNetworkComms (type : interface_type) (single : bool) : NetworkCommsInterface := {|
  nc_comms := newCommsInterface single; nc_brokerPort := -1; PortNumber := -1;
  autoPortNumber := true; useOsPortAllocation := false; nc_appendNameToAddress := false;
  noAckConnection := false; networkType := type; maxRetries := 5;
  openPorts := newPortAllocator |}.

Abbreviation netM := (effM NetworkCommsInterface comms_out).

(** An operation of the base class. *)
Definition on_comms {A} (m : commsM A) : netM A := λ n,
  match m (nc_comms n) with
  | Some (Ok (c, out, a)) => Some (Ok (n <| nc_comms := c |>, out, a))
  | Some (Throw what) => Some (Throw what)
  | Some Fault => Some Fault
  | None => None
  end.

Definition setNetProperty (f : NetworkCommsInterface → NetworkCommsInterface) : netM unit :=
  locked ← on_comms propertyLock;
  if locked : bool then _ ← eff_modify f; on_comms propertyUnLock else mret tt.

Definition setBrokerPort (brokerPortNumber : Z) : netM unit :=
  setNetProperty (λ n, n <| nc_brokerPort := brokerPortNumber |>).
Definition setPortNumber (localPortNumber : Z) : netM unit :=
  setNetProperty (λ n,
    let n := n <| PortNumber := localPortNumber |> in
    if 0 <? localPortNumber then n <| autoPortNumber := false |> else n).
Definition setAutomaticPortStartPort (start : Z) : netM unit :=
  setNetProperty (λ n, n <| openPorts := setStartingPortNumber start (openPorts n) |>).
Definition net_setFlag (flag : string) (val : bool) : netM unit :=
  if String.eqb flag "os_port" then setNetProperty (λ n, n <| useOsPortAllocation := val |>)
  else if String.eqb flag "noack_connect" then setNetProperty (λ n, n <| noAckConnection := val |>)
  else on_comms (setFlag flag val).

Section network.
  Context `{TimeRep} `{NetworkEnvironment} `{DefaultPort}.

(** The local address when none is given. *)
Definition defaultLocalAddress (c : CommsInterface) : outcome string :=
  let bTarget := stripProtocol (brokerTargetAddress c) in
  if String.eqb bTarget localHostString || String.eqb bTarget "127.0.0.1"
  then Ok localHostString
  else if String.eqb bTarget "" then
    Ok (match ci_interfaceNetwork c with net_local => localHostString | _ => "*" end)
  else generateMatchingInterfaceAddress (brokerTargetAddress c) (ci_interfaceNetwork c).

(** [NetworkCommsInterface::loadNetworkInfo] *)
Definition net_loadNetworkInfo (netInfo : NetworkBrokerData) : netM unit :=
  _ ← on_comms (loadNetworkInfo netInfo);
  locked ← on_comms propertyLock;
  if negb locked then mret tt
  else
    _ ← eff_modify (λ n, n <| nc_brokerPort := nd_brokerPort netInfo |>
                           <| PortNumber := nd_portNumber netInfo |>
                           <| maxRetries := nd_maxRetries netInfo |>);
    _ ← eff_modify (λ n,
      match networkType n with
      | it_tcp | it_udp =>
          let c := nc_comms n in
          n <| nc_comms := c <| brokerTargetAddress := removeProtocol (brokerTargetAddress c) |>
                             <| localTargetAddress := removeProtocol (localTargetAddress c) |> |>
      | _ => n
      end);
    n ← eff_get;
    _ ← eff_when (String.eqb (localTargetAddress (nc_comms n)) "")
          (local ← eff_lift (defaultLocalAddress (nc_comms n));
           eff_modify (λ n, n <| nc_comms := (nc_comms n) <| localTargetAddress := local |> |>));
    _ ← eff_when (0 <? nd_portStart netInfo)
          (eff_modify (λ n, n <| openPorts :=
             setStartingPortNumber (nd_portStart netInfo) (openPorts n) |>));
    _ ← eff_modify (λ n, if 0 <? PortNumber n then n <| autoPortNumber := false |> else n);
    _ ← eff_modify (λ n, n <| useOsPortAllocation := nd_use_os_port netInfo |>
                           <| nc_appendNameToAddress := nd_appendNameToAddress netInfo |>
                           <| noAckConnection := nd_noAckConnection netInfo |>);
    on_comms propertyUnLock.

(** The first port to hand out when none is set. *)
Definition firstPort (portNumber count : Z) : Z :=
  let dport := portNumber - getDefaultBrokerPort in
  if dport <? 10 * count then getDefaultBrokerPort + 10 * count * (dport + 1)
  else portNumber + 5 * count.

(** The call [openPorts.findOpenPort(count, host)]. *)
Definition openPorts_findOpenPort (count : Z) (host : string) : netM Z :=
  n ← eff_get;
  match findOpenPort count host (openPorts n) with
  | Some (port, ports) => _ ← eff_modify (λ n, n <| openPorts := ports |>); mret port
  | None => eff_unbounded
  end.
(** [NetworkCommsInterface::findOpenPort] *)
Definition net_findOpenPort (count : Z) (host : string) : netM Z :=
  _ ← eff_modify (λ n,
        if getDefaultStartingPort (openPorts n) <? 0
        then n <| openPorts := setStartingPortNumber (firstPort (PortNumber n) count) (openPorts n) |>
        else n);
  openPorts_findOpenPort count host.

Definition generateReplyToIncomingMessage (cmd : ActionMessage) : netM ActionMessage :=
  if isProtocolCommand cmd then
    if messageID cmd =? QUERY_PORTS then
      n ← eff_get;
      mret (setExtraData (protocolMessage PORT_DEFINITIONS) (PortNumber n))
    else if messageID cmd =? REQUEST_PORTS then
      let cnt := if counter cmd =? 0 then 2 else counter cmd in
      openPort ← (if String.eqb (payload cmd) "" then net_findOpenPort cnt localHostString
                  else net_findOpenPort cnt (payload cmd));
      n ← eff_get;
      let portReply := (protocolMessage PORT_DEFINITIONS) <| source_id := PortNumber n |> in
      mret ((setExtraData portReply openPort) <| counter := counter cmd |>)
    else if messageID cmd =? CONNECTION_REQUEST then mret (protocolMessage CONNECTION_ACK)
    else mret (newMessage cmd_ignore)
  else mret (newMessage cmd_ignore).

Definition getAddress (n : NetworkCommsInterface) : string :=
  let c := nc_comms n in
  if (PortNumber n <? 0) && negb (serverMode c) then ci_name c
  else
    let local := localTargetAddress c in
    let address :=
      if String.eqb local "tcp://*" || String.eqb local "tcp://0.0.0.0"
      then makePortAddress "tcp://127.0.0.1" (PortNumber n)
      else if String.eqb local "*" || String.eqb local "0.0.0.0"
      then makePortAddress "127.0.0.1" (PortNumber n)
      else makePortAddress local (PortNumber n) in
    if nc_appendNameToAddress n then address +:+ "/" +:+ ci_name c else address.

Definition generatePortRequest (cnt : Z) (n : NetworkCommsInterface) : ActionMessage :=
  let c := nc_comms n in
  setStringData ((protocolMessage REQUEST_PORTS) <| payload := stripProtocol (localTargetAddress c) |>
                   <| counter := to_uint 16 cnt |>)
    [ci_brokerName c; brokerInitString c].

Definition loadPortDefinitions (cmd : ActionMessage) (n : NetworkCommsInterface)
    : NetworkCommsInterface :=
  if bool_decide (action cmd = cmd_protocol) && (messageID cmd =? PORT_DEFINITIONS) then
    let n := n <| PortNumber := getExtraData cmd |> in
    if getDefaultStartingPort (openPorts n) <? 0 then
      let start :=
        if PortNumber n <? getDefaultBrokerPort + 100
        then getDefaultBrokerPort + 100 + (PortNumber n - getDefaultBrokerPort - 2) * 6
        else getDefaultBrokerPort + 110 + (PortNumber n - getDefaultBrokerPort - 100) * 6 in
      n <| openPorts := setStartingPortNumber start (openPorts n) |>
    else n
  else n.
End network.

(** ** The ports of one host are handed out once *)

Lemma isPortUsed_used host port p : isPortUsed host port p = bool_decide (port ∈ used host p).
Proof.
  unfold isPortUsed, used. destruct (usedPort p !! host); [done|].
  symmetry. apply bool_decide_false. set_solver.
Qed.

(** The used ports from a port on bound the search from there. *)
Lemma skipUsed_total fuel host port p :
  (size (filter (λ x, (port ≤ x)%Z) (used host p)) < fuel)%nat →
  ∃ r, skipUsed fuel host port p = Some r ∧ port ≤ r ∧ r ∉ used host p.
Proof.
  revert port. induction fuel as [|fuel IH]; intros port Hf; [lia|]. cbn.
  rewrite isPortUsed_used. case_bool_decide as Hp; [|by exists port].
  destruct (IH (port + 1)) as (r & Er & Hr & Hu); [|exists r; split_and!; [done|lia|done]].
  apply Nat.lt_le_trans with (size (filter (λ x, port ≤ x) (used host p))); [|lia].
  apply subset_size. split.
  - intros x [Hx1 Hx2]%elem_of_filter. apply elem_of_filter. split; [lia|done].
  - intros Hsub. specialize (Hsub port). rewrite !elem_of_filter in Hsub.
    assert (port + 1 ≤ port) as ?; [|lia]. apply Hsub. done.
Qed.

Lemma used_addUsedPort host host' port p :
  used host' (addUsedPort host port p)
  = if decide (host = host') then {[port]} ∪ used host p else used host' p.
Proof.
  unfold used at 1, addUsedPort. cbn. case_decide as E.
  - subst. by rewrite lookup_insert_eq.
  - by rewrite lookup_insert_ne.
Qed.

Lemma markUsed_spec count host port p :
  nextPorts (markUsed count host port p) = nextPorts p ∧
  startingPort (markUsed count host port p) = startingPort p ∧
  (∀ host' x, x ∈ used host' (markUsed count host port p) ↔
     x ∈ used host' p ∨ host' = host ∧ port ≤ x < port + Z.of_nat count).
Proof.
  revert port p. induction count as [|count IH]; intros port p; cbn [markUsed].
  - split_and!; [done..|]. intros. split; [by left|]. intros [?|[_ ?]]; [done|lia].
  - destruct (IH (port + 1) (addUsedPort host port p)) as (-> & -> & Hu).
    split_and!; [done..|]. intros host' x. rewrite Hu, used_addUsedPort.
    case_decide as E; [subst|]; [|naive_solver].
    rewrite elem_of_union, elem_of_singleton.
    split; [intros [[->|?]|[_ ?]]; [right; split; [done|lia]|by left|right; split; [done|lia]]|].
    intros [?|[_ ?]]; [left; by right|].
    destruct (decide (x = port)); [left; by left|right; split; [done|lia]].
Qed.

(** The ports in use of a host are below the next one to try. *)
Definition alloc_inv (p : PortAllocator) : Prop :=
  ∀ host x, x ∈ used host p → ∃ np, nextPorts p !! host = Some np ∧ x < np.

Lemma alloc_inv_new : alloc_inv newPortAllocator.
Proof. intros host x Hx. unfold used in Hx. cbn in Hx. rewrite lookup_empty in Hx. set_solver. Qed.
Lemma alloc_inv_start z p : alloc_inv p → alloc_inv (setStartingPortNumber z p).
Proof. done. Qed.

(** The next port to try. *)
Definition nextPort (host : string) (p : PortAllocator) : Z :=
  default (startingPort p) (nextPorts p !! host).

Lemma findOpenPort_inv count host p :
  0 ≤ count → alloc_inv p →
  ∃ p', findOpenPort count host p = Some (nextPort (portHost host) p, p') ∧
    alloc_inv p' ∧ startingPort p' = startingPort p ∧
    nextPorts p' = <[portHost host := nextPort (portHost host) p + count]> (nextPorts p).
Proof.
  intros Hc Hinv. unfold findOpenPort. generalize (portHost host) as h. clear host. intros h.
  set (np := nextPort h p).
  set (p1 := p <| nextPorts := <[h := np + count]> (nextPorts p) |>).
  assert (isPortUsed h np p1 = false) as Hfree.
  { rewrite isPortUsed_used. apply bool_decide_false. intros Hx.
    destruct (Hinv h np Hx) as (np' & E & Hlt). subst np. unfold nextPort in Hlt.
    rewrite E in Hlt. cbn in Hlt. lia. }
  exists (markUsed (Z.to_nat count) h np p1).
  destruct (markUsed_spec (Z.to_nat count) h np p1) as (En & Es & Hu).
  rewrite En, Es. split_and!; [| |done|done].
  - unfold findOpenPort_at. subst p1 np. unfold nextPort in *.
    destruct (nextPorts p !! h) eqn:E; cbn [default from_option id] in *; by rewrite Hfree.
  - intros h' x. rewrite Hu, En.
    change (nextPorts p1) with (<[h := np + count]> (nextPorts p)).
    intros [Hx|[-> Hx]].
    + destruct (Hinv h' x Hx) as (np' & E & Hlt). destruct (decide (h = h')) as [<-|Hne].
      * exists (np + count). rewrite lookup_insert_eq. split; [done|].
        subst np. unfold nextPort. rewrite E. cbn. lia.
      * exists np'. by rewrite lookup_insert_ne.
    + exists (np + count). rewrite lookup_insert_eq. split; [done|]. lia.
Qed.

(** ** The requests of cores and brokers for ports *)

(** A core or broker below with the number of ports it asks for: it sends its request and
    loads the answer. *)
Section requests.
  Context `{TimeRep} `{NetworkEnvironment} `{DefaultPort}.

Definition requestPorts (cnt : Z) (peer : NetworkCommsInterface) : netM NetworkCommsInterface :=
  reply ← generateReplyToIncomingMessage (generatePortRequest cnt peer);
  mret (loadPortDefinitions reply peer).
Fixpoint requestAll (peers : list (Z * NetworkCommsInterface)) : netM (list NetworkCommsInterface) :=
  match peers with
  | [] => mret []
  | (cnt, peer) :: peers =>
      peer' ← requestPorts cnt peer;
      rest ← requestAll peers;
      mret (peer' :: rest)
  end.

(** The host of a request, as the ports are kept. *)
Definition peerHost (peer : NetworkCommsInterface) : string :=
  let host := stripProtocol (localTargetAddress (nc_comms peer)) in
  portHost (if String.eqb host "" then localHostString else host).

(** The allocator of a broker is in order, and hands out no port up to its own. *)
Record ports_inv (n : NetworkCommsInterface) : Prop := {
  pi_alloc : alloc_inv (openPorts n);
  pi_start : startingPort (openPorts n) < 0 ∨ PortNumber n < startingPort (openPorts n);
  pi_next : ∀ host np, nextPorts (openPorts n) !! host = Some np → PortNumber n < np;
}.

Lemma firstPort_above portNumber count :
  0 < count → getDefaultBrokerPort ≤ portNumber → portNumber < firstPort portNumber count.
Proof. intros. unfold firstPort. destruct (Z.ltb_spec (portNumber - getDefaultBrokerPort) (10 * count)); nia. Qed.

Lemma openPorts_findOpenPort_spec count host n :
  0 ≤ count → ports_inv n → PortNumber n < startingPort (openPorts n) →
  etotal (openPorts_findOpenPort count host) n (λ n' _ port,
    ports_inv n' ∧ PortNumber n' = PortNumber n ∧ PortNumber n < port ∧
    (∀ np, nextPorts (openPorts n) !! portHost host = Some np → np ≤ port) ∧
    nextPorts (openPorts n') = <[portHost host := port + count]> (nextPorts (openPorts n))).
Proof.
  intros Hc [Ha _ Hn] Hst. apply etotal_bind, etotal_get.
  destruct (findOpenPort_inv count host (openPorts n) Hc Ha) as (p' & -> & Hinv & Es & Enx).
  apply etotal_bind, etotal_modify, etotal_ret.
  set (np := nextPort (portHost host) (openPorts n)) in *.
  assert (PortNumber n < np) as Hnp.
  { subst np. unfold nextPort. destruct (_ !! _) eqn:E; [by eapply Hn|done]. }
  split_and!; [|done|done| |done].
  - split; cbn; [done|right; by rewrite Es|].
    intros h x. rewrite Enx. intros [[<- <-]|[_ Hx]]%lookup_insert_Some; [lia|by eapply Hn].
  - intros np' E. subst np. unfold nextPort. by rewrite E.
Qed.

Lemma net_findOpenPort_spec count host n :
  0 < count → 0 ≤ getDefaultBrokerPort ≤ PortNumber n → ports_inv n →
  etotal (net_findOpenPort count host) n (λ n' _ port,
    ports_inv n' ∧ PortNumber n' = PortNumber n ∧ PortNumber n < port ∧
    (∀ np, nextPorts (openPorts n) !! portHost host = Some np → np ≤ port) ∧
    nextPorts (openPorts n') = <[portHost host := port + count]> (nextPorts (openPorts n))).
Proof.
  intros Hc Hd Hinv. unfold net_findOpenPort. apply etotal_bind, etotal_modify.
  pose proof (firstPort_above (PortNumber n) count Hc (proj2 Hd)) as Hf.
  destruct (Z.ltb_spec (getDefaultStartingPort (openPorts n)) 0) as [Hs|Hs].
  - destruct Hinv as [Ha _ Hn]. eapply etotal_mono; [apply openPorts_findOpenPort_spec|done].
    + lia.
    + split; [done|by right|done].
    + done.
  - apply openPorts_findOpenPort_spec; [lia|done|]. destruct Hinv as [_ [?|?] _]; [|done].
    unfold getDefaultStartingPort in Hs. lia.
Qed.

Lemma requestPorts_spec cnt peer n :
  0 < cnt < 2 ^ 16 → 0 ≤ getDefaultBrokerPort ≤ PortNumber n → ports_inv n →
  etotal (requestPorts cnt peer) n (λ n' _ peer',
    ports_inv n' ∧ PortNumber n' = PortNumber n ∧ PortNumber n < PortNumber peer' ∧
    (∀ np, nextPorts (openPorts n) !! peerHost peer = Some np → np ≤ PortNumber peer') ∧
    nextPorts (openPorts n') = <[peerHost peer := PortNumber peer' + cnt]> (nextPorts (openPorts n))).
Proof.
  intros Hc Hd Hinv. unfold requestPorts. apply etotal_bind.
  unfold generateReplyToIncomingMessage.
  assert (counter (generatePortRequest cnt peer) = cnt) as Ecnt by (apply to_uint_id; exact (conj (Z.lt_le_incl _ _ (proj1 Hc)) (proj2 Hc))).
  change (isProtocolCommand (generatePortRequest cnt peer)) with true. cbv iota.
  change (messageID (generatePortRequest cnt peer) =? QUERY_PORTS) with false.
  change (messageID (generatePortRequest cnt peer) =? REQUEST_PORTS) with true. cbv iota.
  rewrite Ecnt. replace (cnt =? 0) with false by (symmetry; apply Z.eqb_neq; lia).
  change (payload (generatePortRequest cnt peer)) with
    (stripProtocol (localTargetAddress (nc_comms peer))).
  apply etotal_bind.
  assert (∀ b : bool, (if b then net_findOpenPort cnt localHostString
    else net_findOpenPort cnt (stripProtocol (localTargetAddress (nc_comms peer))))
    = net_findOpenPort cnt (if b then localHostString
        else stripProtocol (localTargetAddress (nc_comms peer)))) as -> by by intros [].
  eapply etotal_mono; [apply net_findOpenPort_spec; [lia|done|done]|].
  intros n1 out1 port (Hi & Hp & Hlt & Hnp & Hnx).
  apply etotal_bind, etotal_get, etotal_ret, etotal_ret.
  assert (∀ m : ActionMessage, action m = cmd_protocol → messageID m = PORT_DEFINITIONS →
    PortNumber (loadPortDefinitions m peer) = getExtraData m) as Hload.
  { intros m Ea Em. unfold loadPortDefinitions. rewrite Ea, Em, bool_decide_true by done.
    cbn [andb Z.eqb]. by destruct (_ <? _). }
  rewrite Hload by done. done.
Qed.

(** The later of two requests for the ports of one host gets ports above. *)
Definition granted_in_order (peers : list (Z * NetworkCommsInterface))
    (peers' : list NetworkCommsInterface) : Prop :=
  ∀ (i j : nat) ci pi cj pj pi' pj', (i < j)%nat →
    peers !! i = Some (ci, pi) → peers !! j = Some (cj, pj) →
    peers' !! i = Some pi' → peers' !! j = Some pj' →
    peerHost pi = peerHost pj → PortNumber pi' + ci ≤ PortNumber pj'.

Lemma requestAll_spec peers n :
  Forall (λ q, 0 < q.1 < 2 ^ 16) peers → 0 ≤ getDefaultBrokerPort ≤ PortNumber n → ports_inv n →
  etotal (requestAll peers) n (λ _ _ peers',
    Forall2 (λ q q', PortNumber n < PortNumber q' ∧
      ∀ np, nextPorts (openPorts n) !! peerHost q.2 = Some np → np ≤ PortNumber q') peers peers' ∧
    granted_in_order peers peers').
Proof.
  revert n. induction peers as [|[cnt peer] peers IH]; intros n Hc Hd Hinv.
  - apply etotal_ret. split; [constructor|]. intros i j *. by rewrite lookup_nil.
  - apply Forall_cons in Hc as [Hc0 Hc]. cbn [requestAll]. apply etotal_bind.
    eapply etotal_mono; [by apply requestPorts_spec|].
    intros n1 out1 peer' (Hi & Hp & Hlt & Hnp & Hnx). apply etotal_bind.
    eapply etotal_mono; [apply IH; [done|by rewrite Hp|done]|].
    intros n2 out2 peers' [Hall Hord]. apply etotal_ret. split.
    + constructor; [done|]. eapply Forall2_impl; [exact Hall|]. intros q q' [H1' H2'].
      rewrite Hp in H1'. split; [done|]. intros np E. rewrite Hnx in H2'.
      destruct (decide (peerHost peer = peerHost q.2)) as [Eh|Eh].
      * rewrite Eh, lookup_insert_eq in H2'. rewrite Eh in Hnp.
        specialize (H2' _ eq_refl). specialize (Hnp np E). cbn in Hc0. lia.
      * apply H2'. by rewrite lookup_insert_ne.
    + intros [|i] [|j] ci pi cj pj pi' pj' Hij Ei Ej Ei' Ej' Eh; [lia| |lia|].
      * injection Ei as <- <-. injection Ei' as <-. cbn in Ej, Ej'.
        destruct (Forall2_lookup_lr _ _ _ _ _ _ Hall Ej Ej') as [_ Hge].
        apply Hge. cbn [snd]. by rewrite Hnx, Eh, lookup_insert_eq.
      * eapply (Hord i j); eauto. lia.
Qed.

End requests.

(** The ports of networkDefaults.hpp. *)
Definition DEFAULT_ZMQ_BROKER_PORT_NUMBER : Z := 23404.
Definition DEFAULT_TCP_BROKER_PORT_NUMBER : Z := 24160.
Definition DEFAULT_UDP_BROKER_PORT_NUMBER : Z := 23901.

Definition sample_broker (port : Z) : NetworkCommsInterface :=
  (newNetworkComms it_tcp false) <| PortNumber := port |>.
Definition sample_peer (addr : string) : NetworkCommsInterface :=
  let n := newNetworkComms it_tcp false in
  n <| nc_comms := (nc_comms n) <| localTargetAddress := addr |> |>.


(** A broker on a port below the default answers with a negative port number. *)
Lemma low_broker_port :
  ∃ n' out, @net_findOpenPort DEFAULT_TCP_BROKER_PORT_NUMBER 2 "localhost" (sample_broker 20000)
    = Some (Ok (n', out, -59020)).
Proof. do 2 eexists. by vm_compute. Qed.
(** A port that is entered as used inside of the range is handed out again: only the first
    port of the range is tested. *)
Lemma used_port_handed_out :
  (findOpenPort 2 "host" (addUsedPort "host" 101 (setStartingPortNumber 100 newPortAllocator)))
    ≫= (λ r, Some (r.1)) = Some 100.
Proof. done. Qed.
