(* ===== verification/InprocComms.v ===== *)
(** * The transports inside of one process
    (src/src/helics/network/inproc/InprocComms.cpp, src/src/helics/network/test/TestComms.cpp)

    The transmitter of these transports finds the broker above in the registry of the
    process and then hands each message of its queue to the object on the route.  The two
    classes have the same loop; they differ in the type of broker they look for.

    The registry (the factories, built on a container of gmlc) is the class [Registry]: it
    gives the object, by a number that stands for the pointer.  What the look ups at the
    start find, which other threads change, is an argument. *)

From stdpp Require Import strings gmap.
From S2P Require Import Prelude HelicsTime Ids ActionMessage Effects BrokerBase.
From S2P Require Import NetworkAddress Comms.

(** A pointer to a broker or core. *)
Definition object := nat.

Class Registry := {
  findCore : string → option object;
  findBroker : string → option object;
}.

(** The locals of [queue_tx_function] beside the interface itself. *)
Record inproc_state := mkInproc {
  ip_comms : CommsInterface;
  ip_tbroker : option object;
  ip_routes : gmap route_id object;
}.
#[export] Instance eta_inproc_state : Eta inproc_state := λ s,
  mkInproc (ip_comms s) (ip_tbroker s) (ip_routes s).

(** [Deliver]: [addActionMessage] of an object, for the message of a route; [Dropped]: a
    message without an object. *)
Inductive inproc_out :=
  | Deliver (rid : route_id) (target : object) (cmd : ActionMessage)
  | Dropped (rid : route_id) (cmd : ActionMessage)
  | CommsCall (call : comms_out).

Abbreviation inprocM := (effM inproc_state inproc_out).

Definition on_inproc_comms {A} (m : commsM A) : inprocM A := λ s,
  match m (ip_comms s) with
  | Some (Ok (c, out, a)) => Some (Ok (s <| ip_comms := c |>, CommsCall <$> out, a))
  | Some (Throw what) => Some (Throw what)
  | Some Fault => Some Fault
  | None => None
  end.

(** [InprocComms::loadNetworkInfo], [TestComms::loadNetworkInfo] *)
Definition inproc_loadNetworkInfo (netInfo : NetworkBrokerData) : commsM unit :=
  _ ← loadNetworkInfo netInfo;
  locked ← propertyLock;
  if negb locked then mret tt
  else
    _ ← eff_modify (λ c, if String.eqb (localTargetAddress c) ""
                         then c <| localTargetAddress := ci_name c |> else c);
    propertyUnLock.

Section transmitter.
  Context `{TimeRep} `{Registry}.

(** ** The start of the transmitter *)

Definition connectionFailed : inprocM unit :=
  _ ← on_inproc_comms (setTxStatus cs_error);
  on_inproc_comms (setRxStatus cs_error).

(** One look up: what is found, whether it is open to new federates, and what the factory
    creates if it is asked to, [None] for an exception. *)
Record attempt := mkAttempt {
  at_found : option object;
  at_open : bool;
  at_created : option object;
}.
Definition createBroker (a : attempt) : inprocM (option object) :=
  match at_created a with
  | Some b => mret (Some b)
  | None => eff_lift (Throw "unable to register broker")
  end.

(** The loop for a broker with a name; [None] is the return after a failure.  Another
    attempt than those given is not modelled ([eff_unbounded]). *)
Fixpoint findNamedBroker (totalSleep : Z) (attempts : list attempt) : inprocM (option object) :=
  match attempts with
  | [] => eff_unbounded
  | a :: attempts =>
      s ← eff_get;
      let timeout := connectionTimeout (ip_comms s) in
      match at_found a with
      | None =>
          if autoBroker (ip_comms s) then createBroker a
          else if timeout <? totalSleep then _ ← connectionFailed; mret None
          else findNamedBroker (totalSleep + 200) attempts
      | Some b =>
          if at_open a then mret (Some b)
          else
            let totalSleep := totalSleep + 200 in
            if timeout <? totalSleep then _ ← connectionFailed; mret None
            else findNamedBroker totalSleep attempts
      end
  end.

(** The loop for any broker of the type that is open. *)
Fixpoint findAnyBroker (totalSleep : Z) (attempts : list attempt) : inprocM (option object) :=
  match attempts with
  | [] => eff_unbounded
  | a :: attempts =>
      s ← eff_get;
      match at_found a with
      | Some b => mret (Some b)
      | None =>
          if autoBroker (ip_comms s) then createBroker a
          else if connectionTimeout (ip_comms s) <? totalSleep
          then _ ← connectionFailed; mret None
          else findAnyBroker (totalSleep + 200) attempts
      end
  end.

(** The part before the loop; [coreCopied] and [brokerCopied] are the results of
    [copyCoreIdentifier] and [copyBrokerIdentifier].  The result is whether the loop is
    entered. *)
Definition startTransmitter (coreCopied brokerCopied : bool) (attempts : list attempt)
    : inprocM bool :=
  s ← eff_get;
  let c := ip_comms s in
  if negb (String.eqb (ci_name c) (localTargetAddress c))
     && negb (if String.eqb (ci_brokerName c) "" then brokerCopied
              else coreCopied || brokerCopied)
  then
    _ ← on_inproc_comms (setRxStatus cs_error);
    _ ← on_inproc_comms (setTxStatus cs_error);
    mret false
  else
    _ ← on_inproc_comms (setRxStatus cs_connected);
    _ ← eff_modify (λ s, let c := ip_comms s in
          if String.eqb (ci_brokerName c) "" && negb (String.eqb (brokerTargetAddress c) "")
          then s <| ip_comms := c <| ci_brokerName := brokerTargetAddress c |> |> else s);
    s ← eff_get;
    if negb (String.eqb (ci_brokerName (ip_comms s)) "") then
      b ← findNamedBroker 0 attempts;
      match b with
      | Some b =>
          _ ← eff_modify (λ s, s <| ip_tbroker := Some b |>);
          _ ← on_inproc_comms (setTxStatus cs_connected); mret true
      | None => mret false
      end
    else if negb (serverMode (ip_comms s)) then
      b ← findAnyBroker 0 attempts;
      match b with
      | Some b =>
          _ ← eff_modify (λ s, s <| ip_tbroker := Some b |>);
          _ ← on_inproc_comms (setTxStatus cs_connected); mret true
      | None => mret false
      end
    else _ ← on_inproc_comms (setTxStatus cs_connected); mret true.

(** ** The loop *)

(** [routes.emplace]: an entry that is there is kept. *)
Definition emplaceRoute (rid : route_id) (o : object) (s : inproc_state) : inproc_state :=
  match ip_routes s !! rid with
  | Some _ => s
  | None => s <| ip_routes := <[rid := o]> (ip_routes s) |>
  end.

(** [NEW_ROUTE]: a core, or else a broker, with the address. *)
Definition newRoute (cmd : ActionMessage) : inprocM unit :=
  _ ← match findCore (payload cmd) with
      | Some o => eff_modify (emplaceRoute (getExtraData cmd) o)
      | None => mret tt
      end;
  match findBroker (payload cmd) with
  | Some o => eff_modify (emplaceRoute (getExtraData cmd) o)
  | None => mret tt
  end.

(** A message that is not for the transmitter itself. *)
Definition forward (rid : route_id) (cmd : ActionMessage) : inprocM unit :=
  s ← eff_get;
  let to_broker := match ip_tbroker s with
                   | Some b => eff_emit (Deliver rid b cmd)
                   | None => eff_emit (Dropped rid cmd)
                   end in
  if rid =? parent_route_id then to_broker
  else match ip_routes s !! rid with
       | Some o => eff_emit (Deliver rid o cmd)
       | None => to_broker
       end.

(** One round; the result is [haltLoop]. *)
Definition txRound (rid : route_id) (cmd : ActionMessage) : inprocM bool :=
  if isProtocolCommand cmd && (rid =? control_route) then
    if messageID cmd =? NEW_ROUTE then _ ← newRoute cmd; mret false
    else if messageID cmd =? REMOVE_ROUTE then
      _ ← eff_modify (λ s, s <| ip_routes := delete (getExtraData cmd) (ip_routes s) |>);
      mret false
    else if messageID cmd =? CLOSE_RECEIVER then
      _ ← on_inproc_comms (setRxStatus cs_terminated); mret false
    else if messageID cmd =? DISCONNECT then mret true
    else _ ← forward rid cmd; mret false
  else _ ← forward rid cmd; mret false.

(** After the loop. *)
Definition endTransmitter : inprocM unit :=
  _ ← eff_modify (λ s, s <| ip_routes := ∅ |> <| ip_tbroker := None |>);
  on_inproc_comms (setTxStatus cs_terminated).

(** [TestComms::haltComms] *)
Definition haltComms : commsM unit :=
  c ← eff_get;
  _ ← eff_when (bool_decide (rx_status c = cs_connected))
        (transmit control_route (protocolMessage CLOSE_RECEIVER));
  c ← eff_get;
  eff_when (bool_decide (tx_status c = cs_connected))
    (transmit control_route (protocolMessage DISCONNECT)).
End transmitter.
