(* ===== verification/InprocDelivery.v ===== *)
(** * Messages between brokers and cores of one process

    A broker adds routes and sends messages; the transmitter takes them out of its queue
    at any pace.  The file shows that each message reaches the object on its route, once
    and in order, although the requests for new routes and the priority messages overtake
    the others. *)

From stdpp Require Import strings gmap.
From S2P Require Import Prelude HelicsTime Ids ActionMessage Effects BrokerBase.
From S2P Require Import NetworkAddress Comms InprocComms.

(** A message in the queue of a transmitter. *)
Definition routed : Type := route_id * ActionMessage.

Section link.
  Context `{TimeRep} `{Registry} {Q : Type} `{PriorityQueue routed Q}.
  Implicit Types (q : Q) (s : inproc_state).

(** What the owner of the transport does, and the rounds of the transmitter. *)
Inductive link_act :=
  | LinkRoute (rid : route_id) (addr : string)
  | LinkSend (rid : route_id) (cmd : ActionMessage)
  | LinkPop.

(** The effect of a call on the queue. *)
Definition txQueueOut q (out : comms_out) : Q :=
  match out with
  | TxEmplace rid cmd => pq_push (rid, cmd) q
  | TxEmplacePriority rid cmd => pq_pushPriority (rid, cmd) q
  | _ => q
  end.
Definition ownerCall (m : commsM unit) q s : option (outcome (Q * inproc_state * list inproc_out)) :=
  match m (ip_comms s) with
  | Some (Ok (c, out, _)) => Some (Ok (foldl txQueueOut q out, s <| ip_comms := c |>, []))
  | Some (Throw what) => Some (Throw what)
  | Some Fault => Some Fault
  | None => None
  end.

(** One step; the transmitter waits when its queue is empty. *)
Definition linkStep (a : link_act) q s : option (outcome (Q * inproc_state * list inproc_out)) :=
  match a with
  | LinkRoute rid addr => ownerCall (addRoute rid addr) q s
  | LinkSend rid cmd => ownerCall (transmit rid cmd) q s
  | LinkPop =>
      match pq_pop q with
      | None => Some (Ok (q, s, []))
      | Some ((rid, cmd), q) =>
          match txRound rid cmd s with
          | Some (Ok (s, out, _)) => Some (Ok (q, s, out))
          | Some (Throw what) => Some (Throw what)
          | Some Fault => Some Fault
          | None => None
          end
      end
  end.
Fixpoint linkRun (acts : list link_act) q s : option (outcome (Q * inproc_state * list inproc_out)) :=
  match acts with
  | [] => Some (Ok (q, s, []))
  | a :: acts =>
      match linkStep a q s with
      | Some (Ok (q, s, out)) =>
          match linkRun acts q s with
          | Some (Ok (q, s, out')) => Some (Ok (q, s, out ++ out'))
          | r => r
          end
      | r => r
      end
  end.

(** The object with an address: a core, or else a broker. *)
Definition registered (addr : string) : option object :=
  match findCore addr with Some o => Some o | None => findBroker addr end.

(** Each route is added, with the address of its object in [T], before it is used. *)
Fixpoint well_routed (T : gmap route_id object) (added : gset route_id)
    (acts : list link_act) : Prop :=
  match acts with
  | [] => True
  | LinkRoute rid addr :: acts =>
      rid ≠ control_route ∧ rid ≠ parent_route_id ∧
      is_Some (T !! rid) ∧ registered addr = T !! rid ∧
      well_routed T ({[rid]} ∪ added) acts
  | LinkSend rid cmd :: acts => rid ∈ added ∧ well_routed T added acts
  | LinkPop :: acts => well_routed T added acts
  end.

Definition sent (acts : list link_act) : list routed :=
  omap (λ a, match a with LinkSend rid cmd => Some (rid, cmd) | _ => None end) acts.
Definition delivered (log : list inproc_out) : list routed :=
  omap (λ o, match o with Deliver rid _ cmd => Some (rid, cmd) | _ => None end) log.
(** The priority messages and the others. *)
Definition urgent (l : list routed) : list routed := filter (λ m, isPriorityCommand m.2) l.
Definition normal (l : list routed) : list routed := filter (λ m, ¬ isPriorityCommand m.2) l.
(** The messages that are not for the transmitter itself. *)
Definition foreign (l : list routed) : list routed := filter (λ m, m.1 ≠ control_route) l.

(** ** The invariant *)

(** The message of [addRoute]. *)
Definition routeMessage (rid : route_id) (addr : string) : ActionMessage :=
  setExtraData ((newMessage cmd_protocol_priority) <| payload := addr |>
                  <| messageID := NEW_ROUTE |>) rid.

(** Every priority message in the queue finds its route when its turn comes, starting
    from the routes [rs]. *)
Fixpoint ready (rs : gset route_id) (l : list routed) : Prop :=
  match l with
  | [] => True
  | (rid, cmd) :: l =>
      if rid =? control_route then ready ({[getExtraData cmd]} ∪ rs) l
      else rid ∈ rs ∧ ready rs l
  end.
(** The routes when the priority messages are processed. *)
Fixpoint upcoming (rs : gset route_id) (l : list routed) : gset route_id :=
  match l with
  | [] => rs
  | (rid, cmd) :: l =>
      upcoming (if rid =? control_route then {[getExtraData cmd]} ∪ rs else rs) l
  end.

Lemma upcoming_app rs l l' : upcoming rs (l ++ l') = upcoming (upcoming rs l) l'.
Proof. revert rs. induction l as [|[rid cmd] l IH]; intros rs; [done|]. apply IH. Qed.
Lemma ready_app rs l l' : ready rs (l ++ l') ↔ ready rs l ∧ ready (upcoming rs l) l'.
Proof.
  revert rs. induction l as [|[rid cmd] l IH]; intros rs; cbn; [tauto|].
  destruct (rid =? control_route); rewrite IH; tauto.
Qed.

Context `{!PriorityQueueLaws routed Q}.

Record link_inv (T : gmap route_id object) (added : gset route_id) q s : Prop := {
  li_control : ∀ m : routed, m ∈ pq_high q → m.1 = control_route →
    ∃ rid addr, m.2 = routeMessage rid addr ∧ is_Some (T !! rid) ∧ registered addr = T !! rid;
  li_routes : ip_routes s ⊆ T;
  li_ready : ready (dom (ip_routes s)) (pq_high q);
  li_added : added ⊆ upcoming (dom (ip_routes s)) (pq_high q);
  li_low : ∀ m : routed, m ∈ pq_low q → m.1 ∈ added;
  li_foreign : control_route ∉ added ∧ parent_route_id ∉ added ∧
    ∀ m : routed, m ∈ pq_high q → m.1 ≠ parent_route_id;
  li_class : (∀ m : routed, m ∈ pq_high q → isPriorityCommand m.2 = true) ∧
    (∀ m : routed, m ∈ pq_low q → isPriorityCommand m.2 = false);
}.

(** What a step delivers and leaves in the queue is what was there and what was sent. *)
Definition accounted q (acts : list link_act) (out : list inproc_out) q' : Prop :=
  urgent (delivered out) ++ foreign (pq_high q') = foreign (pq_high q) ++ urgent (sent acts) ∧
  normal (delivered out) ++ pq_low q' = pq_low q ++ normal (sent acts).
(** Every message has gone to the object on its route. *)
Definition on_route (T : gmap route_id object) (out : list inproc_out) : Prop :=
  Forall (λ o, match o with
               | Deliver rid o _ => T !! rid = Some o
               | Dropped _ _ => False
               | CommsCall _ => True
               end) out.

Lemma foreign_app l l' : foreign (l ++ l') = foreign l ++ foreign l'.
Proof. apply filter_app. Qed.
Lemma urgent_app l l' : urgent (l ++ l') = urgent l ++ urgent l'.
Proof. apply filter_app. Qed.
Lemma normal_app l l' : normal (l ++ l') = normal l ++ normal l'.
Proof. apply filter_app. Qed.
Lemma delivered_app l l' : delivered (l ++ l') = delivered l ++ delivered l'.
Proof. apply omap_app. Qed.
Lemma foreign_control cmd : foreign [(control_route, cmd)] = [].
Proof. done. Qed.
Lemma foreign_other m : m.1 ≠ control_route → foreign [m] = [m].
Proof. intros Hm. unfold foreign. by rewrite filter_cons_True. Qed.
Lemma urgent_yes m : isPriorityCommand m.2 = true → urgent [m] = [m].
Proof. intros Hm. unfold urgent. rewrite filter_cons_True; [done|]. by rewrite Hm. Qed.
Lemma urgent_no m : isPriorityCommand m.2 = false → urgent [m] = [].
Proof. intros Hm. unfold urgent. rewrite filter_cons_False; [done|]. rewrite Hm. by intros []. Qed.
Lemma normal_yes m : isPriorityCommand m.2 = false → normal [m] = [m].
Proof. intros Hm. unfold normal. rewrite filter_cons_True; [done|]. rewrite Hm. by intros []. Qed.
Lemma normal_no m : isPriorityCommand m.2 = true → normal [m] = [].
Proof. intros Hm. unfold normal. rewrite filter_cons_False; [done|]. rewrite Hm. intros Hn. by apply Hn. Qed.

Lemma emplaceRoute_spec (T : gmap route_id object) rid o s :
  ip_routes s ⊆ T → T !! rid = Some o →
  ip_routes (emplaceRoute rid o s) ⊆ T ∧
  dom (ip_routes (emplaceRoute rid o s)) = {[rid]} ∪ dom (ip_routes s).
Proof.
  intros Hsub HT. unfold emplaceRoute. destruct (ip_routes s !! rid) eqn:E.
  - split; [done|]. apply elem_of_dom_2 in E. set_solver.
  - change (ip_routes (s <| ip_routes := <[rid:=o]> (ip_routes s) |>))
      with (<[rid:=o]> (ip_routes s)).
    split; [by apply insert_subseteq_l|by rewrite dom_insert_L].
Qed.

Lemma newRoute_spec (T : gmap route_id object) rid addr s :
  ip_routes s ⊆ T → is_Some (T !! rid) → registered addr = T !! rid →
  ∃ s', txRound control_route (routeMessage rid addr) s = Some (Ok (s', [], false)) ∧
    ip_routes s' ⊆ T ∧ dom (ip_routes s') = {[rid]} ∪ dom (ip_routes s).
Proof.
  intros Hsub [o HT] Hreg.
  change (txRound control_route (routeMessage rid addr))
    with (_ ← newRoute (routeMessage rid addr); mret false : inprocM bool).
  unfold newRoute. change (payload (routeMessage rid addr)) with addr.
  change (getExtraData (routeMessage rid addr)) with rid.
  unfold registered in Hreg. rewrite HT in Hreg.
  destruct (findCore addr) as [o1|]; [injection Hreg as ->|rewrite Hreg].
  - destruct (emplaceRoute_spec T rid o s Hsub HT) as [Hs1 Hd1].
    destruct (findBroker addr) as [o2|].
    + exists (emplaceRoute rid o2 (emplaceRoute rid o s)). split; [done|].
      assert (rid ∈ dom (ip_routes (emplaceRoute rid o s))) as Hin by (rewrite Hd1; set_solver).
      apply elem_of_dom in Hin as [o3 E3].
      assert (emplaceRoute rid o2 (emplaceRoute rid o s) = emplaceRoute rid o s) as ->; [|done].
      unfold emplaceRoute at 1. by rewrite E3.
    + by exists (emplaceRoute rid o s).
  - exists (emplaceRoute rid o s). split; [done|]. by apply emplaceRoute_spec.
Qed.

(** A message on a route that is known. *)
Lemma forward_spec rid o cmd s :
  rid ≠ control_route → rid ≠ parent_route_id → ip_routes s !! rid = Some o →
  txRound rid cmd s = Some (Ok (s, [Deliver rid o cmd], false)).
Proof.
  intros Hc Hp E. unfold txRound. rewrite (proj2 (Z.eqb_neq rid control_route)) by done.
  rewrite andb_false_r. unfold forward. rewrite eff_bind_assoc, eff_get_bind.
  rewrite (proj2 (Z.eqb_neq rid parent_route_id)) by done. by rewrite E.
Qed.

Lemma elem_snoc (m m' : routed) l : m' ∈ l ++ [m] → m' ∈ l ∨ m' = m.
Proof. set_solver. Qed.

Lemma step_route T added rid addr q s :
  link_inv T added q s → rid ≠ control_route → rid ≠ parent_route_id →
  is_Some (T !! rid) → registered addr = T !! rid →
  ∃ q', linkStep (LinkRoute rid addr) q s = Some (Ok (q', s, [])) ∧
    link_inv T ({[rid]} ∪ added) q' s ∧ accounted q [LinkRoute rid addr] [] q'.
Proof.
  intros [Hctl Hrt Hrd Had Hlow (Hf1 & Hf2 & Hf3) [Hh Hl]] Hc Hp HT Hreg.
  set (m := (control_route, routeMessage rid addr) : routed).
  exists (pq_pushPriority m q). destruct (pq_pushPriority_lists m q) as [Eh El].
  split; [by destruct s|]. split; [split; rewrite ?Eh, ?El|].
  - intros m' [Hm|Hm]%elem_snoc; [by apply Hctl|].
    subst m'. intros _. by exists rid, addr.
  - done.
  - apply ready_app. split; [done|]. done.
  - rewrite upcoming_app. change (upcoming (upcoming ?rs ?l) [m]) with ({[rid]} ∪ upcoming rs l).
    by apply union_mono_l.
  - intros m' Hm. apply elem_of_union_r. by apply Hlow.
  - split_and!; [apply not_elem_of_union; rewrite not_elem_of_singleton; done..|]. intros m' [Hm|Hm]%elem_snoc;
      [by apply Hf3|by subst].
  - split; [|done]. intros m' [Hm|Hm]%elem_snoc;
      [by apply Hh|by subst].
  - unfold accounted. rewrite Eh, El, foreign_app. subst m. rewrite foreign_control.
    change (urgent (sent [LinkRoute rid addr])) with (@nil routed).
    change (normal (sent [LinkRoute rid addr])) with (@nil routed). by rewrite !app_nil_r.
Qed.

Lemma step_send T added rid cmd q s :
  link_inv T added q s → rid ∈ added →
  ∃ q', linkStep (LinkSend rid cmd) q s = Some (Ok (q', s, [])) ∧
    link_inv T added q' s ∧ accounted q [LinkSend rid cmd] [] q'.
Proof.
  intros [Hctl Hrt Hrd Had Hlow (Hf1 & Hf2 & Hf3) [Hh Hl]] Hin.
  set (m := (rid, cmd) : routed).
  assert (rid ≠ control_route ∧ rid ≠ parent_route_id) as [Hc Hp] by (split; by intros ->).
  cbn [linkStep]. unfold ownerCall, transmit. destruct (isPriorityCommand cmd) eqn:Ep.
  - exists (pq_pushPriority m q). destruct (pq_pushPriority_lists m q) as [Eh El].
    split; [by destruct s|]. split; [split; rewrite ?Eh, ?El|].
    + intros m' [Hm|Hm]%elem_snoc; [by apply Hctl|by subst].
    + done.
    + apply ready_app. split; [done|]. cbn. rewrite (proj2 (Z.eqb_neq _ _)) by done.
      split; [by apply Had|done].
    + rewrite upcoming_app. cbn. by rewrite (proj2 (Z.eqb_neq _ _)).
    + done.
    + split_and!; [done..|]. intros m' [Hm|Hm]%elem_snoc;
        [by apply Hf3|by subst].
    + split; [|done]. intros m' [Hm|Hm]%elem_snoc;
        [by apply Hh|by subst].
    + unfold accounted. rewrite Eh, El, foreign_app, foreign_other by done.
      change (sent [LinkSend rid cmd]) with [m]. rewrite urgent_yes, normal_no by done.
      by rewrite app_nil_r.
  - exists (pq_push m q). destruct (pq_push_lists m q) as [Eh El].
    split; [by destruct s|]. split; [split; rewrite ?Eh, ?El; try done|].
    + intros m' [Hm|Hm]%elem_snoc; [by apply Hlow|by subst].
    + split; [done|]. intros m' [Hm|Hm]%elem_snoc;
        [by apply Hl|by subst].
    + unfold accounted. rewrite Eh, El.
      change (sent [LinkSend rid cmd]) with [m]. rewrite urgent_no, normal_yes by done.
      by rewrite app_nil_r.
Qed.

Lemma step_pop_high T added (m : routed) q q' s :
  link_inv T added q s → pq_high q = m :: pq_high q' → pq_low q' = pq_low q →
  ∃ s' out b, txRound m.1 m.2 s = Some (Ok (s', out, b)) ∧
    link_inv T added q' s' ∧ accounted q [LinkPop] out q' ∧ on_route T out.
Proof.
  intros [Hctl Hrt Hrd Had Hlow (Hf1 & Hf2 & Hf3) [Hh Hl]] Eh El.
  rewrite Eh in Hctl, Hrd, Had, Hf3, Hh. destruct m as [rid cmd]. cbn [fst snd]. cbn in Hrd, Had.
  assert (∀ m : routed, m ∈ pq_high q' → m ∈ (rid, cmd) :: pq_high q') as Hin
    by (intros; by apply list_elem_of_further).
  unfold accounted. rewrite Eh, El.
  change (urgent (sent [LinkPop])) with (@nil routed).
  change (normal (sent [LinkPop])) with (@nil routed). rewrite !app_nil_r.
  destruct (Z.eqb_spec rid control_route) as [->|Hc].
  - destruct (Hctl (control_route, cmd)) as (rid & addr & Ecmd & HT & Hreg); [by left|done|].
    cbn in Ecmd. subst cmd.
    destruct (newRoute_spec T rid addr s Hrt HT Hreg) as (s' & R & Hsub & Hdom).
    exists s', [], false. split; [done|].
    change (getExtraData (routeMessage rid addr)) with rid in *.
    split; [split; rewrite ?Hdom, ?El; auto|]. by split; [|constructor].
  - destruct Hrd as [Hr Hrd]. apply elem_of_dom in Hr as [o Eo].
    pose proof (forward_spec rid o cmd s Hc (Hf3 (rid, cmd) (list_elem_of_here _ _)) Eo) as R.
    exists s, [Deliver rid o cmd], false. split; [done|].
    split; [split; rewrite ?El; auto|]. split.
    + pose proof (Hh (rid, cmd) (list_elem_of_here _ _)) as Ep.
      change (delivered [Deliver rid o cmd]) with [(rid, cmd) : routed].
      rewrite urgent_yes, normal_no by done. split; [|done].
      change ((rid, cmd) :: pq_high q') with ([(rid, cmd)] ++ pq_high q').
      by rewrite foreign_app, foreign_other.
    + repeat constructor. by eapply lookup_weaken.
Qed.

Lemma step_pop_low T added (m : routed) q q' s :
  link_inv T added q s → pq_high q = [] → pq_high q' = [] → pq_low q = m :: pq_low q' →
  ∃ s' out b, txRound m.1 m.2 s = Some (Ok (s', out, b)) ∧
    link_inv T added q' s' ∧ accounted q [LinkPop] out q' ∧ on_route T out.
Proof.
  intros [Hctl Hrt Hrd Had Hlow (Hf1 & Hf2 & Hf3) [Hh Hl]] Eh Eh' El.
  rewrite Eh in Had. rewrite El in Hlow, Hl. destruct m as [rid cmd]. cbn [fst snd]. cbn in Had.
  pose proof (Hlow (rid, cmd) (list_elem_of_here _ _)) as Hr. cbn in Hr.
  assert (rid ≠ control_route ∧ rid ≠ parent_route_id) as [Hc Hp] by (split; by intros ->).
  assert (∃ o, ip_routes s !! rid = Some o) as [o Eo] by (apply elem_of_dom; by apply Had).
  exists s, [Deliver rid o cmd], false. split; [by apply forward_spec|].
  assert (∀ m : routed, m ∈ pq_low q' → m ∈ (rid, cmd) :: pq_low q') as Hin
    by (intros; by apply list_elem_of_further).
  split; [split; rewrite ?Eh'; split_and?; eauto;
    first [done|by intros m Hm%not_elem_of_nil]|].
  - split; [|repeat constructor; by eapply lookup_weaken].
    pose proof (Hl (rid, cmd) (list_elem_of_here _ _)) as Ep.
    unfold accounted. rewrite Eh, El, Eh'.
    change (delivered [Deliver rid o cmd]) with [(rid, cmd) : routed].
    rewrite urgent_no, normal_yes by done.
    change (urgent (sent [LinkPop])) with (@nil routed).
    change (normal (sent [LinkPop])) with (@nil routed). by rewrite !app_nil_r.
Qed.

Lemma step_pop T added q s :
  link_inv T added q s →
  ∃ q' s' out, linkStep LinkPop q s = Some (Ok (q', s', out)) ∧
    link_inv T added q' s' ∧ accounted q [LinkPop] out q' ∧ on_route T out.
Proof.
  intros Hinv. cbn [linkStep]. pose proof (pq_pop_lists q) as Hpop.
  destruct (pq_pop q) as [[[rid cmd] q']|].
  - assert (∃ s' out b, txRound rid cmd s = Some (Ok (s', out, b)) ∧
      link_inv T added q' s' ∧ accounted q [LinkPop] out q' ∧ on_route T out)
      as (s' & out & b & -> & Hs).
    { destruct Hpop as [[Eh El]|(Eh & Eh' & El)];
        [by apply (step_pop_high T added (rid, cmd))|by apply (step_pop_low T added (rid, cmd))]. }
    by exists q', s', out.
  - exists q, s, []. split; [done|]. split; [done|]. split; [|constructor].
    unfold accounted. change (urgent (sent [LinkPop])) with (@nil routed).
    change (normal (sent [LinkPop])) with (@nil routed). by rewrite !app_nil_r.
Qed.

Lemma accounted_trans q a acts out out' q1 q2 :
  accounted q [a] out q1 → accounted q1 acts out' q2 → accounted q (a :: acts) (out ++ out') q2.
Proof.
  unfold accounted. intros [U N] [U' N'].
  assert (sent (a :: acts) = sent [a] ++ sent acts) as -> by (by destruct a).
  rewrite delivered_app, !urgent_app, !normal_app.
  split; rewrite <- !app_assoc; [rewrite U', app_assoc, U|rewrite N', app_assoc, N];
    by rewrite <- app_assoc.
Qed.

Lemma linkRun_spec T added acts q s :
  link_inv T added q s → well_routed T added acts →
  ∃ q' s' log, linkRun acts q s = Some (Ok (q', s', log)) ∧
    accounted q acts log q' ∧ on_route T log.
Proof.
  revert added q s. induction acts as [|a acts IH]; intros added q s Hinv Hw.
  - exists q, s, []. split; [done|]. split; [|constructor].
    unfold accounted. by rewrite !app_nil_r.
  - assert (∃ added' q1 s1 out, linkStep a q s = Some (Ok (q1, s1, out)) ∧
      link_inv T added' q1 s1 ∧ accounted q [a] out q1 ∧ on_route T out ∧
      well_routed T added' acts) as (added' & q1 & s1 & out & R & Hi & Ha & Ho & Hw').
    { destruct a as [rid addr|rid cmd|].
      - destruct Hw as (Hc & Hp & HT & Hreg & Hw).
        destruct (step_route T added rid addr q s) as (q1 & R & Hi & Ha); [done..|].
        exists ({[rid]} ∪ added), q1, s, []. split_and!; try done. constructor.
      - destruct Hw as [Hr Hw].
        destruct (step_send T added rid cmd q s) as (q1 & R & Hi & Ha); [done..|].
        exists added, q1, s, []. split_and!; try done. constructor.
      - destruct (step_pop T added q s) as (q1 & s1 & out & R & Hi & Ha & Ho); [done|].
        by exists added, q1, s1, out. }
    destruct (IH added' q1 s1 Hi Hw') as (q2 & s2 & out' & R' & Ha' & Ho').
    exists q2, s2, (out ++ out'). split; [cbn; by rewrite R, R'|].
    split; [by eapply accounted_trans|by apply Forall_app].
Qed.

End link.

(** ** A concrete queue and a run *)

(** The queue as two lists. *)
#[export] Instance two_lists A : PriorityQueue A (list A * list A) := {
  pq_new := ([], []);
  pq_push := λ m q, (q.1, q.2 ++ [m]);
  pq_pushPriority := λ m q, (q.1 ++ [m], q.2);
  pq_pop := λ q, match q with
                 | (m :: high, low) => Some (m, (high, low))
                 | ([], m :: low) => Some (m, ([], low))
                 | ([], []) => None
                 end;
}.
#[export] Instance two_lists_laws A : PriorityQueueLaws A (list A * list A).
Proof.
  refine {| pq_high := fst; pq_low := snd |}; [done..|].
  intros [[|m high] [|m' low]]; cbn; auto.
Defined.

Definition sample_registry : Registry := {|
  findCore := λ addr, if String.eqb addr "core1" then Some 7%nat else None;
  findBroker := λ addr, if String.eqb addr "broker1" then Some 3%nat else None |}.

Definition sample_link : inproc_state := mkInproc (newCommsInterface true) (Some 1%nat) ∅.
(** A value is sent after a route is added, and an initialization grant, which is a
    priority message, before the transmitter has done anything. *)
Definition sample_acts : list link_act :=
  let val := @newMessage NanoTime cmd_pub in
  let ack := @newMessage NanoTime cmd_fed_ack in
  [LinkRoute 4 "core1"; LinkSend 4 val; LinkRoute 5 "broker1"; LinkSend 5 ack;
   LinkPop; LinkPop; LinkPop; LinkPop].

