(* ===== verification/AppMonad.v ===== *)
(** * Exceptions in the application interface

    The classes of the application interface change their objects also when they throw, and
    applications catch the exceptions.  In the monad of this file an operation therefore
    leaves a state together with a value, an exception, or the use of a pointer that does
    not point to an object; what it does to the outside is recorded in order. *)

From S2P Require Import Prelude.

(** The exceptions that the code tells apart: [FunctionExecutionFailure], the other ones
    of the library, [InvalidFunctionCall] and [RegistrationFailure] among them, and those
    of the standard library. *)
Inductive exception :=
  | FunctionExecutionFailure
  | InvalidFunctionCall
  | RegistrationFailure
  | InvalidIdentifier
  | InvalidParameter
  | ConnectionFailure
  | HelicsSystemFailure
  | OtherHelicsException
  | StdException.
Definition is_helics (e : exception) : bool :=
  match e with StdException => false | _ => true end.
Definition any_exception (e : exception) : bool := true.

(** A value, an exception, or a null pointer that was used. *)
Inductive result (A : Type) :=
  | Value (a : A)
  | Raise (e : exception)
  | NullPointer.
Arguments Value {A}. Arguments Raise {A}. Arguments NullPointer {A}.

(** ** The monad *)

Definition excM (S E A : Type) : Type := S → S * list E * result A.

Section monad.
  Context {S E : Type}.

#[export] Instance excM_ret : MRet (excM S E) := λ A a s, (s, [], Value a).
#[export] Instance excM_bind : MBind (excM S E) := λ A B g m s,
  match m s with
  | (s1, out1, Value a) => let '(s2, out2, r) := g a s1 in (s2, out1 ++ out2, r)
  | (s1, out1, Raise e) => (s1, out1, Raise e)
  | (s1, out1, NullPointer) => (s1, out1, NullPointer)
  end.

Definition app_get : excM S E S := λ s, (s, [], Value s).
Definition app_modify (g : S → S) : excM S E unit := λ s, (g s, [], Value tt).
Definition app_emit (e : E) : excM S E unit := λ s, (s, [e], Value tt).
Definition app_raise {A} (e : exception) : excM S E A := λ s, (s, [], Raise e).
Definition app_null {A} : excM S E A := λ s, (s, [], NullPointer).
(** [try { m } catch (...) { h }] for the exceptions in [p]. *)
Definition app_catch {A} (p : exception → bool) (m : excM S E A) (h : exception → excM S E A)
    : excM S E A :=
  λ s, match m s with
       | (s1, out1, Raise e) =>
           if p e then let '(s2, out2, r) := h e s1 in (s2, out1 ++ out2, r)
           else (s1, out1, Raise e)
       | r => r
       end.
Definition app_returns {A} (r : exception + A) : excM S E A :=
  match r with inl e => app_raise e | inr a => mret a end.

(** ** Results

    [awp m s Q]: from [s] the operation uses no null pointer, and [Q] holds of the state it
    leaves, its record and its value or exception. *)
Definition awp {A} (m : excM S E A) s (Q : S → list E → exception + A → Prop) : Prop :=
  match m s with
  | (s', out, Value a) => Q s' out (inr a)
  | (s', out, Raise e) => Q s' out (inl e)
  | (_, _, NullPointer) => False
  end.

Lemma awp_ret {A} (a : A) s (Q : S → list E → exception + A → Prop) :
  Q s [] (inr a) → awp (mret a) s Q.
Proof. done. Qed.
Lemma awp_raise {A} e s (Q : S → list E → exception + A → Prop) :
  Q s [] (inl e) → awp (app_raise e) s Q.
Proof. done. Qed.
Lemma awp_get s (Q : S → list E → exception + S → Prop) : Q s [] (inr s) → awp app_get s Q.
Proof. done. Qed.
Lemma awp_modify g s (Q : S → list E → exception + unit → Prop) :
  Q (g s) [] (inr tt) → awp (app_modify g) s Q.
Proof. done. Qed.
Lemma awp_emit e s (Q : S → list E → exception + unit → Prop) :
  Q s [e] (inr tt) → awp (app_emit e) s Q.
Proof. done. Qed.
Lemma awp_bind {A B} (m : excM S E A) (g : A → excM S E B) s Q :
  awp m s (λ s1 out1 r, match r with
                        | inl e => Q s1 out1 (inl e)
                        | inr a => awp (g a) s1 (λ s2 out2, Q s2 (out1 ++ out2))
                        end) →
  awp (a ← m; g a) s Q.
Proof.
  unfold awp, mbind, excM_bind. destruct (m s) as [[s1 out1] [a|e|]]; [|done..].
  by destruct (g a s1) as [[s2 out2] [b|e|]].
Qed.
Lemma awp_mono {A} (m : excM S E A) s (Q Q' : S → list E → exception + A → Prop) :
  awp m s Q → (∀ s' out r, Q s' out r → Q' s' out r) → awp m s Q'.
Proof. unfold awp. destruct (m s) as [[s1 out1] [a|e|]]; auto. Qed.
Lemma awp_and {A} (m : excM S E A) s (Q Q' : S → list E → exception + A → Prop) :
  awp m s Q → awp m s Q' → awp m s (λ s' out r, Q s' out r ∧ Q' s' out r).
Proof. unfold awp. destruct (m s) as [[s1 out1] [a|e|]]; auto. Qed.
(** The application catches the exception and goes on with it. *)
Definition app_try {A} (m : excM S E A) : excM S E (exception + A) :=
  app_catch any_exception (a ← m; mret (inr a)) (λ e, mret (inl e)).
Lemma awp_try {A} (m : excM S E A) s Q :
  awp m s (λ s' out r, Q s' out (inr r)) → awp (app_try m) s Q.
Proof.
  unfold awp, app_try, app_catch, mbind, excM_bind.
  destruct (m s) as [[s1 out1] [a|e|]]; cbn; rewrite ?app_nil_r; done.
Qed.
End monad.
