(* ===== verification/AppFederate.v ===== *)
(** * The federate object of an application
    (src/src/helics/application_api/Federate.hpp, Federate.cpp, AsyncFedCallInfo.hpp)

    An application works with a [Federate]: it enters the modes of a simulation and asks
    for time, by calls that wait or by pairs of calls, the first of which starts the work
    in another thread and the second waits for its result in a future.

    What the federate uses of its core is the class [FederateCore]: each call has a result
    or an exception.  A call that runs in another thread is run when it is started, and
    its result is kept in the future: the federate does not use the core in between.  An
    operation changes the federate also when it throws, so that the monad here keeps the
    state with an exception, and records the calls of the core and of the virtual methods
    that derived classes override. *)

From stdpp Require Import strings gmap.
From S2P Require Import Prelude HelicsTime ActionMessage AppMonad.

(** [enum class iteration_result] *)
Inductive iteration_result := ir_next_step | ir_error | ir_halted | ir_iterating.
#[export] Instance iteration_result_eq_dec : EqDecision iteration_result.
Proof. solve_decision. Defined.

(** [enum class modes] *)
Inductive modes :=
  | m_startup
  | m_initializing
  | m_executing
  | m_finalize
  | m_error
  | m_pending_init
  | m_pending_exec
  | m_pending_time
  | m_pending_iterative_time
  | m_pending_finalize.
#[export] Instance modes_eq_dec : EqDecision modes.
Proof. solve_decision. Defined.

(** What a federate calls of its core. *)
Class FederateCore `{TimeRep} (W : Type) := {
  core_enterInitializingMode : W → W * (exception + unit);
  core_enterExecutingMode : iteration_request → W → W * (exception + iteration_result);
  core_timeRequest : Time → W → W * (exception + Time);
  core_requestTimeIterative :
    Time → iteration_request → W → W * (exception + Time * iteration_result);
  core_getCurrentTime : W → Time;
  core_finalize : W → W * (exception + unit);
  core_localError : Z → string → W → W;
  core_globalError : Z → string → W → W;
  core_closeFilters : W → W;
  core_query : string → string → W → string;
}.

(** What is recorded: calls of the core, and calls of virtual methods. *)
Inductive app_event :=
  | CoreEnterInit
  | CoreEnterExec (iterate : iteration_request)
  | CoreTimeRequest (next : Time)
  | CoreTimeIterative (next : Time) (iterate : iteration_request)
  | CoreFinalize
  | CoreLocalError (code : Z)
  | CoreGlobalError (code : Z)
  | CoreCloseFilters
  | HookStartupToInit
  | HookInitToExec
  | HookUpdateTime (newTime oldTime : Time).

(** The virtual methods that a derived class overrides, in a federate of a given mode: they
    change the core and the members of the derived class ([D]), and can throw. *)
Class FederateVirtuals `{TimeRep} (W D : Type) := {
  v_startupToInitialize : modes → W → D → W * D * result unit;
  v_initializeToExecute : modes → W → D → W * D * result unit;
  v_updateTime : modes → Time → Time → W → D → W * D * result unit;
}.

Section federate.
  Context `{TimeRep} {W D : Type} `{!FederateCore W} `{!FederateVirtuals W D}.

(** [class Federate] with the futures of [AsyncFedCallInfo]; a future that has no state is
    [None].  [coreObject] is [None] for a null pointer, and otherwise the core. *)
Record Federate := mkFederate {
  currentMode : modes;
  currentTime : Time;
  coreObject : option W;
  derived : D;
  hasFilterManager : bool;
  initFuture : option (exception + unit);
  execFuture : option (exception + iteration_result);
  timeRequestFuture : option (exception + Time);
  timeRequestIterativeFuture : option (exception + Time * iteration_result);
  finalizeFuture : option (exception + unit);
  queryCounter : Z;
  inFlightQueries : gmap Z (option string);
}.
#[export] Instance eta_Federate : Eta Federate := λ f,
  mkFederate (currentMode f) (currentTime f) (coreObject f) (derived f) (hasFilterManager f)
    (initFuture f) (execFuture f) (timeRequestFuture f) (timeRequestIterativeFuture f)
    (finalizeFuture f) (queryCounter f) (inFlightQueries f).

(** The end of the constructors, with a core that has registered the federate. *)
Definition newFederate (w : W) (d : D) : Federate := {|
  currentMode := m_startup; currentTime := core_getCurrentTime w; coreObject := Some w;
  derived := d; hasFilterManager := true; initFuture := None; execFuture := None;
  timeRequestFuture := None; timeRequestIterativeFuture := None; finalizeFuture := None;
  queryCounter := 0; inFlightQueries := ∅ |}.

Abbreviation appM := (excM Federate app_event).

(** A call of the core. *)
Definition callCore {A} (e : app_event) (call : W → W * (exception + A)) : appM (exception + A) :=
  λ f, match coreObject f with
       | None => (f, [], NullPointer)
       | Some w => let '(w, r) := call w in (f <| coreObject := Some w |>, [e], Value r)
       end.
(** A call that waits: its exception passes on. *)
Definition call {A} (e : app_event) (c : W → W * (exception + A)) : appM A :=
  r ← callCore e c; app_returns r.
(** A call of the core without a result. *)
Definition tellCore (e : app_event) (g : W → W) : appM unit :=
  call e (λ w, (g w, inr tt)).
Definition readCore {A} (g : W → A) : appM A := λ f,
  match coreObject f with None => (f, [], NullPointer) | Some w => (f, [], Value (g w)) end.

(** A call of a virtual method, which happens only while there is a core. *)
Definition callVirtual (e : app_event) (v : modes → W → D → W * D * result unit) : appM unit :=
  λ f, match coreObject f with
       | None => (f, [], NullPointer)
       | Some w =>
           let '(w, d, r) := v (currentMode f) w (derived f) in
           (f <| coreObject := Some w |> <| derived := d |>, [e], r)
       end.
Definition virtualUpdateTime (newTime oldTime : Time) : appM unit :=
  callVirtual (HookUpdateTime newTime oldTime) (λ m, v_updateTime m newTime oldTime).

(** [future.get()]: the state of the future is gone afterwards. *)
Definition futureGet {A} (get : Federate → option (exception + A)) (clear : Federate → Federate)
    : appM A :=
  f ← app_get;
  match get f with
  | None => app_raise StdException
  | Some r => _ ← app_modify clear; app_returns r
  end.
Definition getInit : appM unit := futureGet initFuture (λ f, f <| initFuture := None |>).
Definition getExec : appM iteration_result :=
  futureGet execFuture (λ f, f <| execFuture := None |>).
Definition getTime : appM Time :=
  futureGet timeRequestFuture (λ f, f <| timeRequestFuture := None |>).
Definition getTimeIterative : appM (Time * iteration_result) :=
  futureGet timeRequestIterativeFuture (λ f, f <| timeRequestIterativeFuture := None |>).
Definition getFinalize : appM unit :=
  futureGet finalizeFuture (λ f, f <| finalizeFuture := None |>).

Definition setMode (m : modes) : appM unit := app_modify (λ f, f <| currentMode := m |>).
Definition setTime (t : Time) : appM unit := app_modify (λ f, f <| currentTime := t |>).
(** A handler that sets the error mode and passes the exception on. *)
Definition toError {A} (e : exception) : appM A := _ ← setMode m_error; app_raise e.

(** ** Initialization *)

(** What follows the call of the core: the mode, the time and the virtual method. *)
Definition initialized : appM unit :=
  _ ← setMode m_initializing;
  t ← readCore core_getCurrentTime;
  _ ← setTime t;
  callVirtual HookStartupToInit v_startupToInitialize.

(** The case [startup] of [enterInitializingMode]. *)
Definition initFromStartup : appM unit :=
  app_catch is_helics
    (_ ← call CoreEnterInit core_enterInitializingMode; initialized)
    toError.
(** The case [pending_init] of [enterInitializingModeComplete]. *)
Definition initFromPending : appM unit :=
  _ ← app_catch any_exception getInit toError;
  initialized.

Definition enterInitializingMode : appM unit :=
  f ← app_get;
  match currentMode f with
  | m_startup => initFromStartup
  | m_pending_init => initFromPending
  | m_initializing => mret tt
  | _ => app_raise InvalidFunctionCall
  end.
Definition enterInitializingModeAsync : appM unit :=
  f ← app_get;
  match currentMode f with
  | m_startup =>
      _ ← setMode m_pending_init;
      r ← callCore CoreEnterInit core_enterInitializingMode;
      app_modify (λ f, f <| initFuture := Some r |>)
  | m_pending_init | m_initializing => mret tt
  | _ => app_raise InvalidFunctionCall
  end.
Definition enterInitializingModeComplete : appM unit :=
  f ← app_get;
  match currentMode f with
  | m_pending_init => initFromPending
  | m_initializing => mret tt
  | m_startup => initFromStartup
  | _ => app_raise InvalidFunctionCall
  end.

(** ** Time requests *)

(** The switch on the result of an iterative request. *)
Definition iterativeResult (it : Time * iteration_result) : appM (Time * iteration_result) :=
  f ← app_get;
  let oldTime := currentTime f in
  _ ← match it.2 with
      | ir_next_step => _ ← setTime it.1; virtualUpdateTime it.1 oldTime
      | ir_iterating => virtualUpdateTime oldTime oldTime
      | ir_halted =>
          _ ← setTime it.1;
          _ ← virtualUpdateTime it.1 oldTime;
          setMode m_finalize
      | ir_error => setMode m_error
      end;
  mret it.

Definition requestTime (next : Time) : appM Time :=
  f ← app_get;
  match currentMode f with
  | m_executing =>
      app_catch (λ e, match e with FunctionExecutionFailure => true | _ => false end)
        (newTime ← call (CoreTimeRequest next) (core_timeRequest next);
         f ← app_get;
         let oldTime := currentTime f in
         _ ← setTime newTime;
         _ ← virtualUpdateTime newTime oldTime;
         _ ← (if newTime =? Time_maxVal then setMode m_finalize else mret tt);
         mret newTime)
        toError
  | m_finalize => mret Time_maxVal
  | _ => app_raise InvalidFunctionCall
  end.
Definition requestTimeIterative (next : Time) (iterate : iteration_request)
    : appM (Time * iteration_result) :=
  f ← app_get;
  match currentMode f with
  | m_executing =>
      it ← call (CoreTimeIterative next iterate) (core_requestTimeIterative next iterate);
      iterativeResult it
  | m_finalize => mret (Time_maxVal, ir_halted)
  | _ => app_raise InvalidFunctionCall
  end.
Definition requestTimeAsync (next : Time) : appM unit :=
  f ← app_get;
  match currentMode f with
  | m_executing =>
      _ ← setMode m_pending_time;
      r ← callCore (CoreTimeRequest next) (core_timeRequest next);
      app_modify (λ f, f <| timeRequestFuture := Some r |>)
  | _ => app_raise InvalidFunctionCall
  end.
Definition requestTimeIterativeAsync (next : Time) (iterate : iteration_request) : appM unit :=
  f ← app_get;
  match currentMode f with
  | m_executing =>
      _ ← setMode m_pending_iterative_time;
      r ← callCore (CoreTimeIterative next iterate) (core_requestTimeIterative next iterate);
      app_modify (λ f, f <| timeRequestIterativeFuture := Some r |>)
  | _ => app_raise InvalidFunctionCall
  end.
Definition requestTimeComplete : appM Time :=
  f ← app_get;
  match currentMode f with
  | m_pending_time =>
      _ ← setMode m_executing;
      newTime ← getTime;
      f ← app_get;
      let oldTime := currentTime f in
      _ ← setTime newTime;
      _ ← virtualUpdateTime newTime oldTime;
      mret newTime
  | _ => app_raise InvalidFunctionCall
  end.
Definition requestTimeIterativeComplete : appM (Time * iteration_result) :=
  f ← app_get;
  match currentMode f with
  | m_pending_iterative_time =>
      _ ← setMode m_executing;
      it ← getTimeIterative;
      iterativeResult it
  | _ => app_raise InvalidFunctionCall
  end.

(** ** Execution *)

(** The switch on the result of the core. *)
Definition execResult (res : iteration_result) : appM unit :=
  match res with
  | ir_next_step =>
      _ ← setMode m_executing;
      _ ← setTime timeZero;
      callVirtual HookInitToExec v_initializeToExecute
  | ir_iterating =>
      _ ← setMode m_initializing;
      f ← app_get;
      virtualUpdateTime (currentTime f) (currentTime f)
  | ir_error => setMode m_error
  | ir_halted => setMode m_finalize
  end.

(** The case [initializing] of [enterExecutingMode]. *)
Definition execFromInitializing (iterate : iteration_request) : appM iteration_result :=
  res ← call (CoreEnterExec iterate) (core_enterExecutingMode iterate);
  _ ← execResult res;
  mret res.
(** The case [pending_exec] of [enterExecutingModeComplete]. *)
Definition execFromPending : appM iteration_result :=
  app_catch any_exception (res ← getExec; _ ← execResult res; mret res) toError.

Definition enterExecutingMode (iterate : iteration_request) : appM iteration_result :=
  f ← app_get;
  match currentMode f with
  | m_startup | m_pending_init => _ ← enterInitializingMode; execFromInitializing iterate
  | m_initializing => execFromInitializing iterate
  | m_pending_exec => execFromPending
  | m_executing => mret ir_next_step
  | m_pending_time => _ ← requestTimeComplete; mret ir_next_step
  | m_pending_iterative_time =>
      it ← requestTimeIterativeComplete;
      mret (match it.2 with ir_iterating => ir_next_step | r => r end)
  | _ => app_raise InvalidFunctionCall
  end.

(** The function of the thread that is started in the mode [startup]. *)
Definition execTask (iterate : iteration_request) : appM (exception + iteration_result) :=
  r ← callCore CoreEnterInit core_enterInitializingMode;
  match r with
  | inl e => mret (inl e)
  | inr _ =>
      t ← readCore core_getCurrentTime;
      _ ← setTime t;
      h ← app_catch any_exception
            (_ ← callVirtual HookStartupToInit v_startupToInitialize; mret (inr tt))
            (λ e, mret (inl e));
      match h with
      | inl e => mret (inl e)
      | inr _ => callCore (CoreEnterExec iterate) (core_enterExecutingMode iterate)
      end
  end.
Definition startExec (iterate : iteration_request) : appM unit :=
  _ ← setMode m_pending_exec;
  r ← callCore (CoreEnterExec iterate) (core_enterExecutingMode iterate);
  app_modify (λ f, f <| execFuture := Some r |>).
Definition enterExecutingModeAsync (iterate : iteration_request) : appM unit :=
  f ← app_get;
  match currentMode f with
  | m_startup =>
      _ ← setMode m_pending_exec;
      r ← execTask iterate;
      app_modify (λ f, f <| execFuture := Some r |>)
  | m_pending_init => _ ← enterInitializingModeComplete; startExec iterate
  | m_initializing => startExec iterate
  | m_pending_exec | m_executing | m_pending_time | m_pending_iterative_time => mret tt
  | _ => app_raise InvalidFunctionCall
  end.
Definition enterExecutingModeComplete : appM iteration_result :=
  f ← app_get;
  match currentMode f with
  | m_pending_exec => execFromPending
  | _ => enterExecutingMode no_iterations
  end.

(** ** The end *)

(** The case [pending_finalize] of [finalizeComplete]. *)
Definition finalizeFromPending : appM unit := _ ← getFinalize; setMode m_finalize.

(** The end of [finalize]. *)
Definition finalizeNow : appM unit :=
  _ ← call CoreFinalize core_finalize;
  f ← app_get;
  _ ← (if hasFilterManager f then tellCore CoreCloseFilters core_closeFilters else mret tt);
  setMode m_finalize.
Definition finalize : appM unit :=
  f ← app_get;
  match currentMode f with
  | m_startup | m_initializing | m_executing => finalizeNow
  | m_pending_init => _ ← app_catch any_exception getInit toError; finalizeNow
  | m_pending_exec => _ ← getExec; finalizeNow
  | m_pending_time => _ ← getTime; finalizeNow
  | m_pending_iterative_time => _ ← getTimeIterative; finalizeNow
  | m_finalize | m_error => mret tt
  | m_pending_finalize => finalizeFromPending
  end.

(** The first part of [finalizeAsync]: whether it goes on. *)
Definition finishPending : appM bool :=
  f ← app_get;
  match currentMode f with
  | m_pending_init => _ ← enterInitializingModeComplete; mret true
  | m_pending_exec => _ ← enterExecutingModeComplete; mret true
  | m_pending_time => _ ← requestTimeComplete; mret true
  | m_pending_iterative_time => _ ← requestTimeIterativeComplete; mret true
  | m_finalize | m_error | m_pending_finalize => mret false
  | _ => mret true
  end.
Definition finalizeAsync : appM unit :=
  goes_on ← finishPending;
  if goes_on : bool then
    _ ← setMode m_pending_finalize;
    r ← callCore CoreFinalize core_finalize;
    app_modify (λ f, f <| finalizeFuture := Some r |>)
  else mret tt.
Definition finalizeComplete : appM unit :=
  f ← app_get;
  match currentMode f with
  | m_pending_finalize => finalizeFromPending
  | _ => finalize
  end.
Definition disconnect : appM unit :=
  _ ← finalize;
  app_modify (λ f, f <| coreObject := None |>).

Definition completeOperation : appM unit :=
  f ← app_get;
  match currentMode f with
  | m_pending_init => enterInitializingModeComplete
  | m_pending_exec => _ ← enterExecutingModeComplete; mret tt
  | m_pending_time => _ ← requestTimeComplete; mret tt
  | m_pending_iterative_time => _ ← requestTimeIterativeComplete; mret tt
  | m_pending_finalize => finalizeComplete
  | _ => mret tt
  end.

Definition localError (errorcode : Z) (message : string) : appM unit :=
  f ← app_get;
  match coreObject f with
  | None => app_raise InvalidFunctionCall
  | Some _ =>
      _ ← completeOperation;
      _ ← setMode m_error;
      tellCore (CoreLocalError errorcode) (core_localError errorcode message)
  end.
Definition globalError (errorcode : Z) (message : string) : appM unit :=
  f ← app_get;
  match coreObject f with
  | None => app_raise InvalidFunctionCall
  | Some _ =>
      _ ← completeOperation;
      _ ← setMode m_error;
      tellCore (CoreGlobalError errorcode) (core_globalError errorcode message)
  end.

(** ** Queries in another thread *)

Definition queryAsync (target queryStr : string) : appM Z :=
  ans ← readCore (core_query target queryStr);
  f ← app_get;
  let cnt := queryCounter f in
  _ ← app_modify (λ f, f <| queryCounter := cnt + 1 |>
                         <| inFlightQueries := <[cnt := Some ans]> (inFlightQueries f) |>);
  mret cnt.
(** The entry of a query stays, with a future that has no state. *)
Definition queryComplete (queryIndex : Z) : appM string :=
  f ← app_get;
  match inFlightQueries f !! queryIndex with
  | None => mret "#invalid"
  | Some None => app_raise StdException
  | Some (Some ans) =>
      _ ← app_modify (λ f, f <| inFlightQueries := <[queryIndex := None]> (inFlightQueries f) |>);
      mret ans
  end.
End federate.
Arguments Federate W D : clear implicits.
Abbreviation appM W D := (excM (Federate W D) app_event).
