(* ===== verification/AppFederateFacts.v ===== *)
(** * Facts on the federate object of an application

    Whatever an application calls, its core sees the calls in the order it provides for;
    the modes go forward; and the calls in two parts do what the calls that wait do, up to
    one difference. *)

From stdpp Require Import strings gmap.
From S2P Require Import Prelude HelicsTime ActionMessage AppMonad AppFederate.

(** The calls of an application. *)
Inductive app_op :=
  | OpInit
  | OpInitAsync
  | OpInitComplete
  | OpExec (iterate : iteration_request)
  | OpExecAsync (iterate : iteration_request)
  | OpExecComplete
  | OpTime (next : Time)
  | OpTimeIterative (next : Time) (iterate : iteration_request)
  | OpTimeAsync (next : Time)
  | OpTimeIterativeAsync (next : Time) (iterate : iteration_request)
  | OpTimeComplete
  | OpTimeIterativeComplete
  | OpFinalize
  | OpFinalizeAsync
  | OpFinalizeComplete
  | OpDisconnect
  | OpLocalError (code : Z) (message : string)
  | OpGlobalError (code : Z) (message : string)
  | OpQueryComplete (index : Z).

Section runs.
  Context `{TimeRep} {W D : Type} `{!FederateCore W} `{!FederateVirtuals W D}.
  Implicit Types f : Federate W D.

Definition discard {A} (m : appM W D A) : appM W D unit := _ ← m; mret tt.
Definition runOp (op : app_op) : appM W D unit :=
  match op with
  | OpInit => enterInitializingMode
  | OpInitAsync => enterInitializingModeAsync
  | OpInitComplete => enterInitializingModeComplete
  | OpExec iterate => discard (enterExecutingMode iterate)
  | OpExecAsync iterate => enterExecutingModeAsync iterate
  | OpExecComplete => discard enterExecutingModeComplete
  | OpTime next => discard (requestTime next)
  | OpTimeIterative next iterate => discard (requestTimeIterative next iterate)
  | OpTimeAsync next => requestTimeAsync next
  | OpTimeIterativeAsync next iterate => requestTimeIterativeAsync next iterate
  | OpTimeComplete => discard requestTimeComplete
  | OpTimeIterativeComplete => discard requestTimeIterativeComplete
  | OpFinalize => finalize
  | OpFinalizeAsync => finalizeAsync
  | OpFinalizeComplete => finalizeComplete
  | OpDisconnect => disconnect
  | OpLocalError code message => localError code message
  | OpGlobalError code message => globalError code message
  | OpQueryComplete index => discard (queryComplete index)
  end.

(** The calls one after the other, an exception being caught by the application; [false]
    when a null pointer was used. *)
Fixpoint runOps (ops : list app_op) f : Federate W D * list app_event * bool :=
  match ops with
  | [] => (f, [], true)
  | op :: ops =>
      match runOp op f with
      | (f, out, NullPointer) => (f, out, false)
      | (f, out, _) => let '(f, out', ok) := runOps ops f in (f, out ++ out', ok)
      end
  end.

(** ** The order of calls that a core provides for *)

Inductive phase := Registered | Initializing | Executing | Finished.

(** [CoreEnterExec] can return to the initialization. *)
Inductive phase_step : phase → app_event → phase → Prop :=
  | ps_init : phase_step Registered CoreEnterInit Initializing
  | ps_exec it : phase_step Initializing (CoreEnterExec it) Executing
  | ps_iterate it : phase_step Initializing (CoreEnterExec it) Initializing
  | ps_time t : phase_step Executing (CoreTimeRequest t) Executing
  | ps_time_iterative t it : phase_step Executing (CoreTimeIterative t it) Executing
  | ps_finalize ph : ph ≠ Finished → phase_step ph CoreFinalize Finished
  | ps_close : phase_step Finished CoreCloseFilters Finished
  | ps_local ph c : phase_step ph (CoreLocalError c) ph
  | ps_global ph c : phase_step ph (CoreGlobalError c) ph
  | ps_hook_init ph : phase_step ph HookStartupToInit ph
  | ps_hook_exec ph : phase_step ph HookInitToExec ph
  | ps_hook_time ph t t' : phase_step ph (HookUpdateTime t t') ph.

Inductive phase_path : phase → list app_event → phase → Prop :=
  | pp_nil ph : phase_path ph [] ph
  | pp_cons ph e ph1 l ph2 :
      phase_step ph e ph1 → phase_path ph1 l ph2 → phase_path ph (e :: l) ph2.

Lemma phase_path_app ph l ph1 l' ph2 :
  phase_path ph l ph1 → phase_path ph1 l' ph2 → phase_path ph (l ++ l') ph2.
Proof. induction 1; [done|]. intros. cbn. econstructor; eauto. Qed.

(** The phase that a mode stands for. *)
Definition mode_phase f (ph : phase) : Prop :=
  match currentMode f with
  | m_startup => ph = Registered
  | m_pending_init | m_initializing => ph = Initializing
  | m_pending_exec =>
      match execFuture f with
      | Some (inr ir_next_step) => ph = Executing
      | Some _ => ph = Initializing
      | None => ph = Initializing ∨ ph = Executing
      end
  | m_executing | m_pending_time | m_pending_iterative_time => ph = Executing
  | m_pending_finalize => ph = Finished
  | m_finalize | m_error => True
  end.
(** The virtual methods use no null pointer while the members of the derived class are in
    order, which they keep. *)
Class SoundVirtuals := {
  sv_inv : D → Prop;
  sv_startup : ∀ m w d, sv_inv d →
    (v_startupToInitialize m w d).2 ≠ NullPointer ∧ sv_inv (v_startupToInitialize m w d).1.2;
  sv_execute : ∀ m w d, sv_inv d →
    (v_initializeToExecute m w d).2 ≠ NullPointer ∧ sv_inv (v_initializeToExecute m w d).1.2;
  sv_update : ∀ m t t' w d, sv_inv d →
    (v_updateTime m t t' w d).2 ≠ NullPointer ∧ sv_inv (v_updateTime m t t' w d).1.2;
}.
(** They throw nothing. *)
Class QuietVirtuals : Prop := {
  qv_startup : ∀ m w d, (v_startupToInitialize m w d).2 = Value tt;
  qv_execute : ∀ m w d, (v_initializeToExecute m w d).2 = Value tt;
  qv_update : ∀ m t t' w d, (v_updateTime m t t' w d).2 = Value tt;
}.
Context `{!SoundVirtuals}.
Record app_inv f (ph : phase) : Prop := {
  ai_core : coreObject f = None → currentMode f = m_finalize ∨ currentMode f = m_error;
  ai_phase : mode_phase f ph;
  ai_derived : sv_inv (derived f);
}.

(** The core throws only exceptions of the library from the entry of the initialization,
    and none from the end. *)
Class QuietCore : Prop := {
  qc_init : ∀ w e, (core_enterInitializingMode w).2 = inl e → is_helics e = true;
  qc_finalize : ∀ w, ∃ w', core_finalize w = (w', inr tt);
}.
Context `{!QuietCore}.
(** An operation keeps the order, uses no null pointer, and keeps the core unless it is
    one that gives it up. *)
Definition orderly {A} (m : appM W D A) f (ph : phase) (gives_up : bool) : Prop :=
  let '(f', out, r) := m f in
  r ≠ NullPointer ∧ ∃ ph', phase_path ph out ph' ∧ app_inv f' ph' ∧
    (gives_up = false → is_Some (coreObject f) → is_Some (coreObject f')).
Definition gives_up_core (op : app_op) : bool :=
  match op with OpDisconnect => true | _ => false end.

Definition thrown (r : exception + unit) : result unit :=
  match r with inl e => Raise e | inr _ => Value tt end.
Lemma not_null (v : W * D * result unit) :
  v.2 ≠ NullPointer ∧ sv_inv v.1.2 → ∃ w d r, v = (w, d, thrown r) ∧ sv_inv d.
Proof.
  destruct v as [[w d] [[]|e|]]; cbn; intros [Hn Hd]; [|by exists w, d, (inl e)|done].
  by exists w, d, (inr tt).
Qed.
Lemma startup_result m w d :
  sv_inv d → ∃ w' d' r, v_startupToInitialize m w d = (w', d', thrown r) ∧ sv_inv d'.
Proof. intros. by apply not_null, sv_startup. Qed.
Lemma execute_result m w d :
  sv_inv d → ∃ w' d' r, v_initializeToExecute m w d = (w', d', thrown r) ∧ sv_inv d'.
Proof. intros. by apply not_null, sv_execute. Qed.
Lemma update_result m t t' w d :
  sv_inv d → ∃ w' d' r, v_updateTime m t t' w d = (w', d', thrown r) ∧ sv_inv d'.
Proof. intros. by apply not_null, sv_update. Qed.
Lemma finalize_returns w : ∃ w', core_finalize w = (w', inr tt).
Proof. apply qc_finalize. Qed.
Lemma init_helics w w' e : core_enterInitializingMode w = (w', inl e) → is_helics e = true.
Proof. intros E. apply (qc_init w). by rewrite E. Qed.
End runs.

#[local] Ltac app_compute :=
  cbv -[core_enterInitializingMode core_enterExecutingMode core_timeRequest
        core_requestTimeIterative core_getCurrentTime core_finalize core_localError
        core_globalError core_closeFilters core_query v_startupToInitialize
        v_initializeToExecute v_updateTime Time_maxVal Time_zeroVal Z.eqb Z.add
        not lookup insert is_helics app].
#[local] Ltac use_result H :=
  let w' := fresh "w" in let d' := fresh "d" in let r := fresh "r" in let E := fresh "E" in
  let Hd := fresh "Hd" in
  edestruct H as (w' & d' & [r|[]] & E & Hd); [eassumption|rewrite E..].
#[local] Ltac app_destruct :=
  match goal with
  | |- context [v_startupToInitialize ?m ?w ?d] => use_result (startup_result m w d)
  | |- context [v_initializeToExecute ?m ?w ?d] => use_result (execute_result m w d)
  | |- context [v_updateTime ?m ?t ?t' ?w ?d] => use_result (update_result m t t' w d)
  | |- context [core_finalize ?w] =>
      let w' := fresh "w" in let E := fresh "E" in
      destruct (finalize_returns w) as [w' E]; rewrite E
  | |- context [match ?x with _ => _ end] =>
      lazymatch x with
      | context [match _ with _ => _ end] => fail
      | _ => let E := fresh "E" in destruct x eqn:E
      end
  end.


Create HintDb app_phase.
#[export] Hint Constructors phase_step phase_path : app_phase.
#[export] Hint Extern 1 (_ ≠ Finished) => discriminate : app_phase.

#[local] Ltac app_check :=
  split; [solve [eauto 14 with app_phase]|
  split; [split; [cbn; solve [auto|discriminate]|solve [cbv; auto]|assumption]|
  cbn; intros ? ?; solve [eauto|discriminate]]].
#[local] Ltac app_close :=
  split; [discriminate|]; cbn [app];
  first [ exists Executing; app_check | exists Initializing; app_check
        | exists Registered; app_check | exists Finished; app_check | eexists; app_check ].
#[local] Ltac app_absurd :=
  exfalso;
  match goal with
  | E : core_enterInitializingMode _ = (_, inl ?e), E1 : is_helics ?e = false |- _ =>
      apply init_helics in E; congruence
  end.
#[local] Ltac app_orderly f :=
  let Hc := fresh "Hc" in let Hp := fresh "Hp" in let Hd := fresh "Hd" in
  intros [Hc Hp Hd]; destruct f as [mode time core der man fi fe ft fti ff qc qs];
  cbn in Hc, Hp, Hd; unfold mode_phase in Hp; cbn in Hp;
  destruct mode; (destruct core as [w|]; [|try (by destruct (Hc eq_refl))]); clear Hc;
  repeat match type of Hp with context [match ?x with _ => _ end] => destruct x end;
  try (destruct Hp as [Hp|Hp]); subst;
  app_compute; repeat (app_destruct; app_compute); subst;
  repeat match goal with s : exception + iteration_result |- context [Some ?s] =>
    destruct s as [?|[]] end;
  first [app_close|app_absurd].

Section order.
  Context `{TimeRep} {W D : Type} `{!FederateCore W} `{!FederateVirtuals W D} `{!QuietCore}
    `{!SoundVirtuals}.
  Implicit Types f : Federate W D.

Lemma enterInitializingMode_orderly f ph : app_inv f ph → orderly enterInitializingMode f ph false.
Proof. app_orderly f. Qed.
Lemma enterInitializingModeAsync_orderly f ph :
  app_inv f ph → orderly enterInitializingModeAsync f ph false.
Proof. app_orderly f. Qed.
Lemma enterInitializingModeComplete_orderly f ph :
  app_inv f ph → orderly enterInitializingModeComplete f ph false.
Proof. app_orderly f. Qed.
Lemma enterExecutingMode_orderly it f ph :
  app_inv f ph → orderly (discard (enterExecutingMode it)) f ph false.
Proof. app_orderly f. Qed.
Lemma enterExecutingModeAsync_orderly it f ph :
  app_inv f ph → orderly (enterExecutingModeAsync it) f ph false.
Proof. app_orderly f. Qed.
Lemma enterExecutingModeComplete_orderly f ph :
  app_inv f ph → orderly (discard enterExecutingModeComplete) f ph false.
Proof. app_orderly f. Qed.
Lemma requestTime_orderly t f ph : app_inv f ph → orderly (discard (requestTime t)) f ph false.
Proof. app_orderly f. Qed.
Lemma requestTimeIterative_orderly t it f ph :
  app_inv f ph → orderly (discard (requestTimeIterative t it)) f ph false.
Proof. app_orderly f. Qed.
Lemma requestTimeAsync_orderly t f ph : app_inv f ph → orderly (requestTimeAsync t) f ph false.
Proof. app_orderly f. Qed.
Lemma requestTimeIterativeAsync_orderly t it f ph :
  app_inv f ph → orderly (requestTimeIterativeAsync t it) f ph false.
Proof. app_orderly f. Qed.
Lemma requestTimeComplete_orderly f ph :
  app_inv f ph → orderly (discard requestTimeComplete) f ph false.
Proof. app_orderly f. Qed.
Lemma requestTimeIterativeComplete_orderly f ph :
  app_inv f ph → orderly (discard requestTimeIterativeComplete) f ph false.
Proof. app_orderly f. Qed.
Lemma finalize_orderly f ph : app_inv f ph → orderly finalize f ph false.
Proof. app_orderly f. Qed.
Lemma finalizeAsync_orderly f ph : app_inv f ph → orderly finalizeAsync f ph false.
Proof. app_orderly f. Qed.
Lemma finalizeComplete_orderly f ph : app_inv f ph → orderly finalizeComplete f ph false.
Proof. app_orderly f. Qed.
Lemma disconnect_orderly f ph : app_inv f ph → orderly disconnect f ph true.
Proof. app_orderly f. Qed.
Lemma localError_orderly c msg f ph : app_inv f ph → orderly (localError c msg) f ph false.
Proof. app_orderly f. Qed.
Lemma globalError_orderly c msg f ph : app_inv f ph → orderly (globalError c msg) f ph false.
Proof. app_orderly f. Qed.
Lemma queryComplete_orderly i f ph : app_inv f ph → orderly (discard (queryComplete i)) f ph false.
Proof.
  intros [Hc Hp Hd]. unfold orderly.
  assert (∃ qs r, discard (queryComplete i) f = (f <| inFlightQueries := qs |>, [], r)
    ∧ r ≠ NullPointer) as (qs & r & -> & Hr).
  { assert (f = f <| inFlightQueries := inFlightQueries f |>) as Ef by by destruct f.
    unfold discard, queryComplete, mbind, excM_bind, app_get.
    destruct (inFlightQueries f !! i) as [[ans|]|] eqn:E.
    - by exists (<[i:=None]> (inFlightQueries f)), (Value tt).
    - exists (inFlightQueries f), (Raise StdException). by rewrite <- Ef.
    - exists (inFlightQueries f), (Value tt). by rewrite <- Ef. }
  split; [done|]. exists ph. split; [constructor|]. by split; [split|].
Qed.

Lemma runOp_orderly op f ph : app_inv f ph → orderly (runOp op) f ph (gives_up_core op).
Proof.
  destruct op; cbn [runOp];
    auto using enterInitializingMode_orderly, enterInitializingModeAsync_orderly,
      enterInitializingModeComplete_orderly, enterExecutingMode_orderly,
      enterExecutingModeAsync_orderly, enterExecutingModeComplete_orderly,
      requestTime_orderly, requestTimeIterative_orderly, requestTimeAsync_orderly,
      requestTimeIterativeAsync_orderly, requestTimeComplete_orderly,
      requestTimeIterativeComplete_orderly, finalize_orderly, finalizeAsync_orderly,
      finalizeComplete_orderly, disconnect_orderly, localError_orderly,
      globalError_orderly, queryComplete_orderly.
Qed.

Lemma runOps_orderly ops f ph :
  app_inv f ph →
  ∃ f' out ph', runOps ops f = (f', out, true) ∧ phase_path ph out ph' ∧ app_inv f' ph'.
Proof.
  revert f ph. induction ops as [|op ops IH]; intros f ph Hi.
  - exists f, [], ph. split; [done|]. split; [constructor|done].
  - pose proof (runOp_orderly op f ph Hi) as Ho. unfold orderly in Ho. cbn [runOps].
    destruct (runOp op f) as [[f1 out1] r]. destruct Ho as (Hr & ph1 & Hp1 & Hi1 & _).
    destruct (IH f1 ph1 Hi1) as (f2 & out2 & ph2 & E & Hp2 & Hi2). rewrite E.
    exists f2, (out1 ++ out2), ph2. split; [by destruct r|].
    split; [by eapply phase_path_app|done].
Qed.

End order.

(** ** An application with code of its own

    The calls of the federate are mixed with code [P] that uses the members of the derived
    class; [free p] when the code can be run without a core. *)
Inductive session_op (P : Type) :=
  | SCall (op : app_op)
  | SCode (p : P).
Arguments SCall {P}. Arguments SCode {P}.

(** After [disconnect] only code that does not need the core is run. *)
Fixpoint allowed {P : Type} (free : P → Prop) (connected : bool) (ops : list (session_op P)) : Prop :=
  match ops with
  | [] => True
  | SCall op :: ops => allowed free (connected && negb (gives_up_core op)) ops
  | SCode p :: ops => (connected = true ∨ free p) ∧ allowed free connected ops
  end.

Section session.
  Context `{TimeRep} {W D : Type} `{!FederateCore W} `{!FederateVirtuals W D} `{!QuietCore}
    `{!SoundVirtuals} {P : Type} (runCode : P → appM W D unit).
  Implicit Types f : Federate W D.

(** The calls one after the other, exceptions being caught; [false] when a null pointer was
    used. *)
Fixpoint runSession (ops : list (session_op P)) f : Federate W D * list app_event * bool :=
  match ops with
  | [] => (f, [], true)
  | op :: ops =>
      match match op with SCall op => runOp op | SCode p => runCode p end f with
      | (f, out, NullPointer) => (f, out, false)
      | (f, out, _) => let '(f, out', ok) := runSession ops f in (f, out ++ out', ok)
      end
  end.

Context (free : P → Prop).
Definition code_orderly : Prop := ∀ p f ph,
  app_inv f ph → is_Some (coreObject f) ∨ free p → orderly (runCode p) f ph false.

Lemma runSession_orderly ops : code_orderly → ∀ f ph connected,
  app_inv f ph → (connected = true → is_Some (coreObject f)) → allowed free connected ops →
  ∃ f' out ph', runSession ops f = (f', out, true) ∧ phase_path ph out ph' ∧ app_inv f' ph'.
Proof.
  intros Hcode. induction ops as [|op ops IH]; intros f ph connected Hi Hc Ha.
  - exists f, [], ph. split; [done|]. split; [constructor|done].
  - assert (∃ connected' b,
      orderly (match op with SCall op => runOp op | SCode p => runCode p end) f ph b ∧
      allowed free connected' ops ∧ (connected' = true → b = false ∧ connected = true))
      as (c' & b & Ho & Ha' & Hb).
    { destruct op as [op|p]; cbn in Ha.
      - exists (connected && negb (gives_up_core op)), (gives_up_core op).
        split; [by apply runOp_orderly|]. split; [done|].
        intros [-> Hb%negb_true_iff]%andb_true_iff. done.
      - destruct Ha as [Hp Ha]. exists connected, false.
        split; [apply Hcode; [done|destruct Hp; auto]|done]. }
    unfold orderly in Ho. cbn [runSession].
    destruct (match op with SCall op => runOp op | SCode p => runCode p end f) as [[f1 out1] r].
    destruct Ho as (Hr & ph1 & Hp1 & Hi1 & Hk).
    destruct (IH f1 ph1 c' Hi1) as (f2 & out2 & ph2 & E & Hp2 & Hi2); [|done|].
    { intros [-> Hcon]%Hb. by apply Hk, Hc. }
    rewrite E. exists f2, (out1 ++ out2), ph2. split; [by destruct r|].
    split; [by eapply phase_path_app|done].
Qed.
End session.

(** ** The calls in two parts *)
Section two_parts.
  Context `{TimeRep} {W D : Type} `{!FederateCore W} `{!FederateVirtuals W D} `{!QuietCore}
    `{!QuietVirtuals}.
  Implicit Types f : Federate W D.

Lemma returned (v : W * D * result unit) : v.2 = Value tt → ∃ w d, v = (w, d, Value tt).
Proof. destruct v as [[w d] r]. cbn. intros ->. by exists w, d. Qed.
Lemma startup_returns m w d : ∃ w' d', v_startupToInitialize m w d = (w', d', Value tt).
Proof. apply returned, qv_startup. Qed.
Lemma execute_returns m w d : ∃ w' d', v_initializeToExecute m w d = (w', d', Value tt).
Proof. apply returned, qv_execute. Qed.
Lemma update_returns m t t' w d : ∃ w' d', v_updateTime m t t' w d = (w', d', Value tt).
Proof. apply returned, qv_update. Qed.

Definition no_futures f : Prop :=
  initFuture f = None ∧ execFuture f = None ∧ timeRequestFuture f = None ∧
  timeRequestIterativeFuture f = None ∧ finalizeFuture f = None.
(** The call that starts the work, and the one that waits for it. *)
Definition in_parts {A} (start : appM W D unit) (complete : appM W D A) : appM W D A :=
  _ ← start; complete.

Ltac virtual_returns H :=
  let w' := fresh "w" in let d' := fresh "d" in let E := fresh "E" in
  destruct H as (w' & d' & E); rewrite E.
Ltac virtuals :=
  repeat match goal with
  | |- context [v_startupToInitialize ?m ?w ?d] => virtual_returns (startup_returns m w d)
  | |- context [v_initializeToExecute ?m ?w ?d] => virtual_returns (execute_returns m w d)
  | |- context [v_updateTime ?m ?t ?t' ?w ?d] => virtual_returns (update_returns m t t' w d)
  end.
Ltac parts_of f :=
  destruct f as [mode time core der man fi fe ft fti ff qc qs]; cbn in *; simplify_eq;
  app_compute.

Lemma init_in_parts f w :
  coreObject f = Some w → no_futures f → currentMode f = m_startup →
  in_parts enterInitializingModeAsync enterInitializingModeComplete f = enterInitializingMode f.
Proof.
  intros Hw (? & _) Hm. parts_of f.
  destruct (core_enterInitializingMode w) as [w' [e|u]] eqn:E; [|by virtuals].
  by rewrite (init_helics _ _ _ E).
Qed.
Lemma exec_in_parts it f w w' r :
  coreObject f = Some w → no_futures f → currentMode f = m_initializing →
  core_enterExecutingMode it w = (w', inr r) →
  in_parts (enterExecutingModeAsync it) enterExecutingModeComplete f = enterExecutingMode it f.
Proof.
  intros Hw (_ & ? & _) Hm E. parts_of f. rewrite E. by destruct r; app_compute; virtuals.
Qed.
Lemma iterative_in_parts t it f w :
  coreObject f = Some w → no_futures f → currentMode f = m_executing →
  in_parts (requestTimeIterativeAsync t it) requestTimeIterativeComplete f
  = requestTimeIterative t it f.
Proof.
  intros Hw (_ & _ & _ & ? & _) Hm. parts_of f.
  destruct (core_requestTimeIterative t it w) as [w' [e|[t' []]]]; app_compute; by virtuals.
Qed.
Lemma time_in_parts t f w w' t' :
  coreObject f = Some w → no_futures f → currentMode f = m_executing →
  core_timeRequest t w = (w', inr t') → t' ≠ Time_maxVal →
  in_parts (requestTimeAsync t) requestTimeComplete f = requestTime t f.
Proof.
  intros Hw (_ & _ & ? & _) Hm E Ht. parts_of f. rewrite E. app_compute. virtuals.
  by rewrite (proj2 (Z.eqb_neq _ _)).
Qed.
Lemma end_in_parts t f w w' :
  coreObject f = Some w → no_futures f → currentMode f = m_executing →
  core_timeRequest t w = (w', inr Time_maxVal) →
  currentMode (requestTime t f).1.1 = m_finalize ∧
  currentMode (in_parts (requestTimeAsync t) requestTimeComplete f).1.1 = m_executing.
Proof.
  intros Hw (_ & _ & ? & _) Hm E. parts_of f. rewrite E. app_compute. virtuals. by rewrite Z.eqb_refl.
Qed.


(** ** What is left undone *)

(** The end in two parts does not close the filters. *)
Lemma finalize_parts_filters f w :
  coreObject f = Some w → hasFilterManager f = true → currentMode f = m_executing →
  (finalize f).1.2 = [CoreFinalize; CoreCloseFilters] ∧
  (in_parts finalizeAsync finalizeComplete f).1.2 = [CoreFinalize].
Proof.
  intros Hw Hh Hm. parts_of f. destruct (finalize_returns w) as [w' E]. by rewrite E.
Qed.
(** When the entry of the execution has failed in the other thread, [finalize] throws each
    time it is called, and the core is never told of the end. *)
Lemma finalize_stuck f :
  currentMode f = m_pending_exec → execFuture f = None →
  finalize f = (f, [], Raise StdException).
Proof. intros Hm He. by parts_of f. Qed.
(** A query in another thread after the end uses the null pointer. *)
Lemma query_after_disconnect f target q :
  coreObject f = None → (queryAsync target q f).2 = NullPointer.
Proof. intros Hw. by parts_of f. Qed.
End two_parts.

(** ** A run with a simple core *)

(** A core that counts the calls and grants what is asked for, the end of time after ten. *)
#[export] Instance sample_app_core : FederateCore Z := {|
  core_enterInitializingMode := λ w, (w + 1, inr tt);
  core_enterExecutingMode := λ it w, (w + 1, inr ir_next_step);
  core_timeRequest := λ t w, (w + 1, inr (if t <=? 10 then t else Time_maxVal));
  core_requestTimeIterative := λ t it w, (w + 1, inr (t, ir_next_step));
  core_getCurrentTime := λ w, 0;
  core_finalize := λ w, (w + 1, inr tt);
  core_localError := λ c msg w, w;
  core_globalError := λ c msg w, w;
  core_closeFilters := λ w, w;
  core_query := λ target q w, "";
|}.
(** A federate that is not of a derived class. *)
#[export] Instance no_virtuals : FederateVirtuals Z unit := {|
  v_startupToInitialize := λ m w d, (w, d, Value tt);
  v_initializeToExecute := λ m w d, (w, d, Value tt);
  v_updateTime := λ m t t' w d, (w, d, Value tt);
|}.
#[export] Instance no_virtuals_quiet : QuietVirtuals (W := Z) (D := unit).
Proof. done. Qed.
#[export] Instance no_virtuals_sound : SoundVirtuals (W := Z) (D := unit).
Proof. refine {| sv_inv := λ _, True |}; done. Defined.
#[export] Instance sample_quiet : QuietCore (W := Z).
Proof. split; [done|]. intros w. by exists (w + 1). Qed.


