(* ===== verification/AppMessages.v ===== *)
(** * Message federates
    (src/src/helics/application_api/MessageFederate.cpp, MessageFederateManager.hpp,
    MessageFederateManager.cpp, Endpoints.hpp)

    A message federate is a federate whose derived part, the manager, keeps a queue of
    messages for each endpoint.  When a time is granted the manager takes the messages
    out of the core and calls the functions that the application has given it; these can
    use the federate in turn.

    The data of an endpoint is reached through raw pointers in the [Endpoint] objects that
    the application holds, so that the data is kept in a heap.  The core is the class
    [MessageCore], the queue of gmlc the class [SimpleQueue], the container of the
    endpoints the class [DualMapped] with the result of its insertion. *)

From stdpp Require Import strings gmap.
From S2P Require Import Prelude HelicsTime Ids ActionMessage InterfaceInfo.
From S2P Require Import AppMonad AppFederate.

(** ** Containers *)

(** [gmlc::containers::SimpleQueue] *)
Class SimpleQueue (Q : Type → Type) := {
  sq_new : ∀ {A}, Q A;
  sq_emplace : ∀ {A}, A → Q A → Q A;
  sq_pop : ∀ {A}, Q A → option (A * Q A);
  sq_empty : ∀ {A}, Q A → bool;
  sq_size : ∀ {A}, Q A → Z;
}.
Class SimpleQueueLaws (Q : Type → Type) `{SimpleQueue Q} := {
  sq_list : ∀ {A}, Q A → list A;
  sq_list_new : ∀ {A}, sq_list (A := A) sq_new = [];
  sq_list_emplace : ∀ {A} (a : A) q, sq_list (sq_emplace a q) = sq_list q ++ [a];
  sq_list_pop : ∀ {A} (q : Q A), match sq_pop q with
                                 | Some (a, q') => sq_list q = a :: sq_list q'
                                 | None => sq_list q = []
                                 end;
  sq_empty_list : ∀ {A} (q : Q A), sq_empty q = true ↔ sq_list q = [];
  sq_size_list : ∀ {A} (q : Q A), sq_size q = Z.of_nat (length (sq_list q));
}.

(** [insert] of a [DualMappedVector]: the container with the new element at the end, or
    [None] when it is not entered; without a name for [no_search]. *)
Class DualInsert (C : Type → Type) `{DualMapped C} := {
  dm_try_insert : ∀ {V}, option string → Z → V → C V → option (C V);
  dm_addSearchTerm : ∀ {V}, string → Z → C V → C V;
}.
Class DualInsertLaws (C : Type → Type) `{DualInsert C} : Prop := {
  di_empty : ∀ {V}, dm_elements (V := V) dm_empty = [];
  di_elements : ∀ {V} k h (v : V) c c',
    dm_try_insert k h v c = Some c' → dm_elements c' = dm_elements c ++ [v];
  di_index2 : ∀ {V} k h (v : V) c c' h' i,
    dm_try_insert k h v c = Some c' → dm_index2 c' h' = Some i →
    dm_index2 c h' = Some i ∨ (h' = h ∧ i = length (dm_elements c));
  di_index2_old : ∀ {V} k h (v : V) c c' h' i,
    dm_try_insert k h v c = Some c' → h' ≠ h → dm_index2 c h' = Some i →
    dm_index2 c' h' = Some i;
  di_index2_new : ∀ {V} k h (v : V) c c',
    dm_try_insert k h v c = Some c' → dm_index2 c h = None →
    dm_index2 c' h = Some (length (dm_elements c));
  di_fresh : ∀ {V} k h (v : V) c,
    dm_index2 c h = None → match k with Some k => dm_index1 c k = None | None => True end →
    is_Some (dm_try_insert k h v c);
  dm_term_elements : ∀ {V} k h (c : C V), dm_elements (dm_addSearchTerm k h c) = dm_elements c;
  dm_term_index2 : ∀ {V} k h (c : C V) h',
    dm_index2 (dm_addSearchTerm k h c) h' = dm_index2 c h';
  dm_index1_lt : ∀ {V} (c : C V) k i,
    dm_index1 c k = Some i → (i < length (dm_elements c))%nat;
}.

(** ** The core *)

Class MessageCore `{TimeRep} (W : Type) := {
  mc_registerEndpoint : string → string → W → W * result interface_handle;
  mc_registerFrequentCommunicationsPair : string → string → W → W * result unit;
  mc_addSourceTarget : interface_handle → string → W → W * result unit;
  mc_addDestinationTarget : interface_handle → string → W → W * result unit;
  mc_send : interface_handle → string → string → W → W * result unit;
  mc_sendEvent : Time → interface_handle → string → string → W → W * result unit;
  mc_sendMessage : interface_handle → Message → W → W * result unit;
  mc_receiveCountAny : W → W * result Z;
  mc_receiveAny : W → W * result (option Message * option interface_handle);
}.

(** ** Endpoints and their data *)

(** The address of an [EndpointData], and the name of a function of the application. *)
Definition ptr := nat.
Definition callback := nat.

(** [class Endpoint]; [newEndpoint] is the default constructor. *)
Record Endpoint := mkEndpoint {
  ep_handle : interface_handle;
  referenceIndex : Z;
  dataReference : option ptr;
  targetDest : string;
  actualName : string;
}.
#[export] Instance eta_Endpoint : Eta Endpoint := λ e,
  mkEndpoint (ep_handle e) (referenceIndex e) (dataReference e) (targetDest e) (actualName e).
Definition newEndpoint : Endpoint := mkEndpoint invalid_handle (-1) None "" "".
Definition ept_isValid (e : Endpoint) : bool := handle_isValid (ep_handle e).

(** What is recorded: the messages that the core hands out and those that the application
    takes, with the data they go through. *)
Inductive mgr_event :=
  | Received (p : ptr) (m : Message)
  | Discarded (m : Message)
  | Taken (p : ptr) (m : Message)
  | CallbackRun (cb : callback) (h : interface_handle) (t : Time).

(** [getName()] and [nameSegmentSeparator] *)
Class FederateName := { getName : string; nameSegmentSeparator : string }.

(** *** The code of an application

    A function that the application gives to the federate is a program over the calls of
    the federate.  It refers to the endpoints it has got so far by their number, the first
    being the one it is called for; an endpoint that it does not have is [Endpoint()]. *)
Inductive app_program :=
  | p_return
  | p_throw (e : exception)
  | p_registerEndpoint (global : bool) (name type : string) (k : exception + unit → app_program)
  | p_getEndpoint (name : string) (k : bool → app_program)
  | p_getEndpointAt (index : Z) (k : bool → app_program)
  | p_hasMessage (e : option nat) (k : bool → app_program)
  | p_pendingMessages (e : option nat) (k : Z → app_program)
  | p_getMessage (e : option nat) (k : option Message → app_program)
  | p_send (e : nat) (dest data : string) (time : option Time)
      (k : exception + unit → app_program)
  | p_sendMessage (e : nat) (m : Message) (k : exception + unit → app_program)
  | p_setCallback (e : option nat) (cb : option callback) (k : app_program).
Class Application := react : callback → interface_handle → Time → app_program.

Section manager.
  Context `{TimeRep} `{DualMapped C} `{!DualInsert C} `{SimpleQueue Q} {W : Type}.
  Context `{!MessageCore W} `{!FederateName} `{!Application}.

Record EndpointData := mkEndpointData {
  messages : Q Message;
  callback_ : option callback;
}.
#[export] Instance eta_EndpointData : Eta EndpointData := λ d,
  mkEndpointData (messages d) (callback_ d).
Definition newEndpointData : EndpointData := mkEndpointData sq_new None.

(** [class MessageFederateManager]: [eptData] is the vector of owning pointers, [heap] the
    objects they point to. *)
Record MessageFederateManager := mkManager {
  local_endpoints : C Endpoint;
  allCallback : option callback;
  CurrentTime : Time;
  eptData : list (option ptr);
  heap : gmap ptr EndpointData;
  nextPtr : ptr;
}.
#[export] Instance eta_MessageFederateManager : Eta MessageFederateManager := λ m,
  mkManager (local_endpoints m) (allCallback m) (CurrentTime m) (eptData m) (heap m)
    (nextPtr m).
Definition newManager : MessageFederateManager :=
  mkManager dm_empty None Time_minVal [] ∅ 0%nat.

(** The manager with its pointer to the core, which is the one of the federate:
    [MessageFederate::disconnect] sets both to null. *)
Definition mgr_state : Type := option W * MessageFederateManager.
Abbreviation mgrM := (excM mgr_state mgr_event).
Definition manager : mgrM MessageFederateManager := s ← app_get; mret s.2.
Definition upd_manager (f : MessageFederateManager → MessageFederateManager) : mgrM unit :=
  app_modify (λ s, (s.1, f s.2)).

(** [coreObject->] *)
Definition onCore {A} (f : W → W * result A) : mgrM A := λ s,
  match s with
  | (Some w, m) => let '(w, r) := f w in ((Some w, m), [], r)
  | (None, _) => (s, [], NullPointer)
  end.

(** The object at an address. *)
Definition deref (p : ptr) : mgrM EndpointData :=
  m ← manager;
  match heap m !! p with Some d => mret d | None => app_null end.
Definition assign (p : ptr) (d : EndpointData) : mgrM unit :=
  _ ← deref p; upd_manager (λ m, m <| heap := <[p := d]> (heap m) |>).
(** [eptData[index]->] *)
Definition dataAt (index : Z) : mgrM ptr :=
  m ← manager;
  if index <? 0 then app_null
  else match eptData m !! Z.to_nat index with
       | Some (Some p) => mret p
       | _ => app_null
       end.

(** ** Registration *)

(** Store an owning pointer at a position: what was there is freed. *)
Definition storeData (loc : nat) (p : ptr) (m : MessageFederateManager)
    : MessageFederateManager :=
  if Nat.eqb (length (eptData m)) loc then m <| eptData := eptData m ++ [Some p] |>
  else if Nat.ltb (length (eptData m)) loc then
    m <| eptData := eptData m ++ replicate (loc - length (eptData m)) None ++ [Some p] |>
  else
    m <| heap := match eptData m !! loc with
                 | Some (Some old) => delete old (heap m)
                 | _ => heap m
                 end |>
      <| eptData := <[loc := Some p]> (eptData m) |>.

(** What follows the insertion of the endpoint, whose position is given; the number of
    endpoints is taken to fit in an [int]. *)
Definition addEndpoint (loc : nat) (ept : Endpoint) (epts : C Endpoint)
    (m : MessageFederateManager) : MessageFederateManager :=
  let edat := nextPtr m in
  storeData loc edat
    (m <| heap := <[edat := newEndpointData]> (heap m) |> <| nextPtr := S edat |>
       <| local_endpoints := dm_alter_back (λ _, ept) epts |>).
Definition registerEndpoint (name type : string) : mgrM Endpoint :=
  hid ← onCore (mc_registerEndpoint name type);
  if handle_isValid hid then
    m ← manager;
    let edat := nextPtr m in
    let ept := mkEndpoint hid (-1) (Some edat) "" name in
    match dm_try_insert (Some name) hid ept (local_endpoints m) with
    | Some epts =>
        let loc := length (dm_elements (local_endpoints m)) in
        let ept := ept <| referenceIndex := Z.of_nat loc |> in
        _ ← upd_manager (addEndpoint loc ept epts);
        mret ept
    | None => app_raise RegistrationFailure
    end
  else app_raise RegistrationFailure.

(** ** Reading messages *)

Fixpoint anyMessages (l : list (option ptr)) : mgrM bool :=
  match l with
  | [] => mret false
  | Some p :: l => d ← deref p; if sq_empty (messages d) then anyMessages l else mret true
  | None :: _ => app_null
  end.
Definition hasMessage : mgrM bool := m ← manager; anyMessages (eptData m).
Definition hasMessageAt (ept : Endpoint) : mgrM bool :=
  match dataReference ept with
  | Some p => d ← deref p; mret (negb (sq_empty (messages d)))
  | None => mret false
  end.
Definition pendingMessagesAt (ept : Endpoint) : mgrM Z :=
  match dataReference ept with
  | Some p => d ← deref p; mret (sq_size (messages d))
  | None => mret 0
  end.
Fixpoint countMessages (sz : Z) (l : list (option ptr)) : mgrM Z :=
  match l with
  | [] => mret sz
  | Some p :: l => d ← deref p; countMessages (to_uint 64 (sz + sq_size (messages d))) l
  | None :: _ => app_null
  end.
Definition pendingMessages : mgrM Z := m ← manager; countMessages 0 (eptData m).

(** [messages.pop()] *)
Definition popMessage (p : ptr) : mgrM (option Message) :=
  d ← deref p;
  match sq_pop (messages d) with
  | Some (msg, q) =>
      _ ← assign p (d <| messages := q |>);
      _ ← app_emit (Taken p msg);
      mret (Some msg)
  | None => mret None
  end.
Definition getMessageAt (ept : Endpoint) : mgrM (option Message) :=
  match dataReference ept with
  | Some p => popMessage p
  | None => mret None
  end.
Fixpoint firstMessage (l : list (option ptr)) : mgrM (option Message) :=
  match l with
  | [] => mret None
  | Some p :: l =>
      d ← deref p;
      if sq_empty (messages d) then firstMessage l
      else
        ms ← popMessage p;
        match ms with Some ms => mret (Some ms) | None => firstMessage l end
  | None :: _ => app_null
  end.
Definition getMessage : mgrM (option Message) := m ← manager; firstMessage (eptData m).

(** ** Endpoints and callbacks *)

Definition getEndpoint (name : string) : mgrM Endpoint :=
  m ← manager; mret (default newEndpoint (dm_find1 (local_endpoints m) name)).
Definition getEndpointAt (index : Z) : mgrM Endpoint :=
  m ← manager;
  mret (if (0 <=? index) && (index <? Z.of_nat (length (dm_elements (local_endpoints m))))
        then default newEndpoint (dm_elements (local_endpoints m) !! Z.to_nat index)
        else newEndpoint).
Definition getEndpointCount : mgrM Z :=
  m ← manager; mret (to_sint 32 (Z.of_nat (length (dm_elements (local_endpoints m))))).
Definition setEndpointNotificationCallback (cb : option callback) : mgrM unit :=
  upd_manager (λ m, m <| allCallback := cb |>).
Definition setEndpointNotificationCallbackAt (ept : Endpoint) (cb : option callback)
    : mgrM unit :=
  match dataReference ept with
  | Some p => d ← deref p; assign p (d <| callback_ := cb |>)
  | None => mret tt
  end.

(** ** The message federate

    The methods of [MessageFederate], for a federate in the mode [mode]. *)

(** [currentMode >= modes::initializing] *)
Definition initialized_mode (mode : modes) : bool :=
  match mode with m_startup => false | _ => true end.
Definition sending_mode (mode : modes) : bool :=
  match mode with m_executing | m_initializing => true | _ => false end.

Definition mf_registerEndpoint (global : bool) (eptName type : string) : mgrM Endpoint :=
  if global then registerEndpoint eptName type
  else registerEndpoint (if negb (String.eqb eptName "")
                         then getName +:+ nameSegmentSeparator +:+ eptName else eptName) type.
Definition mf_hasMessage (mode : modes) (ept : option Endpoint) : mgrM bool :=
  if initialized_mode mode then match ept with Some e => hasMessageAt e | None => hasMessage end
  else mret false.
Definition mf_pendingMessages (mode : modes) (ept : option Endpoint) : mgrM Z :=
  if initialized_mode mode
  then match ept with Some e => pendingMessagesAt e | None => pendingMessages end
  else mret 0.
Definition mf_getMessage (mode : modes) (ept : option Endpoint) : mgrM (option Message) :=
  if initialized_mode mode then match ept with Some e => getMessageAt e | None => getMessage end
  else mret None.
Definition mf_send (mode : modes) (source : Endpoint) (dest data : string) (time : option Time)
    : mgrM unit :=
  if sending_mode mode then
    onCore (match time with
            | None => mc_send (ep_handle source) dest data
            | Some t => mc_sendEvent t (ep_handle source) dest data
            end)
  else app_raise InvalidFunctionCall.
Definition mf_sendMessage (mode : modes) (source : Endpoint) (m : Message) : mgrM unit :=
  if sending_mode mode then onCore (mc_sendMessage (ep_handle source) m)
  else app_raise InvalidFunctionCall.
Definition mf_getEndpoint (eptName : string) : mgrM Endpoint :=
  e ← getEndpoint eptName;
  if ept_isValid e then mret e
  else getEndpoint (getName +:+ nameSegmentSeparator +:+ eptName).

(** ** Running the code of an application *)

Definition known (env : list Endpoint) (e : nat) : Endpoint := default newEndpoint (env !! e).

Fixpoint run (mode : modes) (env : list Endpoint) (p : app_program) : mgrM unit :=
  match p with
  | p_return => mret tt
  | p_throw e => app_raise e
  | p_registerEndpoint global name type k =>
      r ← app_try (mf_registerEndpoint global name type);
      match r with
      | inl e => run mode env (k (inl e))
      | inr ept => run mode (env ++ [ept]) (k (inr tt))
      end
  | p_getEndpoint name k =>
      e ← mf_getEndpoint name; run mode (env ++ [e]) (k (ept_isValid e))
  | p_getEndpointAt index k =>
      e ← getEndpointAt index; run mode (env ++ [e]) (k (ept_isValid e))
  | p_hasMessage e k => b ← mf_hasMessage mode (known env <$> e); run mode env (k b)
  | p_pendingMessages e k => n ← mf_pendingMessages mode (known env <$> e); run mode env (k n)
  | p_getMessage e k => m ← mf_getMessage mode (known env <$> e); run mode env (k m)
  | p_send e dest data time k =>
      r ← app_try (mf_send mode (known env e) dest data time); run mode env (k r)
  | p_sendMessage e m k =>
      r ← app_try (mf_sendMessage mode (known env e) m); run mode env (k r)
  | p_setCallback e cb k =>
      _ ← match e with
          | Some e => setEndpointNotificationCallbackAt (known env e) cb
          | None => setEndpointNotificationCallback cb
          end;
      run mode env k
  end.

(** ** A new time *)

(** Call a function of the application for an endpoint. *)
Definition runCallback (mode : modes) (cb : callback) (ept : Endpoint) : mgrM unit :=
  m ← manager;
  _ ← app_emit (CallbackRun cb (ep_handle ept) (CurrentTime m));
  run mode [ept] (react cb (ep_handle ept) (CurrentTime m)).

(** A message for an endpoint. *)
Definition deliver (mode : modes) (mcall : option callback) (ept : Endpoint) (msg : Message)
    : mgrM unit :=
  p ← dataAt (referenceIndex ept);
  d ← deref p;
  _ ← assign p (d <| messages := sq_emplace msg (messages d) |>);
  _ ← app_emit (Received p msg);
  match callback_ d, mcall with
  | Some cb, _ => runCallback mode cb ept
  | None, Some cb => runCallback mode cb ept
  | None, None => mret tt
  end.

(** The loop of [updateTime] with [n] rounds left; [endpoint_id] is the local variable. *)
Fixpoint receiveLoop (n : nat) (mode : modes) (mcall : option callback)
    (endpoint_id : interface_handle) : mgrM unit :=
  match n with
  | O => mret tt
  | S n =>
      '(message, id) ← onCore mc_receiveAny;
      let endpoint_id := default endpoint_id id in
      match message with
      | None => mret tt
      | Some message =>
          m ← manager;
          _ ← match dm_find2 (local_endpoints m) endpoint_id with
              | Some ept => deliver mode mcall ept message
              | None => app_emit (Discarded message)
              end;
          receiveLoop n mode mcall endpoint_id
      end
  end.
Definition updateTime (mode : modes) (newTime : Time) : mgrM unit :=
  _ ← upd_manager (λ m, m <| CurrentTime := newTime |>);
  epCount ← onCore mc_receiveCountAny;
  m ← manager;
  receiveLoop (Z.to_nat epCount) mode (allCallback m) invalid_handle.

(** The virtual methods of a message federate. *)
#[export] Instance message_virtuals : FederateVirtuals W MessageFederateManager := {|
  v_startupToInitialize := λ mode w m, (w, m, Value tt);
  v_initializeToExecute := λ mode w m, (w, m, Value tt);
  v_updateTime := λ mode newTime oldTime w m,
    match updateTime mode newTime (Some w, m) with
    | ((w', m'), _, r) => (default w w', m', r)
    end;
|}.

(** A call of the application on its federate. *)
Definition withManager {A} (g : modes → mgrM A) : excM (Federate W MessageFederateManager) app_event A :=
  λ f, let '((c, d), _, r) := g (currentMode f) (coreObject f, derived f) in
       (f <| coreObject := c |> <| derived := d |>, [], r).
End manager.
