(* ===== verification/AppMessagesFacts.v ===== *)
(** * Facts on message federates

    Whatever an application does in its functions, the pointers of its endpoints stay
    valid and each message that the core hands out is kept for its endpoint until the
    application takes it, in order and once.  A new time takes all messages that are due
    out of the core. *)

From stdpp Require Import strings gmap.
From S2P Require Import Prelude HelicsTime Ids ActionMessage InterfaceInfo.
From S2P Require Import AppMonad AppFederate AppFederateFacts AppMessages.

(** ** What a core promises

    [mc_due w h] are the messages for the endpoint [h] that the core hands out, [mc_left]
    is their number; both change by [receiveAny] only.  A core that is used while [mc_ok]
    holds uses no null pointer. *)
Class Inbox (W : Type) := {
  mc_ok : W → Prop;
  mc_due : W → interface_handle → list Message;
  mc_left : W → nat;
}.
Definition undisturbed `{Inbox W} {A} (f : W → W * result A) : Prop :=
  ∀ w, mc_ok w → (f w).2 ≠ NullPointer ∧ mc_ok (f w).1 ∧
    (∀ h, mc_due (f w).1 h = mc_due w h) ∧ mc_left (f w).1 = mc_left w.
Class MessageCoreLaws `{TimeRep} (W : Type) `{!MessageCore W} `{!Inbox W} : Prop := {
  mcl_send h dest data : undisturbed (mc_send h dest data);
  mcl_sendEvent t h dest data : undisturbed (mc_sendEvent t h dest data);
  mcl_sendMessage h m : undisturbed (mc_sendMessage h m);
  mcl_count w : mc_ok w → mc_receiveCountAny w = (w, Value (Z.of_nat (mc_left w)));
  mcl_receive w : mc_ok w →
    match mc_receiveAny w with
    | (w', Value (Some m, Some h)) =>
        mc_ok w' ∧ mc_left w = S (mc_left w') ∧ mc_due w h = m :: mc_due w' h ∧
        ∀ h', h' ≠ h → mc_due w' h' = mc_due w h'
    | (w', Value (None, _)) => mc_ok w' ∧ ∀ h, mc_due w h = [] ∧ mc_due w' h = []
    | _ => False
    end;
}.

(** Registration does not disturb the messages, either. *)
Definition registrable `{TimeRep} (W : Type) `{!MessageCore W} `{!Inbox W} : Prop :=
  ∀ name type, undisturbed (W := W) (mc_registerEndpoint name type).

(** The messages of a record that went in and out of the data at an address. *)
Definition received (p : ptr) : list mgr_event → list Message :=
  omap (λ e, match e with
             | Received q m => if decide (q = p) then Some m else None
             | _ => None
             end).
Definition taken (p : ptr) : list mgr_event → list Message :=
  omap (λ e, match e with
             | Taken q m => if decide (q = p) then Some m else None
             | _ => None
             end).

Lemma received_app p l l' : received p (l ++ l') = received p l ++ received p l'.
Proof. apply omap_app. Qed.
Lemma taken_app p l l' : taken p (l ++ l') = taken p l ++ taken p l'.
Proof. apply omap_app. Qed.

(** A program that registers no endpoints. *)
Inductive registers_none : app_program → Prop :=
  | rn_return : registers_none p_return
  | rn_throw e : registers_none (p_throw e)
  | rn_getEndpoint name k : (∀ b, registers_none (k b)) → registers_none (p_getEndpoint name k)
  | rn_getEndpointAt i k : (∀ b, registers_none (k b)) → registers_none (p_getEndpointAt i k)
  | rn_hasMessage e k : (∀ b, registers_none (k b)) → registers_none (p_hasMessage e k)
  | rn_pendingMessages e k : (∀ n, registers_none (k n)) → registers_none (p_pendingMessages e k)
  | rn_getMessage e k : (∀ m, registers_none (k m)) → registers_none (p_getMessage e k)
  | rn_send e dest data t k :
      (∀ r, registers_none (k r)) → registers_none (p_send e dest data t k)
  | rn_sendMessage e m k : (∀ r, registers_none (k r)) → registers_none (p_sendMessage e m k)
  | rn_setCallback e cb k : registers_none k → registers_none (p_setCallback e cb k).

Section facts.
  Context `{TimeRep} `{DualMapped C} `{!DualMappedLaws C} `{!DualInsert C} `{!DualInsertLaws C}.
  Context `{SimpleQueue Q} `{!SimpleQueueLaws Q} {W : Type} `{!MessageCore W} `{!Inbox W}.
  Context `{!MessageCoreLaws W} `{!FederateName} `{!Application}.
  Abbreviation state := (mgr_state (C := C) (Q := Q) (W := W)).
  Abbreviation mgrM := (excM state mgr_event).
  Implicit Types (s : state) (m : MessageFederateManager (C := C) (Q := Q)).

(** ** The invariant *)

Record man_inv m : Prop := {
  mi_size : length (eptData m) = length (dm_elements (local_endpoints m));
  mi_elem : ∀ i ept, dm_elements (local_endpoints m) !! i = Some ept →
    referenceIndex ept = Z.of_nat i ∧
    ∃ p, dataReference ept = Some p ∧ eptData m !! i = Some (Some p);
  mi_data : ∀ o, o ∈ eptData m → ∃ p, o = Some p ∧ is_Some (heap m !! p);
  mi_nodup : NoDup (eptData m);
  mi_fresh : ∀ p, is_Some (heap m !! p) → (p < nextPtr m)%nat;
  mi_handle : ∀ h i, dm_index2 (local_endpoints m) h = Some i →
    ∃ ept, dm_elements (local_endpoints m) !! i = Some ept ∧ ep_handle ept = h;
}.
Definition ok s : Prop := (∀ w, s.1 = Some w → mc_ok w) ∧ man_inv s.2.

Definition queue m (p : ptr) : list Message := from_option (sq_list ∘ messages) [] (heap m !! p).

(** What an operation does to the queues: a message that comes in stays until it is
    taken. *)
Record moved s s' (out : list mgr_event) : Prop := {
  mv_heap : ∀ p, is_Some (heap s.2 !! p) → is_Some (heap s'.2 !! p);
  mv_queue : ∀ p, queue s.2 p ++ received p out = taken p out ++ queue s'.2 p;
  mv_core : is_Some s.1 ↔ is_Some s'.1;
}.
(** What it leaves alone when it registers nothing. *)
Record still s s' : Prop := {
  st_endpoints : local_endpoints s'.2 = local_endpoints s.2;
  st_data : eptData s'.2 = eptData s.2;
  st_due : ∀ w w', s.1 = Some w → s'.1 = Some w' →
    (∀ h, mc_due w' h = mc_due w h) ∧ mc_left w' = mc_left w;
}.
#[export] Instance still_refl : Reflexive still.
Proof. intros s. split; [done|done|]. intros w w' -> [= ->]. done. Qed.
Lemma moved_refl s : moved s s [].
Proof. by split; [|intros p; cbn; rewrite app_nil_r|]. Qed.
Lemma still_trans s1 s2 s3 : (is_Some s1.1 ↔ is_Some s2.1) → still s1 s2 → still s2 s3 → still s1 s3.
Proof.
  intros Hc [E1 D1 W1] [E2 D2 W2]. split; [congruence|congruence|]. intros w w' Ew Ew'.
  destruct (proj1 Hc) as [w2 Ew2]; [by rewrite Ew|]. destruct (W1 _ _ Ew Ew2) as [A1 B1].
  destruct (W2 _ _ Ew2 Ew') as [A2 B2]. split; [|congruence]. intros h. by rewrite A2, A1.
Qed.
Lemma moved_trans s1 s2 s3 out1 out2 :
  moved s1 s2 out1 → moved s2 s3 out2 → moved s1 s3 (out1 ++ out2).
Proof.
  intros [Hh1 Q1 C1] [Hh2 Q2 C2]. split; [auto| |by rewrite C1].
  intros p. rewrite received_app, taken_app.
  rewrite app_assoc, Q1, <- !app_assoc. f_equal. apply Q2.
Qed.

(** ** Operations that keep the invariant

    [R] is the condition under which nothing is registered; none takes a message from the
    core. *)
Definition good (R : Prop) {A} (m : mgrM A) s (P : state → exception + A → Prop) : Prop :=
  awp m s (λ s' out r, ok s' ∧ moved s s' out ∧ (R → still s s') ∧
    (∀ p, received p out = []) ∧ P s' r).

Lemma unmoved (R : Prop) s (P : Prop) :
  ok s → P → ok s ∧ moved s s [] ∧ (R → still s s) ∧ (∀ p, received p [] = []) ∧ P.
Proof. intros. split_and!; [done|apply moved_refl|done|done|done]. Qed.
Lemma good_ret R {A} (a : A) s P : ok s → P s (inr a) → good R (mret a) s P.
Proof. intros. apply awp_ret. by apply unmoved. Qed.
Lemma good_raise R {A} e s (P : state → exception + A → Prop) :
  ok s → P s (inl e) → good R (app_raise e) s P.
Proof. intros. apply awp_raise. by apply unmoved. Qed.
Lemma good_manager R s P : ok s → P s (inr s.2) → good R manager s P.
Proof. intros. apply awp_bind, awp_get, awp_ret. by apply unmoved. Qed.
Lemma good_bind R {A B} (m : mgrM A) (g : A → mgrM B) s P :
  good R m s (λ s1 r, match r with
                      | inl e => P s1 (inl e)
                      | inr a => good R (g a) s1 P
                      end) →
  good R (a ← m; g a) s P.
Proof.
  intros Hm. apply awp_bind. eapply awp_mono; [exact Hm|].
  intros s1 out1 [e|a] (Hok & Hm1 & Hs1 & Hr1 & Hp); [done|].
  eapply awp_mono; [exact Hp|]. intros s2 out2 r (Hok2 & Hm2 & Hs2 & Hr2 & Hp2).
  split; [done|]. split; [by eapply moved_trans|]. split; [|split; [|done]].
  - intros HR. eapply still_trans; [apply Hm1|by apply Hs1|by apply Hs2].
  - intros p. by rewrite received_app, Hr1, Hr2.
Qed.
Lemma good_mono R {A} (m : mgrM A) s (P P' : state → exception + A → Prop) :
  good R m s P → (∀ s' out r, ok s' → moved s s' out → P s' r → P' s' r) → good R m s P'.
Proof.
  intros Hm HP. eapply awp_mono; [exact Hm|]. intros s' out r (? & ? & ? & ? & ?). eauto 6.
Qed.
Lemma good_try R {A} (m : mgrM A) s P :
  good R m s (λ s' r, P s' (inr r)) → good R (app_try m) s P.
Proof. intros Hm. apply awp_try. eapply awp_mono; [exact Hm|]. done. Qed.

(** ** The operations *)

(** An endpoint that the application can use. *)
Definition live m (e : Endpoint) : Prop :=
  ∀ p, dataReference e = Some p → is_Some (heap m !! p).
Lemma live_moved s s' out e : moved s s' out → live s.2 e → live s'.2 e.
Proof. intros Hm He p Ep. by apply Hm, He. Qed.

Lemma good_onCore R {A} (f : W → W * result A) s P :
  ok s → is_Some s.1 → undisturbed f →
  (∀ s' r, ok s' → still s s' → s'.2 = s.2 → P s' r) → good R (onCore f) s P.
Proof.
  destruct s as [[w|] m]; intros [Hw Hm] [w0 Hs] Hf HP; [|done]. cbn in *.
  destruct (Hf w) as (Hn & Hok & Hd & Hl); [by apply Hw|].
  unfold good, awp, onCore. destruct (f w) as [w' r] eqn:E. cbn in *.
  assert (ok (Some w', m)) as Hok' by (split; [by intros ? [= <-]|done]).
  assert (still (Some w, m) (Some w', m)) as Hst
    by (split; [done|done|]; intros ? ? [= <-] [= <-]; done).
  assert (moved (Some w, m) (Some w', m) []) as Hmv
    by (split; [done|intros p; cbn; by rewrite app_nil_r|done]).
  destruct r; [split_and!; auto|split_and!; auto|done].
Qed.

Lemma good_deref R p s P :
  ok s → is_Some (heap s.2 !! p) → (∀ d, heap s.2 !! p = Some d → P s (inr d)) →
  good R (deref p) s P.
Proof.
  intros Hs [d Hd] HP. apply good_bind, good_manager; [done|]. rewrite Hd.
  apply good_ret; auto.
Qed.

Lemma man_inv_assign m p d :
  man_inv m → is_Some (heap m !! p) → man_inv (m <| heap := <[p := d]> (heap m) |>).
Proof.
  assert (∀ q, is_Some (heap m !! p) → is_Some (<[p:=d]> (heap m) !! q) ↔ is_Some (heap m !! q))
    as Hq.
  { intros q Hp. destruct (decide (q = p)) as [->|Hne];
      [rewrite lookup_insert_eq; naive_solver|by rewrite lookup_insert_ne]. }
  intros [I1 I2 I3 I4 I5 I6] Hp. split; cbn; try done.
  - intros o Ho. destruct (I3 o Ho) as (q & -> & Hs). exists q. split; [done|]. by apply Hq.
  - intros q Hs. by apply I5, Hq.
Qed.

(** An assignment to the data, and what is recorded of it. *)
Definition records (p : ptr) (es : list mgr_event) : Prop :=
  ∀ q, q ≠ p → received q es = [] ∧ taken q es = [].
Lemma awp_assign p d s es :
  ok s → is_Some (heap s.2 !! p) → records p es →
  queue s.2 p ++ received p es = taken p es ++ sq_list (messages d) →
  awp (assign p d) s (λ s' out r, out = [] ∧ r = inr tt ∧ ok s' ∧ moved s s' es ∧ still s s').
Proof.
  intros [Hw Hm] Hp Hr Hq. unfold assign. apply awp_bind.
  unfold deref. apply awp_bind, awp_bind, awp_get, awp_ret. destruct Hp as [d0 Hd0].
  rewrite Hd0. apply awp_ret, awp_modify. split; [done|]. split; [done|].
  split; [split; [done|apply man_inv_assign; [done|by exists d0]]|]. split.
  - split; [| |done].
    + cbn. intros q Hs. destruct (decide (q = p)) as [->|Hne];
        [rewrite lookup_insert_eq; eauto|by rewrite lookup_insert_ne].
    + intros q. unfold queue at 2. cbn.
      destruct (decide (q = p)) as [->|Hne]; [by rewrite lookup_insert_eq|].
      destruct (Hr q Hne) as [-> ->]. rewrite lookup_insert_ne by done. by rewrite app_nil_r.
  - split; [done|done|]. cbn. intros w w' E1 E2. by simplify_eq.
Qed.
Lemma good_assign R p d s P :
  ok s → is_Some (heap s.2 !! p) → queue s.2 p = sq_list (messages d) →
  (∀ s', ok s' → P s' (inr tt)) → good R (assign p d) s P.
Proof.
  intros Hs Hp Hq HP. eapply awp_mono; [eapply (awp_assign p d s [])|].
  - done.
  - done.
  - done.
  - by rewrite app_nil_r.
  - intros s' out r (-> & -> & ? & ? & ?). split_and!; auto.
Qed.
Lemma good_assign_emit R {A} p d e (k : mgrM A) s P :
  ok s → is_Some (heap s.2 !! p) → records p [e] → received p [e] = [] →
  queue s.2 p ++ received p [e] = taken p [e] ++ sq_list (messages d) →
  (∀ s', ok s' → moved s s' [e] → still s s' → good R k s' P) →
  good R (_ ← assign p d; _ ← app_emit e; k) s P.
Proof.
  intros Hs Hp Hr Hn Hq Hk. apply awp_bind. eapply awp_mono; [by eapply awp_assign|].
  intros s1 out1 r1 (-> & -> & Hok & Hmv & Hst). apply awp_bind, awp_emit.
  eapply awp_mono; [by apply Hk|]. intros s2 out2 r (Hok2 & Hm2 & Hs2 & Hr2 & Hp2).
  split; [done|]. split; [exact (moved_trans s s1 s2 [e] out2 Hmv Hm2)|].
  split; [intros HR; eapply still_trans; [apply Hmv|done|by apply Hs2]|]. split; [|done].
  intros q. change (received q ([e] ++ out2) = []). rewrite received_app, Hr2, app_nil_r.
  destruct (decide (q = p)) as [->|Hq2]; [done|by apply Hr].
Qed.

Lemma queue_lookup m p d : heap m !! p = Some d → queue m p = sq_list (messages d).
Proof. intros E. unfold queue. by rewrite E. Qed.

Lemma good_popMessage R p s P :
  ok s → is_Some (heap s.2 !! p) → (∀ s' r, ok s' → P s' (inr r)) → good R (popMessage p) s P.
Proof.
  intros Hs Hp HP. apply good_bind, good_deref; [done|done|]. intros d Ed.
  pose proof (sq_list_pop (messages d)) as Hq.
  destruct (sq_pop (messages d)) as [[msg q]|]; [|by apply good_ret; auto].
  apply good_assign_emit; [done|done| |done| |intros s' Hs' _ _; by apply good_ret; auto].
  - intros r Hr. cbn. by rewrite decide_False by done.
  - cbn. rewrite decide_True by done. rewrite app_nil_r. by rewrite (queue_lookup _ _ _ Ed), Hq.
Qed.

(** The data of all endpoints. *)
Lemma ok_data s : ok s → Forall (λ o, ∃ p, o = Some p ∧ is_Some (heap s.2 !! p)) (eptData s.2).
Proof. intros [_ Hm]. apply Forall_forall. intros o Ho. by apply Hm. Qed.

Lemma good_anyMessages R l s P :
  ok s → Forall (λ o, ∃ p, o = Some p ∧ is_Some (heap s.2 !! p)) l →
  (∀ s' r, ok s' → P s' (inr r)) → good R (anyMessages l) s P.
Proof.
  intros Hs Hl HP. induction Hl as [|o l (p & -> & Hp) Hl IH]; cbn; [by apply good_ret; auto|].
  apply good_bind, good_deref; [done|done|]. intros d Ed.
  destruct (sq_empty _); [done|by apply good_ret; auto].
Qed.
Lemma good_countMessages R l sz s P :
  ok s → Forall (λ o, ∃ p, o = Some p ∧ is_Some (heap s.2 !! p)) l →
  (∀ s' r, ok s' → P s' (inr r)) → good R (countMessages sz l) s P.
Proof.
  intros Hs Hl HP. revert sz. induction Hl as [|o l (p & -> & Hp) Hl IH]; cbn; intros sz;
    [by apply good_ret; auto|].
  apply good_bind, good_deref; [done|done|]. intros d Ed. apply IH.
Qed.
Lemma good_firstMessage R l s P :
  ok s → Forall (λ o, ∃ p, o = Some p ∧ is_Some (heap s.2 !! p)) l →
  (∀ s' r, ok s' → P s' (inr r)) → good R (firstMessage l) s P.
Proof.
  intros Hs Hl HP. revert s Hs Hl HP. induction l as [|o l IH]; intros s Hs Hl HP; cbn;
    [by apply good_ret; auto|].
  apply Forall_cons in Hl as [(p & -> & Hp) Hl]. cbn.
  apply good_bind, good_deref; [done|done|]. intros d Ed.
  destruct (sq_empty _); [by apply IH|]. apply good_bind.
  eapply good_mono; [apply (good_popMessage R p s (λ s' r, ok s' ∧ ∃ x, r = inr x)); eauto|].
  intros s' out r Hs' Hmv [_ [[ms|] ->]]; [by apply good_ret; auto|]. apply IH; [done| |done].
  eapply Forall_impl; [exact Hl|]. intros o (q & -> & Hq). exists q. split; [done|]. by apply Hmv.
Qed.
Lemma good_mf_hasMessage R mode e s P :
  ok s → match e with Some e => live s.2 e | None => True end →
  (∀ s' r, ok s' → P s' (inr r)) → good R (mf_hasMessage mode e) s P.
Proof.
  intros Hs He HP. unfold mf_hasMessage. destruct (initialized_mode mode); [|by apply good_ret; auto].
  destruct e as [e|].
  - unfold hasMessageAt. destruct (dataReference e) as [p|] eqn:Ep; [|by apply good_ret; auto].
    apply good_bind, good_deref; [done|by apply He|]. intros d _. by apply good_ret; auto.
  - apply good_bind, good_manager; [done|]. apply good_anyMessages; auto using ok_data.
Qed.
Lemma good_mf_pendingMessages R mode e s P :
  ok s → match e with Some e => live s.2 e | None => True end →
  (∀ s' r, ok s' → P s' (inr r)) → good R (mf_pendingMessages mode e) s P.
Proof.
  intros Hs He HP. unfold mf_pendingMessages.
  destruct (initialized_mode mode); [|by apply good_ret; auto]. destruct e as [e|].
  - unfold pendingMessagesAt. destruct (dataReference e) as [p|] eqn:Ep; [|by apply good_ret; auto].
    apply good_bind, good_deref; [done|by apply He|]. intros d _. by apply good_ret; auto.
  - apply good_bind, good_manager; [done|]. apply good_countMessages; auto using ok_data.
Qed.
Lemma good_mf_getMessage R mode e s P :
  ok s → match e with Some e => live s.2 e | None => True end →
  (∀ s' r, ok s' → P s' (inr r)) → good R (mf_getMessage mode e) s P.
Proof.
  intros Hs He HP. unfold mf_getMessage.
  destruct (initialized_mode mode); [|by apply good_ret; auto]. destruct e as [e|].
  - unfold getMessageAt. destruct (dataReference e) as [p|] eqn:Ep; [|by apply good_ret; auto].
    apply good_popMessage; [done|by apply He|done].
  - apply good_bind, good_manager; [done|]. apply good_firstMessage; auto using ok_data.
Qed.

(** *** Endpoints *)
Lemma live_new m : live m newEndpoint.
Proof. done. Qed.
Lemma live_element m i e :
  man_inv m → dm_elements (local_endpoints m) !! i = Some e → live m e.
Proof.
  intros Hm He p Ep. destruct (mi_elem m Hm i e He) as (_ & q & Eq & Hd). simplify_eq.
  destruct (mi_data m Hm (Some p)) as (? & [= <-] & ?); [by eapply list_elem_of_lookup_2|done].
Qed.
Lemma good_getEndpoint R name s P :
  ok s → (∀ e, live s.2 e → P s (inr e)) → good R (getEndpoint name) s P.
Proof.
  intros Hs HP. apply good_bind, good_manager, good_ret; [done|done|]. apply HP. unfold dm_find1.
  destruct (dm_index1 _ _) as [i|]; [|done]. cbn.
  destruct (_ !! i) as [e|] eqn:E; [|done]. by eapply live_element; [apply Hs|].
Qed.
Lemma good_mf_getEndpoint R name s P :
  ok s → (∀ e, live s.2 e → P s (inr e)) → good R (mf_getEndpoint name) s P.
Proof.
  intros Hs HP. apply good_bind, good_getEndpoint; [done|]. intros e He.
  destruct (ept_isValid e); [by apply good_ret; auto|by apply good_getEndpoint].
Qed.
Lemma good_getEndpointAt R index s P :
  ok s → (∀ e, live s.2 e → P s (inr e)) → good R (getEndpointAt index) s P.
Proof.
  intros Hs HP. apply good_bind, good_manager, good_ret; [done|done|]. apply HP.
  destruct (_ && _); [|done].
  destruct (_ !! Z.to_nat index) as [e|] eqn:E; [|done]. by eapply live_element; [apply Hs|].
Qed.
Lemma good_setCallback R e cb s P :
  ok s → match e with Some e => live s.2 e | None => True end → (∀ s', ok s' → P s' (inr tt)) →
  good R (match e with
          | Some e => setEndpointNotificationCallbackAt e cb
          | None => setEndpointNotificationCallback cb
          end) s P.
Proof.
  intros Hs He HP. destruct e as [e|].
  - unfold setEndpointNotificationCallbackAt.
    destruct (dataReference e) as [p|] eqn:Ep; [|by apply good_ret; auto].
    apply good_bind, good_deref; [done|by apply He|]. intros d Ed.
    apply good_assign; [done|by apply He|by rewrite (queue_lookup _ _ _ Ed)|done].
  - apply awp_modify. destruct Hs as [Hw Hm].
    assert (ok (s.1, s.2 <| allCallback := cb |>)) as Hs' by (split; [done|by destruct Hm]).
    split_and!; [done| | |done|by apply HP].
    + split; [done| |done]. intros p. cbn. by rewrite app_nil_r.
    + intros _. split; [done|done|]. cbn. intros w w' E1 E2. by simplify_eq.
Qed.

(** *** Registration *)
Lemma alter_back {V} (f : V → V) l v : alter f (length l) (l ++ [v]) = l ++ [f v].
Proof. induction l as [|x l IH]; [done|]. cbn. by f_equal. Qed.
Lemma dm_back_elements {V} k h (v : V) f c c' :
  dm_try_insert k h v c = Some c' →
  dm_elements (dm_alter_back f c') = dm_elements c ++ [f v] ∧
  ∀ h', dm_index2 (dm_alter_back f c') h' = dm_index2 c' h'.
Proof.
  intros Ei. unfold dm_alter_back. split.
  - rewrite dm_assign_elements by apply length_alter. rewrite (di_elements _ _ _ _ _ Ei).
    rewrite length_app, Nat.add_sub. apply alter_back.
  - intros h'. apply dm_assign_index2, length_alter.
Qed.
Lemma register_inv m epts hid name :
  let edat := nextPtr m in
  let ept := mkEndpoint hid (-1) (Some edat) "" name in
  let loc := length (dm_elements (local_endpoints m)) in
  let ept' := ept <| referenceIndex := Z.of_nat loc |> in
  man_inv m → dm_try_insert (Some name) hid ept (local_endpoints m) = Some epts →
  let m' := addEndpoint loc ept' epts m in
  man_inv m' ∧ heap m !! edat = None ∧ heap m' = <[edat := newEndpointData]> (heap m).
Proof.
  intros edat ept loc ept' [I1 I2 I3 I4 I5 I6] Ei. unfold addEndpoint, storeData. cbn.
  rewrite I1, Nat.eqb_refl.
  destruct (dm_back_elements _ _ _ (λ _, ept') _ _ Ei) as [Ee Ex].
  assert (heap m !! edat = None) as Hf.
  { apply eq_None_not_Some. intros Hs%I5. subst edat. lia. }
  assert (∀ p, is_Some (heap m !! p) → is_Some (<[edat:=newEndpointData]> (heap m) !! p)) as Hg.
  { intros p Hp. rewrite lookup_insert_ne; [done|]. intros E. rewrite <- E, Hf in Hp. by destruct Hp. }
  split; [split; cbn|by split].
  - rewrite Ee, !length_app. by rewrite I1.
  - intros i e. rewrite Ee. intros [Hi|[Hi He]]%lookup_app_Some.
    + destruct (I2 i e Hi) as (Hr & p & Ep & Ed). split; [done|]. exists p. split; [done|].
      by apply lookup_app_l_Some.
    + apply list_lookup_singleton_Some in He as [Hi0 <-]. fold loc in Hi, Hi0.
      assert (i = loc) as -> by lia. split; [done|]. exists edat. split; [done|].
      rewrite lookup_app_r by (rewrite I1; done). by rewrite I1, Nat.sub_diag.
  - intros o [Ho|Ho%list_elem_of_singleton]%elem_of_app.
    + destruct (I3 o Ho) as (p & -> & Hp). eauto.
    + subst o. exists edat. by rewrite lookup_insert_eq.
  - apply NoDup_app. split; [done|]. split; [|apply NoDup_singleton].
    intros o Ho ->%list_elem_of_singleton. destruct (I3 _ Ho) as (p & [= <-] & Hp).
    exact (proj1 (eq_None_not_Some _) Hf Hp).
  - intros p. destruct (decide (p = edat)) as [->|Hne]; [lia|].
    rewrite lookup_insert_ne by done. intros Hp%I5. fold edat in Hp. lia.
  - intros h i. rewrite Ex, Ee. intros Hi. destruct (di_index2 _ _ _ _ _ _ _ Ei Hi) as [Hi'|[-> ->]].
    + destruct (I6 h i Hi') as (e & He & Hh). exists e. split; [|done]. by apply lookup_app_l_Some.
    + exists ept'. split; [|done]. by rewrite lookup_app_r, Nat.sub_diag by done.
Qed.


Lemma good_registerEndpoint (R : Prop) name type s P :
  ok s → is_Some s.1 → registrable W → (R → False) →
  (∀ s' r, ok s' → match r with inr e => live s'.2 e | inl _ => True end → P s' r) →
  good R (registerEndpoint name type) s P.
Proof.
  intros Hs Hc Hreg HR HP. apply good_bind, good_onCore; [done|done|apply Hreg|].
  intros s1 [e|hid] Hs1 _ Em; [by apply HP|].
  destruct (handle_isValid hid); [|by apply good_raise; auto].
  apply good_bind, good_manager; [done|].
  destruct (dm_try_insert _ _ _ _) as [epts|] eqn:Ei; [|by apply good_raise; auto].
  apply good_bind. destruct (register_inv _ _ _ _ (proj2 Hs1) Ei) as (Hi & Hf & Hh).
  revert Hi Hh. set (m' := addEndpoint _ _ _ _). intros Hi Hh. apply awp_modify. fold m'.
  assert (ok (s1.1, m')) as Hok by (split; [apply Hs1|exact Hi]).
  split; [done|]. split; [|split; [by intros ?%HR|split; [done|]]].
  - split; [| |done]; cbn.
    + intros p Hp. rewrite Hh. destruct (decide (p = nextPtr s1.2)) as [->|Hne];
        [by rewrite lookup_insert_eq|by rewrite lookup_insert_ne].
    + intros p. unfold queue. rewrite Hh, app_nil_r.
      destruct (decide (p = nextPtr s1.2)) as [->|Hne]; [|by rewrite lookup_insert_ne].
      rewrite lookup_insert_eq, Hf. cbn. by rewrite sq_list_new.
  - apply good_ret; [done|]. apply HP; [done|].
    intros p [= <-]. cbn [snd]. by rewrite Hh, lookup_insert_eq.
Qed.
Lemma good_mf_registerEndpoint (R : Prop) global name type s P :
  ok s → is_Some s.1 → registrable W → (R → False) →
  (∀ s' r, ok s' → match r with inr e => live s'.2 e | inl _ => True end → P s' r) →
  good R (mf_registerEndpoint global name type) s P.
Proof. intros. unfold mf_registerEndpoint. destruct global; by apply good_registerEndpoint. Qed.

Lemma good_mf_send R mode e dest data time s P :
  ok s → is_Some s.1 ∨ sending_mode mode = false → (∀ s' r, ok s' → P s' r) →
  good R (mf_send mode e dest data time) s P.
Proof.
  intros Hs Hc HP. unfold mf_send. destruct (sending_mode mode); [|by apply good_raise; auto].
  destruct Hc; [|done]. destruct time; (apply good_onCore; [done|done| |auto]);
    [apply mcl_sendEvent|apply mcl_send].
Qed.
Lemma good_mf_sendMessage R mode e msg s P :
  ok s → is_Some s.1 ∨ sending_mode mode = false → (∀ s' r, ok s' → P s' r) →
  good R (mf_sendMessage mode e msg) s P.
Proof.
  intros Hs Hc HP. unfold mf_sendMessage. destruct (sending_mode mode); [|by apply good_raise; auto].
  destruct Hc; [|done]. apply good_onCore; [done|done|apply mcl_sendMessage|auto].
Qed.

(** ** The code of an application *)
Lemma live_known m env e : Forall (live m) env → live m (known env e).
Proof.
  intros He. unfold known. destruct (env !! e) as [x|] eqn:E; [|done].
  by eapply Forall_lookup_1 in E.
Qed.
Lemma live_known_opt m env e :
  Forall (live m) env → match known env <$> e with Some e => live m e | None => True end.
Proof. intros He. destruct e; [by apply live_known|done]. Qed.

(** A program that registers needs a core that can do it; a federate that has disconnected
    can be read only. *)
Definition usable s (mode : modes) (p : app_program) : Prop :=
  (registers_none p ∨ is_Some s.1 ∧ registrable W) ∧ (is_Some s.1 ∨ sending_mode mode = false).
Definition runs_well (mode : modes) (p : app_program) : Prop :=
  ∀ s env, ok s → Forall (live s.2) env → usable s mode p →
  good (registers_none p) (run mode env p) s (λ _ _, True).

Lemma good_weaken (R R' : Prop) {A} (m : mgrM A) s P : good R' m s P → (R → R') → good R m s P.
Proof. intros Hm HR. eapply awp_mono; [exact Hm|]. intros s' out r (? & ? & ? & ? & ?). split_and!; auto. Qed.

(** An endpoint that is returned is live. *)
Definition found s (r : exception + Endpoint) : Prop :=
  match r with inr e => live s.2 e | inl _ => True end.
(** A call, and then the rest of the program. *)
Lemma run_call {A} (m : mgrM A) (g : A → mgrM unit) (R : Prop) s env P :
  ok s → Forall (live s.2) env → good R m s P →
  (∀ s' a, ok s' → Forall (live s'.2) env → (is_Some s.1 ↔ is_Some s'.1) → P s' (inr a) →
    good R (g a) s' (λ _ _, True)) →
  good R (a ← m; g a) s (λ _ _, True).
Proof.
  intros Hs He Hm Hg. apply good_bind. eapply good_mono; [exact Hm|].
  intros s' out [e|a] Hs' Hmv Hp; [done|]. apply Hg; [done| |apply Hmv|done].
  eapply Forall_impl; [exact He|]. intros e. by eapply live_moved.
Qed.
(** The rest of the program runs well and may use the core as before. *)
Lemma run_rest mode p k s s' env :
  runs_well mode k → (registers_none p → registers_none k) → usable s mode p →
  (is_Some s.1 ↔ is_Some s'.1) → ok s' → Forall (live s'.2) env →
  good (registers_none p) (run mode env k) s' (λ _ _, True).
Proof.
  intros Hk Hr Hu Hc Hs' He. eapply good_weaken; [apply Hk; [done|done|]|done].
  destruct Hu as [Hr' Hm]. unfold usable. rewrite <- Hc. split; [|done].
  destruct Hr'; auto.
Qed.

Lemma usable_send s mode p : usable s mode p → is_Some s.1 ∨ sending_mode mode = false.
Proof. by intros [_ ?]. Qed.
Lemma Forall_snoc_live m env e : Forall (live m) env → live m e → Forall (live m) (env ++ [e]).
Proof. intros. apply Forall_app. auto. Qed.

Lemma run_well mode p : runs_well mode p.
Proof.
  induction p as [|e|gl name type k IH|name k IH|i k IH|e k IH|e k IH|e k IH|e dest data t k IH
    |e msg k IH|e cb k IH]; intros s env Hs He Hu; cbn [run].
  - by apply good_ret.
  - by apply good_raise.
  - pose proof Hu as [[Hx|[Hc Hreg]] _]; [inversion Hx|].
    apply (run_call _ _ _ _ _ (λ s' r, match r with inr r => found s' r | inl _ => True end) Hs He).
    { apply good_try, good_mf_registerEndpoint; [done|done|done|by inversion 1|done]. }
    intros s' [e|ept] Hs' He' Hc' Hr;
      (eapply run_rest; [apply IH|by inversion 1|exact Hu|exact Hc'|done|]);
      [done|by apply Forall_snoc_live].
  - apply (run_call _ _ _ _ _ found Hs He); [by apply good_mf_getEndpoint|].
    intros s' e Hs' He' Hc' Hr. eapply run_rest; [apply IH|by inversion 1|done|done|done|].
    by apply Forall_snoc_live.
  - apply (run_call _ _ _ _ _ found Hs He); [by apply good_getEndpointAt|].
    intros s' e Hs' He' Hc' Hr. eapply run_rest; [apply IH|by inversion 1|done|done|done|].
    by apply Forall_snoc_live.
  - apply (run_call _ _ _ _ _ (λ _ _, True) Hs He).
    { apply good_mf_hasMessage; [done|by apply live_known_opt|done]. }
    intros s' b Hs' He' Hc' _. eapply run_rest; [apply IH|by inversion 1|done..].
  - apply (run_call _ _ _ _ _ (λ _ _, True) Hs He).
    { apply good_mf_pendingMessages; [done|by apply live_known_opt|done]. }
    intros s' b Hs' He' Hc' _. eapply run_rest; [apply IH|by inversion 1|done..].
  - apply (run_call _ _ _ _ _ (λ _ _, True) Hs He).
    { apply good_mf_getMessage; [done|by apply live_known_opt|done]. }
    intros s' b Hs' He' Hc' _. eapply run_rest; [apply IH|by inversion 1|done..].
  - apply (run_call _ _ _ _ _ (λ _ _, True) Hs He).
    { apply good_try, good_mf_send; [done|by eapply usable_send|done]. }
    intros s' b Hs' He' Hc' _. eapply run_rest; [apply IH|by inversion 1|done..].
  - apply (run_call _ _ _ _ _ (λ _ _, True) Hs He).
    { apply good_try, good_mf_sendMessage; [done|by eapply usable_send|done]. }
    intros s' b Hs' He' Hc' _. eapply run_rest; [apply IH|by inversion 1|done..].
  - apply (run_call _ _ _ _ _ (λ _ _, True) Hs He).
    { destruct e as [e|].
      - apply (good_setCallback _ (Some (known env e))); [done|by apply live_known|done].
      - by apply (good_setCallback _ None). }
    intros s' b Hs' He' Hc' _. eapply run_rest; [apply IH|by inversion 1|done..].
Qed.

(** ** Messages from the core *)

(** No function of the application registers endpoints. *)
Definition settled : Prop := ∀ cb h t, registers_none (react cb h t).
Context (Happ : settled ∨ registrable W).

Lemma good_runCallback mode cb ept s :
  ok s → is_Some s.1 → live s.2 ept → good settled (runCallback mode cb ept) s (λ _ _, True).
Proof.
  intros Hs Hc Hl. apply good_bind, good_manager; [done|]. apply good_bind, awp_emit.
  split; [done|]. split; [|split; [done|split; [done|]]].
  { split; [done| |done]. intros p. cbn. by rewrite app_nil_r. }
  eapply good_weaken; [apply run_well; [done|by constructor|]|intros HR; apply HR].
  split; [|by left]. destruct Happ; auto.
Qed.

Lemma dataAt_element s i ept :
  ok s → dm_elements (local_endpoints s.2) !! i = Some ept →
  ∃ p, eptData s.2 !! i = Some (Some p) ∧ is_Some (heap s.2 !! p) ∧
    dataAt (referenceIndex ept) s = (s, [], Value p).
Proof.
  intros [_ Hm] Hi. destruct (mi_elem _ Hm i ept Hi) as (Hr & p & Ep & Ed).
  destruct (mi_data _ Hm (Some p)) as (? & [= <-] & Hp); [by eapply list_elem_of_lookup_2|].
  exists p. split; [done|]. split; [done|]. unfold dataAt, manager, mbind, excM_bind. cbn.
  rewrite Hr. replace (Z.of_nat i <? 0) with false by (symmetry; apply Z.ltb_ge; lia).
  by rewrite Nat2Z.id, Ed.
Qed.

Lemma deliver_spec mode mcall ept msg s i :
  ok s → is_Some s.1 → dm_elements (local_endpoints s.2) !! i = Some ept →
  awp (deliver mode mcall ept msg) s (λ s' out r, ok s' ∧ moved s s' out ∧
    (settled → still s s') ∧
    ∃ p, eptData s.2 !! i = Some (Some p) ∧
      ∀ q, received q out = if decide (q = p) then [msg] else []).
Proof.
  intros Hs Hc Hi. destruct (dataAt_element s i ept Hs Hi) as (p & Ed & [d Hd] & Ea).
  unfold deliver. apply awp_bind. unfold awp at 1. rewrite Ea.
  apply awp_bind. unfold deref at 1. apply awp_bind, awp_bind, awp_get, awp_ret.
  rewrite Hd. apply awp_ret, awp_bind. eapply awp_mono.
  { apply (awp_assign p _ s [Received p msg]); [done|by rewrite Hd| |].
    - intros q Hq. cbn. by rewrite decide_False by done.
    - cbn. rewrite decide_True by done. by rewrite (queue_lookup _ _ _ Hd), sq_list_emplace. }
  intros s1 out1 r1 (-> & -> & Hok & Hmv & Hst). apply awp_bind, awp_emit.
  assert (good settled
    match callback_ d, mcall with
    | Some cb, _ | None, Some cb => runCallback mode cb ept
    | None, None => mret tt
    end s1 (λ _ _, True)) as Hg.
  { assert (is_Some s1.1) by (by apply Hmv).
    assert (live s1.2 ept) by (eapply live_moved; [exact Hmv|]; by eapply live_element; [apply Hs|]).
    destruct (callback_ d), mcall; [by apply good_runCallback..|by apply good_ret]. }
  eapply awp_mono; [exact Hg|]. intros s2 out2 r (Hok2 & Hm2 & Hs2 & Hr2 & _).
  split; [done|]. split; [exact (moved_trans s s1 s2 [Received p msg] out2 Hmv Hm2)|].
  split; [intros HR; eapply still_trans; [apply Hmv|done|by apply Hs2]|].
  exists p. split; [done|]. intros q. cbn [app]. cbn. fold (received q out2). rewrite Hr2.
  destruct (decide (p = q)) as [->|Hne]; [by rewrite decide_True|by rewrite decide_False].
Qed.

(** An endpoint with its handle and the address of its data. *)
Definition endpoint_at m (h : interface_handle) (p : ptr) : Prop :=
  ∃ i, dm_index2 (local_endpoints m) h = Some i ∧ eptData m !! i = Some (Some p).
Lemma endpoint_at_inj m h h' p : man_inv m → endpoint_at m h p → endpoint_at m h' p → h = h'.
Proof.
  intros Hm (i & Hi & Ed) (i' & Hi' & Ed').
  assert (i = i') as <- by (by eapply NoDup_lookup; [apply Hm|..]).
  destruct (mi_handle m Hm h i Hi) as (e & He & <-).
  destruct (mi_handle m Hm h' i Hi') as (e' & He' & <-). by simplify_eq.
Qed.
Lemma endpoint_at_fun m h p p' : endpoint_at m h p → endpoint_at m h p' → p = p'.
Proof. intros (i & Hi & Ed) (i' & Hi' & Ed'). by simplify_eq. Qed.

(** What is due in the core goes to the endpoint; [b] when nothing is left. *)
Definition drained s s' (out : list mgr_event) (b : Prop) : Prop :=
  local_endpoints s'.2 = local_endpoints s.2 ∧ eptData s'.2 = eptData s.2 ∧
  ∀ w w' h p, s.1 = Some w → s'.1 = Some w' → endpoint_at s.2 h p →
    mc_due w h = received p out ++ mc_due w' h ∧ (b → mc_due w' h = []).
Lemma still_drained s s' : still s s' → drained s s' [] False.
Proof.
  intros [E1 E2 E3]. split; [done|]. split; [done|]. intros w w' h p Ew Ew' _.
  destruct (E3 w w' Ew Ew') as [-> _]. done.
Qed.
Lemma drained_trans s1 s2 s3 out1 out2 b :
  (is_Some s1.1 ↔ is_Some s2.1) → drained s1 s2 out1 False → drained s2 s3 out2 b →
  drained s1 s3 (out1 ++ out2) b.
Proof.
  intros Hc (E1 & D1 & H12) (E2 & D2 & H23). split; [congruence|]. split; [congruence|].
  intros w w' h p Ew Ew' Hp. destruct (proj1 Hc) as [w2 Ew2]; [by rewrite Ew|].
  destruct (H12 w w2 h p Ew Ew2 Hp) as [-> _].
  destruct (H23 w2 w' h p Ew2 Ew') as [Hd Hb]; [unfold endpoint_at; by rewrite E1, D1|].
  split; [by rewrite received_app, Hd, app_assoc|done].
Qed.
Lemma due_none w : mc_ok w → mc_left w = 0%nat → ∀ h, mc_due w h = [].
Proof.
  intros Hw Hl. pose proof (mcl_receive w Hw) as Hr.
  destruct (mc_receiveAny w) as [w' [[[m|] [h|]]| |]]; try done;
    [|by intros h'; destruct Hr as [_ Hr]; apply Hr..].
  destruct Hr as (_ & Hx & _). lia.
Qed.

Lemma moved_core w w' m s' out : moved (Some w, m) s' out → moved (Some w', m) s' out.
Proof. intros [Hh Hq Hc]. split; [done|done|]. rewrite <- Hc. cbn. naive_solver. Qed.

(** One message that the core hands out. *)
Lemma receive_round mode mcall w w1 m msg h0 :
  mc_receiveAny w = (w1, Value (Some msg, Some h0)) → ok (Some w, m) →
  awp match dm_find2 (local_endpoints m) h0 with
      | Some ept => deliver mode mcall ept msg
      | None => app_emit (Discarded msg)
      end (Some w1, m) (λ s' out r, ok s' ∧ moved (Some w, m) s' out ∧
    (settled → drained (Some w, m) s' out False ∧
       ∀ w', s'.1 = Some w' → mc_left w = S (mc_left w'))).
Proof.
  intros Er [Hw Hm]. pose proof (mcl_receive w (Hw w eq_refl)) as Hr. rewrite Er in Hr.
  destruct Hr as (Hw1 & Hl & Hdue & Hother).
  assert (ok (Some w1, m)) as Hs1 by (split; [by intros ? [= <-]|done]).
  destruct (dm_find2 (local_endpoints m) h0) as [ept|] eqn:Ef.
  - unfold dm_find2 in Ef. destruct (dm_index2 _ h0) as [i|] eqn:Ei; [|done]. cbn in Ef.
    eapply awp_mono; [by apply (deliver_spec mode mcall ept msg (Some w1, m) i)|].
    intros s' out r (Hs' & Hmv & Hst & p0 & Ep0 & Hrec). split; [done|].
    split; [by eapply moved_core|]. intros HR. destruct (Hst HR) as [E1 E2 E3].
    split; [|intros w' Ew'; by rewrite Hl, (proj2 (E3 w1 w' eq_refl Ew'))].
    split; [done|]. split; [done|]. intros ? w' h p [= <-] Ew' Hp.
    rewrite (proj1 (E3 w1 w' eq_refl Ew')), Hrec. split; [|done].
    assert (endpoint_at m h0 p0) as Hp0 by (by exists i). cbn in Hp.
    destruct (decide (h = h0)) as [->|Hne].
    + rewrite decide_True by (by eapply endpoint_at_fun). done.
    + rewrite decide_False by (intros ->; by apply Hne, (endpoint_at_inj m h h0 p0)).
      by rewrite (Hother h Hne).
  - apply awp_emit. split; [done|]. split.
    { split; [done| |done]. intros p. cbn. by rewrite app_nil_r. }
    intros _. split; [|by intros w' [= <-]]. split; [done|]. split; [done|].
    intros ? ? h p [= <-] [= <-] (i & Hi & _). cbn in Hi. split; [|done]. cbn.
    rewrite Hother; [done|]. intros ->. by destruct (dm_find2_Some _ _ _ Hi) as (v & Hv & _); simplify_eq.
Qed.

Lemma receiveLoop_spec mode mcall n : ∀ eid w m, ok (Some w, m) →
  awp (receiveLoop n mode mcall eid) (Some w, m) (λ s' out r, ok s' ∧
    moved (Some w, m) s' out ∧
    (settled → drained (Some w, m) s' out (r = inr tt ∧ (mc_left w ≤ n)%nat))).
Proof.
  induction n as [|n IH]; intros eid w m Hs; cbn [receiveLoop].
  - apply awp_ret. split; [done|]. split; [apply moved_refl|]. intros _.
    split; [done|]. split; [done|]. intros ? ? h p [= <-] [= <-] _. split; [done|].
    intros [_ Hl]. apply due_none; [by apply Hs|lia].
  - pose proof (mcl_receive w (proj1 Hs w eq_refl)) as Hr. apply awp_bind.
    unfold awp at 1, onCore. destruct (mc_receiveAny w) as [w1 [[[msg|] h]| |]] eqn:Er; try done.
    + destruct h as [h|]; [|done]. destruct Hr as (Hw1 & _).
      apply awp_bind. unfold manager. apply awp_bind, awp_get, awp_ret, awp_bind.
      eapply awp_mono; [by apply (receive_round mode mcall w w1 m msg h)|].
      intros s1 out1 [e|u] (Hs1 & Hmv1 & Hd1).
      { split; [done|]. split; [done|]. intros HR. destruct (Hd1 HR) as [(? & ? & Hd) _].
        split; [done|]. split; [done|]. intros w0 w' h' p Ew Ew' Hp.
        destruct (Hd w0 w' h' p Ew Ew' Hp). by split; [|by intros []]. }
      destruct s1 as [[w2|] m1]; [|by destruct (proj1 (mv_core _ _ _ Hmv1)); [eauto|]].
      eapply awp_mono; [by apply IH|]. intros s2 out2 r (Hs2 & Hmv2 & Hd2).
      split; [done|]. split; [exact (moved_trans _ _ _ _ _ Hmv1 Hmv2)|]. intros HR.
      destruct (Hd1 HR) as [Hd1' Hl]. specialize (Hd2 HR).
      cbn [app]. eapply drained_trans; [apply Hmv1|exact Hd1'|].
      destruct Hd2 as (E1 & E2 & Hd2). split; [done|]. split; [done|].
      intros w0 w' h' p Ew Ew' Hp. destruct (Hd2 w0 w' h' p Ew Ew' Hp) as [A B].
      split; [done|]. intros [-> Hn]. apply B. split; [done|].
      rewrite (Hl w2 eq_refl) in Hn. lia.
    + assert (mc_ok w1 ∧ ∀ h, mc_due w h = [] ∧ mc_due w1 h = []) as [Hw1 Hd] by (by destruct h).
      apply awp_ret. split; [split; [by intros ? [= <-]|apply Hs]|]. split.
      { split; [done|intros p; cbn; by rewrite app_nil_r|done]. }
      intros _. split; [done|]. split; [done|]. intros ? ? h' p [= <-] [= <-] _.
      by destruct (Hd h') as [-> ->].
Qed.

Lemma mgr_updateTime_spec mode t w m :
  ok (Some w, m) →
  awp (updateTime mode t) (Some w, m) (λ s' out r, ok s' ∧ moved (Some w, m) s' out ∧
    (settled → drained (Some w, m) s' out (r = inr tt))).
Proof.
  intros Hs. unfold updateTime. apply awp_bind, awp_modify. cbn [fst snd].
  set (m1 := m <| CurrentTime := t |>).
  assert (ok (Some w, m1)) as Hs1 by (split; [apply Hs|by destruct Hs as [_ []]]).
  apply awp_bind. unfold awp at 1, onCore. rewrite (mcl_count w) by (by apply Hs).
  apply awp_bind. unfold manager. apply awp_bind, awp_get, awp_ret. rewrite Nat2Z.id.
  eapply awp_mono; [by apply receiveLoop_spec|]. intros s' out r (Hok & Hmv & Hd).
  split; [done|]. cbn [app]. split; [by destruct Hmv|]. intros HR.
  destruct (Hd HR) as (E1 & E2 & Hd'). split; [done|]. split; [done|].
  intros w0 w' h p Ew Ew' Hp. destruct (Hd' w0 w' h p Ew Ew' Hp) as [A B]. auto.
Qed.

(** C12. When a federate has a new time, the messages of the core are kept for their
    endpoints in order: whatever the functions of the application do meanwhile, and also
    when they throw, for each endpoint what it had and what the core hands out is what the
    application has taken and what the endpoint has now.  When no function registers
    endpoints, what the core has for an endpoint goes to that endpoint, and nothing is left
    in the core when the call returns normally. *)
Theorem message_delivery mode t w m :
  mc_ok w → man_inv m →
  ∃ w' m' out r, updateTime mode t (Some w, m) = ((Some w', m'), out, r) ∧
    r ≠ NullPointer ∧ man_inv m' ∧
    (∀ p, queue m p ++ received p out = taken p out ++ queue m' p) ∧
    (settled → ∀ h p, endpoint_at m h p →
       queue m p ++ mc_due w h = taken p out ++ queue m' p ++ mc_due w' h ∧
       (r = Value tt → mc_due w' h = [])).
Proof.
  intros Hw Hm. assert (ok (Some w, m)) as Hs by (split; [by intros ? [= <-]|done]).
  pose proof (mgr_updateTime_spec mode t w m Hs) as Hu. unfold awp in Hu.
  destruct (updateTime mode t (Some w, m)) as [[[c' m'] out] r] eqn:E.
  assert (∃ w', c' = Some w') as [w' ->].
  { destruct r; [destruct Hu as (_ & Hmv & _)..|done]; by apply (mv_core _ _ _ Hmv); eauto. }
  exists w', m', out, r. split; [done|]. split; [by intros ->|].
  assert (ok (Some w', m') ∧ moved (Some w, m) (Some w', m') out ∧
    (settled → drained (Some w, m) (Some w', m') out (r = Value tt))) as (Hok & Hmv & Hd).
  { destruct r as [[]|e|]; [|destruct Hu as (? & ? & Hd)|done].
    - destruct Hu as (? & ? & Hd). split; [done|]. split; [done|]. intros HR.
      destruct (Hd HR) as (? & ? & Hd'). split; [done|]. split; [done|].
      intros w0 w1 h p E0 E1 Hp. destruct (Hd' w0 w1 h p E0 E1 Hp). auto.
    - split; [done|]. split; [done|]. intros HR.
      destruct (Hd HR) as (? & ? & Hd'). split; [done|]. split; [done|].
      intros w0 w1 h p E0 E1 Hp. destruct (Hd' w0 w1 h p E0 E1 Hp). by split. }
  split; [apply Hok|]. split; [apply Hmv|]. intros HR h p Hp.
  destruct (Hd HR) as (_ & _ & Hd'). destruct (Hd' w w' h p eq_refl eq_refl Hp) as [-> Hl].
  split; [|done]. rewrite !app_assoc. f_equal. apply Hmv.
Qed.
End facts.

(** ** A message federate and its application *)

Section federate.
  Context `{TimeRep} `{DualMapped C} `{!DualMappedLaws C} `{!DualInsert C} `{!DualInsertLaws C}.
  Context `{SimpleQueue Q} `{!SimpleQueueLaws Q} {W : Type} `{!MessageCore W} `{!Inbox W}.
  Context `{!MessageCoreLaws W} `{!FederateName} `{!Application} `{!FederateCore W}.
  Context `{!QuietCore (W := W)} (always : ∀ w : W, mc_ok w) (Hreg : registrable W).
  Abbreviation manager := (MessageFederateManager (C := C) (Q := Q)).
  Abbreviation appM := (excM (Federate W manager) app_event).
  Implicit Types f : Federate W manager.

(** Code of the application that uses the endpoints. *)
Definition runProgram (p : app_program) : appM unit := withManager (λ mode, run mode [] p).

Lemma updateTime_sound mode t t' w (m : manager) :
  man_inv m → (v_updateTime mode t t' w m).2 ≠ NullPointer ∧ man_inv (v_updateTime mode t t' w m).1.2.
Proof.
  intros Hm. assert (ok (Some w, m)) as Hs by (split; [by intros ? [= <-]|done]).
  pose proof (mgr_updateTime_spec (or_intror Hreg) mode t w m Hs) as Hu. unfold awp in Hu. cbn [v_updateTime message_virtuals].
  destruct (updateTime mode t (Some w, m)) as [[[c' m'] out] r].
  destruct r; [destruct Hu as ([_ Hi] & _)..|done]; done.
Qed.
#[local] Instance message_sound : SoundVirtuals (W := W) (D := manager).
Proof.
  refine {| sv_inv := man_inv |}; [done|done|]. intros. by apply updateTime_sound.
Defined.

Lemma program_orderly : code_orderly runProgram registers_none.
Proof.
  intros p f ph [Hc Hp Hd] Ha. unfold orderly, runProgram, withManager.
  assert (ok (coreObject f, derived f)) as Hs by (split; [intros; apply always|exact Hd]).
  assert (usable (coreObject f, derived f) (currentMode f) p) as Hu.
  { destruct (coreObject f) as [w|] eqn:E; [split; [right|left]; eauto|].
    destruct Ha as [[? ?]|Ha]; [done|]. split; [by left|right].
    by destruct (Hc eq_refl) as [-> | ->]. }
  pose proof (run_well (currentMode f) p _ [] Hs (Forall_nil_2 _) Hu) as Hg. unfold good, awp in Hg.
  destruct (run _ _ _ _) as [[[c d] out] r] eqn:E.
  assert (ok (c, d) ∧ (is_Some (coreObject f) ↔ is_Some c) ∧ r ≠ NullPointer) as ([_ Hi] & Hcc & Hr).
  { destruct r; [destruct Hg as (? & [_ _ Hcc] & _)..|done]; done. }
  split; [by destruct r|]. exists ph. split; [constructor|]. split; [|intros _; cbn; by apply Hcc].
  split; cbn; [|exact Hp|exact Hi]. intros ->. apply Hc.
  destruct (coreObject f); [|done]. by destruct (proj1 Hcc).
Qed.

Lemma newManager_inv : man_inv (newManager (C := C) (Q := Q)).
Proof.
  split; cbn; rewrite ?di_empty; [done|done|by intros ? ?%not_elem_of_nil|constructor| |].
  - intros p. by rewrite lookup_empty; intros [].
  - intros h i Hi%dm_index2_lt. rewrite di_empty in Hi. cbn in Hi. lia.
Qed.


(** An endpoint that is registered later uses the null pointer to the core. *)
Lemma register_after_disconnect name type (m : manager) :
  (registerEndpoint (W := W) name type (None, m)).2 = NullPointer.
Proof. done. Qed.
End federate.
