(* ===== verification/AppMessagesCore.v ===== *)
(** * Message federates on the core of CommonCore.v

    The core that a message federate uses, for the federate with a given identifier: the
    calls of CoreApi.v satisfy what AppMessagesFacts.v expects of a core.  What a core
    hands out are the messages of the endpoints up to the granted time. *)

From stdpp Require Import strings gmap.
From S2P Require Import Prelude HelicsTime Ids Flags ActionMessage MessageCodec.
From S2P Require Import Definitions TimeDependencies TimeCoordinator InputInfo Interfaces.
From S2P Require Import InterfaceInfo HandleManager FederateState.
From S2P Require Import ForwardingTimeCoordinator Effects MappedVector BrokerBase BrokerState.
From S2P Require Import CoreState CommonCore CoreApi.
From S2P Require Import AppMonad AppFederate AppMessages AppMessagesFacts.

(** ** The messages of a list of endpoints up to a time *)
Section due.
  Context `{TimeRep}.
  Implicit Types (e : EndpointInfo) (l : list EndpointInfo) (t : Time).

Definition ready_messages t e : list Message := base.filter (λ m, msg_time m ≤ t) (message_queue e).
Definition ept_handle e : interface_handle := handle (ept_id e).
Definition due t l (h : interface_handle) : list Message :=
  l ≫= λ e, if decide (ept_handle e = h) then ready_messages t e else [].
Definition count t l : nat := sum_list_with (λ e, length (ready_messages t e)) l.

Lemma due_cons t e l h :
  due t (e :: l) h = (if decide (ept_handle e = h) then ready_messages t e else []) ++ due t l h.
Proof. done. Qed.
Lemma count_cons t e l : count t (e :: l) = (length (ready_messages t e) + count t l)%nat.
Proof. done. Qed.

(** Another state of one endpoint. *)
Lemma due_insert t l i e e' m :
  NoDup (ept_handle <$> l) → l !! i = Some e → ept_handle e' = ept_handle e →
  ready_messages t e = m :: ready_messages t e' →
  due t l (ept_handle e) = m :: due t (<[i := e']> l) (ept_handle e) ∧
  (∀ h, h ≠ ept_handle e → due t (<[i := e']> l) h = due t l h) ∧
  count t l = S (count t (<[i := e']> l)).
Proof.
  intros Hd Hi Hh Hm. revert i Hi. induction l as [|x l IH]; intros [|i] Hi; [done|done|..].
  - injection Hi as ->. change (<[0%nat := e']> (e :: l)) with (e' :: l).
    rewrite !due_cons, !count_cons, Hh, !decide_True, Hm by done. split; [done|].
    split; [|done]. intros h Hne. rewrite !due_cons, Hh. by rewrite !decide_False by done.
  - apply NoDup_cons in Hd as [Hx Hd]. destruct (IH Hd i Hi) as (D1 & D2 & D3).
    assert (ept_handle x ≠ ept_handle e) as Hne.
    { intros E. apply Hx. rewrite E. apply list_elem_of_fmap. exists e. split; [done|].
      by eapply list_elem_of_lookup_2. }
    change (<[S i := e']> (x :: l)) with (x :: <[i := e']> l).
    rewrite !due_cons, !count_cons, decide_False by done.
    split; [done|]. split; [|rewrite D3; lia]. intros h Hne'. by rewrite !due_cons, D2.
Qed.
Lemma due_nil t l h : Forall (λ e, ready_messages t e = []) l → due t l h = [].
Proof.
  induction 1 as [|e l He Hl IH]; [done|]. rewrite due_cons, He, IH. by case_decide.
Qed.
Lemma count_nil t l : Forall (λ e, ready_messages t e = []) l → count t l = 0%nat.
Proof. induction 1 as [|e l He Hl IH]; [done|]. by rewrite count_cons, He, IH. Qed.

(** ** The search for the earliest message *)

Lemma ready_first t e :
  msgs_sorted (message_queue e) → t < firstMessageTime e → ready_messages t e = [].
Proof.
  intros Hs Ht. unfold ready_messages. apply list_filter_none. unfold firstMessageTime in Ht.
  destruct Hs as [|x q Hs Hx]; [constructor|]. constructor; [lia|].
  eapply Forall_impl; [exact Hx|]. intros y Hy%msg_le_time. lia.
Qed.
Lemma earliest_spec l : ∀ ind best t0,
  match earliestEndpoint ind l best t0 with
  | (b, t) => t ≤ t0 ∧ Forall (λ e, t ≤ firstMessageTime e) l ∧
      ((b = best ∧ t = t0) ∨
       ∃ i e, b = Some (ind + i)%nat ∧ l !! i = Some e ∧ t = firstMessageTime e ∧ t < t0)
  end.
Proof.
  induction l as [|e l IH]; intros ind best t0; cbn [earliestEndpoint].
  - split; [lia|]. split; [constructor|by left].
  - destruct (Z.ltb_spec (firstMessageTime e) t0) as [Hlt|Hge].
    + specialize (IH (S ind) (Some ind) (firstMessageTime e)).
      destruct (earliestEndpoint _ _ _ _) as [b t]. destruct IH as (Hle & Hall & Hb).
      split; [lia|]. split; [constructor; [lia|done]|]. right.
      destruct Hb as [[-> ->]|(i & e' & -> & Hi & -> & Ht)].
      * exists 0%nat, e. by rewrite Nat.add_0_r.
      * exists (S i), e'. split; [f_equal; lia|]. split; [done|]. split; [done|lia].
    + specialize (IH (S ind) best t0). destruct (earliestEndpoint _ _ _ _) as [b t].
      destruct IH as (Hle & Hall & Hb). split; [done|]. split; [constructor; [lia|done]|].
      destruct Hb as [Hb|(i & e' & -> & Hi & Et & Ht)]; [by left|right].
      exists (S i), e'. split; [f_equal; lia|]. done.
Qed.
End due.

(** ** The core of a federate *)
Section core.
  Context `{TimeRep} `{SteadyClock} `{TimeMs} `{UnitsLib} `{Fmt} `{MappedVector C}.
  Context `{!MappedVectorLaws C} `{DualMapped D} `{!DualMappedLaws D} `{BlockingQueue Q}.
  Context `{FilterOperators V} `{LocalAddress}.
  Abbreviation CC := (CommonCore C D Q V).
  Abbreviation FS := (FederateState D Q).
  Abbreviation M := (effM CC broker_out).

(** The core with the messages that the calls have queued for its thread. *)
Definition api_core : Type := CC * list broker_out.
Implicit Types (w : api_core) (s : CC).

(** A call: an exception leaves the core as it was, as the calls below throw before they
    change it; a call that does not return or leaves an object is a null pointer. *)
Definition core_call {A} (m : M A) (w : api_core) : api_core * result A :=
  match m w.1 with
  | Some (Ok (s, out, a)) => ((s, w.2 ++ out), Value a)
  | Some (Throw _) => (w, Raise OtherHelicsException)
  | _ => (w, NullPointer)
  end.

(** The federate [fid]; [res] and [rounds] are those of [waitCoreRegistration]. *)
Context (fid : local_federate_id) (res : bool) (rounds : nat).
#[local] Instance core_messages : MessageCore api_core := {|
  mc_registerEndpoint name type := core_call (CoreApi.registerEndpoint fid name type);
  mc_registerFrequentCommunicationsPair source dest := λ w, (w, Value tt);
  mc_addSourceTarget h name := core_call (addSourceTarget h name);
  mc_addDestinationTarget h name := core_call (addDestinationTarget h name);
  mc_send h dest data := core_call (CoreApi.send h dest data);
  mc_sendEvent t h dest data := core_call (CoreApi.sendEvent t h dest data);
  mc_sendMessage h m := core_call (CoreApi.sendMessage res rounds h m);
  mc_receiveCountAny := core_call (CoreApi.receiveCountAny fid);
  mc_receiveAny := core_call (CoreApi.receiveAny fid);
|}.

Definition fed_endpoints (fed : FS) : list EndpointInfo :=
  dm_elements (InterfaceInfo.endpoints (interfaceInformation fed)).
Definition fed_of s : option FS :=
  getFederateAt s fid ≫= λ p, mv_elements (federates s) !! p.

(** The endpoints of the federate are in order, the time is not the end, and the messages
    can be counted. *)
Record inbox_ok (fed : FS) : Prop := {
  ib_sorted : Forall (λ e, msgs_sorted (message_queue e)) (fed_endpoints fed);
  ib_handles : NoDup (ept_handle <$> fed_endpoints fed);
  ib_time : fs_time_granted fed < Time_maxVal;
  ib_count : Z.of_nat (count (fs_time_granted fed) (fed_endpoints fed)) < 2 ^ 64;
}.
(** The core has its identifier, and the handles of endpoints belong to federates. *)
Record core_ok s : Prop := {
  co_fed : ∃ fed, fed_of s = Some fed ∧ inbox_ok fed;
  co_id : fed_isValid (global_id (cc_base s)) = true ∧
          global_id (cc_base s) ≠ parent_broker_id;
  co_owner : ∀ h hi, getHandleInfo (cc_handles s) h = Some hi → handleType hi = ht_endpoint →
    is_Some (getFederateAt s (local_fed_id hi));
}.

Definition fed_due (fed : FS) (h : interface_handle) : list Message :=
  if bool_decide (fs_state fed = HELICS_EXECUTING)
  then due (fs_time_granted fed) (fed_endpoints fed) h else [].
Definition fed_left (fed : FS) : nat :=
  if bool_decide (fs_state fed = HELICS_EXECUTING)
  then count (fs_time_granted fed) (fed_endpoints fed) else 0%nat.
#[local] Instance core_inbox : Inbox api_core := {|
  mc_ok w := core_ok w.1;
  mc_due w h := from_option (λ fed, fed_due fed h) [] (fed_of w.1);
  mc_left w := from_option fed_left 0%nat (fed_of w.1);
|}.

(** *** Calls that send *)

Lemma getFederateAt_some s f p :
  getFederateAt s f = Some p → ∃ fed, mv_elements (federates s) !! p = Some fed.
Proof.
  unfold getFederateAt, isValidIndex. destruct (_ && _) eqn:E; [|done]. intros [= <-].
  apply andb_true_iff in E as [E1%Z.leb_le E2%Z.ltb_lt]. apply lookup_lt_is_Some_2. lia.
Qed.
Lemma sender_cases s h :
  core_ok s →
  (∃ what, sender h s = Some (Throw what)) ∨ ∃ hi fed, sender h s = Some (Ok (s, [], (hi, fed))).
Proof.
  intros [_ _ Ho]. unfold sender, handleOf, mbind, effM_bind, eff_get.
  destruct (getHandleInfo (cc_handles s) h) as [hi|] eqn:E; [|left; eauto]. cbn.
  destruct (bool_decide_reflect (handleType hi = ht_endpoint)) as [Ht|Ht]; [|left; eauto].
  destruct (Ho h hi E Ht) as [p Hp]. destruct (getFederateAt_some _ _ _ Hp) as [fed Hf].
  right. exists hi, fed. cbn. unfold ownerOf, fedAt, mbind, effM_bind, eff_get. rewrite Hp. cbn.
  by rewrite Hf.
Qed.

(** A call that throws or leaves the core as it was, up to the counter of messages. *)
Definition quiet_call {A} (m : M A) : Prop := ∀ s, core_ok s →
  (∃ what, m s = Some (Throw what)) ∨
  ∃ out a c, m s = Some (Ok (s <| cc_messageCounter := c |>, out, a)).
Lemma quiet_undisturbed {A} (m : M A) : quiet_call m → undisturbed (core_call m).
Proof.
  intros Hm [s l] Hs. unfold core_call. cbn [fst snd].
  destruct (Hm s Hs) as [[what ->]|(out & a & c & ->)]; [by cbn|].
  split; [done|]. split; [by destruct Hs|]. done.
Qed.
Lemma counter_same s : s <| cc_messageCounter := cc_messageCounter s |> = s.
Proof. by destruct s. Qed.

Lemma quiet_sendAt time h dest data : quiet_call (sendAt time h dest data).
Proof.
  intros s Hs. unfold sendAt.
  destruct (sender_cases s h Hs) as [[what E]|(hi & fed & E)].
  - left. exists what. unfold mbind at 1, effM_bind at 1. by rewrite E.
  - right. eexists _, _, _. rewrite (eff_bind_ok _ _ s s (hi, fed)) by done. done.
Qed.
Lemma quiet_sendMessage h m : quiet_call (CoreApi.sendMessage res rounds h m).
Proof.
  intros s Hs. unfold CoreApi.sendMessage. destruct (h =? direct_send_handle).
  - right. assert (waitCoreRegistration res rounds s = Some (Ok (s, [], true))) as E.
    { unfold waitCoreRegistration. destruct (co_id s Hs) as [Hv Hp].
      assert (∀ b, cc_base s = b →
        negb ((global_id b =? parent_broker_id) || negb (fed_isValid (global_id b))) = true) as Hb.
      { intros b <-. by rewrite Hv, (proj2 (Z.eqb_neq _ _) Hp). }
      destruct rounds; cbn [waitRounds]; unfold get_base, mbind, effM_bind, eff_get;
        cbn; by rewrite Hb. }
    eexists _, _, (cc_messageCounter s). rewrite counter_same.
    by rewrite (eff_bind_ok _ _ s s true) by done.
  - destruct (sender_cases s h Hs) as [[what E]|(hi & fed & E)].
    + left. exists what. unfold mbind at 1, effM_bind at 1. by rewrite E.
    + right. rewrite (eff_bind_ok _ _ s s (hi, fed)) by done. cbn beta iota.
      destruct (setString (messageCommand m) sourceStringLoc (hi_key hi)) as [m1| |] eqn:Es;
        [|done..].
      rewrite (eff_bind_ok _ _ s s m1) by done. cbv zeta.
      destruct (messageID _ =? 0).
      * eexists _, _, _. done.
      * eexists _, _, (cc_messageCounter s). rewrite counter_same. done.
Qed.

(** *** Calls that receive *)

Lemma queueSize_ready t e :
  msgs_sorted (message_queue e) → queueSize e t = Z.of_nat (length (ready_messages t e)).
Proof. intros Hs. unfold queueSize. by rewrite countUpTo_sorted. Qed.
Lemma totalQueueSize_spec t l cnt :
  Forall (λ e, msgs_sorted (message_queue e)) l → 0 ≤ cnt → cnt + Z.of_nat (count t l) < 2 ^ 64 →
  foldl (λ cnt ept, to_uint 64 (cnt + queueSize ept t)) cnt l = cnt + Z.of_nat (count t l).
Proof.
  intros Hl. revert cnt. induction Hl as [|e l He Hl IH]; intros cnt H0' Hc; cbn [foldl].
  - cbn. lia.
  - rewrite count_cons in Hc |- *. rewrite queueSize_ready by done.
    rewrite to_uint_id by (unfold uint_range; lia). rewrite IH; lia.
Qed.

Lemma fed_of_cases s fed :
  fed_of s = Some fed →
  ∃ p, getFederateAt s fid = Some p ∧ mv_elements (federates s) !! p = Some fed.
Proof. intros (p & Hp & Hf)%bind_Some. eauto. Qed.

Lemma core_count w : mc_ok w → mc_receiveCountAny w = (w, Value (Z.of_nat (mc_left w))).
Proof.
  destruct w as [s l]. intros Hw. change (core_ok s) in Hw.
  destruct Hw as [(fed & Hf & Hi) _ _]. destruct (fed_of_cases s fed Hf) as (p & Hp & Hl).
  cbn. rewrite Hf. cbn. unfold core_call, CoreApi.receiveCountAny, federateAt, fedAt, mbind, effM_bind,
    eff_get. cbn. rewrite Hp. cbn. rewrite Hl. cbn. rewrite app_nil_r. do 2 f_equal. unfold fed_left.
  destruct (bool_decide_reflect (fs_state fed = HELICS_EXECUTING)); [|done]. cbn.
  destruct Hi as [I1 I2 I3 I4]. unfold fs_getTotalQueueSize. fold (fed_endpoints fed).
  by rewrite totalQueueSize_spec by (done || lia).
Qed.

(** The federate afterwards. *)
Lemma fed_of_update s p (fed fed' : FS) :
  getFederateAt s fid = Some p → mv_elements (federates s) !! p = Some fed →
  fed_of (s <| federates := mv_alter (λ _, fed') p (federates s) |>) = Some fed' ∧
  ∀ f, is_Some (getFederateAt s f) →
    is_Some (getFederateAt (s <| federates := mv_alter (λ _, fed') p (federates s) |>) f).
Proof.
  intros Hp Hf.
  assert (∀ f, getFederateAt (s <| federates := mv_alter (λ _, fed') p (federates s) |>) f
    = getFederateAt s f) as Hg.
  { intros f. unfold getFederateAt, isValidIndex. cbn. by rewrite mv_alter_elements, length_alter. }
  split; [|intros f; by rewrite Hg]. unfold fed_of. rewrite Hg, Hp. cbn.
  by rewrite mv_alter_elements, list_lookup_alter_eq, Hf.
Qed.

(** [receiveAny] of a federate that executes. *)
Lemma fs_receiveAny_spec (fed : FS) :
  inbox_ok fed →
  let t := fs_time_granted fed in
  match fs_receiveAny fed with
  | (fed', Some m, Some h) =>
      inbox_ok fed' ∧ fs_state fed' = fs_state fed ∧ fs_time_granted fed' = t ∧
      due t (fed_endpoints fed) h = m :: due t (fed_endpoints fed') h ∧
      (∀ h', h' ≠ h → due t (fed_endpoints fed') h' = due t (fed_endpoints fed) h') ∧
      count t (fed_endpoints fed) = S (count t (fed_endpoints fed'))
  | (fed', None, _) => fed' = fed ∧ ∀ h, due t (fed_endpoints fed) h = []
  | _ => False
  end.
Proof.
  intros [I1 I2 I3 I4] t. unfold fs_receiveAny. fold (fed_endpoints fed).
  pose proof (earliest_spec (fed_endpoints fed) 0 None Time_maxVal) as He.
  destruct (earliestEndpoint _ _ _ _) as [b te]. destruct He as (_ & Hall & Hb).
  assert (t < te → ∀ h, due t (fed_endpoints fed) h = []) as Hnone.
  { intros Hlt h. apply due_nil. apply Forall_forall. intros e He.
    eapply Forall_forall in I1; [|exact He]. eapply Forall_forall in Hall; [|exact He].
    apply ready_first; [done|]. cbn in Hall. lia. }
  destruct Hb as [[-> ->]|(i & e & -> & Hi & -> & Ht)]; [split; [done|by apply Hnone]|].
  cbn [Nat.add].
  fold t. destruct (Z.leb_spec (firstMessageTime e) t) as [Hle|Hgt];
    [|split; [done|by apply Hnone]]. rewrite Hi.
  unfold Interfaces.getMessage. unfold firstMessageTime in Hle, Ht.
  destruct (message_queue e) as [|m q] eqn:Eq; [unfold t in Hle; lia|].
  rewrite (proj2 (Z.leb_le _ _) Hle).
  set (e' := e <| message_queue := q |>).
  assert (ready_messages t e = m :: ready_messages t e') as Er.
  { unfold ready_messages. rewrite Eq. cbn [message_queue]. by rewrite filter_cons_True. }
  destruct (due_insert t (fed_endpoints fed) i e e' m I2 Hi eq_refl Er) as (D1 & D2 & D3).
  set (fed' := on_endpoints _ fed).
  assert (fed_endpoints fed' = <[i := e']> (fed_endpoints fed)) as Ef.
  { unfold fed_endpoints, fed', on_endpoints. cbn. rewrite dm_assign_elements; [done|].
    apply length_insert. }
  rewrite Ef. split_and!; [|done|done|exact D1|exact D2|exact D3].
  split; rewrite ?Ef.
  - apply Forall_insert; [done|]. eapply Forall_lookup_1 in I1; [|exact Hi]. rewrite Eq in I1.
    by apply StronglySorted_cons in I1 as [_ ?].
  - rewrite list_fmap_insert. change (ept_handle e') with (ept_handle e).
    rewrite list_insert_id; [done|]. by rewrite list_lookup_fmap, Hi.
  - done.
  - change (fs_time_granted fed') with t. fold t in I4. lia.
Qed.

Lemma core_ok_update s p (fed fed' : FS) :
  core_ok s → getFederateAt s fid = Some p → mv_elements (federates s) !! p = Some fed →
  inbox_ok fed' → core_ok (s <| federates := mv_alter (λ _, fed') p (federates s) |>).
Proof.
  intros [_ Hid Ho] Hp Hf Hi. destruct (fed_of_update s p fed fed' Hp Hf) as [E1 E2].
  split; [by exists fed'|done|]. intros h hi Hh Ht. by eapply E2, Ho.
Qed.

(** The call, for the federate at [p]. *)
Lemma receiveAny_run s p (fed : FS) :
  getFederateAt s fid = Some p → mv_elements (federates s) !! p = Some fed →
  CoreApi.receiveAny fid s =
    if bool_decide (fs_state fed = HELICS_EXECUTING) then
      let '(fed', msg, id) := fs_receiveAny fed in
      Some (Ok (s <| federates := mv_alter (λ _, fed') p (federates s) |>, [], (msg, id)))
    else Some (Ok (s, [], (None, Some invalid_handle))).
Proof.
  intros Hp Hf. unfold CoreApi.receiveAny, federateAt, fedAt, mbind, effM_bind, eff_get. cbn.
  rewrite Hp. cbn. rewrite Hf. cbn. destruct (bool_decide _); [|done]. cbn.
  by destruct (fs_receiveAny fed) as [[fed' msg] id].
Qed.

Lemma core_receive w : mc_ok w →
  match mc_receiveAny w with
  | (w', Value (Some m, Some h)) =>
      mc_ok w' ∧ mc_left w = S (mc_left w') ∧ mc_due w h = m :: mc_due w' h ∧
      ∀ h', h' ≠ h → mc_due w' h' = mc_due w h'
  | (w', Value (None, _)) => mc_ok w' ∧ ∀ h, mc_due w h = [] ∧ mc_due w' h = []
  | _ => False
  end.
Proof.
  destruct w as [s l]. intros Hw. change (core_ok s) in Hw.
  destruct (co_fed s Hw) as (fed & Hf & Hi). destruct (fed_of_cases s fed Hf) as (p & Hp & Hl).
  cbn [mc_receiveAny core_messages]. unfold core_call. cbn [fst snd].
  rewrite (receiveAny_run s p fed Hp Hl).
  cbn [mc_ok mc_left mc_due core_inbox fst]. rewrite Hf. cbn [from_option].
  unfold fed_due at 1 3, fed_left at 1.
  destruct (bool_decide_reflect (fs_state fed = HELICS_EXECUTING)) as [Hx|Hx].
  - pose proof (fs_receiveAny_spec fed Hi) as Hr. cbv zeta in Hr.
    destruct (fs_receiveAny fed) as [[fed' [m|]] h]; [destruct h as [h|]; [|done]|].
    + destruct Hr as (Hi' & Hst & Hgr & D1 & D2 & D3).
      destruct (fed_of_update s p fed fed' Hp Hl) as [E _]. cbn [fst]. rewrite E.
      cbn [from_option]. unfold fed_due, fed_left. rewrite Hst, Hgr, bool_decide_true by done.
      split; [by eapply core_ok_update|]. done.
    + destruct Hr as [-> Hd]. destruct (fed_of_update s p fed fed Hp Hl) as [E _]. cbn [fst].
      rewrite E. cbn [from_option]. split; [by eapply core_ok_update|]. intros h'.
      unfold fed_due. rewrite bool_decide_true by done. by rewrite Hd.
  - cbn [fst]. rewrite Hf. cbn [from_option]. split; [done|]. intros h. unfold fed_due.
    by rewrite bool_decide_false.
Qed.

#[local] Instance core_message_laws : MessageCoreLaws api_core.
Proof.
  split.
  - intros. apply quiet_undisturbed, quiet_sendAt.
  - intros. apply quiet_undisturbed, quiet_sendAt.
  - intros. apply quiet_undisturbed, quiet_sendMessage.
  - apply core_count.
  - apply core_receive.
Qed.
End core.
