(* ===== verification/AppMessagesExamples.v ===== *)
(** * Containers for the application interface, and runs of message federates *)

From stdpp Require Import strings gmap.
From S2P Require Import Prelude HelicsTime Ids Flags ActionMessage MessageCodec CodecFacts.
From S2P Require Import Definitions TimeDependencies TimeCoordinator InputInfo Interfaces.
From S2P Require Import InterfaceInfo HandleManager UnknownHandles FederateState.
From S2P Require Import FederateExamples ForwardingTimeCoordinator Effects MappedVector.
From S2P Require Import BrokerBase BrokerState BrokerExamples CoreState CommonCore CoreApi.
From S2P Require Import CoreExamples.
From S2P Require Import AppMonad AppFederate AppFederateFacts AppMessages AppMessagesFacts.
From S2P Require Import AppMessagesCore.

(** ** A container with several names for an element *)

Definition named (V : Type) : Type := list (list string * Z * V).

#[export] Instance named_mapped : DualMapped named := {|
  dm_empty V := [];
  dm_insert V key h v c :=
    if existsb (λ e, existsb (String.eqb key) e.1.1 || (e.1.2 =? h)) c then c
    else c ++ [([key], h, v)];
  dm_elements V c := c.*2;
  dm_index1 V c key := fst <$> list_find (λ e, key ∈ e.1.1) c;
  dm_index2 V c h := fst <$> list_find (λ e, e.1.2 = h) c;
  dm_assign V c l := zip_with (λ e v, (e.1, v)) c l;
|}.
#[export] Instance named_laws : DualMappedLaws named.
Proof.
  split; intros V c.
  - intros h i. cbn. destruct (list_find _ c) as [[j e]|] eqn:E; [|done]. intros [= <-].
    apply list_find_Some in E as [E _]. rewrite length_fmap. by eapply lookup_lt_Some.
  - intros l. cbn. rewrite length_fmap. revert l.
    induction c as [|e c IH]; intros [|v l] Hl; simplify_eq/=; [done|]. cbn. f_equal. by apply IH.
  - intros l k. cbn. rewrite length_fmap.
    exact (list_find_assign (λ e : list string * Z, k ∈ e.1) c l).
  - intros l k. cbn. rewrite length_fmap.
    exact (list_find_assign (λ e : list string * Z, e.2 = k) c l).
Qed.

(** An element is not entered when its name or its handle is there. *)
Definition named_free {V} (k : option string) (h : Z) (c : named V) : bool :=
  bool_decide (dm_index2 c h = None) &&
  match k with Some k => bool_decide (dm_index1 c k = None) | None => true end.
#[export] Instance named_insert : DualInsert named := {|
  dm_try_insert V k h v c :=
    if named_free k h c then Some (c ++ [(from_option (λ k, [k]) [] k, h, v)]) else None;
  dm_addSearchTerm V k h c :=
    match dm_index2 c h with
    | Some i => alter (λ e, (k :: e.1.1, e.1.2, e.2)) i c
    | None => c
    end;
|}.

Lemma list_find_snoc {A} (P : A → Prop) `{∀ x, Decision (P x)} l x :
  fst <$> list_find P (l ++ [x]) =
    match fst <$> list_find P l with
    | Some i => Some i
    | None => if decide (P x) then Some (length l) else None
    end.
Proof.
  induction l as [|y l IH]; cbn; [by case_decide|]. destruct (decide (P y)); [done|].
  destruct (list_find P (l ++ [x])) as [[]|], (list_find P l) as [[]|]; cbn in *;
    repeat case_decide; simplify_eq; done.
Qed.
Lemma list_find_alter {A} (P : A → Prop) `{∀ x, Decision (P x)} (f : A → A) i l :
  (∀ x, P (f x) ↔ P x) → fst <$> list_find P (alter f i l) = fst <$> list_find P l.
Proof.
  intros Hf. revert i. induction l as [|x l IH]; intros [|i]; cbn; [done..| |].
  - destruct (decide (P (f x))), (decide (P x)); by naive_solver.
  - destruct (decide (P x)); [done|]. specialize (IH i).
    destruct (list_find P (alter f i l)) as [[]|], (list_find P l) as [[]|]; cbn in *; congruence.
Qed.
#[export] Instance named_insert_laws : DualInsertLaws named.
Proof.
  split.
  - done.
  - intros V k h v c c' Hi. cbn in *. destruct (named_free k h c); [|done]. injection Hi as <-.
    by rewrite fmap_app.
  - intros V k h v c c' h' i Hi. cbn in *. destruct (named_free k h c); [|done]. injection Hi as <-.
    rewrite list_find_snoc. destruct (fst <$> list_find _ c); [by left|].
    cbn. case_decide; [|done]. intros [= <-]. right. split; [done|by rewrite length_fmap].
  - intros V k h v c c' h' i Hi Hne. cbn in *. destruct (named_free k h c); [|done]. injection Hi as <-.
    rewrite list_find_snoc. by intros ->.
  - intros V k h v c c' Hi Hn. cbn in *. destruct (named_free k h c); [|done]. injection Hi as <-.
    rewrite list_find_snoc, Hn. cbn. rewrite decide_True by done. by rewrite length_fmap.
  - intros V k h v c Hh Hk. cbn. unfold named_free. rewrite bool_decide_true by done. cbn [andb].
    destruct k; [rewrite bool_decide_true by done|]; eauto.
  - intros V k h c. cbn. destruct (fst <$> list_find _ c) as [i|]; [|done].
    revert i. induction c as [|e c IH]; intros [|i]; cbn; [done..|]. by f_equal.
  - intros V k h c h'. cbn. destruct (fst <$> list_find (λ e, e.1.2 = h) c) as [i|]; [|done].
    by apply list_find_alter.
  - intros V c k i. cbn. destruct (list_find _ c) as [[j e]|] eqn:E; [|done]. intros [= <-].
    apply list_find_Some in E as [E _]. rewrite length_fmap. by eapply lookup_lt_Some.
Qed.

(** A queue that is a list. *)
#[export] Instance list_fifo : SimpleQueue list := {|
  sq_new A := [];
  sq_emplace A a q := q ++ [a];
  sq_pop A q := match q with [] => None | a :: q => Some (a, q) end;
  sq_empty A q := match q with [] => true | _ => false end;
  sq_size A q := Z.of_nat (length q);
|}.
#[export] Instance list_fifo_laws : SimpleQueueLaws list.
Proof.
  refine {| sq_list := λ A q, q |}; try done.
  - by intros A [].
  - by intros A [].
Defined.

(** ** A federate on the core of CoreExamples.v *)

Abbreviation chat_core :=
  (api_core (C := mvec) (D := listed) (Q := list ActionMessage) (V := unit)).
#[export] Instance chat_messages : MessageCore chat_core := core_messages 0 true 0.
#[export] Instance chat_inbox : Inbox chat_core := core_inbox 0.
#[export] Instance chat_laws : MessageCoreLaws chat_core := core_message_laws 0 true 0.
#[export] Instance chat_name : FederateName := {| getName := "fed"; nameSegmentSeparator := "/" |}.
(** Each function of the application takes one message. *)
#[export] Instance chat_app : Application := λ cb h t, p_getMessage (Some 0%nat) (λ m, p_return).
Lemma chat_settled : settled.
Proof. intros cb h t. constructor. intros m. constructor. Defined.

Definition chat_message (text : string) (t : Time) : Message :=
  mkMessage t 0 0 text "ept" "other" "other" "".
(** The federate executes at the time 5 and has three messages. *)
Definition chat_start : chat_core :=
  (core_with_ept <| federates := mv_alter (λ fed, on_endpoints
     (dm_alter2 (λ e, foldl addMessage e [chat_message "b" 4; chat_message "a" 3;
                                          chat_message "c" 9]) 0)
     (fed <| fs_state := HELICS_EXECUTING |> <| fs_time_granted := 5 |>)) 0
     (federates core_with_ept) |>, []).
(** Its endpoint has a function and one message from before. *)
Definition chat_manager : MessageFederateManager (C := named) (Q := list) :=
  mkManager [(["ept"], 0, mkEndpoint 0 0 (Some 0%nat) "" "ept")] None 2 [Some 0%nat]
    {[0%nat := mkEndpointData [chat_message "old" 1] (Some 7%nat)]} 1%nat.

Lemma chat_manager_inv : man_inv chat_manager.
Proof.
  split.
  - done.
  - intros [|i] e He; [|done]. injection He as <-. split; [done|]. by exists 0%nat.
  - intros o Ho. exists 0%nat. apply list_elem_of_singleton in Ho as ->. split; [done|]. by eexists.
  - apply NoDup_singleton.
  - intros p [d Hd]. unfold chat_manager in Hd. cbn [heap] in Hd.
    apply lookup_singleton_Some in Hd as [<- _]. cbn. lia.
  - intros h i. cbn. destruct (decide (0 = h)) as [<-|]; [|done]. intros [= <-].
    eexists. by split.
Qed.
Lemma chat_endpoint : endpoint_at chat_manager 0 0%nat.
Proof. by exists 0%nat. Qed.
Lemma chat_start_ok : mc_ok chat_start.
Proof.
  split.
  - eexists. split; [vm_compute; reflexivity|]. split.
    + vm_compute. repeat constructor.
    + vm_compute. apply NoDup_singleton.
    + vm_compute. reflexivity.
    + vm_compute. reflexivity.
  - vm_compute. done.
  - intros h hi Hh _.
    assert (∃ hi0, HandleManager.handles (cc_handles chat_start.1) = [hi0] ∧
      is_Some (getFederateAt chat_start.1 (local_fed_id hi0))) as (hi0 & E & Hs).
    { eexists. split; [vm_compute; reflexivity|]. vm_compute. by eexists. }
    unfold getHandleInfo in Hh. destruct (isValidIndex _ _); [|discriminate Hh].
    rewrite E in Hh. apply list_lookup_singleton_Some in Hh as [_ <-]. exact Hs.
Qed.

Lemma message_delivery_witness :
  ∃ w' m' out,
    updateTime m_executing 5 (Some chat_start, chat_manager) = ((Some w', m'), out, Value tt) ∧
    queue chat_manager 0%nat ++ mc_due chat_start 0 = taken 0%nat out ++ queue m' 0%nat ∧
    taken 0%nat out = [chat_message "old" 1; chat_message "a" 3].
Proof.
  destruct (message_delivery (or_introl chat_settled) m_executing 5 chat_start chat_manager
    chat_start_ok chat_manager_inv) as (w' & m' & out & r & E & _ & _ & _ & Hd).
  assert (r = Value tt ∧ taken 0%nat out = [chat_message "old" 1; chat_message "a" 3]) as [-> Ht].
  { vm_compute in E. injection E as _ _ <- <-. done. }
  destruct (Hd chat_settled 0 0%nat chat_endpoint) as [Hq Hn].
  rewrite (Hn eq_refl), app_nil_r in Hq.
  exists w', m', out. split; [exact E|]. split; [exact Hq|exact Ht].
Defined.

(** ** A federate on a simple core *)

(** A core with the number of its handles and the messages it has. *)
Definition mailbox : Type := Z * list (interface_handle * Message).
#[export] Instance mailbox_core : FederateCore mailbox := {|
  core_enterInitializingMode := λ w, (w, inr tt);
  core_enterExecutingMode := λ it w, (w, inr ir_next_step);
  core_timeRequest := λ t w, (w, inr t);
  core_requestTimeIterative := λ t it w, (w, inr (t, ir_next_step));
  core_getCurrentTime := λ w, 0;
  core_finalize := λ w, (w, inr tt);
  core_localError := λ c msg w, w;
  core_globalError := λ c msg w, w;
  core_closeFilters := λ w, w;
  core_query := λ target q w, "";
|}.
#[export] Instance mailbox_quiet : QuietCore (W := mailbox).
Proof. split; [done|]. intros w. by exists w. Qed.
#[export] Instance mailbox_messages : MessageCore mailbox := {|
  mc_registerEndpoint name type := λ w, ((w.1 + 1, w.2), Value w.1);
  mc_registerFrequentCommunicationsPair source dest := λ w, (w, Value tt);
  mc_addSourceTarget h name := λ w, (w, Value tt);
  mc_addDestinationTarget h name := λ w, (w, Value tt);
  mc_send h dest data := λ w, (w, Value tt);
  mc_sendEvent t h dest data := λ w, (w, Value tt);
  mc_sendMessage h m := λ w, (w, Value tt);
  mc_receiveCountAny := λ w, (w, Value (Z.of_nat (length w.2)));
  mc_receiveAny := λ w, match w.2 with
                        | [] => (w, Value (None, None))
                        | (h, m) :: l => ((w.1, l), Value (Some m, Some h))
                        end;
|}.
#[export] Instance mailbox_inbox : Inbox mailbox := {|
  mc_ok w := True;
  mc_due w h := omap (λ x, if decide (x.1 = h) then Some x.2 else None) w.2;
  mc_left w := length w.2;
|}.
#[export] Instance mailbox_laws : MessageCoreLaws mailbox.
Proof.
  split; [done|done|done|done|]. intros [n [|[h m] l]] _; cbn; [done|].
  split; [done|]. split; [done|]. rewrite decide_True by done. split; [done|].
  intros h' Hne. by rewrite decide_False by done.
Qed.
Lemma mailbox_always (w : mailbox) : mc_ok w.
Proof. done. Qed.
Lemma mailbox_registrable : registrable mailbox.
Proof. done. Qed.

