(* ===== verification/AppValues.v ===== *)
(** * Value federates
    (src/src/helics/application_api/ValueFederate.cpp, ValueFederateManager.hpp,
    ValueFederateManager.cpp, Inputs.hpp, Inputs.cpp)

    A value federate is a federate whose derived part, the manager, keeps the last value of
    each input.  When a time is granted the manager takes the values that have changed out
    of the core, lets the input decide whether that is an update, and calls the functions
    that the application has given it; these can use the federate in turn.

    The inputs stay where they are in their container, so that a reference to an input is
    its position; the data of an input is reached through a raw pointer and is kept in a
    heap.  The core is the class [ValueCore].  What an input does with the bytes of a value,
    which is arithmetic on floating point numbers and units, is the class [InputValue]. *)

From stdpp Require Import strings gmap.
From S2P Require Import Prelude HelicsTime Ids InterfaceInfo AppMonad AppFederate AppMessages.

(** ** The core *)

Class ValueCore (W : Type) := {
  vc_registerPublication : string → string → string → W → W * result interface_handle;
  vc_registerInput : string → string → string → W → W * result interface_handle;
  vc_addSourceTarget : interface_handle → string → W → W * result unit;
  vc_addDestinationTarget : interface_handle → string → W → W * result unit;
  vc_removeTarget : interface_handle → string → W → W * result unit;
  vc_setValue : interface_handle → string → W → W * result unit;
  vc_getValue : interface_handle → W → W * result (option string);
  vc_getAllValues : interface_handle → W → W * result (list (option string));
  vc_getValueUpdates : W → W * result (list interface_handle);
  vc_getExtractionType : interface_handle → W → W * result string;
  vc_getInjectionType : interface_handle → W → W * result string;
  vc_getInjectionUnits : interface_handle → W → W * result string;
}.

(** ** The value of an input

    [V] are the members of an [Input] that belong to its value (the last value, the types,
    the units and the limit of the change detection), [D] the values.  [iv_extract] is the
    value of the bytes of a publication, [iv_combine] the one of several publications by
    the method that is given, [iv_changed] the detection of a change and [iv_store] the
    assignment of the last value.  The vector of values that are combined must not be
    empty for each method, so that [iv_combine] can be the use of a null pointer. *)
Class InputValue (V D : Type) := {
  iv_new : string → V;
  iv_targetKnown : V → bool;
  iv_setTarget : string → V → V;
  iv_injectionKnown : V → bool;
  iv_load : string → string → V → exception + V;
  iv_extract : string → V → exception + D;
  iv_combine : Z → list (option string) → V → result D;
  iv_changed : V → D → bool;
  iv_store : D → V → V;
}.

(** [multi_input_handling_method::no_op] *)
Definition no_op : Z := 0.

(** [class Publication] *)
Record Publication := mkPublication {
  pub_handle : interface_handle;
  pub_key : string;
  pub_type : string;
  pub_units : string;
}.
Definition newPublication : Publication := mkPublication invalid_handle "" "" "".
Definition pub_isValid (p : Publication) : bool := handle_isValid (pub_handle p).

(** What is recorded of the data at an address: the time of an update, a value from the
    core, values from the core for an input with several publications, a value that is set
    without an update, what the application has read, and an update that it has dropped. *)
Inductive value_event :=
  | Updated (p : ptr) (t : Time)
  | Stored (p : ptr) (data : string)
  | Combined (p : ptr) (dataV : list (option string))
  | Assigned (p : ptr) (data : string) (t : Time)
  | ReadValue (p : ptr) (data : string)
  | Cleared (p : ptr)
  | Notified (cb : callback) (h : interface_handle) (t : Time).

(** *** The code of an application

    A function that the application gives to the federate is a program over the calls of
    the federate and of its inputs.  It refers to the inputs and the publications it has
    got so far by their number; one that it does not have is [Input()] or [Publication()].
    The methods of an [Input] are called when it is valid. *)
Inductive value_call :=
  | VRegisterInput (global : bool) (key type units : string)
  | VRegisterPublication (global : bool) (key type units : string)
  | VRegisterSubscription (target units : string)
  | VGetInput (key : string)
  | VGetInputAt (index : Z)
  | VGetSubscription (key : string)
  | VGetPublication (key : string)
  | VGetPublicationAt (index : Z)
  | VGetTarget (inp : nat)
  | VAddTarget (inp : nat) (target : string)
  | VAddPublicationTarget (pub : nat) (target : string)
  | VRemoveTarget (inp : nat) (target : string)
  | VRemovePublicationTarget (pub : nat) (target : string)
  | VAddAlias (inp : nat) (name : string)
  | VAddPublicationAlias (pub : nat) (name : string)
  | VSetDefaultValue (inp : nat) (data : string)
  | VGetValueRaw (inp : nat)
  | VPublish (pub : nat) (data : string)
  | VHasUpdate (inp : nat)
  | VGetLastUpdateTime (inp : nat)
  | VQueryUpdates
  | VClearUpdates
  | VClearUpdate (inp : nat)
  | VSetCallback (inp : option nat) (cb : option callback)
  | VInputIsUpdated (inp : nat)
  | VInputGetRawValue (inp : nat)
  | VInputClearUpdate (inp : nat)
  | VInputSetMultiInput (inp : nat) (value : Z)
  | VInputEnableChangeDetection (inp : nat) (enabled : bool).
(** What a call returns. *)
Inductive value_answer :=
  | AnException (e : exception)
  | AUnit
  | AValid (b : bool)
  | AData (data : string)
  | ATime (t : Time)
  | AIndices (l : list Z).
Inductive value_program :=
  | vp_return
  | vp_throw (e : exception)
  | vp_call (c : value_call) (k : value_answer → value_program).
Class ValueApplication := value_react : callback → interface_handle → Time → value_program.

Section manager.
  Context `{TimeRep} `{DualMapped C} `{!DualInsert C} {W V D : Type}.
  Context `{!ValueCore W} `{!InputValue V D} `{!FederateName} `{!ValueApplication}.

(** [class Input] without the pointer to the federate, and [Input()]. *)
Record Input := mkInput {
  in_handle : interface_handle;
  in_referenceIndex : Z;
  in_dataReference : option ptr;
  changeDetectionEnabled : bool;
  in_hasUpdate : bool;
  inputVectorOp : Z;
  prevInputCount : Z;
  in_actualName : string;
  in_value : V;
}.
#[export] Instance eta_Input : Eta Input := λ i,
  mkInput (in_handle i) (in_referenceIndex i) (in_dataReference i) (changeDetectionEnabled i)
    (in_hasUpdate i) (inputVectorOp i) (prevInputCount i) (in_actualName i) (in_value i).
Definition newInput : Input := mkInput invalid_handle (-1) None false false no_op 0 "" (iv_new "").
Definition in_isValid (i : Input) : bool := handle_isValid (in_handle i).

(** [struct input_info], without the members that are not used. *)
Record input_info := mkInputInfo {
  lastData : string;
  lastUpdate : Time;
  lastQuery : Time;
  info_name : string;
  info_type : string;
  info_units : string;
  info_callback : option callback;
  info_hasUpdate : bool;
}.
#[export] Instance eta_input_info : Eta input_info := λ d,
  mkInputInfo (lastData d) (lastUpdate d) (lastQuery d) (info_name d) (info_type d)
    (info_units d) (info_callback d) (info_hasUpdate d).
Definition newInputInfo (name type units : string) : input_info :=
  mkInputInfo "" 0 0 name type units None false.

(** [class ValueFederateManager]: [inputData] is the vector of owning pointers, [heap] the
    objects they point to.  A multimap is the list of its entries in the order in which
    they were entered: that is the order of the entries with the same key. *)
Record ValueFederateManager := mkValueManager {
  inputs : C Input;
  publications : C Publication;
  CurrentTime : Time;
  allCallback : option callback;
  inputData : list ptr;
  targetIDs : list (string * interface_handle);
  inputTargets : list (interface_handle * string);
  heap : gmap ptr input_info;
  nextPtr : ptr;
}.
#[export] Instance eta_ValueFederateManager : Eta ValueFederateManager := λ m,
  mkValueManager (inputs m) (publications m) (CurrentTime m) (allCallback m) (inputData m)
    (targetIDs m) (inputTargets m) (heap m) (nextPtr m).
(** The constructor; [Time(-1.0)] is the time before the first second. *)
Definition newValueManager (minus_one : Time) : ValueFederateManager :=
  mkValueManager dm_empty dm_empty minus_one None [] [] [] ∅ 0%nat.

(** The manager with its pointer to the core, which is the one of the federate:
    [ValueFederate::disconnect] sets both to null. *)
Definition value_state : Type := option W * ValueFederateManager.
Abbreviation valM := (excM value_state value_event).
Definition manager : valM ValueFederateManager := s ← app_get; mret s.2.
Definition upd_manager (f : ValueFederateManager → ValueFederateManager) : valM unit :=
  app_modify (λ s, (s.1, f s.2)).

(** [coreObject->], and a query of the federate that is answered also without a core. *)
Definition onCore {A} (f : W → W * result A) : valM A := λ s,
  match s with
  | (Some w, m) => let '(w, r) := f w in ((Some w, m), [], r)
  | (None, _) => (s, [], NullPointer)
  end.
Definition askCore (f : W → W * result string) : valM string :=
  s ← app_get; match s.1 with Some _ => onCore f | None => mret "" end.

Definition app_result {A} (r : result A) : valM A := λ s, (s, [], r).

(** The object at an address, and an assignment to its members with what is recorded. *)
Definition deref (p : ptr) : valM input_info :=
  m ← manager;
  match heap m !! p with Some d => mret d | None => app_null end.
Definition updInfo (p : ptr) (f : input_info → input_info) : valM unit :=
  _ ← deref p; upd_manager (λ m, m <| heap := alter f p (heap m) |>).
Definition writeInfo (p : ptr) (f : input_info → input_info) (e : value_event) : valM unit :=
  _ ← updInfo p f; app_emit e.

(** The input of a reference. *)
Definition inputAt (i : nat) : valM Input :=
  m ← manager;
  match dm_elements (inputs m) !! i with Some inp => mret inp | None => app_null end.
Definition updInput (i : nat) (f : Input → Input) : valM unit :=
  _ ← inputAt i;
  upd_manager (λ m, m <| inputs := dm_assign (inputs m) (alter f i (dm_elements (inputs m))) |>).

(** ** Registration *)

(** A name, or [no_search] when it is empty. *)
Definition searchKey (key : string) : option string :=
  if String.eqb key "" then None else Some key.

Definition registerPublication (key type units : string) : valM Publication :=
  coreID ← onCore (vc_registerPublication key type units);
  m ← manager;
  let pub := mkPublication coreID key type units in
  match dm_try_insert (searchKey key) coreID pub (publications m) with
  | Some pubs => _ ← upd_manager (λ m, m <| publications := pubs |>); mret pub
  | None => app_raise RegistrationFailure
  end.

(** What follows the insertion of the input; the number of inputs is taken to fit in an
    [int]. *)
Definition addInput (key type units : string) (ipts : C Input) (m : ValueFederateManager)
    : ValueFederateManager :=
  let edat := nextPtr m in
  let data := inputData m ++ [edat] in
  m <| heap := <[edat := newInputInfo key type units]> (heap m) |> <| nextPtr := S edat |>
    <| inputData := data |>
    <| inputs := dm_alter_back (λ ref, ref <| in_dataReference := Some edat |>
         <| in_referenceIndex := Z.of_nat (length data) - 1 |>) ipts |>.
(** The reference to the new input. *)
Definition registerInput (key type units : string) : valM nat :=
  coreID ← onCore (vc_registerInput key type units);
  m ← manager;
  let inp := newInput <| in_handle := coreID |> <| in_actualName := key |>
               <| in_value := iv_new units |> in
  match dm_try_insert (searchKey key) coreID inp (inputs m) with
  | Some ipts =>
      _ ← upd_manager (addInput key type units ipts);
      mret (length (dm_elements (inputs m)))
  | None => app_raise RegistrationFailure
  end.

Definition addAlias (inp : Input) (shortcutName : string) : valM unit :=
  if in_isValid inp then
    upd_manager (λ m, m <| inputs := dm_addSearchTerm shortcutName (in_handle inp) (inputs m) |>
                        <| targetIDs := targetIDs m ++ [(shortcutName, in_handle inp)] |>)
  else app_raise InvalidIdentifier.
Definition addPublicationAlias (pub : Publication) (shortcutName : string) : valM unit :=
  if pub_isValid pub then
    upd_manager (λ m, m <| publications :=
                             dm_addSearchTerm shortcutName (pub_handle pub) (publications m) |>)
  else app_raise InvalidIdentifier.

Definition addPublicationTarget (pub : Publication) (target : string) : valM unit :=
  _ ← onCore (vc_addDestinationTarget (pub_handle pub) target);
  upd_manager (λ m, m <| targetIDs := targetIDs m ++ [(target, pub_handle pub)] |>).
Definition addTarget (inp : Input) (target : string) : valM unit :=
  _ ← onCore (vc_addSourceTarget (in_handle inp) target);
  upd_manager (λ m, m <| targetIDs := targetIDs m ++ [(target, in_handle inp)] |>
                      <| inputTargets := inputTargets m ++ [(in_handle inp, target)] |>).
Definition removePublicationTarget (pub : Publication) (target : string) : valM unit :=
  onCore (vc_removeTarget (pub_handle pub) target).
(** The first entry of the input with the target. *)
Definition removeTarget (inp : Input) (target : string) : valM unit :=
  m ← manager;
  match list_find (λ e, e = (in_handle inp, target)) (inputTargets m) with
  | Some (el, _) =>
      _ ← onCore (vc_removeTarget (in_handle inp) target);
      upd_manager (λ m, m <| inputTargets := delete el (inputTargets m) |>)
  | None => mret tt
  end.

(** ** Values *)

Definition setDefaultValue (inp : Input) (block : string) : valM unit :=
  if in_isValid inp then
    match in_dataReference inp with
    | Some p =>
        m ← manager;
        writeInfo p (λ d, d <| lastData := block |> <| lastUpdate := CurrentTime m |>)
          (Assigned p block (CurrentTime m))
    | None => app_null
    end
  else app_raise InvalidIdentifier.

Definition getUpdateFromCore (updatedHandle : interface_handle) : valM unit :=
  data ← onCore (vc_getValue updatedHandle);
  m ← manager;
  match dm_find2 (inputs m) updatedHandle, data with
  | Some fid, Some data =>
      match in_dataReference fid with
      | Some p =>
          writeInfo p (λ d, d <| lastData := data |> <| lastUpdate := CurrentTime m |>)
            (Assigned p data (CurrentTime m))
      | None => app_null
      end
  | Some _, None => app_null
  | None, _ => mret tt
  end.

Definition getValue (inp : Input) : valM string :=
  match in_dataReference inp with
  | Some p =>
      m ← manager;
      d ← deref p;
      _ ← writeInfo p (λ d, d <| lastQuery := CurrentTime m |> <| info_hasUpdate := false |>)
            (ReadValue p (lastData d));
      mret (lastData d)
  | None => mret ""
  end.
Definition publish (pub : Publication) (block : string) : valM unit :=
  onCore (vc_setValue (pub_handle pub) block).
Definition hasUpdate (inp : Input) : valM bool :=
  match in_dataReference inp with
  | Some p => d ← deref p; mret (info_hasUpdate d)
  | None => mret false
  end.
Definition getLastUpdateTime (inp : Input) : valM Time :=
  match in_dataReference inp with
  | Some p => d ← deref p; mret (lastUpdate d)
  | None => mret Time_minVal
  end.
Definition clearUpdate (inp : Input) : valM unit :=
  match in_dataReference inp with
  | Some p => writeInfo p (λ d, d <| info_hasUpdate := false |>) (Cleared p)
  | None => mret tt
  end.

(** ** The methods of an input *)

Definition loadSourceInformation (i : nat) : valM unit :=
  inp ← inputAt i;
  _ ← (if iv_targetKnown (in_value inp) then mret tt
       else
         t ← askCore (vc_getExtractionType (in_handle inp));
         updInput i (λ inp, inp <| in_value := iv_setTarget t (in_value inp) |>));
  iType ← askCore (vc_getInjectionType (in_handle inp));
  iUnits ← askCore (vc_getInjectionUnits (in_handle inp));
  inp ← inputAt i;
  v ← app_returns (iv_load iType iUnits (in_value inp));
  updInput i (λ inp, inp <| in_value := v |>).

Definition checkUpdate (i : nat) (assumeUpdate : bool) : valM bool :=
  inp ← inputAt i;
  _ ← (if changeDetectionEnabled inp then
         updated ← (if assumeUpdate then mret true else hasUpdate inp);
         if updated : bool then
           dv ← getValue inp;
           _ ← (if iv_injectionKnown (in_value inp) then mret tt else loadSourceInformation i);
           inp ← inputAt i;
           newVal ← app_returns (iv_extract dv (in_value inp));
           if iv_changed (in_value inp) newVal then
             updInput i (λ inp, inp <| in_value := iv_store newVal (in_value inp) |>
                                    <| in_hasUpdate := true |>)
           else mret tt
         else mret tt
       else
         updated ← (if in_hasUpdate inp || assumeUpdate then mret true else hasUpdate inp);
         updInput i (λ inp, inp <| in_hasUpdate := updated |>));
  inp ← inputAt i;
  mret (in_hasUpdate inp).

(** The number of values is compared as an [int32_t]. *)
Definition vectorDataProcess (i : nat) (dataV : list (option string)) : valM bool :=
  inp ← inputAt i;
  let n := to_sint 32 (Z.of_nat (length dataV)) in
  _ ← (if negb (iv_injectionKnown (in_value inp)) || negb (n =? prevInputCount inp) then
         _ ← loadSourceInformation i;
         updInput i (λ inp, inp <| prevInputCount := n |>)
       else mret tt);
  inp ← inputAt i;
  result ← app_result (iv_combine (inputVectorOp inp) dataV (in_value inp));
  _ ← (if changeDetectionEnabled inp && negb (iv_changed (in_value inp) result)
       then updInput i (λ inp, inp <| in_hasUpdate := false |>)
       else updInput i (λ inp, inp <| in_value := iv_store result (in_value inp) |>
                                   <| in_hasUpdate := true |>));
  inp ← inputAt i;
  mret (in_hasUpdate inp).

Definition in_isUpdated (i : nat) : valM bool :=
  inp ← inputAt i; if in_hasUpdate inp then mret true else checkUpdate i false.
Definition in_clearUpdate (i : nat) : valM unit :=
  _ ← updInput i (λ inp, inp <| in_hasUpdate := false |>);
  inp ← inputAt i;
  clearUpdate inp.
Definition getRawValue (i : nat) : valM string :=
  _ ← updInput i (λ inp, inp <| in_hasUpdate := false |>);
  inp ← inputAt i;
  getValue inp.

(** [inputs.lock()->apply(...)], from the position [i] on with [n] inputs. *)
Fixpoint applyInputs (g : nat → valM unit) (i n : nat) : valM unit :=
  match n with
  | O => mret tt
  | S n => _ ← g i; applyInputs g (S i) n
  end.
Definition applyAll (g : nat → valM unit) : valM unit :=
  m ← manager; applyInputs g 0 (length (dm_elements (inputs m))).
Definition clearUpdates : valM unit := applyAll in_clearUpdate.
Definition startupToInitializeStateTransition : valM unit := applyAll loadSourceInformation.

(** ** Lookup *)

Definition queryUpdates : valM (list Z) :=
  m ← manager;
  mret (imap (λ ii inp, (Z.of_nat ii, in_hasUpdate inp)) (dm_elements (inputs m)) ≫=
        λ e, if e.2 : bool then [e.1] else []).
(** [find] of a multimap gives the first entry. *)
Definition getTarget (inp : Input) : valM string :=
  m ← manager;
  mret (from_option (λ e, e.2.2) "" (list_find (λ e, e.1 = in_handle inp) (inputTargets m))).
(** A reference to an input; [None] is the input that is not valid. *)
Definition getInput (key : string) : valM (option nat) :=
  m ← manager; mret (dm_index1 (inputs m) key).
Definition getInputAt (index : Z) : valM (option nat) :=
  m ← manager;
  mret (if (0 <=? index) && (index <? Z.of_nat (length (dm_elements (inputs m))))
        then Some (Z.to_nat index) else None).
Definition getSubscription (key : string) : valM (option nat) :=
  m ← manager;
  mret (match list_find (λ e, e.1 = key) (targetIDs m) with
        | Some (_, (_, h)) => dm_index2 (inputs m) h
        | None => None
        end).
Definition getPublication (key : string) : valM Publication :=
  m ← manager; mret (default newPublication (dm_find1 (publications m) key)).
Definition getPublicationAt (index : Z) : valM Publication :=
  m ← manager;
  mret (if (0 <=? index) && (index <? Z.of_nat (length (dm_elements (publications m))))
        then default newPublication (dm_elements (publications m) !! Z.to_nat index)
        else newPublication).
Definition getPublicationCount : valM Z :=
  m ← manager; mret (to_sint 32 (Z.of_nat (length (dm_elements (publications m))))).
Definition getInputCount : valM Z :=
  m ← manager; mret (to_sint 32 (Z.of_nat (length (dm_elements (inputs m))))).
Definition setInputNotificationCallback (cb : option callback) : valM unit :=
  upd_manager (λ m, m <| allCallback := cb |>).
Definition setInputNotificationCallbackAt (inp : Input) (cb : option callback) : valM unit :=
  match in_dataReference inp with
  | Some p => updInfo p (λ d, d <| info_callback := cb |>)
  | None => app_raise InvalidIdentifier
  end.

(** ** The value federate

    The methods of [ValueFederate], for a federate in the mode [mode]. *)

Definition localName (global : bool) (key : string) : string :=
  if global then key
  else if negb (String.eqb key "") then getName +:+ nameSegmentSeparator +:+ key else key.
Definition vf_registerPublication (global : bool) (key type units : string) : valM Publication :=
  registerPublication (localName global key) type units.
Definition vf_registerInput (global : bool) (key type units : string) : valM nat :=
  registerInput (localName global key) type units.
Definition registerSubscription (target units : string) : valM nat :=
  i ← registerInput "" "" units;
  inp ← inputAt i;
  _ ← addTarget inp target;
  mret i.
Definition publishRaw (mode : modes) (pub : Publication) (block : string) : valM unit :=
  if sending_mode mode then publish pub block else app_raise InvalidFunctionCall.
Definition vf_getInput (key : string) : valM (option nat) :=
  r ← getInput key;
  match r with
  | Some i =>
      inp ← inputAt i;
      if in_isValid inp then mret r else getInput (getName +:+ nameSegmentSeparator +:+ key)
  | None => getInput (getName +:+ nameSegmentSeparator +:+ key)
  end.
Definition vf_getPublication (key : string) : valM Publication :=
  pub ← getPublication key;
  if pub_isValid pub then mret pub
  else getPublication (getName +:+ nameSegmentSeparator +:+ key).

(** ** Running the code of an application *)

(** The references to inputs and the publications that the code has. *)
Record value_env := mkEnv { env_inputs : list (option nat); env_pubs : list Publication }.
Definition inputRef (env : value_env) (i : nat) : option nat := default None (env_inputs env !! i).
Definition knownPub (env : value_env) (p : nat) : Publication :=
  default newPublication (env_pubs env !! p).
Definition knownInput (env : value_env) (i : nat) : valM Input :=
  match inputRef env i with Some i => inputAt i | None => mret newInput end.
Definition addRef (env : value_env) (i : option nat) : value_env :=
  mkEnv (env_inputs env ++ [i]) (env_pubs env).
Definition addPub (env : value_env) (p : Publication) : value_env :=
  mkEnv (env_inputs env) (env_pubs env ++ [p]).

(** A call with its exceptions as answers; a method of an input that is not valid is not
    called. *)
Definition gotInput (env : value_env) (i : option nat) : value_env * value_answer :=
  (addRef env i, AValid (bool_decide (is_Some i))).
Definition gotPub (env : value_env) (p : Publication) : value_env * value_answer :=
  (addPub env p, AValid (pub_isValid p)).
Definition onInput {A} (env : value_env) (i : nat) (g : nat → valM A) (a : A → value_answer)
    : valM (value_env * value_answer) :=
  match inputRef env i with
  | Some i => r ← g i; mret (env, a r)
  | None => mret (env, AUnit)
  end.
Definition withInput {A} (env : value_env) (i : nat) (g : Input → valM A) (a : A → value_answer)
    : valM (value_env * value_answer) :=
  inp ← knownInput env i; r ← g inp; mret (env, a r).
Definition unit_answer (_ : unit) : value_answer := AUnit.

Definition performValue (mode : modes) (env : value_env) (c : value_call)
    : valM (value_env * value_answer) :=
  match c with
  | VRegisterInput global key type units =>
      i ← vf_registerInput global key type units; mret (gotInput env (Some i))
  | VRegisterPublication global key type units =>
      p ← vf_registerPublication global key type units; mret (gotPub env p)
  | VRegisterSubscription target units =>
      i ← registerSubscription target units; mret (gotInput env (Some i))
  | VGetInput key => i ← vf_getInput key; mret (gotInput env i)
  | VGetInputAt index => i ← getInputAt index; mret (gotInput env i)
  | VGetSubscription key => i ← getSubscription key; mret (gotInput env i)
  | VGetPublication key => p ← vf_getPublication key; mret (gotPub env p)
  | VGetPublicationAt index => p ← getPublicationAt index; mret (gotPub env p)
  | VGetTarget i => withInput env i getTarget AData
  | VAddTarget i target => withInput env i (λ inp, addTarget inp target) unit_answer
  | VAddPublicationTarget p target =>
      _ ← addPublicationTarget (knownPub env p) target; mret (env, AUnit)
  | VRemoveTarget i target => withInput env i (λ inp, removeTarget inp target) unit_answer
  | VRemovePublicationTarget p target =>
      _ ← removePublicationTarget (knownPub env p) target; mret (env, AUnit)
  | VAddAlias i name => withInput env i (λ inp, addAlias inp name) unit_answer
  | VAddPublicationAlias p name =>
      _ ← addPublicationAlias (knownPub env p) name; mret (env, AUnit)
  | VSetDefaultValue i data => withInput env i (λ inp, setDefaultValue inp data) unit_answer
  | VGetValueRaw i => withInput env i getValue AData
  | VPublish p data => _ ← publishRaw mode (knownPub env p) data; mret (env, AUnit)
  | VHasUpdate i => withInput env i hasUpdate AValid
  | VGetLastUpdateTime i => withInput env i getLastUpdateTime ATime
  | VQueryUpdates => l ← queryUpdates; mret (env, AIndices l)
  | VClearUpdates => _ ← clearUpdates; mret (env, AUnit)
  | VClearUpdate i => withInput env i clearUpdate unit_answer
  | VSetCallback (Some i) cb =>
      withInput env i (λ inp, setInputNotificationCallbackAt inp cb) unit_answer
  | VSetCallback None cb => _ ← setInputNotificationCallback cb; mret (env, AUnit)
  | VInputIsUpdated i => onInput env i in_isUpdated AValid
  | VInputGetRawValue i => onInput env i getRawValue AData
  | VInputClearUpdate i => onInput env i in_clearUpdate unit_answer
  | VInputSetMultiInput i value =>
      onInput env i (λ i, updInput i (λ inp, inp <| inputVectorOp := value |>)) unit_answer
  | VInputEnableChangeDetection i enabled =>
      onInput env i (λ i, updInput i (λ inp, inp <| changeDetectionEnabled := enabled |>))
        unit_answer
  end.
Fixpoint runValue (mode : modes) (env : value_env) (p : value_program) : valM unit :=
  match p with
  | vp_return => mret tt
  | vp_throw e => app_raise e
  | vp_call c k =>
      r ← app_try (performValue mode env c);
      match r with
      | inl e => runValue mode env (k (AnException e))
      | inr (env, a) => runValue mode env (k a)
      end
  end.

(** ** A new time *)

(** Call a function of the application for an input. *)
Definition notify (mode : modes) (cb : callback) (i : nat) (h : interface_handle) : valM unit :=
  m ← manager;
  _ ← app_emit (Notified cb h (CurrentTime m));
  runValue mode (mkEnv [Some i] []) (value_react cb h (CurrentTime m)).

(** A value for the input at [i], whose data is at [p]: whether it is an update. *)
Definition takeUpdate (handle : interface_handle) (i : nat) (p : ptr) : valM bool :=
  inp ← inputAt i;
  if inputVectorOp inp =? no_op then
    data ← onCore (vc_getValue handle);
    match data with
    | None => app_null
    | Some data =>
        _ ← writeInfo p (λ d, d <| lastData := data |> <| info_hasUpdate := true |>)
              (Stored p data);
        checkUpdate i true
    end
  else
    dataV ← onCore (vc_getAllValues handle);
    _ ← writeInfo p (λ d, d <| info_hasUpdate := false |>) (Combined p dataV);
    vectorDataProcess i dataV.
(** One turn of the loop of [updateTime]. *)
Definition updateOne (mode : modes) (allCall : option callback) (handle : interface_handle)
    : valM unit :=
  m ← manager;
  match dm_index2 (inputs m) handle with
  | None => mret tt
  | Some i =>
      inp ← inputAt i;
      match in_dataReference inp with
      | None => app_null
      | Some p =>
          _ ← writeInfo p (λ d, d <| lastUpdate := CurrentTime m |>) (Updated p (CurrentTime m));
          updated ← takeUpdate handle i p;
          if updated : bool then
            d ← deref p;
            match info_callback d, allCall with
            | Some cb, _ => notify mode cb i handle
            | None, Some cb => notify mode cb i handle
            | None, None => mret tt
            end
          else mret tt
      end
  end.
Fixpoint updateLoop (mode : modes) (allCall : option callback) (handles : list interface_handle)
    : valM unit :=
  match handles with
  | [] => mret tt
  | handle :: handles => _ ← updateOne mode allCall handle; updateLoop mode allCall handles
  end.
Definition updateTime (mode : modes) (newTime : Time) : valM unit :=
  _ ← upd_manager (λ m, m <| CurrentTime := newTime |>);
  handles ← onCore vc_getValueUpdates;
  m ← manager;
  updateLoop mode (allCallback m) handles.
Definition initializeToExecuteStateTransition (mode : modes) : valM unit := updateTime mode 0.

(** The virtual methods of a value federate. *)
Definition virtual_call (g : valM unit) (w : W) (m : ValueFederateManager)
    : W * ValueFederateManager * result unit :=
  match g (Some w, m) with ((w', m'), _, r) => (default w w', m', r) end.
#[export] Instance value_virtuals : FederateVirtuals W ValueFederateManager := {|
  v_startupToInitialize := λ mode, virtual_call startupToInitializeStateTransition;
  v_initializeToExecute := λ mode, virtual_call (initializeToExecuteStateTransition mode);
  v_updateTime := λ mode newTime oldTime, virtual_call (updateTime mode newTime);
|}.

(** A call of the application on its federate. *)
Definition withValues {A} (g : modes → valM A)
    : excM (Federate W ValueFederateManager) app_event A :=
  λ f, let '((c, d), _, r) := g (currentMode f) (coreObject f, derived f) in
       (f <| coreObject := c |> <| derived := d |>, [], r).
End manager.
