(* ===== verification/AppValuesFacts.v ===== *)
(** * Facts on value federates

    Whatever an application does in its functions, the references to its inputs stay valid
    and each input is a register: what the application reads is the last value that the
    core has given for it or that was set as its default.  A new time stores each value that
    has changed in the core, in order, and calls the function for it. *)

From stdpp Require Import strings gmap.
From S2P Require Import Prelude HelicsTime Ids InterfaceInfo.
From S2P Require Import AppMonad AppFederate AppFederateFacts AppMessages AppMessagesFacts AppValues.

(** ** What a core promises

    [vw_data w h] is the value of the input [h], with the values of its publications, for
    an input that has got one; [vw_updates w] are the inputs whose values have changed.
    Calls do not change the values: these change when a time is granted.  The values that
    can be sent are [vw_publishable]. *)
Class Values (W : Type) := {
  vw_ok : W → Prop;
  vw_updates : W → list interface_handle;
  vw_data : W → interface_handle → option (string * list (option string));
  vw_publishable : string → Prop;
}.
Definition values_kept `{Values W} (w w' : W) : Prop :=
  vw_ok w' ∧ ∀ h x, vw_data w h = Some x → vw_data w' h = Some x.
Definition value_safe `{Values W} {A} (f : W → W * result A) : Prop :=
  ∀ w, vw_ok w → (f w).2 ≠ NullPointer ∧ values_kept w (f w).1.
Class ValueCoreLaws (W : Type) `{!ValueCore W} `{!Values W} : Prop := {
  vl_addSourceTarget h t : value_safe (vc_addSourceTarget h t);
  vl_addDestinationTarget h t : value_safe (vc_addDestinationTarget h t);
  vl_removeTarget h t : value_safe (vc_removeTarget h t);
  vl_setValue h d : vw_publishable d → value_safe (vc_setValue h d);
  vl_getExtractionType h : value_safe (vc_getExtractionType h);
  vl_getInjectionType h : value_safe (vc_getInjectionType h);
  vl_getInjectionUnits h : value_safe (vc_getInjectionUnits h);
  vl_updates w : vw_ok w → vc_getValueUpdates w = (w, Value (vw_updates w));
  vl_updated w h : vw_ok w → h ∈ vw_updates w → is_Some (vw_data w h);
  vl_value w h v vs : vw_ok w → vw_data w h = Some (v, vs) →
    vc_getValue h w = (w, Value (Some v));
  vl_values w h v vs : vw_ok w → vw_data w h = Some (v, vs) →
    vc_getAllValues h w = (w, Value vs) ∧ ∃ x, Some x ∈ vs;
}.
(** The registration of inputs and publications does not disturb the values, either. *)
Definition value_registrable (W : Type) `{!ValueCore W} `{!Values W} : Prop :=
  (∀ key type units, value_safe (W := W) (vc_registerInput key type units)) ∧
  ∀ key type units, value_safe (W := W) (vc_registerPublication key type units).
(** Values are combined without the use of a null pointer when there is one. *)
Class InputValueLaws (V D : Type) `{!InputValue V D} : Prop :=
  iv_combine_some op dataV v x : Some x ∈ dataV → iv_combine op dataV v ≠ NullPointer.

(** ** Calls of an application *)

(** The calls that register something, that use the core whatever the mode is, and that
    leave alone how the inputs are updated. *)
Definition registering (c : value_call) : bool :=
  match c with
  | VRegisterInput _ _ _ _ | VRegisterPublication _ _ _ _ | VRegisterSubscription _ _ => true
  | _ => false
  end.
Definition needs_core (c : value_call) : bool :=
  match c with
  | VAddTarget _ _ | VAddPublicationTarget _ _ | VRemoveTarget _ _
  | VRemovePublicationTarget _ _ => true
  | _ => registering c
  end.
Definition steady_call (c : value_call) : bool :=
  match c with
  | VRegisterInput _ _ _ _ | VRegisterSubscription _ _ | VInputSetMultiInput _ _
  | VInputEnableChangeDetection _ _ | VSetCallback _ _ => false
  | _ => true
  end.
(** All calls of a program satisfy [P]. *)
Inductive every (P : value_call → Prop) : value_program → Prop :=
  | every_return : every P vp_return
  | every_throw e : every P (vp_throw e)
  | every_call c k : P c → (∀ a, every P (k a)) → every P (vp_call c k).
Lemma every_all (P : value_call → Prop) p : (∀ c, P c) → every P p.
Proof. intros HP. induction p; constructor; auto. Qed.
Lemma every_call_inv P c k : every P (vp_call c k) → P c ∧ ∀ a, every P (k a).
Proof. by inversion 1. Qed.

(** ** The register of an input *)

Record cell := mkCell { c_data : string; c_fresh : bool; c_time : Time }.
(** What an event does to the register at [p]; a value that is read is the one it has. *)
Definition cell_step (p : ptr) (c : cell) (e : value_event) : option cell :=
  match e with
  | Updated q t => Some (if decide (q = p) then mkCell (c_data c) (c_fresh c) t else c)
  | Stored q d => Some (if decide (q = p) then mkCell d true (c_time c) else c)
  | Combined q _ | Cleared q =>
      Some (if decide (q = p) then mkCell (c_data c) false (c_time c) else c)
  | Assigned q d t => Some (if decide (q = p) then mkCell d (c_fresh c) t else c)
  | ReadValue q d =>
      if decide (q = p) then
        if decide (d = c_data c) then Some (mkCell d false (c_time c)) else None
      else Some c
  | Notified _ _ _ => Some c
  end.
Fixpoint cell_run (p : ptr) (c : cell) (out : list value_event) : option cell :=
  match out with
  | [] => Some c
  | e :: out => c ← cell_step p c e; cell_run p c out
  end.
Lemma cell_run_app p c out out' : cell_run p c (out ++ out') = c ← cell_run p c out; cell_run p c out'.
Proof.
  revert c. induction out as [|e out IH]; intros c; [done|]. cbn.
  destruct (cell_step p c e); [cbn|done]. apply IH.
Qed.
Definition cell_of (d : input_info) : cell := mkCell (lastData d) (info_hasUpdate d) (lastUpdate d).

(** The events of a new time. *)
Definition delivery (e : value_event) : bool :=
  match e with Updated _ _ | Stored _ _ | Combined _ _ | Notified _ _ _ => true | _ => false end.
Definition deliveries (out : list value_event) : list value_event := base.filter delivery out.
Lemma deliveries_app out out' : deliveries (out ++ out') = deliveries out ++ deliveries out'.
Proof. apply filter_app. Qed.

Section facts.
  Context `{TimeRep} `{DualMapped C} `{!DualMappedLaws C} `{!DualInsert C} `{!DualInsertLaws C}.
  Context {W V D : Type} `{!ValueCore W} `{!Values W} `{!ValueCoreLaws W}.
  Context `{!InputValue V D} `{!InputValueLaws V D} `{!FederateName} `{!ValueApplication}.
  Abbreviation state := (value_state (C := C) (W := W) (V := V)).
  Abbreviation valM := (excM state value_event).
  Abbreviation Input := (Input (V := V)).
  Implicit Types (s : state) (m : ValueFederateManager (C := C) (V := V)) (inp : Input).

(** ** The invariant *)

Abbreviation elements m := (dm_elements (inputs m)).
Record val_inv m : Prop := {
  vi_size : length (inputData m) = length (elements m);
  vi_elem : ∀ i inp, elements m !! i = Some inp →
    in_referenceIndex inp = Z.of_nat i ∧
    ∃ p, in_dataReference inp = Some p ∧ inputData m !! i = Some p;
  vi_data : ∀ p, p ∈ inputData m → is_Some (heap m !! p);
  vi_nodup : NoDup (inputData m);
  vi_fresh : ∀ p, is_Some (heap m !! p) → (p < nextPtr m)%nat;
  vi_handle : ∀ h i, dm_index2 (inputs m) h = Some i →
    ∃ inp, elements m !! i = Some inp ∧ in_handle inp = h;
}.
Definition ok s : Prop := (∀ w, s.1 = Some w → vw_ok w) ∧ val_inv s.2.

(** An input keeps its identity. *)
Definition same_input inp inp' : Prop :=
  in_handle inp' = in_handle inp ∧ in_dataReference inp' = in_dataReference inp ∧
  in_referenceIndex inp' = in_referenceIndex inp ∧ in_actualName inp' = in_actualName inp.
Definition core_kept (c c' : option W) : Prop :=
  match c, c' with Some w, Some w' => values_kept w w' | None, None => True | _, _ => False end.

Record vmoved s s' (out : list value_event) : Prop := {
  mv_cell : ∀ p d, heap s.2 !! p = Some d →
    ∃ d', heap s'.2 !! p = Some d' ∧ cell_run p (cell_of d) out = Some (cell_of d');
  mv_elem : ∀ i inp, elements s.2 !! i = Some inp →
    ∃ inp', elements s'.2 !! i = Some inp' ∧ same_input inp inp';
  mv_core : core_kept s.1 s'.1;
  mv_time : CurrentTime s'.2 = CurrentTime s.2;
}.
(** How the inputs are updated stays the same. *)
Definition same_mode inp inp' : Prop :=
  inputVectorOp inp' = inputVectorOp inp ∧
  changeDetectionEnabled inp' = changeDetectionEnabled inp.
Record steady s s' : Prop := {
  sd_index : ∀ h, dm_index2 (inputs s'.2) h = dm_index2 (inputs s.2) h;
  sd_elem : ∀ i inp inp', elements s.2 !! i = Some inp → elements s'.2 !! i = Some inp' →
    same_mode inp inp';
  sd_callback : ∀ p d d', heap s.2 !! p = Some d → heap s'.2 !! p = Some d' →
    info_callback d' = info_callback d;
}.

Lemma values_kept_refl (w : W) : vw_ok w → values_kept w w.
Proof. by split. Qed.
Lemma core_kept_refl s : ok s → core_kept s.1 s.1.
Proof. destruct s as [[w|] m]; [|done]. intros [Hw _]. by apply values_kept_refl, Hw. Qed.
Lemma core_kept_trans c1 c2 c3 : core_kept c1 c2 → core_kept c2 c3 → core_kept c1 c3.
Proof.
  destruct c1, c2, c3; try done. intros [_ K1] [K2 K3]. split; [done|]. auto.
Qed.
Lemma core_kept_some c c' : core_kept c c' → is_Some c ↔ is_Some c'.
Proof. destruct c, c'; done || naive_solver. Qed.
Lemma same_input_trans i1 i2 i3 : same_input i1 i2 → same_input i2 i3 → same_input i1 i3.
Proof. intros (? & ? & ? & ?) (? & ? & ? & ?). split_and!; congruence. Qed.
Lemma vmoved_refl s : ok s → vmoved s s [].
Proof.
  intros Hs. split; [by eauto|intros i inp E; by exists inp|by apply core_kept_refl|done].
Qed.
Lemma vmoved_trans s1 s2 s3 out1 out2 :
  vmoved s1 s2 out1 → vmoved s2 s3 out2 → vmoved s1 s3 (out1 ++ out2).
Proof.
  intros [C1 E1 K1 T1] [C2 E2 K2 T2]. split; [| |by eapply core_kept_trans|congruence].
  - intros p d Hd. destruct (C1 p d Hd) as (d2 & Hd2 & R1). destruct (C2 p d2 Hd2) as (d3 & Hd3 & R2).
    exists d3. split; [done|]. by rewrite cell_run_app, R1.
  - intros i inp Hi. destruct (E1 i inp Hi) as (i2 & Hi2 & S1).
    destruct (E2 i i2 Hi2) as (i3 & Hi3 & S2). exists i3. split; [done|].
    by eapply same_input_trans.
Qed.
#[export] Instance steady_refl : Reflexive steady.
Proof. intros s. split; [done|..]; intros; simplify_eq; done. Qed.
Lemma steady_trans s1 s2 s3 out : vmoved s1 s2 out → steady s1 s2 → steady s2 s3 → steady s1 s3.
Proof.
  intros Hm [I1 E1 B1] [I2 E2 B2]. split.
  - intros h. by rewrite I2.
  - intros i inp inp' Hi Hi'. destruct (mv_elem _ _ _ Hm i inp Hi) as (inp2 & Hi2 & _).
    destruct (E1 i inp inp2 Hi Hi2), (E2 i inp2 inp' Hi2 Hi'). split; congruence.
  - intros p d d' Hd Hd'. destruct (mv_cell _ _ _ Hm p d Hd) as (d2 & Hd2 & _).
    rewrite (B2 p d2 d'), (B1 p d d2); done.
Qed.

(** ** Operations that keep the invariant

    [R] is the condition under which the inputs are updated as before; none is part of a
    new time. *)
Definition vgood (R : Prop) {A} (m : valM A) s (P : state → exception + A → Prop) : Prop :=
  awp m s (λ s' out r, ok s' ∧ vmoved s s' out ∧ (R → steady s s') ∧ deliveries out = [] ∧ P s' r).

Lemma vunmoved (R : Prop) s (P : Prop) :
  ok s → P → ok s ∧ vmoved s s [] ∧ (R → steady s s) ∧ deliveries [] = [] ∧ P.
Proof. intros. split_and!; [done|by apply vmoved_refl|done|done|done]. Qed.
Lemma vgood_ret R {A} (a : A) s P : ok s → P s (inr a) → vgood R (mret a) s P.
Proof. intros. apply awp_ret. by apply vunmoved. Qed.
Lemma vgood_raise R {A} e s (P : state → exception + A → Prop) :
  ok s → P s (inl e) → vgood R (app_raise e) s P.
Proof. intros. apply awp_raise. by apply vunmoved. Qed.
Lemma vgood_returns R {A} (r : exception + A) s P : ok s → P s r → vgood R (app_returns r) s P.
Proof. destruct r; [apply vgood_raise|apply vgood_ret]. Qed.
Lemma vgood_result R {A} (r : result A) s P :
  ok s → r ≠ NullPointer → (∀ r, P s r) → vgood R (app_result r) s P.
Proof. intros Hs Hr HP. unfold vgood, awp, app_result. by destruct r; [apply vunmoved..|]. Qed.
Lemma vgood_manager R s P : ok s → P s (inr s.2) → vgood R manager s P.
Proof. intros. apply awp_bind, awp_get, awp_ret. by apply vunmoved. Qed.
Lemma vgood_bind R {A B} (m : valM A) (g : A → valM B) s P :
  vgood R m s (λ s1 r, match r with
                      | inl e => P s1 (inl e)
                      | inr a => vgood R (g a) s1 P
                      end) →
  vgood R (a ← m; g a) s P.
Proof.
  intros Hm. apply awp_bind. eapply awp_mono; [exact Hm|].
  intros s1 out1 [e|a] (Hok & Hm1 & Hs1 & Hr1 & Hp); [done|].
  eapply awp_mono; [exact Hp|]. intros s2 out2 r (Hok2 & Hm2 & Hs2 & Hr2 & Hp2).
  split; [done|]. split; [by eapply vmoved_trans|]. split; [|split; [|done]].
  - intros HR. by eapply steady_trans; [exact Hm1|auto..].
  - by rewrite deliveries_app, Hr1, Hr2.
Qed.
Lemma vgood_mono R {A} (m : valM A) s (P P' : state → exception + A → Prop) :
  vgood R m s P → (∀ s' out r, ok s' → vmoved s s' out → P s' r → P' s' r) → vgood R m s P'.
Proof.
  intros Hm HP. eapply awp_mono; [exact Hm|]. intros s' out r (? & ? & ? & ? & ?). eauto 6.
Qed.
Lemma vgood_try R {A} (m : valM A) s P :
  vgood R m s (λ s' r, P s' (inr r)) → vgood R (app_try m) s P.
Proof. intros Hm. apply awp_try. eapply awp_mono; [exact Hm|]. done. Qed.
Lemma vgood_weaken (R R' : Prop) {A} (m : valM A) s P : vgood R' m s P → (R → R') → vgood R m s P.
Proof.
  intros Hm HR. eapply awp_mono; [exact Hm|]. intros s' out r (? & ? & ? & ? & ?). split_and!; auto.
Qed.

(** An operation that keeps the invariant whatever its result is, and what follows it. *)
Definition vsafe (R : Prop) {A} (m : valM A) s : Prop := vgood R m s (λ _ _, True).
Lemma vsafe_ret R {A} (a : A) s : ok s → vsafe R (mret a) s.
Proof. intros. by apply vgood_ret. Qed.
Lemma vsafe_bind R {A B} (m : valM A) (g : A → valM B) s :
  vsafe R m s → (∀ s' out a, ok s' → vmoved s s' out → vsafe R (g a) s') → vsafe R (a ← m; g a) s.
Proof.
  intros Hm Hg. apply vgood_bind. eapply vgood_mono; [exact Hm|].
  intros s' out [e|a] Hs' Hmv _; [done|]. by eapply Hg.
Qed.
Lemma vsafe_manager R {B} (g : _ → valM B) s : ok s → vsafe R (g s.2) s → vsafe R (m ← manager; g m) s.
Proof. intros. by apply vgood_bind, vgood_manager. Qed.

(** ** The core *)

Lemma vgood_onCore R {A} (f : W → W * result A) s P :
  ok s → is_Some s.1 → value_safe f → (∀ s' r, ok s' → s'.2 = s.2 → P s' r) →
  vgood R (onCore f) s P.
Proof.
  destruct s as [[w|] m]; intros [Hw Hm] [w0 Hs] Hf HP; [|done]. cbn in *.
  destruct (Hf w) as [Hn Hk]; [by apply Hw|].
  unfold vgood, awp, onCore. destruct (f w) as [w' r] eqn:E. cbn in *.
  assert (ok (Some w', m)) as Hok by (split; [intros ? [= <-]; apply Hk|done]).
  assert (vmoved (Some w, m) (Some w', m) []) as Hmv.
  { split; [by eauto|intros i inp Ei; by exists inp|done|done]. }
  assert (steady (Some w, m) (Some w', m)) by (split; [done|..]; cbn; intros; simplify_eq; done).
  destruct r; [split_and!; auto|split_and!; auto|done].
Qed.
Lemma vsafe_onCore R {A} (f : W → W * result A) s :
  ok s → is_Some s.1 → value_safe f → vsafe R (onCore f) s.
Proof. intros. by apply vgood_onCore. Qed.
Lemma vsafe_askCore R f s : ok s → value_safe f → vsafe R (askCore f) s.
Proof.
  intros Hs Hf. apply vgood_bind, awp_get. apply vunmoved; [done|].
  destruct s.1 as [w|] eqn:E; [|by apply vsafe_ret]. apply vsafe_onCore; [done|by rewrite E|done].
Qed.

(** ** The data of an input *)

Lemma vi_lookup m i inp :
  val_inv m → elements m !! i = Some inp →
  ∃ p d, in_dataReference inp = Some p ∧ heap m !! p = Some d ∧ inputData m !! i = Some p.
Proof.
  intros Hm Hi. destruct (vi_elem m Hm i inp Hi) as (_ & p & Ep & Ed).
  destruct (vi_data m Hm p) as [d Hd]; [by eapply list_elem_of_lookup_2|]. by exists p, d.
Qed.
Lemma val_inv_alter m p f :
  val_inv m → val_inv (m <| heap := alter f p (heap m) |>).
Proof.
  intros [I1 I2 I3 I4 I5 I6]. split; cbn; try done; intros q; rewrite lookup_alter_is_Some; auto.
Qed.

(** An assignment to the data, and what is recorded of it. *)
Definition only_at (p : ptr) (es : list value_event) : Prop :=
  ∀ q c, q ≠ p → cell_run q c es = Some c.
Lemma awp_updInfo p f s d es :
  ok s → heap s.2 !! p = Some d → only_at p es →
  cell_run p (cell_of d) es = Some (cell_of (f d)) →
  awp (updInfo p f) s (λ s' out r, out = [] ∧ r = inr tt ∧ ok s' ∧ vmoved s s' es ∧
    (info_callback (f d) = info_callback d → steady s s') ∧
    inputs s'.2 = inputs s.2 ∧ heap s'.2 !! p = Some (f d)).
Proof.
  intros [Hw Hm] Hp Hes Hc. unfold updInfo. apply awp_bind. unfold deref at 1.
  apply awp_bind, awp_bind, awp_get, awp_ret. rewrite Hp. apply awp_ret, awp_modify.
  split; [done|]. split; [done|]. split; [split; [done|by apply val_inv_alter]|]. split.
  - split; cbn; [|intros i inp Ei; by exists inp|by apply (core_kept_refl s)|done].
    intros q d0 Hq. destruct (decide (q = p)) as [->|Hne]; simplify_eq.
    + exists (f d). by rewrite lookup_alter_eq, Hp.
    + exists d0. by rewrite lookup_alter_ne, Hes.
  - split; [|by cbn; rewrite lookup_alter_eq, Hp]. intros Hcb. split; cbn; [done|..].
    + intros; by simplify_eq.
    + intros q d0 d1 Hq. destruct (decide (q = p)) as [->|Hne]; simplify_eq.
      * rewrite lookup_alter_eq, Hp. by intros [= <-].
      * rewrite lookup_alter_ne by done. intros. by simplify_eq.
Qed.
Lemma awp_writeInfo p f e s d :
  ok s → heap s.2 !! p = Some d → only_at p [e] →
  cell_run p (cell_of d) [e] = Some (cell_of (f d)) →
  awp (writeInfo p f e) s (λ s' out r, out = [e] ∧ r = inr tt ∧ ok s' ∧ vmoved s s' [e] ∧
    (info_callback (f d) = info_callback d → steady s s') ∧
    inputs s'.2 = inputs s.2 ∧ heap s'.2 !! p = Some (f d)).
Proof.
  intros Hs Hp Hes Hc. unfold writeInfo. apply awp_bind.
  eapply awp_mono; [by apply (awp_updInfo p f s d [e])|].
  intros s' out r (-> & -> & Hrest). by apply awp_emit.
Qed.
Lemma vsafe_writeInfo R p f e s d :
  ok s → heap s.2 !! p = Some d → only_at p [e] →
  cell_run p (cell_of d) [e] = Some (cell_of (f d)) → info_callback (f d) = info_callback d →
  delivery e = false → vsafe R (writeInfo p f e) s.
Proof.
  intros Hs Hp Hes Hc Hcb He. eapply awp_mono; [by eapply awp_writeInfo|].
  intros s' out r (-> & -> & ? & ? & ? & _). split_and!; auto.
  by destruct e.
Qed.
(** ** The inputs *)

Lemma vsafe_inputAt R {B} i (g : Input → valM B) s :
  ok s → is_Some (elements s.2 !! i) →
  (∀ inp, elements s.2 !! i = Some inp → vsafe R (g inp) s) → vsafe R (inp ← inputAt i; g inp) s.
Proof.
  intros Hs [inp Hi] Hg. apply vgood_bind. unfold inputAt. apply vgood_bind, vgood_manager; [done|].
  rewrite Hi. apply vgood_ret; [done|]. by apply Hg.
Qed.
Lemma has_moved s s' out i :
  vmoved s s' out → is_Some (elements s.2 !! i) → is_Some (elements s'.2 !! i).
Proof. intros Hm [inp Hi]. destruct (mv_elem _ _ _ Hm i inp Hi) as (inp' & -> & _). eauto. Qed.

(** Another container for the inputs, with the same inputs up to their values. *)
Lemma val_inv_inputs m c :
  val_inv m → (∀ h, dm_index2 c h = dm_index2 (inputs m) h) →
  length (dm_elements c) = length (elements m) →
  (∀ i inp', dm_elements c !! i = Some inp' →
    ∃ inp, elements m !! i = Some inp ∧ same_input inp inp') →
  val_inv (m <| inputs := c |>).
Proof.
  intros [I1 I2 I3 I4 I5 I6] Hx Hl He. split; cbn; try done.
  - by rewrite I1, Hl.
  - intros i inp' Hi. destruct (He i inp' Hi) as (inp & Hi0 & _ & E2 & E3 & _).
    rewrite E2, E3. by apply I2.
  - intros h i. rewrite Hx. intros Hi. destruct (I6 h i Hi) as (inp & Hi0 & Eh).
    destruct (lookup_lt_is_Some_2 (dm_elements c) i) as [inp' Hi'].
    { rewrite Hl. by eapply lookup_lt_Some. }
    exists inp'. split; [done|]. destruct (He i inp' Hi') as (inp0 & Hi1 & E1 & _).
    simplify_eq. done.
Qed.
Lemma same_input_refl inp : same_input inp inp.
Proof. by split_and!. Qed.
Lemma vsafe_updInput R i f s :
  ok s → is_Some (elements s.2 !! i) →
  (∀ inp, same_input inp (f inp)) → (R → ∀ inp, same_mode inp (f inp)) →
  vsafe R (updInput i f) s.
Proof.
  intros Hs Hi Hf HR. apply vsafe_inputAt; [done|done|]. intros inp Ei. apply awp_modify.
  assert (∀ j, dm_elements (dm_assign (inputs s.2) (alter f i (elements s.2))) !! j =
    if decide (i = j) then f <$> elements s.2 !! j else elements s.2 !! j) as Hl.
  { intros j. rewrite dm_assign_elements by apply length_alter. rewrite list_lookup_alter.
    by case_decide; subst. }
  assert (∀ h, dm_index2 (dm_assign (inputs s.2) (alter f i (elements s.2))) h =
    dm_index2 (inputs s.2) h) as Hx by (intros h; apply dm_assign_index2, length_alter).
  split; [|split; [|split; [|done]]].
  - split; [apply Hs|]. apply val_inv_inputs; [apply Hs|done| |].
    + rewrite dm_assign_elements by apply length_alter. apply length_alter.
    + intros j inp'. rewrite Hl. case_decide; [|intros ->; by eexists; split; [|apply same_input_refl]].
      destruct (elements s.2 !! j) as [x|]; [|done]. intros [= <-]. eauto.
  - split; cbn; [by eauto| |by apply core_kept_refl|done].
    intros j x Hj. rewrite Hl, Hj. case_decide; eexists; (split; [done|]);
      [apply Hf|apply same_input_refl].
  - intros Hr. split; cbn; [done| |intros; by simplify_eq].
    intros j x x' Hj. rewrite Hl, Hj. case_decide; intros [= <-]; [by apply HR|done].
Qed.
Ltac same_mode_tac := intros; repeat split.

(** ** The operations *)

Lemma only_at_intro p e :
  (∀ q c, q ≠ p → cell_step q c e = Some c) → only_at p [e].
Proof. intros He q c Hq. cbn. by rewrite (He q c Hq). Qed.
Ltac cell_tac :=
  try (apply only_at_intro; intros ? ? ?; cbn; by rewrite ?decide_False by done);
  try (cbn; by rewrite ?decide_True by done).

Lemma vsafe_loadSourceInformation R i s :
  ok s → is_Some (elements s.2 !! i) → vsafe R (loadSourceInformation i) s.
Proof.
  intros Hs Hi. apply vsafe_inputAt; [done|done|]. intros inp Ei. apply vsafe_bind.
  { destruct (iv_targetKnown _); [by apply vsafe_ret|].
    apply vsafe_bind; [apply vsafe_askCore; [done|apply vl_getExtractionType]|].
    intros s' out t Hs' Hm. apply vsafe_updInput; [done|by eapply has_moved|same_mode_tac..]. }
  intros s1 out1 _ Hs1 Hm1. apply vsafe_bind; [apply vsafe_askCore; [done|apply vl_getInjectionType]|].
  intros s2 out2 iT Hs2 Hm2. apply vsafe_bind; [apply vsafe_askCore; [done|apply vl_getInjectionUnits]|].
  intros s3 out3 iU Hs3 Hm3.
  assert (is_Some (elements s3.2 !! i)) as Hi3 by (do 3 (eapply has_moved; [eassumption|]); done).
  apply vsafe_inputAt; [done|done|]. intros inp3 Ei3. apply vsafe_bind; [by apply vgood_returns|].
  intros s4 out4 v Hs4 Hm4. apply vsafe_updInput; [done|by eapply has_moved|same_mode_tac..].
Qed.

Lemma vsafe_deref R {B} p (g : input_info → valM B) s :
  ok s → is_Some (heap s.2 !! p) → (∀ d, heap s.2 !! p = Some d → vsafe R (g d) s) →
  vsafe R (d ← deref p; g d) s.
Proof.
  intros Hs [d Hd] Hg. apply vgood_bind. unfold deref. apply vgood_bind, vgood_manager; [done|].
  rewrite Hd. apply vgood_ret; [done|]. by apply Hg.
Qed.

(** An input that the application can use: its data is there. *)
Definition usable_input m inp : Prop :=
  match in_dataReference inp with
  | Some p => is_Some (heap m !! p)
  | None => in_isValid inp = false
  end.
Lemma usable_element m i inp : val_inv m → elements m !! i = Some inp → usable_input m inp.
Proof.
  intros Hm Hi. destruct (vi_lookup m i inp Hm Hi) as (p & d & Ep & Hd & _).
  unfold usable_input. rewrite Ep. by exists d.
Qed.
Lemma usable_new m : usable_input m newInput.
Proof. done. Qed.

Lemma vsafe_hasUpdate R inp s : ok s → usable_input s.2 inp → vsafe R (hasUpdate inp) s.
Proof.
  unfold usable_input, hasUpdate. intros Hs Hu. destruct (in_dataReference inp); [|by apply vsafe_ret].
  apply vsafe_deref; [done|done|]. intros d _. by apply vsafe_ret.
Qed.
Lemma vsafe_getLastUpdateTime R inp s :
  ok s → usable_input s.2 inp → vsafe R (getLastUpdateTime inp) s.
Proof.
  unfold usable_input, getLastUpdateTime. intros Hs Hu.
  destruct (in_dataReference inp); [|by apply vsafe_ret].
  apply vsafe_deref; [done|done|]. intros d _. by apply vsafe_ret.
Qed.
Lemma vsafe_getValue R inp s : ok s → usable_input s.2 inp → vsafe R (getValue inp) s.
Proof.
  unfold usable_input, getValue. intros Hs Hu. destruct (in_dataReference inp) as [p|];
    [|by apply vsafe_ret].
  apply vsafe_manager; [done|]. apply vsafe_deref; [done|done|]. intros d Hd.
  apply vsafe_bind; [|intros; by apply vsafe_ret].
  apply (vsafe_writeInfo R p _ _ s d); cell_tac; done.
Qed.
Lemma vsafe_clearUpdate R inp s : ok s → usable_input s.2 inp → vsafe R (clearUpdate inp) s.
Proof.
  unfold usable_input, clearUpdate. intros Hs Hu. destruct (in_dataReference inp) as [p|];
    [|by apply vsafe_ret]. destruct Hu as [d Hd].
  apply (vsafe_writeInfo R p _ _ s d); cell_tac; done.
Qed.
Lemma vsafe_setDefaultValue R inp data s :
  ok s → usable_input s.2 inp → vsafe R (setDefaultValue inp data) s.
Proof.
  unfold usable_input, setDefaultValue. intros Hs Hu.
  destruct (in_isValid inp); [|by apply vgood_raise].
  destruct (in_dataReference inp) as [p|]; [|done]. destruct Hu as [d Hd].
  apply vsafe_manager; [done|]. apply (vsafe_writeInfo R p _ _ s d); cell_tac; done.
Qed.
Lemma vsafe_storeValue R i s (f : Input → Input) :
  ok s → is_Some (elements s.2 !! i) →
  (∀ inp, same_input inp (f inp) ∧ same_mode inp (f inp)) →
  vsafe R (_ ← updInput i f; inp ← inputAt i; mret (in_hasUpdate inp)) s.
Proof.
  intros Hs Hi Hf. apply vsafe_bind; [apply vsafe_updInput; [done|done|apply Hf|intros _; apply Hf]|].
  intros s' out _ Hs' Hm. apply vsafe_inputAt; [done|by eapply has_moved|]. intros. by apply vsafe_ret.
Qed.
Lemma vsafe_checkUpdate R i b s :
  ok s → is_Some (elements s.2 !! i) → vsafe R (checkUpdate i b) s.
Proof.
  intros Hs Hi. apply vsafe_inputAt; [done|done|]. intros inp Ei.
  assert (usable_input s.2 inp) as Hu by (by eapply usable_element; [apply Hs|]).
  apply vsafe_bind.
  - assert (∀ c : bool, vsafe R (if c then mret true else hasUpdate inp) s) as Hif.
    { intros []; [by apply vsafe_ret|by apply vsafe_hasUpdate]. }
    destruct (changeDetectionEnabled inp).
    + apply vsafe_bind; [apply Hif|]. intros s1 out1 [] Hs1 Hm1; [|by apply vsafe_ret].
      assert (is_Some (elements s1.2 !! i)) as Hi1 by (by eapply has_moved).
      apply vsafe_bind.
      { apply vsafe_getValue; [done|]. destruct (mv_elem _ _ _ Hm1 i inp Ei) as (inp1 & E1 & Hsame).
        pose proof (usable_element _ i inp1 (proj2 Hs1) E1) as Hu1. unfold usable_input in *.
        destruct Hsame as (Eh & <- & _). destruct (in_dataReference inp1); [done|].
        unfold in_isValid in *. by rewrite <- Eh. }
      intros s2 out2 dv Hs2 Hm2. assert (is_Some (elements s2.2 !! i)) as Hi2 by (by eapply has_moved).
      apply vsafe_bind; [destruct (iv_injectionKnown _);
        [by apply vsafe_ret|by apply vsafe_loadSourceInformation]|].
      intros s3 out3 _ Hs3 Hm3. assert (is_Some (elements s3.2 !! i)) as Hi3 by (by eapply has_moved).
      apply vsafe_inputAt; [done|done|]. intros inp3 Ei3.
      apply vsafe_bind; [by apply vgood_returns|]. intros s4 out4 newVal Hs4 Hm4.
      destruct (iv_changed _ _); [|by apply vsafe_ret].
      apply vsafe_updInput; [done|by eapply has_moved|same_mode_tac..].
    + apply vsafe_bind; [apply Hif|]. intros s1 out1 u Hs1 Hm1.
      apply vsafe_updInput; [done|by eapply has_moved|same_mode_tac..].
  - intros s' out _ Hs' Hm. apply vsafe_inputAt; [done|by eapply has_moved|]. intros. by apply vsafe_ret.
Qed.
Lemma vsafe_vectorDataProcess R i dataV x s :
  ok s → is_Some (elements s.2 !! i) → Some x ∈ dataV → vsafe R (vectorDataProcess i dataV) s.
Proof.
  intros Hs Hi Hx. apply vsafe_inputAt; [done|done|]. intros inp Ei. apply vsafe_bind.
  { destruct (_ || _); [|by apply vsafe_ret].
    apply vsafe_bind; [by apply vsafe_loadSourceInformation|]. intros s' out _ Hs' Hm.
    apply vsafe_updInput; [done|by eapply has_moved|same_mode_tac..]. }
  intros s1 out1 _ Hs1 Hm1. assert (is_Some (elements s1.2 !! i)) as Hi1 by (by eapply has_moved).
  apply vsafe_inputAt; [done|done|]. intros inp1 Ei1. apply vsafe_bind.
  { apply vgood_result; [done|by eapply iv_combine_some|done]. }
  intros s2 out2 result Hs2 Hm2. assert (is_Some (elements s2.2 !! i)) as Hi2 by (by eapply has_moved).
  destruct (_ && _); (apply vsafe_storeValue; [done|done|same_mode_tac]).
Qed.
Lemma vsafe_in_isUpdated R i s :
  ok s → is_Some (elements s.2 !! i) → vsafe R (in_isUpdated i) s.
Proof.
  intros Hs Hi. apply vsafe_inputAt; [done|done|]. intros inp Ei.
  destruct (in_hasUpdate inp); [by apply vsafe_ret|by apply vsafe_checkUpdate].
Qed.
(** A method that resets the flag of the input and then uses its data. *)
Lemma vsafe_reset R {A} (g : Input → valM A) i s :
  (∀ inp s, ok s → usable_input s.2 inp → vsafe R (g inp) s) →
  ok s → is_Some (elements s.2 !! i) →
  vsafe R (_ ← updInput i (λ inp, inp <| in_hasUpdate := false |>); inp ← inputAt i; g inp) s.
Proof.
  intros Hg Hs Hi. apply vsafe_bind; [apply vsafe_updInput; [done|done|same_mode_tac..]|].
  intros s' out _ Hs' Hm. apply vsafe_inputAt; [done|by eapply has_moved|]. intros inp Ei.
  apply Hg; [done|]. by eapply usable_element; [apply Hs'|].
Qed.
Lemma vsafe_in_clearUpdate R i s :
  ok s → is_Some (elements s.2 !! i) → vsafe R (in_clearUpdate i) s.
Proof. apply vsafe_reset. intros. by apply vsafe_clearUpdate. Qed.
Lemma vsafe_getRawValue R i s : ok s → is_Some (elements s.2 !! i) → vsafe R (getRawValue i) s.
Proof. apply vsafe_reset. intros. by apply vsafe_getValue. Qed.
Lemma vsafe_applyInputs R (g : nat → valM unit) n : ∀ i s,
  (∀ i s, ok s → is_Some (elements s.2 !! i) → vsafe R (g i) s) →
  ok s → (i + n ≤ length (elements s.2))%nat → vsafe R (applyInputs g i n) s.
Proof.
  induction n as [|n IH]; intros i s Hg Hs Hl; cbn [applyInputs]; [by apply vsafe_ret|].
  apply vsafe_bind; [apply Hg; [done|apply lookup_lt_is_Some_2; lia]|].
  intros s' out _ Hs' Hm. apply IH; [done|done|].
  destruct (has_moved s s' out (i + n) Hm) as [x Hx%lookup_lt_Some]; [apply lookup_lt_is_Some_2; lia|lia].
Qed.
Lemma vsafe_applyAll R (g : nat → valM unit) s :
  (∀ i s, ok s → is_Some (elements s.2 !! i) → vsafe R (g i) s) → ok s → vsafe R (applyAll g) s.
Proof. intros Hg Hs. apply vsafe_manager; [done|]. by apply vsafe_applyInputs. Qed.
Lemma vsafe_setCallbackAt (R : Prop) inp cb s :
  ok s → usable_input s.2 inp → (R → False) → vsafe R (setInputNotificationCallbackAt inp cb) s.
Proof.
  unfold usable_input, setInputNotificationCallbackAt. intros Hs Hu HR.
  destruct (in_dataReference inp) as [p|]; [|by apply vgood_raise]. destruct Hu as [d Hd].
  eapply awp_mono; [by apply (awp_updInfo p _ s d [])|].
  intros s' out r (-> & -> & ? & ? & _). split_and!; [done|done|by intros ?%HR|done|done].
Qed.
(** *** Targets, names and functions *)

(** What the invariant is about. *)
Definition same_inputs m m' : Prop :=
  elements m' = elements m ∧ (∀ h, dm_index2 (inputs m') h = dm_index2 (inputs m) h) ∧
  inputData m' = inputData m ∧ heap m' = heap m ∧ nextPtr m' = nextPtr m ∧
  CurrentTime m' = CurrentTime m.
Lemma vsafe_upd R f s : ok s → same_inputs s.2 (f s.2) → vsafe R (upd_manager f) s.
Proof.
  intros Hs (E1 & E2 & E3 & E4 & E5 & E6). apply awp_modify. cbn.
  assert (val_inv (f s.2)) as Hi.
  { destruct Hs as [_ [I1 I2 I3 I4 I5 I6]]. split; rewrite ?E1, ?E3, ?E4, ?E5; try done.
    intros h i. rewrite E2. apply I6. }
  split; [split; [apply Hs|done]|]. split; [|split; [|done]].
  - split; cbn; rewrite ?E1, ?E4; [by eauto| |by apply core_kept_refl|done].
    intros i inp Ei. exists inp. split; [done|apply same_input_refl].
  - intros _. split; cbn; rewrite ?E1, ?E4; [done|intros; by simplify_eq..].
Qed.
Lemma same_inputs_term m name h l :
  same_inputs m (m <| inputs := dm_addSearchTerm name h (inputs m) |> <| targetIDs := l |>).
Proof.
  repeat split; cbn; [apply dm_term_elements|intros; apply dm_term_index2].
Qed.
Lemma vsafe_addAlias R inp name s : ok s → vsafe R (addAlias inp name) s.
Proof.
  intros Hs. unfold addAlias. destruct (in_isValid inp); [|by apply vgood_raise].
  apply vsafe_upd; [done|apply same_inputs_term].
Qed.
Lemma vsafe_addPublicationAlias R pub name s : ok s → vsafe R (addPublicationAlias pub name) s.
Proof.
  intros Hs. unfold addPublicationAlias. destruct (pub_isValid pub); [|by apply vgood_raise].
  by apply vsafe_upd.
Qed.
Lemma vsafe_addTarget R inp target s : ok s → is_Some s.1 → vsafe R (addTarget inp target) s.
Proof.
  intros Hs Hc. apply vsafe_bind; [apply vsafe_onCore; [done|done|apply vl_addSourceTarget]|].
  intros. by apply vsafe_upd.
Qed.
Lemma vsafe_addPublicationTarget R pub target s :
  ok s → is_Some s.1 → vsafe R (addPublicationTarget pub target) s.
Proof.
  intros Hs Hc. apply vsafe_bind; [apply vsafe_onCore; [done|done|apply vl_addDestinationTarget]|].
  intros. by apply vsafe_upd.
Qed.
Lemma vsafe_removeTarget R inp target s : ok s → is_Some s.1 → vsafe R (removeTarget inp target) s.
Proof.
  intros Hs Hc. apply vsafe_manager; [done|]. destruct (list_find _ _) as [[el _]|];
    [|by apply vsafe_ret].
  apply vsafe_bind; [apply vsafe_onCore; [done|done|apply vl_removeTarget]|].
  intros. by apply vsafe_upd.
Qed.

(** *** Registration *)
Lemma register_input_inv m ipts hid key type units v :
  let inp := newInput <| in_handle := hid |> <| in_actualName := key |> <| in_value := v |> in
  val_inv m → dm_try_insert (searchKey key) hid inp (inputs m) = Some ipts →
  let m' := addInput key type units ipts m in
  val_inv m' ∧ heap m !! nextPtr m = None ∧
  heap m' = <[nextPtr m := newInputInfo key type units]> (heap m) ∧
  ∃ inp', elements m' = elements m ++ [inp'].
Proof.
  intros inp [I1 I2 I3 I4 I5 I6] Ei m'. set (edat := nextPtr m).
  destruct (dm_back_elements _ _ _ (λ ref, ref <| in_dataReference := Some edat |>
    <| in_referenceIndex := Z.of_nat (length (inputData m ++ [edat])) - 1 |>) _ _ Ei) as [Ee Ex].
  revert Ee. set (inp' := _ <| in_referenceIndex := _ |>). intros Ee.
  change (elements m' = elements m ++ [inp']) in Ee.
  assert (inputData m' = inputData m ++ [edat]) as Ed' by done.
  assert (heap m' = <[edat := newInputInfo key type units]> (heap m)) as Eh by done.
  assert (nextPtr m' = S edat) as En by done.
  change (∀ h, dm_index2 (inputs m') h = dm_index2 ipts h) in Ex. clearbody m'.
  assert (heap m !! edat = None) as Hf.
  { apply eq_None_not_Some. intros Hs%I5. subst edat. lia. }
  assert (∀ p, p ∈ inputData m → p ≠ edat) as Hne.
  { intros p Hp ->. apply I3 in Hp as [? ?]. congruence. }
  split; [split; rewrite ?Ed', ?Eh, ?En|by split; [|split; [|exists inp']]].
  - rewrite Ee, !length_app. by rewrite I1.
  - intros i e. rewrite Ee. intros [Hi|[Hi He]]%lookup_app_Some.
    + destruct (I2 i e Hi) as (Hr & p & Ep & Ed). split; [done|]. exists p. split; [done|].
      by apply lookup_app_l_Some.
    + apply list_lookup_singleton_Some in He as [Hi0 <-]. assert (i = length (elements m)) as -> by lia.
      subst inp'. cbn. rewrite length_app, I1. cbn. split; [lia|]. exists edat. split; [done|].
      by rewrite lookup_app_r, I1, Nat.sub_diag by lia.
  - intros p [Hp| ->%list_elem_of_singleton]%elem_of_app; [|by rewrite lookup_insert_eq].
    rewrite lookup_insert_ne by (symmetry; by apply Hne). by apply I3.
  - apply NoDup_app. split; [done|]. split; [|apply NoDup_singleton].
    intros p Hp ->%list_elem_of_singleton. by apply (Hne edat).
  - intros p. destruct (decide (p = edat)) as [->|Hp]; [lia|].
    rewrite lookup_insert_ne by done. intros Hs%I5. fold edat in Hs. lia.
  - intros h i. rewrite Ex, Ee. intros Hi. destruct (di_index2 _ _ _ _ _ _ _ Ei Hi) as [Hi'|[-> ->]].
    + destruct (I6 h i Hi') as (e & He & Hh). exists e. split; [|done]. by apply lookup_app_l_Some.
    + exists inp'. split; [|done]. by rewrite lookup_app_r, Nat.sub_diag by done.
Qed.
Definition new_ref s (r : exception + nat) : Prop :=
  match r with inr i => is_Some (elements s.2 !! i) | inl _ => True end.
Lemma vgood_registerInput (R : Prop) key type units s :
  ok s → is_Some s.1 → value_registrable W → (R → False) →
  vgood R (registerInput key type units) s new_ref.
Proof.
  intros Hs Hc [Hreg _] HR. apply vgood_bind, vgood_onCore; [done|done|apply Hreg|].
  intros s1 [e|hid] Hs1 Em; [done|]. apply vgood_bind, vgood_manager; [done|].
  destruct (dm_try_insert _ _ _ _) as [ipts|] eqn:Ei; [|by apply vgood_raise].
  apply vgood_bind.
  destruct (register_input_inv s1.2 ipts hid key type units _ (proj2 Hs1) Ei)
    as (Hi & Hf & Hh & inp' & He).
  revert Hi Hh He. set (m' := addInput _ _ _ _ _). intros Hi Hh He. apply awp_modify. fold m'.
  assert (CurrentTime m' = CurrentTime s1.2) as Et by done. clearbody m'.
  assert (ok (s1.1, m')) as Hok by (split; [apply Hs1|exact Hi]).
  split; [done|]. split; [|split; [by intros ?%HR|split; [done|]]].
  - split; cbn; [| |by apply core_kept_refl|done].
    + intros p d Hd. exists d. rewrite Hh, lookup_insert_ne; [done|]. intros <-. congruence.
    + intros i inp E. exists inp. rewrite He. split; [by apply lookup_app_l_Some|apply same_input_refl].
  - apply vgood_ret; [done|]. cbn [new_ref snd]. rewrite He, lookup_app_r, Nat.sub_diag by done. by eexists.
Qed.
Lemma vsafe_registerPublication R key type units s :
  ok s → is_Some s.1 → value_registrable W → vsafe R (registerPublication key type units) s.
Proof.
  intros Hs Hc [_ Hreg]. apply vsafe_bind; [by apply vsafe_onCore|]. intros s1 out1 hid Hs1 _.
  apply vsafe_manager; [done|]. destruct (dm_try_insert _ _ _ _); [|by apply vgood_raise].
  apply vsafe_bind; [by apply vsafe_upd|]. intros. by apply vsafe_ret.
Qed.
Lemma vgood_registerSubscription (R : Prop) target units s :
  ok s → is_Some s.1 → value_registrable W → (R → False) →
  vgood R (registerSubscription target units) s new_ref.
Proof.
  intros Hs Hc Hreg HR. apply vgood_bind. eapply vgood_mono; [by apply vgood_registerInput|].
  intros s1 out1 [e|i] Hs1 Hm1 Hi; [done|]. cbn in Hi. destruct Hi as [inp Ei].
  apply vgood_bind. unfold inputAt. apply vgood_bind, vgood_manager; [done|]. rewrite Ei.
  apply vgood_ret; [done|]. apply vgood_bind. eapply vgood_mono.
  { apply vsafe_addTarget; [done|]. by apply (core_kept_some _ _ (mv_core _ _ _ Hm1)). }
  intros s2 out2 [e|u] Hs2 Hm2 _; [done|]. apply vgood_ret; [done|]. cbn.
  eapply has_moved; [exact Hm2|by rewrite Ei].
Qed.
(** ** The code of an application *)

(** The references that the code has are valid. *)
Definition live_ref s (r : option nat) : Prop :=
  match r with Some i => is_Some (elements s.2 !! i) | None => True end.
Definition live_env s (env : value_env) : Prop := Forall (live_ref s) (env_inputs env).
Lemma live_ref_moved s s' out r : vmoved s s' out → live_ref s r → live_ref s' r.
Proof. intros Hm. destruct r; [by eapply has_moved|done]. Qed.
Lemma live_env_moved s s' out env : vmoved s s' out → live_env s env → live_env s' env.
Proof. intros Hm He. eapply Forall_impl; [exact He|]. intros r. by eapply live_ref_moved. Qed.
Lemma live_inputRef s env i : live_env s env → live_ref s (inputRef env i).
Proof.
  intros He. unfold inputRef. destruct (env_inputs env !! i) as [r|] eqn:E; [|done].
  by eapply Forall_lookup_1 in E.
Qed.
Definition answered s (r : exception + value_env * value_answer) : Prop :=
  match r with inr (env, _) => live_env s env | inl _ => True end.

Lemma vgood_answer R {A} (m : valM A) env (a : A → value_answer) s :
  live_env s env → vsafe R m s → vgood R (r ← m; mret (env, a r)) s answered.
Proof.
  intros He Hm. apply vgood_bind. eapply vgood_mono; [exact Hm|]. intros s' out [e|r] Hs' Hmv _; [done|].
  apply vgood_ret; [done|]. by eapply live_env_moved.
Qed.
Lemma vgood_gotPub R (m : valM Publication) env s :
  live_env s env → vsafe R m s → vgood R (p ← m; mret (gotPub env p)) s answered.
Proof.
  intros He Hm. apply vgood_bind. eapply vgood_mono; [exact Hm|]. intros s' out [e|r] Hs' Hmv _; [done|].
  apply vgood_ret; [done|]. by eapply (live_env_moved s s' out env).
Qed.
Lemma live_addRef s env r : live_env s env → live_ref s r → live_env s (addRef env r).
Proof. intros. apply Forall_app. auto. Qed.
Lemma vgood_gotInput R {A} (m : valM A) (f : A → option nat) env s :
  live_env s env →
  vgood R m s (λ s' r, match r with inr i => live_ref s' (f i) | inl _ => True end) →
  vgood R (i ← m; mret (gotInput env (f i))) s answered.
Proof.
  intros He Hm. apply vgood_bind. eapply vgood_mono; [exact Hm|]. intros s' out [e|r] Hs' Hmv Hr; [done|].
  apply vgood_ret; [done|]. apply live_addRef; [by eapply live_env_moved|done].
Qed.
Lemma vgood_withInput R {A} (g : Input → valM A) (a : A → value_answer) env i s :
  ok s → live_env s env → (∀ inp, usable_input s.2 inp → vsafe R (g inp) s) →
  vgood R (withInput env i g a) s answered.
Proof.
  intros Hs He Hg. apply vgood_bind. unfold knownInput.
  pose proof (live_inputRef s env i He) as Hr. destruct (inputRef env i) as [j|].
  - destruct Hr as [inp Ej]. unfold inputAt. apply vgood_bind, vgood_manager; [done|]. rewrite Ej.
    apply vgood_ret; [done|]. apply vgood_answer; [done|]. apply Hg.
    by eapply usable_element; [apply Hs|].
  - apply vgood_ret; [done|]. apply vgood_answer; [done|]. by apply Hg.
Qed.
Lemma vgood_onInput R {A} (g : nat → valM A) (a : A → value_answer) env i s :
  ok s → live_env s env → (∀ i, is_Some (elements s.2 !! i) → vsafe R (g i) s) →
  vgood R (onInput env i g a) s answered.
Proof.
  intros Hs He Hg. unfold onInput. pose proof (live_inputRef s env i He) as Hr.
  destruct (inputRef env i) as [j|]; [|by apply vgood_ret]. apply vgood_answer; auto.
Qed.

(** *** Lookup *)
Definition got_ref s (r : exception + option nat) : Prop :=
  match r with inr i => live_ref s i | inl _ => True end.
Lemma vgood_getInput R key s : ok s → vgood R (getInput key) s got_ref.
Proof.
  intros Hs. apply vgood_bind, vgood_manager, vgood_ret; [done|done|]. cbn.
  destruct (dm_index1 _ _) as [i|] eqn:E; [|done]. apply lookup_lt_is_Some_2. by eapply dm_index1_lt.
Qed.
Lemma vgood_vf_getInput R key s : ok s → vgood R (vf_getInput key) s got_ref.
Proof.
  intros Hs. apply vgood_bind. eapply vgood_mono; [by apply vgood_getInput|].
  intros s' out [e|[i|]] Hs' Hm Hi; [done| |by apply vgood_getInput]. destruct Hi as [inp Ei].
  apply vgood_bind. unfold inputAt. apply vgood_bind, vgood_manager; [done|]. rewrite Ei.
  apply vgood_ret; [done|]. destruct (in_isValid inp); [|by apply vgood_getInput].
  apply vgood_ret; [done|]. cbn. by rewrite Ei.
Qed.
Lemma vgood_getInputAt R index s : ok s → vgood R (getInputAt index) s got_ref.
Proof.
  intros Hs. apply vgood_bind, vgood_manager, vgood_ret; [done|done|]. cbn.
  destruct (_ && _) eqn:E; [|done]. apply andb_true_iff in E as [E1%Z.leb_le E2%Z.ltb_lt].
  apply lookup_lt_is_Some_2. lia.
Qed.
Lemma vgood_getSubscription R key s : ok s → vgood R (getSubscription key) s got_ref.
Proof.
  intros Hs. apply vgood_bind, vgood_manager, vgood_ret; [done|done|]. cbn.
  destruct (list_find _ _) as [[? [? h]]|]; [|done]. destruct (dm_index2 _ _) as [i|] eqn:E; [|done].
  destruct (vi_handle _ (proj2 Hs) h i E) as (inp & Ei & _). cbn. by rewrite Ei.
Qed.
Lemma vsafe_read R {A} (g : _ → A) s : ok s → vsafe R (m ← manager; mret (g m)) s.
Proof. intros. apply vsafe_manager; [done|by apply vsafe_ret]. Qed.
Lemma vsafe_getPublication R key s : ok s → vsafe R (getPublication key) s.
Proof. intros Hs. exact (vsafe_read R _ s Hs). Qed.
Lemma vsafe_vf_getPublication R key s : ok s → vsafe R (vf_getPublication key) s.
Proof.
  intros Hs. apply vsafe_bind; [by apply vsafe_getPublication|]. intros s' out pub Hs' _.
  destruct (pub_isValid pub); [by apply vsafe_ret|by apply vsafe_getPublication].
Qed.

(** A call that registers needs a core that can do it; a federate that has disconnected
    can be read only. *)
Definition publishable_call (c : value_call) : Prop :=
  match c with VPublish _ d => vw_publishable d | _ => True end.
Definition callable (c : value_call) : Prop :=
  (registering c = false ∨ value_registrable W) ∧ publishable_call c.
Definition can_call s (mode : modes) (c : value_call) : Prop :=
  callable c ∧
  (is_Some s.1 ∨ needs_core c = false ∧ sending_mode mode = false).
Lemma can_register s mode c :
  can_call s mode c → registering c = true → is_Some s.1 ∧ value_registrable W.
Proof.
  intros [[Hr _] Hs] Hc. split; [|by destruct Hr; [congruence|]].
  destruct Hs as [|[Hn _]]; [done|]. by destruct c.
Qed.
Lemma can_use s mode c : can_call s mode c → needs_core c = true → is_Some s.1.
Proof. intros [_ [Hc|[Hn _]]] Hc'; [done|congruence]. Qed.
Lemma vsafe_publishRaw R mode pub data s :
  ok s → vw_publishable data → is_Some s.1 ∨ sending_mode mode = false → vsafe R (publishRaw mode pub data) s.
Proof.
  intros Hs Hp Hc. unfold publishRaw. destruct (sending_mode mode); [|by apply vgood_raise].
  destruct Hc; [|done]. apply vsafe_onCore; [done|done|by apply vl_setValue].
Qed.

Lemma perform_well mode env c s :
  ok s → live_env s env → can_call s mode c →
  vgood (steady_call c = true) (performValue mode env c) s answered.
Proof.
  intros Hs He Hc. pose proof (can_register s mode c Hc) as Hreg. pose proof (can_use s mode c Hc) as Hcore.
  destruct c as [| | | | | | | | | | | | | | | | | | | | | | |[i|] cb| | | | |]; cbn [performValue];
    try (destruct Hreg as [Hsome Hreg]; [done|]);
    try (apply vgood_withInput; [done|done|]; intros x Hu);
    try (apply vgood_onInput; [done|done|]; intros x Hx);
    try (apply (vgood_gotInput _ _ (λ i, i)); [done|]);
    try (apply (vgood_answer _ _ _ (λ _, AUnit)); [done|]).
  - apply (vgood_gotInput _ _ Some); [done|]. eapply vgood_mono; [by apply vgood_registerInput|].
    by intros s' out [].
  - apply vgood_gotPub; [done|by apply vsafe_registerPublication].
  - apply (vgood_gotInput _ _ Some); [done|]. eapply vgood_mono; [by apply vgood_registerSubscription|].
    by intros s' out [].
  - by apply vgood_vf_getInput.
  - by apply vgood_getInputAt.
  - by apply vgood_getSubscription.
  - apply vgood_gotPub; [done|by apply vsafe_vf_getPublication].
  - apply vgood_gotPub; [done|]. exact (vsafe_read _ _ s Hs).
  - exact (vsafe_read _ _ s Hs).
  - apply vsafe_addTarget; auto.
  - apply vsafe_addPublicationTarget; auto.
  - apply vsafe_removeTarget; auto.
  - apply vsafe_onCore; [done|auto|apply vl_removeTarget].
  - by apply vsafe_addAlias.
  - by apply vsafe_addPublicationAlias.
  - by apply vsafe_setDefaultValue.
  - by apply vsafe_getValue.
  - destruct Hc as [[_ Hp] Hc]. apply vsafe_publishRaw; [done|exact Hp|]. destruct Hc as [?|[_ ?]]; auto.
  - by apply vsafe_hasUpdate.
  - by apply vsafe_getLastUpdateTime.
  - apply (vgood_answer _ _ _ AIndices); [done|]. exact (vsafe_read _ _ s Hs).
  - apply vsafe_applyAll; [|done]. intros. by apply vsafe_in_clearUpdate.
  - by apply vsafe_clearUpdate.
  - by apply vsafe_setCallbackAt.
  - by apply vsafe_upd.
  - by apply vsafe_in_isUpdated.
  - by apply vsafe_getRawValue.
  - by apply vsafe_in_clearUpdate.
  - apply vsafe_updInput; [done|done|same_mode_tac|done].
  - apply vsafe_updInput; [done|done|same_mode_tac|done].
Qed.

(** All calls of a program can be made. *)
Definition can_run s (mode : modes) (p : value_program) : Prop := every (can_call s mode) p.
Lemma can_call_moved s s' out mode c : vmoved s s' out → can_call s mode c → can_call s' mode c.
Proof.
  intros Hm [Hr Hc]. split; [done|]. by rewrite <- (core_kept_some _ _ (mv_core _ _ _ Hm)).
Qed.
Lemma every_impl (P P' : value_call → Prop) p : every P p → (∀ c, P c → P' c) → every P' p.
Proof. induction 1; constructor; auto. Qed.
Lemma runValue_well mode p : ∀ s env, ok s → live_env s env → can_run s mode p →
  vsafe (every (λ c, steady_call c = true) p) (runValue mode env p) s.
Proof.
  induction p as [|e|c k IH]; intros s env Hs He Hp; cbn [runValue].
  - by apply vsafe_ret.
  - by apply vgood_raise.
  - apply every_call_inv in Hp as [Hc Hk]. apply vgood_bind. eapply vgood_mono.
    { apply (vgood_try _ _ _ (λ s' r, match r with inr r => answered s' r | inl _ => True end)).
      eapply (vgood_weaken _ (steady_call c = true));
        [by apply perform_well|by intros [? _]%every_call_inv]. }
    assert (∀ s' out env' a, ok s' → vmoved s s' out → live_env s' env' →
      vsafe (every (λ c, steady_call c = true) (vp_call c k)) (runValue mode env' (k a)) s') as Hrest.
    { intros s' out env' a Hs' Hm He'. eapply vgood_weaken; [apply IH; [done|done|]|by intros [_ ?]%every_call_inv].
      eapply every_impl; [apply Hk|]. intros c'. by eapply can_call_moved. }
    intros s' out [e|[e|[env' a]]] Hs' Hm Hr; [done| |by eapply Hrest].
    eapply Hrest; [done|done|by eapply live_env_moved].
Qed.
(** ** A new time *)

(** The event of a value [x] of the core for an input whose data is at [p], and the call of
    the function for it: the one of the input or else the one for all inputs. *)
Definition update_event inp (p : ptr) (x : string * list (option string)) : value_event :=
  if inputVectorOp inp =? no_op then Stored p x.1 else Combined p x.2.
Definition notification (allCall : option callback) (d : input_info) (h : interface_handle)
    (t : Time) : list value_event :=
  match info_callback d, allCall with
  | Some cb, _ | None, Some cb => [Notified cb h t]
  | None, None => []
  end.
(** An input for which each value is an update. *)
Definition plain inp : bool := (inputVectorOp inp =? no_op) && negb (changeDetectionEnabled inp).

(** What happens for the handles of a list, one after the other. *)
Inductive handed (w : W) m (allCall : option callback) (t : Time)
    : list interface_handle → list value_event → Prop :=
  | handed_none : handed w m allCall t [] []
  | handed_unknown h hs es :
      dm_index2 (inputs m) h = None → handed w m allCall t hs es →
      handed w m allCall t (h :: hs) es
  | handed_input h hs es i inp p d x ns :
      dm_index2 (inputs m) h = Some i → elements m !! i = Some inp →
      in_dataReference inp = Some p → heap m !! p = Some d → vw_data w h = Some x →
      ns = [] ∨ ns = notification allCall d h t →
      (plain inp = true → ns = notification allCall d h t) →
      handed w m allCall t hs es →
      handed w m allCall t (h :: hs) (Updated p t :: update_event inp p x :: ns ++ es).

Lemma handed_app w m allCall t hs es hs' es' :
  handed w m allCall t hs es → handed w m allCall t hs' es' →
  handed w m allCall t (hs ++ hs') (es ++ es').
Proof.
  intros Hh Hh'. induction Hh as [|h hs es Hn Hh IH|h hs es i inp p d x ns Hi He Hp Hd Hx Hns Hpl Hh IH];
    [done|by apply handed_unknown|]. cbn. rewrite <- app_assoc. by eapply handed_input.
Qed.
(** The list is the same for a manager and a core that update the inputs in the same way. *)
Lemma handed_same w m w' m' allCall t hs es :
  val_inv m → (∀ h, dm_index2 (inputs m') h = dm_index2 (inputs m) h) →
  (∀ i inp, elements m !! i = Some inp →
    ∃ inp', elements m' !! i = Some inp' ∧ same_input inp inp' ∧ same_mode inp inp') →
  (∀ p d, heap m !! p = Some d →
    ∃ d', heap m' !! p = Some d' ∧ info_callback d' = info_callback d) →
  (∀ h x, vw_data w h = Some x → vw_data w' h = Some x) →
  Forall (λ h, is_Some (vw_data w h)) hs →
  handed w' m' allCall t hs es → handed w m allCall t hs es.
Proof.
  intros Hm Hx He Hd Hv Hs Hh. revert Hs.
  induction Hh as [|h hs es Hn Hh IH|h hs es i inp' p d' x ns Hi Hi' Hp Hd' Hdat Hns Hpl Hh IH]; intros Hs.
  - constructor.
  - apply Forall_cons in Hs as [_ Hs]. apply handed_unknown; [by rewrite <- Hx|auto].
  - apply Forall_cons in Hs as [[x0 Hx0] Hs]. rewrite Hx in Hi.
    destruct (vi_handle m Hm h i Hi) as (inp & Ei & _).
    destruct (He i inp Ei) as (inp2 & Ei2 & Hsame & Hop & Hcd).
    assert (inp2 = inp') as -> by congruence.
    destruct (vi_lookup m i inp Hm Ei) as (p0 & d & Ep & Ed & _).
    destruct (Hd p0 d Ed) as (d2 & Ed2 & Hcb). destruct Hsame as (_ & Er & _).
    assert (p0 = p) as -> by congruence. assert (d2 = d') as -> by congruence.
    assert (x0 = x) as -> by (apply Hv in Hx0; congruence).
    assert (notification allCall d' h t = notification allCall d h t) as En
      by (unfold notification; by rewrite Hcb).
    assert (update_event inp' p x = update_event inp p x) as -> by (unfold update_event; by rewrite Hop).
    rewrite En in Hns, Hpl. eapply handed_input; try done; [|by apply IH].
    intros Hpl'. apply Hpl. unfold plain in *. by rewrite Hop, Hcd.
Qed.

(** *** One value *)

Lemma inputAt_run s i inp : elements s.2 !! i = Some inp → inputAt i s = (s, [], Value inp).
Proof. intros E. unfold inputAt, manager, mbind, excM_bind. cbn. by rewrite E. Qed.
Lemma checkUpdate_plain i inp s :
  elements s.2 !! i = Some inp → changeDetectionEnabled inp = false →
  awp (checkUpdate i true) s (λ _ _ r, r = inr true).
Proof.
  intros Ei Hcd. unfold checkUpdate. apply awp_bind. unfold awp at 1. rewrite (inputAt_run s i inp Ei).
  rewrite Hcd. apply awp_bind. rewrite orb_true_r. apply awp_bind, awp_ret.
  unfold updInput. apply awp_bind. unfold awp at 1. rewrite (inputAt_run s i inp Ei).
  apply awp_modify, awp_bind. unfold awp at 1. rewrite (inputAt_run _ i (inp <| in_hasUpdate := true |>)).
  - by apply awp_ret.
  - cbn. rewrite dm_assign_elements by apply length_alter. by rewrite list_lookup_alter_eq, Ei.
Qed.

(** What follows an assignment to the data that is recorded. *)
Lemma awp_written {A} p f e s d (k : valM A) Q :
  ok s → heap s.2 !! p = Some d → only_at p [e] →
  cell_run p (cell_of d) [e] = Some (cell_of (f d)) → info_callback (f d) = info_callback d →
  (∀ s', ok s' → vmoved s s' [e] → steady s s' → inputs s'.2 = inputs s.2 →
    awp k s' (λ s2 out, Q s2 (e :: out))) →
  awp (_ ← writeInfo p f e; k) s Q.
Proof.
  intros Hs Hp He Hc Hcb Hk. apply awp_bind. eapply awp_mono; [by eapply awp_writeInfo|].
  intros s' out r (-> & -> & Hs' & Hm & Hst & Hin & _). apply (Hk s'); auto.
Qed.
Lemma deliveries_cons e out : delivery e = true → deliveries (e :: out) = e :: deliveries out.
Proof. intros He. unfold deliveries. by rewrite filter_cons_True by (by rewrite He). Qed.

Lemma awp_onCore {A} f (w : W) m (a : A) (Q : _ → _ → _ → Prop) :
  f w = (w, Value a) → Q (Some w, m) [] (inr a) → awp (onCore f) (Some w, m) Q.
Proof. intros E HQ. unfold awp, onCore. by rewrite E. Qed.
Lemma takeUpdate_spec h i p w m inp d x :
  ok (Some w, m) → elements m !! i = Some inp → in_dataReference inp = Some p →
  heap m !! p = Some d → vw_data w h = Some x →
  awp (takeUpdate h i p) (Some w, m) (λ s' out r, ok s' ∧ vmoved (Some w, m) s' out ∧
    steady (Some w, m) s' ∧ deliveries out = [update_event inp p x] ∧
    (plain inp = true → r = inr true)).
Proof.
  intros Hs Ei Ep Ed Hx. unfold takeUpdate. apply awp_bind. unfold awp at 1.
  rewrite (inputAt_run (Some w, m) i inp Ei). unfold update_event, plain. destruct x as [v vs].
  assert (vw_ok w) as Hw by (by apply Hs). destruct (inputVectorOp inp =? no_op); apply awp_bind.
  - eapply awp_onCore; [by eapply vl_value|].
    eapply (awp_written p _ _ (Some w, m) d); [done|done|cell_tac..|done|].
    intros s1 Hs1 Hm1 Hst1 Hin. assert (elements s1.2 !! i = Some inp) as Ei1 by (by rewrite Hin).
    eapply awp_mono; [apply awp_and; [apply (vsafe_checkUpdate True i true s1); [done|by rewrite Ei1]|]|].
    { instantiate (1 := λ _ _ r, changeDetectionEnabled inp = false → r = inr true).
      destruct (changeDetectionEnabled inp) eqn:Ec;
        [eapply awp_mono; [by apply (vsafe_checkUpdate True i true s1); [done|rewrite Ei1]|done]|].
      eapply awp_mono; [by eapply checkUpdate_plain|done]. }
    intros s2 out2 r [(Hs2 & Hm2 & Hst2 & Hd2 & _) Hpl]. split; [done|].
    split; [exact (vmoved_trans _ _ _ _ _ Hm1 Hm2)|]. split; [by eapply steady_trans; [exact Hm1|..]; auto|].
    split; [cbn [app]; by rewrite deliveries_cons, Hd2 by done|]. intros Hc%negb_true_iff. auto.
  - destruct (vl_values w h v vs Hw Hx) as [Ev [y Hy]]. eapply awp_onCore; [exact Ev|].
    eapply (awp_written p _ _ (Some w, m) d); [done|done|cell_tac..|done|].
    intros s1 Hs1 Hm1 Hst1 Hin. assert (elements s1.2 !! i = Some inp) as Ei1 by (by rewrite Hin).
    eapply awp_mono; [by apply (vsafe_vectorDataProcess True i vs y s1); [done|rewrite Ei1|]|].
    intros s2 out2 r (Hs2 & Hm2 & Hst2 & Hd2 & _). split; [done|].
    split; [exact (vmoved_trans _ _ _ _ _ Hm1 Hm2)|]. split; [by eapply steady_trans; [exact Hm1|..]; auto|].
    split; [cbn [app]; by rewrite deliveries_cons, Hd2 by done|done].
Qed.
(** *** All values *)

Definition settled_values : Prop := ∀ cb h t, every (λ c, steady_call c = true) (value_react cb h t).
Context (Happ : ∀ cb h t, every callable (value_react cb h t)).

Lemma notify_spec mode cb i h s :
  ok s → is_Some s.1 → is_Some (elements s.2 !! i) →
  awp (notify mode cb i h) s (λ s' out r, ok s' ∧ vmoved s s' out ∧
    (settled_values → steady s s') ∧ deliveries out = [Notified cb h (CurrentTime s.2)]).
Proof.
  intros Hs Hc Hi. unfold notify. apply awp_bind. unfold manager. apply awp_bind, awp_get, awp_ret.
  apply awp_bind, awp_emit. eapply awp_mono.
  { apply (runValue_well mode); [done|by constructor|].
    eapply every_impl; [apply Happ|]. intros c Hcall. by split; [|left]. }
  intros s' out r (Hs' & Hm & Hst & Hd & _). split; [done|]. split; [|split].
  - destruct Hm as [M1 M2 M3 M4]. by split.
  - intros HR. apply Hst, HR.
  - cbn [app]. by rewrite deliveries_cons, Hd by done.
Qed.

Lemma notifyAll_spec mode allCall i p h s d :
  ok s → is_Some s.1 → is_Some (elements s.2 !! i) → heap s.2 !! p = Some d →
  awp (d ← deref p;
       match info_callback d, allCall with
       | Some cb, _ => notify mode cb i h
       | None, Some cb => notify mode cb i h
       | None, None => mret tt
       end) s (λ s' out r, ok s' ∧ vmoved s s' out ∧ (settled_values → steady s s') ∧
    deliveries out = notification allCall d h (CurrentTime s.2)).
Proof.
  intros Hs Hc Hi Hd. apply awp_bind. unfold deref, manager. apply awp_bind, awp_bind, awp_get, awp_ret.
  rewrite Hd. apply awp_ret. unfold notification. cbn [app].
  destruct (info_callback d), allCall; [by apply notify_spec..|].
  apply awp_ret. split; [done|]. split; [by apply vmoved_refl|done].
Qed.
Lemma updateOne_spec mode allCall h w m :
  ok (Some w, m) → is_Some (vw_data w h) →
  awp (updateOne mode allCall h) (Some w, m) (λ s' out r, ok s' ∧ vmoved (Some w, m) s' out ∧
    (settled_values → steady (Some w, m) s') ∧
    handed w m allCall (CurrentTime m) [h] (deliveries out)).
Proof.
  intros Hs [x Hx]. unfold updateOne. apply awp_bind. unfold manager. apply awp_bind, awp_get, awp_ret.
  cbn [snd]. destruct (dm_index2 (inputs m) h) as [i|] eqn:Eh.
  2:{ apply awp_ret. split; [done|]. split; [by apply vmoved_refl|]. split; [done|].
      apply handed_unknown; [done|constructor]. }
  destruct (vi_handle m (proj2 Hs) h i Eh) as (inp & Ei & Ehd).
  destruct (vi_lookup m i inp (proj2 Hs) Ei) as (p & d & Ep & Ed & _).
  apply awp_bind. unfold awp at 1. rewrite (inputAt_run (Some w, m) i inp Ei), Ep.
  eapply (awp_written p _ _ (Some w, m) d); [done|done|cell_tac..|done|].
  intros [c1 m1] Hs1 Hm1 Hst1 Hin. cbn in Hin. pose proof (mv_core _ _ _ Hm1) as Hc1.
  destruct c1 as [w1|]; [|done]. destruct Hc1 as [_ Hk].
  destruct (mv_cell _ _ _ Hm1 p d Ed) as (d1 & Ed1 & _). cbn in Ed1.
  apply awp_bind. eapply awp_mono.
  { eapply (takeUpdate_spec h i p w1 m1 inp d1 x); [done|by rewrite Hin|done|done|by apply Hk]. }
  intros s2 out2 r2 (Hs2 & Hm2 & Hst2 & Hd2 & Hpl).
  assert (vmoved (Some w, m) s2 (Updated p (CurrentTime m) :: out2)) as Hm12
    by exact (vmoved_trans _ _ _ _ _ Hm1 Hm2).
  assert (steady (Some w, m) s2) as Hst12 by (by eapply steady_trans; [exact Hm1|..]).
  assert (∀ ns, ns = [] ∨ ns = notification allCall d h (CurrentTime m) →
    (plain inp = true → ns = notification allCall d h (CurrentTime m)) →
    handed w m allCall (CurrentTime m) [h]
      (Updated p (CurrentTime m) :: update_event inp p x :: ns)) as Hh.
  { intros ns Hns Hns'. rewrite <- (app_nil_r ns) at 1. eapply handed_input; try done. constructor. }
  destruct r2 as [e|[]]; cbn [app].
  - split; [done|]. split; [done|]. split; [done|]. rewrite deliveries_cons, Hd2 by done.
    apply Hh; [by left|]. intros Hp. by specialize (Hpl Hp).
  - destruct (mv_cell _ _ _ Hm12 p d Ed) as (d2 & Ed2 & _).
    assert (info_callback d2 = info_callback d) as Hcb by exact (sd_callback _ _ Hst12 p d d2 Ed Ed2).
    eapply awp_mono; [apply (notifyAll_spec mode allCall i p h s2 d2); [done|..|done]|].
    { by apply (core_kept_some _ _ (mv_core _ _ _ Hm12)). }
    { eapply has_moved; [exact Hm12|by exists inp]. }
    intros s3 out3 r (Hs3 & Hm3 & Hst3 & Hd3). split; [done|].
    split; [exact (vmoved_trans _ _ _ _ _ Hm12 Hm3)|].
    split; [intros HR; by eapply steady_trans; [exact Hm12|..]; auto|].
    rewrite deliveries_cons, deliveries_app, Hd2, Hd3 by done.
    unfold notification at 1. rewrite Hcb, (mv_time _ _ _ Hm12). apply Hh; auto.
  - apply awp_ret. rewrite app_nil_r. split; [done|]. split; [done|]. split; [done|].
    rewrite deliveries_cons, Hd2 by done. apply Hh; [by left|]. intros Hp. by specialize (Hpl Hp).
Qed.
Lemma handed_steady s s' w w' out allCall t hs es :
  ok s → vmoved s s' out → steady s s' → s.1 = Some w → s'.1 = Some w' →
  Forall (λ h, is_Some (vw_data w h)) hs →
  handed w' s'.2 allCall t hs es → handed w s.2 allCall t hs es.
Proof.
  intros Hs Hm Hst Ew Ew' Hf. pose proof (mv_core _ _ _ Hm) as Hk. rewrite Ew, Ew' in Hk.
  apply handed_same; [apply Hs|apply Hst| | |apply Hk|done].
  - intros i inp Ei. destruct (mv_elem _ _ _ Hm i inp Ei) as (inp' & Ei' & Hsame).
    exists inp'. split; [done|]. split; [done|]. by eapply sd_elem.
  - intros p d Ed. destruct (mv_cell _ _ _ Hm p d Ed) as (d' & Ed' & _).
    exists d'. split; [done|]. by eapply sd_callback.
Qed.
Lemma value_updateLoop_spec mode allCall hs : ∀ w m, ok (Some w, m) →
  Forall (λ h, is_Some (vw_data w h)) hs →
  awp (updateLoop mode allCall hs) (Some w, m) (λ s' out r, ok s' ∧ vmoved (Some w, m) s' out ∧
    (settled_values → ∃ done, done `prefix_of` hs ∧ (r = inr tt → done = hs) ∧
       handed w m allCall (CurrentTime m) done (deliveries out))).
Proof.
  induction hs as [|h hs IH]; intros w m Hs Hf; cbn [updateLoop].
  - apply awp_ret. split; [done|]. split; [by apply vmoved_refl|]. intros _. exists [].
    split; [done|]. split; [done|constructor].
  - apply Forall_cons in Hf as [Hh Hf]. apply awp_bind. eapply awp_mono; [by apply updateOne_spec|].
    intros s1 out1 [e|u] (Hs1 & Hm1 & Hst1 & Hd1).
    { split; [done|]. split; [done|]. intros _. exists [h]. split; [by eexists|]. done. }
    destruct s1 as [[w1|] m1]; [|by destruct (mv_core _ _ _ Hm1)].
    destruct (mv_core _ _ _ Hm1) as [_ Hk]. cbn [fst] in Hk. eapply awp_mono.
    { apply (IH w1 m1); [done|]. eapply Forall_impl; [exact Hf|]. intros h' [x Hx]. eauto. }
    intros s2 out2 r (Hs2 & Hm2 & Hd2). split; [done|].
    split; [exact (vmoved_trans _ _ _ _ _ Hm1 Hm2)|]. intros HR.
    destruct (Hd2 HR) as (hs1 & [hs2 ->] & Hall & Hd2'). exists (h :: hs1).
    split; [by exists hs2|]. split; [intros E; f_equal; auto|].
    rewrite deliveries_app. change (h :: hs1) with ([h] ++ hs1). apply handed_app; [done|].
    apply Forall_app in Hf as [Hf1 _]. pose proof (mv_time _ _ _ Hm1) as Et. cbn in Et. rewrite <- Et.
    exact (handed_steady (Some w, m) (Some w1, m1) w w1 out1 _ _ _ _ Hs Hm1 (Hst1 HR) eq_refl eq_refl
      Hf1 Hd2').
Qed.

(** The registers and the references after an operation. *)
Definition registers_kept m m' (out : list value_event) : Prop :=
  (∀ p d, heap m !! p = Some d →
    ∃ d', heap m' !! p = Some d' ∧ cell_run p (cell_of d) out = Some (cell_of d')) ∧
  ∀ i inp, elements m !! i = Some inp → ∃ inp', elements m' !! i = Some inp' ∧ same_input inp inp'.
Lemma updateTime_values mode t w m :
  ok (Some w, m) →
  awp (updateTime mode t) (Some w, m) (λ s' out r, ok s' ∧ is_Some s'.1 ∧
    registers_kept m s'.2 out ∧ CurrentTime s'.2 = t ∧
    (settled_values → ∃ done, done `prefix_of` vw_updates w ∧ (r = inr tt → done = vw_updates w) ∧
       handed w m (allCallback m) t done (deliveries out))).
Proof.
  intros Hs. unfold updateTime. apply awp_bind, awp_modify. cbn [fst snd].
  set (m1 := m <| CurrentTime := t |>). assert (vw_ok w) as Hw by (by apply Hs).
  assert (val_inv m1) as Hi by (destruct Hs as [_ []]; by split).
  assert (ok (Some w, m1)) as Hs1 by (by split; [apply Hs|]).
  assert (Forall (λ h, is_Some (vw_data w h)) (vw_updates w)) as Hf
    by (apply Forall_forall; intros h; by apply vl_updated).
  apply awp_bind. eapply awp_onCore; [by apply vl_updates|].
  apply awp_bind. unfold manager. apply awp_bind, awp_get, awp_ret. cbn [app snd].
  eapply awp_mono; [by apply (value_updateLoop_spec mode _ _ w m1)|]. intros s' out r (Hs' & Hm & Hd).
  split; [done|]. split; [by apply (core_kept_some _ _ (mv_core _ _ _ Hm)); eauto|].
  split; [split; apply Hm|]. split; [apply Hm|]. intros HR.
  destruct (Hd HR) as (hs1 & Hp & Hall & Hd1). exists hs1. split; [done|]. split; [done|].
  destruct Hp as [hs2 E]. rewrite E in Hf. apply Forall_app in Hf as [Hf1 _].
  eapply (handed_same w m w m1); [apply Hs|done| | |done|done|exact Hd1].
  - intros i inp Ei. exists inp. split; [done|]. split; [apply same_input_refl|done].
  - intros p d Ed. by exists d.
Qed.

End facts.

(** ** A value federate and its application *)

Section federate.
  Context `{TimeRep} `{DualMapped C} `{!DualMappedLaws C} `{!DualInsert C} `{!DualInsertLaws C}.
  Context {W V D : Type} `{!ValueCore W} `{!Values W} `{!ValueCoreLaws W}.
  Context `{!InputValue V D} `{!InputValueLaws V D} `{!FederateName} `{!ValueApplication}.
  Context `{!FederateCore W} `{!QuietCore (W := W)}.
  Context (always : ∀ w : W, vw_ok w) (Hreg : value_registrable W).
  Context (all_publishable : ∀ d, vw_publishable d).
  Abbreviation manager := (ValueFederateManager (C := C) (V := V)).
  Abbreviation appM := (excM (Federate W manager) app_event).
  Implicit Types (f : Federate W manager) (m : manager).

Lemma always_ok (c : option W) m : val_inv m → ok (c, m).
Proof. intros Hm. split; [intros; apply always|done]. Qed.
Lemma all_callable c : callable (W := W) c.
Proof. split; [by right|]. destruct c; try done. apply all_publishable. Qed.
Lemma virtual_call_sound g (w : W) m :
  awp g (Some w, m) (λ s' _ _, ok s') →
  (virtual_call g w m).2 ≠ NullPointer ∧ val_inv (virtual_call g w m).1.2.
Proof.
  unfold awp, virtual_call. destruct (g (Some w, m)) as [[[c' m'] out] [a|e|]]; [..|done];
    by intros [_ Hi].
Qed.
Lemma value_updateTime_sound mode t w m :
  val_inv m → (virtual_call (updateTime mode t) w m).2 ≠ NullPointer ∧
    val_inv (virtual_call (updateTime mode t) w m).1.2.
Proof.
  intros Hm. apply virtual_call_sound. eapply awp_mono.
  - apply (updateTime_values (λ cb h t, every_all _ _ all_callable)), always_ok, Hm.
  - by intros s' out r [? _].
Qed.
#[local] Instance value_sound : SoundVirtuals (W := W) (D := manager).
Proof.
  refine {| sv_inv := val_inv |}.
  - intros mode w m Hm. apply virtual_call_sound. eapply awp_mono.
    + apply (vsafe_applyAll True); [intros; by apply vsafe_loadSourceInformation|by apply always_ok].
    + by intros s' out r [? _].
  - intros mode w m Hm. by apply value_updateTime_sound.
  - intros mode t t' w m Hm. by apply value_updateTime_sound.
Defined.

(** Code of the application that uses the inputs and the publications, and code that can be
    run without a core. *)
Definition runValueProgram (p : value_program) : appM unit :=
  withValues (λ mode, runValue mode (mkEnv [] []) p).
Definition coreless (p : value_program) : Prop := every (λ c, needs_core c = false) p.

Lemma value_program_orderly : code_orderly runValueProgram coreless.
Proof.
  intros p f ph [Hc Hp Hd] Ha. unfold orderly, runValueProgram, withValues.
  assert (can_run (coreObject f, derived f) (currentMode f) p) as Hr.
  { destruct (coreObject f) as [w|] eqn:E.
    - apply every_all. intros c. split; [apply all_callable|left; by exists w].
    - destruct Ha as [[? ?]|Ha]; [done|]. eapply every_impl; [exact Ha|]. intros c Hn.
      split; [apply all_callable|right]. split; [done|]. by destruct (Hc eq_refl) as [-> | ->]. }
  pose proof (runValue_well (currentMode f) p (coreObject f, derived f) (mkEnv [] [])
    (always_ok _ _ Hd) (Forall_nil_2 _) Hr) as Hg. unfold vsafe, vgood, awp in Hg.
  destruct (runValue _ _ _ _) as [[[c d] out] r] eqn:E.
  assert (val_inv d ∧ (is_Some (coreObject f) ↔ is_Some c) ∧ r ≠ NullPointer) as (Hi & Hcc & Hn).
  { destruct r; [destruct Hg as ([_ ?] & Hm & _)..|done];
      (split; [done|]; split; [exact (core_kept_some _ _ (mv_core _ _ _ Hm))|done]). }
  split; [by destruct r|]. exists ph. split; [constructor|]. split; [|intros _; cbn; by apply Hcc].
  split; cbn; [|exact Hp|exact Hi]. intros ->. apply Hc.
  destruct (coreObject f); [|done]. by destruct (proj1 Hcc).
Qed.

Lemma newValueManager_inv t : val_inv (newValueManager (C := C) (V := V) t).
Proof.
  split; cbn; rewrite ?di_empty; [done|done|by intros ? ?%not_elem_of_nil|constructor| |].
  - intros p. by rewrite lookup_empty; intros [].
  - intros h i Hi%dm_index2_lt. rewrite di_empty in Hi. cbn in Hi. lia.
Qed.


(** A target that is added later uses the null pointer to the core. *)
Lemma target_after_disconnect inp target m :
  (addTarget (W := W) inp target (None, m)).2 = NullPointer.
Proof. done. Qed.
End federate.
