(* ===== verification/AppValuesCore.v ===== *)
(** * Value federates on the core of CommonCore.v

    The core that a value federate uses, for the federate with a given identifier: the
    calls of CoreApi.v satisfy what AppValuesFacts.v expects of a core, the registration
    left aside.  The values of a core are those of the inputs of its federates; the ones
    that have changed are the events of the last time that was granted.

    The examples at the end run value federates on a simple core. *)

From stdpp Require Import strings gmap.
From S2P Require Import Prelude HelicsTime Ids Flags ActionMessage MessageCodec CodecFacts.
From S2P Require Import MultiMessage Definitions TimeDependencies TimeCoordinator InputInfo.
From S2P Require Import Interfaces InterfaceInfo HandleManager FederateState.
From S2P Require Import ForwardingTimeCoordinator Effects MappedVector BrokerBase BrokerState.
From S2P Require Import CoreState CommonCore CoreApi CoreValues FederateExamples BrokerExamples.
From S2P Require Import CoreExamples.
From S2P Require Import AppMonad AppFederate AppFederateFacts AppMessages AppMessagesFacts.
From S2P Require Import AppMessagesCore AppMessagesExamples AppValues AppValuesFacts.

(** ** What a federate keeps when it is called *)
Section federate.
  Context `{TimeRep} `{DualMapped D} `{!DualMappedLaws D} `{BlockingQueue Q}.
  Abbreviation FS := (FederateState D Q).
  Implicit Types fed : FS.

(** The data of an input, and the subscribers of a publication. *)
Definition input_view (i : InputInfo) : option string * list (option string) :=
  ((getData i).1, getAllData i).
Definition fed_input fed (h : interface_handle) : option (option string * list (option string)) :=
  input_view <$> if_getInput (interfaceInformation fed) h.
Definition fed_subscribers fed (h : interface_handle) : option (list global_handle) :=
  subscribers <$> if_getPublication (interfaceInformation fed) h.
Record same_fed fed fed' : Prop := {
  sf_input : ∀ h, fed_input fed' h = fed_input fed h;
  sf_subscribers : ∀ h, fed_subscribers fed' h = fed_subscribers fed h;
  sf_events : fs_events fed' = fs_events fed;
  sf_iteration : fs_getCurrentIteration fed' = fs_getCurrentIteration fed;
  sf_send : allowed_send_time fed' = allowed_send_time fed;
}.
#[export] Instance same_fed_refl : Reflexive same_fed.
Proof. by split. Qed.

(** Another value for the element with a key, which looks the same. *)
Lemma find2_alter2_same {V B} (view : V → B) (v v' : V) h (c : D V) :
  dm_find2 c h = Some v → view v' = view v →
  ∀ h', view <$> dm_find2 (dm_alter2 (λ _, v') h c) h' = view <$> dm_find2 c h'.
Proof.
  unfold dm_find2, dm_alter2. intros Hv Hview h'. destruct (dm_index2 c h) as [i|]; [|done].
  cbn in Hv. rewrite dm_assign_index2 by apply length_alter.
  destruct (dm_index2 c h') as [j|]; [|done]. cbn.
  rewrite dm_assign_elements by apply length_alter.
  destruct (decide (i = j)) as [->|Hne]; [|by rewrite list_lookup_alter_ne].
  rewrite list_lookup_alter_eq, Hv. cbn. by rewrite Hview.
Qed.

Lemma same_addAction fed cmd : same_fed fed (addAction fed cmd).
Proof. unfold addAction. by destruct (negb _). Qed.
Lemma same_injected fed h ipt (get : InputInfo → InputInfo * string) :
  (∀ i, input_view (get i).1 = input_view i) → if_getInput (interfaceInformation fed) h = Some ipt →
  same_fed fed (on_inputs (dm_alter2 (λ _, (get ipt).1) h) fed).
Proof.
  intros Hg Hi. split; [|done..]. intros h'. unfold fed_input, if_getInput. cbn.
  by eapply find2_alter2_same.
Qed.
Lemma same_checkAndSetValue fed h data :
  is_Some (fed_subscribers fed h) →
  ∃ fed' b, checkAndSetValue fed h data = Ok (fed', b) ∧ same_fed fed fed'.
Proof.
  unfold checkAndSetValue, fed_subscribers. intros [subs Hs].
  destruct (negb (only_transmit_on_change fed)); [by exists fed, true|].
  destruct (if_getPublication _ h) as [pub|] eqn:Ep; [|done].
  destruct (CheckSetValue pub data) as [pub' b] eqn:Ec.
  eexists _, b. split; [done|]. split; [done| |done..]. intros h'.
  unfold fed_subscribers, if_getPublication. cbn. eapply find2_alter2_same; [exact Ep|].
  revert Ec. unfold CheckSetValue. destruct (_ || _); by intros [= <- _].
Qed.
Lemma injectionType_view i : input_view (InputInfo.getInjectionType i).1 = input_view i.
Proof. done. Qed.
Lemma injectionUnits_view i : input_view (InputInfo.getInjectionUnits i).1 = input_view i.
Proof. done. Qed.
(** An input that has a value has it among the values of its sources. *)
Lemma input_view_some i v vs : input_view i = (Some v, vs) → Some v ∈ vs.
Proof.
  unfold input_view, getData, getAllData. destruct (0 <=? latestIndex i); [|done]. cbn.
  destruct (current_data i !! Z.to_nat (latestIndex i)) as [x|] eqn:E; [|done]. cbn.
  intros [= -> <-]. by eapply list_elem_of_lookup_2.
Qed.
End federate.

(** ** The core of a federate *)
Section core.
  Context `{TimeRep} `{SteadyClock} `{TimeMs} `{UnitsLib} `{Fmt} `{MappedVector C}.
  Context `{!MappedVectorLaws C} `{DualMapped D} `{!DualMappedLaws D} `{BlockingQueue Q}.
  Context `{FilterOperators V} `{LocalAddress} (le : bool).
  Abbreviation CC := (CommonCore C D Q V).
  Abbreviation FS := (FederateState D Q).
  Abbreviation M := (effM CC broker_out).
  Abbreviation api_core := (api_core (C := C) (D := D) (Q := Q) (V := V)).
  Implicit Types (w : api_core) (s : CC) (fed : FS).

(** The federate [fid]; [sendable] are the values that the application publishes. *)
Context (fid : local_federate_id) (sendable : string → Prop).
#[local] Instance core_values : ValueCore api_core := {|
  vc_registerPublication key type units := core_call (CoreApi.registerPublication fid key type units);
  vc_registerInput key type units := core_call (CoreApi.registerInput fid key type units);
  vc_addSourceTarget h name := core_call (addSourceTarget h name);
  vc_addDestinationTarget h name := core_call (addDestinationTarget h name);
  vc_removeTarget h name := core_call (CoreApi.removeTarget h name);
  vc_setValue h data := core_call (setValue le h data);
  vc_getValue h := core_call (r ← CoreApi.getValue h; mret r.1);
  vc_getAllValues h := core_call (getAllValues h);
  vc_getValueUpdates := core_call (getValueUpdates fid);
  vc_getExtractionType h := core_call (getExtractionType h);
  vc_getInjectionType h := core_call (CoreApi.getInjectionType h);
  vc_getInjectionUnits h := core_call (CoreApi.getInjectionUnits h);
|}.

(** A federate and its position. *)
Definition federate_at s (f : local_federate_id) : option FS :=
  getFederateAt s f ≫= λ p, mv_elements (federates s) !! p.
Definition core_data s (h : interface_handle) : option (string * list (option string)) :=
  hi ← getHandleInfo (cc_handles s) h;
  if bool_decide (handleType hi = ht_input) then
    fed ← federate_at s (local_fed_id hi);
    view ← fed_input fed h;
    v ← view.1;
    Some (v, view.2)
  else None.

(** The events are of inputs with values, and the handles of inputs and publications belong
    to federates that have them; the values that are published can be encoded. *)
Record values_ok s : Prop := {
  vo_fed : ∃ fed, federate_at s fid = Some fed ∧
    Forall (λ h, is_Some (core_data s h)) (fs_events fed);
  vo_input : ∀ h hi, getHandleInfo (cc_handles s) h = Some hi → handleType hi = ht_input →
    ∃ fed, federate_at s (local_fed_id hi) = Some fed ∧ is_Some (fed_input fed h);
  vo_publication : ∀ h hi, getHandleInfo (cc_handles s) h = Some hi →
    handleType hi = ht_publication →
    ∃ fed subs, federate_at s (local_fed_id hi) = Some fed ∧ fed_subscribers fed h = Some subs ∧
      ∀ data, sendable data →
        Forall (λ sub, message_wf (setDestination (valueMessage fed hi h data) sub)) subs;
}.
#[local] Instance core_value_view : Values api_core := {|
  vw_ok w := values_ok w.1;
  vw_updates w := from_option fs_events [] (federate_at w.1 fid);
  vw_data w := core_data w.1;
  vw_publishable := sendable;
|}.

(** *** Calls that change a federate *)

(** The same core up to the members of federates that the values are not read from. *)
Record same_core s s' : Prop := {
  sc_handles : cc_handles s' = cc_handles s;
  sc_fed : ∀ f fed, federate_at s f = Some fed →
    ∃ fed', federate_at s' f = Some fed' ∧ same_fed fed fed';
  sc_none : ∀ f, federate_at s f = None → federate_at s' f = None;
}.
#[local] Instance same_core_refl : Reflexive same_core.
Proof. intros s. split; [done| |done]. intros f fed Hf. by exists fed. Qed.
Lemma same_core_alter s p (g : FS → FS) :
  (∀ fed, mv_elements (federates s) !! p = Some fed → same_fed fed (g fed)) →
  same_core s (s <| federates := mv_alter g p (federates s) |>).
Proof.
  intros Hg. assert (∀ f, federate_at (s <| federates := mv_alter g p (federates s) |>) f =
    getFederateAt s f ≫= λ q, if decide (p = q) then g <$> mv_elements (federates s) !! q
                              else mv_elements (federates s) !! q) as Hf.
  { intros f. unfold federate_at, getFederateAt, isValidIndex. cbn.
    rewrite mv_alter_elements, length_alter. destruct (_ && _); [|done]. cbn.
    rewrite list_lookup_alter. by case_decide; subst. }
  split; [done|..].
  - intros f fed Hfed. rewrite Hf. apply bind_Some in Hfed as (q & -> & Hq). cbn. rewrite Hq.
    case_decide; [subst q; eexists; split; [done|by apply Hg]|by exists fed].
  - intros f. rewrite Hf. unfold federate_at. destruct (getFederateAt s f) as [q|]; [|done]. cbn.
    intros ->. by case_decide.
Qed.
Lemma same_core_data s s' h : same_core s s' → core_data s' h = core_data s h.
Proof.
  intros [Hh Hf Hn]. unfold core_data. rewrite Hh. destruct (getHandleInfo _ h) as [hi|]; [|done].
  cbn. destruct (bool_decide _); [|done].
  destruct (federate_at s (local_fed_id hi)) as [fed|] eqn:E.
  - destruct (Hf _ _ E) as (fed' & -> & Hs). cbn. by rewrite (sf_input _ _ Hs).
  - by rewrite (Hn _ E).
Qed.
Lemma same_core_ok s s' : same_core s s' → values_ok s → values_ok s'.
Proof.
  intros Hs [(fed & Hf & He) Hi Hp]. split.
  - destruct (sc_fed _ _ Hs _ _ Hf) as (fed' & Hf' & Hsf). exists fed'. split; [done|].
    rewrite (sf_events _ _ Hsf). eapply Forall_impl; [exact He|]. intros h.
    by rewrite (same_core_data s s' h Hs).
  - intros h hi. rewrite (sc_handles _ _ Hs). intros Hh Ht. destruct (Hi h hi Hh Ht) as (fd & Hfd & Hx).
    destruct (sc_fed _ _ Hs _ _ Hfd) as (fed' & Hf' & Hsf). exists fed'. by rewrite (sf_input _ _ Hsf).
  - intros h hi. rewrite (sc_handles _ _ Hs). intros Hh Ht.
    destruct (Hp h hi Hh Ht) as (fd & subs & Hfd & Hsub & Hwf).
    destruct (sc_fed _ _ Hs _ _ Hfd) as (fed' & Hf' & Hsf). exists fed', subs.
    split; [done|]. split; [by rewrite (sf_subscribers _ _ Hsf)|]. intros data Hd.
    unfold valueMessage. rewrite (sf_iteration _ _ Hsf), (sf_send _ _ Hsf). by apply Hwf.
Qed.

(** A call that throws, or returns and leaves such a core. *)
Definition tame {A} (m : M A) : Prop := ∀ s, values_ok s →
  (∃ what, m s = Some (Throw what)) ∨
  ∃ s' out a, m s = Some (Ok (s', out, a)) ∧ same_core s s'.
Lemma tame_safe {A} (m : M A) : tame m → value_safe (core_call m).
Proof.
  intros Hm [s l] Hs. unfold core_call. cbn [fst snd].
  destruct (Hm s Hs) as [[what ->]|(s' & out & a & -> & Hsc)]; [by split|].
  split; [done|]. split; [by eapply same_core_ok|]. intros h x. cbn. by rewrite (same_core_data s s').
Qed.
(** *** The calls *)

Lemma federate_at_cases s f fed :
  federate_at s f = Some fed →
  ∃ p, getFederateAt s f = Some p ∧ mv_elements (federates s) !! p = Some fed.
Proof. intros (p & Hp & Hf)%bind_Some. eauto. Qed.
(** A call of a handle that is not known throws. *)
Lemma tame_handleOf {A} what h (g : BasicHandleInfo → M A) :
  (∀ s hi, values_ok s → getHandleInfo (cc_handles s) h = Some hi →
    (∃ what, g hi s = Some (Throw what)) ∨
    ∃ s' out a, g hi s = Some (Ok (s', out, a)) ∧ same_core s s') →
  tame (hi ← handleOf what h; g hi).
Proof.
  intros Hg s Hs. unfold handleOf.
  destruct (getHandleInfo (cc_handles s) h) as [hi|] eqn:E.
  - rewrite (eff_bind_ok _ _ s s hi) by (by rewrite eff_get_bind, E). by apply Hg.
  - left. exists what. unfold mbind, effM_bind, eff_get. cbn. by rewrite E.
Qed.
Ltac tame_tac :=
  cbv zeta; unfold addActionMessage, eff_emit; right; eexists _, _, _;
  split; [reflexivity|try reflexivity].

Lemma tame_addSourceTarget h name : tame (addSourceTarget h name).
Proof.
  apply tame_handleOf. intros s hi _ _. destruct (handleType hi);
    ((left; eexists; reflexivity) || tame_tac).
Qed.
Lemma tame_addDestinationTarget h name : tame (addDestinationTarget h name).
Proof.
  apply tame_handleOf. intros s hi _ _. destruct (handleType hi);
    ((left; eexists; reflexivity) || tame_tac).
Qed.
Lemma tame_getExtractionType h : tame (getExtractionType h).
Proof. intros s _. tame_tac. Qed.

(** A value that an input computes and keeps. *)
Lemma tame_injected s h hi get :
  values_ok s → getHandleInfo (cc_handles s) h = Some hi → handleType hi = ht_input →
  (∀ i, input_view (get i).1 = input_view i) →
  ∃ s' out a, injected get hi h s = Some (Ok (s', out, a)) ∧ same_core s s'.
Proof.
  intros Hs Hh Ht Hg. destruct (vo_input s Hs h hi Hh Ht) as (fed & Hf & _).
  destruct (federate_at_cases _ _ _ Hf) as (p & Hp & Hl). unfold injected, ownerOf, fedAt.
  rewrite (eff_bind_ok _ _ s s p) by (by rewrite eff_get_bind, Hp).
  rewrite (eff_bind_ok _ _ s s fed) by (by rewrite eff_get_bind, Hl).
  destruct (if_getInput _ h) as [ipt|] eqn:Ei; [|by eexists _, _, _].
  eexists _, _, _. unfold updateFed. rewrite eff_modify_bind. split; [done|].
  apply same_core_alter. intros fed' Hf'. simplify_eq. by apply same_injected.
Qed.
Lemma tame_getInjectionType h : tame (CoreApi.getInjectionType h).
Proof.
  intros s Hs. unfold CoreApi.getInjectionType. rewrite eff_get_bind.
  destruct (getHandleInfo _ h) as [hi|] eqn:Eh; [|tame_tac].
  destruct (handleType hi) eqn:Et; try tame_tac.
  right. by apply tame_injected.
Qed.
Lemma tame_getInjectionUnits h : tame (CoreApi.getInjectionUnits h).
Proof.
  intros s Hs. unfold CoreApi.getInjectionUnits. rewrite eff_get_bind.
  destruct (getHandleInfo _ h) as [hi|] eqn:Eh; [|tame_tac].
  destruct (handleType hi) eqn:Et; try tame_tac.
  right. by apply tame_injected.
Qed.

Lemma tame_removeTarget h name : tame (CoreApi.removeTarget h name).
Proof.
  apply tame_handleOf. intros s hi Hs Hh. rewrite eff_get_bind.
  set (p := getFederateAt s (local_fed_id hi)).
  assert (∃ fed : option FS, match p with Some p => fed ← fedAt p; mret (Some fed) | None => mret None end s =
    Some (Ok (s, [], fed))) as [fed Hfed].
  { destruct p as [q|] eqn:Ep; [|by eexists].
    destruct (getFederateAt_some s _ q Ep) as [fed Hl]. exists (Some fed). unfold fedAt.
    by rewrite (eff_bind_ok _ _ s s fed) by (by rewrite eff_get_bind, Hl). }
  rewrite (eff_bind_ok _ _ s s fed) by done. destruct (handleType hi) eqn:Et; try tame_tac.
  destruct (vo_input s Hs h hi Hh Et) as (fd & (p0 & Hp & Hl)%federate_at_cases & _).
  unfold p. rewrite Hp. unfold fedAction, updateFed. rewrite eff_modify_bind.
  tame_tac. apply same_core_alter. intros. apply same_addAction.
Qed.

Lemma tame_setValue h data : sendable data → tame (setValue le h data).
Proof.
  intros Hd s Hs. destruct (getHandleInfo (cc_handles s) h) as [hi|] eqn:Eh.
  2:{ left. eexists. unfold setValue, handleOf, mbind, effM_bind, eff_get. cbn. by rewrite Eh. }
  destruct (decide (handleType hi = ht_publication)) as [Ht|Ht].
  2:{ left. eexists. unfold setValue, handleOf.
      rewrite (eff_bind_ok _ _ s s hi) by (by rewrite eff_get_bind, Eh).
      by rewrite bool_decide_false. }
  destruct (checkActionFlag hi disconnected_flag) eqn:Edis; [|destruct (used hi) eqn:Eu].
  - unfold setValue, handleOf. rewrite (eff_bind_ok _ _ s s hi) by (by rewrite eff_get_bind, Eh).
    rewrite bool_decide_true, Edis by done. tame_tac.
  - destruct (vo_publication s Hs h hi Eh Ht) as (fed & subs & Hf & Hsub & Hwf).
    destruct (federate_at_cases _ _ _ Hf) as (p & Hp & Hl).
    destruct (same_checkAndSetValue fed h data) as (fed' & b & Hc & Hsame); [by rewrite Hsub|].
    rewrite (setValue_run le s h data hi p fed fed' b) by done.
    set (s' := s <| federates := _ |>).
    assert (same_core s s') as Hsc by (apply same_core_alter; intros; by simplify_eq).
    destruct b; cbn [negb]; [|tame_tac; done].
    assert (getSubscribers fed' h = subs) as Es.
    { pose proof (sf_subscribers _ _ Hsame h) as E. rewrite Hsub in E. unfold fed_subscribers in E.
      unfold getSubscribers. destruct (if_getPublication _ h); by simplify_eq/=. }
    assert (valueMessage fed' hi h data = valueMessage fed hi h data) as Em
      by (unfold valueMessage; by rewrite (sf_iteration _ _ Hsame), (sf_send _ _ Hsame)).
    rewrite Es, Em. cbv zeta. destruct subs as [|sub [|sub' subs]]; [by tame_tac..|].
    destruct (packageValues_spec le hi h (valueMessage fed hi h data) (sub :: sub' :: subs) [] s')
      as (ps & R & _); [constructor|cbn; lia| |].
    + eapply Forall_impl; [by apply Hwf|]. intros x Hx. by split.
    + change (package_of le hi h []) with (emptyPackage hi h) in R. rewrite R. by tame_tac.
  - unfold setValue, handleOf. rewrite (eff_bind_ok _ _ s s hi) by (by rewrite eff_get_bind, Eh).
    rewrite bool_decide_true, Edis, Eu by done. tame_tac.
Qed.
(** *** Reading *)

Lemma core_data_some s h v vs :
  core_data s h = Some (v, vs) →
  ∃ hi p fed ipt, getHandleInfo (cc_handles s) h = Some hi ∧ handleType hi = ht_input ∧
    getFederateAt s (local_fed_id hi) = Some p ∧ mv_elements (federates s) !! p = Some fed ∧
    if_getInput (interfaceInformation fed) h = Some ipt ∧ input_view ipt = (Some v, vs).
Proof.
  unfold core_data. intros (hi & Hh & Hd)%bind_Some.
  destruct (bool_decide_reflect (handleType hi = ht_input)) as [Ht|]; [|done].
  apply bind_Some in Hd as (fed & (p & Hp & Hl)%federate_at_cases & Hd).
  apply bind_Some in Hd as ([o l] & Hi & (v' & Ho & Hd)%bind_Some). cbn in Ho, Hd. simplify_eq.
  unfold fed_input in Hi. apply fmap_Some in Hi as (ipt & Hi & Ev). by exists hi, p, fed, ipt.
Qed.
Lemma inputOf_run {A} (get : FS → interface_handle → outcome A) s h hi p fed a :
  getHandleInfo (cc_handles s) h = Some hi → handleType hi = ht_input →
  getFederateAt s (local_fed_id hi) = Some p → mv_elements (federates s) !! p = Some fed →
  get fed h = Ok a → inputOf get h s = Some (Ok (s, [], a)).
Proof.
  intros Hh Ht Hp Hl Hg. unfold inputOf, handleOf, ownerOf, fedAt.
  rewrite (eff_bind_ok _ _ s s hi) by (by rewrite eff_get_bind, Hh). rewrite bool_decide_true by done.
  cbn [negb]. rewrite (eff_bind_ok _ _ s s p) by (by rewrite eff_get_bind, Hp).
  rewrite (eff_bind_ok _ _ s s fed) by (by rewrite eff_get_bind, Hl). by rewrite Hg.
Qed.
(** A call that returns [a] and leaves the core as it is. *)
Lemma core_call_run {A} (m : M A) w a :
  m w.1 = Some (Ok (w.1, [], a)) → core_call m w = (w, Value a).
Proof. intros E. unfold core_call. rewrite E, app_nil_r. by destruct w. Qed.

#[local] Instance core_value_laws : ValueCoreLaws api_core.
Proof.
  split.
  - intros h t. apply tame_safe, tame_addSourceTarget.
  - intros h t. apply tame_safe, tame_addDestinationTarget.
  - intros h t. apply tame_safe, tame_removeTarget.
  - intros h d Hd. by apply tame_safe, tame_setValue.
  - intros h. apply tame_safe, tame_getExtractionType.
  - intros h. apply tame_safe, tame_getInjectionType.
  - intros h. apply tame_safe, tame_getInjectionUnits.
  - intros w Hw. apply core_call_run. destruct (vo_fed w.1 Hw) as (fed & Hf & _). cbn. rewrite Hf.
    destruct (federate_at_cases _ _ _ Hf) as (p & Hp & Hl). unfold getValueUpdates, federateAt, fedAt.
    rewrite (eff_bind_ok _ _ w.1 w.1 p) by (by rewrite eff_get_bind, Hp).
    by rewrite (eff_bind_ok _ _ w.1 w.1 fed) by (by rewrite eff_get_bind, Hl).
  - intros w h Hw Hh. destruct (vo_fed w.1 Hw) as (fed & Hf & He). cbn in Hh. rewrite Hf in Hh.
    exact (proj1 (Forall_forall _ _) He h Hh).
  - intros w h v vs Hw (hi & p & fed & ipt & Hh & Ht & Hp & Hl & Hi & Hv)%core_data_some.
    apply core_call_run. destruct (getData ipt) as [o n] eqn:Ed.
    rewrite (eff_bind_ok _ _ w.1 w.1 (o, n)).
    + unfold input_view in Hv. rewrite Ed in Hv. by simplify_eq/=.
    + eapply inputOf_run; [done|done|done|done|]. unfold fs_getValue. by rewrite Hi, Ed.
  - intros w h v vs Hw (hi & p & fed & ipt & Hh & Ht & Hp & Hl & Hi & Hv)%core_data_some.
    split; [|exists v; by eapply input_view_some]. apply core_call_run.
    eapply inputOf_run; [done|done|done|done|]. unfold fs_getAllValues. rewrite Hi.
    unfold input_view in Hv. by simplify_eq.
Qed.
End core.

(** ** A value federate on the core of CoreExamples.v *)

(** The values of an input are strings. *)
#[export] Instance text_value : InputValue string string := {|
  iv_new units := "";
  iv_targetKnown v := true;
  iv_setTarget type v := v;
  iv_injectionKnown v := true;
  iv_load type units v := inr v;
  iv_extract data v := inr data;
  iv_combine op dataV v := match omap id dataV with
                           | [] => NullPointer
                           | d :: _ => Value d
                           end;
  iv_changed v d := negb (String.eqb v d);
  iv_store d v := d;
|}.
#[export] Instance text_value_laws : InputValueLaws string string.
Proof.
  intros op dataV v x Hx. cbn. destruct (omap id dataV) as [|d l] eqn:E; [|done].
  exfalso. apply (not_elem_of_nil x). rewrite <- E. apply list_elem_of_omap. by exists (Some x).
Qed.
Abbreviation meter_core :=
  (api_core (C := mvec) (D := listed) (Q := list ActionMessage) (V := unit)).
Definition any_value (data : string) : Prop := True.
#[export] Instance meter_values : ValueCore meter_core := core_values true 0.
#[export] Instance meter_view : Values meter_core := core_value_view 0 any_value.
#[export] Instance meter_laws : ValueCoreLaws meter_core := core_value_laws true 0 any_value.
(** Each function of the application reads the value. *)
#[export] Instance meter_app : ValueApplication := λ cb h t,
  vp_call (VInputGetRawValue 0) (λ _, vp_return).
Lemma meter_settled : settled_values.
Proof. intros cb h t. by constructor; [|constructor]. Defined.
Lemma meter_callable cb h t : every (callable (W := meter_core)) (value_react cb h t).
Proof. constructor; [by split; [left|]|constructor]. Defined.

(** The federate has got the time 5, and with it a value for its input. *)
Definition meter_source : global_handle := GlobalHandle 7 3.
Definition meter_start : meter_core :=
  let s := core_after (CoreApi.registerInput 0 "in" "string" "") core_with_fed in
  (s <| federates := mv_alter (λ fed,
     (on_inputs (dm_alter2 (λ i, (updateTimeInclusive (addData
        (addSource i meter_source "pub" "string" "") meter_source 4 0 "12.5") 5).1) 0) fed)
       <| fs_events := [0] |>) 0 (federates s) |>, []).
(** Its input has a function. *)
Definition meter_manager : ValueFederateManager (C := named) (V := string) :=
  mkValueManager
    [(["fed/in"], 0, mkInput 0 0 (Some 0%nat) false false no_op 0 "fed/in" "")] [] 2 None [0%nat]
    [] [] {[0%nat := (newInputInfo "fed/in" "string" "") <| info_callback := Some 7%nat |>]} 1%nat.

Lemma meter_manager_inv : val_inv meter_manager.
Proof.
  split.
  - done.
  - intros [|i] e He; [|done]. injection He as <-. split; [done|]. by exists 0%nat.
  - intros p Hp. apply list_elem_of_singleton in Hp as ->. by eexists.
  - apply NoDup_singleton.
  - intros p [d Hd]. unfold meter_manager in Hd. cbn [heap] in Hd.
    apply lookup_singleton_Some in Hd as [<- _]. cbn. lia.
  - intros h i. cbn. destruct (decide (0 = h)) as [<-|]; [|done]. intros [= <-].
    eexists. by split.
Qed.
Lemma meter_start_ok : vw_ok meter_start.
Proof.
  assert (∃ hi0 fed0, HandleManager.handles (cc_handles meter_start.1) = [hi0] ∧
    handleType hi0 = ht_input ∧ federate_at meter_start.1 (local_fed_id hi0) = Some fed0 ∧
    is_Some (fed_input fed0 0)) as (hi0 & fed0 & E & Ht & Hf & Hi).
  { eexists _, _. split; [vm_compute; reflexivity|]. split; [vm_compute; reflexivity|].
    split; [vm_compute; reflexivity|]. vm_compute. by eexists. }
  assert (∀ h hi, getHandleInfo (cc_handles meter_start.1) h = Some hi → hi = hi0 ∧ h = 0) as Hh.
  { intros h hi Hh. unfold getHandleInfo in Hh. unfold isValidIndex in Hh. rewrite E in Hh.
    destruct (_ && _) eqn:Ev; [|discriminate Hh].
    apply list_lookup_singleton_Some in Hh as [Hz <-]. split; [done|].
    apply andb_true_iff in Ev as [E1%Z.leb_le E2%Z.ltb_lt]. cbn in E2. lia. }
  split.
  - eexists. split; [vm_compute; reflexivity|]. apply Forall_singleton. vm_compute. by eexists.
  - intros h hi [-> ->]%Hh _. exists fed0. split; [exact Hf|exact Hi].
  - intros h hi [-> ->]%Hh Hp. rewrite Ht in Hp. discriminate Hp.
Qed.


(** ** A value federate on a simple core *)

(** A core with the number of its handles and the values of the inputs. *)
Definition board : Type := Z * gmap Z string.
#[export] Instance board_core : FederateCore board := {|
  core_enterInitializingMode := λ w, (w, inr tt);
  core_enterExecutingMode := λ it w, (w, inr ir_next_step);
  core_timeRequest := λ t w, ((w.1, {[0 := "high"]}), inr t);
  core_requestTimeIterative := λ t it w, (w, inr (t, ir_next_step));
  core_getCurrentTime := λ w, 0;
  core_finalize := λ w, (w, inr tt);
  core_localError := λ c msg w, w;
  core_globalError := λ c msg w, w;
  core_closeFilters := λ w, w;
  core_query := λ target q w, "";
|}.
#[export] Instance board_quiet : QuietCore (W := board).
Proof. split; [done|]. intros w. by exists w. Qed.
#[export] Instance board_values : ValueCore board := {|
  vc_registerPublication key type units := λ w, ((w.1 + 1, w.2), Value w.1);
  vc_registerInput key type units := λ w, ((w.1 + 1, w.2), Value w.1);
  vc_addSourceTarget h name := λ w, (w, Value tt);
  vc_addDestinationTarget h name := λ w, (w, Value tt);
  vc_removeTarget h name := λ w, (w, Value tt);
  vc_setValue h data := λ w, (w, Value tt);
  vc_getValue h := λ w, (w, Value (w.2 !! h));
  vc_getAllValues h := λ w, (w, Value [w.2 !! h]);
  vc_getValueUpdates := λ w, (w, Value ((map_to_list w.2).*1));
  vc_getExtractionType h := λ w, (w, Value "");
  vc_getInjectionType h := λ w, (w, Value "");
  vc_getInjectionUnits h := λ w, (w, Value "");
|}.
#[export] Instance board_view : Values board := {|
  vw_ok w := True;
  vw_updates w := (map_to_list w.2).*1;
  vw_data w h := (λ v, (v, [Some v])) <$> w.2 !! h;
  vw_publishable data := True;
|}.
#[export] Instance board_laws : ValueCoreLaws board.
Proof.
  split; try done.
  - intros w h _ Hh. cbn in *. apply list_elem_of_fmap in Hh as ([k v] & -> & Hk).
    apply elem_of_map_to_list in Hk. cbn. by rewrite Hk.
  - intros w h v vs _. cbn. destruct (w.2 !! h); [|done]. by intros [= -> _].
  - intros w h v vs _. cbn. destruct (w.2 !! h) as [x|]; [|done]. intros [= -> <-].
    split; [done|]. exists v. by apply list_elem_of_singleton.
Qed.
Lemma board_always (w : board) : vw_ok w.
Proof. done. Qed.
Lemma board_registrable : value_registrable board.
Proof. done. Qed.
Lemma board_publishable data : vw_publishable data.
Proof. done. Qed.


(** *** What lookups give *)

(** Calls on a new manager, the last of which is answered. *)
Fixpoint answer_of (env : value_env) (calls : list value_call)
    (s : value_state (C := named) (W := board) (V := string)) : option value_answer :=
  match calls with
  | [] => None
  | c :: calls =>
      match performValue m_executing env c s with
      | (s, _, Value (env, a)) =>
          match calls with [] => Some a | _ => answer_of env calls s end
      | _ => None
      end
  end.
Definition answer_new (calls : list value_call) : option value_answer :=
  answer_of (mkEnv [] []) calls (Some (0, ∅), newValueManager (-1)).

(** A subscription is not found when a publication has got the same target before. *)
Lemma subscription_hidden :
  answer_new [VRegisterSubscription "t" ""; VGetSubscription "t"] = Some (AValid true) ∧
  answer_new [VRegisterPublication true "p" "" ""; VAddPublicationTarget 0 "t";
              VRegisterSubscription "t" ""; VGetSubscription "t"] = Some (AValid false).
Proof. split; vm_compute; reflexivity. Qed.
(** It is still found when its target has been removed. *)
Lemma subscription_remains :
  answer_new [VRegisterSubscription "t" ""; VRemoveTarget 0 "t"; VGetTarget 0] = Some (AData "") ∧
  answer_new [VRegisterSubscription "t" ""; VRemoveTarget 0 "t"; VGetSubscription "t"]
    = Some (AValid true).
Proof. split; vm_compute; reflexivity. Qed.
(** An update that has been read through the federate is still listed. *)
Definition board_manager : ValueFederateManager (C := named) (V := string) :=
  meter_manager <| heap := {[0%nat := newInputInfo "fed/in" "string" ""]} |>.
Lemma update_listed :
  match updateTime m_executing 5 (Some (1, {[0 := "high"]} : gmap Z string), board_manager) with
  | (s, _, _) =>
      answer_of (mkEnv [Some 0%nat] []) [VGetValueRaw 0; VHasUpdate 0] s = Some (AValid false) ∧
      answer_of (mkEnv [Some 0%nat] []) [VGetValueRaw 0; VQueryUpdates] s = Some (AIndices [0])
  end.
Proof. vm_compute. done. Qed.
