(* ===== verification/CObjects.v ===== *)
(** * The objects of the C interface
    (src/src/helics/shared_api_library/internal/api_objects.h, helicsExport.cpp,
    MessageFederateExport.cpp)

    The C interface hands out pointers: a program holds them and gives them back.  The
    library owns the objects behind them in vectors of owning pointers: the list of
    federate objects ([MasterObjectHolder]), in a federate object its endpoints and its
    messages ([MessageHolder]), where the slots of freed messages are used again.  What
    the functions of the interface need of the objects is the class [ObjectStore].
    [held_store] is the code with its slots, indices, back references and validation codes;
    [ledger_store] is what it stands for: which handles are alive, who owns them, and the
    content of each message. *)

From stdpp Require Import strings gmap.
From S2P Require Import Prelude HelicsTime ActionMessage.

(** An address; a null pointer is [None] where a pointer can be null. *)
Definition addr := nat.

(** [enum class vtype] *)
Inductive vtype := generic_fed | value_fed | message_fed | combination_fed | invalid_fed.

(** ** The interface

    The operations on an address return [None] when there is no object of the kind at the
    address.  [fid] are the pointers to federates and [Ept] those to endpoints of the C++
    library.  [so_freeFed] and [so_clearFeds] return the federates that nothing refers to
    any more. *)
Class ObjectStore `{TimeRep} (fid Ept S : Type) := {
  so_newFed : vtype → fid → S → S * addr;
  so_fedValid : addr → S → option bool;
  so_fed : addr → S → option (vtype * fid);
  so_freeFed : addr → S → option (S * list fid);
  so_feds : S → list addr;
  so_clearFeds : S → S * list fid;
  so_addEndpoint : addr → Ept → S → option (S * addr);
  so_eptValid : addr → S → option bool;
  so_ept : addr → S → option (Ept * addr);
  so_newMessage : addr → S → option (S * addr);
  so_addMessage : addr → Message → S → option (S * addr);
  so_msgValid : addr → S → option bool;
  so_msg : addr → S → option Message;
  so_setMsg : addr → Message → S → option S;
  so_holder : addr → S → option (option addr);
  so_extract : addr → S → option (S * option Message);
  so_free : addr → S → option S;
  so_clear : addr → S → option S;
}.

(** A function without a result. *)
Definition giving_unit {S} (f : S → option S) (s : S) : option (S * unit) :=
  (λ s, (s, tt)) <$> f s.

Section store.
  Context `{TimeRep} {fid Ept : Type} `{!EqDecision fid}.

(** [Message()] *)
Definition freshMessage : Message := mkMessage Time_zeroVal 0 0 "" "" "" "" "".

(** ** The objects of the library *)

Definition fedValidationIdentifier : Z := 0x2352188.
Definition EndpointValidationIdentifier : Z := to_sint 32 0xB45394C2.
Definition messageKeyCode : Z := 0xB3.

(** A [Message] with the members that only this interface uses: the code that marks it as
    valid, the slot it is in and the holder, which is part of a federate object. *)
Record MessageObject := mkMessageObject {
  content : Message;
  messageValidation : Z;
  counter : Z;
  backReference : option addr;
}.
#[export] Instance eta_MessageObject : Eta MessageObject := λ m,
  mkMessageObject (content m) (messageValidation m) (counter m) (backReference m).

(** [class MessageHolder]; the back of [freeMessageSlots] comes first. *)
Record MessageHolder := mkHolder {
  slots : list (option addr);
  freeMessageSlots : list Z;
}.
#[export] Instance eta_MessageHolder : Eta MessageHolder := λ h,
  mkHolder (slots h) (freeMessageSlots h).

Record EndpointObject := mkEndpointObject {
  endPtr : Ept;
  eo_fed : addr;
  eo_fedptr : fid;
  eo_valid : Z;
}.

Record FedObject := mkFedObject {
  fo_type : vtype;
  fo_index : Z;
  fo_valid : Z;
  fo_fedptr : fid;
  fo_messages : MessageHolder;
  fo_epts : list addr;
}.
#[export] Instance eta_FedObject : Eta FedObject := λ f,
  mkFedObject (fo_type f) (fo_index f) (fo_valid f) (fo_fedptr f) (fo_messages f) (fo_epts f).

(** The memory with the objects of the interface, and the federates of the
    [MasterObjectHolder]. *)
Record held := mkHeld {
  fedObjs : gmap addr FedObject;
  eptObjs : gmap addr EndpointObject;
  msgObjs : gmap addr MessageObject;
  feds : list (option addr);
  nextAddr : addr;
}.
#[export] Instance eta_held : Eta held := λ s,
  mkHeld (fedObjs s) (eptObjs s) (msgObjs s) (feds s) (nextAddr s).
Definition newHeld : held := mkHeld ∅ ∅ ∅ [] 0%nat.

(** [isValidIndex] for a vector of a given length *)
Definition isValidSlot (index : Z) (len : nat) : bool :=
  (0 <=? index) && (index <? to_sint 32 (Z.of_nat len)).

(** ** [MessageHolder]

    The holder is the one of the federate object at [h]. *)

Definition setHolder (h : addr) (f : FedObject) (mh : MessageHolder) (s : held) : held :=
  s <| fedObjs := <[h := f <| fo_messages := mh |>]> (fedObjs s) |>.

(** The slot for a message at the address [m] and the new holder. *)
Definition takeSlot (m : addr) (mh : MessageHolder) : Z * MessageHolder :=
  match freeMessageSlots mh with
  | index :: free =>
      (index, mkHolder (<[Z.to_nat index := Some m]> (slots mh)) free)
  | [] => (to_sint 32 (Z.of_nat (length (slots mh))), mkHolder (slots mh ++ [Some m]) [])
  end.
Definition addMessage (h : addr) (mess : Message) (validation : Z) (s : held)
    : option (held * addr) :=
  f ← fedObjs s !! h;
  let m := nextAddr s in
  let '(index, mh) := takeSlot m (fo_messages f) in
  Some (setHolder h f mh s
          <| msgObjs := <[m := mkMessageObject mess validation index (Some h)]> (msgObjs s) |>
          <| nextAddr := S m |>, m).
Definition newMessage (h : addr) (s : held) : option (held * addr) :=
  addMessage h freshMessage messageKeyCode s.
Definition extractMessage (h : addr) (index : Z) (s : held) : option (held * option Message) :=
  f ← fedObjs s !! h;
  let mh := fo_messages f in
  if isValidSlot index (length (slots mh)) then
    match slots mh !! Z.to_nat index with
    | Some (Some m) =>
        mo ← msgObjs s !! m;
        Some (setHolder h f (mkHolder (<[Z.to_nat index := None]> (slots mh))
                                      (index :: freeMessageSlots mh)) s
                <| msgObjs := delete m (msgObjs s) |>, Some (content mo))
    | _ => Some (s, None)
    end
  else Some (s, None).
Definition freeMessage (h : addr) (index : Z) (s : held) : option held :=
  f ← fedObjs s !! h;
  let mh := fo_messages f in
  if isValidSlot index (length (slots mh)) then
    match slots mh !! Z.to_nat index with
    | Some (Some m) =>
        _ ← msgObjs s !! m;
        Some (setHolder h f (mkHolder (<[Z.to_nat index := None]> (slots mh))
                                      (index :: freeMessageSlots mh)) s
                <| msgObjs := delete m (msgObjs s) |>)
    | _ => Some s
    end
  else Some s.
Definition dropAll {A} (ptrs : list addr) (m : gmap addr A) : gmap addr A :=
  foldr delete m ptrs.
Definition clearMessages (h : addr) (s : held) : option held :=
  f ← fedObjs s !! h;
  Some (setHolder h f (mkHolder [] []) s
          <| msgObjs := dropAll (omap id (slots (fo_messages f))) (msgObjs s) |>).

(** ** Federate objects *)

(** Some object has a pointer to the federate. *)
Definition referred (k : fid) (s : held) : bool :=
  existsb (λ e, bool_decide (fo_fedptr e.2 = k)) (map_to_list (fedObjs s)) ||
  existsb (λ e, bool_decide (eo_fedptr e.2 = k)) (map_to_list (eptObjs s)).

(** The destructor of a [FedObject] and its members. *)
Definition destroyFed (a : addr) (s : held) : option (held * list fid) :=
  f ← fedObjs s !! a;
  let s := s <| eptObjs := dropAll (fo_epts f) (eptObjs s) |>
             <| msgObjs := dropAll (omap id (slots (fo_messages f))) (msgObjs s) |>
             <| fedObjs := delete a (fedObjs s) |> in
  Some (s, if referred (fo_fedptr f) s then [] else [fo_fedptr f]).

(** [make_unique<FedObject>] and [addFed] *)
Definition addFed (t : vtype) (k : fid) (s : held) : held * addr :=
  let a := nextAddr s in
  let index := to_sint 32 (Z.of_nat (length (feds s))) in
  (s <| fedObjs := <[a := mkFedObject t index fedValidationIdentifier k (mkHolder [] []) []]>
                     (fedObjs s) |>
     <| feds := feds s ++ [Some a] |> <| nextAddr := S a |>, a).

(** A null pointer is assigned to an element of [feds]. *)
Definition dropSlot (i : nat) (s : held) : option (held * list fid) :=
  match feds s !! i with
  | Some (Some a) => destroyFed a (s <| feds := <[i := None]> (feds s) |>)
  | _ => None
  end.
Definition clearFed (index : Z) (s : held) : option (held * list fid) :=
  if isValidSlot index (length (feds s)) then
    '(s, dead) ← dropSlot (Z.to_nat index) s;
    let none_of := forallb (λ o, negb (bool_decide (is_Some o))) (feds s) in
    Some (if (10 <? Z.of_nat (length (feds s))) && none_of then s <| feds := [] |> else s, dead)
  else Some (s, []).

(** [fedHandle->clear()]: the elements go one after the other. *)
Fixpoint clearSlots (i n : nat) (s : held) : held * list fid :=
  match n with
  | O => (s, [])
  | S n =>
      match dropSlot i s with
      | Some (s, dead) => let '(s, more) := clearSlots (S i) n s in (s, dead ++ more)
      | None => clearSlots (S i) n s
      end
  end.
Definition clearFeds (s : held) : held * list fid :=
  let '(s, dead) := clearSlots 0 (length (feds s)) s in (s <| feds := [] |>, dead).

(** [addEndpoint], for an object with the federate of the object it is added to *)
Definition addEndpointObject (a : addr) (e : Ept) (s : held) : option (held * addr) :=
  f ← fedObjs s !! a;
  let p := nextAddr s in
  Some (s <| fedObjs := <[a := f <| fo_epts := fo_epts f ++ [p] |>]> (fedObjs s) |>
          <| eptObjs := <[p := mkEndpointObject e a (fo_fedptr f) EndpointValidationIdentifier]>
                          (eptObjs s) |>
          <| nextAddr := S p |>, p).

#[export] Instance held_store : ObjectStore fid Ept held := {|
  so_newFed := addFed;
  so_fedValid a s := (λ f, fo_valid f =? fedValidationIdentifier) <$> fedObjs s !! a;
  so_fed a s := (λ f, (fo_type f, fo_fedptr f)) <$> fedObjs s !! a;
  so_freeFed a s :=
    f ← fedObjs s !! a;
    clearFed (fo_index f) (s <| fedObjs := <[a := f <| fo_valid := 0 |>]> (fedObjs s) |>);
  so_feds s := omap id (feds s);
  so_clearFeds := clearFeds;
  so_addEndpoint := addEndpointObject;
  so_eptValid a s := (λ e, eo_valid e =? EndpointValidationIdentifier) <$> eptObjs s !! a;
  so_ept a s := (λ e, (endPtr e, eo_fed e)) <$> eptObjs s !! a;
  so_newMessage := newMessage;
  so_addMessage h m s := addMessage h m messageKeyCode s;
  so_msgValid a s := (λ m, messageValidation m =? messageKeyCode) <$> msgObjs s !! a;
  so_msg a s := content <$> msgObjs s !! a;
  so_setMsg a m s :=
    mo ← msgObjs s !! a;
    Some (s <| msgObjs := <[a := mo <| content := m |>]> (msgObjs s) |>);
  so_holder a s := backReference <$> msgObjs s !! a;
  so_extract a s :=
    mo ← msgObjs s !! a; h ← backReference mo; extractMessage h (counter mo) s;
  so_free a s := mo ← msgObjs s !! a; h ← backReference mo; freeMessage h (counter mo) s;
  so_clear := clearMessages;
|}.

(** ** What the objects stand for *)

(** The handles that are alive: federate objects with their kind and federate, in the order
    they were made, endpoints and messages with the federate object that owns them. *)
Record ledger := mkLedger {
  lg_feds : gmap addr (vtype * fid);
  lg_order : list addr;
  lg_epts : gmap addr (Ept * addr);
  lg_msgs : gmap addr (Message * addr);
  lg_next : addr;
}.
#[export] Instance eta_ledger : Eta ledger := λ l,
  mkLedger (lg_feds l) (lg_order l) (lg_epts l) (lg_msgs l) (lg_next l).
Definition newLedger : ledger := mkLedger ∅ [] ∅ ∅ 0%nat.

Definition lg_addMsg (h : addr) (m : Message) (l : ledger) : option (ledger * addr) :=
  _ ← lg_feds l !! h;
  Some (l <| lg_msgs := <[lg_next l := (m, h)]> (lg_msgs l) |> <| lg_next := S (lg_next l) |>,
        lg_next l).

(** Without a federate object nothing it owns is left; its federate is gone when no other
    object has it. *)
Definition lg_freeFed (a : addr) (l : ledger) : option (ledger * list fid) :=
  '(_, k) ← lg_feds l !! a;
  let feds := delete a (lg_feds l) in
  Some (l <| lg_feds := feds |>
          <| lg_order := filter (.≠ a) (lg_order l) |>
          <| lg_epts := filter (λ e, e.2.2 ≠ a) (lg_epts l) |>
          <| lg_msgs := filter (λ e, e.2.2 ≠ a) (lg_msgs l) |>,
        if bool_decide (map_Exists (λ _ f, f.2 = k) feds) then [] else [k]).
Fixpoint lg_freeAll (order : list addr) (l : ledger) : ledger * list fid :=
  match order with
  | [] => (l, [])
  | a :: order =>
      match lg_freeFed a l with
      | Some (l, dead) => let '(l, more) := lg_freeAll order l in (l, dead ++ more)
      | None => lg_freeAll order l
      end
  end.

#[export] Instance ledger_store : ObjectStore fid Ept ledger := {|
  so_newFed t k l :=
    (l <| lg_feds := <[lg_next l := (t, k)]> (lg_feds l) |>
       <| lg_order := lg_order l ++ [lg_next l] |> <| lg_next := S (lg_next l) |>, lg_next l);
  so_fedValid a l := (λ _, true) <$> lg_feds l !! a;
  so_fed a l := lg_feds l !! a;
  so_freeFed := lg_freeFed;
  so_feds := lg_order;
  so_clearFeds l := lg_freeAll (lg_order l) l;
  so_addEndpoint a e l :=
    _ ← lg_feds l !! a;
    Some (l <| lg_epts := <[lg_next l := (e, a)]> (lg_epts l) |> <| lg_next := S (lg_next l) |>,
          lg_next l);
  so_eptValid a l := (λ _, true) <$> lg_epts l !! a;
  so_ept a l := lg_epts l !! a;
  so_newMessage h := lg_addMsg h freshMessage;
  so_addMessage := lg_addMsg;
  so_msgValid a l := (λ _, true) <$> lg_msgs l !! a;
  so_msg a l := fst <$> lg_msgs l !! a;
  so_setMsg a m l :=
    '(_, h) ← lg_msgs l !! a; Some (l <| lg_msgs := <[a := (m, h)]> (lg_msgs l) |>);
  so_holder a l := (λ e, Some e.2) <$> lg_msgs l !! a;
  so_extract a l :=
    '(m, _) ← lg_msgs l !! a; Some (l <| lg_msgs := delete a (lg_msgs l) |>, Some m);
  so_free a l := _ ← lg_msgs l !! a; Some (l <| lg_msgs := delete a (lg_msgs l) |>);
  so_clear h l :=
    _ ← lg_feds l !! h; Some (l <| lg_msgs := filter (λ e, e.2.2 ≠ h) (lg_msgs l) |>);
|}.
End store.
Arguments held : clear implicits.
Arguments ledger : clear implicits.
