(* ===== verification/CObjectsFacts.v ===== *)
(** * The objects of the C interface: ownership

    [held_refines]: the vectors of slots with their free lists, indices, back references
    and validation codes do what the ledger of live handles says, as long as fewer than
    2^31 objects have been made (slots and indices are of type [int]). *)

From stdpp Require Import strings gmap.
From S2P Require Import Prelude HelicsTime ActionMessage CObjects.

(** ** What a client may rely on *)

Definition capacity : Z := 2 ^ 31.

Section sim.
  Context {S T : Type} (R : S → T → Prop) (next : T → nat).

(** A function that reads gives the same on related stores. *)
Definition agrees {A} (f : S → A) (g : T → A) : Prop := ∀ s l, R s l → f s = g l.
(** A function that changes the store gives the same and keeps the relation, as long as
    there is space for the objects. *)
Definition refines {A} (f : S → option (S * A)) (g : T → option (T * A)) : Prop :=
  ∀ s l, R s l →
    match g l with
    | Some (l', x) =>
        (next l ≤ next l')%nat ∧
        (Z.of_nat (next l') < capacity → ∃ s', f s = Some (s', x) ∧ R s' l')
    | None => f s = None
    end.
End sim.
Class StoreSim `{TimeRep} {fid Ept S T : Type} `{!ObjectStore fid Ept S} `{!ObjectStore fid Ept T}
    (R : S → T → Prop) (next : T → nat) : Prop := {
  sim_newFed t k : refines R next (Some ∘ so_newFed t k) (Some ∘ so_newFed t k);
  sim_fedValid a : agrees R (so_fedValid a) (so_fedValid a);
  sim_fed a : agrees R (so_fed a) (so_fed a);
  sim_freeFed a : refines R next (so_freeFed a) (so_freeFed a);
  sim_feds : agrees R so_feds so_feds;
  sim_clearFeds : refines R next (Some ∘ so_clearFeds) (Some ∘ so_clearFeds);
  sim_addEndpoint a e : refines R next (so_addEndpoint a e) (so_addEndpoint a e);
  sim_eptValid a : agrees R (so_eptValid a) (so_eptValid a);
  sim_ept a : agrees R (so_ept a) (so_ept a);
  sim_newMessage a : refines R next (so_newMessage a) (so_newMessage a);
  sim_addMessage a m : refines R next (so_addMessage a m) (so_addMessage a m);
  sim_msgValid a : agrees R (so_msgValid a) (so_msgValid a);
  sim_msg a : agrees R (so_msg a) (so_msg a);
  sim_setMsg a m : refines R next (giving_unit (so_setMsg a m)) (giving_unit (so_setMsg a m));
  sim_holder a : agrees R (so_holder a) (so_holder a);
  sim_extract a : refines R next (so_extract a) (so_extract a);
  sim_free a : refines R next (giving_unit (so_free a)) (giving_unit (so_free a));
  sim_clear a : refines R next (giving_unit (so_clear a)) (giving_unit (so_clear a));
}.

(** The number of objects that were made gets no smaller. *)
Definition grows {T A} (next : T → nat) (g : T → option (T * A)) : Prop :=
  ∀ l l' x, g l = Some (l', x) → (next l ≤ next l')%nat.
Class StoreGrows `{TimeRep} {fid Ept T : Type} `{!ObjectStore fid Ept T} (next : T → nat)
    : Prop := {
  gr_newFed t k : grows next (Some ∘ so_newFed t k);
  gr_freeFed a : grows next (so_freeFed a);
  gr_clearFeds : grows next (Some ∘ so_clearFeds);
  gr_addEndpoint a e : grows next (so_addEndpoint a e);
  gr_newMessage a : grows next (so_newMessage a);
  gr_addMessage a m : grows next (so_addMessage a m);
  gr_setMsg a m : grows next (giving_unit (so_setMsg a m));
  gr_extract a : grows next (so_extract a);
  gr_free a : grows next (giving_unit (so_free a));
  gr_clear a : grows next (giving_unit (so_clear a));
}.

(** ** Lists of owning pointers *)

Lemma elem_of_owned (p : addr) (l : list (option addr)) : p ∈ omap id l ↔ ∃ i : nat, l !! i = Some (Some p).
Proof.
  rewrite list_elem_of_omap. split.
  - intros (o & Ho & E). simpl in E. subst. by apply list_elem_of_lookup.
  - intros [i Hi]. exists (Some p). split; [|done]. by eapply list_elem_of_lookup_2.
Qed.

Lemma lookup_dropAll {A} ps (m : gmap addr A) p :
  dropAll ps m !! p = if decide (p ∈ ps) then None else m !! p.
Proof.
  induction ps as [|q ps IH]; simpl; [done|].
  destruct (decide (p = q)) as [->|Hne].
  - rewrite lookup_delete_eq. rewrite decide_True by set_solver. done.
  - rewrite lookup_delete_ne, IH by done.
    destruct (decide (p ∈ ps)); [rewrite decide_True|rewrite decide_False]; set_solver.
Qed.

Lemma isValidSlot_nat i len :
  Z.of_nat len < capacity → isValidSlot (Z.of_nat i) len = bool_decide (i < len)%nat.
Proof.
  unfold capacity, isValidSlot. intros Hl. rewrite to_sint_id by (unfold sint_range; simpl; lia).
  destruct (bool_decide_reflect (i < len)%nat); [rewrite (proj2 (Z.leb_le _ _)),
    (proj2 (Z.ltb_lt _ _)) by lia; done|]. apply andb_false_iff. right. apply Z.ltb_ge. lia.
Qed.

Lemma filter_dropAll {A B} (g : A → B * addr) ps a (M : gmap addr A) :
  (∀ p x, M !! p = Some x → p ∈ ps ↔ (g x).2 = a) →
  g <$> dropAll ps M = filter (λ e, e.2.2 ≠ a) (g <$> M).
Proof.
  intros Hps. apply map_eq. intros p. rewrite lookup_fmap, lookup_dropAll, map_lookup_filter,
    lookup_fmap.
  destruct (M !! p) as [x|] eqn:E; simpl; [|by destruct (decide _)].
  specialize (Hps p x E). case_decide; simpl; case_guard; naive_solver.
Qed.

Lemma owned_delete i (a : addr) (l : list (option addr)) :
  (∀ j, l !! j = Some (Some a) → j = i) → l !! i = Some (Some a) →
  omap id (<[i := None]> l) = filter (.≠ a) (omap id l).
Proof.
  intros Hu Hi. rewrite <-(take_drop_middle l i (Some a) Hi) at 2.
  assert (i < length l)%nat by by eapply lookup_lt_Some.
  rewrite insert_take_drop by done. rewrite !omap_app, filter_app. simpl.
  rewrite filter_cons_False by naive_solver.
  assert (∀ l' : list (option addr), (∀ j, l' !! j ≠ Some (Some a)) → filter (.≠ a) (omap id l') = omap id l') as Hf.
  { intros l' Hl'. apply list_filter_all. apply Forall_forall. intros p Hp.
    apply elem_of_owned in Hp as [j Hj]. naive_solver. }
  f_equal; symmetry; apply Hf; intros j Hj.
  - assert (j < i)%nat by (apply lookup_lt_Some in Hj; rewrite length_take in Hj; lia).
    rewrite lookup_take_lt in Hj by done. apply Hu in Hj. lia.
  - rewrite lookup_drop in Hj. apply Hu in Hj. lia.
Qed.

Section store.
  Context `{TimeRep} {fid Ept : Type} `{!EqDecision fid}.
  Implicit Types s : held fid Ept.

(** ** The invariant *)

(** The holder of the federate object [h]: slots and messages point to each other, and the
    free list has each empty slot once. *)
Record holder_inv s (h : addr) (mh : MessageHolder) : Prop := {
  ho_slot i m : slots mh !! i = Some (Some m) → ∃ mo, msgObjs s !! m = Some mo ∧
    counter mo = Z.of_nat i ∧ backReference mo = Some h;
  ho_nodup : NoDup (freeMessageSlots mh);
  ho_free z : z ∈ freeMessageSlots mh ↔ ∃ i, z = Z.of_nat i ∧ slots mh !! i = Some None;
  ho_size : (length (slots mh) ≤ nextAddr s)%nat;
}.
Record fed_inv s (a : addr) (f : FedObject (fid := fid)) : Prop := {
  fi_fresh : (a < nextAddr s)%nat;
  fi_valid : fo_valid f = fedValidationIdentifier;
  fi_index : ∃ i, fo_index f = Z.of_nat i ∧ feds s !! i = Some (Some a);
  fi_epts (p : addr) : p ∈ fo_epts f → ∃ e, eptObjs s !! p = Some e ∧ eo_fed e = a;
  fi_holder : holder_inv s a (fo_messages f);
}.
Record held_inv s : Prop := {
  hi_fed (a : addr) f : fedObjs s !! a = Some f → fed_inv s a f;
  hi_slot i a : feds s !! i = Some (Some a) →
    ∃ f, fedObjs s !! a = Some f ∧ fo_index f = Z.of_nat i;
  hi_size : (length (feds s) ≤ nextAddr s)%nat;
  hi_ept (p : addr) e : eptObjs s !! p = Some e → (p < nextAddr s)%nat ∧
    eo_valid e = EndpointValidationIdentifier ∧
    ∃ f, fedObjs s !! eo_fed e = Some f ∧ p ∈ fo_epts f ∧ eo_fedptr e = fo_fedptr f;
  hi_msg (m : addr) mo : msgObjs s !! m = Some mo → (m < nextAddr s)%nat ∧
    messageValidation mo = messageKeyCode ∧
    ∃ h f i, backReference mo = Some h ∧ fedObjs s !! h = Some f ∧
      counter mo = Z.of_nat i ∧ slots (fo_messages f) !! i = Some (Some m);
}.

(** The handles that are alive in a store. *)
Definition abs s : ledger fid Ept := mkLedger
  ((λ f, (fo_type f, fo_fedptr f)) <$> fedObjs s)
  (omap id (feds s))
  ((λ e, (endPtr e, eo_fed e)) <$> eptObjs s)
  ((λ m, (content m, default O (backReference m))) <$> msgObjs s)
  (nextAddr s).
Definition stands_for s (l : ledger fid Ept) : Prop := held_inv s ∧ l = abs s.

Lemma newHeld_inv : stands_for newHeld newLedger.
Proof.
  split; [|by unfold abs; simpl; rewrite !fmap_empty].
  split; simpl; intros; rewrite ?lookup_empty in *; done.
Qed.

(** ** Reading *)

Lemma fedValid_agrees a : agrees stands_for (so_fedValid a) (so_fedValid a).
Proof.
  intros s l [Hi ->]. simpl. rewrite lookup_fmap.
  destruct (fedObjs s !! a) as [f|] eqn:E; [|done]. simpl.
  by rewrite (fi_valid _ _ _ (hi_fed _ Hi _ _ E)), Z.eqb_refl.
Qed.
Lemma eptValid_agrees a : agrees stands_for (so_eptValid a) (so_eptValid a).
Proof.
  intros s l [Hi ->]. simpl. rewrite lookup_fmap.
  destruct (eptObjs s !! a) as [e|] eqn:E; [|done]. simpl.
  apply Hi in E as (_ & -> & _). by rewrite Z.eqb_refl.
Qed.
Lemma msgValid_agrees a : agrees stands_for (so_msgValid a) (so_msgValid a).
Proof.
  intros s l [Hi ->]. simpl. rewrite lookup_fmap.
  destruct (msgObjs s !! a) as [m|] eqn:E; [|done]. simpl.
  apply Hi in E as (_ & -> & _). by rewrite Z.eqb_refl.
Qed.
Lemma holder_agrees a : agrees stands_for (so_holder a) (so_holder a).
Proof.
  intros s l [Hi ->]. simpl. rewrite lookup_fmap.
  destruct (msgObjs s !! a) as [m|] eqn:E; [|done]. simpl.
  by apply Hi in E as (_ & _ & h & f & i & -> & _).
Qed.

(** ** Messages *)

Lemma holder_change s h f mh M n :
  held_inv s → fedObjs s !! h = Some f → (nextAddr s ≤ n)%nat →
  (∀ m mo, backReference mo ≠ Some h → M !! m = Some mo ↔ msgObjs s !! m = Some mo) →
  (∀ (m : addr) mo, M !! m = Some mo → backReference mo = Some h → (m < n)%nat ∧
     messageValidation mo = messageKeyCode ∧
     ∃ i, counter mo = Z.of_nat i ∧ slots mh !! i = Some (Some m)) →
  holder_inv (s <| msgObjs := M |> <| nextAddr := n |>) h mh →
  held_inv (setHolder h f mh s <| msgObjs := M |> <| nextAddr := n |>).
Proof.
  intros Hi Hf Hn Hothers Hown Hmh. split; simpl.
  - intros a g [[<- <-]|[Hne Hg]]%lookup_insert_Some.
    + destruct (hi_fed _ Hi _ _ Hf) as [Ha Hv Hx He _]. split; simpl; try done; [lia|].
      by destruct Hmh.
    + destruct (hi_fed _ Hi _ _ Hg) as [Ha Hv Hx He [Hs Hd Hfr Hz]].
      split; simpl; try done; [lia|]. split; simpl; try done; [|lia].
      intros i m (mo & Hmo & Hc & Hb)%Hs. exists mo. split; [|done].
      apply Hothers; [congruence|done].
  - intros i a (g & Hg & Hx)%Hi. destruct (decide (h = a)) as [->|Hne].
    + exists (f <| fo_messages := mh |>). rewrite lookup_insert_eq. split; [done|].
      by simplify_eq.
    + exists g. by rewrite lookup_insert_ne.
  - pose proof (hi_size _ Hi). lia.
  - intros p e (Hp & Hv & g & Hg & Hin & Hk)%Hi. split; [lia|]. split; [done|].
    destruct (decide (h = eo_fed e)) as [Heq|Hne].
    + exists (f <| fo_messages := mh |>). rewrite <-Heq, Hf in Hg. injection Hg as <-.
      by rewrite Heq, lookup_insert_eq.
    + exists g. by rewrite lookup_insert_ne.
  - intros m mo Hmo. destruct (decide (backReference mo = Some h)) as [Hb|Hb].
    + destruct (Hown _ _ Hmo Hb) as (Hm & Hv & i & Hc & Hs). split; [done|]. split; [done|].
      exists h, (f <| fo_messages := mh |>), i. by rewrite lookup_insert_eq.
    + apply Hothers in Hmo; [|done]. apply Hi in Hmo as (Hm & Hv & h' & g & i & Hh & Hg & Hc & Hs).
      split; [lia|]. split; [done|]. exists h', g, i. rewrite lookup_insert_ne by congruence. done.
Qed.

(** The slot that a new message gets. *)
Lemma takeSlot_spec s h mh m mo :
  held_inv s → holder_inv s h mh → msgObjs s !! m = None →
  Z.of_nat (nextAddr s) < capacity - 1 → backReference mo = Some h →
  counter mo = (takeSlot m mh).1 →
  let mh' := (takeSlot m mh).2 in
  holder_inv (s <| msgObjs := <[m := mo]> (msgObjs s) |> <| nextAddr := S (nextAddr s) |>) h mh' ∧
  (∃ i, counter mo = Z.of_nat i ∧ slots mh' !! i = Some (Some m)) ∧
  (∀ i p, slots mh !! i = Some (Some p) → slots mh' !! i = Some (Some p)).
Proof.
  intros Hi [Hs Hd Hf Hz] Hm Hcap Hb. unfold takeSlot.
  destruct (freeMessageSlots mh) as [|z free] eqn:E; simpl; intros Hc.
  - rewrite to_sint_id in Hc by (unfold sint_range, capacity in *; simpl; lia).
    split; [split; simpl|split].
    + intros i p [Hp|[Hp [= <-]]]%lookup_snoc_Some.
      * destruct Hp as [_ (mo' & ? & ? & ?)%Hs]. exists mo'.
        rewrite lookup_insert_ne by congruence. done.
      * exists mo. rewrite lookup_insert_eq. subst. done.
    + constructor.
    + intros z. split; [by intros ?%not_elem_of_nil|]. intros (i & -> & Hp).
      apply lookup_snoc_Some in Hp as [[_ Hp]|[_ [=]]].
      apply Hf. naive_solver.
    + rewrite length_app. simpl. lia.
    + exists (length (slots mh)). split; [done|]. by apply list_lookup_middle.
    + intros i p Hp. by apply lookup_app_l_Some.
  - destruct (proj1 (Hf z)) as (i & -> & Hp); [set_solver|]. rewrite Nat2Z.id in *.
    apply NoDup_cons in Hd as [Hz' Hd].
    assert (i < length (slots mh))%nat as Hl by by eapply lookup_lt_Some.
    split; [split; simpl|split].
    + intros j p [(<- & [= <-] & _)|[Hne Hj]]%list_lookup_insert_Some.
      * exists mo. rewrite lookup_insert_eq. done.
      * apply Hs in Hj as (mo' & ? & ? & ?). exists mo'.
        rewrite lookup_insert_ne by congruence. done.
    + done.
    + intros z. split.
      * intros Hin. destruct (proj1 (Hf z)) as (j & -> & Hj); [set_solver|]. exists j.
        split; [done|]. rewrite list_lookup_insert_ne; [done|]. intros ->. done.
      * intros (j & -> & Hj). apply list_lookup_insert_Some in Hj as [(?&?&?)|[Hne Hj]]; [done|].
        assert (Z.of_nat j ∈ Z.of_nat i :: free) as Hin by (apply Hf; naive_solver).
        apply elem_of_cons in Hin as [Hin|]; [lia|done].
    + rewrite length_insert. lia.
    + exists i. split; [done|]. by apply list_lookup_insert_eq.
    + intros j p Hj. rewrite list_lookup_insert_ne; [done|]. intros ->. congruence.
Qed.

Lemma msg_fresh s : held_inv s → msgObjs s !! nextAddr s = None.
Proof.
  intros Hi. destruct (msgObjs s !! nextAddr s) eqn:E; [|done].
  apply Hi in E as [? _]. lia.
Qed.

Lemma addMessage_refines h m :
  refines stands_for lg_next (λ s, addMessage h m messageKeyCode s) (lg_addMsg h m).
Proof.
  intros s l [Hi ->]. unfold lg_addMsg, addMessage. simpl. rewrite lookup_fmap.
  destruct (fedObjs s !! h) as [f|] eqn:Hf; [|done]. simpl. split; [lia|]. intros Hcap.
  destruct (takeSlot (nextAddr s) (fo_messages f)) as [index mh] eqn:E.
  pose proof (msg_fresh s Hi) as Hm.
  destruct (takeSlot_spec s h (fo_messages f) (nextAddr s)
              (mkMessageObject m messageKeyCode index (Some h))) as (Hmh & Hslot & Hold);
    [done|by apply (fi_holder _ _ _ (hi_fed _ Hi _ _ Hf))|done|lia|done|by rewrite E|].
  rewrite E in Hmh, Hslot, Hold. simpl in Hmh, Hslot, Hold.
  eexists. split; [done|]. split.
  - refine (holder_change s h f mh
      (<[nextAddr s := mkMessageObject m messageKeyCode index (Some h)]> (msgObjs s))
      (S (nextAddr s)) Hi Hf _ _ _ Hmh); [lia|..].
    + intros p mo Hb. rewrite lookup_insert_Some. naive_solver.
    + intros p mo [[<- <-]|[Hne Hp]]%lookup_insert_Some Hb; [simpl; split; [lia|done]|].
      apply Hi in Hp as (Hp & Hv & h' & g & i & Hh & Hg & Hc & Hs). simplify_eq.
      split; [lia|]. split; [done|]. eauto.
  - unfold abs. simpl. rewrite !fmap_insert. simpl. f_equal.
    symmetry. apply insert_id. by rewrite lookup_fmap, Hf.
Qed.

(** A message leaves its slot. *)
Lemma releaseSlot s m mo h f i :
  held_inv s → msgObjs s !! m = Some mo → fedObjs s !! h = Some f →
  slots (fo_messages f) !! i = Some (Some m) →
  let mh := fo_messages f in
  stands_for
    (setHolder h f (mkHolder (<[i := None]> (slots mh)) (Z.of_nat i :: freeMessageSlots mh))
       (s <| msgObjs := delete m (msgObjs s) |>))
    ((abs s) <| lg_msgs := delete m (lg_msgs (abs s)) |>).
Proof.
  intros Hi Hm Hf Hs. cbv zeta. destruct (fi_holder _ _ _ (hi_fed _ Hi _ _ Hf)) as [Hsl Hd Hfr Hz].
  destruct (Hsl _ _ Hs) as (mo' & Hm' & Hc & Hb). rewrite Hm in Hm'. injection Hm' as <-.
  assert (i < length (slots (fo_messages f)))%nat as Hl by by eapply lookup_lt_Some.
  split.
  - apply (holder_change s h f _ (delete m (msgObjs s)) (nextAddr s) Hi Hf (le_n _)).
    + intros p mp Hne. rewrite lookup_delete_Some. naive_solver.
    + intros p mp [Hne Hp]%lookup_delete_Some Hbp.
      apply Hi in Hp as (? & ? & h' & g & j & Hh & Hg & Hcj & Hj). simplify_eq.
      split; [done|]. split; [done|]. exists j. split; [done|]. simpl.
      rewrite list_lookup_insert_ne; [done|]. congruence.
    + split; simpl.
      * intros j p [(_ & ? & _)|[Hne Hj]]%list_lookup_insert_Some; [done|].
        destruct (Hsl _ _ Hj) as (mp & Hp & Hcp & Hbp). exists mp. split; [|done].
        rewrite lookup_delete_ne; [done|]. intros ->. rewrite Hm in Hp. injection Hp as <-. lia.
      * apply NoDup_cons. split; [|done]. intros (j & Hj & Hn)%Hfr.
        apply Nat2Z.inj in Hj as <-. congruence.
      * intros z. rewrite elem_of_cons, Hfr. split.
        -- intros [->|(j & -> & Hj)]; [exists i; split; [done|by apply list_lookup_insert_eq]|].
           exists j. split; [done|]. rewrite list_lookup_insert_ne; [done|]. congruence.
        -- intros (j & -> & [(-> & _)|[_ Hj]]%list_lookup_insert_Some); eauto.
      * rewrite length_insert. done.
  - unfold abs. simpl. rewrite fmap_insert, fmap_delete. f_equal. symmetry.
    apply insert_id. by rewrite lookup_fmap, Hf.
Qed.

(** The slot that the members of a message name is its slot. *)
Lemma message_slot s m mo :
  held_inv s → msgObjs s !! m = Some mo → Z.of_nat (nextAddr s) < capacity →
  ∃ h f i, backReference mo = Some h ∧ fedObjs s !! h = Some f ∧ counter mo = Z.of_nat i ∧
    slots (fo_messages f) !! i = Some (Some m) ∧
    isValidSlot (counter mo) (length (slots (fo_messages f))) = true.
Proof.
  intros Hi Hm Hcap. destruct (hi_msg _ Hi _ _ Hm) as (_ & _ & h & f & i & Hb & Hf & Hc & Hs).
  exists h, f, i. do 4 (split; [done|]). rewrite Hc, isValidSlot_nat.
  - apply bool_decide_true. by eapply lookup_lt_Some.
  - pose proof (ho_size _ _ _ (fi_holder _ _ _ (hi_fed _ Hi _ _ Hf))). lia.
Qed.

Lemma extract_refines a : refines stands_for lg_next (so_extract a) (so_extract a).
Proof.
  intros s l [Hi ->]. simpl. rewrite lookup_fmap.
  destruct (msgObjs s !! a) as [mo|] eqn:Hm; [|done]. simpl. split; [done|]. intros Hcap.
  destruct (message_slot s a mo Hi Hm Hcap) as (h & f & i & Hb & Hf & Hc & Hs & Hv).
  rewrite Hb. simpl. unfold extractMessage. rewrite Hf. simpl. rewrite Hv, Hc, Nat2Z.id, Hs, Hm.
  eexists. split; [done|]. by eapply (releaseSlot s a mo).
Qed.
Lemma free_refines a :
  refines stands_for lg_next (giving_unit (so_free a)) (giving_unit (so_free a)).
Proof.
  intros s l [Hi ->]. unfold giving_unit. simpl. rewrite lookup_fmap.
  destruct (msgObjs s !! a) as [mo|] eqn:Hm; [|done]. simpl. split; [done|]. intros Hcap.
  destruct (message_slot s a mo Hi Hm Hcap) as (h & f & i & Hb & Hf & Hc & Hs & Hv).
  rewrite Hb. simpl. unfold freeMessage. rewrite Hf. simpl. rewrite Hv, Hc, Nat2Z.id, Hs, Hm.
  eexists. split; [done|]. by eapply (releaseSlot s a mo).
Qed.

(** The messages in the slots of a federate object are those that refer to it. *)
Lemma own_msgs s a f (m : addr) mo :
  held_inv s → fedObjs s !! a = Some f → msgObjs s !! m = Some mo →
  m ∈ omap id (slots (fo_messages f)) ↔ backReference mo = Some a.
Proof.
  intros Hi Hf Hm. rewrite elem_of_owned. split.
  - intros [j Hs]. apply (ho_slot _ _ _ (fi_holder _ _ _ (hi_fed _ Hi _ _ Hf))) in Hs
      as (mo' & Hm' & _ & Hb). congruence.
  - intros Hb. apply Hi in Hm as (_ & _ & h' & g & j & Hh & Hg & _ & Hs).
    exists j. congruence.
Qed.

Lemma clear_refines h :
  refines stands_for lg_next (giving_unit (so_clear h)) (giving_unit (so_clear h)).
Proof.
  intros s l [Hi ->]. unfold giving_unit. simpl. rewrite lookup_fmap.
  unfold clearMessages. destruct (fedObjs s !! h) as [f|] eqn:Hf; [|done]. simpl.
  split; [done|]. intros _. eexists. split; [done|].
  pose proof (λ m mo, own_msgs s h f m mo Hi Hf) as Hown.
  split.
  - apply (holder_change s h f (mkHolder [] []) (dropAll _ (msgObjs s)) (nextAddr s) Hi Hf (le_n _)).
    + intros m mo Hb. rewrite lookup_dropAll. case_decide as Hin; [|done].
      split; [done|]. intros Hm. by apply (Hown _ _ Hm) in Hin.
    + intros m mo Hm Hb. rewrite lookup_dropAll in Hm. case_decide as Hin; [done|].
      by apply (Hown _ _ Hm) in Hb.
    + split; simpl; [by intros ??|constructor| |lia]. intros z.
      split; [by intros ?%not_elem_of_nil|by intros (? & _ & ?)].
  - unfold abs. simpl. f_equal.
    + rewrite fmap_insert. symmetry. apply insert_id. by rewrite lookup_fmap, Hf.
    + symmetry. apply filter_dropAll. intros m mo Hm. rewrite (Hown _ _ Hm). simpl.
      apply Hi in Hm as (_ & _ & h' & g & i & -> & _). simpl. naive_solver.
Qed.

Lemma setMsg_refines a m :
  refines stands_for lg_next (giving_unit (so_setMsg a m)) (giving_unit (so_setMsg a m)).
Proof.
  intros s l [Hi ->]. unfold giving_unit. simpl. rewrite lookup_fmap.
  destruct (msgObjs s !! a) as [mo|] eqn:Hm; [|done]. simpl.
  split; [done|]. intros _. eexists. split; [done|].
  destruct (hi_msg _ Hi _ _ Hm) as (Ha & Hv & h & f & i & Hb & Hf & Hc & Hs). split.
  - pose proof (holder_change s h f (fo_messages f) (<[a := mo <| content := m |>]> (msgObjs s))
      (nextAddr s) Hi Hf (le_n _)) as Hch.
    unfold setHolder in Hch. simpl in Hch.
    replace (mkFedObject (fo_type f) (fo_index f) (fo_valid f) (fo_fedptr f) (fo_messages f)
               (fo_epts f)) with f in Hch by by destruct f.
    rewrite (insert_id (fedObjs s)) in Hch by done. apply Hch; clear Hch.
    + intros p mp Hne. rewrite lookup_insert_Some. naive_solver.
    + intros p mp [[<- <-]|[Hne Hp]]%lookup_insert_Some Hbp; [by eauto|].
      apply Hi in Hp as (? & ? & h' & g & j & Hh & Hg & Hcj & Hj). simplify_eq. eauto.
    + destruct (fi_holder _ _ _ (hi_fed _ Hi _ _ Hf)) as [Hsl Hd Hfr Hz]. split; simpl; try done.
      intros j p Hj. destruct (Hsl _ _ Hj) as (mp & Hp & Hcp & Hbp).
      destruct (decide (a = p)) as [<-|Hne];
        [rewrite lookup_insert_eq|rewrite lookup_insert_ne by done]; eauto.
      eexists. split; [done|]. by simplify_eq.
  - unfold abs. simpl. by rewrite fmap_insert.
Qed.

(** ** Endpoints and federate objects *)

Lemma holder_inv_next s s' h mh :
  msgObjs s' = msgObjs s → (nextAddr s ≤ nextAddr s')%nat →
  holder_inv s h mh → holder_inv s' h mh.
Proof. intros Hm Hn [Hs Hd Hf Hz]. split; rewrite ?Hm; try done. lia. Qed.

Lemma addEndpoint_refines a e :
  refines stands_for lg_next (so_addEndpoint a e) (so_addEndpoint a e).
Proof.
  intros s l [Hi ->]. simpl. rewrite lookup_fmap. unfold addEndpointObject.
  destruct (fedObjs s !! a) as [f|] eqn:Hf; [|done]. simpl. split; [lia|]. intros _.
  eexists. split; [done|].
  assert (eptObjs s !! nextAddr s = None) as Hnew.
  { destruct (eptObjs s !! nextAddr s) eqn:E; [|done]. apply Hi in E as [? _]. lia. }
  split; [|unfold abs; simpl; rewrite !fmap_insert; f_equal; symmetry; apply insert_id;
           by rewrite lookup_fmap, Hf].
  split; simpl.
  - intros b g [[<- <-]|[Hne Hg]]%lookup_insert_Some.
    + destruct (hi_fed _ Hi _ _ Hf) as [Hb Hv Hx He Hh]. split; simpl; try done; [lia| |].
      * intros p [Hp|Hp]%elem_of_app.
        -- apply He in Hp as (e' & Hp & He'). exists e'.
           rewrite lookup_insert_ne by congruence. done.
        -- apply list_elem_of_singleton in Hp as ->. eexists. by rewrite lookup_insert_eq.
      * eapply holder_inv_next; [..|done]; simpl; [done|lia].
    + destruct (hi_fed _ Hi _ _ Hg) as [Hb Hv Hx He Hh]. split; simpl; try done; [lia| |].
      * intros p (e' & Hp & He')%He. exists e'. rewrite lookup_insert_ne by congruence. done.
      * eapply holder_inv_next; [..|done]; simpl; [done|lia].
  - intros i b (g & Hg & Hx)%Hi. destruct (decide (a = b)) as [<-|Hne].
    + rewrite lookup_insert_eq. eexists. split; [done|]. simpl. congruence.
    + rewrite lookup_insert_ne by done. eauto.
  - pose proof (hi_size _ Hi). lia.
  - intros p e' [[<- <-]|[Hne Hp]]%lookup_insert_Some.
    + split; [lia|]. split; [done|]. simpl. eexists. rewrite lookup_insert_eq.
      split; [done|]. simpl. split; [|done]. set_solver.
    + apply Hi in Hp as (Hp & Hv & g & Hg & Hin & Hk). split; [lia|]. split; [done|].
      destruct (decide (a = eo_fed e')) as [Heq|Hne'].
      * rewrite <-Heq in *. rewrite lookup_insert_eq. eexists. split; [done|]. simpl.
        rewrite Hf in Hg. injection Hg as <-. set_solver.
      * rewrite lookup_insert_ne by done. eauto.
  - intros m mo (Hm & Hv & h & g & i & Hb & Hg & Hc & Hs)%Hi. split; [lia|]. split; [done|].
    destruct (decide (a = h)) as [<-|Hne].
    + eexists a, _, i. rewrite lookup_insert_eq. split; [done|]. split; [done|]. simpl.
      rewrite Hf in Hg. by injection Hg as <-.
    + exists h, g, i. by rewrite lookup_insert_ne.
Qed.

Lemma newFed_refines t k :
  refines stands_for lg_next (Some ∘ so_newFed t k) (Some ∘ so_newFed t k).
Proof.
  intros s l [Hi ->]. simpl. split; [lia|]. intros Hcap. eexists. split; [done|].
  pose proof (hi_size _ Hi) as Hz.
  assert (fedObjs s !! nextAddr s = None) as Hnew.
  { destruct (fedObjs s !! nextAddr s) eqn:E; [|done].
    pose proof (fi_fresh _ _ _ (hi_fed _ Hi _ _ E)). lia. }
  rewrite to_sint_id by (unfold sint_range, capacity in *; simpl; lia).
  split; [|unfold abs; simpl; by rewrite fmap_insert, omap_app].
  split; simpl.
  - intros b g [[<- <-]|[Hne Hg]]%lookup_insert_Some.
    + split; simpl; [lia|done| |by intros ? ?%not_elem_of_nil|].
      * eexists. split; [done|]. by apply list_lookup_middle.
      * split; simpl; [done|constructor| |lia]. intros z.
        split; [by intros ?%not_elem_of_nil|by intros (? & _ & ?)].
    + destruct (hi_fed _ Hi _ _ Hg) as [Hb Hv (i & Hx & Hs) He Hh]. split; simpl; try done.
      * lia.
      * exists i. split; [done|]. by apply lookup_app_l_Some.
      * eapply holder_inv_next; [..|done]; simpl; [done|lia].
  - intros i a [[_ (g & Hg & Hx)%Hi]|[-> [= <-]]]%lookup_snoc_Some.
    + exists g. rewrite lookup_insert_ne by congruence. done.
    + eexists. by rewrite lookup_insert_eq.
  - rewrite length_app. simpl. lia.
  - intros p e (Hp & Hv & g & Hg & Hin & Hk)%Hi. split; [lia|]. split; [done|].
    exists g. rewrite lookup_insert_ne by congruence. done.
  - intros m mo (Hm & Hv & h & g & i & Hb & Hg & Hc & Hs)%Hi. split; [lia|]. split; [done|].
    exists h, g, i. rewrite lookup_insert_ne by congruence. done.
Qed.

(** ** The end of a federate object *)

Section drop.
  Context s (Hi : held_inv s) (i : nat) (a : addr) (f : FedObject (fid := fid)).
  Context (Hslot : feds s !! i = Some (Some a)) (Hf : fedObjs s !! a = Some f).

Lemma slot_unique j : feds s !! j = Some (Some a) → j = i.
Proof.
  intros Hj. apply Hi in Hj as (g & Hg & Hx). apply Hi in Hslot as (g' & Hg' & Hx').
  rewrite Hg in Hg'. injection Hg' as <-. lia.
Qed.
Lemma own_epts p e : eptObjs s !! p = Some e → p ∈ fo_epts f ↔ eo_fed e = a.
Proof.
  intros Hp. split.
  - intros (e' & Hp' & He)%(fi_epts _ _ _ (hi_fed _ Hi _ _ Hf)). congruence.
  - intros He. apply Hi in Hp as (_ & _ & g & Hg & Hin & _). congruence.
Qed.

Definition dropped : held fid Ept :=
  mkHeld (delete a (fedObjs s)) (dropAll (fo_epts f) (eptObjs s))
    (dropAll (omap id (slots (fo_messages f))) (msgObjs s)) (<[i := None]> (feds s)) (nextAddr s).

Lemma dropped_inv : held_inv dropped.
Proof.
  split; simpl.
  - intros b g [Hne Hg]%lookup_delete_Some.
    destruct (hi_fed _ Hi _ _ Hg) as [Hb Hv (j & Hx & Hs) He [Hsl Hd Hfr Hz]].
    split; simpl; try done.
    + exists j. split; [done|]. rewrite list_lookup_insert_ne; [done|]. congruence.
    + intros p (e & Hp & Hep)%He. exists e. rewrite lookup_dropAll, decide_False; [done|].
      rewrite (own_epts _ _ Hp). congruence.
    + split; simpl; try done. intros j' m (mo & Hm & Hc & Hbr)%Hsl. exists mo.
      rewrite lookup_dropAll, decide_False; [done|]. rewrite (own_msgs _ _ _ _ _ Hi Hf Hm). congruence.
  - intros j b [(_ & ? & _)|[Hne Hj]]%list_lookup_insert_Some; [done|].
    destruct (hi_slot _ Hi _ _ Hj) as (g & Hg & Hx). exists g.
    rewrite lookup_delete_ne; [done|]. intros <-. by apply Hne, eq_sym, slot_unique.
  - rewrite length_insert. apply Hi.
  - intros p e Hp. rewrite lookup_dropAll in Hp. case_decide as Hin; [done|].
    rewrite (own_epts _ _ Hp) in Hin.
    apply Hi in Hp as (Hp & Hv & g & Hg & Hing & Hk). do 2 (split; [done|]).
    exists g. rewrite lookup_delete_ne; [done|]. congruence.
  - intros m mo Hm. rewrite lookup_dropAll in Hm. case_decide as Hin; [done|].
    rewrite (own_msgs _ _ _ _ _ Hi Hf Hm) in Hin.
    apply Hi in Hm as (Hm & Hv & h & g & j & Hb & Hg & Hc & Hs). do 2 (split; [done|]).
    exists h, g, j. rewrite lookup_delete_ne; [done|]. congruence.
Qed.

Lemma dropped_abs :
  lg_freeFed a (abs s) =
    Some (abs dropped, if bool_decide (map_Exists (λ _ x, x.2 = fo_fedptr f) (lg_feds (abs dropped)))
                       then [] else [fo_fedptr f]).
Proof.
  unfold lg_freeFed. simpl. rewrite lookup_fmap, Hf. simpl. rewrite <-fmap_delete.
  do 2 f_equal. unfold abs. simpl. f_equal.
  - symmetry. apply owned_delete; [|done]. apply slot_unique.
  - symmetry. apply filter_dropAll. intros p e Hp. by rewrite (own_epts _ _ Hp).
  - symmetry. apply filter_dropAll. intros m mo Hm. rewrite (own_msgs _ _ _ _ _ Hi Hf Hm). simpl.
    apply Hi in Hm as (_ & _ & h & g & j & -> & _). simpl. naive_solver.
Qed.
End drop.

(** Endpoints keep no federate that is not kept by their federate object. *)
Lemma referred_abs s k :
  held_inv s → referred k s = bool_decide (map_Exists (λ _ x, x.2 = k) (lg_feds (abs s))).
Proof.
  intros Hi. apply eq_bool_prop_intro. unfold referred. rewrite bool_decide_spec.
  rewrite orb_True, !existb_True, !Exists_exists. split.
  - intros [([a f] & Hin & Hk)|([p e] & Hin & Hk)]; apply elem_of_map_to_list in Hin;
      apply bool_decide_spec in Hk; simpl in Hk.
    + exists a, (fo_type f, fo_fedptr f). simpl. by rewrite lookup_fmap, Hin.
    + apply Hi in Hin as (_ & _ & f & Hf & _ & Hfk). exists (eo_fed e), (fo_type f, fo_fedptr f).
      simpl. rewrite lookup_fmap, Hf. split; [done|]. congruence.
  - intros (a & x & Ha & Hk). simpl in Ha. rewrite lookup_fmap in Ha.
    apply fmap_Some in Ha as (f & Hf & ->). left. exists (a, f).
    rewrite elem_of_map_to_list. split; [done|]. by apply bool_decide_spec.
Qed.

Lemma dropSlot_spec s i a :
  held_inv s → feds s !! i = Some (Some a) →
  ∃ s' dead, dropSlot i s = Some (s', dead) ∧ stands_for s' (abs s') ∧
    lg_freeFed a (abs s) = Some (abs s', dead) ∧
    feds s' = <[i := None]> (feds s) ∧ nextAddr s' = nextAddr s.
Proof.
  intros Hi Hs. destruct (hi_slot _ Hi _ _ Hs) as (f & Hf & _).
  exists (dropped s i a f). eexists. unfold dropSlot, destroyFed. rewrite Hs. simpl. rewrite Hf.
  simpl. pose proof (dropped_inv s Hi i a f Hs Hf) as Hinv.
  split; [done|]. split; [done|]. split; [|done].
  rewrite (dropped_abs s Hi i a f Hs Hf). do 2 f_equal.
  rewrite <-(referred_abs (dropped s i a f)) by done. done.
Qed.

(** The object is marked as not valid before it goes. *)
Lemma dropSlot_invalid s i a f :
  feds s !! i = Some (Some a) → fedObjs s !! a = Some f →
  dropSlot i (s <| fedObjs := <[a := f <| fo_valid := 0 |>]> (fedObjs s) |>) = dropSlot i s.
Proof.
  intros Hs Hf. unfold dropSlot, destroyFed. simpl. rewrite Hs. simpl.
  rewrite lookup_insert_eq, Hf. simpl. by rewrite delete_insert_eq.
Qed.

Lemma none_left s :
  held_inv s → (∀ i a, feds s !! i ≠ Some (Some a)) →
  stands_for (s <| feds := [] |>) (abs s).
Proof.
  intros Hi Hnone.
  assert (fedObjs s = ∅) as Hf.
  { apply map_empty. intros a. destruct (fedObjs s !! a) as [f|] eqn:E; [|done].
    destruct (fi_index _ _ _ (hi_fed _ Hi _ _ E)) as (i & _ & Hs). by destruct (Hnone i a). }
  split.
  - split; simpl.
    + intros a f E. by rewrite Hf, lookup_empty in E.
    + by intros ? ?.
    + lia.
    + intros p e (_ & _ & f & E & _)%Hi. by rewrite Hf, lookup_empty in E.
    + intros m mo (_ & _ & h & f & i & _ & E & _)%Hi. by rewrite Hf, lookup_empty in E.
  - unfold abs. simpl. f_equal.
    destruct (omap id (feds s)) as [|a l] eqn:E; [done|].
    assert (a ∈ omap id (feds s)) as [i Hs]%elem_of_owned by (rewrite E; set_solver).
    by destruct (Hnone i a).
Qed.

Lemma freeFed_refines a : refines stands_for lg_next (so_freeFed a) (so_freeFed a).
Proof.
  intros s l [Hi ->]. cbn [so_freeFed held_store ledger_store].
  destruct (fedObjs s !! a) as [f|] eqn:Hf;
    [|unfold lg_freeFed; simpl; by rewrite lookup_fmap, Hf].
  destruct (fi_index _ _ _ (hi_fed _ Hi _ _ Hf)) as (i & Hx & Hs).
  destruct (dropSlot_spec s i a Hi Hs) as (s' & dead & Hd & [Hi' _] & -> & Hfeds & Hn).
  split; [simpl; lia|]. intros Hcap. simpl in Hcap.
  pose proof (dropSlot_invalid s i a f Hs Hf) as Hinv.
  assert (i < length (feds s))%nat by by eapply lookup_lt_Some.
  pose proof (hi_size _ Hi). unfold clearFed.
  cbn [mbind option_bind].
  set (s0 := s <| fedObjs := _ |>) in *. change (feds s0) with (feds s).
  rewrite Hx, isValidSlot_nat, bool_decide_true, Nat2Z.id, Hinv by lia.
  rewrite Hd. cbn [mbind option_bind]. eexists. split; [done|].
  destruct (_ && _) eqn:Hall; [|done]. apply andb_prop in Hall as [_ Hall].
  apply none_left; [done|]. intros j b Hj. rewrite forallb_forall in Hall.
  specialize (Hall (Some b)). rewrite bool_decide_true in Hall by eauto.
  discriminate Hall. apply list_elem_of_In. by eapply list_elem_of_lookup_2.
Qed.

(** The elements of [feds] go one after the other. *)
Lemma clearSlots_spec n : ∀ i s,
  held_inv s → (i + n)%nat = length (feds s) →
  (∀ j b, (j < i)%nat → feds s !! j ≠ Some (Some b)) →
  ∃ s' dead, clearSlots i n s = (s', dead) ∧ held_inv s' ∧
    (∀ j b, feds s' !! j ≠ Some (Some b)) ∧ nextAddr s' = nextAddr s ∧
    lg_freeAll (omap id (drop i (feds s))) (abs s) = (abs s', dead).
Proof.
  induction n as [|n IH]; intros i s Hi Hlen Hnone.
  - exists s, []. simpl. do 2 (split; [done|]). split.
    + intros j b Hj. apply (Hnone j b); [|done]. apply lookup_lt_Some in Hj. lia.
    + split; [done|]. by rewrite drop_ge by lia.
  - destruct (lookup_lt_is_Some_2 (feds s) i) as [[a|] Hs]; [lia|..].
    + destruct (dropSlot_spec s i a Hi Hs) as (s1 & dead & Hd & [Hi1 _] & Hfree & Hfeds & Hn).
      destruct (IH (S i) s1) as (s' & more & Hc & Hi' & Hnone' & Hn' & Hmore); [done|..].
      { rewrite Hfeds, length_insert. lia. }
      { intros j b Hj. rewrite Hfeds. intros [(_ & ? & _)|[Hne Hb]]%list_lookup_insert_Some; [done|].
        apply (Hnone j b); [lia|done]. }
      exists s', (dead ++ more). simpl. rewrite Hd, Hc. do 3 (split; [done|]). split; [congruence|].
      rewrite (drop_S _ _ _ Hs). simpl. rewrite Hfree.
      rewrite Hfeds, drop_insert_lt in Hmore by lia.
      change (list_omap _ _ id) with (@omap list list_omap (option addr) addr id). by rewrite Hmore.
    + destruct (IH (S i) s) as (s' & more & Hc & Hrest); [done|lia|..].
      { intros j b Hj Hb. destruct (decide (j = i)) as [->|]; [congruence|].
        apply (Hnone j b); [lia|done]. }
      exists s', more. simpl. unfold dropSlot. rewrite Hs, Hc. split; [done|].
      rewrite (drop_S _ _ _ Hs). simpl. done.
Qed.

Lemma clearFeds_refines :
  refines stands_for lg_next (Some ∘ so_clearFeds) (Some ∘ so_clearFeds).
Proof.
  intros s l [Hi ->]. simpl.
  destruct (clearSlots_spec (length (feds s)) 0 s) as (s' & dead & Hc & Hi' & Hnone & Hn & Hall);
    [done|done|lia|].
  rewrite drop_0 in Hall. rewrite Hall. simpl. split; [lia|]. intros _.
  unfold clearFeds. rewrite Hc. eexists. split; [done|]. by apply none_left.
Qed.

#[export] Instance held_refines : StoreSim (fid := fid) (Ept := Ept) stands_for lg_next.
Proof.
  split.
  - apply newFed_refines.
  - apply fedValid_agrees.
  - intros a s l [_ ->]. simpl. by rewrite lookup_fmap.
  - apply freeFed_refines.
  - by intros s l [_ ->].
  - apply clearFeds_refines.
  - apply addEndpoint_refines.
  - apply eptValid_agrees.
  - intros a s l [_ ->]. simpl. by rewrite lookup_fmap.
  - intros a. apply addMessage_refines.
  - apply addMessage_refines.
  - apply msgValid_agrees.
  - intros a s l [_ ->]. simpl. rewrite lookup_fmap. by destruct (msgObjs s !! a).
  - apply setMsg_refines.
  - apply holder_agrees.
  - apply extract_refines.
  - apply free_refines.
  - apply clear_refines.
Qed.

Lemma freeFed_next a (l l' : ledger fid Ept) dead :
  lg_freeFed a l = Some (l', dead) → lg_next l' = lg_next l.
Proof. unfold lg_freeFed. destruct (lg_feds l !! a) as [[t k]|]; intros; by simplify_eq/=. Qed.
Lemma freeAll_next order : ∀ l : ledger fid Ept, lg_next (lg_freeAll order l).1 = lg_next l.
Proof.
  induction order as [|a order IH]; intros l; simpl; [done|].
  destruct (lg_freeFed a l) as [[l1 dead]|] eqn:E; [|apply IH].
  apply freeFed_next in E. specialize (IH l1).
  destruct (lg_freeAll order l1) as [l2 more]. simpl in *. congruence.
Qed.
#[export] Instance ledger_grows : StoreGrows (fid := fid) (Ept := Ept) lg_next.
Proof.
  split.
  2: { intros a l l' x E. apply freeFed_next in E. lia. }
  2: { intros l l' x E. simpl in E. pose proof (freeAll_next (lg_order l) l) as Hn.
       destruct (lg_freeAll _ l); simplify_eq/=. lia. }
  all: intros; intros l l' x E; unfold giving_unit in *; simpl in E; unfold lg_addMsg in *;
    repeat case_match; simplify_option_eq; repeat case_match; simplify_eq/=; lia.
Qed.
End store.
