(* ===== verification/CApi.v ===== *)
(** * The C interface (src/src/helics/shared_api_library)

    The functions on federates, endpoints and messages of FederateExport.cpp,
    MessageFederateExport.cpp and helicsExport.cpp, over the class [ObjectStore] of the
    objects behind their pointers and the class [Federates] of the C++ library below.
    A call has an error object, or a null pointer in its place; the text in an error
    object is left out.  A C string is a [string], and a null pointer [None].  A result is a
    value, an exception that leaves the function, or [NullPointer] for the use of a pointer
    to no object. *)

From stdpp Require Import strings gmap.
From S2P Require Import Prelude HelicsTime Flags ActionMessage FilterOperations AppMonad.
From S2P Require Import AppFederate CObjects.

(** ** Error codes *)

(** [helics_error_types] *)
Abbreviation helics_ok := (0)%Z (only parsing).
Abbreviation helics_error_registration_failure := (-1)%Z (only parsing).
Abbreviation helics_error_connection_failure := (-2)%Z (only parsing).
Abbreviation helics_error_invalid_object := (-3)%Z (only parsing).
Abbreviation helics_error_invalid_argument := (-4)%Z (only parsing).
Abbreviation helics_error_system_failure := (-6)%Z (only parsing).
Abbreviation helics_error_invalid_function_call := (-10)%Z (only parsing).
Abbreviation helics_error_insufficient_space := (-18)%Z (only parsing).
Abbreviation helics_error_other := (-101)%Z (only parsing).
Abbreviation helics_error_external_type := (-203)%Z (only parsing).

(** The code for the exception that [helicsErrorHandler] catches. *)
Definition errorCode (e : exception) : Z :=
  match e with
  | InvalidFunctionCall => helics_error_invalid_function_call
  | InvalidParameter => helics_error_invalid_argument
  | RegistrationFailure => helics_error_registration_failure
  | ConnectionFailure => helics_error_connection_failure
  | InvalidIdentifier => helics_error_invalid_object
  | HelicsSystemFailure => helics_error_system_failure
  | FunctionExecutionFailure | OtherHelicsException => helics_error_other
  | StdException => helics_error_external_type
  end.

(** ** The library below *)

(** The methods of [Federate] that the interface calls, with the type of their results. *)
Inductive fed_method : Type → Type :=
  | fm_enterInitializingMode : fed_method unit
  | fm_enterInitializingModeAsync : fed_method unit
  | fm_enterInitializingModeComplete : fed_method unit
  | fm_enterExecutingMode (iterate : iteration_request) : fed_method iteration_result
  | fm_enterExecutingModeAsync (iterate : iteration_request) : fed_method unit
  | fm_enterExecutingModeComplete : fed_method iteration_result
  | fm_requestTime (t : Time) : fed_method Time
  | fm_requestTimeAdvance (dt : Time) : fed_method Time
  | fm_requestNextStep : fed_method Time
  | fm_requestTimeIterative (t : Time) (iterate : iteration_request)
      : fed_method (Time * iteration_result)
  | fm_requestTimeAsync (t : Time) : fed_method unit
  | fm_requestTimeIterativeAsync (t : Time) (iterate : iteration_request) : fed_method unit
  | fm_requestTimeComplete : fed_method Time
  | fm_requestTimeIterativeComplete : fed_method (Time * iteration_result)
  | fm_finalize : fed_method unit
  | fm_finalizeAsync : fed_method unit
  | fm_finalizeComplete : fed_method unit
  | fm_localError (code : Z) (text : string) : fed_method unit
  | fm_globalError (code : Z) (text : string) : fed_method unit
  | fm_isAsyncOperationCompleted : fed_method bool
  | fm_getCurrentMode : fed_method modes
  | fm_getCurrentTime : fed_method Time.

(** Federates ([fid] points to one) and endpoints ([Ept]) in the state [W] of the library;
    [FI] is a [FederateInfo].  [f_isMessage] is the [dynamic_cast] to a message federate,
    [f_destroy] the destructor, and an endpoint sends to its default destination when none
    is given. *)
Class Federates `{TimeRep} (W fid Ept FI : Type) := {
  fi_new : FI;
  f_construct : vtype → string → FI → W → W * result fid;
  f_configure : vtype → string → W → W * result fid;
  f_destroy : fid → W → W;
  f_getName : fid → W → string;
  f_isMessage : fid → W → bool;
  f_call : ∀ {A}, fed_method A → fid → W → W * result A;
  f_registerEndpoint : bool → string → string → fid → W → W * result Ept;
  f_getEndpoint : string → fid → W → W * result Ept;
  f_getEndpointAt : Z → fid → W → W * result Ept;
  f_getEndpointCount : fid → W → W * result Z;
  f_hasMessage : fid → W → W * result bool;
  f_pendingMessages : fid → W → W * result Z;
  f_getMessage : fid → W → W * result (option Message);
  e_isValid : Ept → W → W * result bool;
  e_getName : Ept → W → W * result string;
  e_getDefaultDestination : Ept → W → W * result string;
  e_setDefaultDestination : string → Ept → W → W * result unit;
  e_send : option string → string → option Time → Ept → W → W * result unit;
  e_sendMessage : Message → Ept → W → W * result unit;
  e_hasMessage : Ept → W → W * result bool;
  e_pendingMessages : Ept → W → W * result Z;
  e_getMessage : Ept → W → W * result (option Message);
}.

(** [double] as a time *)
Class CTime `{TimeRep} (double : Type) := {
  toTime : double → Time;
  fromTime : Time → double;
  helics_time_zero : double;
  helics_time_invalid : double;
  helics_time_maxtime : double;
}.

Section api.
  Context `{TimeRep} {W fid Ept FI double S : Type}.
  Context `{!Federates W fid Ept FI} `{!CTime double} `{!ObjectStore fid Ept S}.

(** ** Calls *)

Definition FederateInfoValidationIdentifier : Z := 0x6bfbbce1.

(** The state of a call: the objects, the C++ library, the [FederateInfo] objects with their
    keys, and the code in the error object, [None] for a null pointer. *)
Record c_state := mkC {
  store : S;
  world : W;
  infos : list (option (FI * Z));
  err : option Z;
}.
#[export] Instance eta_c_state : Eta c_state := λ c,
  mkC (store c) (world c) (infos c) (err c).
Abbreviation cM := (excM c_state Empty_set).

Definition read {A} (g : S → option A) : cM A := λ c,
  match g (store c) with Some a => (c, [], Value a) | None => (c, [], NullPointer) end.
Definition change {A} (g : S → option (S * A)) : cM A := λ c,
  match g (store c) with
  | Some (s, a) => (c <| store := s |>, [], Value a)
  | None => (c, [], NullPointer)
  end.
Definition onWorld {A} (g : W → W * result A) : cM A := λ c,
  let '(w, r) := g (world c) in (c <| world := w |>, [], r).

(** A member of the state. *)
Definition gets {A} (g : c_state → A) : cM A := λ c, (c, [], Value (g c)).

(** A call with a null pointer for the error object. *)
Definition noErr {A} (m : cM A) : cM A := λ c,
  let '(c', out, r) := m (c <| err := None |>) in (c' <| err := err c |>, out, r).

Definition assignError (code : Z) : cM unit :=
  app_modify (λ c, c <| err := (λ _, code) <$> err c |>).
Definition helicsErrorHandler (e : exception) : cM unit := assignError (errorCode e).
Definition helicsErrorClear : cM unit := assignError helics_ok.
(** [HELICS_ERROR_CHECK] before what follows. *)
Definition errorCheck {A} (retval : A) (m : cM A) : cM A :=
  code ← gets err;
  if default helics_ok code =? helics_ok then m else mret retval.
(** [try { m } catch (...) { helicsErrorHandler(err); return retval; }] *)
Definition guarded {A} (retval : A) (m : cM A) : cM A :=
  app_catch any_exception m (λ e, _ ← helicsErrorHandler e; mret retval).
Definition ifSome {A B} (o : option A) (d : B) (k : A → cM B) : cM B :=
  match o with Some a => k a | None => mret d end.
(** [AS_STRING] *)
Definition as_string (str : option string) : string := default "" str.

(** ** Federate objects *)

Definition getFedObject (fed : option addr) : cM (option addr) :=
  errorCheck None
    match fed with
    | None => _ ← assignError helics_error_invalid_object; mret None
    | Some a =>
        valid ← read (so_fedValid a);
        if (valid : bool) then mret (Some a)
        else _ ← assignError helics_error_invalid_object; mret None
    end.
Definition getFed (fed : option addr) : cM (option fid) :=
  o ← getFedObject fed;
  ifSome o None (λ a, '(_, k) ← read (so_fed a); mret (Some k)).
Definition getMessageFed (fed : option addr) : cM (option fid) :=
  o ← getFedObject fed;
  ifSome o None (λ a,
    '(type, k) ← read (so_fed a);
    isMessage ← onWorld (λ w, (w, Value (f_isMessage k w)));
    if match type with message_fed | combination_fed => true | _ => false end && isMessage
    then mret (Some k)
    else _ ← assignError helics_error_invalid_object; mret None).

(** *** Information for new federates *)

Definition helicsCreateFederateInfo : cM (option addr) :=
  l ← gets infos;
  _ ← app_modify (λ c, c <| infos := l ++ [Some (fi_new, FederateInfoValidationIdentifier)] |>);
  mret (Some (length l)).
Definition infoAt (a : addr) : cM (FI * Z) :=
  l ← gets infos;
  match l !! a with Some (Some i) => mret i | _ => app_null end.
Definition getFedInfo (fi : option addr) : cM (option addr) :=
  errorCheck None
    match fi with
    | None => _ ← assignError helics_error_invalid_object; mret None
    | Some a =>
        '(_, uniqueKey) ← infoAt a;
        if uniqueKey =? FederateInfoValidationIdentifier then mret (Some a)
        else _ ← assignError helics_error_invalid_object; mret None
    end.
Definition helicsFederateInfoClone (fi : option addr) : cM (option addr) :=
  o ← getFedInfo fi;
  ifSome o None (λ a,
    i ← infoAt a;
    l ← gets infos;
    _ ← app_modify (λ c, c <| infos := l ++ [Some i] |>);
    mret (Some (length l))).
Definition helicsFederateInfoFree (fi : option addr) : cM unit :=
  o ← noErr (getFedInfo fi);
  ifSome o tt (λ a, app_modify (λ c, c <| infos := <[a := None]> (infos c) |>)).

(** *** Making and freeing federates *)

(** The end of the functions that create a federate. *)
Definition holdFederate (type : vtype) (o : option fid) : cM (option addr) :=
  ifSome o None (λ k, a ← change (Some ∘ so_newFed type k); mret (Some a)).
(** [helicsCreateValueFederate], [helicsCreateMessageFederate] and
    [helicsCreateCombinationFederate] *)
Definition helicsCreateFederate (type : vtype) (fedName : option string) (fi : option addr)
    : cM (option addr) :=
  errorCheck None
    (o ← guarded None
           match fi with
           | None =>
               k ← onWorld (f_construct type (as_string fedName) fi_new); mret (Some k)
           | Some _ =>
               info ← getFedInfo fi;
               ifSome info None (λ a,
                 '(i, _) ← infoAt a;
                 k ← onWorld (f_construct type (as_string fedName) i);
                 mret (Some k))
           end;
     holdFederate type o).
Definition helicsCreateFederateFromConfig (type : vtype) (configFile : option string)
    : cM (option addr) :=
  errorCheck None
    (o ← guarded None (k ← onWorld (f_configure type (as_string configFile)); mret (Some k));
     holdFederate type o).
Definition helicsFederateClone (fed : option addr) : cM (option addr) :=
  o ← getFedObject fed;
  ifSome o None (λ a, '(type, k) ← read (so_fed a); holdFederate type (Some k)).
Definition helicsFederateIsValid (fed : option addr) : cM bool :=
  o ← noErr (getFed fed); ifSome o false (λ _, mret true).

(** The destructors of federates. *)
Fixpoint destroyFederates (dead : list fid) : cM unit :=
  match dead with
  | [] => mret tt
  | k :: dead => _ ← onWorld (λ w, (f_destroy k w, Value tt)); destroyFederates dead
  end.
(** The cores that are not used any more are the factory's to clean up. *)
Definition helicsFederateFree (fed : option addr) : cM unit :=
  o ← noErr (getFedObject fed);
  ifSome o tt (λ a, dead ← change (so_freeFed a); destroyFederates dead).

Fixpoint findFedIn (fedName : string) (l : list addr) : cM (option addr) :=
  match l with
  | [] => mret None
  | a :: l =>
      '(_, k) ← read (so_fed a);
      name ← onWorld (λ w, (w, Value (f_getName k w)));
      if String.eqb name fedName then mret (Some a) else findFedIn fedName l
  end.
Definition findFed (fedName : string) : cM (option addr) :=
  l ← read (Some ∘ so_feds); findFedIn fedName l.
Definition helicsGetFederateByName (fedName : option string) : cM (option addr) :=
  errorCheck None
    match fedName with
    | None => _ ← assignError helics_error_invalid_argument; mret None
    | Some name =>
        fed ← findFed name;
        match fed with
        | None => _ ← assignError helics_error_invalid_argument; mret None
        | Some _ => helicsFederateClone fed
        end
    end.

(** [deleteAll], for federates, while the program is not at its end *)
Fixpoint finalizeAll (l : list addr) : cM unit :=
  match l with
  | [] => mret tt
  | a :: l =>
      '(_, k) ← read (so_fed a);
      _ ← onWorld (f_call fm_finalize k);
      finalizeAll l
  end.
Definition deleteAll : cM unit :=
  l ← read (Some ∘ so_feds);
  _ ← finalizeAll l;
  dead ← change (Some ∘ so_clearFeds);
  destroyFederates dead.
Definition helicsCloseLibrary : cM unit := deleteAll.

(** ** The life of a federate *)

(** The pattern of these functions: a method of the federate is called, its result
    converted, and an exception goes to the error object. *)
Definition fedCall {A B} (fed : option addr) (retval : B) (m : fed_method A) (conv : A → B)
    : cM B :=
  o ← getFed fed;
  ifSome o retval (λ k, guarded retval (a ← onWorld (f_call m k); mret (conv a))).

Definition getIterationRequest (iterate : Z) : iteration_request :=
  if iterate =? 1 then force_iteration
  else if iterate =? 2 then iterate_if_needed else no_iterations.
Abbreviation helics_iteration_result_error := (1)%Z (only parsing).
Definition getIterationStatus (r : iteration_result) : Z :=
  match r with ir_next_step => 0 | ir_error => 1 | ir_halted => 2 | ir_iterating => 3 end.
(** [(t < Time::maxVal()) ? static_cast<double>(t) : helics_time_maxtime] *)
Definition returnedTime (t : Time) : double :=
  if t <? Time_maxVal then fromTime t else helics_time_maxtime.
Definition returnedIteration (r : Time * iteration_result) : double * Z :=
  (returnedTime r.1, getIterationStatus r.2).

Definition helicsFederateFinalize fed : cM unit := fedCall fed tt fm_finalize id.
Definition helicsFederateFinalizeAsync fed : cM unit := fedCall fed tt fm_finalizeAsync id.
Definition helicsFederateFinalizeComplete fed : cM unit := fedCall fed tt fm_finalizeComplete id.
Definition helicsFederateEnterInitializingMode fed : cM unit :=
  fedCall fed tt fm_enterInitializingMode id.
Definition helicsFederateEnterInitializingModeAsync fed : cM unit :=
  fedCall fed tt fm_enterInitializingModeAsync id.
Definition helicsFederateEnterInitializingModeComplete fed : cM unit :=
  fedCall fed tt fm_enterInitializingModeComplete id.
Definition helicsFederateIsAsyncOperationCompleted fed : cM bool :=
  o ← getFed fed;
  ifSome o false (λ k, onWorld (f_call fm_isAsyncOperationCompleted k)).
Definition helicsFederateEnterExecutingMode fed : cM unit :=
  fedCall fed tt (fm_enterExecutingMode no_iterations) (λ _, tt).
Definition helicsFederateEnterExecutingModeIterative fed (iterate : Z) : cM Z :=
  fedCall fed helics_iteration_result_error (fm_enterExecutingMode (getIterationRequest iterate))
    getIterationStatus.
Definition helicsFederateEnterExecutingModeAsync fed : cM unit :=
  fedCall fed tt (fm_enterExecutingModeAsync no_iterations) id.
Definition helicsFederateEnterExecutingModeIterativeAsync fed (iterate : Z) : cM unit :=
  fedCall fed tt (fm_enterExecutingModeAsync (getIterationRequest iterate)) id.
Definition helicsFederateEnterExecutingModeComplete fed : cM unit :=
  fedCall fed tt fm_enterExecutingModeComplete (λ _, tt).
Definition helicsFederateEnterExecutingModeIterativeComplete fed : cM Z :=
  fedCall fed helics_iteration_result_error fm_enterExecutingModeComplete getIterationStatus.
Definition helicsFederateRequestTime fed (requestTime : double) : cM double :=
  fedCall fed helics_time_invalid (fm_requestTime (toTime requestTime)) returnedTime.
Definition helicsFederateRequestTimeAdvance fed (timeDelta : double) : cM double :=
  fedCall fed helics_time_invalid (fm_requestTimeAdvance (toTime timeDelta)) returnedTime.
Definition helicsFederateRequestNextStep fed : cM double :=
  fedCall fed helics_time_invalid fm_requestNextStep returnedTime.
Definition helicsFederateRequestTimeIterative fed (requestTime : double) (iterate : Z)
    : cM (double * Z) :=
  fedCall fed (helics_time_invalid, helics_iteration_result_error)
    (fm_requestTimeIterative (toTime requestTime) (getIterationRequest iterate)) returnedIteration.
Definition helicsFederateRequestTimeAsync fed (requestTime : double) : cM unit :=
  fedCall fed tt (fm_requestTimeAsync (toTime requestTime)) id.
Definition helicsFederateRequestTimeComplete fed : cM double :=
  fedCall fed helics_time_invalid fm_requestTimeComplete returnedTime.
Definition helicsFederateRequestTimeIterativeAsync fed (requestTime : double) (iterate : Z)
    : cM unit :=
  fedCall fed tt
    (fm_requestTimeIterativeAsync (toTime requestTime) (getIterationRequest iterate)) id.
Definition helicsFederateRequestTimeIterativeComplete fed : cM (double * Z) :=
  fedCall fed (helics_time_invalid, helics_iteration_result_error)
    fm_requestTimeIterativeComplete returnedIteration.

(** [modeEnumConversions] *)
Definition modeEnumConversions (m : modes) : Z :=
  match m with
  | m_startup => 0 | m_initializing => 1 | m_executing => 2 | m_finalize => 3 | m_error => 4
  | m_pending_init => 5 | m_pending_exec => 6 | m_pending_time => 7
  | m_pending_iterative_time => 8 | m_pending_finalize => 9
  end.
Abbreviation helics_state_error := (4)%Z (only parsing).
Definition helicsFederateGetState fed : cM Z :=
  fedCall fed helics_state_error fm_getCurrentMode modeEnumConversions.
Definition helicsFederateGetName (fed : option addr) : cM string :=
  o ← noErr (getFed fed);
  ifSome o "" (λ k, onWorld (λ w, (w, Value (f_getName k w)))).
Definition helicsFederateGetCurrentTime (fed : option addr) : cM double :=
  o ← getFed fed;
  ifSome o helics_time_invalid (λ k, t ← onWorld (f_call fm_getCurrentTime k); mret (returnedTime t)).
Definition helicsFederateGlobalError (fed : option addr) (code : Z) (text : option string)
    : cM unit :=
  noErr (fedCall fed tt (fm_globalError code (as_string text)) id).
Definition helicsFederateLocalError (fed : option addr) (code : Z) (text : option string)
    : cM unit :=
  noErr (fedCall fed tt (fm_localError code (as_string text)) id).
Definition helicsFederateDestroy (fed : option addr) : cM unit :=
  _ ← noErr (helicsFederateFinalize fed);
  helicsFederateFree fed.

(** ** Message objects *)

Definition getMessageObj (message : option addr) : cM (option addr) :=
  errorCheck None
    match message with
    | None => _ ← assignError helics_error_invalid_argument; mret None
    | Some a =>
        valid ← read (so_msgValid a);
        if (valid : bool) then mret (Some a)
        else _ ← assignError helics_error_invalid_argument; mret None
    end.

(** A function that reads a message, and one that changes it. *)
Definition getFrom {A} (message : option addr) (retval : A) (g : Message → A) : cM A :=
  o ← noErr (getMessageObj message);
  ifSome o retval (λ a, m ← read (so_msg a); mret (g m)).
Definition update (a : addr) (g : Message → Message) : cM unit :=
  m ← read (so_msg a); change (giving_unit (so_setMsg a (g m))).
Definition setIn (message : option addr) (g : Message → Message) : cM unit :=
  o ← getMessageObj message; ifSome o tt (λ a, update a g).

Definition helicsMessageGetSource m : cM string := getFrom m "" msg_source.
Definition helicsMessageGetDestination m : cM string := getFrom m "" msg_dest.
Definition helicsMessageGetOriginalSource m : cM string := getFrom m "" msg_original_source.
Definition helicsMessageGetOriginalDestination m : cM string := getFrom m "" msg_original_dest.
Definition helicsMessageGetTime m : cM double :=
  getFrom m helics_time_invalid (λ m, fromTime (msg_time m)).
Definition helicsMessageGetMessageID m : cM Z := getFrom m 0 msg_messageID.
Definition helicsMessageCheckFlag m (flag : Z) : cM bool :=
  getFrom m false (λ m,
    if (16 <=? flag) || (flag <? 0) then false else checkActionFlag m flag).
Definition helicsMessageGetString m : cM string := getFrom m "" msg_data.
Definition dataSize (m : Message) : Z := Z.of_nat (String.length (msg_data m)).
Definition helicsMessageGetRawDataSize m : cM Z := getFrom m 0 (λ m, to_sint 32 (dataSize m)).
Definition isValid (m : Message) : bool :=
  negb (String.eqb (msg_data m) "") || negb (String.eqb (msg_source m) "")
  || negb (String.eqb (msg_dest m) "").
Definition helicsMessageIsValid m : cM bool := getFrom m false isValid.

(** What is written to the memory at [data], if it is not null, and the size. *)
Definition helicsMessageGetRawData (message : option addr) (data : bool) (maxMessagelen : Z)
    : cM (string * Z) :=
  o ← getMessageObj message;
  ifSome o ("", 0) (λ a,
    m ← read (so_msg a);
    if String.eqb (msg_data m) "" then mret ("", 0)
    else if negb data || (maxMessagelen <=? 0) || (maxMessagelen <? to_sint 32 (dataSize m)) then
      _ ← assignError helics_error_insufficient_space; mret ("", 0)
    else mret (msg_data m, to_sint 32 (dataSize m))).

Definition helicsMessageSetSource m (src : option string) : cM unit :=
  setIn m (λ m, m <| msg_source := as_string src |>).
Definition helicsMessageSetDestination m (dest : option string) : cM unit :=
  setIn m (λ m, m <| msg_dest := as_string dest |>).
Definition helicsMessageSetOriginalSource m (src : option string) : cM unit :=
  setIn m (λ m, m <| msg_original_source := as_string src |>).
Definition helicsMessageSetOriginalDestination m (dest : option string) : cM unit :=
  setIn m (λ m, m <| msg_original_dest := as_string dest |>).
Definition helicsMessageSetTime m (time : double) : cM unit :=
  setIn m (λ m, m <| msg_time := toTime time |>).
Definition helicsMessageSetMessageID m (messageID : Z) : cM unit :=
  setIn m (λ m, m <| msg_messageID := messageID |>).
Definition helicsMessageClearFlags m : cM unit := noErr (setIn m (λ m, m <| msg_flags := 0 |>)).
Definition helicsMessageSetString m (str : option string) : cM unit :=
  setIn m (λ m, m <| msg_data := as_string str |>).
Definition helicsMessageSetFlagOption (message : option addr) (flag : Z) (flagValue : bool)
    : cM unit :=
  o ← getMessageObj message;
  ifSome o tt (λ a,
    if (15 <? flag) || (flag <? 0) then assignError helics_error_invalid_argument
    else update a (λ m, if flagValue then setActionFlag m flag else clearActionFlag m flag)).

(** [std::string::resize]; a negative [int] is too large a size. *)
Definition resized (n : Z) (s : string) : string :=
  let len := String.length s in
  if Nat.leb (Z.to_nat n) len then String.substring 0 (Z.to_nat n) s
  else s +:+ String.string_of_list_ascii (replicate (Z.to_nat n - len) Ascii.zero).
Definition helicsMessageResize (message : option addr) (newSize : Z) : cM unit :=
  o ← getMessageObj message;
  ifSome o tt (λ a,
    guarded tt
      (if newSize <? 0 then app_raise StdException
       else update a (λ m, m <| msg_data := resized newSize (msg_data m) |>))).
Definition helicsMessageReserve (message : option addr) (reservedSize : Z) : cM unit :=
  o ← getMessageObj message;
  ifSome o tt (λ a, guarded tt (if reservedSize <? 0 then app_raise StdException else mret tt)).

(** The bytes that [assign] and [append] of a string read: at most those that the caller has
    there, and a negative [int] is too large a size. *)
Definition bytesAt (data : option string) (len : Z) : cM string :=
  if len <? 0 then app_raise StdException
  else if len =? 0 then mret ""
  else match data with
       | None => app_null
       | Some b => if Z.of_nat (String.length b) <? len then app_null
                   else mret (String.substring 0 (Z.to_nat len) b)
       end.
Definition helicsMessageSetData (message : option addr) (data : option string)
    (inputDataLength : Z) : cM unit :=
  o ← getMessageObj message;
  ifSome o tt (λ a, b ← bytesAt data inputDataLength; update a (λ m, m <| msg_data := b |>)).
Definition helicsMessageAppendData (message : option addr) (data : option string)
    (inputDataLength : Z) : cM unit :=
  o ← getMessageObj message;
  ifSome o tt (λ a,
    b ← bytesAt data inputDataLength; update a (λ m, m <| msg_data := msg_data m +:+ b |>)).

(** The fields that are copied are all the fields. *)
Definition helicsMessageCopy (source_message dest_message : option addr) : cM unit :=
  o ← getMessageObj source_message;
  ifSome o tt (λ src,
    o ← getMessageObj dest_message;
    ifSome o tt (λ dest, m ← read (so_msg src); update dest (λ _, m))).
Definition helicsMessageClone (message : option addr) : cM (option addr) :=
  o ← getMessageObj message;
  ifSome o None (λ a,
    messages ← read (so_holder a);
    match messages with
    | None => _ ← assignError helics_error_invalid_argument; mret None
    | Some h =>
        mess_clone ← change (so_newMessage h);
        m ← read (so_msg a);
        _ ← update mess_clone (λ _, m);
        mret (Some mess_clone)
    end).
Definition helicsMessageFree (message : option addr) : cM unit :=
  o ← noErr (getMessageObj message);
  ifSome o tt (λ a,
    messages ← read (so_holder a);
    ifSome messages tt (λ _, change (giving_unit (so_free a)))).

(** *** The messages of a federate *)

Definition helicsFederateHasMessage (fed : option addr) : cM bool :=
  o ← noErr (getMessageFed fed); ifSome o false (λ k, onWorld (f_hasMessage k)).
Definition helicsFederatePendingMessages (fed : option addr) : cM Z :=
  o ← noErr (getMessageFed fed);
  ifSome o 0 (λ k, n ← onWorld (f_pendingMessages k); mret (to_sint 32 n)).
Definition helicsFederateGetMessageObject (fed : option addr) : cM (option addr) :=
  o ← noErr (getMessageFed fed);
  ifSome o None (λ k,
    fedObj ← noErr (getFedObject fed);
    message ← onWorld (f_getMessage k);
    ifSome message None (λ m,
      match fedObj with
      | Some a => p ← change (so_addMessage a m); mret (Some p)
      | None => app_null
      end)).
Definition helicsFederateCreateMessageObject (fed : option addr) : cM (option addr) :=
  o ← getFedObject fed;
  ifSome o None (λ a, p ← change (so_newMessage a); mret (Some p)).
Definition helicsFederateClearMessages (fed : option addr) : cM unit :=
  o ← noErr (getFedObject fed); ifSome o tt (λ a, change (giving_unit (so_clear a))).
Definition helicsFederateGetEndpointCount (fed : option addr) : cM Z :=
  o ← noErr (getMessageFed fed);
  ifSome o 0 (λ k, onWorld (f_getEndpointCount k)).

(** ** Endpoints *)

Definition verifyEndpoint (ept : option addr) : cM (option addr) :=
  errorCheck None
    match ept with
    | None => _ ← assignError helics_error_invalid_object; mret None
    | Some a =>
        valid ← read (so_eptValid a);
        if (valid : bool) then mret (Some a)
        else _ ← assignError helics_error_invalid_object; mret None
    end.
(** [make_unique<EndpointObject>] with its members, and [addEndpoint] *)
Definition addEndpoint (fed : option addr) (e : Ept) : cM (option addr) :=
  fedObj ← noErr (getFedObject fed);
  match fedObj with
  | Some a => p ← change (so_addEndpoint a e); mret (Some p)
  | None => app_null
  end.
(** [helicsFederateRegisterEndpoint] and [helicsFederateRegisterGlobalEndpoint] *)
Definition helicsFederateRegisterEndpoint (global : bool) (fed : option addr)
    (name type : option string) : cM (option addr) :=
  o ← getMessageFed fed;
  ifSome o None (λ k,
    guarded None
      (e ← onWorld (f_registerEndpoint global (as_string name) (as_string type) k);
       addEndpoint fed e)).
(** An endpoint that the federate has found. *)
Definition foundEndpoint (fed : option addr) (e : Ept) : cM (option addr) :=
  valid ← onWorld (e_isValid e);
  if (valid : bool) then addEndpoint fed e
  else _ ← assignError helics_error_invalid_argument; mret None.
Definition helicsFederateGetEndpoint (fed : option addr) (name : option string)
    : cM (option addr) :=
  o ← getMessageFed fed;
  ifSome o None (λ k,
    match name with
    | None => _ ← assignError helics_error_invalid_argument; mret None
    | Some name => guarded None (e ← onWorld (f_getEndpoint name k); foundEndpoint fed e)
    end).
Definition helicsFederateGetEndpointByIndex (fed : option addr) (index : Z) : cM (option addr) :=
  o ← getMessageFed fed;
  ifSome o None (λ k, guarded None (e ← onWorld (f_getEndpointAt index k); foundEndpoint fed e)).

(** A function that asks the endpoint, with a null pointer for the error object. *)
Definition askEndpoint {A} (endpoint : option addr) (retval : A) (g : Ept → W → W * result A)
    : cM A :=
  o ← noErr (verifyEndpoint endpoint);
  ifSome o retval (λ p, '(e, _) ← read (so_ept p); onWorld (g e)).
Definition helicsEndpointIsValid e : cM bool := askEndpoint e false e_isValid.
Definition helicsEndpointGetName e : cM string := askEndpoint e "" e_getName.
Definition helicsEndpointGetDefaultDestination e : cM string :=
  askEndpoint e "" e_getDefaultDestination.
Definition helicsEndpointHasMessage e : cM bool := askEndpoint e false e_hasMessage.
Definition helicsEndpointPendingMessages e : cM Z :=
  n ← askEndpoint e 0 e_pendingMessages; mret (to_sint 32 n).
Definition helicsEndpointSetDefaultDestination (endpoint : option addr) (dest : option string)
    : cM unit :=
  o ← verifyEndpoint endpoint;
  ifSome o tt (λ p,
    match dest with
    | None => assignError helics_error_invalid_argument
    | Some dest => guarded tt ('(e, _) ← read (so_ept p); onWorld (e_setDefaultDestination dest e))
    end).

(** The destination, [None] when it is null or empty. *)
Definition givenDest (dest : option string) : option string :=
  match dest with
  | Some d => if String.eqb d "" then None else Some d
  | None => None
  end.
(** [helicsEndpointSendMessageRaw] without and [helicsEndpointSendEventRaw] with a time; the
    data is read here, not when the core gets it. *)
Definition helicsEndpointSendRaw (endpoint : option addr) (dest data : option string)
    (inputDataLength : Z) (time : option double) : cM unit :=
  o ← verifyEndpoint endpoint;
  ifSome o tt (λ p,
    guarded tt
      ('(e, _) ← read (so_ept p);
       b ← match data with
           | None => mret ""
           | Some _ => if inputDataLength <=? 0 then mret "" else bytesAt data inputDataLength
           end;
       onWorld (e_send (givenDest dest) b (toTime <$> time) e))).

(** [struct helics_message] of a caller; the bytes that it has at [data] *)
Record helics_message := mkCMessage {
  cm_time : double;
  cm_data : option string;
  cm_length : Z;
  cm_original_source : option string;
  cm_source : option string;
  cm_dest : option string;
  cm_original_dest : option string;
}.
(** A view of data with a negative length reads memory that is not there. *)
Definition viewAt (data : option string) (len : Z) : cM string :=
  if len <? 0 then app_null else bytesAt data len.
Definition helicsEndpointSendMessage (endpoint : option addr) (message : option helics_message)
    : cM unit :=
  o ← verifyEndpoint endpoint;
  ifSome o tt (λ p,
    match message with
    | None => assignError helics_error_invalid_argument
    | Some m =>
        guarded tt
          ('(e, _) ← read (so_ept p);
           name ← onWorld (e_getName e);
           match cm_original_source m with
           | Some src =>
               if String.eqb name src then
                 b ← viewAt (cm_data m) (cm_length m);
                 onWorld (e_send (cm_dest m) b (Some (toTime (cm_time m))) e)
               else
                 b ← match cm_data m with
                     | None => mret ""
                     | Some _ => if 0 <? cm_length m then bytesAt (cm_data m) (cm_length m)
                                 else mret ""
                     end;
                 onWorld (e_sendMessage
                   (mkMessage (toTime (cm_time m)) 0 0 b (as_string (cm_dest m))
                      (as_string (cm_source m)) src (as_string (cm_original_dest m))) e)
           | None =>
               b ← viewAt (cm_data m) (cm_length m);
               onWorld (e_send (cm_dest m) b (Some (toTime (cm_time m))) e)
           end)
    end).
Definition helicsEndpointSendMessageObject (endpoint message : option addr) : cM unit :=
  o ← verifyEndpoint endpoint;
  ifSome o tt (λ p,
    o ← getMessageObj message;
    ifSome o tt (λ a,
      guarded tt
        ('(e, _) ← read (so_ept p);
         m ← read (so_msg a);
         onWorld (e_sendMessage m e)))).
Definition helicsEndpointSendMessageObjectZeroCopy (endpoint message : option addr) : cM unit :=
  o ← verifyEndpoint endpoint;
  ifSome o tt (λ p,
    o ← getMessageObj message;
    ifSome o tt (λ a,
      messages ← read (so_holder a);
      match messages with
      | None => assignError helics_error_invalid_argument
      | Some _ =>
          ptr ← change (so_extract a);
          ifSome ptr tt (λ m,
            guarded tt ('(e, _) ← read (so_ept p); onWorld (e_sendMessage m e)))
      end)).
Definition helicsEndpointGetMessageObject (endpoint : option addr) : cM (option addr) :=
  o ← noErr (verifyEndpoint endpoint);
  ifSome o None (λ p,
    '(e, fed) ← read (so_ept p);
    message ← onWorld (e_getMessage e);
    ifSome message None (λ m, q ← change (so_addMessage fed m); mret (Some q))).
Definition helicsEndpointCreateMessageObject (endpoint : option addr) : cM (option addr) :=
  o ← verifyEndpoint endpoint;
  ifSome o None (λ p, '(_, fed) ← read (so_ept p); q ← change (so_newMessage fed); mret (Some q)).
Definition helicsEndpointClearMessages (endpoint : option addr) : cM unit := mret tt.

(** ** All calls *)

(** A call of the interface with its arguments, and what a call returns. *)
Inductive c_call :=
  | k_CreateFederateInfo
  | k_FederateInfoClone (fi : option addr)
  | k_FederateInfoFree (fi : option addr)
  | k_CreateFederate (type : vtype) (name : option string) (fi : option addr)
  | k_CreateFederateFromConfig (type : vtype) (file : option string)
  | k_FederateClone (fed : option addr)
  | k_FederateIsValid (fed : option addr)
  | k_FederateFree (fed : option addr)
  | k_FederateDestroy (fed : option addr)
  | k_GetFederateByName (name : option string)
  | k_CloseLibrary
  | k_FederateFinalize (fed : option addr)
  | k_FederateFinalizeAsync (fed : option addr)
  | k_FederateFinalizeComplete (fed : option addr)
  | k_FederateEnterInitializingMode (fed : option addr)
  | k_FederateEnterInitializingModeAsync (fed : option addr)
  | k_FederateEnterInitializingModeComplete (fed : option addr)
  | k_FederateIsAsyncOperationCompleted (fed : option addr)
  | k_FederateEnterExecutingMode (fed : option addr)
  | k_FederateEnterExecutingModeIterative (fed : option addr) (iterate : Z)
  | k_FederateEnterExecutingModeAsync (fed : option addr)
  | k_FederateEnterExecutingModeIterativeAsync (fed : option addr) (iterate : Z)
  | k_FederateEnterExecutingModeComplete (fed : option addr)
  | k_FederateEnterExecutingModeIterativeComplete (fed : option addr)
  | k_FederateRequestTime (fed : option addr) (t : double)
  | k_FederateRequestTimeAdvance (fed : option addr) (t : double)
  | k_FederateRequestNextStep (fed : option addr)
  | k_FederateRequestTimeIterative (fed : option addr) (t : double) (iterate : Z)
  | k_FederateRequestTimeAsync (fed : option addr) (t : double)
  | k_FederateRequestTimeComplete (fed : option addr)
  | k_FederateRequestTimeIterativeAsync (fed : option addr) (t : double) (iterate : Z)
  | k_FederateRequestTimeIterativeComplete (fed : option addr)
  | k_FederateGetState (fed : option addr)
  | k_FederateGetName (fed : option addr)
  | k_FederateGetCurrentTime (fed : option addr)
  | k_FederateGlobalError (fed : option addr) (code : Z) (text : option string)
  | k_FederateLocalError (fed : option addr) (code : Z) (text : option string)
  | k_MessageGetSource (m : option addr)
  | k_MessageGetDestination (m : option addr)
  | k_MessageGetOriginalSource (m : option addr)
  | k_MessageGetOriginalDestination (m : option addr)
  | k_MessageGetTime (m : option addr)
  | k_MessageGetMessageID (m : option addr)
  | k_MessageCheckFlag (m : option addr) (flag : Z)
  | k_MessageGetString (m : option addr)
  | k_MessageGetRawDataSize (m : option addr)
  | k_MessageIsValid (m : option addr)
  | k_MessageGetRawData (m : option addr) (data : bool) (maxMessagelen : Z)
  | k_MessageSetSource (m : option addr) (s : option string)
  | k_MessageSetDestination (m : option addr) (s : option string)
  | k_MessageSetOriginalSource (m : option addr) (s : option string)
  | k_MessageSetOriginalDestination (m : option addr) (s : option string)
  | k_MessageSetTime (m : option addr) (t : double)
  | k_MessageSetMessageID (m : option addr) (messageID : Z)
  | k_MessageClearFlags (m : option addr)
  | k_MessageSetString (m : option addr) (s : option string)
  | k_MessageSetFlagOption (m : option addr) (flag : Z) (flagValue : bool)
  | k_MessageResize (m : option addr) (newSize : Z)
  | k_MessageReserve (m : option addr) (reservedSize : Z)
  | k_MessageSetData (m : option addr) (data : option string) (len : Z)
  | k_MessageAppendData (m : option addr) (data : option string) (len : Z)
  | k_MessageCopy (src : option addr) (dest : option addr)
  | k_MessageClone (m : option addr)
  | k_MessageFree (m : option addr)
  | k_FederateHasMessage (fed : option addr)
  | k_FederatePendingMessages (fed : option addr)
  | k_FederateGetMessageObject (fed : option addr)
  | k_FederateCreateMessageObject (fed : option addr)
  | k_FederateClearMessages (fed : option addr)
  | k_FederateGetEndpointCount (fed : option addr)
  | k_FederateRegisterEndpoint (global : bool) (fed : option addr) (name : option string)
      (type : option string)
  | k_FederateGetEndpoint (fed : option addr) (name : option string)
  | k_FederateGetEndpointByIndex (fed : option addr) (index : Z)
  | k_EndpointIsValid (e : option addr)
  | k_EndpointGetName (e : option addr)
  | k_EndpointGetDefaultDestination (e : option addr)
  | k_EndpointHasMessage (e : option addr)
  | k_EndpointPendingMessages (e : option addr)
  | k_EndpointSetDefaultDestination (e : option addr) (dest : option string)
  | k_EndpointSendRaw (e : option addr) (dest : option string) (data : option string) (len : Z)
      (time : option double)
  | k_EndpointSendMessage (e : option addr) (msg : option helics_message)
  | k_EndpointSendMessageObject (e : option addr) (m : option addr)
  | k_EndpointSendMessageObjectZeroCopy (e : option addr) (m : option addr)
  | k_EndpointGetMessageObject (e : option addr)
  | k_EndpointCreateMessageObject (e : option addr)
  | k_EndpointClearMessages (e : option addr)
  | k_ErrorClear.
Inductive answer :=
  | a_unit (u : unit)
  | a_bool (b : bool)
  | a_int (z : Z)
  | a_handle (h : option addr)
  | a_string (s : string)
  | a_time (t : double)
  | a_iteration (r : double * Z)
  | a_raw (r : string * Z).
Definition returning {A} (f : A → answer) (m : cM A) : cM answer := a ← m; mret (f a).

Definition perform (call : c_call) : cM answer :=
  match call with
  | k_CreateFederateInfo => returning a_handle helicsCreateFederateInfo
  | k_FederateInfoClone fi => returning a_handle (helicsFederateInfoClone fi)
  | k_FederateInfoFree fi => returning a_unit (helicsFederateInfoFree fi)
  | k_CreateFederate type name fi => returning a_handle (helicsCreateFederate type name fi)
  | k_CreateFederateFromConfig type file =>
      returning a_handle (helicsCreateFederateFromConfig type file)
  | k_FederateClone fed => returning a_handle (helicsFederateClone fed)
  | k_FederateIsValid fed => returning a_bool (helicsFederateIsValid fed)
  | k_FederateFree fed => returning a_unit (helicsFederateFree fed)
  | k_FederateDestroy fed => returning a_unit (helicsFederateDestroy fed)
  | k_GetFederateByName name => returning a_handle (helicsGetFederateByName name)
  | k_CloseLibrary => returning a_unit helicsCloseLibrary
  | k_FederateFinalize fed => returning a_unit (helicsFederateFinalize fed)
  | k_FederateFinalizeAsync fed => returning a_unit (helicsFederateFinalizeAsync fed)
  | k_FederateFinalizeComplete fed => returning a_unit (helicsFederateFinalizeComplete fed)
  | k_FederateEnterInitializingMode fed =>
      returning a_unit (helicsFederateEnterInitializingMode fed)
  | k_FederateEnterInitializingModeAsync fed =>
      returning a_unit (helicsFederateEnterInitializingModeAsync fed)
  | k_FederateEnterInitializingModeComplete fed =>
      returning a_unit (helicsFederateEnterInitializingModeComplete fed)
  | k_FederateIsAsyncOperationCompleted fed =>
      returning a_bool (helicsFederateIsAsyncOperationCompleted fed)
  | k_FederateEnterExecutingMode fed => returning a_unit (helicsFederateEnterExecutingMode fed)
  | k_FederateEnterExecutingModeIterative fed iterate =>
      returning a_int (helicsFederateEnterExecutingModeIterative fed iterate)
  | k_FederateEnterExecutingModeAsync fed =>
      returning a_unit (helicsFederateEnterExecutingModeAsync fed)
  | k_FederateEnterExecutingModeIterativeAsync fed iterate =>
      returning a_unit (helicsFederateEnterExecutingModeIterativeAsync fed iterate)
  | k_FederateEnterExecutingModeComplete fed =>
      returning a_unit (helicsFederateEnterExecutingModeComplete fed)
  | k_FederateEnterExecutingModeIterativeComplete fed =>
      returning a_int (helicsFederateEnterExecutingModeIterativeComplete fed)
  | k_FederateRequestTime fed t => returning a_time (helicsFederateRequestTime fed t)
  | k_FederateRequestTimeAdvance fed t => returning a_time (helicsFederateRequestTimeAdvance fed t)
  | k_FederateRequestNextStep fed => returning a_time (helicsFederateRequestNextStep fed)
  | k_FederateRequestTimeIterative fed t iterate =>
      returning a_iteration (helicsFederateRequestTimeIterative fed t iterate)
  | k_FederateRequestTimeAsync fed t => returning a_unit (helicsFederateRequestTimeAsync fed t)
  | k_FederateRequestTimeComplete fed => returning a_time (helicsFederateRequestTimeComplete fed)
  | k_FederateRequestTimeIterativeAsync fed t iterate =>
      returning a_unit (helicsFederateRequestTimeIterativeAsync fed t iterate)
  | k_FederateRequestTimeIterativeComplete fed =>
      returning a_iteration (helicsFederateRequestTimeIterativeComplete fed)
  | k_FederateGetState fed => returning a_int (helicsFederateGetState fed)
  | k_FederateGetName fed => returning a_string (helicsFederateGetName fed)
  | k_FederateGetCurrentTime fed => returning a_time (helicsFederateGetCurrentTime fed)
  | k_FederateGlobalError fed code text =>
      returning a_unit (helicsFederateGlobalError fed code text)
  | k_FederateLocalError fed code text => returning a_unit (helicsFederateLocalError fed code text)
  | k_MessageGetSource m => returning a_string (helicsMessageGetSource m)
  | k_MessageGetDestination m => returning a_string (helicsMessageGetDestination m)
  | k_MessageGetOriginalSource m => returning a_string (helicsMessageGetOriginalSource m)
  | k_MessageGetOriginalDestination m => returning a_string (helicsMessageGetOriginalDestination m)
  | k_MessageGetTime m => returning a_time (helicsMessageGetTime m)
  | k_MessageGetMessageID m => returning a_int (helicsMessageGetMessageID m)
  | k_MessageCheckFlag m flag => returning a_bool (helicsMessageCheckFlag m flag)
  | k_MessageGetString m => returning a_string (helicsMessageGetString m)
  | k_MessageGetRawDataSize m => returning a_int (helicsMessageGetRawDataSize m)
  | k_MessageIsValid m => returning a_bool (helicsMessageIsValid m)
  | k_MessageGetRawData m data maxMessagelen =>
      returning a_raw (helicsMessageGetRawData m data maxMessagelen)
  | k_MessageSetSource m s => returning a_unit (helicsMessageSetSource m s)
  | k_MessageSetDestination m s => returning a_unit (helicsMessageSetDestination m s)
  | k_MessageSetOriginalSource m s => returning a_unit (helicsMessageSetOriginalSource m s)
  | k_MessageSetOriginalDestination m s =>
      returning a_unit (helicsMessageSetOriginalDestination m s)
  | k_MessageSetTime m t => returning a_unit (helicsMessageSetTime m t)
  | k_MessageSetMessageID m messageID => returning a_unit (helicsMessageSetMessageID m messageID)
  | k_MessageClearFlags m => returning a_unit (helicsMessageClearFlags m)
  | k_MessageSetString m s => returning a_unit (helicsMessageSetString m s)
  | k_MessageSetFlagOption m flag flagValue =>
      returning a_unit (helicsMessageSetFlagOption m flag flagValue)
  | k_MessageResize m newSize => returning a_unit (helicsMessageResize m newSize)
  | k_MessageReserve m reservedSize => returning a_unit (helicsMessageReserve m reservedSize)
  | k_MessageSetData m data len => returning a_unit (helicsMessageSetData m data len)
  | k_MessageAppendData m data len => returning a_unit (helicsMessageAppendData m data len)
  | k_MessageCopy src dest => returning a_unit (helicsMessageCopy src dest)
  | k_MessageClone m => returning a_handle (helicsMessageClone m)
  | k_MessageFree m => returning a_unit (helicsMessageFree m)
  | k_FederateHasMessage fed => returning a_bool (helicsFederateHasMessage fed)
  | k_FederatePendingMessages fed => returning a_int (helicsFederatePendingMessages fed)
  | k_FederateGetMessageObject fed => returning a_handle (helicsFederateGetMessageObject fed)
  | k_FederateCreateMessageObject fed => returning a_handle (helicsFederateCreateMessageObject fed)
  | k_FederateClearMessages fed => returning a_unit (helicsFederateClearMessages fed)
  | k_FederateGetEndpointCount fed => returning a_int (helicsFederateGetEndpointCount fed)
  | k_FederateRegisterEndpoint global fed name type =>
      returning a_handle (helicsFederateRegisterEndpoint global fed name type)
  | k_FederateGetEndpoint fed name => returning a_handle (helicsFederateGetEndpoint fed name)
  | k_FederateGetEndpointByIndex fed index =>
      returning a_handle (helicsFederateGetEndpointByIndex fed index)
  | k_EndpointIsValid e => returning a_bool (helicsEndpointIsValid e)
  | k_EndpointGetName e => returning a_string (helicsEndpointGetName e)
  | k_EndpointGetDefaultDestination e => returning a_string (helicsEndpointGetDefaultDestination e)
  | k_EndpointHasMessage e => returning a_bool (helicsEndpointHasMessage e)
  | k_EndpointPendingMessages e => returning a_int (helicsEndpointPendingMessages e)
  | k_EndpointSetDefaultDestination e dest =>
      returning a_unit (helicsEndpointSetDefaultDestination e dest)
  | k_EndpointSendRaw e dest data len time =>
      returning a_unit (helicsEndpointSendRaw e dest data len time)
  | k_EndpointSendMessage e msg => returning a_unit (helicsEndpointSendMessage e msg)
  | k_EndpointSendMessageObject e m => returning a_unit (helicsEndpointSendMessageObject e m)
  | k_EndpointSendMessageObjectZeroCopy e m =>
      returning a_unit (helicsEndpointSendMessageObjectZeroCopy e m)
  | k_EndpointGetMessageObject e => returning a_handle (helicsEndpointGetMessageObject e)
  | k_EndpointCreateMessageObject e => returning a_handle (helicsEndpointCreateMessageObject e)
  | k_EndpointClearMessages e => returning a_unit (helicsEndpointClearMessages e)
  | k_ErrorClear => returning a_unit helicsErrorClear
  end.

(** *** Sequences of calls

    A program has error objects of its own and gives one of them, or none, to a call. *)
Definition errorAt (e : option nat) (errs : list Z) : option Z :=
  match e with Some i => errs !! i | None => None end.
Definition errorBack (e : option nat) (code : option Z) (errs : list Z) : list Z :=
  match e, code with Some i, Some z => <[i := z]> errs | _, _ => errs end.
Fixpoint runCalls (calls : list (option nat * c_call)) (c : c_state) (errs : list Z)
    : c_state * list Z * list (result answer) :=
  match calls with
  | [] => (c, errs, [])
  | (e, call) :: calls =>
      let '(c, _, r) := perform call (c <| err := errorAt e errs |>) in
      let errs := errorBack e (err c) errs in
      match r with
      | NullPointer => (c, errs, [r])
      | _ => let '(c, errs, rs) := runCalls calls c errs in (c, errs, r :: rs)
      end
  end.
End api.
