(* ===== verification/CApiFacts.v ===== *)
(** * The C interface: handles and errors

    [c_api_refines]: for every sequence of calls the interface over its slots and back
    references gives what it gives over the ledger of live handles. *)

From stdpp Require Import strings gmap.
From S2P Require Import Prelude HelicsTime Flags ActionMessage FilterOperations AppMonad.
From S2P Require Import AppFederate CObjects CObjectsFacts CApi.

(** ** Simulation of calls *)

Create HintDb c_sim.

Section sim.
  Context `{TimeRep} {W fid Ept FI double S T : Type}.
  Context `{!Federates W fid Ept FI} `{!CTime double}.
  Context `{!ObjectStore fid Ept S} `{!ObjectStore fid Ept T}.
  Context (R : S → T → Prop) (next : T → nat).
  Context `{Hsim : !StoreSim R next} `{Hgrow : !StoreGrows next}.
  Abbreviation cS := (c_state (W := W) (FI := FI) (S := S)).
  Abbreviation cT := (c_state (W := W) (FI := FI) (S := T)).

Record c_rel (c : cS) (d : cT) : Prop := {
  cr_store : R (store c) (store d);
  cr_world : world c = world d;
  cr_infos : infos c = infos d;
  cr_err : err c = err d;
}.

(** The same result and related states, unless the result is [NullPointer], as long as there
    is space for the objects. *)
Definition csim {A} (m : excM cS Empty_set A) (n : excM cT Empty_set A) : Prop :=
  (∀ d, (next (store d) ≤ next (store (n d).1.1))%nat) ∧
  (∀ c d, c_rel c d → Z.of_nat (next (store (n d).1.1)) < capacity →
     (m c).2 = (n d).2 ∧ ((n d).2 ≠ NullPointer → c_rel (m c).1.1 (n d).1.1)).

Lemma csim_ret {A} (a : A) : csim (mret a) (mret a).
Proof. by split. Qed.
Lemma csim_raise {A} e : csim (A := A) (app_raise e) (app_raise e).
Proof. by split. Qed.
Lemma csim_null {A} : csim (A := A) app_null app_null.
Proof. by split. Qed.
Lemma csim_bind {A B} (m : excM cS Empty_set A) n (k : A → excM cS Empty_set B) k' :
  csim m n → (∀ a, csim (k a) (k' a)) → csim (m ≫= k) (n ≫= k').
Proof.
  intros [Hn Hm] Hk. split.
  - intros d. specialize (Hn d). unfold mbind, excM_bind.
    destruct (n d) as [[d1 o1] [a|e|]]; [|done..]. destruct (Hk a) as [Hg _]. specialize (Hg d1).
    destruct (k' a d1) as [[d2 o2] r]. simpl in *. lia.
  - intros c d Hr. specialize (Hm c d Hr). unfold mbind, excM_bind.
    destruct (n d) as [[d1 o1] [a|e|]].
    2,3: destruct (m c) as [[c1 p1] r1]; simpl in *; intros Hb; destruct (Hm Hb) as [-> Hc]; simpl;
      split; [done|]; intros ?; try done; by apply Hc.
    destruct (Hk a) as [Hg Hka]. specialize (Hg d1). specialize (λ c, Hka c d1).
    destruct (k' a d1) as [[d2 o2] r]. simpl in *. intros Hb.
    destruct Hm as [E Hr1]; [lia|]. destruct (m c) as [[c1 p1] r1]. simpl in *. subst r1.
    specialize (Hka c1 (Hr1 ltac:(done)) Hb). by destruct (k a c1) as [[c2 p2] r2].
Qed.
Lemma csim_gets {A} (f : cS → A) g :
  (∀ c d, c_rel c d → f c = g d) → csim (gets f) (gets g).
Proof. intros Hfg. split; [done|]. intros c d Hr _. simpl. by rewrite (Hfg _ _ Hr). Qed.
Lemma csim_modify f g :
  (∀ d, store (g d) = store d) → (∀ c d, c_rel c d → c_rel (f c) (g d)) →
  csim (app_modify f) (app_modify g).
Proof. intros Hs Hr. split; simpl; [intros d; by rewrite Hs|]. auto. Qed.
Lemma csim_read {A} (f : S → option A) g : agrees R f g → csim (read f) (read g).
Proof.
  intros Ha. unfold read. split.
  - intros d. by destruct (g (store d)).
  - intros c d Hr _. rewrite (Ha _ _ (cr_store _ _ Hr)). by destruct (g (store d)).
Qed.
Lemma csim_change {A} (f : S → option (S * A)) g :
  refines R next f g → grows next g → csim (change f) (change g).
Proof.
  intros Ha Hg. unfold change. split.
  - intros d. destruct (g (store d)) as [[l x]|] eqn:E; [|done]. simpl. by eapply Hg.
  - intros c d Hr. specialize (Ha _ _ (cr_store _ _ Hr)).
    destruct (g (store d)) as [[l x]|]; simpl; [|by rewrite Ha].
    intros Hb. destruct (proj2 Ha Hb) as (s' & -> & Hs). simpl. split; [done|].
    intros _. destruct Hr. by split.
Qed.
Lemma csim_onWorld {A} (g : W → W * result A) : csim (onWorld g) (onWorld g).
Proof.
  unfold onWorld. split.
  - intros d. by destruct (g (world d)).
  - intros c d Hr _. rewrite (cr_world _ _ Hr). destruct (g (world d)) as [w r]. simpl.
    split; [done|]. intros _. destruct Hr. by split.
Qed.
Lemma csim_noErr {A} (m : excM cS Empty_set A) n : csim m n → csim (noErr m) (noErr n).
Proof.
  intros [Hg Hm]. unfold noErr. split.
  - intros d. specialize (Hg (d <| err := None |>)). by destruct (n _) as [[d' o] r].
  - intros c d Hr Hb. specialize (Hm (c <| err := None |>) (d <| err := None |>)).
    destruct (n (d <| err := None |>)) as [[d' o] r], (m (c <| err := None |>)) as [[c' o'] r'].
    simpl in *. destruct Hm as [-> Hc]; [destruct Hr; by split|done|]. split; [done|].
    intros Hne. destruct (Hc Hne). split; simpl; try done. by destruct Hr.
Qed.
Lemma csim_catch {A} p (m : excM cS Empty_set A) n h h' :
  csim m n → (∀ e, csim (h e) (h' e)) → csim (app_catch p m h) (app_catch p n h').
Proof.
  intros [Hn Hm] Hk. split.
  - intros d. specialize (Hn d). unfold app_catch.
    destruct (n d) as [[d1 o1] [a|e|]]; [done| |done]. destruct (p e); [|done].
    destruct (Hk e) as [Hg _]. specialize (Hg d1).
    destruct (h' e d1) as [[d2 o2] r]. simpl in *. lia.
  - intros c d Hr. specialize (Hm c d Hr). unfold app_catch.
    destruct (n d) as [[d1 o1] [a|e|]].
    1,3: destruct (m c) as [[c1 p1] r1]; simpl in *; intros Hb; destruct (Hm Hb) as [-> ?]; by simpl.
    destruct (p e) eqn:Ep.
    2: { destruct (m c) as [[c1 p1] r1]; simpl in *; intros Hb; destruct (Hm Hb) as [-> ?].
         by rewrite Ep. }
    destruct (Hk e) as [Hg Hka]. specialize (Hg d1). specialize (λ c, Hka c d1).
    destruct (h' e d1) as [[d2 o2] r]. simpl in *. intros Hb.
    destruct Hm as [E Hr1]; [lia|]. destruct (m c) as [[c1 p1] r1]. simpl in *. subst r1.
    rewrite Ep. specialize (Hka c1 (Hr1 ltac:(done)) Hb). by destruct (h e c1) as [[c2 p2] r2].
Qed.

(** The same function over the two stores. *)
#[local] Hint Resolve csim_ret csim_raise csim_null csim_onWorld csim_read csim_change
  cr_err cr_infos : c_sim.
#[local] Hint Resolve sim_newFed sim_freeFed sim_clearFeds sim_addEndpoint sim_newMessage
  sim_addMessage sim_setMsg sim_extract sim_free sim_clear : c_sim.
#[local] Hint Extern 1 (agrees _ _ _) =>
  solve [eapply sim_fedValid | eapply sim_fed | eapply sim_eptValid | eapply sim_ept
        | eapply sim_msgValid | eapply sim_msg | eapply sim_holder] : c_sim.
#[local] Hint Resolve gr_newFed gr_freeFed gr_clearFeds gr_addEndpoint gr_newMessage
  gr_addMessage gr_setMsg gr_extract gr_free gr_clear : c_sim.
#[local] Ltac csim_go :=
  repeat first
    [ apply csim_bind; [|intros ?]
    | apply csim_noErr
    | apply csim_catch; [|intros ?]
    | apply csim_gets; solve [eauto with c_sim]
    | apply csim_modify; [done|intros ? ? []; split; simpl; congruence]
    | solve [auto with c_sim]
    | case_match ].

Lemma csim_assignError code : csim (assignError code) (assignError code).
Proof. unfold assignError. csim_go. Qed.
#[local] Hint Resolve csim_assignError : c_sim.

(** The definition of the function on both sides. *)
#[local] Ltac csim_unfold :=
  match goal with
  | |- csim ?m _ =>
      let rec head t := match t with ?f _ => head f | _ => t end in
      let h := head m in progress unfold h
  end.
#[local] Ltac csim_auto := repeat (csim_go; try csim_unfold).

Lemma csim_destroyFederates dead :
  csim (destroyFederates (Ept := Ept) dead) (destroyFederates (Ept := Ept) dead).
Proof. induction dead; simpl; csim_auto. Qed.
Lemma csim_findFedIn name l :
  csim (findFedIn (Ept := Ept) name l) (findFedIn (Ept := Ept) name l).
Proof. induction l; simpl; csim_auto. Qed.
Lemma csim_finalizeAll l : csim (finalizeAll (Ept := Ept) l) (finalizeAll (Ept := Ept) l).
Proof. induction l; simpl; csim_auto. Qed.
Lemma agrees_feds : agrees R (Some ∘ so_feds) (Some ∘ so_feds).
Proof. intros s l Hr. simpl. by rewrite (sim_feds _ _ Hr). Qed.
#[local] Hint Resolve csim_destroyFederates csim_findFedIn csim_finalizeAll agrees_feds : c_sim.

Lemma csim_perform call :
  csim (perform (Ept := Ept) (double := double) call) (perform (Ept := Ept) (double := double) call).
Proof. destruct call; unfold perform; csim_auto. Qed.

(** *** Sequences *)

Abbreviation runS := (runCalls (Ept := Ept) (double := double) (S := S)).
Abbreviation runT := (runCalls (Ept := Ept) (double := double) (S := T)).

Lemma run_grows calls : ∀ (d : cT) errs,
  (next (store d) ≤ next (store (runT calls d errs).1.1))%nat.
Proof.
  induction calls as [|[e call] calls IH]; intros d errs; cbn [runCalls]; [done|].
  destruct (csim_perform call) as [Hg _]. specialize (Hg (d <| err := errorAt e errs |>)).
  destruct (perform call _) as [[d1 o] r]. simpl in Hg.
  assert (∀ errs', next (store d1) ≤ next (store (runT calls d1 errs').1.1))%nat as IH1 by eauto.
  destruct r; simpl; [| |done]; specialize (IH1 (errorBack e (err d1) errs));
    destruct (runT calls d1 _) as [[d2 es] rs]; simpl in *; lia.
Qed.

Lemma run_sim calls : ∀ (c : cS) (d : cT) errs,
  c_rel c d → Z.of_nat (next (store (runT calls d errs).1.1)) < capacity →
  (runS calls c errs).2 = (runT calls d errs).2 ∧
  (NullPointer ∉ (runT calls d errs).2 →
     (runS calls c errs).1.2 = (runT calls d errs).1.2 ∧
     c_rel (runS calls c errs).1.1 (runT calls d errs).1.1).
Proof.
  induction calls as [|[e call] calls IH]; intros c d errs Hr Hb; cbn [runCalls] in *; [done|].
  destruct (csim_perform call) as [_ Hp].
  specialize (Hp (c <| err := errorAt e errs |>) (d <| err := errorAt e errs |>)).
  destruct (perform call (d <| err := errorAt e errs |>)) as [[d1 o] r] eqn:Ed.
  destruct (perform call (c <| err := errorAt e errs |>)) as [[c1 o'] r'] eqn:Ec.
  simpl in Hp. pose proof (λ errs', run_grows calls d1 errs') as Hgrows.
  assert (Z.of_nat (next (store d1)) < capacity) as Hb1.
  { destruct r; simpl in Hb; [| |done]; specialize (Hgrows (errorBack e (err d1) errs));
      destruct (runT calls d1 _) as [[d2 es] rs]; simpl in *; lia. }
  destruct Hp as [-> Hc]; [destruct Hr; by split|done|].
  destruct r as [a|x|]; [..|split; [done|set_solver]].
  all: specialize (Hc ltac:(done)); rewrite <-(cr_err _ _ Hc) in *;
    specialize (IH c1 d1 (errorBack e (err c1) errs) Hc);
    destruct (runT calls d1 _) as [[d2 es] rs], (runS calls c1 _) as [[c2 es'] rs']; simpl in *;
    destruct IH as (-> & Hrel); [done|]; split; [done|];
    intros Hn; apply Hrel; set_solver.
Qed.
End sim.

(** ** The library and the ledger *)

Section ledger.
  Context `{TimeRep} {W fid Ept FI double : Type} `{!EqDecision fid}.
  Context `{!Federates W fid Ept FI} `{!CTime double}.
  Abbreviation cst S := (c_state (W := W) (FI := FI) (S := S)).

(** The library with nothing created yet. *)
Definition start {S} (s : S) (w : W) : cst S := mkC s w [] None.

Lemma start_rel w : c_rel stands_for (start (newHeld : held fid Ept) w) (start newLedger w).
Proof. split; [apply newHeld_inv|done..]. Qed.

(** C16. For every sequence of calls, with any handles and error objects, the interface with
    its slots, free lists, indices, back references, validation codes and shared pointers
    returns what the ledger of live handles returns, as long as fewer than 2^31 objects have
    been made; it uses a pointer to no object only where the ledger does, and otherwise the
    error objects and the library below are the same and its objects those of the ledger. *)
Theorem c_api_refines (calls : list (option nat * c_call (double := double))) (w : W) errs :
  let spec := runCalls (Ept := Ept) calls (start (newLedger : ledger fid Ept) w) errs in
  let code := runCalls (Ept := Ept) calls (start (newHeld : held fid Ept) w) errs in
  Z.of_nat (lg_next (store spec.1.1)) < capacity →
  code.2 = spec.2 ∧
  (NullPointer ∉ spec.2 →
     code.1.2 = spec.1.2 ∧ stands_for (store code.1.1) (store spec.1.1) ∧
     world code.1.1 = world spec.1.1).
Proof.
  intros spec code Hcap.
  destruct (run_sim (double := double) stands_for lg_next calls (start newHeld w) (start newLedger w)
              errs) as (Hr & Hrel).
  - apply start_rel.
  - exact Hcap.
  - split; [done|]. intros Hn. by destruct (Hrel Hn) as [? []].
Qed.
End ledger.
