(* ===== verification/CApiErrors.v ===== *)
(** * The C interface: errors

    An error object keeps the first error: [error_sticks]. *)

From stdpp Require Import strings gmap.
From S2P Require Import Prelude HelicsTime ActionMessage AppMonad AppFederate CObjects CApi.

Section errors.
  Context `{TimeRep} {W fid Ept FI double S : Type}.
  Context `{!Federates W fid Ept FI} `{!CTime double} `{!ObjectStore fid Ept S}.
  Abbreviation cst := (c_state (W := W) (FI := FI) (S := S)).

(** The functions that have a pointer to an error object. *)
Definition takes_error (call : c_call (double := double)) : bool :=
  match call with
  | k_CreateFederateInfo | k_FederateInfoFree _ | k_FederateIsValid _ | k_FederateFree _
  | k_FederateDestroy _ | k_CloseLibrary | k_FederateGetName _ | k_FederateGlobalError _ _ _
  | k_FederateLocalError _ _ _ | k_MessageGetSource _ | k_MessageGetDestination _
  | k_MessageGetOriginalSource _ | k_MessageGetOriginalDestination _ | k_MessageGetTime _
  | k_MessageGetMessageID _ | k_MessageCheckFlag _ _ | k_MessageGetString _
  | k_MessageGetRawDataSize _ | k_MessageIsValid _ | k_MessageClearFlags _ | k_MessageFree _
  | k_FederateHasMessage _ | k_FederatePendingMessages _ | k_FederateGetMessageObject _
  | k_FederateClearMessages _ | k_FederateGetEndpointCount _ | k_EndpointIsValid _
  | k_EndpointGetName _ | k_EndpointGetDefaultDestination _ | k_EndpointHasMessage _
  | k_EndpointPendingMessages _ | k_EndpointGetMessageObject _ | k_EndpointClearMessages _
  | k_ErrorClear => false
  | _ => true
  end.
(** What a function returns that does nothing because of an earlier error. *)
Definition refused (call : c_call (double := double)) : answer (double := double) :=
  match call with
  | k_FederateInfoClone _ | k_CreateFederate _ _ _ | k_CreateFederateFromConfig _ _
  | k_FederateClone _ | k_GetFederateByName _ | k_MessageClone _
  | k_FederateCreateMessageObject _ | k_FederateRegisterEndpoint _ _ _ _
  | k_FederateGetEndpoint _ _ | k_FederateGetEndpointByIndex _ _
  | k_EndpointCreateMessageObject _ => a_handle None
  | k_FederateIsAsyncOperationCompleted _ => a_bool false
  | k_FederateEnterExecutingModeIterative _ _ | k_FederateEnterExecutingModeIterativeComplete _ => a_int 1
  | k_FederateRequestTime _ _ | k_FederateRequestTimeAdvance _ _ | k_FederateRequestNextStep _
  | k_FederateRequestTimeComplete _ | k_FederateGetCurrentTime _ => a_time helics_time_invalid
  | k_FederateRequestTimeIterative _ _ _ | k_FederateRequestTimeIterativeComplete _ => a_iteration (helics_time_invalid, 1)
  | k_FederateGetState _ => a_int 4
  | k_MessageGetRawData _ _ _ => a_raw ("", 0)
  | _ => a_unit tt
  end.

Lemma errorCheck_refuses {A} (d : A) m (c : cst) z :
  err c = Some z → z ≠ 0 → errorCheck d m c = (c, [], Value d).
Proof.
  intros Hz Hne. unfold errorCheck, gets, mbind, excM_bind. rewrite Hz. simpl.
  by rewrite (proj2 (Z.eqb_neq z 0) Hne).
Qed.

(** The functions are unfolded until the check of the error. *)
#[local] Ltac refuse :=
  match goal with
  | Hz : err ?c = Some ?z, Hne : ?z ≠ 0 |- _ =>
      repeat first
        [ reflexivity
        | match goal with
          | |- context [errorCheck ?d ?m c] => rewrite (errorCheck_refuses d m c z Hz Hne); cbn
          | |- context [mbind (M := ?M) ?k ?m c] => unfold mbind, excM_bind
          end
        | match goal with
          | |- context [match ?m c with _ => _ end] =>
              let rec head t := match t with ?f _ => head f | _ => t end in
              let h := head m in progress unfold h
          end ]
  end.

(** C18. When the error object that is given to a call has an error already, the call changes
    nothing, neither the objects nor the library below nor the error, and returns the value
    that stands for a failure. *)
Theorem error_sticks (call : c_call (double := double)) (c : cst) z :
  takes_error call = true → err c = Some z → z ≠ 0 →
  perform (Ept := Ept) call c = (c, [], Value (refused call)).
Proof.
  intros Ht Hz Hne. destruct call; try discriminate Ht; clear Ht; unfold perform, returning.
  all: refuse.
Qed.

(** ** Messages and memory of the caller *)

Lemma getMessageObj_live a (c : cst) :
  so_msgValid a (store c) = Some true → default 0 (err c) = 0 →
  getMessageObj (Some a) c = (c, [], Value (Some a)).
Proof.
  intros Hv He. unfold getMessageObj, errorCheck, gets, mbind, excM_bind, read. simpl.
  rewrite He. simpl. by rewrite Hv.
Qed.

(** [helicsMessageGetRawData] writes no more than there is space for, as long as the size of the
    data fits in an [int]. *)
Lemma getRawData_bounded a m data maxlen (c : cst) :
  so_msgValid a (store c) = Some true → so_msg a (store c) = Some m → default 0 (err c) = 0 →
  dataSize m < 2 ^ 31 →
  ∃ c' b n, helicsMessageGetRawData (Ept := Ept) (Some a) data maxlen c = (c', [], Value (b, n)) ∧
    Z.of_nat (String.length b) = n ∧ n ≤ Z.max 0 maxlen ∧ (b = "" ∨ b = msg_data m).
Proof.
  intros Hv Hm He Hsz. unfold helicsMessageGetRawData, mbind, excM_bind at 1.
  rewrite (getMessageObj_live a c Hv He). cbn. unfold excM_bind, read. rewrite Hm.
  rewrite to_sint_id by (unfold sint_range, dataSize in *; simpl; lia).
  destruct (String.eqb_spec (msg_data m) "") as [|Hne].
  { exists c, "", 0. split; [done|]. simpl. split; [done|]. split; [lia|by left]. }
  destruct (negb data || (maxlen <=? 0) || (maxlen <? dataSize m)) eqn:E.
  { eexists _, "", 0. split; [done|]. simpl. split; [done|]. split; [lia|by left]. }
  apply orb_false_iff in E as [E E3]. apply Z.ltb_ge in E3.
  exists c, (msg_data m), (dataSize m). split; [done|]. split; [done|].
  split; [lia|by right].
Qed.

(** With 2^31 bytes or more the comparison is made with a negative number: everything is
    written. *)
Lemma getRawData_overrun a m maxlen (c : cst) :
  so_msgValid a (store c) = Some true → so_msg a (store c) = Some m → default 0 (err c) = 0 →
  2 ^ 31 ≤ dataSize m < 2 ^ 32 → 0 < maxlen →
  ∃ n, helicsMessageGetRawData (Ept := Ept) (Some a) true maxlen c =
    (c, [], Value (msg_data m, n)) ∧ n < 0.
Proof.
  intros Hv Hm He Hsz Hmax. unfold helicsMessageGetRawData, mbind, excM_bind at 1.
  rewrite (getMessageObj_live a c Hv He). cbn. unfold excM_bind, read. rewrite Hm.
  assert (to_sint 32 (dataSize m) < 0) as Hneg.
  { unfold to_sint. change (2 ^ (32 - 1)) with (2 ^ 31).
    rewrite (Z.mod_eq _ (2 ^ 32)) by lia.
    replace ((dataSize m + 2 ^ 31) / 2 ^ 32) with 1; [lia|].
    apply (Z.div_unique _ _ 1 (dataSize m + 2 ^ 31 - 2 ^ 32)); lia. }
  destruct (String.eqb_spec (msg_data m) "") as [Hd|Hne].
  { unfold dataSize in Hsz. rewrite Hd in Hsz. simpl in Hsz. lia. }
  rewrite (proj2 (Z.leb_gt _ _) Hmax), (proj2 (Z.ltb_ge _ _)) by lia. cbn. eauto.
Qed.

(** A negative length is the size of a string that is too long: the exception leaves the C
    function. *)
Lemma setData_escapes a data len (c : cst) :
  so_msgValid a (store c) = Some true → default 0 (err c) = 0 → len < 0 →
  helicsMessageSetData (Ept := Ept) (Some a) data len c = (c, [], Raise StdException).
Proof.
  intros Hv He Hlen. unfold helicsMessageSetData, mbind, excM_bind at 1.
  rewrite (getMessageObj_live a c Hv He). cbn. unfold excM_bind, bytesAt.
  by rewrite (proj2 (Z.ltb_lt _ _) Hlen).
Qed.
End errors.
