(* ===== verification/CApiHandles.v ===== *)
(** * The C interface: messages belong to their handles

    [message_kept]: the content of a message object is not touched by calls for other
    handles, and it lives until it is freed or sent, or its federate object goes. *)

From stdpp Require Import strings gmap.
From S2P Require Import Prelude HelicsTime Flags ActionMessage FilterOperations AppMonad.
From S2P Require Import AppFederate CObjects CObjectsFacts CApi CApiFacts.

Section kept.
  Context `{TimeRep} {W fid Ept FI double : Type} `{!EqDecision fid}.
  Context `{!Federates W fid Ept FI} `{!CTime double}.
  Abbreviation cL := (c_state (W := W) (FI := FI) (S := ledger fid Ept)).

(** The call neither changes or releases the message object [a] nor frees or clears the
    federate object [h] that owns it. *)
Definition spares (a h : addr) (call : c_call (double := double)) : Prop :=
  match call with
  | k_FederateFree fed | k_FederateDestroy fed | k_FederateClearMessages fed => fed ≠ Some h
  | k_CloseLibrary => False
  | k_MessageSetSource m _ | k_MessageSetDestination m _ | k_MessageSetOriginalSource m _
  | k_MessageSetOriginalDestination m _ | k_MessageSetTime m _ | k_MessageSetMessageID m _
  | k_MessageClearFlags m | k_MessageSetString m _ | k_MessageSetFlagOption m _ _
  | k_MessageResize m _ | k_MessageSetData m _ _ | k_MessageAppendData m _ _
  | k_MessageCopy _ m | k_MessageFree m | k_EndpointSendMessageObjectZeroCopy _ m => m ≠ Some a
  | _ => True
  end.

(** ** In the ledger *)

Section ledger.
  Context (a h : addr) (msg : Message).

Definition entered (l : ledger fid Ept) : Prop :=
  lg_msgs l !! a = Some (msg, h) ∧ (a < lg_next l)%nat.
(** The entry stays, and a value that is returned has a property. *)
Definition keeps {A} (n : excM cL Empty_set A) (V : A → Prop) : Prop :=
  ∀ d, entered (store d) →
    entered (store (n d).1.1) ∧ match (n d).2 with Value x => V x | _ => True end.

Lemma keeps_ret {A} (x : A) (V : A → Prop) : V x → keeps (mret x) V.
Proof. by intros ? d. Qed.
Lemma keeps_raise {A} e (V : A → Prop) : keeps (app_raise e) V.
Proof. by intros d. Qed.
Lemma keeps_null {A} (V : A → Prop) : keeps app_null V.
Proof. by intros d. Qed.
Lemma keeps_bind {A B} (n : excM cL Empty_set A) (k : A → excM cL Empty_set B) V V' :
  keeps n V → (∀ x, V x → keeps (k x) V') → keeps (n ≫= k) V'.
Proof.
  intros Hn Hk d Hd. specialize (Hn d Hd). unfold mbind, excM_bind.
  destruct (n d) as [[d1 o1] [x|e|]]; simpl in *; [|done..].
  specialize (Hk x (proj2 Hn) d1 (proj1 Hn)). by destruct (k x d1) as [[d2 o2] r].
Qed.
Lemma keeps_catch {A} p (n : excM cL Empty_set A) k V :
  keeps n V → (∀ e, keeps (k e) V) → keeps (app_catch p n k) V.
Proof.
  intros Hn Hk d Hd. specialize (Hn d Hd). unfold app_catch.
  destruct (n d) as [[d1 o1] [x|e|]]; simpl in *; [done| |done]. destruct (p e); [|done].
  specialize (Hk e d1 (proj1 Hn)). by destruct (k e d1) as [[d2 o2] r].
Qed.
Lemma keeps_noErr {A} (n : excM cL Empty_set A) V : keeps n V → keeps (noErr n) V.
Proof.
  intros Hn d Hd. unfold noErr.
  match goal with |- context [n ?d0] => specialize (Hn d0 Hd); destruct (n d0) as [[d1 o1] r] end.
  exact Hn.
Qed.
Lemma keeps_gets {A} (g : cL → A) : keeps (gets g) (λ _, True).
Proof. by intros d. Qed.
Lemma keeps_modify g : (∀ d, store (g d) = store d) → keeps (app_modify g) (λ _, True).
Proof. intros Hg d Hd. simpl. by rewrite Hg. Qed.
Lemma keeps_read {A} (g : ledger fid Ept → option A) : keeps (read g) (λ _, True).
Proof. intros d Hd. unfold read. by destruct (g (store d)). Qed.
Lemma keeps_onWorld {A} (g : W → W * result A) : keeps (onWorld g) (λ _, True).
Proof. intros d Hd. unfold onWorld. destruct (g (world d)) as [w [| |]]; done. Qed.
Lemma keeps_change {A} (g : ledger fid Ept → option (ledger fid Ept * A)) :
  (∀ l l' x, entered l → g l = Some (l', x) → entered l') → keeps (change g) (λ _, True).
Proof.
  intros Hg d Hd. unfold change. destruct (g (store d)) as [[l x]|] eqn:E; simpl; [|done].
  split; [|done]. by eapply Hg.
Qed.

(** The operations of the store. *)
Lemma keeps_newFed t k : keeps (change (Some ∘ so_newFed t k)) (λ _, True).
Proof. apply keeps_change. intros l l' x [? ?] [= <- <-]. split; [done|simpl; lia]. Qed.
(** A new message is another one. *)
Lemma keeps_addMessage b m : keeps (change (so_addMessage b m)) (.≠ a).
Proof.
  intros d [? ?]. unfold change. simpl. unfold lg_addMsg.
  destruct (lg_feds (store d) !! b); simpl; [|done].
  split; [split; simpl; [rewrite lookup_insert_ne by lia; done|lia]|lia].
Qed.
Lemma keeps_newMessage b : keeps (change (so_newMessage b)) (.≠ a).
Proof. apply (keeps_addMessage b freshMessage). Qed.
Lemma keeps_addEndpoint b e : keeps (change (so_addEndpoint b e)) (λ _, True).
Proof.
  apply keeps_change. intros l l' x [? ?]. simpl.
  destruct (lg_feds l !! b); [|done]. intros [= <- <-]. split; simpl; [done|lia].
Qed.
Lemma keeps_freeFed b : b ≠ h → keeps (change (so_freeFed b)) (λ _, True).
Proof.
  intros Hb. apply keeps_change. intros l l' x [Ha ?]. simpl. unfold lg_freeFed.
  destruct (lg_feds l !! b) as [[t k]|]; [|done]. intros [= <- <-]. split; simpl; [|done].
  apply map_lookup_filter_Some. by split.
Qed.
Lemma keeps_clear b : b ≠ h → keeps (change (giving_unit (so_clear b))) (λ _, True).
Proof.
  intros Hb. apply keeps_change. intros l l' x [Ha ?]. unfold giving_unit. simpl.
  destruct (lg_feds l !! b) as [[t k]|]; [|done]. intros [= <- <-]. split; simpl; [|done].
  apply map_lookup_filter_Some. by split.
Qed.
Lemma keeps_setMsg b m : b ≠ a → keeps (change (giving_unit (so_setMsg b m))) (λ _, True).
Proof.
  intros Hb. apply keeps_change. intros l l' x [Ha ?]. unfold giving_unit. simpl.
  destruct (lg_msgs l !! b) as [[m' h']|]; [|done]. intros [= <- <-]. split; simpl; [|done].
  by rewrite lookup_insert_ne.
Qed.
Lemma keeps_extract b : b ≠ a → keeps (change (so_extract b)) (λ _, True).
Proof.
  intros Hb. apply keeps_change. intros l l' x [Ha ?]. simpl.
  destruct (lg_msgs l !! b) as [[m' h']|]; [|done]. intros [= <- <-]. split; simpl; [|done].
  by rewrite lookup_delete_ne.
Qed.
Lemma keeps_free b : b ≠ a → keeps (change (giving_unit (so_free b))) (λ _, True).
Proof.
  intros Hb. apply keeps_change. intros l l' x [Ha ?]. unfold giving_unit. simpl.
  destruct (lg_msgs l !! b) as [[m' h']|]; [|done]. intros [= <- <-]. split; simpl; [|done].
  by rewrite lookup_delete_ne.
Qed.

#[local] Hint Resolve keeps_raise keeps_null keeps_gets keeps_read keeps_onWorld keeps_newFed
  keeps_addEndpoint : c_sim.

Lemma keeps_assignError code : keeps (assignError code) (λ _, True).
Proof. by apply keeps_modify. Qed.
#[local] Hint Resolve keeps_assignError : c_sim.

(** The object that is checked is the one that is given. *)
Definition checked (given o : option addr) : Prop := o = None ∨ o = given.
#[local] Ltac checked_go :=
  unfold errorCheck; apply (keeps_bind _ _ (λ _, True)); [apply keeps_gets|intros ? _];
  repeat first [ case_match
               | apply keeps_ret; by (left + right)
               | eapply keeps_bind; [solve [auto with c_sim]|intros ? _] ].
Lemma keeps_getFedObject fed : keeps (getFedObject fed) (checked fed).
Proof. unfold getFedObject. checked_go. Qed.
Lemma keeps_getMessageObj m : keeps (getMessageObj m) (checked m).
Proof. unfold getMessageObj. checked_go. Qed.

#[local] Ltac keeps_unfold :=
  match goal with
  | |- keeps ?m _ =>
      let rec head t := match t with ?f _ => head f | _ => t end in
      let h := head m in progress unfold h
  end.
#[local] Ltac other :=
  first
    [ assumption
    | match goal with
      | Hs : ?g ≠ Some ?x, Hc : checked ?g (Some ?b) |- ?b ≠ ?x =>
          destruct Hc; [done|congruence]
      end ].
#[local] Ltac keeps_step :=
  lazymatch goal with
  | |- keeps (mret _) _ => apply keeps_ret; exact I
  | |- keeps (mbind _ _) _ =>
      first [ eapply keeps_bind;
                [solve [repeat apply keeps_noErr;
                        first [apply keeps_getFedObject | apply keeps_getMessageObj
                              | apply keeps_newMessage | apply keeps_addMessage]]
                |intros ? ?]
            | apply (keeps_bind _ _ (λ _, True)); [|intros ? _] ]
  | |- keeps (noErr _) _ => apply keeps_noErr
  | |- keeps (app_catch _ _ _) _ => apply keeps_catch; [|intros ?]
  | |- keeps (app_modify _) _ => apply keeps_modify; done
  | |- keeps (change _) _ =>
      first [ solve [auto with c_sim] | apply keeps_freeFed; other | apply keeps_clear; other
            | apply keeps_setMsg; other | apply keeps_extract; other | apply keeps_free; other ]
  | |- keeps (match _ with _ => _ end) _ => case_match; simplify_eq
  | |- _ => first [solve [auto with c_sim] | keeps_unfold]
  end.
#[local] Ltac keeps_go := repeat keeps_step.

Lemma keeps_getFed fed : keeps (getFed fed) (λ _, True).
Proof. keeps_go. Qed.
Lemma keeps_getMessageFed fed : keeps (getMessageFed fed) (λ _, True).
Proof. keeps_go. Qed.
Lemma keeps_getFedInfo fi : keeps (getFedInfo fi) (λ _, True).
Proof. keeps_go. Qed.
Lemma keeps_verifyEndpoint e : keeps (verifyEndpoint e) (λ _, True).
Proof. keeps_go. Qed.
#[local] Hint Resolve keeps_getFed keeps_getMessageFed keeps_getFedInfo keeps_verifyEndpoint
  : c_sim.
Lemma keeps_fedCall {A B} fed (retval : B) (n : fed_method A) conv :
  keeps (fedCall fed retval n conv) (λ _, True).
Proof. keeps_go. Qed.
Lemma keeps_getFrom {A} m (retval : A) g : keeps (getFrom m retval g) (λ _, True).
Proof. keeps_go. Qed.
#[local] Hint Resolve @keeps_fedCall @keeps_getFrom : c_sim.
Lemma keeps_destroyFederates dead : keeps (destroyFederates (Ept := Ept) dead) (λ _, True).
Proof. induction dead; simpl; keeps_go. Qed.
Lemma keeps_findFedIn name l : keeps (findFedIn (Ept := Ept) name l) (λ _, True).
Proof. induction l; simpl; keeps_go. Qed.
#[local] Hint Resolve keeps_destroyFederates keeps_findFedIn : c_sim.

Lemma keeps_perform call :
  spares a h call → keeps (perform (Ept := Ept) (double := double) call) (λ _, True).
Proof. destruct call; intros Hs; cbn [spares] in Hs; try done; unfold perform; keeps_go. Qed.

Lemma keeps_run calls : ∀ (d : cL) errs,
  entered (store d) → Forall (λ call, spares a h call.2) calls →
  entered (store (runCalls (Ept := Ept) (double := double) calls d errs).1.1).
Proof.
  induction calls as [|[e call] calls IH]; intros d errs Hd Hs; cbn [runCalls]; [done|].
  apply Forall_cons in Hs as [Hc Hs].
  match goal with |- context [perform call ?d0] =>
    destruct (keeps_perform call Hc d0 Hd) as [H1 _]; destruct (perform call d0) as [[d1 o] r]
  end.
  specialize (IH d1 (errorBack e (err d1) errs) H1 Hs).
  destruct r; [..|done]; by destruct (runCalls calls d1 _) as [[d2 es] rs].
Qed.
End ledger.

(** ** In the library *)

Lemma run_app {S} `{!ObjectStore fid Ept S} calls more :
  ∀ (c : c_state (W := W) (FI := FI) (S := S)) errs,
  NullPointer ∉ (runCalls (Ept := Ept) (double := double) (calls ++ more) c errs).2 →
  let fst := runCalls (Ept := Ept) calls c errs in
  let snd := runCalls (Ept := Ept) more fst.1.1 fst.1.2 in
  NullPointer ∉ fst.2 ∧ runCalls (Ept := Ept) (calls ++ more) c errs = (snd.1, fst.2 ++ snd.2).
Proof.
  induction calls as [|[e call] calls IH]; intros c errs Hn; cbn [runCalls app] in *.
  - split; [set_solver|]. simpl. by destruct (runCalls more c errs).
  - match goal with |- context [perform call ?c0] => destruct (perform call c0) as [[c1 o] r] end.
    specialize (IH c1 (errorBack e (err c1) errs)).
    destruct r; [..|simpl in Hn; set_solver].
    all: destruct (runCalls (calls ++ more) c1 _) as [[c2 es] rs];
      destruct (runCalls calls c1 _) as [[c3 es3] rs3]; simpl in *;
      destruct IH as [H1 H2]; [set_solver|]; split; [set_solver|];
      destruct (runCalls more c3 es3) as [[c4 es4] rs4]; simpl in *; by simplify_eq.
Qed.

(** C17. After any calls with live handles a message object keeps its content and its owner
    through all further calls, as long as none of them is a call that changes, frees or
    sends away this object or one that clears or frees the federate object that owns it:
    slots that are used again and copies never mix up two messages. *)
Theorem message_kept calls more (w : W) errs a h m :
  let spec := runCalls (Ept := Ept) (calls ++ more) (start (newLedger : ledger fid Ept) w) errs in
  let before := runCalls (Ept := Ept) calls (start (newHeld : held fid Ept) w) errs in
  let after := runCalls (Ept := Ept) (calls ++ more) (start (newHeld : held fid Ept) w) errs in
  Z.of_nat (lg_next (store spec.1.1)) < capacity → NullPointer ∉ after.2 →
  so_msg a (store before.1.1) = Some m → so_holder a (store before.1.1) = Some (Some h) →
  Forall (λ call, spares a h call.2) more →
  so_msg a (store after.1.1) = Some m ∧ so_holder a (store after.1.1) = Some (Some h).
Proof.
  intros spec before after Hcap Hn Hm Hh Hs.
  pose proof (start_rel (FI := FI) w : c_rel stands_for (start (newHeld : held fid Ept) w) _) as Hst.
  destruct (run_sim (double := double) stands_for lg_next (calls ++ more) _ _ errs Hst Hcap)
    as [Hr Hrel].
  fold spec after in Hr, Hrel. rewrite <-Hr in Hrel. destruct (Hrel Hn) as [_ Hafter].
  pose proof (run_app calls more _ _ Hn) as [Hn1 _]. fold before in Hn1.
  assert (NullPointer ∉ spec.2) as Hns by by rewrite <-Hr.
  pose proof (run_app calls more _ _ Hns) as [Hn2 Hsplit].
  set (spec1 := runCalls calls (start newLedger w) errs) in *.
  destruct (run_sim (double := double) stands_for lg_next calls _ _ errs Hst) as [Hr1 Hrel1].
  { pose proof (run_grows (double := double) stands_for lg_next more spec1.1.1 spec1.1.2) as Hg.
    unfold spec in Hcap. rewrite Hsplit in Hcap. simpl in Hcap. subst spec1. lia. }
  destruct (Hrel1 Hn2) as [_ [[Hi Habs] _ _ _]]. fold before spec1 in Hi, Habs.
  assert (entered a h m (store spec1.1.1)) as Hin.
  { rewrite Habs. simpl in Hm, Hh. apply fmap_Some in Hm as (mo & Hmo & ->).
    rewrite Hmo in Hh. injection Hh as Hh. split; [|by apply Hi in Hmo as [? _]].
    simpl. rewrite lookup_fmap, Hmo. simpl. by rewrite Hh. }
  apply (keeps_run a h m more _ spec1.1.2) in Hin; [|done].
  destruct Hafter as [Hfor _ _ _].
  assert (entered a h m (store spec.1.1)) as Hin' by by unfold spec; rewrite Hsplit.
  rewrite (sim_msg (R := stands_for) a _ _ Hfor), (sim_holder (R := stands_for) a _ _ Hfor).
  simpl. by rewrite (proj1 Hin').
Qed.
End kept.
