(* ===== verification/CApiApp.v ===== *)
(** * Message federates behind the C interface
    (src/src/helics/application_api/Endpoints.hpp, Federate.hpp, Federate.cpp)

    The federates of AppFederate.v and AppMessages.v are a library for the C interface
    ([app_federates]): the calls of CApi.v run them, with the methods of an endpoint that
    forward to its federate. *)

From stdpp Require Import strings gmap.
From S2P Require Import Prelude HelicsTime Ids ActionMessage InterfaceInfo AppMonad AppFederate.
From S2P Require Import AppMessages CObjects CApi.

Section app.
  Context `{TimeRep} `{DualMapped C} `{!DualInsert C} `{SimpleQueue Q} {Wc : Type}.
  Context `{!FederateCore Wc} `{!MessageCore Wc} `{!Application}.
  (** The core for a new federate: the constructors look it up by what the federate
      information or the file says. *)
  Context {FI : Type} (default_info : FI) (connect : string → FI → result Wc)
          (configured : string → result (string * Wc)).
  Abbreviation manager_t := (MessageFederateManager (C := C) (Q := Q)).
  Abbreviation fed_t := (Federate Wc manager_t).

(** The federates with their names; they are message federates whatever type is asked for. *)
Record federation := mkFederation {
  members : gmap nat (string * fed_t);
  created : nat;
}.
#[export] Instance eta_federation : Eta federation := λ w, mkFederation (members w) (created w).

Definition onMember {A} (k : nat)
    (g : FederateName → excM fed_t app_event A) (w : federation) : federation * result A :=
  match members w !! k with
  | Some (name, f) =>
      let '(f, _, r) := g {| getName := name; nameSegmentSeparator := "/" |} f in
      (w <| members := <[k := (name, f)]> (members w) |>, r)
  | None => (w, NullPointer)
  end.

(** ** Federates *)

Definition requestTimeAdvance `{!FederateName} (timeDelta : Time) : excM fed_t app_event Time :=
  f ← app_get; requestTime (currentTime f +t timeDelta).
Definition requestNextStep `{!FederateName} : excM fed_t app_event Time := requestTime Time_zeroVal.
(** A task that was started has run when it is asked for. *)
Definition isAsyncOperationCompleted : excM fed_t app_event bool :=
  f ← app_get;
  mret match currentMode f with
       | m_pending_init | m_pending_exec | m_pending_time | m_pending_iterative_time
       | m_pending_finalize => true
       | _ => false
       end.
(** [Federate::~Federate] *)
Definition destructor `{!FederateName} : excM fed_t app_event unit :=
  f ← app_get;
  match coreObject f with
  | Some _ => app_catch any_exception finalize (λ _, mret tt)
  | None => mret tt
  end.

Definition runMethod `{!FederateName} {A} (m : fed_method A) : excM fed_t app_event A :=
  match m in fed_method A return excM fed_t app_event A with
  | fm_enterInitializingMode => enterInitializingMode
  | fm_enterInitializingModeAsync => enterInitializingModeAsync
  | fm_enterInitializingModeComplete => enterInitializingModeComplete
  | fm_enterExecutingMode it => enterExecutingMode it
  | fm_enterExecutingModeAsync it => enterExecutingModeAsync it
  | fm_enterExecutingModeComplete => enterExecutingModeComplete
  | fm_requestTime t => requestTime t
  | fm_requestTimeAdvance dt => requestTimeAdvance dt
  | fm_requestNextStep => requestNextStep
  | fm_requestTimeIterative t it => requestTimeIterative t it
  | fm_requestTimeAsync t => requestTimeAsync t
  | fm_requestTimeIterativeAsync t it => requestTimeIterativeAsync t it
  | fm_requestTimeComplete => requestTimeComplete
  | fm_requestTimeIterativeComplete => requestTimeIterativeComplete
  | fm_finalize => finalize
  | fm_finalizeAsync => finalizeAsync
  | fm_finalizeComplete => finalizeComplete
  | fm_localError code text => localError code text
  | fm_globalError code text => globalError code text
  | fm_isAsyncOperationCompleted => isAsyncOperationCompleted
  | fm_getCurrentMode => f ← app_get; mret (currentMode f)
  | fm_getCurrentTime => f ← app_get; mret (currentTime f)
  end.

(** ** Endpoints

    A pointer to an endpoint of a federate is its position there; a position that is
    negative is the static endpoint that is not valid. *)
Definition ept_ptr : Type := nat * Z.
Definition pointTo (k : nat) (e : Endpoint) : ept_ptr :=
  (k, if ept_isValid e then referenceIndex e else -1).

(** A method of the endpoint. *)
Definition onEndpoint {A} (p : ept_ptr)
    (g : FederateName → modes → Endpoint → excM (mgr_state (C := C) (Q := Q) (W := Wc)) mgr_event A)
    : federation → federation * result A :=
  onMember p.1 (λ name, withManager (λ mode, e ← getEndpointAt p.2; g name mode e)).

(** [Endpoint::send] with data, and with a message *)
Definition ept_send (dest : option string) (data : string) (time : option Time) (mode : modes)
    (e : Endpoint) : excM (mgr_state (C := C) (Q := Q) (W := Wc)) mgr_event unit :=
  mf_send mode e (default (targetDest e) dest) data time.
Definition ept_sendMessage (m : Message) (mode : modes) (e : Endpoint)
    : excM (mgr_state (C := C) (Q := Q) (W := Wc)) mgr_event unit :=
  mf_sendMessage mode e
    (if String.eqb (msg_dest m) "" then m <| msg_dest := targetDest e |> else m).
Definition ept_setDefaultDestination (target : string) (index : Z)
    : excM (mgr_state (C := C) (Q := Q) (W := Wc)) mgr_event unit :=
  upd_manager (λ m, m <| local_endpoints :=
    dm_assign (local_endpoints m)
      (alter (λ e, e <| targetDest := target |>) (Z.to_nat index)
         (dm_elements (local_endpoints m))) |>).

(** A federate that was made. *)
Definition hold (name : string) (r : result Wc) (w : federation) : federation * result nat :=
  match r with
  | Value core =>
      (w <| members := <[created w := (name, newFederate core newManager)]> (members w) |>
         <| created := S (created w) |>, Value (created w))
  | Raise e => (w, Raise e)
  | NullPointer => (w, NullPointer)
  end.

#[export] Instance app_federates : Federates federation nat ept_ptr FI := {|
  fi_new := default_info;
  f_construct type name info w := hold name (connect name info) w;
  f_configure type file w :=
    match configured file with
    | Value (name, core) => hold name (Value core) w
    | Raise e => (w, Raise e)
    | NullPointer => (w, NullPointer)
    end;
  f_destroy k w :=
    let w := (onMember k (λ _, destructor) w).1 in
    w <| members := delete k (members w) |>;
  f_getName k w := from_option fst "" (members w !! k);
  f_isMessage k w := true;
  f_call A m k := onMember k (λ _, runMethod m);
  f_registerEndpoint global name type k :=
    onMember k (λ fn, withManager (λ _,
      e ← mf_registerEndpoint global name type; mret (pointTo k e)));
  f_getEndpoint name k :=
    onMember k (λ fn, withManager (λ _, e ← mf_getEndpoint name; mret (pointTo k e)));
  f_getEndpointAt index k :=
    onMember k (λ fn, withManager (λ _, e ← getEndpointAt index; mret (pointTo k e)));
  f_getEndpointCount k := onMember k (λ _, withManager (λ _, getEndpointCount));
  f_hasMessage k := onMember k (λ _, withManager (λ mode, mf_hasMessage mode None));
  f_pendingMessages k := onMember k (λ _, withManager (λ mode, mf_pendingMessages mode None));
  f_getMessage k := onMember k (λ _, withManager (λ mode, mf_getMessage mode None));
  e_isValid p := onEndpoint p (λ _ _ e, mret (ept_isValid e));
  e_getName p := onEndpoint p (λ _ _ e, mret (actualName e));
  e_getDefaultDestination p := onEndpoint p (λ _ _ e, mret (targetDest e));
  e_setDefaultDestination target p :=
    onMember p.1 (λ _, withManager (λ _, ept_setDefaultDestination target p.2));
  e_send dest data time p := onEndpoint p (λ _, ept_send dest data time);
  e_sendMessage m p := onEndpoint p (λ _, ept_sendMessage m);
  e_hasMessage p := onEndpoint p (λ _ mode e, mf_hasMessage mode (Some e));
  e_pendingMessages p := onEndpoint p (λ _ mode e, mf_pendingMessages mode (Some e));
  e_getMessage p := onEndpoint p (λ _ mode e, mf_getMessage mode (Some e));
|}.
End app.
