(* ===== verification/CApiExamples.v ===== *)
(** * Programs that use the C interface *)

From stdpp Require Import strings gmap.
From S2P Require Import Prelude HelicsTime Ids ActionMessage InterfaceInfo AppMonad AppFederate.
From S2P Require Import AppMessages AppMessagesExamples CObjects CObjectsFacts CApi CApiFacts.
From S2P Require Import CApiErrors CApiHandles CApiApp.

(** Times are whole numbers here. *)
#[export] Instance z_time : CTime Z := {|
  toTime t := t; fromTime t := t; helics_time_zero := 0; helics_time_invalid := -1;
  helics_time_maxtime := 9223372036 |}.
(** A new federate gets a core with one message for its first endpoint; no core is found for
    a federate without a name. *)
Definition demo_connect (name : string) (info : unit) : result mailbox :=
  if String.eqb name "" then Raise RegistrationFailure
  else Value (0, [(0, chat_message "hello" 1)]).
#[export] Instance demo_federates : Federates (federation (C := named) (Q := list)) nat ept_ptr unit :=
  app_federates tt demo_connect (λ file, Raise OtherHelicsException).
Definition demo_world : federation (C := named) (Q := list) (Wc := mailbox) := mkFederation ∅ 0%nat.

Lemma no_null {A} (l : list (result A)) :
  forallb (λ r, match r with NullPointer => false | _ => true end) l = true → NullPointer ∉ l.
Proof. intros Hf Hin. rewrite forallb_forall in Hf. apply list_elem_of_In, Hf in Hin. done. Qed.

Definition demo_calls : list (option nat * c_call (double := Z)) :=
  [(Some 0%nat, k_CreateFederate message_fed (Some "fed") None);
   (Some 0%nat, k_FederateRegisterEndpoint false (Some 0%nat) (Some "ept") None);
   (Some 0%nat, k_FederateCreateMessageObject (Some 0%nat));
   (Some 0%nat, k_MessageSetString (Some 2%nat) (Some "text"));
   (Some 0%nat, k_MessageClone (Some 2%nat));
   (None, k_MessageFree (Some 2%nat));
   (Some 0%nat, k_EndpointCreateMessageObject (Some 1%nat));
   (Some 0%nat, k_MessageSetString (Some 4%nat) (Some "other"));
   (None, k_MessageGetString (Some 3%nat));
   (Some 0%nat, k_EndpointSendMessageObject (Some 1%nat) (Some 3%nat));
   (Some 0%nat, k_MessageSetTime (Some 3%nat) 7);
   (Some 1%nat, k_FederateEnterExecutingMode (Some 0%nat));
   (Some 1%nat, k_EndpointSendMessageObjectZeroCopy (Some 1%nat) (Some 3%nat));
   (Some 1%nat, k_FederateRequestTime (Some 0%nat) 4);
   (None, k_EndpointGetMessageObject (Some 1%nat));
   (None, k_MessageGetString (Some 5%nat));
   (None, k_FederateFree (Some 0%nat))].

Lemma c_api_refines_witness :
  let code := runCalls (Ept := ept_ptr) demo_calls (start newHeld demo_world) [0; 0] in
  code.1.2 = [-10; 0] ∧
  code.2 = Value <$> [a_handle (Some 0%nat); a_handle (Some 1%nat); a_handle (Some 2%nat);
    a_unit tt; a_handle (Some 3%nat); a_unit tt; a_handle (Some 4%nat); a_unit tt;
    a_string "text"; a_unit tt; a_unit tt; a_unit tt; a_unit tt; a_time 4;
    a_handle (Some 5%nat); a_string "hello"; a_unit tt].
Proof.
  cbv zeta.
  destruct (c_api_refines (Ept := ept_ptr) demo_calls demo_world [0; 0]) as [Hr Hrel].
  - vm_compute. reflexivity.
  - split; [|rewrite Hr; vm_compute; reflexivity].
    destruct Hrel as [He _]; [|rewrite He; vm_compute; reflexivity].
    apply no_null. vm_compute. reflexivity.
Defined.

(** The clone keeps the text while the first message is freed and its slot used again. *)
Lemma message_kept_witness :
  let before := runCalls (Ept := ept_ptr) (take 5 demo_calls) (start newHeld demo_world) [0; 0] in
  let after := runCalls (Ept := ept_ptr) (take 10 demo_calls) (start newHeld demo_world) [0; 0] in
  so_holder (Ept := ept_ptr) 3%nat (store before.1.1) = Some (Some 0%nat) ∧
  so_msg (fid := nat) (Ept := ept_ptr) 3%nat (store after.1.1) =
    Some (freshMessage <| msg_data := "text" |>).
Proof.
  cbv zeta. split; [vm_compute; reflexivity|].
  refine (proj1 (message_kept (Ept := ept_ptr) (take 5 demo_calls) (take 5 (drop 5 demo_calls))
    demo_world [0; 0] 3%nat 0%nat (freshMessage <| msg_data := "text" |>) _ _ _ _ _)).
  - vm_compute. reflexivity.
  - apply no_null. vm_compute. reflexivity.
  - vm_compute. reflexivity.
  - vm_compute. reflexivity.
  - repeat constructor; discriminate.
Defined.

Lemma error_sticks_witness :
  let c := (start newHeld demo_world) <| err := Some (-10) |> in
  perform (Ept := ept_ptr) (k_FederateRequestTime (Some 9%nat) 5) c = (c, [], Value (a_time (-1))).
Proof.
  cbv zeta.
  exact (error_sticks (Ept := ept_ptr) (k_FederateRequestTime (Some 9%nat) 5)
    ((start newHeld demo_world) <| err := Some (-10) |>) (-10) eq_refl eq_refl ltac:(discriminate)).
Defined.
